(* ===== verification/_CoqProject ===== *)
-Q . S2P
Prelude.v
PyValue.v
StateMachines.v
FacilityQueue.v
Tiebreak.v
Pools.v
Arbitration.v
Constraints.v
Spatial.v
Solver.v
Policies.v
PooledPlanner.v
BatchWriter.v
Frame.v
HotStore.v
Scheduler.v
Agent.v
Runtime.v
Supervisor.v
Consumer.v
Health.v
Rebate.v
HaulDuration.v
HaulTrip.v
Truck.v
Analytics.v
AssignmentManager.v
AssignmentApp.v
Handoff.v
EffLogic.v
ArchiveDocs.v
Archive.v
ArchiveSafety.v
DuckStore.v
ArchiveExample.v
Rehydration.v
Messages.v
Service.v
