(* ===== verification/Prelude.v ===== *)
(** * A verification of the OpenRide applications

    The repository simulates transport operations.  Agents (trucks, orders,
    facilities) and services (assignment, order lifecycle) run as applications on
    the third-party [orsim] scheduler, exchange MQTT messages and keep their
    documents in a REST API over MongoDB; a data plane collects the truck positions
    of running simulations and serves them as binary frames.  This development
    models the parts that carry the program's own logic, from
    [src/apps/container_logistics/] (the container-haulage domain),
    [src/apps/simulation/] and [src/apps/dataplane/], each file of the source being
    named where it is modelled.

    ** How the parts interact

    The simulation runtime launches agents as they come due and steps the schedulers
    ([Runtime]); a scheduler sends each step to the agents that are awake, waits for
    their replies and drops the silent ones ([Scheduler], [Agent]).  An order waits in
    the order-lifecycle service ([BatchWriter]); each tick the assignment service
    reads trucks and orders ([AssignmentManager]), pairs them by partitioned
    assignment or by an auction over shared pools ([AssignmentApp],
    [PooledPlanner]) and publishes what it assigned ([Handoff]); the truck it names
    ([Truck]) plans its routes and runs a haul trip ([HaulTrip]), whose transitions
    emit events that move the order ([StateMachines]) and that queue the truck at
    facility gates ([FacilityQueue]).  Completed trips are
    folded into the analytics ([Analytics]), which prices arrivals with the rebate
    book ([Rebate]) and measures work with the modelled durations ([HaulDuration]).
    Positions flow through the data plane's consumer ([Consumer]) to the hot tier
    ([HotStore]), which packs them into frames ([Frame]).  The handlers of the service
    ([Service]) write frames, KPI rows, breakdown rows and code books to the working
    set ([DuckStore]), forward what they see to live subscribers ([Messages]), and close
    a run when its status says so; the archive ([Archive]) then copies the run to its
    documents ([ArchiveDocs]), from which it is brought back later ([Rehydration]).  The
    consumer's figures and the supervisor's task statuses ([Supervisor]) decide the
    health verdict ([Health]).

    ** The files, what they model and what they show

    - [Prelude]: orders and stable sorting ([sorted]), greedy selection, ordered
      dictionaries ([d_get], [d_set], [d_del]: Python's [dict], in insertion order),
      invariants of folds and of step relations; the [openride] hint database.
    - [PyValue]: exceptions as values ([result]), state with exceptions ([eff]; the
      state survives the exception), IEEE binary64 arithmetic, Python values and the
      conversions [float], [int], [str], [bool] the source applies to them.
    - [StateMachines] ([statemachine/]): the transition tables of orders, haul trips
      and gates, and the interaction rules.  An order that follows its haul trip's
      events only makes legal moves; a trip ends in at most eight transitions.
    - [FacilityQueue] ([statemachine/facility_queue_sm.py], [facility/]): the FIFO
      controller and the agent's step as functions on its state.  No truck is lost or
      duplicated by a step; gates are handed out first come, first served; a gate
      allocated with service time zero is never released.
    - [Tiebreak] ([assignment/tiebreak.py]): stable hashes and shuffling.
    - [Pools] ([assignment/pools.py]): parsing of the pool structure, and the market
      of a tick.  Nothing is committed twice, contributions are valid and never
      withdrawn, and the views of an order's visibility agree.
    - [Arbitration] ([assignment/arbitration.py]): the four rules.  The class
      [ArbitrationLaws] is the contract the planner relies on (awards free of
      conflicts, independence of the order of bids), and every rule is an instance;
      per-rule stability theorems say who may lose to whom.
    - [Constraints] ([assignment/constraints.py]): haulier rules and pair costs.
    - [Spatial] ([assignment/spatial.py]): the grid index returns nearest trucks, and
      candidate pairs are feasible.
    - [Solver] ([assignment/solver/]): the greedy and random solvers meet the class
      [SolverLaws]; the greedy matching is stable and independent of input order.
    - [Policies] ([assignment/policy/]): the offer and claim policies.
    - [PooledPlanner] ([assignment/pooled_planner.py]): [run_pooled_market] from
      contribution to share tags, for arbitrary solvers and policies.  Awards are
      safe, rounds are bounded, the final assertions never fire, tags are exact.
    - [BatchWriter] ([order_lifecycle/]): events folded into one write per order.
      Over any collection that meets [CollectionLaws] a step equals applying the
      events one at a time ([spec_events]), then publishing, then sweeping; batch
      boundaries are invisible, final orders are never rewritten, and a sweep that
      hits a haul under way leaves no trace once its first event arrives.
    - [Frame] ([dataplane/contract/frame.py]): the binary codec.  Encoding and
      decoding are inverse, and decoding rejects everything else with the contract's
      errors.
    - [HotStore] ([dataplane/store/hot.py]): the slabs, eviction, parking and
      revival.  The operations as data ([op]) and their histories give: the
      invariant, indices that only increase across evictions, slots and codes that
      keep their meaning, frames that report exactly the positions held.

    - [Scheduler] ([simulation/openride_scheduler.py]): the step barrier, replies,
      naps, timeouts, pruning and the stash of pruned agents.  The barrier resolves
      exactly when everyone expected has answered; a run is given up exactly at the
      first complete streak of timeouts.
    - [Agent] ([openride_agent.py], [order/agent.py]): an agent's answer to a step and
      the sleep protocol, composed with the scheduler: nobody who keeps to the
      protocol is pruned.
    - [Runtime] ([simulation/simulation_runtime.py], [batched_agent_source.py],
      [terminations.py]): spawning, the step loop, termination and status writes.
      Orders are spawned in order and under the cap; the drain cap ends the run, but
      for a service agent that never boots; status records are truthful.
    - [Supervisor] ([dataplane/supervisor.py]): runner threads as program counters
      over a shared task, in any interleaving of their lock sections.  A superseded
      thread has no influence and leaves; a restart storm is unhealthy.
    - [Consumer] ([dataplane/ingest/consumer.py]): routing, the offset rule, flushes,
      commits, rewinds and backlog, against an abstract broker.  A commit covers only
      what is durable; a turn of the poll loop refines the broker's steps; a failure
      above a compaction gap blocks its partition for ever.
    - [Health] ([dataplane/health.py]): the verdict, for arbitrary collaborators and
      exactly characterised for the figures [Consumer] reports; a wedged partition
      is loud.
    - [Rebate] ([rebate.py]): schedules, parsing, pricing and the book.  A schedule
      pays exactly what was authored, and stamped blocks parse back.
    - [HaulDuration] ([haul_trip_duration.py]): clamped legs and the least haul.
    - [HaulTrip] ([truck/trip_manager.py], [common/trip_manager_base.py]): the trip's
      document, its transitions over the REST server and the messages they publish.
      On any server that meets [HaulServer], whatever calls are made, an order that
      follows the published events is in the state that mirrors the server's trip;
      the event clock never points to the past.  [RestServer] is a server that meets
      the laws.
    - [Truck] ([truck/app.py], [truck/manager.py], [truck/idle_trip_manager.py], the
      interaction mixins, [truck/agent.py], [message_data_models.py]): assignment,
      route planning and its cache, the idle trip, gate events, movement, the agent's
      step.  At most one haul of a truck is open at any time; only real routes are
      cached, in bounded room; a haul that is over frees the truck.
    - [Handoff]: what [AssignmentApp] publishes is what the truck it names carries out.
    - [Analytics] ([analytics/manager.py]): accumulation, settlement, breakdowns and
      the end-of-run recompute, in the state-and-exception monad.  The books balance
      after any calls, also half-way through one that raised, and how a run is cut
      into windows leaves no trace.
    - [AssignmentManager] ([assignment/manager.py]): the reads of a tick, by
      aggregation or paging, are complete.
    - [AssignmentApp] ([assignment/app.py]): a tick from its reads to the messages,
      in both topologies, with collaboration tags and the provenance of rounds.
    - [EffLogic]: triples ([hoare], [preserves]) for computations with state and
      exceptions, and the hint database [eff]; [Archive], [DuckStore] and [Service] are
      proved with it.
    - [ArchiveDocs] ([dataplane/archive/mongo.py], the documents): timestamps and their
      text, rows, frames and columns as documents, and their identifiers.
    - [Archive] (the same file, [MongoArchive]): batches, the dump of a run, whether a
      run is pending, the sweep.  The collections ([Collection]) and the reader of the
      working set ([DuckReader]) are interfaces with laws.
    - [ArchiveSafety]: over any history of dumps, sweeps and changes of the working set,
      with any call failing: a run the sweep leaves alone is archived as it is, nothing is
      ever taken out of the archive, dumping again changes nothing.
    - [DuckStore] ([dataplane/store/duck.py]): tables, statements and transactions that
      may fail, the writers, the readers, frames read in windows of 200 indices,
      rehydration and eviction.  A rehydration is all or nothing; reading in windows
      is invisible; the store meets the laws of [DuckReader] ([duck_store_laws]).
    - [ArchiveExample]: collections in memory that meet the laws, and a run dumped twice.
    - [Rehydration]: the archive as the source of a rehydration.  A run archived and
      evicted comes back with the same rows and frames.
    - [Messages] ([dataplane/ingest/parse.py], [_LiveBus]): which status messages end a
      run and with what outcome; every live event reaches a subscriber once, in order.
    - [Service] ([dataplane/service.py]): the handlers, frame capture, the end of a run,
      the code books and the queue of dumps.  Closing a run is all or nothing; a closed run
      stays closed over any history of calls ([step]); the code books on disk only
      grow; draining the queue ends and loses nothing (its fuel is the length of the
      queue).

    ** How the code is represented

    Definitions keep the source's names.  Pure functions are functions; objects that
    are changed are records passed along; exceptions are [Raise e].  A [dict] whose
    order matters is an association list, one that does not is a [gmap]; a set is a
    [gset].  Python integers are [Z]; [float] is the standard library's
    [spec_float] at precision 53, exact to the last bit.  Loops are structural, or
    bounded by a measure the code itself has: the auction by its configured rounds
    (clamped to 1..100), eviction by the number of resident runs, sampling and
    shuffling by the length of the list, paging by the documents there are (fuel,
    with a theorem that it is enough), the checkpoints of the recompute by the
    seconds left (lemma [checkpoints_end]).  Threads and clients are step relations
    or lists of events, in any order the code allows.  Text is a string of bytes: upper
    and lower case, and white space, are those of ASCII.

    ** Parameters

    What the source calls but does not define is a class of operations: [PyText]
    (text conversions of the interpreter), [PyMath] (trigonometry), [Blake2b] (the
    digest), [Rng] (random draws), [WriterEnv] (clocks, SHA-1, database ids),
    [Collection] (the database driver), [Numpy] and [HotEnv] (array buffers, the
    monotonic clock), [TimeText] and [SimTime] (date parsers), [Digests] (blake2b of a
    schedule), the transport of the parent scheduler, an agent's own behaviour
    ([AgentBody]), a truck's base class, polylines and line interpolation
    ([TruckWorld]), the REST and routing servers (a function from request and server
    state to response), the Kafka client and its decoder, the statements and
    transactions of the SQL engine (a list of faults says which fail), JSON
    ([DuckEnv], [ServiceEnv]), and for the service its consumer and archive
    ([ConsumerTier], [ArchiveTier]).  Laws about them
    are separate classes that state documented behaviour; each theorem that uses one
    has a witness with a concrete instance.

    ** Not modelled

    Logging; the transport of REST, MQTT, Kafka and database traffic.  Threads are
    modelled where they share state without a lock ([Supervisor]); each operation of
    the hot tier and of the consumer holds its lock throughout and is atomic.  Left
    out of the analytics are the counting endpoints, the KPIs that use Python's
    [sum] of floats (its rounding depends on the interpreter's version) and the
    geometry stream; of the stores, index creation, clients, cursors, checkpoints and
    statistics; of the service, its threads and their locks (a handler, a sweep, a drain
    is one step), the connection to the archive and its backoff, and the state it shows
    to the health endpoint.  The order's REST manager, the read API, scenario
    compilation, data generation, dashboards, ride-hailing and the command line are not
    modelled. *)

From stdpp Require Export base list gmap sets strings.
From Stdlib Require Export Sorted Permutation.

#[global] Set Default Goal Selector "!".

(** ** Scope, tactics and hint databases *)

Declare Scope openride_scope.
Delimit Scope openride_scope with openride.

(** [openride] collects the lemmas that close the common side conditions. *)
Create HintDb openride.

(** Split every [match]/[if] the goal or a hypothesis is stuck on. *)
Ltac split_matches :=
  repeat (case_match; simplify_eq/=).

(** Turn boolean tests into the propositions they decide. *)
Ltac bools :=
  repeat match goal with
  | H : andb _ _ = true |- _ => apply andb_true_iff in H as [? ?]
  | H : orb _ _ = false |- _ => apply orb_false_iff in H as [? ?]
  | H : negb _ = true |- _ => apply negb_true_iff in H
  | H : negb _ = false |- _ => apply negb_false_iff in H
  | H : bool_decide _ = true |- _ => apply bool_decide_eq_true in H
  | H : bool_decide _ = false |- _ => apply bool_decide_eq_false in H
  | H : Z.leb _ _ = true |- _ => apply Z.leb_le in H
  | H : Z.leb _ _ = false |- _ => apply Z.leb_gt in H
  | H : Z.ltb _ _ = true |- _ => apply Z.ltb_lt in H
  | H : Z.ltb _ _ = false |- _ => apply Z.ltb_ge in H
  end.

(** ** Total preorders given by a boolean test

    Python's [sorted] compares keys with [<] only and is stable.  A key order
    is a boolean [leb] ([leb x y] is [not (y < x)]), and its laws are stated
    on the keys that occur: [P] is the set of keys the laws cover (no NaN, for
    a key that holds a float). *)

Class TotalOn {A} (P : A → Prop) (leb : A → A → bool) : Prop := {
  total_on x y : P x → P y → leb x y = true ∨ leb y x = true;
  trans_on x y z : P x → P y → P z → leb x y = true → leb y z = true → leb x z = true;
}.

(** Keys on which [leb] in both directions means equality. *)
Class AntiOn {A} (P : A → Prop) (leb : A → A → bool) : Prop :=
  anti_on x y : P x → P y → leb x y = true → leb y x = true → x = y.

Definition always {A} : A → Prop := λ _, True.

(** Python's comparison of two-element tuples: the second components decide
    only when the first ones are equivalent. *)
Definition pair_leb {A B} (la : A → A → bool) (lb : B → B → bool) (x y : A * B) : bool :=
  la x.1 y.1 && (negb (la y.1 x.1) || lb x.2 y.2).

Definition both {A B} (P : A → Prop) (Q : B → Prop) (x : A * B) : Prop := P x.1 ∧ Q x.2.

(** [sorted(..., key=key)]: the order on items that a key induces. *)
Definition on_key {A K} (key : A → K) (leb : K → K → bool) (x y : A) : bool :=
  leb (key x) (key y).

Section Orders.
Context {A B : Type}.

#[global] Instance pair_leb_total (P : A → Prop) (Q : B → Prop) la lb :
  TotalOn P la → TotalOn Q lb → TotalOn (both P Q) (pair_leb la lb).
Proof.
  intros Ha Hb. unfold pair_leb, both. split.
  - intros [a b] [a' b'] [Hp Hq] [Hp' Hq']; simpl in *.
  destruct (total_on a a' Hp Hp') as [H|H]; destruct (total_on b b' Hq Hq') as [G|G];
  rewrite H, G; destruct (la a a'), (la a' a); auto.
  - intros [a b] [a' b'] [a'' b''] [Hp Hq] [Hp' Hq'] [Hp'' Hq'']; simpl in *.
  rewrite !andb_true_iff, !orb_true_iff, !negb_true_iff.
  intros [H1 H2] [H3 H4]. split; [by eapply (trans_on a a' a'')|].
  destruct (la a'' a) eqn:E; [|by left]. right.
  assert (la a' a = true) by (by eapply (trans_on a' a'' a)).
  assert (la a'' a' = true) by (by eapply (trans_on a'' a a')).
  destruct H2, H4; try congruence. by eapply (trans_on b b' b'').
Qed.

#[global] Instance pair_leb_anti (P : A → Prop) (Q : B → Prop) la lb :
  AntiOn P la → AntiOn Q lb → AntiOn (both P Q) (pair_leb la lb).
Proof.
  intros Ha Hb [a b] [a' b'] [Hp Hq] [Hp' Hq']; unfold pair_leb; simpl in *.
  rewrite !andb_true_iff, !orb_true_iff, !negb_true_iff. intros [H1 H2] [H3 H4].
  assert (a = a') as -> by (by apply Ha).
  destruct H2, H4; try congruence. f_equal; by apply Hb.
Qed.

(** Tuples that compare equal have components that compare equal. *)
Lemma pair_leb_both (la : A → A → bool) (lb : B → B → bool) x y :
  pair_leb la lb x y = true → pair_leb la lb y x = true →
  (la x.1 y.1 = true ∧ la y.1 x.1 = true) ∧ (lb x.2 y.2 = true ∧ lb y.2 x.2 = true).
Proof.
  unfold pair_leb. rewrite !andb_true_iff, !orb_true_iff, !negb_true_iff. naive_solver congruence.
Qed.

Lemma pair_leb_ext (la : A → A → bool) (lb : B → B → bool) x y x' y' :
  la x.1 y.1 = la x'.1 y'.1 → la y.1 x.1 = la y'.1 x'.1 → lb x.2 y.2 = lb x'.2 y'.2 →
  pair_leb la lb x y = pair_leb la lb x' y'.
Proof. unfold pair_leb. by intros -> -> ->. Qed.

Lemma on_key_total (P : B → Prop) (key : A → B) leb `{!TotalOn P leb} :
  (∀ x, P (key x)) → TotalOn always (on_key key leb).
Proof.
  intros HP. split; unfold on_key.
  - intros x y _ _. by apply total_on.
  - intros x y z _ _ _. by apply trans_on.
Qed.
End Orders.

#[global] Instance Z_leb_total : TotalOn always Z.leb.
Proof. split; intros; rewrite ?Z.leb_le in *; lia. Qed.

#[global] Instance Z_leb_anti : AntiOn always Z.leb.
Proof. intros x y _ _; rewrite !Z.leb_le; lia. Qed.

#[global] Instance string_leb_total : TotalOn always String.leb.
Proof.
  split.
  - intros x y _ _. apply String.leb_total.
  - intros x y z _ _ _ H1 H2. apply Is_true_true.
    apply (transitivity (R := String.le) (y := y)); by apply Is_true_true.
Qed.

#[global] Instance string_leb_anti : AntiOn always String.leb.
Proof. intros x y _ _. apply String.leb_antisym. Qed.

(** ** Python's stable [sorted] *)

Section Sort.
Context {A : Type} (leb : A → A → bool).

Fixpoint insert_sorted (x : A) (l : list A) : list A :=
  match l with
  | [] => [x]
  | y :: l' => if leb x y then x :: y :: l' else y :: insert_sorted x l'
  end.

Fixpoint py_sorted (l : list A) : list A :=
  match l with
  | [] => []
  | x :: l' => insert_sorted x (py_sorted l')
  end.

Lemma insert_sorted_perm x l : insert_sorted x l ≡ₚ x :: l.
Proof.
  induction l as [|y l IH]; simpl; [done|]. case_match; [done|].
  rewrite IH. apply Permutation_swap.
Qed.

Lemma py_sorted_perm l : py_sorted l ≡ₚ l.
Proof. induction l as [|x l IH]; simpl; [done|]. by rewrite insert_sorted_perm, IH. Qed.

Lemma elem_of_py_sorted x l : x ∈ py_sorted l ↔ x ∈ l.
Proof. by rewrite py_sorted_perm. Qed.

Definition sorted_by : list A → Prop := StronglySorted (λ x y, leb x y = true).

Context (P : A → Prop) `{!TotalOn P leb}.

Lemma insert_sorted_sorted x l :
  P x → Forall P l → sorted_by l → sorted_by (insert_sorted x l).
Proof.
  unfold sorted_by. intros Hx Hl Hs. induction Hs as [|y l Hs IH Hy]; simpl.
  { repeat constructor. }
  apply Forall_cons in Hl as [HPy Hl]. destruct (leb x y) eqn:E.
  - repeat constructor; auto. apply Forall_forall. intros z Hz.
  rewrite Forall_forall in Hy, Hl. apply (trans_on x y z); auto.
  - constructor; auto. rewrite insert_sorted_perm. constructor; [|done].
  destruct (total_on x y) as [?|?]; auto; congruence.
Qed.

Lemma py_sorted_sorted l : Forall P l → sorted_by (py_sorted l).
Proof.
  induction l as [|x l IH]; intros Hl; simpl; [constructor|].
  apply Forall_cons in Hl as [Hx Hl]. apply insert_sorted_sorted; auto.
  by rewrite py_sorted_perm.
Qed.

(** Sorting forgets the order of the input when no two distinct items of
the input are equivalent for the key. *)
Lemma py_sorted_unique l l' :
  Forall P l →
  (∀ x y, x ∈ l → y ∈ l → leb x y = true → leb y x = true → x = y) →
  l ≡ₚ l' → py_sorted l = py_sorted l'.
Proof.
  intros HP Hanti Hperm.
  assert (sorted_by (py_sorted l)) as H1 by (by apply py_sorted_sorted).
  assert (sorted_by (py_sorted l')) as H2
  by (apply py_sorted_sorted; by rewrite <-Hperm).
  assert (py_sorted l ≡ₚ py_sorted l') as H3 by (by rewrite !py_sorted_perm).
  assert (∀ x y, x ∈ py_sorted l → y ∈ py_sorted l →
  leb x y = true → leb y x = true → x = y) as H4.
  { intros x y. rewrite !elem_of_py_sorted. apply Hanti. }
  clear Hanti HP Hperm. revert H1 H2 H3 H4.
  generalize (py_sorted l), (py_sorted l'). clear l l'.
  unfold sorted_by. induction l as [|x l IH]; intros l' H1 H2 H3 H4.
  { by apply Permutation_nil in H3. }
  destruct l' as [|y l']; [by symmetry in H3; apply Permutation_nil in H3|].
  apply StronglySorted_inv in H1 as [H1 Hx]. apply StronglySorted_inv in H2 as [H2 Hy].
  rewrite Forall_forall in Hx, Hy.
  assert (x = y) as <-.
  { assert (x ∈ y :: l') as E1 by (rewrite <-H3; left).
  assert (y ∈ x :: l) as E2 by (rewrite H3; left).
  apply elem_of_cons in E1 as [?|E1]; [done|].
  apply elem_of_cons in E2 as [?|E2]; [done|].
  apply H4; [by left|by right|by apply Hx|by apply Hy]. }
  f_equal. apply IH; auto.
  - by eapply Permutation_cons_inv.
  - intros; apply H4; auto; by right.
Qed.
End Sort.

(** Only the comparisons among the items of the list matter to [sorted]. *)
Lemma py_sorted_ext {A} (leb leb' : A → A → bool) l :
  (∀ x y, x ∈ l → y ∈ l → leb x y = leb' x y) → py_sorted leb l = py_sorted leb' l.
Proof.
  assert (∀ x (k : list A), (∀ y, y ∈ k → leb x y = leb' x y) →
    insert_sorted leb x k = insert_sorted leb' x k) as Hins.
  { intros x k. induction k as [|y k IH]; intros Hk; simpl; [done|].
    rewrite (Hk y) by left. case_match; [done|]. f_equal. apply IH. intros; apply Hk; by right. }
  induction l as [|x l IH]; intros Hl; simpl; [done|].
  rewrite IH by (intros; apply Hl; by right). apply Hins.
  intros y Hy. apply elem_of_py_sorted in Hy. apply Hl; [left|by right].
Qed.

(** Python's [sorted(set)] of strings, for a set given as a [gset]. *)
Definition sorted_strings (X : gset string) : list string :=
  py_sorted String.leb (elements X).

Lemma elem_of_sorted_strings x (X : gset string) : x ∈ sorted_strings X ↔ x ∈ X.
Proof. unfold sorted_strings. by rewrite elem_of_py_sorted, elem_of_elements. Qed.

Lemma NoDup_sorted_strings (X : gset string) : NoDup (sorted_strings X).
Proof. unfold sorted_strings. rewrite py_sorted_perm. apply NoDup_elements. Qed.

#[export] Hint Resolve NoDup_sorted_strings : openride.

(** ** Reflexive-transitive steps *)

Inductive star {S : Type} (step : S → S → Prop) : S → S → Prop :=
| star_refl s : star step s s
| star_step s1 s2 s3 : step s1 s2 → star step s2 s3 → star step s1 s3.

#[export] Hint Constructors star : openride.

Lemma star_trans {S} (step : S → S → Prop) s1 s2 s3 :
  star step s1 s2 → star step s2 s3 → star step s1 s3.
Proof. induction 1; eauto with openride. Qed.

(** The induction principle every state-machine invariant goes through. *)
Lemma star_invariant {S} (step : S → S → Prop) (I : S → Prop) :
  (∀ s s', I s → step s s' → I s') → ∀ s s', I s → star step s s' → I s'.
Proof. intros Hstep s s' Hs Hstar. induction Hstar; eauto. Qed.

(** ** Lists *)

Lemma Forall_py_sorted {A} (leb : A → A → bool) (P : A → Prop) l :
  Forall P l → Forall P (py_sorted leb l).
Proof. by rewrite py_sorted_perm. Qed.

Lemma is_Some_decide {A} (P : Prop) `{Decision P} (v : A) :
  is_Some (if decide P then Some v else None) ↔ P.
Proof. case_decide; split; try done; eauto. Qed.

Lemma NoDup_concat_map {A B} (f : A → list B) l :
  NoDup l → (∀ x, x ∈ l → NoDup (f x)) →
  (∀ x y z, x ∈ l → y ∈ l → z ∈ f x → z ∈ f y → x = y) → NoDup (concat (map f l)).
Proof.
  induction 1 as [|x l Hx Hl IH]; simpl; intros Hnd Hinj; [constructor|].
  apply NoDup_app. split_and!.
  - apply Hnd. by left.
  - intros z Hz (k & Hk & Hzk)%list_elem_of_In%in_concat.
    apply in_map_iff in Hk as (y & <- & Hy%list_elem_of_In).
    apply Hx. rewrite (Hinj x y z); [done|by left|by right|done|by apply list_elem_of_In].
  - apply IH; [intros; apply Hnd; by right|intros; eapply Hinj; eauto; by right].
Qed.

(** The left fold of a loop body preserves what the body preserves. *)
Lemma foldl_invariant {A B} (f : A → B → A) (I : A → Prop) (l : list B) a :
  (∀ a b, b ∈ l → I a → I (f a b)) → I a → I (foldl f a l).
Proof.
  revert a. induction l as [|b l IH]; intros a Hf Ha; simpl; [done|].
  apply IH.
  - intros; apply Hf; [by right|done].
  - apply Hf; [by left|done].
Qed.

#[export] Hint Resolve Forall_py_sorted : openride.

(** ** Greedy selection

    Walk a ranked list and keep every item whose two resources are not taken
    yet: the sweep at the end of every allocator of the program. *)

Section Greedy.
Context {A K : Type} `{Countable K} (k1 k2 : A → K) (free : A → bool).
Implicit Types (X Y : gset K).

Fixpoint gsweep X Y (l : list A) : list A :=
  match l with
  | [] => []
  | a :: l =>
      if decide (k1 a ∈ X ∨ k2 a ∈ Y) then gsweep X Y l
      else if free a then a :: gsweep ({[k1 a]} ∪ X) ({[k2 a]} ∪ Y) l
      else gsweep X Y l
  end.

Lemma gsweep_sublist X Y l : gsweep X Y l `sublist_of` l.
Proof.
  revert X Y. induction l as [|a l IH]; intros X Y; simpl; [done|].
  repeat case_match; by constructor.
Qed.

Lemma gsweep_avoids X Y l a : a ∈ gsweep X Y l → k1 a ∉ X ∧ k2 a ∉ Y ∧ free a = true.
Proof.
  revert X Y. induction l as [|b l IH]; intros X Y; simpl; [by intros ?%elem_of_nil|].
  case_decide as Hd; [apply IH|]. destruct (free b) eqn:Hf; [|apply IH].
  intros [->|Hin]%elem_of_cons; [tauto|]. apply IH in Hin. set_solver.
Qed.

Lemma gsweep_NoDup X Y l : NoDup (map k1 (gsweep X Y l)) ∧ NoDup (map k2 (gsweep X Y l)).
Proof.
  revert X Y. induction l as [|b l IH]; intros X Y; simpl; [by split; constructor|].
  case_decide as Hd; [apply IH|]. destruct (free b) eqn:Hf; [|apply IH].
  destruct (IH ({[k1 b]} ∪ X) ({[k2 b]} ∪ Y)) as [H1 H2]. simpl.
  split; apply NoDup_cons; (split; [|done]); intros (a & E & Ha)%list_elem_of_fmap;
  apply gsweep_avoids in Ha; set_solver.
Qed.

(** A free item is left out only for one that precedes it (or is it). *)
Lemma gsweep_maximal X Y l1 b l2 :
  free b = true → k1 b ∉ X → k2 b ∉ Y →
  ∃ a, a ∈ l1 ++ [b] ∧ a ∈ gsweep X Y (l1 ++ b :: l2) ∧ (k1 a = k1 b ∨ k2 a = k2 b).
Proof.
  intros Hf. revert X Y. induction l1 as [|c l1 IH]; intros X Y HX HY; simpl.
  { rewrite decide_False by tauto. rewrite Hf. exists b. set_solver. }
  assert (∀ X' Y', k1 b ∉ X' → k2 b ∉ Y' → ∃ a, a ∈ c :: l1 ++ [b] ∧ a ∈ gsweep X' Y' (l1 ++ b :: l2) ∧
  (k1 a = k1 b ∨ k2 a = k2 b)) as Hskip.
  { intros X' Y' HX' HY'. destruct (IH X' Y' HX' HY') as (a & ? & ? & ?). exists a. set_solver. }
  case_decide; [by apply Hskip|]. destruct (free c); [|by apply Hskip].
  destruct (decide (k1 c = k1 b ∨ k2 c = k2 b)) as [Hc|Hc]; [exists c; set_solver|].
  destruct (Hskip ({[k1 c]} ∪ X) ({[k2 c]} ∪ Y)) as (a & ? & ? & ?); [set_solver..|].
  exists a. set_solver.
Qed.

(** On a sorted list, for one that ranks at least as well. *)
Lemma gsweep_stable leb (P : A → Prop) l b :
  TotalOn P leb → Forall P l → b ∈ l → free b = true →
  ∃ a, a ∈ l ∧ a ∈ gsweep ∅ ∅ (py_sorted leb l) ∧ leb a b = true ∧ (k1 a = k1 b ∨ k2 a = k2 b).
Proof.
  intros Htot HP Hin Hf.
  assert (sorted_by leb (py_sorted leb l)) as Hs by (by apply (py_sorted_sorted _ P)).
  assert (P b) as Hb by (rewrite Forall_forall in HP; auto).
  pose proof Hin as Hin'. apply (elem_of_py_sorted leb) in Hin'.
  apply list_elem_of_split in Hin' as (l1 & l2 & Heq).
  destruct (gsweep_maximal ∅ ∅ l1 b l2) as (a & Ha & Hsw & E); [done|set_solver..|].
  rewrite <-Heq in Hsw. exists a. split_and!; [|done| |done].
  - apply (elem_of_py_sorted leb). rewrite Heq. set_solver.
  - apply elem_of_app in Ha as [Ha|Ha].
  + rewrite Heq in Hs. unfold sorted_by in Hs.
  apply list_elem_of_split in Ha as (m1 & m2 & ->). clear -Hs.
  induction m1 as [|k m1 IH]; simpl in Hs; apply StronglySorted_inv in Hs as [Hs Hk]; [|auto].
  rewrite Forall_forall in Hk. apply Hk. set_solver.
  + apply list_elem_of_singleton in Ha as ->. by destruct (total_on b b Hb Hb).
Qed.
End Greedy.

(** ** Insertion-ordered dictionaries

    Python dictionaries whose iteration order the code observes. *)

Section OrderedDict.
Context {K V : Type} `{EqDecision K}.
Implicit Types (d : list (K * V)) (k : K) (v : V).

Fixpoint d_get d k : option V :=
  match d with
  | [] => None
  | (k', v) :: d' => if decide (k = k') then Some v else d_get d' k
  end.

(** [d[k] = v]: in place for a known key, at the end for a new one. *)
Fixpoint d_set d k v : list (K * V) :=
  match d with
  | [] => [(k, v)]
  | (k', v') :: d' => if decide (k = k') then (k', v) :: d' else (k', v') :: d_set d' k v
  end.

(** [d.pop(k, None)] *)
Definition d_del d k : list (K * V) := filter (λ p, p.1 ≠ k) d.

Definition d_keys d : list K := map fst d.

Lemma d_get_set_eq d k v : d_get (d_set d k v) k = Some v.
Proof.
  induction d as [|[k' v'] d IH]; simpl; repeat case_decide; simpl; by repeat case_decide.
Qed.

Lemma d_get_set_ne d k k' v : k ≠ k' → d_get (d_set d k v) k' = d_get d k'.
Proof.
  intros Hne. induction d as [|[k'' v''] d IH]; simpl.
  - by case_decide.
  - case_decide; simpl; case_decide; try done; by subst.
Qed.

Lemma d_get_set d k k' v :
  d_get (d_set d k v) k' = if decide (k = k') then Some v else d_get d k'.
Proof. case_decide; subst; [apply d_get_set_eq|by apply d_get_set_ne]. Qed.

Lemma elem_d_set d k v p : p ∈ d_set d k v → p ∈ d ∨ p = (k, v).
Proof.
  induction d as [|[k' v'] d IH]; simpl; [intros ->%list_elem_of_singleton; by right|].
  case_decide; subst; rewrite !elem_of_cons; naive_solver.
Qed.

Lemma d_get_del d k k' : d_get (d_del d k) k' = if decide (k = k') then None else d_get d k'.
Proof.
  unfold d_del. induction d as [|[k0 v0] d IH]; [by case_decide|].
  rewrite filter_cons; simpl. repeat case_decide; simpl; rewrite ?IH; repeat case_decide;
  naive_solver.
Qed.

Lemma d_get_Some_elem d k v : d_get d k = Some v → (k, v) ∈ d.
Proof.
  induction d as [|[k' v'] d IH]; simpl; [done|]. case_decide; subst.
  - intros [= ->]. by left.
  - intros. right. auto.
Qed.

Lemma d_get_is_Some d k : is_Some (d_get d k) ↔ k ∈ d_keys d.
Proof.
  unfold d_keys. induction d as [|[k' v'] d IH]; simpl.
  - split; [by intros []|by intros ?%elem_of_nil].
  - rewrite elem_of_cons. case_decide; subst.
  + split; eauto.
  + rewrite IH. naive_solver.
Qed.

Lemma elem_d_get d k v : NoDup (d_keys d) → (k, v) ∈ d → d_get d k = Some v.
Proof.
  unfold d_keys. induction d as [|[k' v'] d IH]; simpl; [by intros _ ?%elem_of_nil|].
  intros [Hni Hnd]%NoDup_cons [[= -> ->]|Hin]%elem_of_cons; [by case_decide|].
  case_decide; subst; [|auto]. destruct Hni. apply list_elem_of_fmap. by exists (k', v).
Qed.

Lemma elem_d_keys_set d k v k' : k' ∈ d_keys (d_set d k v) ↔ k' = k ∨ k' ∈ d_keys d.
Proof.
  rewrite <-!d_get_is_Some, d_get_set. case_decide; subst.
  - split; eauto.
  - naive_solver.
Qed.

Lemma NoDup_d_set d k v : NoDup (d_keys d) → NoDup (d_keys (d_set d k v)).
Proof.
  unfold d_keys. induction d as [|[k' v'] d IH]; simpl; intros Hnd.
  { apply NoDup_singleton. }
  apply NoDup_cons in Hnd as [Hni Hnd]. case_decide; subst; simpl; apply NoDup_cons; [done|].
  split; [|auto]. fold (d_keys (d_set d k v)). rewrite elem_d_keys_set. naive_solver.
Qed.

Lemma elem_d_keys_del d k k' : k' ∈ d_keys (d_del d k) ↔ k' ≠ k ∧ k' ∈ d_keys d.
Proof. rewrite <-!d_get_is_Some, d_get_del. case_decide; naive_solver eauto using is_Some_None. Qed.

Lemma NoDup_keys_filter (P : K * V → Prop) `{∀ p, Decision (P p)} d :
  NoDup (d_keys d) → NoDup (d_keys (filter P d)).
Proof.
  unfold d_keys. induction d as [|[k' v'] d IH]; simpl; [done|].
  intros [Hni Hnd]%NoDup_cons. rewrite filter_cons. case_decide; simpl; [|auto].
  apply NoDup_cons. split; [|auto]. contradict Hni.
  apply list_elem_of_fmap in Hni as [p [-> Hp]]. apply list_elem_of_filter in Hp as [_ Hp].
  apply list_elem_of_fmap. eauto.
Qed.

Lemma NoDup_d_del d k : NoDup (d_keys d) → NoDup (d_keys (d_del d k)).
Proof. apply NoDup_keys_filter. Qed.
End OrderedDict.

#[export] Hint Resolve NoDup_d_set NoDup_d_del NoDup_keys_filter : openride.

(** *** Updating, dropping and splitting ordered dictionaries *)

Section DictLemmas.
Context {V : Type}.
Implicit Types d m : list (string * V).

Abbreviation d_update d m := (foldl (λ x p, d_set x p.1 p.2) d m).

Lemma d_set_fresh d k v : k ∉ d_keys d → d_set d k v = d ++ [(k, v)].
Proof.
  unfold d_keys. induction d as [|[k' v'] d IH]; simpl; intros Hk; [done|].
  apply not_elem_of_cons in Hk as [Hne Hk]. rewrite decide_False by done. by rewrite IH.
Qed.

Lemma d_set_same d k v : d_get d k = Some v → d_set d k v = d.
Proof.
  induction d as [|[k' v'] d IH]; simpl; [done|]. destruct (decide (k = k')) as [->|]; intros E.
  - by injection E as ->.
  - by rewrite IH.
Qed.

Lemma d_update_fresh d m :
  NoDup (d_keys m) → (∀ k, k ∈ d_keys m → k ∉ d_keys d) → d_update d m = d ++ m.
Proof.
  revert d. unfold d_keys. induction m as [|[k v] m IH]; simpl; intros d Hnd Hdis; [by rewrite app_nil_r|].
  apply NoDup_cons in Hnd as [Hk Hnd]. rewrite d_set_fresh by (apply Hdis; by left).
  rewrite IH; [by rewrite <-app_assoc|done|]. intros k' Hk'. unfold d_keys. rewrite map_app. simpl.
  rewrite elem_of_app, list_elem_of_singleton. intros [Hin| ->]; [|done].
  by apply (Hdis k'); [right|].
Qed.

Lemma d_update_same d m : NoDup (d_keys d) → (∀ p, p ∈ m → p ∈ d) → d_update d m = d.
Proof.
  revert d. induction m as [|[k v] m IH]; simpl; intros d Hnd Hsub; [done|].
  rewrite d_set_same by (apply elem_d_get; [done|]; apply Hsub; by left).
  apply IH; [done|]. intros p Hp. apply Hsub. by right.
Qed.
End DictLemmas.

Lemma d_keys_app {K V} (d m : list (K * V)) : d_keys (d ++ m) = d_keys d ++ d_keys m.
Proof. apply map_app. Qed.

Lemma elem_d_keys {K V} (d : list (K * V)) k : k ∈ d_keys d ↔ ∃ v, (k, v) ∈ d.
Proof.
  unfold d_keys. rewrite list_elem_of_fmap. split.
  - intros ([k' v] & -> & Hp). by exists v.
  - intros [v Hp]. by exists (k, v).
Qed.

Lemma d_get_drop {V} k (d : list (string * V)) r x :
  NoDup (d_keys d) → d_get (drop k d) r = Some x → d_get d r = Some x.
Proof.
  intros Hnd Hg. apply elem_d_get; [done|]. apply d_get_Some_elem in Hg.
  by eapply subseteq_drop.
Qed.

Lemma NoDup_keys_drop {V} k (d : list (string * V)) : NoDup (d_keys d) → NoDup (d_keys (drop k d)).
Proof.
  intros Hnd. unfold d_keys. rewrite fmap_drop. eapply sublist_NoDup; [exact Hnd|]. apply sublist_drop.
Qed.

Lemma length_d_keys {V} (d : list (string * V)) : length (d_keys d) = length d.
Proof. apply length_map. Qed.

Lemma elem_d_keys_drop {V} k (d : list (string * V)) r : r ∈ d_keys (drop k d) → r ∈ d_keys d.
Proof. rewrite !elem_d_keys. intros [v Hv]. exists v. by eapply subseteq_drop. Qed.

Lemma d_del_fresh {V} (d : list (string * V)) k : k ∉ d_keys d → d_del d k = d.
Proof.
  unfold d_keys, d_del. induction d as [|[k' v] d IH]; [done|]. simpl. intros Hk.
  apply not_elem_of_cons in Hk as [Hne Hk]. rewrite filter_cons_True by done. by rewrite IH.
Qed.

Lemma d_del_split {V} (l1 l2 : list (string * V)) k v :
  NoDup (d_keys (l1 ++ (k, v) :: l2)) → d_del (l1 ++ (k, v) :: l2) k = l1 ++ l2.
Proof.
  rewrite d_keys_app. intros (Hn1 & Hdis & Hn2)%NoDup_app. unfold d_keys in Hn2. simpl in Hn2.
  apply NoDup_cons in Hn2 as [Hk Hn2]. unfold d_del.
  rewrite filter_app, filter_cons_False by (simpl; tauto). f_equal; apply d_del_fresh; [|done].
  intros Hin. apply (Hdis k Hin). by left.
Qed.

Lemma d_get_perm {V} (l l' : list (string * V)) i :
  NoDup (d_keys l) → l' ≡ₚ l → d_get l' i = d_get l i.
Proof.
  intros Hnd Hp. assert (NoDup (d_keys l')) as Hnd' by (unfold d_keys; by rewrite Hp).
  destruct (d_get l' i) as [v|] eqn:E; symmetry.
  - apply elem_d_get; [done|]. rewrite <-Hp. by apply d_get_Some_elem.
  - destruct (d_get l i) as [v|] eqn:E'; [|done]. apply d_get_Some_elem in E'.
    rewrite <-Hp in E'. apply elem_d_get in E'; [congruence|done].
Qed.

Lemma d_set_set {V} (d : list (string * V)) k v v' : d_set (d_set d k v) k v' = d_set d k v'.
Proof.
  induction d as [|[k0 v0] d IH]; simpl; [by rewrite decide_True|].
  destruct (decide (k = k0)) as [->|]; simpl; [by rewrite decide_True|].
  rewrite decide_False by done. by rewrite IH.
Qed.
