(* ===== verification/PyValue.v ===== *)
(** Python values: binary64 floats, the JSON-like values documents are made of,
    and the builtins the source applies to them ([float], [int], [str], [bool],
    [==], [dict.get]).  Exceptions are values of [result]. *)

From Stdlib Require Import SpecFloat ZArith.
From stdpp Require Import pretty.
From S2P Require Import Prelude.

(** ** Exceptions *)

Inductive exn : Set :=
| ValueError | TypeError | KeyError | IndexError | OverflowError | AttributeError
| AssertionError | ZeroDivisionError | TransitionNotAllowed | OtherError (name : string).

#[export] Instance exn_eq_dec : EqDecision exn.
Proof. solve_decision. Defined.

Inductive result (A : Type) : Type :=
| Ok (a : A)
| Raise (e : exn).
Arguments Ok {A} a.
Arguments Raise {A} e.

#[export] Instance result_ret : MRet result := @Ok.
#[export] Instance result_bind : MBind result := λ A B f r,
  match r with Ok a => f a | Raise e => Raise e end.
#[export] Instance result_fmap : FMap result := λ A B f r,
  match r with Ok a => Ok (f a) | Raise e => Raise e end.

Definition is_ok {A} (r : result A) : bool := match r with Ok _ => true | Raise _ => false end.

(** [try: ... except Exception: default] *)
Definition catch {A} (r : result A) (default : A) : A :=
  match r with Ok a => a | Raise _ => default end.

(** ** State and exceptions

    A computation that reads and changes a state and may raise; the state
    survives the exception, as an object that other code still holds does. *)

Definition eff (S A : Type) : Type := S → result A * S.

#[export] Instance eff_ret {S} : MRet (eff S) := λ A a s, (Ok a, s).
#[export] Instance eff_bind {S} : MBind (eff S) := λ A B f m s,
  match m s with
  | (Ok a, s') => f a s'
  | (Raise e, s') => (Raise e, s')
  end.

Definition lift {S A} (r : result A) : eff S A := λ s, (r, s).

(** [try: m  except Exception: h] *)
Definition try_except {S A} (m : eff S A) (h : eff S A) : eff S A := λ s,
  match m s with
  | (Ok a, s') => (Ok a, s')
  | (Raise _, s') => h s'
  end.

(** Evaluate in order, stop at the first exception. *)
Fixpoint mapR {A B} (f : A → result B) (l : list A) : result (list B) :=
  match l with
  | [] => Ok []
  | a :: l => b ← f a; bs ← mapR f l; Ok (b :: bs)
  end.

(** [[a for a in l if f(a)]] *)
Fixpoint filterR {A} (f : A → result bool) (l : list A) : result (list A) :=
  match l with
  | [] => Ok []
  | a :: l => b ← f a; l' ← filterR f l; Ok (if b : bool then a :: l' else l')
  end.

Fixpoint foldR {A B} (f : A → B → result A) (a : A) (l : list B) : result A :=
  match l with
  | [] => Ok a
  | b :: l => a' ← f a b; foldR f a' l
  end.

Lemma filterR_sublist {A} (f : A → result bool) l l' : filterR f l = Ok l' → l' `sublist_of` l.
Proof.
  revert l'. induction l as [|a l IH]; simpl; intros l' H; [simplify_eq; constructor|].
  destruct (f a) as [[]|]; simpl in H; try done;
    destruct (filterR f l) as [k|] eqn:E; simpl in H; simplify_eq; constructor; auto.
Qed.

Lemma filterR_spec {A} (f : A → result bool) l l' a :
  filterR f l = Ok l' → a ∈ l' ↔ a ∈ l ∧ f a = Ok true.
Proof.
  revert l'. induction l as [|b l IH]; simpl; intros l' H.
  { injection H as <-. rewrite elem_of_nil. tauto. }
  destruct (f b) as [c|] eqn:E; simpl in H; [|done].
  destruct (filterR f l) as [k|]; simpl in H; [|done]. injection H as <-.
  specialize (IH k eq_refl). destruct c; rewrite ?elem_of_cons, IH; split.
  - intros [->|[? ?]]; auto.
  - intros [[->|?] ?]; auto.
  - intros [? ?]; auto.
  - intros [[->|?] ?]; [congruence|auto].
Qed.

Lemma mapR_elem {A B} (f : A → result B) l bs b :
  mapR f l = Ok bs → b ∈ bs → ∃ a, a ∈ l ∧ f a = Ok b.
Proof.
  revert bs. induction l as [|a l IH]; simpl; intros bs H Hb.
  { injection H as <-. by apply elem_of_nil in Hb. }
  destruct (f a) as [b0|] eqn:E; simpl in H; [|done].
  destruct (mapR f l) as [bs0|]; simpl in H; [|done]. injection H as <-.
  apply elem_of_cons in Hb as [->|Hb]; [exists a; split; [by left|done]|].
  destruct (IH bs0 eq_refl Hb) as (a' & ? & ?). exists a'. split; [by right|done].
Qed.

Lemma mapR_app {A B} (f : A → result B) l l' bs bs' :
  mapR f l = Ok bs → mapR f l' = Ok bs' → mapR f (l ++ l') = Ok (bs ++ bs').
Proof.
  revert bs. induction l as [|a l IH]; simpl; intros bs H H'.
  { injection H as <-. done. }
  destruct (f a) as [b|]; simpl in *; [|done].
  destruct (mapR f l) as [bs0|]; simpl in *; [|done]. injection H as <-.
  by rewrite (IH bs0).
Qed.

Lemma mapR_length {A B} (f : A → result B) l bs : mapR f l = Ok bs → length bs = length l.
Proof.
  revert bs. induction l as [|a l IH]; intros bs H; simpl in H; [by injection H as <-|].
  destruct (f a); simpl in H; [|done]. destruct (mapR f l); simpl in H; [|done].
  injection H as <-. simpl. by rewrite IH.
Qed.

Lemma bind_ok {S A B} (m : eff S A) (f : A → eff S B) s a s' :
  m s = (Ok a, s') → (m ≫= f) s = f a s'.
Proof. intros E. unfold mbind, eff_bind. by rewrite E. Qed.

Lemma bind_inv {S A B} (m : eff S A) (f : A → eff S B) s b s' :
  (m ≫= f) s = (Ok b, s') → ∃ a s1, m s = (Ok a, s1) ∧ f a s1 = (Ok b, s').
Proof. unfold mbind, eff_bind. destruct (m s) as [[a|] s1] eqn:E; [eauto|done]. Qed.

Lemma result_bind_inv {A B} (r : result A) (f : A → result B) b :
  r ≫= f = Ok b → ∃ a, r = Ok a ∧ f a = Ok b.
Proof. destruct r as [a|e]; [eauto|done]. Qed.

Lemma bind_bind {S A B C} (m : eff S A) (n : A → eff S B) (k : B → eff S C) s :
  ((m ≫= n) ≫= k) s = (m ≫= λ x, n x ≫= k) s.
Proof. unfold mbind, eff_bind. by destruct (m s) as [[] ?]. Qed.

(** ** Binary64 floats

    The standard library's executable IEEE 754 specification, at Python's
    precision.  It relies on no axiom and is exact to the last bit. *)

Abbreviation float64 := spec_float.

Definition f_zero : float64 := S754_zero false.
Definition f_inf : float64 := S754_infinity false.
Definition f_ltb : float64 → float64 → bool := SFltb.
Definition f_leb : float64 → float64 → bool := SFleb.
Definition f_eqb : float64 → float64 → bool := SFeqb.
Definition f_add : float64 → float64 → float64 := SFadd 53 1024.
Definition f_sub : float64 → float64 → float64 := SFsub 53 1024.
Definition f_mul : float64 → float64 → float64 := SFmul 53 1024.
Definition f_div : float64 → float64 → float64 := SFdiv 53 1024.
Definition f_opp : float64 → float64 := SFopp.
(** [float(n)] of an int: round to nearest even; [OverflowError] past the range. *)
Definition f_of_Z (z : Z) : float64 := binary_normalize 53 1024 z 0 false.

(** The float nearest to [n/d]: how a decimal literal is read. *)
Definition f_frac (n : Z) (d : positive) : float64 := f_div (f_of_Z n) (f_of_Z (Zpos d)).

Definition isnan (f : float64) : bool := match f with S754_nan => true | _ => false end.
Definition isinf (f : float64) : bool := match f with S754_infinity _ => true | _ => false end.
Definition isfinite (f : float64) : bool := negb (isnan f) && negb (isinf f).

(** [max(a, b)]: the first argument unless the second one is larger. *)
Definition f_max (a b : float64) : float64 := if f_ltb a b then b else a.
(** [min(a, b)]: the first argument unless the second one is smaller. *)
Definition f_min (a b : float64) : float64 := if f_ltb b a then b else a.

#[export] Instance float64_eq_dec : EqDecision float64.
Proof. solve_decision. Defined.

Definition not_nan (f : float64) : Prop := isnan f = false.

(** The order of the non-NaN floats is a lexicographic order on integers. *)
Definition f_key (f : float64) : Z * (Z * Z) :=
  match f with
  | S754_infinity true => ((-2), (0, 0))
  | S754_finite true m e => ((-1), ((-e), Z.neg m))
  | S754_zero _ | S754_nan => (0, (0, 0))
  | S754_finite false m e => (1, (e, Z.pos m))
  | S754_infinity false => (2, (0, 0))
  end%Z.

Definition f_key_leb : Z * (Z * Z) → Z * (Z * Z) → bool :=
  pair_leb Z.leb (pair_leb Z.leb Z.leb).

Lemma lex_compare_leb e1 e2 m1 m2 :
  pair_leb Z.leb Z.leb (e1, m1) (e2, m2) =
  match (e1 ?= e2)%Z with
  | Lt => true | Gt => false
  | Eq => (m1 <=? m2)%Z
  end.
Proof.
  unfold pair_leb; simpl. destruct (Z.compare_spec e1 e2) as [->|H|H].
  - by rewrite Z.leb_refl.
  - assert ((e1 <=? e2)%Z = true) as -> by lia. by assert ((e2 <=? e1)%Z = false) as -> by lia.
  - by assert ((e1 <=? e2)%Z = false) as -> by lia.
Qed.

Lemma f_leb_key x y : not_nan x → not_nan y → f_leb x y = on_key f_key f_key_leb x y.
Proof.
  unfold not_nan, on_key, f_leb, SFleb, f_key_leb.
  destruct x as [|[]| |[] m e]; try done; destruct y as [|[]| |[] m' e']; try done; intros _ _;
    simpl; unfold pair_leb at 1; simpl; try done; rewrite lex_compare_leb.
  all: rewrite ?Z.compare_opp, ?(Z.compare_antisym e e').
  all: destruct (e ?= e')%Z; simpl; try done.
  all: unfold Z.leb, Z.compare; fold (Pos.compare m m'); by destruct (Pos.compare m m').
Qed.

Lemma f_key_leb_total : TotalOn always f_key_leb.
Proof.
  assert (TotalOn (both always (both (A := Z) (B := Z) always always)) f_key_leb) as [H1 H2]
    by apply _.
  split.
  - intros x y _ _. apply H1; repeat split.
  - intros x y z _ _ _. apply H2; repeat split.
Qed.

#[export] Instance f_leb_total : TotalOn not_nan f_leb.
Proof.
  pose proof f_key_leb_total as [H1 H2]. split.
  - intros x y Hx Hy. rewrite !f_leb_key by done. by apply H1.
  - intros x y z Hx Hy Hz. rewrite !f_leb_key by done. by apply H2.
Qed.

Lemma isfinite_not_nan f : isfinite f = true → not_nan f.
Proof. unfold isfinite, not_nan. by destruct f. Qed.

#[export] Hint Resolve isfinite_not_nan : openride.

(** Floats with one key compare alike: they are equal, or both are zeros. *)
Lemma f_key_inj x y :
  not_nan x → not_nan y → f_key x = f_key y →
  x = y ∨ (∃ s s', x = S754_zero s ∧ y = S754_zero s').
Proof.
  unfold not_nan. destruct x as [|[]| |[]], y as [|[]| |[]]; simpl; intros ?? Heq; simplify_eq; eauto.
  left. f_equal. lia.
Qed.

Lemma f_leb_anti x y :
  not_nan x → not_nan y → f_leb x y = true → f_leb y x = true → f_key x = f_key y.
Proof.
  intros Hx Hy. rewrite !f_leb_key by done. unfold on_key, f_key_leb. intros H1 H2.
  destruct (pair_leb_both _ _ _ _ H1 H2) as [[? ?] [H3 H4]].
  destruct (pair_leb_both _ _ _ _ H3 H4) as [[? ?] [? ?]].
  destruct (f_key x) as [? [? ?]], (f_key y) as [? [? ?]]; simpl in *.
  repeat f_equal; lia.
Qed.

Lemma f_ltb_false x y : not_nan x → not_nan y → f_ltb x y = false → f_leb y x = true.
Proof.
  unfold not_nan, f_ltb, f_leb, SFltb, SFleb.
  destruct x as [|[]| |[] m e], y as [|[]| |[] m' e']; simpl; try done; intros _ _.
  all: rewrite (Z.compare_antisym e e'); destruct (e ?= e')%Z; simpl; try done.
  all: change (Pos.compare_cont Eq m m') with (m ?= m')%positive;
    change (Pos.compare_cont Eq m' m) with (m' ?= m)%positive;
    rewrite (Pos.compare_antisym m m'); by destruct (m ?= m')%positive.
Qed.

Lemma f_leb_opp x y : f_leb (f_opp x) (f_opp y) = f_leb y x.
Proof.
  unfold f_leb, f_opp, SFleb. destruct x as [[]|[]| |[] m e], y as [[]|[]| |[] m' e']; try done; simpl.
  all: rewrite (Z.compare_antisym e e'); destruct (e ?= e')%Z; simpl; try done.
  all: change (Pos.compare_cont Eq m m') with (m ?= m')%positive;
    change (Pos.compare_cont Eq m' m) with (m' ?= m)%positive;
    rewrite (Pos.compare_antisym m m'); by destruct (m ?= m')%positive.
Qed.

Lemma f_ltb_leb x y : f_ltb x y = true → f_leb x y = true.
Proof. unfold f_ltb, f_leb, SFltb, SFleb. by destruct (SFcompare x y) as [[]|]. Qed.

(** ** Values *)

Inductive pyval : Set :=
| PNone
| PBool (b : bool)
| PInt (z : Z)
| PFloat (f : float64)
| PStr (s : string)
| PList (l : list pyval)
| PTuple (l : list pyval)
| PDict (d : list (string * pyval)).

(** A dictionary with string keys, in insertion order. *)
Abbreviation pydict := (list (string * pyval)).

(** [d.get(k)]: [PNone] for a missing key. *)
Definition get (d : pydict) (k : string) : pyval := default PNone (d_get d k).

(** [d.get(k, default)] *)
Definition get_or (d : pydict) (k : string) (v : pyval) : pyval := default v (d_get d k).

(** [bool(v)] *)
Definition truth (v : pyval) : bool :=
  match v with
  | PNone => false
  | PBool b => b
  | PInt z => negb (z =? 0)%Z
  | PFloat f => negb (f_eqb f f_zero)
  | PStr s => negb (bool_decide (s = ""))
  | PList l | PTuple l => negb (bool_decide (length l = 0))
  | PDict d => negb (bool_decide (length d = 0))
  end.

(** [a or b] *)
Definition py_or (a b : pyval) : pyval := if truth a then a else b.

(** [n == f] for an int and a float: exact, no rounding of the int. *)
Definition int_eq_float (z : Z) (f : float64) : bool :=
  match f with
  | S754_zero _ => (z =? 0)%Z
  | S754_finite s m e =>
      let v := if s then Z.neg m else Z.pos m in
      if (0 <=? e)%Z then (z =? Z.shiftl v e)%Z else (Z.shiftl z (- e) =? v)%Z
  | _ => false
  end.

(** A number seen by [==]: [True] is [1]. *)
Definition as_int (v : pyval) : option Z :=
  match v with
  | PBool b => Some (if b then 1 else 0)%Z
  | PInt z => Some z
  | _ => None
  end.

(** [v == w] *)
Fixpoint py_eq (v w : pyval) {struct v} : bool :=
  match v, w with
  | PNone, PNone => true
  | PStr s, PStr t => bool_decide (s = t)
  | PFloat f, PFloat g => f_eqb f g
  | PList l, PList l' | PTuple l, PTuple l' =>
      (fix go l l' := match l, l' with
        | [], [] => true
        | x :: l, y :: l' => py_eq x y && go l l'
        | _, _ => false
        end) l l'
  | PDict d, PDict d' =>
      bool_decide (length d = length d') &&
      (fix go d := match d with
        | [] => true
        | (k, x) :: d0 =>
            match d_get d' k with Some y => py_eq x y | None => false end && go d0
        end) d
  | PFloat f, _ => match as_int w with Some z => int_eq_float z f | None => false end
  | _, PFloat g => match as_int v with Some z => int_eq_float z g | None => false end
  | _, _ =>
      match as_int v, as_int w with Some a, Some b => (a =? b)%Z | _, _ => false end
  end.

(** [v in (c1, c2, ...)] *)
Definition py_in (v : pyval) (l : list pyval) : bool := existsb (py_eq v) l.

(** What the interpreter's text conversions do where the model does not spell
    them out: [repr] of a float or a container, [float(s)] and [int(s)]. *)
Class PyText := {
  repr_other : pyval → string;
  float_of_str : string → option float64;
  int_of_str : string → option Z;
}.

Section Text.
Context `{PyText}.

(** [str(v)] *)
Definition py_str (v : pyval) : string :=
  match v with
  | PNone => "None"
  | PBool true => "True"
  | PBool false => "False"
  | PInt z => pretty z
  | PStr s => s
  | _ => repr_other v
  end.

(** [float(v)] *)
Definition py_float (v : pyval) : result float64 :=
  match v with
  | PFloat f => Ok f
  | PInt z => let f := f_of_Z z in if isinf f then Raise OverflowError else Ok f
  | PBool b => Ok (f_of_Z (if b then 1 else 0))
  | PStr s => match float_of_str s with Some f => Ok f | None => Raise ValueError end
  | _ => Raise TypeError
  end.

(** [int(math.floor(x))] *)
Definition py_floor (f : float64) : result Z :=
  match f with
  | S754_zero _ => Ok 0%Z
  | S754_finite s m e => Ok (Z.shiftl (if s then Z.neg m else Z.pos m) e)
  | S754_nan => Raise ValueError
  | S754_infinity _ => Raise OverflowError
  end.

(** [a / b] of floats *)
Definition py_div (a b : float64) : result float64 :=
  if f_eqb b f_zero then Raise ZeroDivisionError else Ok (f_div a b).

(** [n / d] of exact integers, rounded once: how a decimal string is read back. *)
Definition f_ratio (neg : bool) (n d : positive) : float64 :=
  f_div (S754_finite neg n 0) (S754_finite false d 0).

(** [round(x, digits)], where [scale] is 10 to the [digits]: the nearest multiple of
    1/[scale], ties to even, as a float. *)
Definition py_round (scale : positive) (f : float64) : float64 :=
  match f with
  | S754_finite s m (Zneg k) =>
      let scaled := (Zpos m * Zpos scale)%Z in
      let q := Z.shiftr scaled (Zpos k) in
      let r := (scaled - Z.shiftl q (Zpos k))%Z in
      let half := Z.shiftl 1 (Zpos k - 1) in
      let n := if (r <? half)%Z then q
         else if (half <? r)%Z then (q + 1)%Z
         else if Z.even q then q else (q + 1)%Z in
      match n with
      | Zpos p => f_ratio s p scale
      | _ => S754_zero s
      end
  | _ => f
  end.

Definition py_round3 : float64 → float64 := py_round 1000.

(** Truncation of a finite float towards zero. *)
Definition f_trunc (s : bool) (m : positive) (e : Z) : Z :=
  let v := Z.shiftl (Z.pos m) e in if s then (- v)%Z else v.

(** [int(v)] *)
Definition py_int (v : pyval) : result Z :=
  match v with
  | PInt z => Ok z
  | PBool b => Ok (if b then 1 else 0)%Z
  | PFloat (S754_zero _) => Ok 0%Z
  | PFloat (S754_finite s m e) => Ok (f_trunc s m e)
  | PFloat S754_nan => Raise ValueError
  | PFloat (S754_infinity _) => Raise OverflowError
  | PStr s => match int_of_str s with Some z => Ok z | None => Raise ValueError end
  | _ => Raise TypeError
  end.
End Text.

(** An interpreter that knows no text conversion: enough to run examples. *)
Definition no_text : PyText := {|
  repr_other := λ _, "?"; float_of_str := λ _, None; int_of_str := λ _, None |}.

(** ** Documents

    A truck or order document of the REST API: its top-level fields, and its
    [profile], which the schema types as a dictionary ([{}] stands for a
    profile that is missing, [None] or empty: the code reads it through
    [doc.get("profile") or {}]). *)
Record doc : Set := Doc { fields : pydict; profile : pydict }.

Definition doc_get (d : doc) (k : string) : pyval := get (fields d) k.
Definition prof_get (d : doc) (k : string) : pyval := get (profile d) k.

(** [round] agrees with the interpreter on these. *)
Example py_round3_examples :
  py_round3 (f_frac 12345 10000) = f_frac 1234 1000 ∧ py_round3 (f_frac (-1) 100000) = S754_zero true ∧
  py_round3 (f_of_Z 7) = f_of_Z 7.
Proof. vm_compute. repeat split. Qed.

(** ** Access and time *)

Definition is_none (v : pyval) : bool := match v with PNone => true | _ => false end.

(** [d[k]], where [d] may be anything. *)
Definition item (v : pyval) (k : string) : result pyval :=
  match v with
  | PDict d => match d_get d k with Some x => Ok x | None => Raise KeyError end
  | _ => Raise TypeError
  end.

(** [str_to_time]: the seconds a text of the run's one format names.  No text names
    a time before [datetime.min]. *)
Class SimTime := {
  str_to_time : string → option Z;
  MIN_TIME : Z;
  str_to_time_min t z : str_to_time t = Some z → (MIN_TIME ≤ z)%Z;
}.

Definition to_time `{SimTime} (v : pyval) : result Z :=
  match v with
  | PStr t => match str_to_time t with Some z => Ok z | None => Raise ValueError end
  | _ => Raise TypeError
  end.

(** [is_success], of an HTTP status. *)
Definition is_success (status : Z) : bool := ((200 <=? status) && (status <=? 299))%Z.

(** ** ASCII text: [str.strip], [str.lower], [str.upper], [in] *)

Definition is_space (c : Ascii.ascii) : bool :=
  let n := Z.of_N (Ascii.N_of_ascii c) in ((9 <=? n) && (n <=? 13) || (28 <=? n) && (n <=? 32))%Z.

Fixpoint lstrip (s : string) : string :=
  match s with
  | EmptyString => EmptyString
  | String c s' => if is_space c then lstrip s' else s
  end.

Fixpoint rstrip (s : string) : string :=
  match s with
  | EmptyString => EmptyString
  | String c s' =>
      match rstrip s' with
      | EmptyString => if is_space c then EmptyString else String c EmptyString
      | t => String c t
      end
  end.

Definition strip (s : string) : string := rstrip (lstrip s).

(** Letters of one case, moved to the other. *)
Definition recase (lo hi : N) (by_ : Z) (c : Ascii.ascii) : Ascii.ascii :=
  let n := Ascii.N_of_ascii c in
  if ((lo <=? n) && (n <=? hi))%N then Ascii.ascii_of_N (Z.to_N (Z.of_N n + by_)) else c.

Fixpoint string_map (f : Ascii.ascii → Ascii.ascii) (s : string) : string :=
  match s with EmptyString => EmptyString | String c s => String (f c) (string_map f s) end.

Definition lower : string → string := string_map (recase 65 90 32).
Definition upper : string → string := string_map (recase 97 122 (-32)).

(** [needle in s] *)
Fixpoint has_substring (needle s : string) : bool :=
  String.prefix needle s || match s with EmptyString => false | String _ s => has_substring needle s end.
