(* ===== verification/StateMachines.v ===== *)
(** The declarative state machines of container logistics (orders, haul trips,
    gates) and the interaction tables that couple them:
    [src/apps/container_logistics/statemachine/]. *)

From stdpp Require Import finite.
From S2P Require Import Prelude PyValue.

(** ** Machines

    A machine is its transition table, in declaration order.  [fire] is what
    sending an event does: the state machine library moves along the transition
    of that event that leaves the current state, and raises when there is none. *)

Record transition (St Ev : Type) := Trans { tr_event : Ev; tr_source : St; tr_target : St }.
Arguments Trans {St Ev}.
Arguments tr_event {St Ev}.
Arguments tr_source {St Ev}.
Arguments tr_target {St Ev}.

(** [target.from_(s1, s2, ...)] *)
Definition from_ {St Ev} (e : Ev) (target : St) (sources : list St) : list (transition St Ev) :=
  map (λ s, Trans e s target) sources.

(** [source.to(target)] *)
Definition to {St Ev} (e : Ev) (source target : St) : list (transition St Ev) :=
  [Trans e source target].

Section Machine.
Context {St Ev : Type} `{EqDecision St, EqDecision Ev} (table : list (transition St Ev)).

(** [state.transitions] *)
Definition outgoing (s : St) : list (transition St Ev) :=
  filter (λ t, tr_source t = s) table.

Definition fire (s : St) (e : Ev) : result St :=
  match head (filter (λ t, tr_event t = e) (outgoing s)) with
  | Some t => Ok (tr_target t)
  | None => Raise TransitionNotAllowed
  end.

Definition steps_to (s s' : St) : Prop := ∃ e, fire s e = Ok s'.

Lemma fire_table s e s' : fire s e = Ok s' → Trans e s s' ∈ table.
Proof.
  unfold fire, outgoing. destruct (filter _ _) as [|[e' s0 s1] l] eqn:E; [done|].
  simpl. intros [= <-].
  assert (Trans e' s0 s1 ∈ filter (λ t, tr_event t = e) (filter (λ t, tr_source t = s) table)) as H
  by (rewrite E; left).
  rewrite !list_elem_of_filter in H. simpl in H. by destruct H as (-> & -> & ?).
Qed.

(** A measure that every transition increases bounds every run. *)
Lemma steps_bounded (rank : St → nat) :
  Forall (λ t, rank (tr_source t) < rank (tr_target t)) table →
  ∀ s s', star steps_to s s' → s = s' ∨ rank s < rank s'.
Proof.
  intros Hrank s s' Hs. induction Hs as [s|s1 s2 s3 [e He] _ IH]; [by left|right].
  apply fire_table in He. rewrite Forall_forall in Hrank. apply Hrank in He. simpl in He.
  destruct IH as [<-|?]; lia.
Qed.
End Machine.

(** ** Orders: [order_sm.py] *)

Module Order.
Inductive state :=
| created | unassigned | assigned | pickup_in_progress | in_transit
| dropoff_in_progress | completed | cancelled.

Inductive event :=
| publish | assign | pickup_started | pickup_done | dropoff_started | deliver | cancel.

#[global] Instance state_eq_dec : EqDecision state.
Proof. solve_decision. Defined.
#[global] Instance event_eq_dec : EqDecision event.
Proof. solve_decision. Defined.

Definition states : list state :=
  [created; unassigned; assigned; pickup_in_progress; in_transit;
   dropoff_in_progress; completed; cancelled].

(** [OrderStateMachine] *)
Definition table : list (transition state event) :=
  to publish created unassigned ++
  to assign unassigned assigned ++
  to pickup_started assigned pickup_in_progress ++
  to pickup_done pickup_in_progress in_transit ++
  to dropoff_started in_transit dropoff_in_progress ++
  to deliver dropoff_in_progress completed ++
  from_ cancel cancelled
  [created; unassigned; assigned; pickup_in_progress; in_transit; dropoff_in_progress].

Definition initial : state := created.

Definition name (s : state) : string :=
  match s with
  | created => "created" | unassigned => "unassigned" | assigned => "assigned"
  | pickup_in_progress => "pickup_in_progress" | in_transit => "in_transit"
  | dropoff_in_progress => "dropoff_in_progress" | completed => "completed"
  | cancelled => "cancelled"
  end.

Definition event_name (e : event) : string :=
  match e with
  | publish => "publish" | assign => "assign" | pickup_started => "pickup_started"
  | pickup_done => "pickup_done" | dropoff_started => "dropoff_started"
  | deliver => "deliver" | cancel => "cancel"
  end.

Definition sm_name : string := "OrderStateMachine".

#[global] Instance name_inj : Inj (=) (=) name.
Proof. intros [] []; by intros. Qed.
End Order.

(** ** Haul trips: [haul_trip_sm.py] *)

Module Haul.
Inductive state :=
| created | assigned | repositioning_to_pickup | queued_for_pickup | at_pickup_gate
| loaded_in_transit | queued_for_dropoff | at_dropoff_gate | completed | cancelled.

Inductive event :=
| assign | start_empty_reposition | arrive_pickup_queue | enter_pickup_gate
| finish_pickup_service | arrive_dropoff_queue | enter_dropoff_gate
| finish_dropoff_service | cancel.

#[global] Instance state_eq_dec : EqDecision state.
Proof. solve_decision. Defined.
#[global] Instance event_eq_dec : EqDecision event.
Proof. solve_decision. Defined.

(** [HaulTripStateMachine] *)
Definition table : list (transition state event) :=
  to assign created assigned ++
  to start_empty_reposition assigned repositioning_to_pickup ++
  from_ arrive_pickup_queue queued_for_pickup [assigned; repositioning_to_pickup] ++
  to enter_pickup_gate queued_for_pickup at_pickup_gate ++
  to finish_pickup_service at_pickup_gate loaded_in_transit ++
  to arrive_dropoff_queue loaded_in_transit queued_for_dropoff ++
  to enter_dropoff_gate queued_for_dropoff at_dropoff_gate ++
  to finish_dropoff_service at_dropoff_gate completed ++
  from_ cancel cancelled
  [created; assigned; repositioning_to_pickup; queued_for_pickup; at_pickup_gate;
   loaded_in_transit; queued_for_dropoff; at_dropoff_gate].

Definition initial : state := created.

Definition name (s : state) : string :=
  match s with
  | created => "created" | assigned => "assigned"
  | repositioning_to_pickup => "repositioning_to_pickup"
  | queued_for_pickup => "queued_for_pickup" | at_pickup_gate => "at_pickup_gate"
  | loaded_in_transit => "loaded_in_transit" | queued_for_dropoff => "queued_for_dropoff"
  | at_dropoff_gate => "at_dropoff_gate" | completed => "completed" | cancelled => "cancelled"
  end.

Definition event_name (e : event) : string :=
  match e with
  | assign => "assign" | start_empty_reposition => "start_empty_reposition"
  | arrive_pickup_queue => "arrive_pickup_queue" | enter_pickup_gate => "enter_pickup_gate"
  | finish_pickup_service => "finish_pickup_service"
  | arrive_dropoff_queue => "arrive_dropoff_queue"
  | enter_dropoff_gate => "enter_dropoff_gate"
  | finish_dropoff_service => "finish_dropoff_service" | cancel => "cancel"
  end.

Definition sm_name : string := "HaulTripStateMachine".

#[global] Instance event_name_inj : Inj (=) (=) event_name.
Proof. intros [] []; by intros. Qed.
End Haul.

(** ** Gates: [gate_sm.py] *)

Module Gate.
Inductive state := closed | available | busy | out_of_service.

Inductive event := open | assign_truck | complete_service | close | breakdown | repair.

#[global] Instance state_eq_dec : EqDecision state.
Proof. solve_decision. Defined.
#[global] Instance event_eq_dec : EqDecision event.
Proof. solve_decision. Defined.

(** [GateStateMachine] *)
Definition table : list (transition state event) :=
  to open closed available ++
  to assign_truck available busy ++
  to complete_service busy available ++
  to close available closed ++
  from_ breakdown out_of_service [closed; available; busy] ++
  to repair out_of_service closed.

Definition initial : state := closed.

Definition name (s : state) : string :=
  match s with
  | closed => "closed" | available => "available" | busy => "busy"
  | out_of_service => "out_of_service"
  end.

Definition event_name (e : event) : string :=
  match e with
  | open => "open" | assign_truck => "assign_truck" | complete_service => "complete_service"
  | close => "close" | breakdown => "breakdown" | repair => "repair"
  end.

Definition sm_name : string := "GateStateMachine".
End Gate.

(** ** Actions and events: [events.py] *)

Module Events.
(** [ContainerLogisticsActions] *)
Definition ASSIGNED_HAUL_TRIP : string := "assigned_haul_trip".
Definition ORDER_WORKFLOW_EVENT : string := "order_workflow_event".
Definition FACILITY_WORKFLOW_EVENT : string := "facility_workflow_event".

(** [ContainerLogisticsEvents] *)
Definition ORDER_ASSIGNED_TO_TRUCK : string := "order_assigned_to_truck".
Definition ORDER_PICKUP_STARTED : string := "order_pickup_started".
Definition ORDER_PICKUP_COMPLETED : string := "order_pickup_completed".
Definition ORDER_DROPOFF_STARTED : string := "order_dropoff_started".
Definition ORDER_DELIVERED : string := "order_delivered".
Definition ORDER_CANCELLED : string := "order_cancelled".
Definition TRUCK_ARRIVED_PICKUP_QUEUE : string := "truck_arrived_pickup_queue".
Definition TRUCK_ARRIVED_DROPOFF_QUEUE : string := "truck_arrived_dropoff_queue".
Definition GATE_SLOT_ASSIGNED_FOR_PICKUP : string := "gate_slot_assigned_for_pickup".
Definition GATE_SLOT_ASSIGNED_FOR_DROPOFF : string := "gate_slot_assigned_for_dropoff".
Definition PICKUP_GATE_SERVICE_COMPLETED : string := "pickup_gate_service_completed".
Definition DROPOFF_GATE_SERVICE_COMPLETED : string := "dropoff_gate_service_completed".
Definition FACILITY_QUEUE_CANCELLED : string := "facility_queue_cancelled".
End Events.

(** ** Interaction tables: [haultrip_order_interactions.py], [haultrip_gate_interactions.py] *)

(** One rule: [source_transition] of [source_statemachine], entering
    [source_new_state], emits [rule_event]; the target machine should then be in
    [target_new_state].  The description field is prose and is left out. *)
Record rule := Rule {
  source_statemachine : string;
  source_transition : string;
  source_new_state : string;
  rule_action : string;
  rule_event : string;
  target_statemachine : string;
  target_new_state : string;
}.

Definition haul_order_rule (t : Haul.event) (s : Haul.state) (ev : string) (o : Order.state) : rule :=
  Rule Haul.sm_name (Haul.event_name t) (Haul.name s) Events.ORDER_WORKFLOW_EVENT ev
       Order.sm_name (Order.name o).

Definition haultrip_order_interactions : list rule := [
    haul_order_rule Haul.assign Haul.assigned Events.ORDER_ASSIGNED_TO_TRUCK Order.assigned;
    haul_order_rule Haul.enter_pickup_gate Haul.at_pickup_gate
      Events.ORDER_PICKUP_STARTED Order.pickup_in_progress;
    haul_order_rule Haul.finish_pickup_service Haul.loaded_in_transit
      Events.ORDER_PICKUP_COMPLETED Order.in_transit;
    haul_order_rule Haul.enter_dropoff_gate Haul.at_dropoff_gate
      Events.ORDER_DROPOFF_STARTED Order.dropoff_in_progress;
    haul_order_rule Haul.finish_dropoff_service Haul.completed
      Events.ORDER_DELIVERED Order.completed;
    haul_order_rule Haul.cancel Haul.cancelled Events.ORDER_CANCELLED Order.cancelled
  ].

Definition haul_gate_rule (t : Haul.event) (s : Haul.state) (ev : string) (g : Gate.state) : rule :=
  Rule Haul.sm_name (Haul.event_name t) (Haul.name s) Events.FACILITY_WORKFLOW_EVENT ev
       Gate.sm_name (Gate.name g).

Definition gate_haul_rule (t : Gate.event) (s : Gate.state) (ev : string) (h : Haul.state) : rule :=
  Rule Gate.sm_name (Gate.event_name t) (Gate.name s) Events.FACILITY_WORKFLOW_EVENT ev
       Haul.sm_name (Haul.name h).

Definition haultrip_gate_interactions : list rule := [
    haul_gate_rule Haul.arrive_pickup_queue Haul.queued_for_pickup
      Events.TRUCK_ARRIVED_PICKUP_QUEUE Gate.available;
    gate_haul_rule Gate.assign_truck Gate.busy
      Events.GATE_SLOT_ASSIGNED_FOR_PICKUP Haul.at_pickup_gate;
    gate_haul_rule Gate.complete_service Gate.available
      Events.PICKUP_GATE_SERVICE_COMPLETED Haul.loaded_in_transit;
    haul_gate_rule Haul.arrive_dropoff_queue Haul.queued_for_dropoff
      Events.TRUCK_ARRIVED_DROPOFF_QUEUE Gate.available;
    gate_haul_rule Gate.assign_truck Gate.busy
      Events.GATE_SLOT_ASSIGNED_FOR_DROPOFF Haul.at_dropoff_gate;
    gate_haul_rule Gate.complete_service Gate.available
      Events.DROPOFF_GATE_SERVICE_COMPLETED Haul.completed
  ].

(** The event the trip manager emits for a haul transition: the first rule of
    [statemachine_interaction_mapping] for that transition
    ([TruckTripManager.post_transition_hook]). *)
Definition emitted_rule (t : Haul.event) : option rule :=
  head (filter (λ r, source_statemachine r = Haul.sm_name ∧ source_transition r = Haul.event_name t)
         (haultrip_order_interactions ++ haultrip_gate_interactions)).

Definition emitted_event (t : Haul.event) : option string := rule_event <$> emitted_rule t.

(** What an order follower does with that event: move to the rule's target. *)
Definition order_target (t : Haul.event) : option Order.state :=
  r ← emitted_rule t;
  if decide (target_statemachine r = Order.sm_name)
  then head (filter (λ o, Order.name o = target_new_state r) Order.states)
  else None.

Definition follow (t : Haul.event) (o : Order.state) : Order.state := default o (order_target t).

(** ** Properties *)

(** Where the order of a trip should be, per haul state. *)
Definition mirrored (h : Haul.state) : Order.state :=
  match h with
  | Haul.created => Order.unassigned
  | Haul.assigned | Haul.repositioning_to_pickup | Haul.queued_for_pickup => Order.assigned
  | Haul.at_pickup_gate => Order.pickup_in_progress
  | Haul.loaded_in_transit | Haul.queued_for_dropoff => Order.in_transit
  | Haul.at_dropoff_gate => Order.dropoff_in_progress
  | Haul.completed => Order.completed
  | Haul.cancelled => Order.cancelled
  end.

(** Trip and order moving together. *)
Inductive coupled_step : Haul.state * Order.state → Haul.state * Order.state → Prop :=
| coupled t h h' o :
    fire Haul.table h t = Ok h' → coupled_step (h, o) (h', follow t o).

Lemma mirrored_step h t h' :
  fire Haul.table h t = Ok h' →
  follow t (mirrored h) = mirrored h' ∧
  (mirrored h' = mirrored h ∨ ∃ e, fire Order.table (mirrored h) e = Ok (mirrored h')).
Proof.
  destruct h, t; vm_compute; intros [= <-]; (split; [done|]); (left; reflexivity) ||
    (right; (exists Order.publish; reflexivity) || (exists Order.assign; reflexivity) ||
     (exists Order.pickup_started; reflexivity) || (exists Order.pickup_done; reflexivity) ||
     (exists Order.dropoff_started; reflexivity) || (exists Order.deliver; reflexivity) ||
     (exists Order.cancel; reflexivity)).
Qed.

(** an order that follows the events its haul trip emits stays in step with
    the trip: from a created trip on an unassigned order, every reachable pair has
    the order in the state mirrored by the trip, and each further trip transition
    moves the order along at most one legal transition of [OrderStateMachine]. *)
Theorem order_follows_haul_trip h o :
  star coupled_step (Haul.initial, Order.unassigned) (h, o) →
  o = mirrored h ∧
  ∀ t h', fire Haul.table h t = Ok h' →
    follow t o = o ∨ ∃ e, fire Order.table o e = Ok (follow t o).
Proof.
  intros Hs.
  assert ((h, o).2 = mirrored (h, o).1) as Heq.
  { apply (star_invariant coupled_step (λ s, s.2 = mirrored s.1)) with (3 := Hs); [|done].
    intros s s' Hi Hstep. destruct Hstep as [t h0 h' o0 Hf]. simpl in *. subst.
    by destruct (mirrored_step _ _ _ Hf). }
  simpl in Heq. subst. split; [done|]. intros t h' Hf.
  by destruct (mirrored_step _ _ _ Hf) as [-> ?].
Qed.

Lemma order_follows_haul_trip_witness :
  (Haul.queued_for_pickup, Order.assigned).2 = mirrored Haul.queued_for_pickup.
Proof.
  refine (proj1 (order_follows_haul_trip Haul.queued_for_pickup Order.assigned _)).
  eapply star_step; [exact (coupled Haul.assign Haul.created Haul.assigned Order.unassigned eq_refl)|].
  eapply star_step; [exact (coupled Haul.arrive_pickup_queue Haul.assigned
                              Haul.queued_for_pickup Order.assigned eq_refl)|].
  apply star_refl.
Defined.

Definition haul_rank (h : Haul.state) : nat :=
  match h with
  | Haul.created => 0 | Haul.assigned => 1 | Haul.repositioning_to_pickup => 2
  | Haul.queued_for_pickup => 3 | Haul.at_pickup_gate => 4 | Haul.loaded_in_transit => 5
  | Haul.queued_for_dropoff => 6 | Haul.at_dropoff_gate => 7
  | Haul.completed | Haul.cancelled => 8
  end.

(** A run of transitions, with its length. *)
Inductive runs {St Ev} `{EqDecision St, EqDecision Ev} (table : list (transition St Ev)) :
  nat → St → St → Prop :=
| runs_0 s : runs table 0 s s
| runs_S n s s' s'' e : fire table s e = Ok s' → runs table n s' s'' → runs table (S n) s s''.

Lemma runs_rank {St Ev} `{EqDecision St, EqDecision Ev} (table : list (transition St Ev)) rank :
  Forall (λ t, rank (tr_source t) < rank (tr_target t)) table →
  ∀ n s s', runs table n s s' → n + rank s ≤ rank s'.
Proof.
  intros Hr n s s' Hs. induction Hs as [s|n s s' s'' e He _ IH]; [done|].
  apply fire_table in He. rewrite Forall_forall in Hr. apply Hr in He. simpl in He. lia.
Qed.

(** a haul trip makes at most eight transitions, a trip that can make no
    further transition is completed or cancelled, and every trip that is not can
    still be cancelled. *)
Theorem haul_trip_terminates n h :
  runs Haul.table n Haul.initial h →
  n ≤ 8 ∧
  ((∀ e, is_ok (fire Haul.table h e) = false) ↔ h = Haul.completed ∨ h = Haul.cancelled) ∧
  (h ≠ Haul.completed → h ≠ Haul.cancelled → fire Haul.table h Haul.cancel = Ok Haul.cancelled).
Proof.
  intros Hr. split; [|split].
  - assert (n + haul_rank Haul.initial ≤ haul_rank h) as H.
    { revert Hr. apply runs_rank. repeat constructor. }
    destruct h; simpl in H; lia.
  - split.
    + intros H. specialize (H Haul.cancel). destruct h; try discriminate; auto.
    + by intros [-> | ->] [].
  - by destruct h.
Qed.

Lemma haul_trip_terminates_witness : 1 ≤ 8.
Proof.
  refine (proj1 (haul_trip_terminates 1 Haul.assigned _)).
  eapply (runs_S _ _ _ _ _ Haul.assign); [reflexivity|]. apply runs_0.
Defined.
