(* ===== verification/FacilityQueue.v ===== *)
(** Facility gates: the FIFO queue controller, the facility manager and the
    facility agent's step ([statemachine/facility_queue_sm.py],
    [facility/manager.py], [facility/app.py], [facility/service_time.py]). *)

From S2P Require Import Prelude PyValue StateMachines.

(** ** The queue controller *)

Inductive facility_state := OPEN | CLOSED.
Inductive visit_type := PICKUP | DROPOFF.

#[export] Instance facility_state_eq_dec : EqDecision facility_state.
Proof. solve_decision. Defined.
#[export] Instance visit_type_eq_dec : EqDecision visit_type.
Proof. solve_decision. Defined.

(** [FacilityVisitType(value)] *)
Definition visit_type_of_str (s : string) : result visit_type :=
  if decide (s = "pickup") then Ok PICKUP
  else if decide (s = "dropoff") then Ok DROPOFF
  else Raise ValueError.

Definition visit_type_value (v : visit_type) : string :=
  match v with PICKUP => "pickup" | DROPOFF => "dropoff" end.

(** [QueueEntry] *)
Record queue_entry := QueueEntry { truck_id : pyval; visit : visit_type }.

(** [FacilityQueueController] *)
Record controller := Controller {
  gate_count : Z;
  fstate : facility_state;
  queue : list queue_entry;
  gate_assignments : gmap nat (option queue_entry);
  gates : list Gate.state;
}.

(** [__post_init__]: a fresh, closed controller. *)
Definition new_controller (n : Z) : result controller :=
  if (n <? 1)%Z then Raise ValueError
  else Ok (Controller n CLOSED []
             (list_to_map (map (λ i, (i, None)) (seq 0 (Z.to_nat n))))
             (replicate (Z.to_nat n) Gate.initial)).

(** The loop body of [open_facility]. *)
Definition open_gate (g : Gate.state) : result Gate.state :=
  if decide (g = Gate.closed) then fire Gate.table g Gate.open else Ok g.

Fixpoint open_gates (gs : list Gate.state) : result (list Gate.state) :=
  match gs with
  | [] => Ok []
  | g :: gs => g' ← open_gate g; gs' ← open_gates gs; Ok (g' :: gs')
  end.

Definition open_facility (c : controller) : result controller :=
  gs ← open_gates (gates c);
  Ok (Controller (gate_count c) OPEN (queue c) (gate_assignments c) gs).

Definition close_facility (c : controller) : controller :=
  Controller (gate_count c) CLOSED (queue c) (gate_assignments c) (gates c).

Definition set_queue (c : controller) (q : list queue_entry) : controller :=
  Controller (gate_count c) (fstate c) q (gate_assignments c) (gates c).

Definition enqueue_truck (c : controller) (t : pyval) (v : visit_type) : controller :=
  set_queue c (queue c ++ [QueueEntry t v]).

(** The loop of [assign_available_gates] from gate [idx] on: the new gates, what
    is left of the queue, and the assignments in gate order. *)
Fixpoint assign_loop (idx : nat) (gs : list Gate.state) (q : list queue_entry) :
  result (list Gate.state * list queue_entry * list (nat * queue_entry)) :=
  match gs with
  | [] => Ok ([], q, [])
  | g :: gs' =>
      match q with
      | [] => Ok (g :: gs', [], [])
      | e :: q' =>
          if decide (g = Gate.available) then
            g1 ← fire Gate.table g Gate.assign_truck;
            r ← assign_loop (S idx) gs' q';
            let '(gs1, q1, asg) := r in Ok (g1 :: gs1, q1, (idx, e) :: asg)
          else
            r ← assign_loop (S idx) gs' q;
            let '(gs1, q1, asg) := r in Ok (g :: gs1, q1, asg)
      end
  end.

Definition record_assignments (m : gmap nat (option queue_entry))
  (asg : list (nat * queue_entry)) : gmap nat (option queue_entry) :=
  foldl (λ m p, <[p.1 := Some p.2]> m) m asg.

Definition assign_available_gates (c : controller) : result (controller * list (nat * queue_entry)) :=
  if decide (fstate c = OPEN) then
    r ← assign_loop 0 (gates c) (queue c);
    let '(gs, q, asg) := r in
    Ok (Controller (gate_count c) (fstate c) q
          (record_assignments (gate_assignments c) asg) gs, asg)
  else Ok (c, []).

Definition release_gate (c : controller) (i : Z) : result (controller * option queue_entry) :=
  if (i <? 0)%Z || (Z.of_nat (length (gates c)) <=? i)%Z then Raise IndexError
  else
    let n := Z.to_nat i in
    match gates c !! n with
    | None => Raise IndexError
    | Some g =>
        g' ← (if decide (g = Gate.busy) then fire Gate.table g Gate.complete_service else Ok g);
        match gate_assignments c !! n with
        | None => Raise KeyError
        | Some entry =>
            Ok (Controller (gate_count c) (fstate c) (queue c)
                  (<[n := None]> (gate_assignments c)) (<[n := g']> (gates c)), entry)
        end
    end.

(** [active_truck_ids]: the trucks in service. *)
Definition in_service (m : gmap nat (option queue_entry)) : list queue_entry :=
  omap snd (map_to_list m).

Definition active_truck_ids (c : controller) : list pyval :=
  map truck_id (in_service (gate_assignments c)).

(** ** The well-formedness invariant *)

(** Every gate index is a key, and a gate is busy exactly when a truck is
    assigned to it. *)
Record wf (c : controller) : Prop := {
  wf_dom n : is_Some (gate_assignments c !! n) ↔ n < length (gates c);
  wf_busy n : gates c !! n = Some Gate.busy ↔ ∃ e, gate_assignments c !! n = Some (Some e);
}.

Lemma in_service_insert m i e :
  default None (m !! i) = None → in_service (<[i := Some e]> m) ≡ₚ e :: in_service m.
Proof.
  intros Hi. unfold in_service. rewrite <-insert_delete_eq, map_to_list_insert
    by apply lookup_delete_eq. simpl. constructor.
  destruct (m !! i) as [[?|]|] eqn:E; [done| |].
  - rewrite <-(insert_id m i None) at 2 by done.
    rewrite <-insert_delete_eq, map_to_list_insert by apply lookup_delete_eq. done.
  - by rewrite delete_id.
Qed.

Lemma in_service_release m i o :
  m !! i = Some o →
  in_service m ≡ₚ option_list o ++ in_service (<[i := None]> m).
Proof.
  intros Hi. unfold in_service. rewrite <-(insert_id m i o Hi) at 1.
  rewrite <-(insert_delete_eq m i o), <-(insert_delete_eq m i None).
  rewrite !map_to_list_insert by apply lookup_delete_eq. by destruct o.
Qed.

(** What one pass of the loop does, for any gates: it never raises, hands the
    queue's prefix out in order, and stops only when one side is exhausted. *)
Lemma assign_loop_spec gs q idx :
  ∃ gs' q' asg,
    assign_loop idx gs q = Ok (gs', q', asg) ∧
    q = map snd asg ++ q' ∧
    (q' = [] ∨ Gate.available ∉ gs') ∧
    length gs' = length gs ∧
    (∀ n, gs' !! n = if decide (idx + n ∈ map fst asg) then Some Gate.busy else gs !! n) ∧
    (∀ i, i ∈ map fst asg → idx ≤ i ∧ gs !! (i - idx) = Some Gate.available) ∧
    StronglySorted lt (map fst asg).
Proof.
  revert q idx. induction gs as [|g gs IH]; intros q idx; simpl.
  { exists [], q, []. simpl. split_and!; try done; try set_solver; constructor. }
  destruct q as [|e q].
  { exists (g :: gs), [], []. simpl. split_and!; try done; try set_solver; constructor. }
  case_decide as Hg.
  - subst g. destruct (IH q (S idx)) as (gs' & q' & asg & -> & Hq & Hdone & Hlen & Hgs & Hav & Hs).
    exists (Gate.busy :: gs'), q', ((idx, e) :: asg). simpl. split; [done|].
    split; [by rewrite Hq at 1|]. split; [set_solver|]. split; [lia|]. split; [|split].
    + intros [|n]; simpl.
      { rewrite Nat.add_0_r, decide_True by left. done. }
      rewrite Hgs. apply decide_ext. rewrite elem_of_cons, Nat.add_succ_r.
      split; [auto|intros [?|?]; [lia|done]].
    + intros i [->|Hi]%elem_of_cons; [by rewrite Nat.sub_diag|].
      destruct (Hav i Hi) as [? Hl]. split; [lia|]. by replace (i - idx) with (S (i - S idx)) by lia.
    + constructor; [done|]. apply Forall_forall. intros i Hi. by destruct (Hav i Hi).
  - destruct (IH (e :: q) (S idx)) as (gs' & q' & asg & -> & Hq & Hdone & Hlen & Hgs & Hav & Hs).
    exists (g :: gs'), q', asg. simpl. split; [done|]. split; [done|].
    split; [set_solver|]. split; [lia|]. split; [|split; [|done]].
    + intros [|n]; simpl.
      { rewrite decide_False; [done|]. intros Hi. destruct (Hav _ Hi). lia. }
      rewrite Hgs. by rewrite Nat.add_succ_r.
    + intros i Hi. destruct (Hav i Hi) as [? Hl]. split; [lia|].
      by replace (i - idx) with (S (i - S idx)) by lia.
Qed.

Lemma StronglySorted_lt_NoDup l : StronglySorted lt l → NoDup l.
Proof.
  induction 1 as [|x l _ IH Hx]; constructor; [|done].
  rewrite Forall_forall in Hx. intros Hin. specialize (Hx _ Hin). lia.
Qed.

Lemma record_assignments_lookup asg m n :
  NoDup (map fst asg) →
  record_assignments m asg !! n =
    match d_get asg n with Some e => Some (Some e) | None => m !! n end.
Proof.
  unfold record_assignments. revert m. induction asg as [|[i e] asg IH]; intros m; simpl; [done|].
  intros [Hi Hnd]%NoDup_cons. rewrite IH by done. case_decide as Hn; subst.
  - destruct (d_get asg i) eqn:E; [|apply lookup_insert_eq].
    destruct Hi. apply d_get_is_Some. by rewrite E.
  - case_match; [done|]. by apply lookup_insert_ne.
Qed.

Lemma in_service_record asg m :
  NoDup (map fst asg) → (∀ i, i ∈ map fst asg → default None (m !! i) = None) →
  in_service (record_assignments m asg) ≡ₚ map snd asg ++ in_service m.
Proof.
  unfold record_assignments. revert m. induction asg as [|[i e] asg IH]; intros m; simpl; [done|].
  intros [Hi Hnd]%NoDup_cons Hm. rewrite IH; [|done|].
  - rewrite in_service_insert by (apply Hm; left). apply Permutation_sym, Permutation_middle.
  - intros j Hj. rewrite lookup_insert_ne by (by intros ->). apply Hm. by right.
Qed.

Lemma wf_available c n : wf c → gates c !! n = Some Gate.available →
  gate_assignments c !! n = Some None.
Proof.
  intros [Hd Hb] Hn. destruct (proj2 (Hd n)) as [[e|] He]; [by eapply lookup_lt_Some| |done].
  specialize (proj2 (Hb n)). rewrite Hn. intros H. by discriminate H; eauto.
Qed.

(** Everything one call of [assign_available_gates] does on an open facility. *)
Lemma assign_available_gates_spec c :
  wf c → fstate c = OPEN →
  ∃ c' asg, assign_available_gates c = Ok (c', asg) ∧ wf c' ∧
    fstate c' = OPEN ∧ gate_count c' = gate_count c ∧
    queue c = map snd asg ++ queue c' ∧
    (queue c' = [] ∨ Gate.available ∉ gates c') ∧
    in_service (gate_assignments c') ≡ₚ map snd asg ++ in_service (gate_assignments c) ∧
    StronglySorted lt (map fst asg) ∧
    (∀ i, i ∈ map fst asg → gates c !! i = Some Gate.available) ∧
    (∀ n, gates c' !! n = if decide (n ∈ map fst asg) then Some Gate.busy else gates c !! n).
Proof.
  intros Hwf Hopen. unfold assign_available_gates. rewrite decide_True by done.
  destruct (assign_loop_spec (gates c) (queue c) 0)
    as (gs & q & asg & -> & Hq & Hdone & Hlen & Hgs & Hav & Hs); simpl.
  assert (NoDup (map fst asg)) as Hnd by (by apply StronglySorted_lt_NoDup).
  assert (∀ i, i ∈ map fst asg → gates c !! i = Some Gate.available) as Hav'.
  { intros i Hi. destruct (Hav i Hi) as [_ Hl]. by rewrite Nat.sub_0_r in Hl. }
  eexists _, asg. split; [done|]. simpl. split_and!; try done.
  - destruct Hwf as [Hd Hb]. split; simpl; intros n;
      rewrite record_assignments_lookup by done; [rewrite Hlen|rewrite Hgs; simpl].
    + destruct (d_get asg n) eqn:E; [|apply Hd]. split; [intros _|by eauto].
      eapply lookup_lt_Some, Hav', d_get_is_Some. by rewrite E.
    + case_decide as Hn.
      * apply d_get_is_Some in Hn as [e ->]. naive_solver.
      * destruct (d_get asg n) eqn:E; [|apply Hb]. destruct Hn. apply d_get_is_Some. by rewrite E.
  - apply in_service_record; [done|]. intros i Hi.
    by rewrite (wf_available c i Hwf (Hav' i Hi)).
Qed.

Lemma release_gate_spec c i :
  wf c → (0 ≤ i < Z.of_nat (length (gates c)))%Z →
  ∃ c' o, release_gate c i = Ok (c', o) ∧ wf c' ∧
    gate_assignments c !! Z.to_nat i = Some o ∧
    gate_assignments c' = <[Z.to_nat i := None]> (gate_assignments c) ∧
    queue c' = queue c ∧ fstate c' = fstate c ∧ gate_count c' = gate_count c ∧
    length (gates c') = length (gates c) ∧
    (∀ n, gates c' !! n = if decide (n = Z.to_nat i) then
       (λ g, if decide (g = Gate.busy) then Gate.available else g) <$> gates c !! n
     else gates c !! n).
Proof.
  intros [Hd Hb] Hi. unfold release_gate.
  rewrite (proj2 (orb_false_iff _ _)) by (split; [apply Z.ltb_ge|apply Z.leb_gt]; lia).
  assert (Z.to_nat i < length (gates c)) as Hlt by lia. set (n := Z.to_nat i) in *.
  destruct (lookup_lt_is_Some_2 (gates c) n Hlt) as [g Hg]. rewrite Hg.
  destruct (proj2 (Hd n) Hlt) as [o Ho].
  set (g' := if decide (g = Gate.busy) then Gate.available else g).
  assert ((if decide (g = Gate.busy) then fire Gate.table g Gate.complete_service else Ok g) = Ok g')
    as -> by (unfold g'; by case_decide; subst).
  simpl. rewrite Ho. eexists _, o. split; [done|]. simpl. split_and!; try done.
  - split; simpl; intros m.
    + rewrite length_insert, <-Hd, lookup_insert. case_decide; subst; [|done].
      split; [intros _; by rewrite Ho|eauto].
    + rewrite list_lookup_insert, lookup_insert. destruct (decide (n = m)) as [<-|Hne].
      * rewrite decide_True by done. split; [|naive_solver]. intros [= H].
        unfold g' in H. case_decide; [done|]. by rewrite H in *.
      * rewrite decide_False by naive_solver. apply Hb.
  - by rewrite length_insert.
  - intros m. rewrite list_lookup_insert. destruct (decide (n = m)) as [<-|Hne].
    + rewrite !decide_True by (try split; done || lia). rewrite Hg. by unfold g'.
    + rewrite !decide_False by naive_solver. done.
Qed.

Lemma open_gates_spec gs :
  open_gates gs = Ok (map (λ g, if decide (g = Gate.closed) then Gate.available else g) gs).
Proof. induction gs as [|g gs IH]; simpl; [done|]. rewrite IH. by destruct g. Qed.

Lemma wf_open c : wf c → ∃ c', open_facility c = Ok c' ∧ wf c' ∧ fstate c' = OPEN ∧
  queue c' = queue c ∧ gate_assignments c' = gate_assignments c.
Proof.
  intros [Hd Hb]. unfold open_facility. rewrite open_gates_spec. simpl.
  eexists. split; [done|]. split; [|done]. split; simpl; intros n.
  - by rewrite length_map.
  - rewrite <-Hb, list_lookup_fmap. destruct (gates c !! n) as [[]|]; simpl; naive_solver.
Qed.

Lemma new_controller_wf n : (1 ≤ n)%Z → ∃ c, new_controller n = Ok c ∧ wf c ∧ queue c = [] ∧
  ∀ i e, gate_assignments c !! i ≠ Some (Some e).
Proof.
  intros Hn. unfold new_controller. rewrite (proj2 (Z.ltb_ge _ _)) by lia.
  eexists. split; [done|].
  assert (∀ i, (list_to_map (map (λ i, (i, None)) (seq 0 (Z.to_nat n))) : gmap nat (option queue_entry)) !! i
    = if decide (i < Z.to_nat n) then Some None else None) as Hm.
  { intros i. case_decide as Hi.
    - apply elem_of_list_to_map.
      + rewrite map_map, map_id. apply NoDup_ListNoDup, seq_NoDup.
      + apply list_elem_of_fmap. exists i. split; [done|]. apply elem_of_seq. lia.
    - apply not_elem_of_list_to_map. rewrite map_map, map_id. intros ?%elem_of_seq. lia. }
  split; [|split; [done|simpl; intros i e; rewrite Hm; by case_decide]].
  split; simpl; intros i; rewrite Hm, ?length_replicate.
  - case_decide; naive_solver.
  - rewrite lookup_replicate. case_decide; naive_solver.
Qed.

#[export] Hint Resolve wf_available : openride.

(** ** Service time: [service_time.py] *)

Section ServiceTime.
Context `{PyText}.

(** [int(val)] with [TypeError] and [ValueError] caught: [None] for those. *)
Definition int_or_skip (v : pyval) : result (option Z) :=
  match py_int v with
  | Ok z => Ok (Some z)
  | Raise TypeError | Raise ValueError => Ok None
  | Raise e => Raise e
  end.

(** First usable [service_time] of the sources. *)
Fixpoint first_service_time (sources : list pydict) : result (option Z) :=
  match sources with
  | [] => Ok None
  | d :: ds =>
      match get d "service_time" with
      | PNone => first_service_time ds
      | v => r ← int_or_skip v;
       match r with Some z => Ok (Some (Z.max 0 z)) | None => first_service_time ds end
      end
  end.

Fixpoint legacy_times (vals : list pyval) : result (list Z) :=
  match vals with
  | [] => Ok []
  | PNone :: vs => legacy_times vs
  | v :: vs => r ← int_or_skip v; zs ← legacy_times vs; Ok (option_list r ++ zs)
  end.

(** [resolve_service_time(behavior, profile)]; [None] and [{}] arguments
coincide, and an empty [profile] falls back to the behavior's own. *)
Definition resolve_service_time (behavior prof : pydict) : result Z :=
  let prof := match prof with
  | [] => match get behavior "profile" with PDict d => d | _ => [] end
  | _ => prof
  end in
  t ← first_service_time [behavior; prof];
  match t with
  | Some z => Ok z
  | None =>
      zs ← legacy_times
      [get behavior "pickup_service_time"; get behavior "dropoff_service_time";
       get prof "pickup_service_time"; get prof "dropoff_service_time"];
      match zs with
      | [] => Ok 0%Z
      | z :: zs => Ok (Z.max 0 (foldl Z.max z zs))
      end
  end.
End ServiceTime.

(** ** Manager and agent step *)

(** What the facility agent sends out: messages to trucks, stream records and
    snapshot requests.  Delivery and formatting are the broker's. *)
Inductive output :=
| PubAssigned (truck : pyval) (gate : nat) (v : visit_type) (service : Z)
| PubCompleted (truck : pyval) (gate : nat) (v : visit_type) (service : Z)
| RecordEnqueue (truck : pyval) (v : visit_type)
| RecordComplete (truck : pyval) (v : visit_type)
| Snapshot (force : bool).

Record facility := Facility {
  ctl : controller;                       (** [manager.queue_controller] *)
  mgr_gates : gmap nat queue_entry;       (** [manager._gate_assignments] *)
  ends : list (nat * Z);                  (** [_gate_service_ends], in seconds *)
  now : option Z;                         (** [current_time] *)
  service_time : Z;                       (** [_service_time_seconds()] *)
  stream : bool;                          (** [_facility_stream is not None] *)
  out : list output;
}.

Definition set_ctl a c := Facility c (mgr_gates a) (ends a) (now a) (service_time a) (stream a) (out a).
Definition set_mgr_gates a m := Facility (ctl a) m (ends a) (now a) (service_time a) (stream a) (out a).
Definition set_ends a d := Facility (ctl a) (mgr_gates a) d (now a) (service_time a) (stream a) (out a).
Definition set_now a t := Facility (ctl a) (mgr_gates a) (ends a) t (service_time a) (stream a) (out a).
Definition emit a o :=
  Facility (ctl a) (mgr_gates a) (ends a) (now a) (service_time a) (stream a) (out a ++ o).

(** [_gate_event_for_visit] *)
Definition gate_event_for_visit (v : visit_type) (assigned : bool) : string :=
  match v, assigned with
  | PICKUP, true => Events.GATE_SLOT_ASSIGNED_FOR_PICKUP
  | PICKUP, false => Events.PICKUP_GATE_SERVICE_COMPLETED
  | DROPOFF, true => Events.GATE_SLOT_ASSIGNED_FOR_DROPOFF
  | DROPOFF, false => Events.DROPOFF_GATE_SERVICE_COMPLETED
  end.

(** [_publish_facility_snapshot] *)
Definition publish_snapshot (force : bool) (a : facility) : facility :=
  match stream a, now a with
  | true, Some _ => emit a [Snapshot force]
  | _, _ => a
  end.

Definition stream_record (o : output) (a : facility) : facility :=
  match stream a, now a with
  | true, Some _ => emit a [o]
  | _, _ => a
  end.

(** [FacilityApp.enqueue_arrival] *)
Definition enqueue_arrival (t : pyval) (v : visit_type) (a : facility) : facility :=
  publish_snapshot true (stream_record (RecordEnqueue t v) (set_ctl a (enqueue_truck (ctl a) t v))).

(** [FacilityManager.complete_gate_service] *)
Definition manager_complete (g : nat) (a : facility) : result (facility * option queue_entry) :=
  r ← release_gate (ctl a) (Z.of_nat g);
  let '(c, entry) := r in
  let entry' := match entry with Some e => Some e | None => mgr_gates a !! g end in
  Ok (set_mgr_gates (set_ctl a c) (delete g (mgr_gates a)), entry').

(** [FacilityApp.complete_gate_service] *)
Definition complete_gate_service (a : facility) (g : nat) : result facility :=
  r ← manager_complete g a;
  let '(a, entry) := r in
  let a := set_ends a (d_del (ends a) g) in
  let a := match entry with
    | Some (QueueEntry PNone _) | None => a
    | Some (QueueEntry t v) =>
        emit (stream_record (RecordComplete t v) a) [PubCompleted t g v (service_time a)]
    end in
  Ok (publish_snapshot false a).

(** [_allocate_gates] for one assignment. *)
Definition start_service (a : facility) (p : nat * queue_entry) : facility :=
  let a := match now a with
    | Some t =>
        if (0 <? service_time a)%Z then set_ends a (d_set (ends a) p.1 (t + service_time a)%Z) else a
    | None => a
    end in
  emit a [PubAssigned (truck_id p.2) p.1 (visit p.2) (service_time a)].

(** [FacilityManager.assign_available_gates] and [_allocate_gates]. *)
Definition allocate_gates (a : facility) : result facility :=
  r ← assign_available_gates (ctl a);
  let '(c, asg) := r in
  let a := set_mgr_gates (set_ctl a c) (foldl (λ m p, <[p.1 := p.2]> m) (mgr_gates a) asg) in
  Ok (foldl start_service a asg).

Fixpoint complete_all (a : facility) (due : list nat) : result facility :=
  match due with
  | [] => Ok a
  | g :: due => a' ← complete_gate_service a g; complete_all a' due
  end.

Definition due_gates (a : facility) (t : Z) : list nat :=
  map fst (filter (λ p, (p.2 <= t)%Z) (ends a)).

(** [perform_workflow_actions] *)
Definition perform_workflow_actions (a : facility) : result facility :=
  a ← allocate_gates a;
  match now a with
  | None => Ok a
  | Some t =>
      let due := due_gates a t in
      a ← complete_all a due;
      a ← (if bool_decide (due = []) then Ok a else allocate_gates a);
      Ok (publish_snapshot (negb (bool_decide (ends a = [])) || negb (bool_decide (due = []))) a)
  end.

(** [FacilityWorkflowPayload.parse]: the truck id and the event. *)
Definition parse_facility_payload (p : pyval) : option (pyval * pyval) :=
  match p with
  | PDict d =>
      if py_eq (get d "action") (PStr Events.FACILITY_WORKFLOW_EVENT) then
        match get d "truck_id", get d "data" with
        | PNone, _ => None
        | t, PDict data => match get data "event" with PNone => None | e => Some (t, e) end
        | _, _ => None
        end
      else None
  | _ => None
  end.

(** One turn of [consume_messages]: the handlers of [HaulTripInteractionMixin]. *)
Definition handle_message (a : facility) (payload : pyval) : facility :=
  match parse_facility_payload payload with
  | Some (t, PStr e) =>
      if decide (e = Events.TRUCK_ARRIVED_PICKUP_QUEUE) then enqueue_arrival t PICKUP a
      else if decide (e = Events.TRUCK_ARRIVED_DROPOFF_QUEUE) then enqueue_arrival t DROPOFF a
      else a
  | _ => a
  end.

Definition consume_messages (msgs : list pyval) (a : facility) : facility :=
  foldl handle_message a msgs.

(** [execute_step_actions(current_time)]: [before] and [after] are the payloads
    in the queue at the two [consume_messages] calls. *)
Definition execute_step_actions (t : Z) (before after : list pyval) (a : facility) : result facility :=
  a ← perform_workflow_actions (consume_messages before (set_now a (Some t)));
  Ok (consume_messages after a).

(** [has_pending_gate_work] *)
Definition has_pending_gate_work (message_queue : list pyval) (a : facility) : bool :=
  negb (bool_decide (message_queue = [])) || negb (bool_decide (queue (ctl a) = [])) ||
  negb (bool_decide (active_truck_ids (ctl a) = [])) || negb (bool_decide (ends a = [])).

(** ** The agent's invariant *)

(** Trucks the facility holds: waiting or in service. *)
Definition held (a : facility) : list queue_entry :=
  queue (ctl a) ++ in_service (gate_assignments (ctl a)).

(** Trucks whose service completion was announced. *)
Definition completed (o : list output) : list queue_entry :=
  omap (λ x, match x with PubCompleted t _ v _ => Some (QueueEntry t v) | _ => None end) o.

(** An open facility with a positive service time: the
    controller is well formed, both assignment tables agree, exactly the busy
    gates have a service end, and every held truck is identified. *)
Record agent_wf (a : facility) : Prop := {
  aw_ctl : wf (ctl a);
  aw_open : fstate (ctl a) = OPEN;
  aw_nodup : NoDup (d_keys (ends a));
  aw_ends n : n ∈ d_keys (ends a) ↔ ∃ e, gate_assignments (ctl a) !! n = Some (Some e);
  aw_mgr n : mgr_gates a !! n = mjoin (gate_assignments (ctl a) !! n);
  aw_ids : Forall (λ e, truck_id e ≠ PNone) (held a);
  aw_service : (0 < service_time a)%Z;
}.

Lemma completed_app o o' : completed (o ++ o') = completed o ++ completed o'.
Proof. apply omap_app. Qed.

Lemma start_services_spec asg a t :
  now a = Some t → (0 < service_time a)%Z → NoDup (map fst asg) →
  let a' := foldl start_service a asg in
  ctl a' = ctl a ∧ mgr_gates a' = mgr_gates a ∧ now a' = now a ∧
  service_time a' = service_time a ∧ stream a' = stream a ∧
  completed (out a') = completed (out a) ∧
  (NoDup (d_keys (ends a)) → NoDup (d_keys (ends a'))) ∧
  (∀ n, d_get (ends a') n =
    match d_get asg n with Some _ => Some (t + service_time a)%Z | None => d_get (ends a) n end).
Proof.
  intros Hnow Hst. revert a Hnow Hst. induction asg as [|[i e] asg IH]; intros a Hnow Hst Hnd;
    simpl; [done|].
  apply NoDup_cons in Hnd as [Hi Hnd].
  assert (start_service a (i, e) = emit (set_ends a (d_set (ends a) i (t + service_time a)%Z))
    [PubAssigned (truck_id e) i (visit e) (service_time a)]) as ->.
  { unfold start_service. rewrite Hnow. by rewrite (proj2 (Z.ltb_lt _ _) Hst). }
  edestruct IH as (-> & -> & -> & -> & -> & -> & Hdup & Hget);
    [| | |]; [exact Hnow|exact Hst|exact Hnd|].
  simpl in *. rewrite completed_app, app_nil_r. split_and!; auto with openride.
  intros n. rewrite Hget, d_get_set. destruct (decide (n = i)) as [->|Hne].
  - rewrite decide_True by done. by case_match.
  - rewrite decide_False by done. done.
Qed.

Lemma mgr_insert_lookup asg (m : gmap nat queue_entry) n :
  NoDup (map fst asg) →
  foldl (λ m p, <[p.1 := p.2]> m) m asg !! n =
    match d_get asg n with Some e => Some e | None => m !! n end.
Proof.
  revert m. induction asg as [|[i e] asg IH]; intros m; simpl; [done|].
  intros [Hi Hnd]%NoDup_cons. rewrite IH by done. case_decide as Hn; subst.
  - destruct (d_get asg i) eqn:E; [|apply lookup_insert_eq].
    destruct Hi. apply d_get_is_Some. by rewrite E.
  - case_match; [done|]. by apply lookup_insert_ne.
Qed.

Lemma allocate_gates_spec a t :
  agent_wf a → now a = Some t → ∃ a', allocate_gates a = Ok a' ∧ agent_wf a' ∧
    now a' = now a ∧ service_time a' = service_time a ∧
    completed (out a') = completed (out a) ∧ held a' ≡ₚ held a ∧
    (queue (ctl a') = [] ∨ Gate.available ∉ gates (ctl a')) ∧
    (∀ n e, d_get (ends a') n = Some e →
      d_get (ends a) n = Some e ∨ e = (t + service_time a)%Z).
Proof.
  intros Hwf Ht. destruct Hwf as [Hc Ho Hnd He Hm Hids Hst].
  destruct (assign_available_gates_spec (ctl a) Hc Ho)
    as (c & asg & Hasg & Hc' & Ho' & _ & Hq & Hdone & Hin & Hs & Hav & _).
  assert (NoDup (map fst asg)) as Hnda by (by apply StronglySorted_lt_NoDup).
  assert (gate_assignments c = record_assignments (gate_assignments (ctl a)) asg) as Hga.
  { revert Hasg. unfold assign_available_gates. rewrite decide_True by done.
    destruct (assign_loop 0 _ _) as [[[gs q] asg']|]; simpl; [|done]. by intros [= <- <-]. }
  unfold allocate_gates. rewrite Hasg. simpl. set (a1 := set_mgr_gates _ _).
  destruct (start_services_spec asg a1 t Ht Hst Hnda)
    as (Ectl & Emgr & Enow & Est & _ & Eout & Edup & Eget).
  assert (held (foldl start_service a1 asg) ≡ₚ held a) as Hheld.
  { unfold held. rewrite Ectl. simpl. rewrite Hq, Hin, !app_assoc.
    apply Permutation_app_tail, Permutation_app_comm. }
  eexists. split; [done|]. split_and!; try done.
  2: { by rewrite Ectl. }
  2: { intros n e Hn. rewrite Eget in Hn. simpl in *. case_match; simplify_eq/=; auto. }
  split; rewrite ?Ectl, ?Emgr, ?Est, ?Enow; try done; simpl.
  - by apply Edup.
  - intros n. rewrite <-d_get_is_Some, Eget, Hga, record_assignments_lookup by done. simpl.
    destruct (d_get asg n); [naive_solver|]. rewrite d_get_is_Some. apply He.
  - intros n. rewrite mgr_insert_lookup, Hga, record_assignments_lookup, Hm by done.
    by destruct (d_get asg n).
  - by rewrite Hheld.
Qed.

Lemma publish_snapshot_emit f a : ∃ l, publish_snapshot f a = emit a l ∧ completed l = [].
Proof.
  unfold publish_snapshot. destruct (stream a), (now a); try by eexists [Snapshot f].
  all: exists []; unfold emit; rewrite app_nil_r; by destruct a.
Qed.

Lemma stream_record_emit o a :
  completed [o] = [] → ∃ l, stream_record o a = emit a l ∧ completed l = [].
Proof.
  intros Ho. unfold stream_record. destruct (stream a), (now a); try by eexists [o].
  all: exists []; unfold emit; rewrite app_nil_r; by destruct a.
Qed.

Lemma complete_gate_service_spec a g :
  agent_wf a → g ∈ d_keys (ends a) → ∃ a' e, complete_gate_service a g = Ok a' ∧ agent_wf a' ∧
    now a' = now a ∧ service_time a' = service_time a ∧ ends a' = d_del (ends a) g ∧
    completed (out a') = completed (out a) ++ [e] ∧ held a ≡ₚ e :: held a'.
Proof.
  intros Hwf Hg. destruct Hwf as [Hc Ho Hnd He Hm Hids Hst].
  destruct (proj1 (He g) Hg) as [e Hge].
  assert (g < length (gates (ctl a))) as Hlt by (apply (wf_dom _ Hc); by rewrite Hge).
  destruct (release_gate_spec (ctl a) (Z.of_nat g) Hc ltac:(lia))
    as (c & o & Hr & Hc' & Hge' & Hga & Hq & Ho' & _ & _ & _).
  rewrite Nat2Z.id in Hge', Hga. assert (o = Some e) as -> by congruence.
  assert (held a ≡ₚ e :: (queue c ++ in_service (gate_assignments c))) as Hheld.
  { unfold held. rewrite (in_service_release _ _ _ Hge), <-Hga, Hq. simpl.
    apply Permutation_sym, Permutation_middle. }
  assert (truck_id e ≠ PNone) as Hid.
  { rewrite Hheld in Hids. by apply Forall_cons in Hids as [? _]. }
  unfold complete_gate_service, manager_complete. rewrite Hr. simpl.
  destruct e as [te ve]; simpl in *.
  set (a1 := set_ends (set_mgr_gates (set_ctl a c) (delete g (mgr_gates a))) (d_del (ends a) g)).
  assert (match te with
    | PNone => a1
    | _ => emit (stream_record (RecordComplete te ve) a1) [PubCompleted te g ve (service_time a)]
    end = emit (stream_record (RecordComplete te ve) a1) [PubCompleted te g ve (service_time a)]) as Hm1
    by (by destruct te).
  eexists _, (QueueEntry te ve). split; [reflexivity|].
  replace (set_ends (set_mgr_gates (set_ctl a c) (delete g (mgr_gates a))) (d_del (ends a) g))
    with a1 by done. simpl. rewrite Hm1.
  destruct (stream_record_emit (RecordComplete te ve) a1 eq_refl) as (l1 & -> & Hl1).
  destruct (publish_snapshot_emit false (emit (emit a1 l1) [PubCompleted te g ve (service_time a)]))
    as (l2 & -> & Hl2). simpl.
  split; [|split_and!; rewrite ?completed_app, ?Hl1, ?Hl2; simpl; rewrite ?app_nil_r; done].
  split; simpl; rewrite ?Ho'; try done; auto with openride; try (by eauto).
  all: try (intros n; rewrite ?elem_d_keys_del, ?He, ?Hga, ?lookup_insert, ?lookup_delete;
    destruct (decide (g = n)) as [<-|Hne]; [naive_solver|naive_solver]).
  all: try (unfold held; simpl; rewrite Hheld in Hids; by apply Forall_cons in Hids as [_ ?]).
Qed.

Lemma complete_all_spec due a :
  agent_wf a → NoDup due → (∀ g, g ∈ due → g ∈ d_keys (ends a)) →
  ∃ a' es, complete_all a due = Ok a' ∧ agent_wf a' ∧
    now a' = now a ∧ service_time a' = service_time a ∧
    completed (out a') = completed (out a) ++ es ∧ held a ≡ₚ es ++ held a' ∧
    (∀ n, d_get (ends a') n = if decide (n ∈ due) then None else d_get (ends a) n).
Proof.
  revert a. induction due as [|g due IH]; intros a Hwf Hnd Hin; simpl.
  { exists a, []. rewrite app_nil_r. by split_and!. }
  apply NoDup_cons in Hnd as [Hg Hnd].
  destruct (complete_gate_service_spec a g Hwf) as (a1 & e & -> & Hwf1 & En & Es & Ee & Ec & Eh);
    [apply Hin; by left|]. simpl.
  destruct (IH a1 Hwf1 Hnd) as (a2 & es & -> & Hwf2 & En2 & Es2 & Ec2 & Eh2 & Ee2).
  { intros g' Hg'. rewrite Ee, elem_d_keys_del. split; [by intros ->|apply Hin; by right]. }
  exists a2, (e :: es). split; [done|]. split; [done|].
  split; [congruence|]. split; [congruence|].
  split; [by rewrite Ec2, Ec, <-app_assoc|]. split; [by rewrite Eh, Eh2|].
  intros n. rewrite Ee2, Ee, d_get_del. repeat case_decide; set_solver.
Qed.

(** ** Properties of the controller *)

(** on a well-formed open facility, one allocation never raises, keeps the
    controller well formed, takes trucks from the front of the queue in arrival
    order and hands them to available gates in increasing gate order, touches no
    other gate, and is work conserving: afterwards the queue is empty or no gate
    is available. *)
Theorem assign_available_gates_fifo c :
  wf c → fstate c = OPEN →
  ∃ c' asg, assign_available_gates c = Ok (c', asg) ∧ wf c' ∧
    queue c = map snd asg ++ queue c' ∧
    StronglySorted lt (map fst asg) ∧
    (∀ n, n ∈ map fst asg → gates c !! n = Some Gate.available ∧ gates c' !! n = Some Gate.busy) ∧
    (∀ n, n ∉ map fst asg → gates c' !! n = gates c !! n) ∧
    (queue c' = [] ∨ Gate.available ∉ gates c').
Proof.
  intros Hwf Ho.
  destruct (assign_available_gates_spec c Hwf Ho)
    as (c' & asg & -> & Hwf' & _ & _ & Hq & Hdone & _ & Hs & Hav & Hgs).
  exists c', asg. split_and!; try done.
  - intros n Hn. rewrite Hgs, decide_True by done. auto.
  - intros n Hn. by rewrite Hgs, decide_False.
Qed.

Definition demo_controller : controller :=
  Controller 2 OPEN [QueueEntry (PStr "t1") PICKUP; QueueEntry (PStr "t2") DROPOFF;
                     QueueEntry (PStr "t3") PICKUP]
    (<[0 := None]> (<[1 := None]> ∅)) [Gate.available; Gate.available].

Lemma demo_controller_wf : wf demo_controller.
Proof.
  split; intros [|[|n]]; simpl; split; try (by intros [? ?]); try (by eauto); try lia; try done.
  all: intros [e He]; by simplify_map_eq.
Qed.

Lemma assign_available_gates_fifo_witness :
  wf demo_controller ∧ ∃ c' asg, assign_available_gates demo_controller = Ok (c', asg) ∧ wf c' ∧
    queue demo_controller = map snd asg ++ queue c'.
Proof.
  split; [exact demo_controller_wf|].
  destruct (assign_available_gates_fifo demo_controller demo_controller_wf eq_refl)
    as (c' & asg & H1 & H2 & H3 & _). exists c', asg. split; [exact H1|split; [exact H2|exact H3]].
Defined.

(** ** Properties of the agent step *)

Lemma perform_workflow_actions_spec a t :
  agent_wf a → now a = Some t →
  ∃ a' es, perform_workflow_actions a = Ok a' ∧ agent_wf a' ∧
    completed (out a') = completed (out a) ++ es ∧
    held a ≡ₚ es ++ held a' ∧
    (∀ n e, d_get (ends a') n = Some e → (t < e)%Z) ∧
    (queue (ctl a') = [] ∨ Gate.available ∉ gates (ctl a')).
Proof.
  intros Hwf Hnow. unfold perform_workflow_actions.
  destruct (allocate_gates_spec a t Hwf Hnow) as (a1 & -> & Hwf1 & En1 & Es1 & Ec1 & Eh1 & Hd1 & _).
  simpl. rewrite En1, Hnow.
  assert (NoDup (due_gates a1 t)) as Hnd.
  { apply NoDup_keys_filter, aw_nodup, Hwf1. }
  destruct (complete_all_spec (due_gates a1 t) a1 Hwf1 Hnd)
    as (a2 & es & H2 & Hwf2 & En2 & Es2 & Ec2 & Eh2 & Ee2).
  { intros g Hg. unfold due_gates in Hg. apply list_elem_of_fmap in Hg as ([n e] & -> & Hg).
    apply list_elem_of_filter in Hg as [_ Hg]. apply list_elem_of_fmap. by exists (n, e). }
  rewrite H2. simpl.
  assert (∀ n e, d_get (ends a2) n = Some e → (t < e)%Z) as Hlate.
  { intros n e. rewrite Ee2. case_decide as Hn; [done|]. intros He.
    apply Z.lt_nge. intros Hle. apply Hn. unfold due_gates. apply list_elem_of_fmap.
    exists (n, e). split; [done|]. apply list_elem_of_filter. split; [done|].
    by apply d_get_Some_elem. }
  assert (∃ a3, (if bool_decide (due_gates a1 t = []) then Ok a2 else allocate_gates a2) = Ok a3 ∧
    agent_wf a3 ∧ completed (out a3) = completed (out a2) ∧ held a3 ≡ₚ held a2 ∧
    (queue (ctl a3) = [] ∨ Gate.available ∉ gates (ctl a3)) ∧
    (∀ n e, d_get (ends a3) n = Some e → (t < e)%Z)) as (a3 & -> & Hwf3 & Ec3 & Eh3 & Hd3 & He3).
  { case_bool_decide as Hdue.
    - rewrite Hdue in H2. simpl in H2. exists a2. split_and!; try done. congruence.
    - destruct (allocate_gates_spec a2 t Hwf2 ltac:(congruence)) as (a3 & H3 & Hwf3 & _ & _ & Ec3 & Eh3 & Hd3 & He3).
      exists a3. split_and!; try done. intros n e Hn.
      destruct (He3 n e Hn) as [?| ->]; [by eapply Hlate|].
      pose proof (aw_service _ Hwf2). lia. }
  simpl. destruct (publish_snapshot_emit
    (negb (bool_decide (ends a3 = [])) || negb (bool_decide (due_gates a1 t = []))) a3)
    as (l & -> & Hl).
  exists (emit a3 l), es. split; [done|]. split; [by destruct Hwf3|].
  simpl. rewrite completed_app, Hl, app_nil_r. split; [congruence|].
  split; [by rewrite <-Eh1, Eh2, <-Eh3|]. done.
Qed.

(** [FacilityManager.__init__] and [FacilityApp.launch] with a gate count and a
    resolved service time: the controller is built and opened. *)
Definition launch (gate_count service : Z) (with_stream : bool) (t : option Z) : result facility :=
  c ← new_controller gate_count;
  c ← open_facility c;
  Ok (publish_snapshot true (Facility c ∅ [] t service with_stream [])).

Lemma agent_wf_emit a l : agent_wf a → agent_wf (emit a l).
Proof. by intros []. Qed.

Lemma launch_wf n s b t : (1 ≤ n)%Z → (0 < s)%Z → ∃ a, launch n s b t = Ok a ∧ agent_wf a.
Proof.
  intros Hn Hs. unfold launch. destruct (new_controller_wf n Hn) as (c & -> & Hc & Hq & Hg). simpl.
  destruct (wf_open c Hc) as (c' & -> & Hc' & Ho & Hq' & Hga). simpl.
  edestruct publish_snapshot_emit as (l & -> & _). eexists. split; [done|].
  apply agent_wf_emit. rewrite <-Hga in Hg.
  split; simpl; try done; try apply NoDup_nil_2; unfold held; simpl.
  - intros i. split; [by intros ?%elem_of_nil|]. intros [e He]. by destruct (Hg i e).
  - intros i. destruct (gate_assignments c' !! i) as [[e|]|] eqn:E; simpl; try done. by destruct (Hg i e).
  - rewrite Hq', Hq. simpl. apply Forall_forall. intros e He.
    apply list_elem_of_omap in He as ([i o] & Hi & He). apply elem_of_map_to_list in Hi.
    simpl in He. subst. by destruct (Hg i e).
Qed.

(** The queue entry a payload adds, if any. *)
Definition arrival (payload : pyval) : option queue_entry :=
  match parse_facility_payload payload with
  | Some (t, PStr e) =>
      if decide (e = Events.TRUCK_ARRIVED_PICKUP_QUEUE) then Some (QueueEntry t PICKUP)
      else if decide (e = Events.TRUCK_ARRIVED_DROPOFF_QUEUE) then Some (QueueEntry t DROPOFF)
      else None
  | _ => None
  end.

Definition same_but_queue (a a' : facility) : Prop :=
  gate_assignments (ctl a') = gate_assignments (ctl a) ∧ gates (ctl a') = gates (ctl a) ∧
  fstate (ctl a') = fstate (ctl a) ∧ mgr_gates a' = mgr_gates a ∧ ends a' = ends a ∧
  now a' = now a ∧ service_time a' = service_time a ∧ completed (out a') = completed (out a).

#[export] Instance same_but_queue_refl : Reflexive same_but_queue.
Proof. by intros a; split_and!. Qed.
#[export] Instance same_but_queue_trans : Transitive same_but_queue.
Proof. unfold same_but_queue. intros a b c. naive_solver congruence. Qed.

Lemma enqueue_arrival_spec t v a :
  same_but_queue a (enqueue_arrival t v a) ∧
  queue (ctl (enqueue_arrival t v a)) = queue (ctl a) ++ [QueueEntry t v].
Proof.
  unfold enqueue_arrival, same_but_queue.
  destruct (stream_record_emit (RecordEnqueue t v) (set_ctl a (enqueue_truck (ctl a) t v)) eq_refl)
    as (l1 & -> & H1).
  edestruct publish_snapshot_emit as (l2 & -> & H2). simpl.
  rewrite !completed_app, H1, H2, !app_nil_r. by split_and!.
Qed.

Lemma consume_messages_spec msgs a :
  same_but_queue a (consume_messages msgs a) ∧
  queue (ctl (consume_messages msgs a)) = queue (ctl a) ++ omap arrival msgs.
Proof.
  unfold consume_messages. revert a. induction msgs as [|m msgs IH]; intros a; simpl.
  { by rewrite app_nil_r. }
  destruct (IH (handle_message a m)) as [IH1 ->].
  assert (same_but_queue a (handle_message a m) ∧
    queue (ctl (handle_message a m)) = queue (ctl a) ++ option_list (arrival m)) as [H1 ->].
  { unfold handle_message, arrival. split_matches; simpl; rewrite ?app_nil_r; try done;
      apply enqueue_arrival_spec. }
  split; [by etrans|]. rewrite <-app_assoc. by destruct (arrival m).
Qed.

Lemma arrival_identified m e : arrival m = Some e → truck_id e ≠ PNone.
Proof.
  unfold arrival, parse_facility_payload. intros H. split_matches; simplify_eq/=; done.
Qed.

Lemma agent_wf_arrivals a a' msgs :
  agent_wf a → same_but_queue a a' → queue (ctl a') = queue (ctl a) ++ omap arrival msgs →
  agent_wf a' ∧ held a' ≡ₚ omap arrival msgs ++ held a.
Proof.
  intros [[Hd Hb] Ho Hnd He Hm Hids Hs] (E1 & E2 & E3 & E4 & E5 & E6 & E7 & E8) Hq.
  assert (held a' ≡ₚ omap arrival msgs ++ held a) as Hheld.
  { unfold held. rewrite E1, Hq, !app_assoc. apply Permutation_app_tail, Permutation_app_comm. }
  split; [|done]. split; rewrite ?E1, ?E3, ?E4, ?E5, ?E6, ?E7; try done.
  - split; intros n; rewrite ?E1, ?E2; auto.
  - rewrite Hheld. apply Forall_app_2; [|done]. apply Forall_forall.
    intros e (m & _ & Hm')%list_elem_of_omap. by eapply arrival_identified.
Qed.

(** C15: with a positive service time, a facility step at time [t] never raises and
    keeps the agent's invariant; every service due by [t] is completed and
    announced, so no service end at or before [t] is left; no truck is lost or
    duplicated (the trucks held before plus those that arrive are, as a multiset,
    the ones announced as completed plus those held after); and the trucks that
    were there at allocation wait only if no gate is available. *)
Theorem facility_step_conserves a t before after :
  agent_wf a →
  ∃ a' es waiting, execute_step_actions t before after a = Ok a' ∧ agent_wf a' ∧
    completed (out a') = completed (out a) ++ es ∧
    omap arrival after ++ omap arrival before ++ held a ≡ₚ es ++ held a' ∧
    (∀ n e, d_get (ends a') n = Some e → (t < e)%Z) ∧
    queue (ctl a') = waiting ++ omap arrival after ∧
    (waiting = [] ∨ Gate.available ∉ gates (ctl a')).
Proof.
  intros Hwf. unfold execute_step_actions. set (a0 := set_now a (Some t)).
  assert (agent_wf a0) as Hwf0 by (destruct Hwf; by split).
  destruct (consume_messages_spec before a0) as [Hs1 Hq1].
  destruct (agent_wf_arrivals _ _ _ Hwf0 Hs1 Hq1) as [Hwf1 Hh1].
  assert (now (consume_messages before a0) = Some t) as Hn1
    by (by destruct Hs1 as (_ & _ & _ & _ & _ & -> & _)).
  destruct (perform_workflow_actions_spec _ t Hwf1 Hn1)
    as (a2 & es & -> & Hwf2 & Hc2 & Hh2 & Hl2 & Hd2). simpl.
  destruct (consume_messages_spec after a2) as [Hs3 Hq3].
  destruct (agent_wf_arrivals _ _ _ Hwf2 Hs3 Hq3) as [Hwf3 Hh3].
  pose proof Hs3 as (_ & Eg & _ & _ & Ee & _ & _ & Ec).
  pose proof Hs1 as (_ & _ & _ & _ & _ & _ & _ & Ec1).
  exists (consume_messages after a2), es, (queue (ctl a2)). split_and!; try done.
  - rewrite Ec, Hc2, Ec1. done.
  - by rewrite Hh3, (Permutation_app_swap_app es), <-Hh2, Hh1.
  - by rewrite Ee.
  - by rewrite Eg.
Qed.

Definition demo_facility : facility :=
  Facility (Controller 1 OPEN [QueueEntry (PStr "t2") DROPOFF]
              {[0 := Some (QueueEntry (PStr "t1") PICKUP)]} [Gate.busy])
    {[0 := QueueEntry (PStr "t1") PICKUP]} [(0, 100%Z)] (Some 0%Z) 60 true [].

Lemma demo_facility_wf : agent_wf demo_facility.
Proof.
  split; simpl; try done.
  - split; intros [|n]; simpl; split; try (by eauto); try lia; try done.
    all: intros [e He]; by simplify_map_eq.
  - apply NoDup_singleton.
  - intros [|n]; rewrite list_elem_of_singleton.
    + rewrite lookup_singleton_eq. naive_solver.
    + rewrite lookup_singleton_ne by done. split; [done|]. by intros [? ?].
  - intros [|n]; [done|]. by rewrite !lookup_singleton_ne.
  - by repeat constructor.
Qed.

Lemma facility_step_conserves_witness :
  agent_wf demo_facility ∧
  ∃ a' es waiting, execute_step_actions 120 [] [] demo_facility = Ok a' ∧
    held demo_facility ≡ₚ es ++ held a' ∧ queue (ctl a') = waiting ++ [].
Proof.
  split; [exact demo_facility_wf|].
  destruct (facility_step_conserves demo_facility 120 [] [] demo_facility_wf)
    as (a' & es & w & H1 & _ & _ & H2 & _ & H3 & _).
  exists a', es, w. split; [exact H1|split; [exact H2|exact H3]].
Defined.

Lemma start_services_no_time asg a :
  (service_time a ≤ 0)%Z →
  let a' := foldl start_service a asg in
  ctl a' = ctl a ∧ ends a' = ends a ∧ now a' = now a ∧ completed (out a') = completed (out a).
Proof.
  revert a. induction asg as [|p asg IH]; intros a Hst; simpl; [done|].
  assert (start_service a p = emit a [PubAssigned (truck_id p.2) p.1 (visit p.2) (service_time a)])
    as ->.
  { unfold start_service. rewrite (proj2 (Z.ltb_ge _ _)) by done. by destruct (now a). }
  destruct (IH (emit a [PubAssigned (truck_id p.2) p.1 (visit p.2) (service_time a)]) Hst)
    as (-> & -> & -> & ->). simpl. by rewrite completed_app, app_nil_r.
Qed.

Lemma allocate_gates_no_time a :
  wf (ctl a) → fstate (ctl a) = OPEN → ends a = [] → (service_time a ≤ 0)%Z →
  ∃ a', allocate_gates a = Ok a' ∧ ends a' = [] ∧ now a' = now a ∧
    completed (out a') = completed (out a) ∧
    (∀ n, gates (ctl a) !! n = Some Gate.busy →
      gates (ctl a') !! n = Some Gate.busy ∧
      gate_assignments (ctl a') !! n = gate_assignments (ctl a) !! n).
Proof.
  intros Hc Ho He Hst. unfold allocate_gates, assign_available_gates.
  rewrite decide_True by done.
  destruct (assign_loop_spec (gates (ctl a)) (queue (ctl a)) 0)
    as (gs & q & asg & -> & _ & _ & _ & Hgs & Hav & Hs). simpl.
  set (a1 := set_mgr_gates _ _).
  destruct (start_services_no_time asg a1 Hst) as (Ec & Ee & En & Eo).
  eexists. split; [done|]. rewrite Ec, Ee, En, Eo. simpl. split_and!; try done.
  intros n Hn. assert (n ∉ map fst asg) as Hni.
  { intros Hi. destruct (Hav n Hi) as [_ Ha]. rewrite Nat.sub_0_r in Ha. congruence. }
  rewrite Hgs. simpl. rewrite decide_False by done. split; [done|].
  rewrite record_assignments_lookup by (by apply StronglySorted_lt_NoDup).
  destruct (d_get asg n) eqn:E; [|done]. destruct Hni. apply d_get_is_Some. by rewrite E.
Qed.

(** with no (or a zero) service time no service ever ends: an open facility's
    step succeeds but completes nothing, schedules nothing, and leaves every busy
    gate busy, so a truck that entered a gate never leaves it. *)
Theorem zero_service_time_never_completes a t before after :
  wf (ctl a) → fstate (ctl a) = OPEN → ends a = [] → (service_time a ≤ 0)%Z →
  ∃ a', execute_step_actions t before after a = Ok a' ∧
    completed (out a') = completed (out a) ∧ ends a' = [] ∧
    (∀ n, gates (ctl a) !! n = Some Gate.busy →
      gates (ctl a') !! n = Some Gate.busy ∧
      gate_assignments (ctl a') !! n = gate_assignments (ctl a) !! n).
Proof.
  intros Hc Ho He Hst. unfold execute_step_actions.
  destruct (consume_messages_spec before (set_now a (Some t)))
    as [(E1 & E2 & E3 & _ & E5 & E6 & E7 & E8) _].
  set (a1 := consume_messages before _) in *. simpl in *.
  assert (wf (ctl a1)) as Hc1 by (destruct Hc; split; intros n; rewrite ?E1, ?E2; auto).
  destruct (allocate_gates_no_time a1 Hc1) as (a2 & Ha & F1 & F2 & F3 & F4); try congruence.
  unfold perform_workflow_actions. rewrite Ha. simpl. rewrite F2, E6. unfold due_gates.
  rewrite F1. simpl.
  match goal with |- context [publish_snapshot ?f a2] =>
    destruct (publish_snapshot_emit f a2) as (l & -> & Hcl) end. simpl.
  destruct (consume_messages_spec after (emit a2 l)) as [(G1 & G2 & _ & _ & G5 & _ & _ & G8) _].
  eexists. split; [done|]. rewrite G1, G2, G5, G8. simpl.
  rewrite completed_app, Hcl, app_nil_r. split_and!; [congruence|congruence|].
  intros n Hn. rewrite <-E1. apply F4. congruence.
Qed.

Definition demo_stuck : facility :=
  Facility (ctl demo_facility) (mgr_gates demo_facility) [] (Some 0%Z) 0 true [].

Lemma zero_service_time_never_completes_witness :
  ∃ a', execute_step_actions 7200 [] [] demo_stuck = Ok a' ∧
    completed (out a') = [] ∧ gates (ctl a') !! 0 = Some Gate.busy.
Proof.
  destruct (zero_service_time_never_completes demo_stuck 7200 [] []
    (aw_ctl _ demo_facility_wf) eq_refl eq_refl (Z.le_refl 0))
    as (a' & H1 & H2 & _ & H3).
  exists a'. split; [exact H1|split; [exact H2|exact (proj1 (H3 0 eq_refl))]].
Defined.
