(* ===== verification/Tiebreak.v ===== *)
(** The two ways ties are broken: the stable hash of [assignment/tiebreak.py]
    and [random.Random.shuffle].  The digest and the random draws are parameters;
    everything the code builds on them is a definition. *)

From stdpp Require Import pretty.
From S2P Require Import Prelude PyValue.

(** ** The stable hash *)

(** [int.from_bytes(blake2b(payload, digest_size=8).digest(), "big")] *)
Class Blake2b := blake2b_64 : string → Z.

Section Hash.
Context `{Blake2b}.

Definition stable_tiebreak (seed : Z) (parts : list string) : Z :=
  blake2b_64 (String.concat "|" (pretty seed :: parts)).

Definition pair_tiebreak (seed : Z) (order_id truck_id : string) : Z :=
  stable_tiebreak seed [order_id; truck_id].
End Hash.

(** ** Shuffling *)

(** A generator: [randbelow r n] draws a number below [n] and moves on;
    [sample r k l] draws [k] elements of [l] without replacement. *)
Class Rng := {
  rng : Type;
  randbelow : rng → nat → nat * rng;
  sample {A : Type} : rng → nat → list A → list A * rng;
  sample_sub {A : Type} r k (l : list A) : (sample r k l).1 ⊆+ l;
}.

(** [x[i], x[j] = x[j], x[i]] *)
Definition swap {A} (i j : nat) (l : list A) : list A :=
  match l !! i, l !! j with
  | Some x, Some y => <[j := x]> (<[i := y]> l)
  | _, _ => l
  end.

Section Shuffle.
Context `{Rng} {A : Type}.

(** [for i in reversed(range(1, len(x)))], from position [i] down. *)
Fixpoint shuffle_from (i : nat) (r : rng) (l : list A) : list A * rng :=
  match i with
  | 0 => (l, r)
  | S i' => let '(j, r') := randbelow r (S i) in shuffle_from i' r' (swap i j l)
  end.

Definition shuffle (r : rng) (l : list A) : list A * rng := shuffle_from (pred (length l)) r l.

Lemma insert_perm (l : list A) i x y :
  l !! i = Some x → x :: <[i := y]> l ≡ₚ y :: l.
Proof.
  intros Hi.
  assert (<[i := y]> l !! i = Some y) as Hy
  by (apply list_lookup_insert_eq; by eapply lookup_lt_Some).
  apply delete_Permutation in Hi. apply delete_Permutation in Hy.
  assert (delete i (<[i := y]> l) = delete i l) as Hd.
  { apply list_eq. intros k. destruct (decide (k < i)).
  - by rewrite !list_lookup_delete_lt, list_lookup_insert_ne by lia.
  - by rewrite !list_lookup_delete_ge, list_lookup_insert_ne by lia. }
  rewrite Hd in Hy. etrans; [by apply (Permutation_cons (x := x))|].
  etrans; [apply Permutation_swap|]. by apply Permutation_cons.
Qed.

Lemma swap_perm i j (l : list A) : swap i j l ≡ₚ l.
Proof.
  unfold swap. destruct (l !! i) as [x|] eqn:Hi; [|done].
  destruct (l !! j) as [y|] eqn:Hj; [|done].
  apply (Permutation_cons_inv (a := y)). etrans; [|by apply (insert_perm l i)].
  apply insert_perm. destruct (decide (i = j)) as [->|Hne].
  - rewrite list_lookup_insert_eq; [done|by eapply lookup_lt_Some].
  - by rewrite list_lookup_insert_ne.
Qed.

Lemma shuffle_perm r (l : list A) : (shuffle r l).1 ≡ₚ l.
Proof.
  unfold shuffle. generalize (pred (length l)) as i. intros i. revert r l.
  induction i as [|i IH]; intros r l; simpl; [done|].
  destruct (randbelow r (S (S i))) as [j r']. rewrite IH. apply swap_perm.
Qed.
End Shuffle.

(** A generator that always draws zero: enough to run examples. *)
Definition zero_rng : Rng := {|
  rng := unit; randbelow := λ r _, (0, r); sample := λ _ r k l, (take k l, r);
  sample_sub := λ _ _ k l, sublist_submseteq _ _ (sublist_take l k) |}.

(** A digest that maps every payload to zero: the worst case for ties. *)
Definition zero_hash : Blake2b := λ _, 0%Z.
