(* ===== verification/Pools.v ===== *)
(** Shared pools and the pool market of one planning tick
    ([assignment/pools.py]): parsing the compiled structure, contributions,
    visibility, and the allocation state that keeps awards free of conflicts. *)

From S2P Require Import Prelude PyValue.

(** ** Data *)

(** [Pool] *)
Record pool := Pool { pool_id : string; members : gset string }.

(** [Bid] *)
Record bid := Bid {
  bid_haulier : string;
  bid_order : string;
  bid_truck : string;
  bid_cost : float64;
  bid_pool : option string;
  bid_round : Z;
}.

(** [Award] *)
Record award := Award {
  award_order : string;
  award_truck : string;
  carrier_haulier : string;
  owner_haulier : option string;
  award_cost : float64;
  award_pool : option string;
  award_round : Z;
}.

#[export] Instance pool_eq_dec : EqDecision pool.
Proof. solve_decision. Defined.
#[export] Instance bid_eq_dec : EqDecision bid.
Proof. solve_decision. Defined.
#[export] Instance award_eq_dec : EqDecision award.
Proof. solve_decision. Defined.

(** ** Parsing: [pools_from_structure] *)

(** [isinstance(m, str) and m] *)
Definition nonempty_str (v : pyval) : option string :=
  match v with
  | PStr s => if decide (s = "") then None else Some s
  | _ => None
  end.

(** [isinstance(v, (list, tuple))]; a JSON document holds no sets. *)
Definition as_seq (v : pyval) : option (list pyval) :=
  match v with PList l | PTuple l => Some l | _ => None end.

(** [_pool_from_entry] *)
Definition pool_from_entry (entry : pyval) : option pool :=
  match entry with
  | PDict d =>
      pid ← nonempty_str (get d "id");
      raw ← as_seq (get d "members");
      let ms : gset string := list_to_set (omap nonempty_str raw) in
      if decide (size ms < 2) then None else Some (Pool pid ms)
  | _ => None
  end.

Definition DERIVED_POOL_PREFIX : string := "p:".

(** The pool an edge stands for, when the edge is well formed. *)
Definition pool_from_edge (edge : pyval) : option pool :=
  l ← as_seq edge;
  match l with
  | [x; y] =>
      a ← nonempty_str x;
      b ← nonempty_str y;
      if decide (a = b) then None
      else
        let ms : gset string := {[a; b]} in
        Some (Pool (DERIVED_POOL_PREFIX +:+ String.concat "+" (sorted_strings ms)) ms)
  | _ => None
  end.

(** The dictionary both parsers fill: a later entry with the id of an earlier
    one replaces it. *)
Definition index_pools (l : list pool) : list (string * pool) :=
  foldl (λ d p, d_set d (pool_id p) p) [] l.

(** [tuple(sorted(pools.values(), key=lambda p: p.id))] *)
Definition sorted_pools (d : list (string * pool)) : list pool :=
  py_sorted (on_key pool_id String.leb) (map snd d).

(** [_pools_from_edges] *)
Definition pools_from_edges (edges : pyval) : list pool :=
  match as_seq edges with
  | Some l => sorted_pools (index_pools (omap pool_from_edge l))
  | None => []
  end.

Definition pools_from_structure (structure : pyval) : list pool :=
  match structure with
  | PDict d =>
      match get d "pools" with
      | PList l => sorted_pools (index_pools (omap pool_from_entry l))
      | _ => pools_from_edges (get d "edges")
      end
  | _ => []
  end.

(** ** The market: [PoolMarket] *)

Record market := Market {
  pools : gmap string pool;
  contributions : gmap string (list string);
  contribution_owner : gmap string string;
  committed_orders : gset string;
  committed_trucks : gset string;
  awards : list award;
}.

(** [__init__] *)
Definition new_market (ps : list pool) : market :=
  Market (foldl (λ m p, <[pool_id p := p]> m) ∅ ps) ∅ ∅ ∅ ∅ [].

Definition from_structure (structure : pyval) : market :=
  new_market (pools_from_structure structure).

Definition market_is_empty (m : market) : bool := bool_decide (pools m = ∅).

Definition member_of (m : market) (h pid : string) : bool :=
  match pools m !! pid with
  | Some p => bool_decide (h ∈ members p)
  | None => false
  end.

Definition pools_for (m : market) (h : string) : list pool :=
  py_sorted (on_key pool_id String.leb)
    (filter (λ p, h ∈ members p) (map snd (map_to_list (pools m)))).

(** [contribute]: the market after the call, and the placements accepted. *)
Definition contribute (m : market) (o owner : string) (pids : list string) : market * nat :=
  let recorded := contribution_owner m !! o in
  if decide (recorded ≠ None ∧ recorded ≠ Some owner) then (m, 0)
  else
    let accepted := filter (λ pid, member_of m owner pid = true) pids in
    match accepted with
    | [] => (m, 0)
    | _ =>
        let existing := default [] (contributions m !! o) in
        let all := sorted_strings (list_to_set (existing ++ accepted)) in
        (Market (pools m) (<[o := all]> (contributions m))
           (<[o := owner]> (contribution_owner m))
           (committed_orders m) (committed_trucks m) (awards m), length accepted)
    end.

(** [visible_pooled_order_ids] *)
Definition visible_pooled_order_ids (m : market) (h : string) : gset string :=
  dom (filter (λ p, contribution_owner m !! p.1 ≠ Some h ∧
                 existsb (member_of m h) p.2 = true) (contributions m)).

Definition pool_of_order (m : market) (o viewer : string) : option string :=
  head (py_sorted String.leb
    (filter (λ pid, member_of m viewer pid = true) (default [] (contributions m !! o)))).

Definition eligible_carriers (m : market) (o owner : string) : gset string :=
  foldl (λ carriers pid,
           match pools m !! pid with
           | Some p => carriers ∪ members p
           | None => carriers
           end) {[owner]} (default [] (contributions m !! o)).

Definition is_contributed (m : market) (o : string) : bool :=
  match contributions m !! o with Some (_ :: _) => true | _ => false end.

Definition commit (m : market) (a : award) : market * bool :=
  if decide (award_order a ∈ committed_orders m ∨ award_truck a ∈ committed_trucks m) then (m, false)
  else
    (Market (pools m) (contributions m) (contribution_owner m)
       ({[award_order a]} ∪ committed_orders m) ({[award_truck a]} ∪ committed_trucks m)
       (awards m ++ [a]), true).

Definition is_order_free (m : market) (o : string) : bool :=
  bool_decide (o ∉ committed_orders m).
Definition is_truck_free (m : market) (t : string) : bool :=
  bool_decide (t ∉ committed_trucks m).

(** ** Lemmas: parsing *)

#[export] Instance on_pool_id_total : TotalOn always (on_key pool_id String.leb).
Proof. refine (on_key_total always pool_id String.leb _). by intros. Qed.

Lemma nonempty_str_Some v s : nonempty_str v = Some s ↔ v = PStr s ∧ s ≠ "".
Proof.
  split; [destruct v; simpl; intros; by simplify_option_eq|].
  intros [-> ?]. simpl. by rewrite decide_False.
Qed.

Definition good_pool (p : pool) : Prop :=
  pool_id p ≠ "" ∧ 2 ≤ size (members p) ∧ "" ∉ members p.

Lemma pool_from_entry_good e p : pool_from_entry e = Some p → good_pool p.
Proof.
  destruct e; simpl; try done. intros H. simplify_option_eq.
  match goal with H : nonempty_str _ = Some _ |- _ => apply nonempty_str_Some in H as [_ ?] end.
  split_and!; simpl; [done|lia|]. rewrite elem_of_list_to_set, list_elem_of_omap.
  by intros (v & _ & [_ ?]%nonempty_str_Some).
Qed.

Lemma pool_from_edge_good e p : pool_from_edge e = Some p → good_pool p.
Proof.
  unfold pool_from_edge. intros H.
  destruct (as_seq e) as [[|x [|y [|]]]|]; simpl in H; try done. simplify_option_eq.
  repeat match goal with H : nonempty_str _ = Some _ |- _ => apply nonempty_str_Some in H as [-> ?] end.
  unfold good_pool; cbn [members pool_id]. split_and!.
  - done.
  - rewrite size_union by set_solver. by rewrite !size_singleton.
  - set_solver.
Qed.

(** The id of an edge's pool determines nothing more than the edge does. *)
Lemma index_pools_get l pid :
  d_get (index_pools l) pid = last (filter (λ p, pool_id p = pid) l).
Proof.
  unfold index_pools. induction l as [|p l IH] using rev_ind; [done|].
  rewrite foldl_app; simpl. rewrite d_get_set, IH, filter_app, last_app, filter_cons.
  by case_decide.
Qed.

Lemma index_pools_NoDup l : NoDup (d_keys (index_pools l)).
Proof.
  unfold index_pools. apply foldl_invariant; [|constructor].
  intros; by apply NoDup_d_set.
Qed.

Lemma index_pools_key l pid p : (pid, p) ∈ index_pools l → pool_id p = pid.
Proof.
  intros H. apply elem_d_get in H; [|apply index_pools_NoDup].
  rewrite index_pools_get in H. apply last_Some_elem_of, list_elem_of_filter in H. naive_solver.
Qed.

Lemma index_pools_ids l : map pool_id (map snd (index_pools l)) = d_keys (index_pools l).
Proof.
  unfold d_keys. rewrite map_map. apply map_ext_in. intros [pid p] H.
  simpl. apply (index_pools_key l). by apply list_elem_of_In.
Qed.

Lemma elem_of_sorted_pools l p :
  p ∈ sorted_pools (index_pools l) ↔ last (filter (λ q, pool_id q = pool_id p) l) = Some p.
Proof.
  unfold sorted_pools. rewrite elem_of_py_sorted, <-index_pools_get. split.
  - intros ([pid q] & -> & H)%list_elem_of_fmap. simpl.
    rewrite (index_pools_key _ _ _ H). apply elem_d_get; [apply index_pools_NoDup|done].
  - intros H%d_get_Some_elem. apply list_elem_of_fmap. by exists (pool_id p, p).
Qed.

Lemma sorted_pools_NoDup l : NoDup (map pool_id (sorted_pools (index_pools l))).
Proof.
  unfold sorted_pools. rewrite py_sorted_perm, index_pools_ids. apply index_pools_NoDup.
Qed.

Lemma sorted_pools_sorted d :
  sorted_by (on_key pool_id String.leb) (sorted_pools d).
Proof. apply (py_sorted_sorted _ always). by apply Forall_true. Qed.

(** The parsed pools come from one list of candidates. *)
Lemma pools_from_structure_indexed s :
  ∃ l, pools_from_structure s = sorted_pools (index_pools l) ∧ Forall good_pool l.
Proof.
  assert (∀ f (l : list pyval), (∀ e p, f e = Some p → good_pool p) → Forall good_pool (omap f l)) as Hf.
  { intros f l Hf. apply Forall_forall. intros p (e & _ & He)%list_elem_of_omap. eauto. }
  destruct s; simpl; try (by exists []). case_match.
  all: try (unfold pools_from_edges; case_match; [|by exists []]);
    eexists; (split; [done|]); apply Hf; eauto using pool_from_entry_good, pool_from_edge_good.
Qed.

(** ** Lemmas: the market's invariant *)

Definition contributed (m : market) (o : string) : list string :=
  default [] (contributions m !! o).

(** What every reachable market satisfies. *)
Record market_wf (m : market) : Prop := {
  (** every placement is in an existing pool the recorded owner belongs to *)
  wf_placed o pid : pid ∈ contributed m o →
    ∃ w, contribution_owner m !! o = Some w ∧ member_of m w pid = true;
  (** owners and placements are recorded together *)
  wf_owned o : is_Some (contribution_owner m !! o) ↔ contributed m o ≠ [];
  wf_placed_dom o : is_Some (contributions m !! o) ↔ contributed m o ≠ [];
  wf_placed_sorted o : sorted_by String.leb (contributed m o);
  wf_placed_NoDup o : NoDup (contributed m o);
  (** the allocation state is the award log *)
  wf_orders : committed_orders m = list_to_set (map award_order (awards m));
  wf_trucks : committed_trucks m = list_to_set (map award_truck (awards m));
  wf_orders_once : NoDup (map award_order (awards m));
  wf_trucks_once : NoDup (map award_truck (awards m));
}.

Lemma new_market_wf ps : market_wf (new_market ps).
Proof.
  split; unfold contributed; simpl; intros; try by constructor.
  - by apply elem_of_nil in H.
  - split; [by intros []|done].
  - split; [by intros []|done].
Qed.

Lemma sorted_strings_sorted X : sorted_by String.leb (sorted_strings X).
Proof. apply (py_sorted_sorted _ always). by apply Forall_true. Qed.

Lemma sorted_strings_nil X : sorted_strings X = [] ↔ X = ∅.
Proof.
  split.
  - intros H. apply set_eq. intros x. rewrite <-elem_of_sorted_strings, H. set_solver.
  - intros ->. done.
Qed.

(** The effect of an accepted [contribute] call. *)
Lemma contribute_spec m o w pids :
  let accepted := filter (λ pid, member_of m w pid = true) pids in
  let refused := contribution_owner m !! o ≠ None ∧ contribution_owner m !! o ≠ Some w in
  (contribute m o w pids = (m, 0) ∧ (refused ∨ accepted = [])) ∨
  (¬ refused ∧ accepted ≠ [] ∧
   contribute m o w pids =
     (Market (pools m)
        (<[o := sorted_strings (list_to_set (contributed m o ++ accepted))]> (contributions m))
        (<[o := w]> (contribution_owner m)) (committed_orders m) (committed_trucks m) (awards m),
      length accepted)).
Proof.
  simpl. unfold contribute. case_decide as Hr; [by left; auto|].
  fold (contributed m o). destruct (filter _ _) eqn:E; [by left; auto|]. right. naive_solver.
Qed.

Lemma contribute_wf m o w pids : market_wf m → market_wf (contribute m o w pids).1.
Proof.
  intros Hm. destruct (contribute_spec m o w pids) as [[-> _]|(Hown & Hacc & ->)]; [done|]. simpl.
  set (acc := filter _ pids) in *.
  assert (sorted_strings (list_to_set (contributed m o ++ acc)) ≠ []) as Hne.
  { rewrite sorted_strings_nil. destruct acc; [done|]. set_solver. }
  split; unfold contributed; simpl; try apply Hm; intros o'; destruct (decide (o = o')) as [<-|Hn];
    rewrite ?lookup_insert_eq, ?lookup_insert_ne by done; simpl; try apply Hm.
  - intros pid. rewrite elem_of_sorted_strings, elem_of_list_to_set, elem_of_app.
    intros [Hp|Hp].
    + destruct (wf_placed _ Hm _ _ Hp) as (w' & Hw' & Hmem).
      exists w. split; [done|]. destruct (decide (w' = w)) as [->|]; [done|].
      destruct Hown. rewrite Hw'. naive_solver.
    + exists w. split; [done|]. by apply list_elem_of_filter in Hp as [??].
  - naive_solver eauto.
  - naive_solver eauto.
  - apply sorted_strings_sorted.
  - apply NoDup_sorted_strings.
Qed.

Lemma commit_wf m a : market_wf m → market_wf (commit m a).1.
Proof.
  intros Hm. unfold commit. case_decide as Hc; [done|]. simpl.
  apply Decidable.not_or in Hc as [Ho Ht].
  split; simpl; try apply Hm.
  - rewrite map_app, list_to_set_app_L, (wf_orders _ Hm). simpl. set_solver.
  - rewrite map_app, list_to_set_app_L, (wf_trucks _ Hm). simpl. set_solver.
  - rewrite map_app. apply NoDup_app. split_and!; [apply Hm| |apply NoDup_singleton].
    intros x Hx Hx'%list_elem_of_singleton. simpl in Hx'. subst. apply Ho.
    by rewrite (wf_orders _ Hm), elem_of_list_to_set.
  - rewrite map_app. apply NoDup_app. split_and!; [apply Hm| |apply NoDup_singleton].
    intros x Hx Hx'%list_elem_of_singleton. simpl in Hx'. subst. apply Ht.
    by rewrite (wf_trucks _ Hm), elem_of_list_to_set.
Qed.

#[export] Hint Resolve new_market_wf contribute_wf commit_wf : openride.

(** The calls a planner makes on the market. *)
Inductive market_call :=
| Contribute (o w : string) (pids : list string)
| Commit (a : award).

Definition call (m : market) (c : market_call) : market :=
  match c with
  | Contribute o w pids => (contribute m o w pids).1
  | Commit a => (commit m a).1
  end.

Lemma calls_wf m cs : market_wf m → market_wf (foldl call m cs).
Proof. apply foldl_invariant. intros ? [] ??; simpl; auto with openride. Qed.

Lemma call_pools m c : pools (call m c) = pools m.
Proof. destruct c; simpl; unfold contribute, commit; by split_matches. Qed.

Lemma commit_spec m a :
  (commit m a).2 = is_order_free m (award_order a) && is_truck_free m (award_truck a) ∧
  awards (commit m a).1 = awards m ++ (if (commit m a).2 then [a] else []).
Proof.
  unfold commit, is_order_free, is_truck_free. case_decide as H; simpl.
  - rewrite app_nil_r. split; [|done]. symmetry. apply andb_false_iff.
    rewrite !bool_decide_eq_false. destruct H; [left|right]; tauto.
  - apply Decidable.not_or in H as [??]. by rewrite !bool_decide_eq_true_2.
Qed.

Lemma is_order_free_spec m o :
  market_wf m → is_order_free m o = true ↔ o ∉ map award_order (awards m).
Proof.
  intros Hm. unfold is_order_free. rewrite bool_decide_eq_true, (wf_orders _ Hm). set_solver.
Qed.

Lemma is_truck_free_spec m t :
  market_wf m → is_truck_free m t = true ↔ t ∉ map award_truck (awards m).
Proof.
  intros Hm. unfold is_truck_free. rewrite bool_decide_eq_true, (wf_trucks _ Hm). set_solver.
Qed.

(** ** Lemmas: visibility *)

Lemma visible_pooled_spec m h o :
  o ∈ visible_pooled_order_ids m h ↔
  contribution_owner m !! o ≠ Some h ∧ ∃ pid, pid ∈ contributed m o ∧ member_of m h pid = true.
Proof.
  unfold visible_pooled_order_ids, contributed. rewrite elem_of_dom. split.
  - intros [pids [Hl [Hw He]]%map_lookup_filter_Some]. simpl in *. rewrite Hl. simpl.
    split; [done|]. apply existsb_exists in He as (pid & Hin & ?).
    exists pid. split; [by apply list_elem_of_In|done].
  - intros (Hw & pid & Hin & Hmem).
    destruct (contributions m !! o) as [pids|] eqn:E; simpl in Hin; [|by apply elem_of_nil in Hin].
    exists pids. apply map_lookup_filter_Some. split; [done|]. simpl. split; [done|].
    apply existsb_exists. exists pid. split; [by apply list_elem_of_In|done].
Qed.

Lemma eligible_carriers_spec m o w h :
  h ∈ eligible_carriers m o w ↔
  h = w ∨ ∃ pid, pid ∈ contributed m o ∧ member_of m h pid = true.
Proof.
  unfold eligible_carriers. fold (contributed m o).
  assert (∀ l (X : gset string),
    h ∈ foldl (λ carriers pid, match pools m !! pid with
                               | Some p => carriers ∪ members p | None => carriers end) X l ↔
    h ∈ X ∨ ∃ pid, pid ∈ l ∧ member_of m h pid = true) as H.
  { induction l as [|pid l IH]; intros X; simpl; [set_solver|]. rewrite IH.
    setoid_rewrite elem_of_cons. unfold member_of at 2.
    assert (∀ P : string → Prop, (∃ q, (q = pid ∨ q ∈ l) ∧ P q) ↔ P pid ∨ ∃ q, q ∈ l ∧ P q) as ->
      by naive_solver.
    destruct (pools m !! pid); rewrite ?elem_of_union, ?bool_decide_eq_true; naive_solver. }
  rewrite H. set_solver.
Qed.

Lemma pool_of_order_spec m o h :
  match pool_of_order m o h with
  | Some pid =>
      pid ∈ contributed m o ∧ member_of m h pid = true ∧
      ∀ q, q ∈ contributed m o → member_of m h q = true → String.leb pid q = true
  | None => ∀ q, q ∈ contributed m o → member_of m h q = false
  end.
Proof.
  unfold pool_of_order. fold (contributed m o).
  set (l := filter _ _). assert (∀ q, q ∈ py_sorted String.leb l ↔ q ∈ contributed m o ∧
    member_of m h q = true) as Hl.
  { intros q. rewrite elem_of_py_sorted. unfold l. rewrite list_elem_of_filter. naive_solver. }
  assert (sorted_by String.leb (py_sorted String.leb l)) as Hs
    by (apply (py_sorted_sorted _ always); by apply Forall_true).
  destruct (py_sorted String.leb l) as [|pid l'] eqn:E; simpl.
  - intros q Hq. destruct (member_of m h q) eqn:Hm; [|done].
    assert (q ∈ []) as []%elem_of_nil by (apply Hl; auto).
  - destruct (proj1 (Hl pid)) as [??]; [left|]. split_and!; [done..|].
    intros q Hq Hm. apply StronglySorted_inv in Hs as [_ Hs]. rewrite Forall_forall in Hs.
    assert (q ∈ pid :: l') as [->|?]%elem_of_cons by (apply Hl; auto); [|by apply Hs].
    by destruct (total_on (P := always) (leb := String.leb) pid pid I I).
Qed.

(** Later calls never retract a placement and never change a recorded owner. *)
Definition extends (m m' : market) : Prop :=
  (∀ o w, contribution_owner m !! o = Some w → contribution_owner m' !! o = Some w) ∧
  (∀ o pid, pid ∈ contributed m o → pid ∈ contributed m' o) ∧
  awards m `prefix_of` awards m'.

#[export] Instance extends_preorder : PreOrder extends.
Proof.
  split.
  - intros m. repeat split; eauto.
  - intros m1 m2 m3 (H1 & H2 & H3) (H4 & H5 & H6). split_and!; [eauto..|]. by etrans.
Qed.

Lemma call_extends m c : extends m (call m c).
Proof.
  destruct c as [o w pids|a]; simpl.
  - destruct (contribute_spec m o w pids) as [[-> _]|(Hown & _ & ->)]; [done|]. simpl.
    split_and!; simpl; [| |done].
    + intros o' w' Hw'. destruct (decide (o = o')) as [<-|Hn]; simplify_map_eq; [|done].
      f_equal. apply dec_stable. intros Hn. apply Hown. naive_solver.
    + intros o' pid. unfold contributed at 2; simpl.
      destruct (decide (o = o')) as [<-|Hn]; simplify_map_eq; [|done].
      rewrite elem_of_sorted_strings. set_solver.
  - unfold commit. case_decide; [done|]. repeat split; simpl; eauto. by exists [a].
Qed.

Lemma calls_extend m cs : extends m (foldl call m cs).
Proof.
  apply (foldl_invariant call (extends m)); [|done].
  intros m' c _ H. by rewrite H, <-call_extends.
Qed.

(** ** Properties *)

(** no order and no truck is committed twice in a tick.  Whatever calls a
    planner makes on a new market, the award log names each order and each truck
    at most once, [commit] accepts an award exactly when neither its order nor its
    truck is in the log, an accepted award is appended and a refused one changes
    nothing, and committing the same award again is refused. *)
Theorem market_commits_once ps cs a :
  let m := foldl call (new_market ps) cs in
  NoDup (map award_order (awards m)) ∧ NoDup (map award_truck (awards m)) ∧
  ((commit m a).2 = true ↔
     award_order a ∉ map award_order (awards m) ∧ award_truck a ∉ map award_truck (awards m)) ∧
  ((commit m a).2 = false → (commit m a).1 = m) ∧
  awards (commit m a).1 = awards m ++ (if (commit m a).2 then [a] else []) ∧
  (commit (commit m a).1 a).2 = false.
Proof.
  intros m. assert (market_wf m) as Hm by (apply calls_wf; auto with openride).
  destruct (commit_spec m a) as [Hc Ha]. split_and!; try apply Hm; [| |done|].
  - by rewrite Hc, andb_true_iff, is_order_free_spec, is_truck_free_spec.
  - unfold commit. by case_decide.
  - rewrite (proj1 (commit_spec _ _)). apply andb_false_iff.
    unfold is_order_free, is_truck_free, commit. case_decide as Hd; simpl.
    + rewrite !bool_decide_eq_false. tauto.
    + left. apply bool_decide_eq_false. set_solver.
Qed.

(** contributions are valid and final.  After any calls on a new market,
    every placement of an order is in an existing pool that the recorded owner is
    a member of; later calls never change a recorded owner, never withdraw a
    placement, and a call that names another owner is refused without effect. *)
Theorem market_contributions_valid ps cs cs' o pid :
  let m := foldl call (new_market ps) cs in
  let m' := foldl call m cs' in
  pid ∈ contributed m o →
  ∃ w p, contribution_owner m !! o = Some w ∧ pools m !! pid = Some p ∧ w ∈ members p ∧
    contribution_owner m' !! o = Some w ∧ pid ∈ contributed m' o ∧
    ∀ w' pids, w' ≠ w → contribute m' o w' pids = (m', 0).
Proof.
  intros m m' Hp. assert (market_wf m) as Hm by (apply calls_wf; auto with openride).
  destruct (wf_placed _ Hm _ _ Hp) as (w & Hw & Hmem). unfold member_of in Hmem.
  destruct (pools m !! pid) as [p|] eqn:E; [|done]. apply bool_decide_eq_true in Hmem.
  destruct (calls_extend m cs') as (Ho & Hc & _). fold m' in Ho, Hc.
  exists w, p. split_and!; [done..|auto|auto|].
  intros w' pids Hne. unfold contribute. apply Ho in Hw. rewrite decide_True; [done|].
  rewrite Hw. naive_solver.
Qed.

Lemma market_contributions_valid_witness :
  ∃ w p,
    contribution_owner (foldl call (new_market [Pool "p:a+b" {["a"; "b"]}])
                          [Contribute "o" "a" ["p:a+b"]]) !! "o" = Some w ∧ w ∈ members p.
Proof.
  destruct (market_contributions_valid [Pool "p:a+b" {["a"; "b"]}]
              [Contribute "o" "a" ["p:a+b"]] [] "o" "p:a+b") as (w & p & Hw & _ & Hp & _).
  - vm_compute. left.
  - exists w, p. split; [exact Hw|exact Hp].
Defined.

(** the views of a market agree.  In any market a planner reaches, a company
    may carry a contributed order exactly when it owns it or sees it as a pooled
    order; a company that sees an order is told the lowest pool id through which it
    sees it, and a company that neither owns nor sees it is told none. *)
Theorem market_views_agree ps cs o w h :
  let m := foldl call (new_market ps) cs in
  contribution_owner m !! o = Some w →
  (h ∈ eligible_carriers m o w ↔ h = w ∨ o ∈ visible_pooled_order_ids m h) ∧
  (h ≠ w → (o ∈ visible_pooled_order_ids m h ↔ is_Some (pool_of_order m o h))) ∧
  (∀ pid, pool_of_order m o h = Some pid →
     ∃ p, pools m !! pid = Some p ∧ h ∈ members p ∧ pid ∈ contributed m o ∧
     ∀ q, q ∈ contributed m o → member_of m h q = true → String.leb pid q = true).
Proof.
  intros m Hw.
  pose proof (pool_of_order_spec m o h) as Hpo. split_and!.
  - rewrite eligible_carriers_spec, visible_pooled_spec, Hw.
    destruct (decide (h = w)); naive_solver.
  - intros Hne. rewrite visible_pooled_spec, Hw. destruct (pool_of_order m o h) as [pid|].
    + split; [eauto|]. intros _. split; [naive_solver|]. exists pid. tauto.
    + split; [|by intros []]. intros (_ & q & Hq & Hm). by rewrite Hpo in Hm.
  - intros pid Heq. rewrite Heq in Hpo. destruct Hpo as (Hin & Hm & Hmin).
    unfold member_of in Hm. destruct (pools m !! pid) as [p|] eqn:E; [|done].
    apply bool_decide_eq_true in Hm. exists p. split_and!; try done.
Qed.

Lemma market_views_agree_witness :
  "b" ∈ eligible_carriers (foldl call (new_market [Pool "p:a+b" {["a"; "b"]}])
                             [Contribute "o" "a" ["p:a+b"]]) "o" "a" ↔
  "b" = "a" ∨ "o" ∈ visible_pooled_order_ids
    (foldl call (new_market [Pool "p:a+b" {["a"; "b"]}]) [Contribute "o" "a" ["p:a+b"]]) "b".
Proof.
  apply (market_views_agree [Pool "p:a+b" {["a"; "b"]}] [Contribute "o" "a" ["p:a+b"]] "o" "a" "b").
  vm_compute. reflexivity.
Defined.

(** parsing a structure yields a sorted table of real pools.  The parsed pools
    have increasing, distinct, non-empty ids and at least two non-empty members
    each; a [pools] list is authoritative, the last valid entry of an id standing
    for it, and without one every usable edge yields the pool of its two ends. *)
Theorem pools_from_structure_spec s :
  let ps := pools_from_structure s in
  sorted_by (on_key pool_id String.leb) ps ∧ NoDup (map pool_id ps) ∧ Forall good_pool ps ∧
  ∀ d, s = PDict d →
    (∀ l, get d "pools" = PList l → ∀ p, p ∈ ps ↔
       last (filter (λ q, pool_id q = pool_id p) (omap pool_from_entry l)) = Some p) ∧
    (∀ l, get d "pools" = PNone → get d "edges" = PList l → ∀ p, p ∈ ps ↔
       last (filter (λ q, pool_id q = pool_id p) (omap pool_from_edge l)) = Some p).
Proof.
  intros ps. destruct (pools_from_structure_indexed s) as (l & Hl & Hgood).
  unfold ps. split_and!.
  - rewrite Hl. apply sorted_pools_sorted.
  - rewrite Hl. apply sorted_pools_NoDup.
  - apply Forall_forall. intros p Hp. rewrite Hl, elem_of_sorted_pools in Hp.
    apply last_Some_elem_of, list_elem_of_filter in Hp as [_ Hp].
    rewrite Forall_forall in Hgood. auto.
  - intros d ->. simpl. split.
    + intros l' ->. apply elem_of_sorted_pools.
    + intros l' -> Hedges. unfold pools_from_edges. rewrite Hedges. apply elem_of_sorted_pools.
Qed.
