(* ===== verification/Arbitration.v ===== *)
(** Arbitration: who wins when several companies bid for one pooled order
    ([assignment/arbitration.py]).  The four rules rank the bids and sweep them;
    [ArbitrationLaws] is what the planner may rely on, and every rule meets it. *)

From S2P Require Import Prelude PyValue Tiebreak Pools.

(** ** Ranking *)

Section Arbitration.
Context `{Blake2b, Rng}.

Definition bid_tiebreak (tick_seed : Z) (b : bid) : Z :=
  stable_tiebreak tick_seed [bid_order b; bid_haulier b; bid_truck b].

(** [_identity_key] *)
Definition identity_key (b : bid) : string * (string * string) :=
  (bid_order b, (bid_truck b, bid_haulier b)).

(** [_cost_rank] *)
Definition cost_rank (b : bid) : Z * float64 :=
  if isfinite (bid_cost b) then (0%Z, bid_cost b) else (1%Z, f_zero).

(** The keys of all rules: a class, a rank, a cost, the tie-break, the identity.
A rule without a leading class uses class 0; a rank that Python holds as an
int (0 or 1) is the float of that value, which compares alike. *)
Definition rank_key : Type := (Z * (float64 * (float64 * (Z * (string * (string * string)))))).

Definition identity_leb : string * (string * string) → string * (string * string) → bool :=
  pair_leb String.leb (pair_leb String.leb String.leb).

Definition rank_leb : rank_key → rank_key → bool :=
  pair_leb Z.leb (pair_leb f_leb (pair_leb f_leb (pair_leb Z.leb identity_leb))).

Definition cost_key (cls : Z) (seed : Z) (b : bid) : rank_key :=
  (cls, (f_of_Z (cost_rank b).1, ((cost_rank b).2, (bid_tiebreak seed b, identity_key b)))).

(** [LowestCostRule]: the key. *)
Definition lowest_cost_key (seed : Z) (b : bid) : rank_key := cost_key 0 seed b.

(** [OwnerFirstRule]: the key. *)
Definition owner_first_key (owner_of : string → option string) (seed : Z) (b : bid) : rank_key :=
  cost_key (if decide (Some (bid_haulier b) = owner_of (bid_order b)) then 0 else 1) seed b.

(** [HighestBenefitRule]: the owners' own best bids. *)
Definition reserve_step (owner_of : string → option string) (reserve : gmap string float64) (b : bid) :
  gmap string float64 :=
  if decide (Some (bid_haulier b) = owner_of (bid_order b)) then
  if isfinite (bid_cost b) then
  match reserve !! bid_order b with
  | None => <[bid_order b := bid_cost b]> reserve
  | Some current =>
      if f_ltb (bid_cost b) current then <[bid_order b := bid_cost b]> reserve else reserve
  end
  else reserve
  else reserve.

Definition reserves (owner_of : string → option string) (bids : list bid) : gmap string float64 :=
  foldl (reserve_step owner_of) ∅ bids.

Definition benefit (reserve : gmap string float64) (b : bid) : option float64 :=
  own_reserve ← reserve !! bid_order b;
  if isfinite (bid_cost b) then
  let candidate := f_sub own_reserve (bid_cost b) in
  if isfinite candidate then Some candidate else None
  else None.

Definition highest_benefit_key (reserve : gmap string float64) (seed : Z) (b : bid) : rank_key :=
  match benefit reserve b with
  | None => cost_key 1 seed b
  | Some g => (0%Z, (f_opp g, (f_zero, (bid_tiebreak seed b, identity_key b))))
  end.

(** [RandomAwardRule]: the canonical order that is shuffled. *)
Definition canonical_leb (seed : Z) : bid → bid → bool :=
  on_key (λ b, (bid_tiebreak seed b, identity_key b)) (pair_leb Z.leb identity_leb).

(** ** The sweep *)

Definition award_of (owner_of : string → option string) (b : bid) : award :=
  Award (bid_order b) (bid_truck b) (bid_haulier b) (owner_of (bid_order b))
  (bid_cost b) (bid_pool b) (bid_round b).

(** [_sweep], from the sets of taken orders and trucks on. *)
Fixpoint sweep_from (m : market) (owner_of : string → option string)
  (taken_orders taken_trucks : gset string) (ranked : list bid) : list award :=
  match ranked with
  | [] => []
  | b :: rest =>
      if decide (bid_order b ∈ taken_orders ∨ bid_truck b ∈ taken_trucks) then
      sweep_from m owner_of taken_orders taken_trucks rest
      else if negb (is_order_free m (bid_order b)) || negb (is_truck_free m (bid_truck b)) then
      sweep_from m owner_of taken_orders taken_trucks rest
      else
      award_of owner_of b ::
      sweep_from m owner_of ({[bid_order b]} ∪ taken_orders) ({[bid_truck b]} ∪ taken_trucks) rest
  end.

Definition sweep (m : market) (owner_of : string → option string) (ranked : list bid) : list award :=
  sweep_from m owner_of ∅ ∅ ranked.

(** ** The rules *)

Inductive arbitration_rule := LowestCost | OwnerFirst | HighestBenefit | RandomAward.

(** [resolve]: the awards, and the generator as the call leaves it. *)
Definition resolve (rule : arbitration_rule) (bids : list bid) (m : market) (tick_seed : Z)
  (owner_of : string → option string) (r : rng) : list award * rng :=
  match rule with
  | LowestCost =>
      (sweep m owner_of (py_sorted (on_key (lowest_cost_key tick_seed) rank_leb) bids), r)
  | OwnerFirst =>
      (sweep m owner_of (py_sorted (on_key (owner_first_key owner_of tick_seed) rank_leb) bids), r)
  | HighestBenefit =>
      let reserve := reserves owner_of bids in
      (sweep m owner_of (py_sorted (on_key (highest_benefit_key reserve tick_seed) rank_leb) bids), r)
  | RandomAward =>
      let canonical := py_sorted (canonical_leb tick_seed) bids in
      let '(shuffled, r') := shuffle r canonical in
      (sweep m owner_of shuffled, r')
  end.

Definition ARBITRATION_REGISTRY : list (string * arbitration_rule) :=
  [("LowestCost", LowestCost); ("OwnerFirst", OwnerFirst);
   ("HighestBenefit", HighestBenefit); ("RandomAward", RandomAward)].

Definition DEFAULT_ARBITRATION_RULE : string := "LowestCost".

Definition get_arbitration_rule (name : option string) : arbitration_rule :=
  let key := match name with
   | Some n => if decide (n = "") then DEFAULT_ARBITRATION_RULE else n
   | None => DEFAULT_ARBITRATION_RULE
   end in
  default LowestCost (d_get ARBITRATION_REGISTRY key).

(** ** What a rule promises *)

(** The awards are conflict-free, respect the market, and answer bids. *)
Record valid_awards (m : market) (owner_of : string → option string)
  (bids : list bid) (aw : list award) : Prop := {
  va_orders : NoDup (map award_order aw);
  va_trucks : NoDup (map award_truck aw);
  va_free a : a ∈ aw → is_order_free m (award_order a) = true ∧ is_truck_free m (award_truck a) = true;
  va_bid a : a ∈ aw → ∃ b, b ∈ bids ∧ a = award_of owner_of b;
  (** and no free bid is left over *)
  va_maximal b : b ∈ bids →
  is_order_free m (bid_order b) = true → is_truck_free m (bid_truck b) = true →
  bid_order b ∈ map award_order aw ∨ bid_truck b ∈ map award_truck aw;
}.

(** Bids that share order, truck and bidder are the same bid. *)
Definition distinct_bids (bids : list bid) : Prop :=
  ∀ b b', b ∈ bids → b' ∈ bids → bid_order b = bid_order b' → bid_truck b = bid_truck b' →
  bid_haulier b = bid_haulier b' → b = b'.
End Arbitration.

(** The interface of an arbitration rule, for any implementation of [resolve]. *)
Class ArbitrationLaws `{Rng}
  (res : list bid → market → Z → (string → option string) → rng → list award * rng) : Prop := {
  resolve_valid bids m seed owner_of r : valid_awards m owner_of bids (res bids m seed owner_of r).1;
  resolve_order_independent bids bids' m seed owner_of r :
    distinct_bids bids → bids ≡ₚ bids' → res bids m seed owner_of r = res bids' m seed owner_of r;
}.

(** ** Lemmas: the sweep *)

Section SweepLemmas.
Context (m : market) (owner_of : string → option string).

Definition bid_free (b : bid) : bool :=
  is_order_free m (bid_order b) && is_truck_free m (bid_truck b).

(** The sweep is a greedy selection on orders and trucks. *)
Lemma sweep_from_gsweep ranked TO TT :
  sweep_from m owner_of TO TT ranked =
  map (award_of owner_of) (gsweep bid_order bid_truck bid_free TO TT ranked).
Proof.
  revert TO TT. induction ranked as [|b ranked IH]; intros TO TT; simpl; [done|].
  case_decide; [done|]. unfold bid_free at 1.
  destruct (is_order_free m (bid_order b)); simpl; [|done].
  destruct (is_truck_free m (bid_truck b)); simpl; [|done]. by rewrite IH.
Qed.

Lemma sweep_valid bids ranked :
  ranked ≡ₚ bids → valid_awards m owner_of bids (sweep m owner_of ranked).
Proof.
  intros Hp. unfold sweep. rewrite sweep_from_gsweep.
  set (won := gsweep bid_order bid_truck bid_free ∅ ∅ ranked).
  destruct (gsweep_NoDup bid_order bid_truck bid_free ∅ ∅ ranked) as [H1 H2]. fold won in H1, H2.
  split.
  - by rewrite map_map.
  - by rewrite map_map.
  - intros a (b & -> & Hb)%list_elem_of_fmap. simpl.
  apply gsweep_avoids in Hb as (_ & _ & Hf). by apply andb_true_iff in Hf.
  - intros a (b & -> & Hb)%list_elem_of_fmap. exists b. split; [|done].
  rewrite <-Hp. by eapply elem_of_sublist, gsweep_sublist.
  - intros b Hin Ho Ht. rewrite <-Hp in Hin. apply list_elem_of_split in Hin as (l1 & l2 & Heq).
  destruct (gsweep_maximal bid_order bid_truck bid_free ∅ ∅ l1 b l2) as (a & _ & Ha & E).
  + unfold bid_free. by rewrite Ho, Ht.
  + set_solver.
  + set_solver.
  + rewrite !map_map. rewrite <-Heq in Ha. fold won in Ha.
  destruct E as [E|E]; [left|right]; rewrite <-E; apply list_elem_of_fmap; by exists a.
Qed.

(** A free bid is beaten only by a bid ranked at least as well. *)
Lemma sweep_stable leb bids b :
  TotalOn always leb → b ∈ bids →
  is_order_free m (bid_order b) = true → is_truck_free m (bid_truck b) = true →
  ∃ b', b' ∈ bids ∧ award_of owner_of b' ∈ sweep m owner_of (py_sorted leb bids) ∧
  leb b' b = true ∧ (bid_order b' = bid_order b ∨ bid_truck b' = bid_truck b).
Proof.
  intros Htot Hin Ho Ht.
  destruct (gsweep_stable bid_order bid_truck bid_free leb always bids b) as (a & Ha & Hsw & Hl & E);
  [done|by apply Forall_true|done|unfold bid_free; by rewrite Ho, Ht|].
  exists a. split_and!; [done| |done|done]. unfold sweep. rewrite sweep_from_gsweep.
  apply list_elem_of_fmap. by exists a.
Qed.
End SweepLemmas.

(** ** Lemmas: the rank keys are total orders *)

Section KeyLemmas.
Context `{Blake2b, Rng}.

(** Keys whose floats are numbers. *)
Definition rank_ok : rank_key → Prop :=
  both always (both not_nan (both not_nan (both always (both always (both always always))))).

#[local] Instance rank_leb_total : TotalOn rank_ok rank_leb.
Proof. apply _. Qed.

Lemma rank_leb_identity k k' :
  rank_leb k k' = true → rank_leb k' k = true → k.2.2.2.2 = k'.2.2.2.2.
Proof.
  intros H1 H2. destruct (pair_leb_both _ _ _ _ H1 H2) as [_ [H3 H4]].
  destruct (pair_leb_both _ _ _ _ H3 H4) as [_ [H5 H6]].
  destruct (pair_leb_both _ _ _ _ H5 H6) as [_ [H7 H8]].
  destruct (pair_leb_both _ _ _ _ H7 H8) as [_ [H9 H10]].
  assert (AntiOn (both always (both always always)) identity_leb) as Ha by apply _.
  by apply Ha.
Qed.

Lemma cost_key_ok cls seed b : rank_ok (cost_key cls seed b).
Proof.
  repeat split; unfold cost_key, cost_rank; simpl; destruct (isfinite (bid_cost b)) eqn:E;
  simpl; auto with openride; done.
Qed.

Lemma f_opp_not_nan x : not_nan x → not_nan (f_opp x).
Proof. by destruct x. Qed.

Lemma benefit_finite reserve b g : benefit reserve b = Some g → isfinite g = true.
Proof. unfold benefit. intros E. simplify_option_eq. by split_matches. Qed.

Lemma highest_benefit_key_ok reserve seed b : rank_ok (highest_benefit_key reserve seed b).
Proof.
  unfold highest_benefit_key. destruct (benefit reserve b) as [g|] eqn:E; [|apply cost_key_ok].
  repeat split; simpl. apply f_opp_not_nan, isfinite_not_nan. by eapply benefit_finite.
Qed.

Lemma on_rank_total key : (∀ b : bid, rank_ok (key b)) → TotalOn always (on_key key rank_leb).
Proof. intros Hk. apply (on_key_total rank_ok); [apply rank_leb_total|done]. Qed.

#[export] Instance lowest_cost_total seed : TotalOn always (on_key (lowest_cost_key seed) rank_leb).
Proof. apply on_rank_total. intros b. apply cost_key_ok. Qed.
#[export] Instance owner_first_total owner_of seed :
  TotalOn always (on_key (owner_first_key owner_of seed) rank_leb).
Proof. apply on_rank_total. intros b. apply cost_key_ok. Qed.
#[export] Instance highest_benefit_total reserve seed :
  TotalOn always (on_key (highest_benefit_key reserve seed) rank_leb).
Proof. apply on_rank_total. intros b. apply highest_benefit_key_ok. Qed.
#[export] Instance canonical_total seed : TotalOn always (canonical_leb seed).
Proof.
  apply (on_key_total (both always (both always (both always always)))); [apply _|].
  by repeat split.
Qed.

(** The key ends with the identity, so ties are between equal bids. *)
Lemma highest_benefit_key_identity reserve seed b :
  (highest_benefit_key reserve seed b).2.2.2.2 = identity_key b.
Proof. unfold highest_benefit_key. by destruct (benefit reserve b). Qed.

Lemma sort_order_independent key bids bids' :
  (∀ b, rank_ok (key b)) → (∀ b, (key b).2.2.2.2 = identity_key b) →
  distinct_bids bids → bids ≡ₚ bids' →
  py_sorted (on_key key rank_leb) bids = py_sorted (on_key key rank_leb) bids'.
Proof.
  intros Hok Hid Hd Hp. assert (TotalOn always (on_key key rank_leb)) by by apply on_rank_total.
  apply (py_sorted_unique _ always); [by apply Forall_true| |done].
  intros b b' Hb Hb' L1 L2. assert (identity_key b = identity_key b') as [= E1 E2 E3].
  { rewrite <-!Hid. by apply rank_leb_identity. }
  by apply Hd.
Qed.

Lemma canonical_order_independent seed bids bids' :
  distinct_bids bids → bids ≡ₚ bids' →
  py_sorted (canonical_leb seed) bids = py_sorted (canonical_leb seed) bids'.
Proof.
  intros Hd Hp. apply (py_sorted_unique _ always); [by apply Forall_true| |done].
  intros b b' Hb Hb' H1 H2. destruct (pair_leb_both _ _ _ _ H1 H2) as [_ [H3 H4]]. simpl in *.
  assert (AntiOn (both always (both always always)) identity_leb) as Ha by apply _.
  assert (identity_key b = identity_key b') as [= E1 E2 E3] by by apply Ha.
  by apply Hd.
Qed.

(** ** Lemmas: the reserves do not depend on the order of the bids *)

(** The finite costs an order's owner bid for it. *)
Definition owner_costs (owner_of : string → option string) (bids : list bid) (o : string) :
  list float64 :=
  map bid_cost (filter (λ b, bid_order b = o ∧ Some (bid_haulier b) = owner_of (bid_order b) ∧
                   isfinite (bid_cost b) = true) bids).

Lemma owner_costs_finite owner_of bids o c : c ∈ owner_costs owner_of bids o → isfinite c = true.
Proof. intros (b & -> & (_ & _ & ?)%list_elem_of_filter%proj1)%list_elem_of_fmap. done. Qed.

Lemma reserves_spec owner_of bids o :
  match reserves owner_of bids !! o with
  | Some r => r ∈ owner_costs owner_of bids o ∧
  ∀ c, c ∈ owner_costs owner_of bids o → f_leb r c = true
  | None => owner_costs owner_of bids o = []
  end.
Proof.
  unfold reserves. induction bids as [|b bids IH] using rev_ind.
  { cbn [foldl]. by rewrite lookup_empty. }
  rewrite foldl_app; simpl. set (R := foldl _ ∅ bids) in *.
  unfold owner_costs in *. rewrite filter_app, map_app.
  unfold reserve_step. destruct (decide (Some (bid_haulier b) = owner_of (bid_order b))) as [Ho|Ho].
  2:{ rewrite filter_cons_False by tauto. by rewrite app_nil_r. }
  destruct (isfinite (bid_cost b)) eqn:Hf.
  2:{ rewrite filter_cons_False by (rewrite Hf; naive_solver). by rewrite app_nil_r. }
  destruct (decide (bid_order b = o)) as [<-|Hne].
  2:{ rewrite filter_cons_False by tauto. rewrite app_nil_r.
  destruct (R !! bid_order b) as [c|]; [destruct (f_ltb _ _); [|done]|]; by rewrite lookup_insert_ne. }
  rewrite filter_cons_True by (split_and!; done). cbn [filter list_filter map].
  destruct (R !! bid_order b) as [r|] eqn:HR.
  - destruct IH as [Hin Hmin]. assert (not_nan r) as Hr.
  { apply isfinite_not_nan. by apply (owner_costs_finite owner_of bids (bid_order b)). }
  apply isfinite_not_nan in Hf. destruct (f_ltb (bid_cost b) r) eqn:Hlt.
  + rewrite lookup_insert_eq. split; [set_solver|]. intros c [Hc|Hc]%elem_of_app.
  * assert (not_nan c) by by eapply isfinite_not_nan, owner_costs_finite.
  apply (trans_on (bid_cost b) r c); auto. by apply f_ltb_leb.
  * apply list_elem_of_singleton in Hc as ->. by destruct (total_on _ _ Hf Hf).
  + rewrite HR. split; [set_solver|]. intros c [Hc|Hc]%elem_of_app; [auto|].
  apply list_elem_of_singleton in Hc as ->. by apply f_ltb_false.
  - rewrite lookup_insert_eq. split; [set_solver|]. rewrite IH. simpl.
  intros c ->%list_elem_of_singleton. apply isfinite_not_nan in Hf.
  by destruct (total_on _ _ Hf Hf).
Qed.

Lemma owner_costs_perm owner_of bids bids' o :
  bids ≡ₚ bids' → owner_costs owner_of bids o ≡ₚ owner_costs owner_of bids' o.
Proof. intros Hp. unfold owner_costs. by rewrite Hp. Qed.

(** Reserves of permuted bids compare alike (they may differ in the sign of a
zero). *)
Lemma reserves_perm owner_of bids bids' o :
  bids ≡ₚ bids' →
  match reserves owner_of bids !! o, reserves owner_of bids' !! o with
  | Some r, Some r' => isfinite r = true ∧ isfinite r' = true ∧ f_key r = f_key r'
  | None, None => True
  | _, _ => False
  end.
Proof.
  intros Hp. pose proof (reserves_spec owner_of bids o) as H1.
  pose proof (reserves_spec owner_of bids' o) as H2.
  apply (owner_costs_perm owner_of _ _ o) in Hp.
  destruct (reserves owner_of bids !! o) as [r|], (reserves owner_of bids' !! o) as [r'|]; [| | |done].
  - destruct H1 as [Hin1 Hmin1], H2 as [Hin2 Hmin2].
  pose proof (owner_costs_finite _ _ _ _ Hin1) as Hf1.
  pose proof (owner_costs_finite _ _ _ _ Hin2) as Hf2.
  split_and!; [done..|]. apply f_leb_anti; auto with openride.
  + apply Hmin1. by rewrite Hp.
  + apply Hmin2. by rewrite <-Hp.
  - rewrite H2 in Hp. apply Permutation_nil_r in Hp. rewrite Hp in H1. destruct H1. set_solver.
  - rewrite H1 in Hp. symmetry in Hp. apply Permutation_nil_r in Hp. rewrite Hp in H2.
  destruct H2. set_solver.
Qed.

Lemma f_sub_key r r' c :
  isfinite r = true → isfinite r' = true → isfinite c = true → f_key r = f_key r' →
  isfinite (f_sub r c) = isfinite (f_sub r' c) ∧
  f_key (f_opp (f_sub r c)) = f_key (f_opp (f_sub r' c)).
Proof.
  intros Hr Hr' Hc Hk. destruct (f_key_inj r r') as [->|(s & s' & -> & ->)]; auto with openride.
  by destruct s, s', c as [[]| | |[]].
Qed.

(** Keys that compare alike. *)
Definition rank_equiv (k k' : rank_key) : Prop :=
  k.1 = k'.1 ∧ f_key k.2.1 = f_key k'.2.1 ∧ k.2.2 = k'.2.2.

Lemma rank_leb_equiv k1 k1' k2 k2' :
  rank_ok k1 → rank_ok k1' → rank_ok k2 → rank_ok k2' →
  rank_equiv k1 k1' → rank_equiv k2 k2' → rank_leb k1 k2 = rank_leb k1' k2'.
Proof.
  intros (_ & O1 & _) (_ & O2 & _) (_ & O3 & _) (_ & O4 & _) (E1 & E2 & E3) (E4 & E5 & E6).
  apply pair_leb_ext; [by rewrite E1, E4..|].
  apply pair_leb_ext; [rewrite !f_leb_key by done; unfold on_key; by rewrite E2, E5..|].
  by rewrite E3, E6.
Qed.

Lemma highest_benefit_key_perm owner_of bids bids' seed b :
  bids ≡ₚ bids' →
  rank_equiv (highest_benefit_key (reserves owner_of bids) seed b)
   (highest_benefit_key (reserves owner_of bids') seed b).
Proof.
  intros Hp. pose proof (reserves_perm owner_of _ _ (bid_order b) Hp) as Hr.
  unfold highest_benefit_key, benefit.
  destruct (reserves owner_of bids !! bid_order b) as [r|],
  (reserves owner_of bids' !! bid_order b) as [r'|]; [| |done|done]; [|done]. simpl.
  destruct (isfinite (bid_cost b)) eqn:Hc; [|done]. destruct Hr as (Hr & Hr' & Hk).
  destruct (f_sub_key r r' (bid_cost b)) as [-> Hs]; auto.
  by destruct (isfinite (f_sub _ _)); repeat split; cbn [fst snd].
Qed.

(** Every rule of the registry meets the interface. *)
#[export] Instance resolve_laws rule : ArbitrationLaws (resolve rule).
Proof.
  split.
  - intros bids m seed owner_of r. destruct rule; simpl; try (apply sweep_valid, py_sorted_perm).
  pose proof (shuffle_perm r (py_sorted (canonical_leb seed) bids)) as Hs.
  destruct (shuffle r _) as [l r'] eqn:E. simpl in *. apply sweep_valid.
  by rewrite Hs, py_sorted_perm.
  - intros bids bids' m seed owner_of r Hd Hp. destruct rule; unfold resolve.
  + do 2 f_equal. apply sort_order_independent; auto. intros; apply cost_key_ok.
  + do 2 f_equal. apply sort_order_independent; auto. intros; apply cost_key_ok.
  + do 2 f_equal. etrans.
  * apply sort_order_independent; eauto using highest_benefit_key_ok, highest_benefit_key_identity.
  * apply py_sorted_ext. intros x y _ _. unfold on_key.
  apply rank_leb_equiv; auto using highest_benefit_key_ok, highest_benefit_key_perm.
  + by rewrite (canonical_order_independent seed bids bids').
Qed.
End KeyLemmas.

(** ** Properties *)

Section Properties.
Context `{Blake2b, Rng}.


(** the awards of a rule are conflict-free and complete.  They name each order
and truck at most once, only orders and trucks still free in the market, and
only bids; every free bid left out shares its order or truck with an award;
and the market accepts all of them, in order. *)
Theorem arbitration_conflict_free rule bids m seed owner_of r :
  let aw := (resolve rule bids m seed owner_of r).1 in
  valid_awards m owner_of bids aw ∧
  awards (foldl (λ m a, (commit m a).1) m aw) = awards m ++ aw.
Proof.
  intros aw. assert (valid_awards m owner_of bids aw) as Hv by apply resolve_valid.
  split; [done|]. destruct Hv as [Ho Ht Hfree _ _]. clearbody aw. revert m Hfree.
  induction aw as [|a aw IH]; intros m Hfree; simpl; [by rewrite app_nil_r|].
  simpl in Ho, Ht. apply NoDup_cons in Ho as [Hao Ho]. apply NoDup_cons in Ht as [Hat Ht].
  destruct (commit_spec m a) as [Hc Haw].
  destruct (Hfree a) as [Hfo Hft]; [left|]. rewrite Hfo, Hft in Hc. rewrite Hc in Haw.
  rewrite IH, Haw, <-app_assoc; [done..|].
  intros a' Ha'. destruct (Hfree a') as [Hfo' Hft']; [by right|].
  unfold is_order_free, is_truck_free in *. bools.
  unfold commit. rewrite decide_False by tauto. simpl.
  rewrite !bool_decide_eq_true_2; [done|..].
  - intros [E%elem_of_singleton|?]%elem_of_union; [|done]. apply Hat, list_elem_of_fmap. eauto.
  - intros [E%elem_of_singleton|?]%elem_of_union; [|done]. apply Hao, list_elem_of_fmap. eauto.
Qed.

(** A bid is awarded, and it stands in the way of another one. *)
Definition blocks (aw : list award) (owner_of : string → option string) (b' b : bid) : Prop :=
  award_of owner_of b' ∈ aw ∧ (bid_order b' = bid_order b ∨ bid_truck b' = bid_truck b).

Lemma cost_key_leb cls seed b' b :
  on_key (λ b, cost_key (cls b) seed b) rank_leb b' b = true →
  (cls b' ≤ cls b)%Z ∧
  (cls b' = cls b → isfinite (bid_cost b) = true →
   isfinite (bid_cost b') = true ∧ f_leb (bid_cost b') (bid_cost b) = true).
Proof.
  unfold on_key, rank_leb, cost_key, cost_rank. intros Hl.
  unfold pair_leb at 1 in Hl. simpl in Hl. apply andb_true_iff in Hl as [H1 H2].
  split; [lia|]. intros E Hf. rewrite Hf in H2. assert ((cls b <=? cls b')%Z = true) as Hle by lia.
  rewrite Hle in H2. simpl in H2. destruct (isfinite (bid_cost b')) eqn:Hf'; simpl in H2; [|done].
  unfold pair_leb in H2; simpl in H2. by apply andb_true_iff in H2 as [? _].
Qed.

(** the default rule leaves no bid with a cheaper claim unserved.  Under
LowestCost, a bid with a known cost on a free order and truck either wins or
loses its order or its truck to an awarded bid that costs no more. *)
Theorem lowest_cost_stable bids m seed owner_of r b :
  let aw := (resolve LowestCost bids m seed owner_of r).1 in
  b ∈ bids → isfinite (bid_cost b) = true →
  is_order_free m (bid_order b) = true → is_truck_free m (bid_truck b) = true →
  ∃ b', b' ∈ bids ∧ blocks aw owner_of b' b ∧
  isfinite (bid_cost b') = true ∧ f_leb (bid_cost b') (bid_cost b) = true.
Proof.
  intros aw Hin Hf Ho Ht.
  destruct (sweep_stable m owner_of (on_key (lowest_cost_key seed) rank_leb) bids b)
  as (b' & Hb' & Ha & Hl & E); [apply _|done..|].
  exists b'. split; [done|]. split; [by split|].
  apply (cost_key_leb (λ _, 0%Z)) in Hl as [_ Hl]. by apply Hl.
Qed.

(** under OwnerFirst an owner's bid yields only to another owner's bid.  When
an order goes to a company that does not own it although its owner bid for it
with a free truck, that truck went to a company for an order of its own. *)
Theorem owner_first_prefers_owner bids m seed owner_of r b a :
  let aw := (resolve OwnerFirst bids m seed owner_of r).1 in
  b ∈ bids → Some (bid_haulier b) = owner_of (bid_order b) →
  is_truck_free m (bid_truck b) = true →
  a ∈ aw → award_order a = bid_order b → Some (carrier_haulier a) ≠ owner_of (award_order a) →
  ∃ a', a' ∈ aw ∧ award_truck a' = bid_truck b ∧ Some (carrier_haulier a') = owner_of (award_order a').
Proof.
  intros aw Hin Hown Ht Ha Hao Hna.
  assert (valid_awards m owner_of bids aw) as Hv by apply (resolve_valid (res := resolve OwnerFirst)).
  destruct (sweep_stable m owner_of (on_key (owner_first_key owner_of seed) rank_leb) bids b)
  as (b' & Hb' & Ha' & Hl & E); [apply _|done| |done|].
  { rewrite <-Hao. by destruct (va_free _ _ _ _ Hv a Ha). }
  apply (cost_key_leb (λ b, if decide (Some (bid_haulier b) = owner_of (bid_order b)) then 0 else 1)%Z
   _ _ _) in Hl as [Hl _].
  rewrite (decide_True _ _ Hown) in Hl. case_decide as Hown'; [|lia].
  exists (award_of owner_of b'). split; [done|]. destruct E as [E|E]; [|done].
  change (award_of owner_of b' ∈ aw) in Ha'. destruct Hna. enough (a = award_of owner_of b') as -> by done.
  pose proof (va_orders _ _ _ _ Hv) as Hnd.
  apply list_elem_of_lookup in Ha as [i Hi]. apply list_elem_of_lookup in Ha' as [j Hj].
  assert (i = j) as <-; [|congruence].
  apply (NoDup_lookup _ i j (bid_order b) Hnd).
  - rewrite list_lookup_fmap, Hi. simpl. by rewrite Hao.
  - rewrite list_lookup_fmap, Hj. simpl. by rewrite E.
Qed.

(** under HighestBenefit no free bid with a defined benefit loses to a smaller
one.  Benefit is the owner's cheapest own bid for the order less the bid's
cost; a free bid for which it is defined either wins or loses its order or its
truck to an awarded bid with a defined benefit that is at least as large. *)
Theorem highest_benefit_stable bids m seed owner_of r b g :
  let aw := (resolve HighestBenefit bids m seed owner_of r).1 in
  let reserve := reserves owner_of bids in
  b ∈ bids → benefit reserve b = Some g →
  is_order_free m (bid_order b) = true → is_truck_free m (bid_truck b) = true →
  (∃ own, reserve !! bid_order b = Some own ∧ own ∈ owner_costs owner_of bids (bid_order b) ∧
   ∀ c, c ∈ owner_costs owner_of bids (bid_order b) → f_leb own c = true) ∧
  ∃ b' g', b' ∈ bids ∧ blocks aw owner_of b' b ∧
  benefit reserve b' = Some g' ∧ f_leb g g' = true.
Proof.
  intros aw reserve Hin Hg Ho Ht. split.
  { pose proof (reserves_spec owner_of bids (bid_order b)) as Hr. fold reserve in Hr.
  unfold benefit in Hg. destruct (reserve !! bid_order b) as [own|]; [eauto|done]. }
  destruct (sweep_stable m owner_of (on_key (highest_benefit_key reserve seed) rank_leb) bids b)
  as (b' & Hb' & Ha & Hl & E); [apply _|done..|].
  unfold on_key, highest_benefit_key in Hl. rewrite Hg in Hl.
  destruct (benefit reserve b') as [g'|] eqn:Hg'; [|done].
  exists b', g'. split_and!; [done|by split|done|].
  unfold rank_leb, pair_leb in Hl; simpl in Hl. apply andb_true_iff in Hl as [Hl _].
  by rewrite f_leb_opp in Hl.
Qed.
End Properties.

(** ** Examples *)

(** Two companies bid for order [o]: its owner [a] at 5 km and its partner [b] at
    3 km; [a] bids for a second order with the same truck. *)
Definition example_owner (o : string) : option string := Some "a".
Definition bid_a : bid := Bid "a" "o" "t1" (f_of_Z 5) (Some "p") 1.
Definition bid_b : bid := Bid "b" "o" "t2" (f_of_Z 3) (Some "p") 1.
Definition bid_a2 : bid := Bid "a" "o2" "t1" (f_of_Z 2) (Some "p") 1.
Definition example_market : market := new_market [Pool "p" {["a"; "b"]}].


Lemma lowest_cost_stable_witness :
  ∃ b', b' ∈ [bid_a; bid_b] ∧ f_leb (bid_cost b') (f_of_Z 5) = true.
Proof.
  destruct (lowest_cost_stable (H := zero_hash) (H0 := zero_rng) [bid_a; bid_b] example_market 7
              example_owner tt bid_a) as (b' & Hb' & _ & _ & Hc).
  - left.
  - reflexivity.
  - reflexivity.
  - reflexivity.
  - exists b'. split; [exact Hb'|exact Hc].
Defined.

Lemma owner_first_prefers_owner_witness :
  ∃ a', award_truck a' = "t1" ∧ Some (carrier_haulier a') = example_owner (award_order a').
Proof.
  destruct (owner_first_prefers_owner (H := zero_hash) (H0 := zero_rng) [bid_a; bid_b; bid_a2]
              example_market 7 example_owner tt bid_a
              (award_of example_owner bid_b)) as (a' & _ & Ht & Hc).
  - left.
  - reflexivity.
  - reflexivity.
  - vm_compute. right. left.
  - reflexivity.
  - discriminate.
  - exists a'. split; [exact Ht|exact Hc].
Defined.

Lemma highest_benefit_stable_witness :
  ∃ b' g', b' ∈ [bid_a; bid_b] ∧
    benefit (reserves example_owner [bid_a; bid_b]) b' = Some g' ∧
    f_leb (f_of_Z 2) g' = true.
Proof.
  destruct (highest_benefit_stable (H := zero_hash) (H0 := zero_rng) [bid_a; bid_b] example_market 7
              example_owner tt bid_b (f_of_Z 2)) as (_ & b' & g' & Hb' & _ & Hg & Hl).
  - right. left.
  - vm_compute. reflexivity.
  - reflexivity.
  - reflexivity.
  - exists b', g'. split; [exact Hb'|]. split; [exact Hg|exact Hl].
Defined.
