(* ===== verification/Constraints.v ===== *)
(** Feasibility and cost of a truck/order pair ([assignment/constraints.py]):
    the haulier rules, the physical constraints, the deadhead cost, and the
    readers of a cooperation structure. *)

From S2P Require Import Prelude PyValue.

(** The functions of Python's [math] module the geometry uses; a domain error is
    a [ValueError], a range error an [OverflowError]. *)
Class PyMath := {
  m_radians : float64 → float64;
  m_sin : float64 → result float64;
  m_cos : float64 → result float64;
  m_asin : float64 → result float64;
  m_sqrt : float64 → result float64;
  m_square : float64 → result float64;
}.

(** A GeoJSON point: longitude and latitude. *)
Definition point : Type := float64 * float64.

Section Geometry.
Context `{PyText, PyMath}.

(** [_as_point] *)
Definition as_point (loc : pyval) : result (option point) :=
  match loc with
  | PDict d =>
      match get d "coordinates" with
      | PList (x :: y :: _) | PTuple (x :: y :: _) =>
          match py_float x with
          | Raise TypeError | Raise ValueError => Ok None
          | Raise e => Raise e
          | Ok lon =>
            match py_float y with
            | Raise TypeError | Raise ValueError => Ok None
            | Raise e => Raise e
            | Ok lat => Ok (Some (lon, lat))
            end
          end
      | _ => Ok None
      end
  | _ => Ok None
  end.

Definition f_one : float64 := f_of_Z 1.
Definition f_two : float64 := f_of_Z 2.

(** The angle both haversine helpers share: [asin(min(1.0, sqrt(h)))]. *)
Definition haversine_angle (a b : point) : result float64 :=
  let lon1 := m_radians a.1 in let lat1 := m_radians a.2 in
  let lon2 := m_radians b.1 in let lat2 := m_radians b.2 in
  let dlon := f_sub lon2 lon1 in let dlat := f_sub lat2 lat1 in
  s1 ← m_sin (f_div dlat f_two);
  s1sq ← m_square s1;
  c1 ← m_cos lat1;
  c2 ← m_cos lat2;
  s2 ← m_sin (f_div dlon f_two);
  s2sq ← m_square s2;
  let h := f_add s1sq (f_mul (f_mul c1 c2) s2sq) in
  root ← m_sqrt h;
  m_asin (f_min f_one root).

(** [_haversine_km] on points that are already parsed. *)
Definition haversine_km (a b : point) : result float64 :=
  angle ← haversine_angle a b;
  Ok (f_mul (f_mul f_two (f_of_Z 6371)) angle).

(** [_haversine_seconds], at the default speed of 40 km/h. *)
Definition haversine_seconds (a b : point) : result float64 :=
  angle ← haversine_angle a b;
  let dist_m := f_mul (f_of_Z (2 * 6371000)) angle in
  Ok (f_div dist_m (f_div (f_mul (f_of_Z 1000) (f_of_Z 40)) (f_of_Z 3600))).

(** ** Locations *)

(** [_configured_facilities]: [facs] is the [facilities] list of the facility
settings' profile. *)
Definition default_facilities : list pydict :=
  [[("name", PStr "pickup_terminal_a"); ("lat", PFloat (f_frac 1290 1000)); ("lon", PFloat (f_frac 103850 1000))];
   [("name", PStr "dropoff_terminal_b"); ("lat", PFloat (f_frac 1330 1000)); ("lon", PFloat (f_frac 103930 1000))]].

Definition configured_facilities (facs : list pydict) : list pydict :=
  match facs with
  | [] => default_facilities
  | _ => imap (λ idx item,
   let d := nth (idx mod 2) default_facilities [] in
   [("name", get_or item "name" (get d "name")); ("lat", get_or item "lat" (get d "lat"));
  ("lon", get_or item "lon" (get d "lon"))]) facs
  end.

(** [_facility_center_by_name] *)
Definition facility_center_by_name (facs : list pydict) (name : pyval) : result (option point) :=
  if negb (truth name) then Ok None
  else
  match head (filter (λ fac, py_eq (get fac "name") name = true) (configured_facilities facs)) with
  | None => Ok None
  | Some fac =>
      match get fac "lon", get fac "lat" with
      | PNone, _ | _, PNone => Ok None
      | lon, lat => x ← py_float lon; y ← py_float lat; Ok (Some (x, y))
      end
  end.

(** [a or b] on parsed points, evaluated lazily. *)
Definition or_point (a : result (option point)) (b : result (option point)) : result (option point) :=
  p ← a; match p with Some p => Ok (Some p) | None => b end.

Definition truck_anchor_loc (facs : list pydict) (truck : doc) : result (option point) :=
  or_point (as_point (prof_get truck "current_loc"))
  (or_point (as_point (prof_get truck "last_known_loc"))
  (or_point (as_point (prof_get truck "init_loc"))
  (facility_center_by_name facs (prof_get truck "home_facility_name")))).

Definition order_pickup_loc (order : doc) : result (option point) :=
  or_point (as_point (doc_get order "pickup_loc")) (as_point (prof_get order "pickup_loc")).

Definition order_dropoff_loc (order : doc) : result (option point) :=
  or_point (as_point (doc_get order "dropoff_loc")) (as_point (prof_get order "dropoff_loc")).

Definition estimate_reposition_duration_seconds (facs : list pydict) (truck order : doc) :
  result (option float64) :=
  start ← truck_anchor_loc facs truck;
  stop ← order_pickup_loc order;
  match start, stop with
  | Some a, Some b => s ← haversine_seconds a b; Ok (Some s)
  | _, _ => Ok None
  end.

Definition truck_last_dropoff_loc (truck : doc) : result (option point) :=
  as_point (prof_get truck "last_dropoff_loc").

Definition truck_last_dropoff_facility (truck : doc) : option string :=
  let name := prof_get truck "last_dropoff_facility_name" in
  if py_in name [PNone; PStr ""] then None else Some (py_str name).

(** ** The cost of a pair *)

Definition DEFAULT_DUAL_CYCLE_BONUS_KM : float64 := f_of_Z 5.
Definition DEFAULT_DUAL_CYCLE_RADIUS_KM : float64 := f_frac 1 2.
Definition UNKNOWN_COST : float64 := f_inf.

(** Whether the truck just dropped off where the order is picked up. *)
Definition is_dual_cycle (truck order : doc) (pickup : point) (radius_km : float64) : result bool :=
  let pickup_fac := prof_get order "pickup_facility_name" in
  let by_name :=
  match truck_last_dropoff_facility truck, pickup_fac with
  | None, _ | _, PNone => false
  | Some last_fac, _ => bool_decide (last_fac = py_str pickup_fac)
  end in
  if by_name then Ok true
  else
  last_loc ← truck_last_dropoff_loc truck;
  match last_loc with
  | None => Ok false
  | Some l => d ← haversine_km l pickup; Ok (f_leb d radius_km)
  end.

Definition assignment_cost (facs : list pydict) (params : pydict) (truck order : doc) : result float64 :=
  pickup ← order_pickup_loc order;
  anchor ← truck_anchor_loc facs truck;
  match pickup, anchor with
  | Some pickup, Some anchor =>
      base_km ← haversine_km anchor pickup;
      bonus_km ← py_float (get_or params "dual_cycle_bonus_km" (PFloat DEFAULT_DUAL_CYCLE_BONUS_KM));
      radius_km ← py_float (get_or params "dual_cycle_radius_km" (PFloat DEFAULT_DUAL_CYCLE_RADIUS_KM));
      dual ← is_dual_cycle truck order pickup radius_km;
      Ok (f_max f_zero (f_sub base_km (if dual : bool then bonus_km else f_zero)))
  | _, _ => Ok UNKNOWN_COST
  end.

(** ** Hauliers *)

Definition haulier_of (entity : doc) : option string :=
  let hid := match doc_get entity "haulier_id" with
   | PNone => prof_get entity "haulier_id"
   | v => v
   end in
  if py_in hid [PNone; PStr ""] then None else Some (py_str hid).

Definition haulier_matches (truck order : doc) : bool :=
  match haulier_of truck, haulier_of order with
  | Some t, Some o => bool_decide (t = o)
  | _, _ => false
  end.

(** ** Physical feasibility *)

Definition size_compatible (truck order : doc) : bool :=
  let truck_size := get_or (profile truck) "truck_size" (PStr "20ft") in
  let order_size := py_or (py_or (prof_get order "order_size") (doc_get order "order_size")) (PStr "1x20") in
  negb (py_eq truck_size (PStr "20ft") && py_in order_size [PStr "2x20"; PStr "2x20ft"; PStr "40ft"]).

Definition restricted_area_blocks (truck order : doc) : bool :=
  match prof_get truck "restricted_areas" with
  | PList l | PTuple l =>
      existsb (λ key, let name := prof_get order key in
                truth name && bool_decide (py_str name ∈ map py_str l))
      ["pickup_facility_name"; "dropoff_facility_name"]
  | _ => false
  end.

Definition within_max_reposition_seconds (facs : list pydict) (truck order : doc) (max_seconds : pyval) :
  result bool :=
  match max_seconds with
  | PNone => Ok true
  | _ =>
      match py_float max_seconds with
      | Raise TypeError | Raise ValueError => Ok true
      | Raise e => Raise e
      | Ok lim =>
          if f_leb lim f_zero then Ok true
          else
          eta ← estimate_reposition_duration_seconds facs truck order;
          match eta with
          | None => Ok true
          | Some eta => Ok (f_leb eta lim)
          end
      end
  end.

Definition pair_allowed_ignoring_haulier (facs : list pydict) (max_travel : pyval) (truck order : doc) :
  result bool :=
  if negb (size_compatible truck order) then Ok false
  else if restricted_area_blocks truck order then Ok false
  else within_max_reposition_seconds facs truck order max_travel.

Definition pair_allowed (facs : list pydict) (max_travel : pyval) (truck order : doc) : result bool :=
  if negb (haulier_matches truck order) then Ok false
  else pair_allowed_ignoring_haulier facs max_travel truck order.

(** ** Cooperation structures *)

(** Whether a structure is filed under [id]. *)
Definition has_id (id : pyval) (s : pyval) : bool :=
  match s with PDict d => py_eq (get d "id") id | _ => false end.

(** [active_cooperation_structure]: the structures are indexed by id, a later one
replacing an earlier one with an equal id. *)
Definition active_cooperation_structure (prof : pydict) : pyval :=
  match get prof "cooperation" with
  | PDict coop =>
      match get coop "structures" with
      | PList structures =>
          default PNone (last (filter (λ s, has_id (get coop "active") s = true) structures))
      | _ => PNone
      end
  | _ => PNone
  end.

(** [share_adjacency]; keys are strings in a JSON document. *)
Definition share_adjacency (structure : pyval) : gmap string (list string) :=
  match structure with
  | PDict d =>
      match get d "adjacency" with
      | PDict adj =>
          foldl (λ m kv, match kv.2 with
                       | PList l | PTuple l => <[kv.1 := map py_str l]> m
                       | _ => m
                       end) ∅ adj
      | _ => ∅
      end
  | _ => ∅
  end.

Definition share_eligible (truck order : doc) (adjacency : gmap string (list string)) : bool :=
  match haulier_of truck, haulier_of order with
  | Some t, Some o => negb (bool_decide (t = o)) && bool_decide (o ∈ default [] (adjacency !! t))
  | _, _ => false
  end.

(** [filter_assignable_trucks] *)
Definition filter_assignable_trucks (trucks : list doc) (busy_truck_ids : gset string)
  (respect_truck_online_state reject_if_active_haul_trip : bool) (online_state_name : string) : list doc :=
  filter (λ t,
  let tid := doc_get t "_id" in
  negb (py_eq tid PNone) &&
  negb (respect_truck_online_state && negb (py_eq (doc_get t "state") (PStr online_state_name))) &&
  negb (reject_if_active_haul_trip && bool_decide (py_str tid ∈ busy_truck_ids)) = true) trucks.
End Geometry.

(** A [math] module that maps every angle to zero: enough to run examples. *)
Definition flat_math : PyMath := {|
  m_radians := λ x, x; m_sin := λ _, Ok f_zero; m_cos := λ _, Ok f_one;
  m_asin := λ _, Ok f_zero; m_sqrt := λ _, Ok f_zero; m_square := λ _, Ok f_zero |}.

(** ** Properties *)

Section Properties.
Context `{PyText, PyMath} (facs : list pydict).

Lemma f_max_zero_nonneg c : f_leb f_zero (f_max f_zero c) = true.
Proof. unfold f_max. destruct (f_ltb f_zero c) eqn:E; [by apply f_ltb_leb|done]. Qed.

(** A cost is nonnegative, and so not NaN. *)
Lemma assignment_cost_pos params truck order c :
  assignment_cost facs params truck order = Ok c → f_leb f_zero c = true ∧ not_nan c.
Proof.
  unfold assignment_cost. intros Hc.
  assert (f_leb f_zero c = true) as Hpos.
  { repeat (case_match; simpl in Hc; simplify_eq; try done).
  all: repeat match type of Hc with
  | (match ?r with Ok _ => _ | Raise _ => _ end) = _ => destruct r; simpl in Hc; [|done]
  | (?r ≫= _) = _ => destruct r as [?|]; simpl in Hc; [|done]
  | context [match ?o with Some _ => _ | None => _ end] => destruct o; simpl in Hc
  end; simplify_eq; try done; apply f_max_zero_nonneg. }
  split; [done|]. by destruct c.
Qed.

(** a pair's cost is never negative and never NaN, whatever the documents and
parameters hold, so the solvers' ranking is defined on it; and it is infinite
when the pickup or the truck's position is unknown. *)
Theorem assignment_cost_nonneg params truck order c :
  assignment_cost facs params truck order = Ok c →
  f_leb f_zero c = true ∧ isnan c = false ∧
  (order_pickup_loc order = Ok None ∨ truck_anchor_loc facs truck = Ok None → c = f_inf).
Proof.
  intros Hc. destruct (assignment_cost_pos _ _ _ _ Hc) as [Hpos Hnan]. unfold assignment_cost in Hc.
  split; [done|]. split; [done|].
  intros [E|E]; rewrite E in Hc; simpl in Hc.
  - destruct (truck_anchor_loc facs truck); simpl in Hc; [|done]. by injection Hc as <-.
  - destruct (order_pickup_loc order) as [[]|]; simpl in Hc; [| |done]; by injection Hc as <-.
Qed.

(** the haulier rules are fail-closed and exclusive.  The strict rule admits a
pair only between one haulier's truck and order, the sharing rule only between
two different hauliers that the structure joins; a truck or an order without a
haulier is admitted by neither. *)
Theorem haulier_rules_exclusive max_travel truck order adjacency :
  (pair_allowed facs max_travel truck order = Ok true ↔
   haulier_matches truck order = true ∧
   pair_allowed_ignoring_haulier facs max_travel truck order = Ok true) ∧
  (haulier_matches truck order = true ↔
   ∃ h, haulier_of truck = Some h ∧ haulier_of order = Some h) ∧
  (share_eligible truck order adjacency = true ↔
   ∃ t o, haulier_of truck = Some t ∧ haulier_of order = Some o ∧ t ≠ o ∧
  o ∈ default [] (adjacency !! t)) ∧
  (haulier_matches truck order && share_eligible truck order adjacency = false).
Proof.
  unfold pair_allowed, haulier_matches, share_eligible.
  destruct (haulier_of truck) as [t|], (haulier_of order) as [o|]; simpl; try naive_solver.
  destruct (bool_decide_reflect (t = o)) as [->|Hne]; simpl.
  - split_and!; try done; [tauto|naive_solver|]. split; [done|]. naive_solver.
  - split_and!; try done; [naive_solver..|]. rewrite bool_decide_eq_true. naive_solver.
Qed.
End Properties.

Lemma assignment_cost_nonneg_witness :
  f_leb f_zero f_inf = true ∧ isnan f_inf = false.
Proof.
  destruct (assignment_cost_nonneg (H := no_text) (H0 := flat_math) [] [] (Doc [] []) (Doc [] []) f_inf)
    as (Hc & Hn & _).
  - vm_compute. reflexivity.
  - split; [exact Hc|exact Hn].
Defined.
