(* ===== verification/Spatial.v ===== *)
(** Spatial candidate generation: trucks in a grid of cells, searched ring by
    ring around an order's pickup ([assignment/spatial.py]). *)

From S2P Require Import Prelude PyValue Constraints.
Open Scope Z_scope.

(** A cell: row (latitude) and column (longitude). *)
Definition cell : Type := Z * Z.

(** [_cell_of] *)
Definition cell_of (p : point) (cell_deg : float64) : result cell :=
  row ← (q ← py_div p.2 cell_deg; py_floor q);
  col ← (q ← py_div p.1 cell_deg; py_floor q);
  Ok (row, col).

(** [_ring]: the cells at Chebyshev distance [r] of the centre. *)
Definition ring (center : cell) (r : Z) : list cell :=
  let '(cy, cx) := center in
  if r =? 0 then [center]
  else
    concat (map (λ dx, [(cy - r, cx + dx); (cy + r, cx + dx)]) (seqZ (- r) (2 * r + 1))) ++
    concat (map (λ dy, [(cy + dy, cx - r); (cy + dy, cx + r)]) (seqZ (- r + 1) (2 * r - 1))).

Definition chebyshev (a b : cell) : Z := Z.max (Z.abs (a.1 - b.1)) (Z.abs (a.2 - b.2)).

(** [l[:n]] *)
Definition py_take {A} (n : Z) (l : list A) : list A :=
  take (Z.to_nat (if n <? 0 then Z.max 0 (Z.of_nat (length l) + n) else n)) l.

(** [SpatialTruckIndex] *)
Record truck_index := TruckIndex {
  grid_cell_deg : float64;
  grid : gmap cell (list doc);
  unplaced : list doc;
}.

Definition bucket (ix : truck_index) (c : cell) : list doc := default [] (grid ix !! c).

Section Index.
Context `{PyText, PyMath} (facs : list pydict).

(** One step of [__init__]'s loop. *)
Definition place (ix : truck_index) (t : doc) : result truck_index :=
  pt ← truck_anchor_loc facs t;
  match pt with
  | None => Ok (TruckIndex (grid_cell_deg ix) (grid ix) (unplaced ix ++ [t]))
  | Some p =>
      c ← cell_of p (grid_cell_deg ix);
      Ok (TruckIndex (grid_cell_deg ix) (<[c := bucket ix c ++ [t]]> (grid ix)) (unplaced ix))
  end.

Definition new_index (trucks : list doc) (cell_deg : float64) : result truck_index :=
  foldR place (TruckIndex cell_deg ∅ []) trucks.

(** The [while] loop of [nearby], from ring [r] on, with [n] rings left. *)
Fixpoint search_rings (ix : truck_index) (center : cell) (cap : Z) (n : nat) (r : Z)
  (out : list doc) : list doc :=
  match n with
  | O => out
  | S n' =>
      if Z.of_nat (length out) <? cap then
      search_rings ix center cap n' (r + 1) (out ++ concat (map (bucket ix) (ring center r)))
      else out
  end.

Definition nearby (ix : truck_index) (p : point) (cap max_rings : Z) : result (list doc) :=
  center ← cell_of p (grid_cell_deg ix);
  let out := search_rings ix center cap (Z.to_nat (max_rings + 1)) 0 [] in
  let out := if Z.of_nat (length out) <? cap then out ++ unplaced ix else out in
  Ok (py_take cap out).

(** The trucks an order is matched against. *)
Definition candidates_for (ix : truck_index) (trucks : list doc) (per_order max_rings : Z) (order : doc) :
  result (list doc) :=
  pickup ← order_pickup_loc order;
  match pickup with
  | None => Ok (py_take per_order trucks)
  | Some p => nearby ix p per_order max_rings
  end.

Definition iter_candidate_pairs (allowed : doc → doc → result bool) (cell_deg : float64)
  (per_order max_rings : Z) (trucks orders : list doc) : result (list (doc * doc)) :=
  match trucks, orders with
  | [], _ | _, [] => Ok []
  | _, _ =>
      ix ← new_index trucks cell_deg;
      per ← mapR (λ order,
      cands ← candidates_for ix trucks per_order max_rings order;
      ts ← filterR (λ t, allowed t order) cands;
      Ok (map (λ t, (t, order)) ts)) orders;
      Ok (concat per)
  end.

(** ** Lemmas: rings *)

Lemma elem_of_ring center r c : 0 ≤ r → c ∈ ring center r ↔ chebyshev c center = r.
Proof.
  intros Hr. destruct center as [cy cx], c as [y x]. unfold ring, chebyshev. simpl.
  destruct (Z.eqb_spec r 0) as [->|Hne].
  { rewrite list_elem_of_singleton. split; [intros [= -> ->]; lia|intros; f_equal; lia]. }
  rewrite elem_of_app, !list_elem_of_In, !in_concat. split.
  - intros [(l & Hl & Hin)|(l & Hl & Hin)]; apply in_map_iff in Hl as (d & <- & Hd);
  apply list_elem_of_In, elem_of_seqZ in Hd; destruct Hin as [E|[E|[]]]; simplify_eq; lia.
  - intros Hm. destruct (decide (Z.abs (y - cy) = r)) as [Hy|Hy]; [left|right].
  + exists [(cy - r, cx + (x - cx)); (cy + r, cx + (x - cx))]. split.
  * apply in_map_iff. exists (x - cx). split; [done|]. apply list_elem_of_In, elem_of_seqZ. lia.
  * assert (y = cy - r ∨ y = cy + r) as [->| ->] by lia; simpl; [left|right; left]; f_equal; lia.
  + exists [(cy + (y - cy), cx - r); (cy + (y - cy), cx + r)]. split.
  * apply in_map_iff. exists (y - cy). split; [done|]. apply list_elem_of_In, elem_of_seqZ. lia.
  * assert (x = cx - r ∨ x = cx + r) as [->| ->] by lia; simpl; [left|right; left]; f_equal; lia.
Qed.

(** ** Lemmas: the index *)

(** Where a truck is filed. *)
Definition truck_cell (deg : float64) (t : doc) : result (option cell) :=
  pt ← truck_anchor_loc facs t;
  match pt with None => Ok None | Some p => c ← cell_of p deg; Ok (Some c) end.

Lemma elem_of_guard {A} (P : Prop) `{Decision P} (x y : A) :
  x ∈ (if decide P then [y] else []) ↔ P ∧ x = y.
Proof. case_decide; rewrite ?list_elem_of_singleton, ?elem_of_nil; tauto. Qed.

(** Placing a truck appends it to the one list it belongs to. *)
Lemma place_spec ix t ix' :
  place ix t = Ok ix' →
  grid_cell_deg ix' = grid_cell_deg ix ∧
  ∃ oc, truck_cell (grid_cell_deg ix) t = Ok oc ∧
  (∀ c, bucket ix' c = bucket ix c ++ (if decide (oc = Some c) then [t] else [])) ∧
  unplaced ix' = unplaced ix ++ (if decide (oc = None) then [t] else []).
Proof.
  unfold place, truck_cell. destruct (truck_anchor_loc facs t) as [[p|]|]; simpl; [| |done].
  - destruct (cell_of p (grid_cell_deg ix)) as [c0|]; simpl; [|done]. intros [= <-].
  split; [done|]. exists (Some c0). split; [done|]. simpl. rewrite app_nil_r. split; [|done].
  intros c. unfold bucket at 1; simpl. case_decide as Hc.
  + injection Hc as ->. by rewrite lookup_insert_eq.
  + rewrite lookup_insert_ne by congruence. by rewrite app_nil_r.
  - intros [= <-]. split; [done|]. exists None. split; [done|]. simpl. split; [|done].
  intros c. by rewrite app_nil_r.
Qed.

Lemma new_index_spec trucks deg ix :
  new_index trucks deg = Ok ix →
  grid_cell_deg ix = deg ∧
  (∀ t c, t ∈ bucket ix c ↔ t ∈ trucks ∧ truck_cell deg t = Ok (Some c)) ∧
  (∀ t, t ∈ unplaced ix ↔ t ∈ trucks ∧ truck_cell deg t = Ok None).
Proof.
  unfold new_index. set (ix0 := TruckIndex deg ∅ []).
  assert (∀ l i, grid_cell_deg i = deg → foldR place i l = Ok ix →
  grid_cell_deg ix = deg ∧
  (∀ t c, t ∈ bucket ix c ↔ t ∈ bucket i c ∨ t ∈ l ∧ truck_cell deg t = Ok (Some c)) ∧
  (∀ t, t ∈ unplaced ix ↔ t ∈ unplaced i ∨ t ∈ l ∧ truck_cell deg t = Ok None)) as Hgen.
  { induction l as [|t0 l IH]; intros i Hdeg Hf; simpl in Hf.
  { injection Hf as ->. split; [done|]. split; intros; rewrite elem_of_nil; tauto. }
  destruct (place i t0) as [i1|] eqn:E; simpl in Hf; [|done].
  apply place_spec in E as (Hd & oc & Hoc & Hb & Hu). rewrite Hdeg in Hd, Hoc.
  destruct (IH i1 Hd Hf) as (? & IHb & IHu). split; [done|]. split.
  - intros t c. rewrite IHb, Hb, elem_of_app, elem_of_cons, elem_of_guard. split.
  + intros [[?|[-> ->]]|[? ?]]; auto.
  + intros [?|[[->|?] Hc]]; auto. left; right. split; [congruence|done].
  - intros t. rewrite IHu, Hu, elem_of_app, elem_of_cons, elem_of_guard. split.
  + intros [[?|[-> ->]]|[? ?]]; auto.
  + intros [?|[[->|?] Hc]]; auto. left; right. split; [congruence|done]. }
  intros Hf. destruct (Hgen trucks ix0) as (? & Hb & Hu); [done..|].
  split; [done|]. split.
  - intros t c. rewrite Hb. unfold bucket, ix0; simpl. rewrite lookup_empty; simpl.
  rewrite elem_of_nil. tauto.
  - intros t. rewrite Hu. simpl. rewrite elem_of_nil. tauto.
Qed.

(** The search gathers whole rings, nearest first, and stops early only with
enough trucks. *)
Definition ring_trucks (ix : truck_index) (center : cell) (r : Z) : list doc :=
  concat (map (bucket ix) (ring center r)).

Lemma search_rings_spec ix center cap n r out :
  ∃ k, (k ≤ n)%nat ∧
  search_rings ix center cap n r out =
  out ++ concat (map (ring_trucks ix center) (seqZ r (Z.of_nat k))) ∧
  (k = n ∨ cap ≤ Z.of_nat (length (search_rings ix center cap n r out))).
Proof.
  revert r out. induction n as [|n IH]; intros r out; simpl.
  { exists 0%nat. simpl. rewrite app_nil_r. auto. }
  destruct (Z.ltb_spec (Z.of_nat (length out)) cap) as [Hlt|Hge].
  - destruct (IH (r + 1) (out ++ ring_trucks ix center r)) as (k & Hk & Heq & Hstop).
  exists (S k). split; [lia|]. split; [|destruct Hstop; [left; lia|by right]].
  unfold ring_trucks at 1 in Heq. rewrite Heq.
  rewrite Nat2Z.inj_succ, (seqZ_cons r) by lia. simpl.
  by rewrite <-app_assoc, Z.pred_succ, Z.add_1_r.
  - exists 0%nat. simpl. rewrite app_nil_r. split; [lia|]. auto.
Qed.

Lemma elem_of_ring_trucks ix center r t :
  0 ≤ r → t ∈ ring_trucks ix center r ↔ ∃ c, t ∈ bucket ix c ∧ chebyshev c center = r.
Proof.
  intros Hr. unfold ring_trucks. rewrite list_elem_of_In, in_concat. split.
  - intros (l & Hl & Hin). apply in_map_iff in Hl as (c & <- & Hc). exists c.
  rewrite <-list_elem_of_In in Hin. split; [done|]. rewrite <-list_elem_of_In in Hc.
  by apply elem_of_ring in Hc.
  - intros (c & Hin & Hc). exists (bucket ix c).
  split; [|by apply list_elem_of_In]. apply in_map_iff. exists c.
  split; [done|]. apply list_elem_of_In. by apply elem_of_ring.
Qed.
End Index.

(** ** Properties *)

Section Nearest.
Context `{PyText, PyMath} (facs : list pydict).

Lemma take_split {A} (l1 l2 : list A) x (n : nat) :
  x ∉ take n (l1 ++ x :: l2) → (n ≤ length l1)%nat ∧ take n (l1 ++ x :: l2) = take n l1.
Proof.
  intros Hx. destruct (decide (n ≤ length l1)%nat) as [Hn|Hn].
  - split; [done|]. by rewrite take_app_le.
  - destruct Hx. rewrite take_app_ge by lia.
  destruct (n - length l1)%nat as [|k] eqn:E; [lia|]. simpl. set_solver.
Qed.

(** What the rings [0 .. k-1] gather is filed nearer than [k], and what precedes a
truck in it is filed at most as far away. *)
Definition gathered (ix : truck_index) (center : cell) (k : nat) : list doc :=
  concat (map (ring_trucks ix center) (seqZ 0 (Z.of_nat k))).

Lemma elem_of_rings ix center a n t :
  0 ≤ a → t ∈ concat (map (ring_trucks ix center) (seqZ a n)) →
  ∃ c, t ∈ bucket ix c ∧ chebyshev c center < a + n.
Proof.
  intros Ha. rewrite list_elem_of_In, in_concat. intros (l & Hl & Hin).
  apply in_map_iff in Hl as (r & <- & Hr). apply list_elem_of_In, elem_of_seqZ in Hr.
  apply list_elem_of_In, elem_of_ring_trucks in Hin as (c & Hin & Hd); [|lia].
  exists c. split; [done|lia].
Qed.

Lemma gathered_split ix center k t c :
  t ∈ bucket ix c → chebyshev c center < Z.of_nat k →
  ∃ near rest, gathered ix center k = near ++ t :: rest ∧
  ∀ t', t' ∈ near → ∃ c', t' ∈ bucket ix c' ∧ chebyshev c' center ≤ chebyshev c center.
Proof.
  intros Hb Hdk. set (d := chebyshev c center) in *.
  assert (0 ≤ d) by (unfold d, chebyshev; lia). unfold gathered.
  replace (Z.of_nat k) with (d + (Z.of_nat k - d)) by lia.
  rewrite seqZ_app, map_app, concat_app, (seqZ_cons (0 + d)), Z.add_0_l by lia.
  cbn [map concat].
  assert (t ∈ ring_trucks ix center d) as Hring by (apply elem_of_ring_trucks; eauto).
  apply list_elem_of_split in Hring as (r1 & r2 & Hring). rewrite Hring.
  match goal with |- ∃ _ _, ?A ++ _ ++ ?B = _ ∧ _ => exists (A ++ r1), (r2 ++ B) end.
  split; [by rewrite <-!app_assoc|]. intros t'. rewrite elem_of_app. intros [Hin|Hin].
  - apply elem_of_rings in Hin as (c' & ? & ?); [|lia]. exists c'. split; [done|lia].
  - assert (t' ∈ ring_trucks ix center d) as Hin' by (rewrite Hring; set_solver).
  apply elem_of_ring_trucks in Hin' as (c' & ? & ?); [|lia]. exists c'. split; [done|lia].
Qed.

(** the index serves the nearest trucks.  [nearby] returns at most [cap]
trucks, all from the index; and a filed truck within the ring limit is left out
only when [cap] trucks were found, each filed at a cell no farther away. *)
Theorem nearby_nearest trucks deg ix p cap max_rings out center :
  new_index facs trucks deg = Ok ix → 0 ≤ cap →
  cell_of p deg = Ok center → nearby ix p cap max_rings = Ok out →
  Z.of_nat (length out) ≤ cap ∧ (∀ t, t ∈ out → t ∈ trucks) ∧
  ∀ t c, t ∈ trucks → truck_cell facs deg t = Ok (Some c) → chebyshev c center ≤ max_rings →
  t ∉ out →
  Z.of_nat (length out) = cap ∧
  ∀ t', t' ∈ out → ∃ c', truck_cell facs deg t' = Ok (Some c') ∧
  chebyshev c' center ≤ chebyshev c center.
Proof.
  intros Hix Hcap Hc Hn. destruct (new_index_spec _ _ _ _ Hix) as (Hdeg & Hb & Hu).
  unfold nearby in Hn. rewrite Hdeg, Hc in Hn. simpl in Hn. injection Hn as <-.
  destruct (search_rings_spec ix center cap (Z.to_nat (max_rings + 1)) 0 []) as (k & Hk & Heq & Hstop).
  set (found := search_rings _ _ _ _ _ _) in *. simpl in Heq. fold (gathered ix center k) in Heq.
  assert (∃ rest, (if Z.of_nat (length found) <? cap then found ++ unplaced ix else found) = found ++ rest ∧
  ∀ t, t ∈ rest → t ∈ trucks) as (rest & -> & Hrest).
  { destruct (_ <? _); [exists (unplaced ix); split; [done|]; by intros t [? _]%Hu|].
  exists []. rewrite app_nil_r. split; [done|]. by intros ? ?%elem_of_nil. }
  assert (py_take cap (found ++ rest) = take (Z.to_nat cap) (found ++ rest)) as ->.
  { unfold py_take. destruct (Z.ltb_spec cap 0); [lia|done]. }
  split_and!.
  - rewrite length_take. lia.
  - intros t Ht%subseteq_take. apply elem_of_app in Ht as [Ht|Ht]; [|by apply Hrest].
  rewrite Heq in Ht. apply elem_of_rings in Ht as (c & Hbt & _); [|done]. by apply Hb in Hbt as [? _].
  - intros t c Ht Htc Hd Hout. pose proof (proj2 (Hb t c) (conj Ht Htc)) as Hbt.
  destruct (decide (chebyshev c center < Z.of_nat k)) as [Hdk|Hdk].
  + destruct (gathered_split _ _ _ _ _ Hbt Hdk) as (near & rest' & Hg & Hnear).
  rewrite Heq, Hg, <-app_assoc in Hout |- *. simpl in Hout |- *.
  apply take_split in Hout as [Hlen ->]. split; [rewrite length_take; lia|].
  intros t' Ht'%subseteq_take. apply Hnear in Ht' as (c' & Ht' & ?).
  apply Hb in Ht' as [_ ?]. by exists c'.
  + destruct Hstop as [->|Hstop]; [lia|]. fold found in Hstop.
  rewrite take_app_le by lia. split; [rewrite length_take; lia|].
  intros t' Ht'%subseteq_take. rewrite Heq in Ht'. apply elem_of_rings in Ht' as (c' & Ht' & ?); [|done].
  apply Hb in Ht' as [_ ?]. exists c'. split; [done|lia].
Qed.
End Nearest.

Lemma ring_NoDup center r : 0 ≤ r → NoDup (ring center r).
Proof.
  intros Hr. destruct center as [cy cx]. unfold ring.
  destruct (Z.eqb_spec r 0) as [->|Hne]; [apply NoDup_singleton|].
  apply NoDup_app. split_and!.
  - apply NoDup_concat_map; [apply NoDup_seqZ|intros dx _|intros dx dx' z _ _].
    + apply NoDup_cons. split; [|apply NoDup_singleton]. intros [= E]%list_elem_of_singleton. lia.
    + rewrite !list_elem_of_In. intros [<-|[<-|[]]] [E|[E|[]]]; simplify_eq; lia.
  - intros z (l & Hl & Hz)%list_elem_of_In%in_concat (l' & Hl' & Hz')%list_elem_of_In%in_concat.
    apply in_map_iff in Hl as (dx & <- & _).
    apply in_map_iff in Hl' as (dy & <- & Hdy%list_elem_of_In%elem_of_seqZ).
    destruct Hz as [<-|[<-|[]]], Hz' as [E|[E|[]]]; simplify_eq; lia.
  - apply NoDup_concat_map; [apply NoDup_seqZ|intros dx _|intros dx dx' z _ _].
    + apply NoDup_cons. split; [|apply NoDup_singleton]. intros [= E]%list_elem_of_singleton. lia.
    + rewrite !list_elem_of_In. intros [<-|[<-|[]]] [E|[E|[]]]; simplify_eq; lia.
Qed.

(** a ring is exactly the cells at its distance, each once: no cell is
    searched twice and none is skipped. *)
Theorem ring_exact center r :
  0 ≤ r → NoDup (ring center r) ∧ ∀ c, c ∈ ring center r ↔ chebyshev c center = r.
Proof. intros Hr. split; [by apply ring_NoDup|]. intros c. by apply elem_of_ring. Qed.

Lemma ring_exact_witness : NoDup (ring (3, 4) 2).
Proof. apply (ring_exact (3, 4) 2). lia. Defined.

Lemma concat_length_bound {A} (l : list (list A)) n :
  Forall (λ k, (length k ≤ n)%nat) l → (length (concat l) ≤ n * length l)%nat.
Proof. induction 1; simpl; [lia|]. rewrite length_app. lia. Qed.

Section Candidates.
Context `{PyText, PyMath} (facs : list pydict).

Lemma candidates_for_spec trucks deg ix per_order max_rings order cands :
  new_index facs trucks deg = Ok ix → 0 ≤ per_order →
  candidates_for ix trucks per_order max_rings order = Ok cands →
  (length cands ≤ Z.to_nat per_order)%nat ∧ ∀ t, t ∈ cands → t ∈ trucks.
Proof.
  intros Hix Hp Hc. destruct (new_index_spec _ _ _ _ Hix) as (Hdeg & Hb & Hu).
  assert (∀ l : list doc, py_take per_order l = take (Z.to_nat per_order) l) as Htake.
  { intros l. unfold py_take. destruct (Z.ltb_spec per_order 0); [lia|done]. }
  unfold candidates_for in Hc. destruct (order_pickup_loc order) as [[p|]|]; simpl in Hc; [| |done].
  - unfold nearby in Hc. destruct (cell_of p _) as [center|]; simpl in Hc; [|done].
  injection Hc as <-. rewrite Htake. split; [rewrite length_take; lia|].
  destruct (search_rings_spec ix center per_order (Z.to_nat (max_rings + 1)) 0 []) as (k & _ & Heq & _).
  set (found := search_rings _ _ _ _ _ _) in *.
  assert (∀ t, t ∈ found → t ∈ trucks) as Hf.
  { intros t Ht. rewrite Heq in Ht. apply elem_of_rings in Ht as (c & Ht & _); [|done].
  by apply Hb in Ht as [? _]. }
  intros t Ht%subseteq_take. destruct (_ <? _); [|by apply Hf].
  apply elem_of_app in Ht as [?|[? _]%Hu]; auto.
  - injection Hc as <-. rewrite Htake. split; [rewrite length_take; lia|].
  intros t Ht. by apply subseteq_take in Ht.
Qed.

Lemma iter_candidate_pairs_spec allowed deg per_order max_rings trucks orders pairs :
  0 ≤ per_order → iter_candidate_pairs facs allowed deg per_order max_rings trucks orders = Ok pairs →
  (length pairs ≤ Z.to_nat per_order * length orders)%nat ∧
  ∀ t o, (t, o) ∈ pairs → t ∈ trucks ∧ o ∈ orders ∧ allowed t o = Ok true.
Proof.
  intros Hp Hi.
  assert (pairs = [] ∨ ∃ ix per, new_index facs trucks deg = Ok ix ∧ pairs = concat per ∧
  mapR (λ order, cands ← candidates_for ix trucks per_order max_rings order;
         ts ← filterR (λ t, allowed t order) cands; Ok (map (λ t, (t, order)) ts)) orders = Ok per)
  as [->|(ix & per & Hix & -> & Hm)].
  { unfold iter_candidate_pairs in Hi. destruct trucks as [|t0 ts]; [injection Hi as <-; by left|].
  destruct orders as [|o0 os]; [injection Hi as <-; by left|].
  destruct (new_index facs (t0 :: ts) deg) as [ix|]; cbn [mbind result_bind] in Hi; [|done].
  destruct (mapR _ (o0 :: os)) as [per|] eqn:E; cbn [mbind result_bind] in Hi; [|done].
  injection Hi as <-. right. eauto. }
  { split; [simpl; lia|]. by intros t o ?%elem_of_nil. }
  clear Hi. assert (∀ k, k ∈ per → (length k ≤ Z.to_nat per_order)%nat ∧
  ∀ t o, (t, o) ∈ k → t ∈ trucks ∧ o ∈ orders ∧ allowed t o = Ok true) as Hk.
  { intros k Hk. destruct (mapR_elem _ _ _ _ Hm Hk) as (order & Ho & E).
  destruct (candidates_for ix _ _ _ _) as [cands|] eqn:Ec; simpl in E; [|done].
  destruct (filterR _ cands) as [ts|] eqn:Ef; simpl in E; [|done]. injection E as <-.
  destruct (candidates_for_spec _ _ _ _ _ _ _ Hix Hp Ec) as [Hlen Hin].
  rewrite length_map. split.
  - etrans; [|exact Hlen]. eapply sublist_length, filterR_sublist, Ef.
  - intros t o (t' & [= -> ->] & Ht)%list_elem_of_fmap_1.
  apply (filterR_spec _ _ _ _ Ef) in Ht as [Ht ?]. auto. }
  split.
  - rewrite <-(mapR_length _ _ _ Hm). apply concat_length_bound, Forall_forall.
  intros k Hin. by apply Hk.
  - intros t o Hin. apply list_elem_of_In, in_concat in Hin as (k & Hin & Hto).
  apply list_elem_of_In in Hin, Hto. by apply (proj2 (Hk k Hin)).
Qed.

(** candidate generation emits only feasible pairs, at most [per_order] per
order: each pair joins a given truck to a given order and passed the check. *)
Theorem candidate_pairs_feasible allowed deg per_order max_rings trucks orders pairs :
  0 ≤ per_order → iter_candidate_pairs facs allowed deg per_order max_rings trucks orders = Ok pairs →
  (length pairs ≤ Z.to_nat per_order * length orders)%nat ∧
  ∀ t o, (t, o) ∈ pairs → t ∈ trucks ∧ o ∈ orders ∧ allowed t o = Ok true.
Proof. apply iter_candidate_pairs_spec. Qed.
End Candidates.

(** ** Examples *)

(** A truck at (103, 1) and an order picked up at (103, 2), in cells of one degree. *)
Definition at_point (lon lat : Z) : pyval :=
  PDict [("coordinates", PList [PInt lon; PInt lat])].
Definition example_truck : doc := Doc [("_id", PStr "t")] [("current_loc", at_point 103 1)].
Definition example_order : doc := Doc [("_id", PStr "o"); ("pickup_loc", at_point 103 2)] [].

Lemma nearby_nearest_witness : Z.of_nat (length [example_truck]) ≤ 5.
Proof.
  refine (proj1 (nearby_nearest (H := no_text) [] [example_truck] f_one
    (TruckIndex f_one {[(1, 103) := [example_truck]]} []) (f_of_Z 103, f_of_Z 2) 5 8
    [example_truck] (2, 103) _ _ _ _)).
  - vm_compute. reflexivity.
  - lia.
  - vm_compute. reflexivity.
  - vm_compute. reflexivity.
Defined.

Lemma candidate_pairs_feasible_witness :
  (length [(example_truck, example_order)] ≤ Z.to_nat 5 * length [example_order])%nat.
Proof.
  refine (proj1 (candidate_pairs_feasible (H := no_text) [] (λ _ _, Ok true)
    f_one 5 8 [example_truck] [example_order] [(example_truck, example_order)] _ _)).
  - lia.
  - vm_compute. reflexivity.
Defined.
