(* ===== verification/Solver.v ===== *)
(** Matching solvers: the greedy nearest-pair solver and the random baseline
    ([assignment/solver/]), and the contract both keep. *)

From S2P Require Import Prelude PyValue Tiebreak Constraints.

(** What the application injects: feasibility and cost. *)
Abbreviation pair_allowed_fn := (doc → doc → result bool).
Abbreviation cost_fn := (doc → doc → result float64).
Abbreviation assignment := (list (doc * doc)).

(** Whether a value can be a member of a Python set. *)
Fixpoint hashable (v : pyval) : bool :=
  match v with
  | PList _ | PDict _ => false
  | PTuple l => forallb hashable l
  | _ => true
  end.

(** [v in s], for a set given by its members. *)
Definition in_set (v : pyval) (s : list pyval) : result bool :=
  if hashable v then Ok (py_in v s) else Raise TypeError.

Definition doc_id (d : doc) : pyval := doc_get d "_id".

(** ** The greedy solver: [greedy_nearest.py] *)

(** A scored pair. *)
Record row := Row { row_cost : float64; row_missing : Z; row_truck : doc; row_order : doc }.

Definition score_pair (cost : cost_fn) (p : doc * doc) : result row :=
  c ← match cost p.1 p.2 with
      | Raise TypeError | Raise ValueError => Ok f_inf
      | r => r
      end;
  let missing := isinf c || isnan c in
  Ok (Row (if missing then f_inf else c) (if missing then 1 else 0) p.1 p.2)%Z.

(** The pairs come from an iterator: the list of what its steps give. *)
Definition score_pairs (cost : cost_fn) (pairs : list (result (doc * doc))) : result (list row) :=
  mapR (λ r, p ← r; score_pair cost p) pairs.

Definition legacy_key (w : row) : float64 * Z := (row_cost w, row_missing w).
Definition legacy_leb : row → row → bool := on_key legacy_key (pair_leb f_leb Z.leb).

Section Greedy.
Context `{PyText, Blake2b, Rng}.

Definition pooled_key (seed : Z) (w : row) : float64 * (Z * Z) :=
  (row_cost w, (row_missing w,
  pair_tiebreak seed (py_str (doc_id (row_order w))) (py_str (doc_id (row_truck w))))).
Definition pooled_leb (seed : Z) : row → row → bool :=
  on_key (pooled_key seed) (pair_leb f_leb (pair_leb Z.leb Z.leb)).

(** The final sweep, from the ids used so far on. *)
Fixpoint sweep_rows (used_trucks used_orders : list pyval) (rows : list row) : result assignment :=
  match rows with
  | [] => Ok []
  | w :: rows =>
      let tid := doc_id (row_truck w) in
      let oid := doc_id (row_order w) in
      t_used ← in_set tid used_trucks;
      if t_used : bool then sweep_rows used_trucks used_orders rows
      else
      o_used ← in_set oid used_orders;
      if o_used : bool then sweep_rows used_trucks used_orders rows
      else
      rest ← sweep_rows (used_trucks ++ [tid]) (used_orders ++ [oid]) rows;
      Ok ((row_truck w, row_order w) :: rest)
  end.

(** [solve_pairs]: [tiebreak] is the seed of [set_tiebreak]. *)
Definition greedy_solve_pairs (tiebreak : option Z) (pairs : list (result (doc * doc))) (cost : cost_fn) :
  eff rng assignment :=
  scored ← lift (score_pairs cost pairs);
  match scored with
  | [] => mret []
  | _ =>
      match tiebreak with
      | None => λ r, let '(shuffled, r') := shuffle r scored in
               (sweep_rows [] [] (py_sorted legacy_leb shuffled), r')
      | Some seed => lift (sweep_rows [] [] (py_sorted (pooled_leb seed) scored))
      end
  end.

(** The generator [feasible_pairs]: what each of its steps gives. *)
Definition feasible_pairs (allowed : pair_allowed_fn) (trucks orders : list doc) :
  list (result (doc * doc)) :=
  omap (λ p, match allowed p.1 p.2 with
   | Ok true => Some (Ok p)
   | Ok false => None
   | Raise e => Some (Raise e)
   end) (list_prod trucks orders).

Definition greedy_solve (tiebreak : option Z) (allowed : pair_allowed_fn) (cost : cost_fn)
  (trucks orders : list doc) : eff rng assignment :=
  match trucks, orders with
  | [], _ | _, [] => mret []
  | _, _ => greedy_solve_pairs tiebreak (feasible_pairs allowed trucks orders) cost
  end.

(** ** The random solver: [random_assignment.py] *)

(** The loop over the shuffled orders. *)
Fixpoint random_loop (allowed : pair_allowed_fn) (trucks : list doc) (used : list pyval)
  (orders : list doc) : eff rng assignment :=
  match orders with
  | [] => mret []
  | o :: orders =>
      candidates ← lift (filterR (λ t,
      u ← in_set (doc_id t) used;
      if u : bool then Ok false else allowed t o) trucks);
      match candidates with
      | [] => random_loop allowed trucks used orders
      | _ => λ r,
      let '(shuffled, r') := shuffle r candidates in
      match shuffled with
      | [] => (Raise IndexError, r')
      | chosen :: _ =>
        (rest ← random_loop allowed trucks (used ++ [doc_id chosen]) orders;
         mret ((chosen, o) :: rest)) r'
      end
      end
  end.

Definition random_solve (allowed : pair_allowed_fn) (cost : cost_fn) (trucks orders : list doc) :
  eff rng assignment := λ r,
  let '(shuffled, r') := shuffle r orders in
  random_loop allowed trucks [] shuffled r'.
End Greedy.

(** [SOLVER_REGISTRY], [get_solver] *)
Inductive solver_name := RandomAssignment | GreedyNearest.

Definition SOLVER_REGISTRY : list (string * solver_name) :=
  [("RandomAssignment", RandomAssignment); ("GreedyNearest", GreedyNearest)].

Definition DEFAULT_SOLVER : string := "RandomAssignment".

Definition get_solver (name : option string) : solver_name :=
  let key := match name with
             | Some n => if decide (n = "") then DEFAULT_SOLVER else n
             | None => DEFAULT_SOLVER
             end in
  default RandomAssignment (d_get SOLVER_REGISTRY key).

Definition has_solve_pairs (s : solver_name) : bool :=
  match s with GreedyNearest => true | RandomAssignment => false end.

Definition solve `{PyText, Blake2b, Rng} (s : solver_name) (tiebreak : option Z) :
  pair_allowed_fn → cost_fn → list doc → list doc → eff rng assignment :=
  match s with
  | GreedyNearest => greedy_solve tiebreak
  | RandomAssignment => random_solve
  end.

(** ** The contract *)

(** REST documents carry string ids. *)
Definition has_id_str (d : doc) : Prop := ∃ s, doc_id d = PStr s.

Definition id_of (d : doc) : string := match doc_id d with PStr s => s | _ => "" end.

(** The class of solvers: pairs of given trucks and orders that passed the check,
    no truck and no order twice. *)
Class SolverLaws `{Rng}
  (slv : pair_allowed_fn → cost_fn → list doc → list doc → eff rng assignment) : Prop :=
  solve_sound allowed cost trucks orders r out r' :
    Forall has_id_str trucks → Forall has_id_str orders → NoDup (map id_of orders) →
    slv allowed cost trucks orders r = (Ok out, r') →
    (∀ t o, (t, o) ∈ out → t ∈ trucks ∧ o ∈ orders ∧ allowed t o = Ok true) ∧
    NoDup (map id_of (map fst out)) ∧ NoDup (map id_of (map snd out)).

(** ** Lemmas: the sweep *)

Lemma doc_id_of d : has_id_str d → doc_id d = PStr (id_of d).
Proof. unfold id_of. by intros [s ->]. Qed.

Lemma py_in_str s (l : list string) : py_in (PStr s) (map PStr l) = bool_decide (s ∈ l).
Proof.
  unfold py_in. apply eq_bool_prop_intro. rewrite bool_decide_spec, Is_true_true, existsb_exists.
  split.
  - intros (v & Hv & E). apply in_map_iff in Hv as (t & <- & Ht). simpl in E.
    apply bool_decide_eq_true in E as ->. by apply list_elem_of_In.
  - intros Hs. exists (PStr s). split; [by apply in_map, list_elem_of_In|].
    simpl. by apply bool_decide_eq_true.
Qed.

Definition row_ok (w : row) : Prop := has_id_str (row_truck w) ∧ has_id_str (row_order w).
Definition row_tid (w : row) : string := id_of (row_truck w).
Definition row_oid (w : row) : string := id_of (row_order w).
Definition row_pair (w : row) : doc * doc := (row_truck w, row_order w).

(** On documents with string ids the sweep never raises and is a greedy
    selection on truck and order ids. *)
Lemma sweep_rows_gsweep ut uo rows :
  Forall row_ok rows →
  sweep_rows (map PStr ut) (map PStr uo) rows =
  Ok (map row_pair (gsweep row_tid row_oid (λ _, true) (list_to_set ut) (list_to_set uo) rows)).
Proof.
  revert ut uo. induction rows as [|w rows IH]; intros ut uo Hok; simpl; [done|].
  apply Forall_cons in Hok as [[Ht Ho] Hok].
  rewrite (doc_id_of _ Ht), (doc_id_of _ Ho). unfold in_set. simpl. rewrite !py_in_str.
  fold (row_tid w) (row_oid w).
  destruct (bool_decide_reflect (row_tid w ∈ ut)) as [Hut|Hut].
  { rewrite decide_True by (left; by apply elem_of_list_to_set). by apply IH. }
  destruct (bool_decide_reflect (row_oid w ∈ uo)) as [Huo|Huo].
  { rewrite decide_True by (right; by apply elem_of_list_to_set). by apply IH. }
  rewrite decide_False by (rewrite !elem_of_list_to_set; tauto).
  specialize (IH (ut ++ [row_tid w]) (uo ++ [row_oid w]) Hok).
  rewrite !map_app in IH. simpl in IH. rewrite IH. simpl.
  do 3 f_equal. rewrite !list_to_set_app_L. simpl. f_equal; set_solver.
Qed.

Section SolverLemmas.
Context `{PyText, Blake2b, Rng}.

#[export] Instance legacy_total : TotalOn (λ w, not_nan (row_cost w)) legacy_leb.
Proof.
  assert (TotalOn (both not_nan (always (A := Z))) (pair_leb f_leb Z.leb)) as [T1 T2] by apply _.
  unfold legacy_leb, on_key. split; intros; [apply T1|eapply T2; eauto]; by split.
Qed.

#[export] Instance pooled_total seed : TotalOn (λ w, not_nan (row_cost w)) (pooled_leb seed).
Proof.
  assert (TotalOn (both not_nan (both (always (A := Z)) (always (A := Z))))
  (pair_leb f_leb (pair_leb Z.leb Z.leb))) as [T1 T2] by apply _.
  unfold pooled_leb, on_key.
  split; intros; [apply T1|eapply (T2 _ (pooled_key seed y)); eauto]; by repeat split.
Qed.

Lemma score_pair_spec cost p w :
  score_pair cost p = Ok w →
  row_pair w = p ∧ not_nan (row_cost w) ∧ (row_cost w = f_inf ∨ isfinite (row_cost w) = true) ∧
  (isfinite (row_cost w) = true → cost p.1 p.2 = Ok (row_cost w)) ∧
  (∀ c, cost p.1 p.2 = Ok c → isfinite c = true → row_cost w = c).
Proof.
  unfold score_pair, row_pair. destruct p as [t o]; simpl. intros Hs.
  assert (∃ c, (cost t o = Ok c ∨ c = f_inf ∧ ∀ c', cost t o ≠ Ok c') ∧
  w = Row (if isinf c || isnan c then f_inf else c) (if isinf c || isnan c then 1 else 0)%Z t o)
  as (c & Hc & ->).
  { destruct (cost t o) as [c|[]]; simpl in Hs; simplify_eq; eauto. }
  destruct Hc as [Hc|[-> Hc]]; [rewrite Hc; clear Hc; destruct c|]; split_and!; try done;
  try (by left); try (by right); intros c' Hc'; try (exfalso; by eapply Hc); by injection Hc' as <-.
Qed.

Lemma score_pairs_spec cost pairs rows :
  score_pairs cost pairs = Ok rows →
  map Ok (map row_pair rows) = pairs ∧
  Forall (λ w, score_pair cost (row_pair w) = Ok w) rows.
Proof.
  unfold score_pairs. revert rows. induction pairs as [|r pairs IH]; intros rows Hs; simpl in Hs.
  { injection Hs as <-. split; [done|constructor]. }
  destruct r as [p|]; simpl in Hs; [|done].
  destruct (score_pair cost p) as [w|] eqn:E; simpl in Hs; [|done].
  destruct (mapR _ pairs) as [ws|]; simpl in Hs; [|done]. injection Hs as <-.
  destruct (IH ws eq_refl) as [<- Hall]. destruct (score_pair_spec _ _ _ E) as [Hp _].
  simpl. rewrite Hp. split; [done|]. constructor; [by rewrite Hp|done].
Qed.

(** Both modes: a greedy selection from the rows in cost order. *)
Lemma greedy_solve_pairs_spec tb pairs cost r out r' :
  (∀ p, Ok p ∈ pairs → has_id_str p.1 ∧ has_id_str p.2) →
  greedy_solve_pairs tb pairs cost r = (Ok out, r') →
  ∃ rows leb l, score_pairs cost pairs = Ok rows ∧
  TotalOn (λ w, not_nan (row_cost w)) leb ∧
  (∀ w w', leb w w' = true → f_leb (row_cost w) (row_cost w') = true) ∧
  l ≡ₚ rows ∧ out = map row_pair (gsweep row_tid row_oid (λ _, true) ∅ ∅ (py_sorted leb l)) ∧
  (∀ seed, tb = Some seed → leb = pooled_leb seed ∧ l = rows ∧ r' = r).
Proof.
  intros Hids. unfold greedy_solve_pairs. unfold mbind, eff_bind, lift.
  destruct (score_pairs cost pairs) as [rows|] eqn:E; [|done].
  destruct (score_pairs_spec _ _ _ E) as [Hp _].
  assert (Forall row_ok rows) as Hok.
  { apply Forall_forall. intros w Hw. apply (Hids (row_pair w)). rewrite <-Hp, map_map.
  apply list_elem_of_fmap. by exists w. }
  assert (∀ leb l, l ≡ₚ rows → sweep_rows [] [] (py_sorted leb l) =
  Ok (map row_pair (gsweep row_tid row_oid (λ _, true) ∅ ∅ (py_sorted leb l)))) as Hsw.
  { intros leb l Hl. apply (sweep_rows_gsweep [] []). by rewrite py_sorted_perm, Hl. }
  assert (∀ w w', legacy_leb w w' = true → f_leb (row_cost w) (row_cost w') = true) as Hl1
  by (intros w w' Hl; unfold legacy_leb, on_key, pair_leb in Hl; simpl in Hl; by bools).
  assert (∀ seed w w', pooled_leb seed w w' = true → f_leb (row_cost w) (row_cost w') = true) as Hl2
  by (intros seed w w' Hl; unfold pooled_leb, on_key, pair_leb in Hl; simpl in Hl; by bools).
  destruct rows as [|w rows].
  { intros [= <- <-]. destruct tb as [seed|]; [exists [], (pooled_leb seed), []|exists [], legacy_leb, []].
  - split_and!; try done; [apply _|by apply Hl2|]. by intros ? [= <-].
  - split_and!; try done. apply _. }
  destruct tb as [seed|].
  - rewrite Hsw by done. intros [= <- <-]. exists (w :: rows), (pooled_leb seed), (w :: rows).
  split_and!; try done; [apply _|by apply Hl2|]. by intros ? [= <-].
  - pose proof (shuffle_perm r (w :: rows)) as Hsh.
  destruct (shuffle r (w :: rows)) as [l r1]. simpl in Hsh. rewrite Hsw by done.
  intros [= <- <-]. exists (w :: rows), legacy_leb, l. split_and!; try done. apply _.
Qed.
End SolverLemmas.

(** ** Lemmas: both solvers keep the contract *)

Lemma feasible_pairs_elem allowed trucks orders t o :
  Ok (t, o) ∈ feasible_pairs allowed trucks orders ↔ t ∈ trucks ∧ o ∈ orders ∧ allowed t o = Ok true.
Proof.
  unfold feasible_pairs. rewrite list_elem_of_omap. split.
  - intros ([t' o'] & Hin & Hal). simpl in Hal.
    apply list_elem_of_In, in_prod_iff in Hin as [Ht%list_elem_of_In Ho%list_elem_of_In].
    destruct (allowed t' o') as [[]|] eqn:E; [|done|done]. by injection Hal as -> ->.
  - intros (Ht & Ho & Hal). exists (t, o). simpl. rewrite Hal. split; [|done].
    apply list_elem_of_In, in_prod; by apply list_elem_of_In.
Qed.

Section Contract.
Context `{PyText, Blake2b, Rng}.

(** Selecting from scored rows keeps the pairs and the ids distinct. *)
Lemma greedy_pairs_sound tb pairs cost r out r' :
  (∀ p, Ok p ∈ pairs → has_id_str p.1 ∧ has_id_str p.2) →
  greedy_solve_pairs tb pairs cost r = (Ok out, r') →
  (∀ p, p ∈ out → Ok p ∈ pairs) ∧
  NoDup (map id_of (map fst out)) ∧ NoDup (map id_of (map snd out)).
Proof.
  intros Hids Hs.
  destruct (greedy_solve_pairs_spec _ _ _ _ _ _ Hids Hs) as (rows & leb & l & Hrows & _ & _ & Hl & -> & _).
  destruct (score_pairs_spec _ _ _ Hrows) as [Hp _].
  destruct (gsweep_NoDup row_tid row_oid (λ _, true) ∅ ∅ (py_sorted leb l)) as [N1 N2].
  rewrite !map_map. split; [|by split].
  intros p (w & -> & Hw)%list_elem_of_fmap. rewrite <-Hp, map_map. apply list_elem_of_fmap.
  exists w. split; [done|]. rewrite <-Hl, <-(py_sorted_perm leb).
  by eapply elem_of_sublist, gsweep_sublist.
Qed.

#[export] Instance greedy_laws tb : SolverLaws (greedy_solve tb).
Proof.
  intros allowed cost trucks orders r out r' Ht Ho _ Hs. unfold greedy_solve in Hs.
  assert ((out = [] ∧ r' = r) ∨
  greedy_solve_pairs tb (feasible_pairs allowed trucks orders) cost r = (Ok out, r')) as [[-> ->]|Hg].
  { destruct trucks; [by injection Hs as <- <-; left|]. destruct orders; [by injection Hs as <- <-; left|].
  by right. }
  { split; [by intros t o ?%elem_of_nil|]. split; constructor. }
  rewrite Forall_forall in Ht, Ho. apply greedy_pairs_sound in Hg as (Hin & N1 & N2).
  - split; [|done]. intros t o Hto. by apply Hin, feasible_pairs_elem in Hto.
  - intros [t o] (? & ? & ?)%feasible_pairs_elem. auto.
Qed.

Lemma in_set_str d used :
  has_id_str d → in_set (doc_id d) (map PStr used) = Ok (bool_decide (id_of d ∈ used)).
Proof. intros Hd. rewrite (doc_id_of _ Hd). unfold in_set. simpl. by rewrite py_in_str. Qed.

Lemma random_loop_sound allowed trucks used orders r out r' :
  Forall has_id_str trucks → Forall has_id_str orders →
  random_loop allowed trucks (map PStr used) orders r = (Ok out, r') →
  (∀ t o, (t, o) ∈ out → t ∈ trucks ∧ o ∈ orders ∧ allowed t o = Ok true ∧ id_of t ∉ used) ∧
  NoDup (map id_of (map fst out)) ∧ map snd out `sublist_of` orders.
Proof.
  intros Ht. revert used r out r'. induction orders as [|o orders IH]; intros used r out r' Ho Hs; simpl in Hs.
  { injection Hs as <- <-. split; [by intros t o ?%elem_of_nil|]. split; constructor. }
  apply Forall_cons in Ho as [Ho Hos]. unfold mbind, eff_bind, lift in Hs.
  destruct (filterR _ trucks) as [cands|] eqn:Ef; [|done].
  assert (∀ t, t ∈ cands → t ∈ trucks ∧ allowed t o = Ok true ∧ id_of t ∉ used) as Hc.
  { intros t Htc. apply (filterR_spec _ _ _ _ Ef) in Htc as [Hin Hf].
  rewrite Forall_forall in Ht. rewrite in_set_str in Hf by auto. simpl in Hf.
  destruct (bool_decide_reflect (id_of t ∈ used)); [done|]. auto. }
  assert (∀ used' r0 out0 r0', random_loop allowed trucks (map PStr used') orders r0 = (Ok out0, r0') →
  (∀ t o', (t, o') ∈ out0 → t ∈ trucks ∧ o' ∈ o :: orders ∧ allowed t o' = Ok true ∧ id_of t ∉ used') ∧
  NoDup (map id_of (map fst out0)) ∧ map snd out0 `sublist_of` orders) as Hrec.
  { intros used' r0 out0 r0' Hl. destruct (IH _ _ _ _ Hos Hl) as (H1' & H2' & H3').
  split_and!; [|done|done]. intros t o' Hto. destruct (H1' t o' Hto) as (? & ? & ? & ?).
  split_and!; [done|by right|done|done]. }
  destruct cands as [|c cands].
  { destruct (Hrec _ _ _ _ Hs) as (? & ? & ?). split_and!; [done|done|by constructor]. }
  pose proof (shuffle_perm r (c :: cands)) as Hp.
  destruct (shuffle r (c :: cands)) as [[|chosen l] r1]; simpl in Hp; [done|].
  destruct (Hc chosen) as (Hct & Hca & Hcu); [rewrite <-Hp; left|].
  assert (has_id_str chosen) as Hid by (rewrite Forall_forall in Ht; auto).
  rewrite (doc_id_of _ Hid) in Hs.
  destruct (random_loop allowed trucks _ orders r1) as [[rest|] r2] eqn:E; [|done].
  injection Hs as <- <-. replace (map PStr used ++ [PStr (id_of chosen)]) with
  (map PStr (used ++ [id_of chosen])) in E by (by rewrite map_app).
  destruct (Hrec _ _ _ _ E) as (Hr1 & Hr2 & Hr3). split_and!; simpl.
  - intros t o' [[= -> ->]|Hto]%elem_of_cons; [split_and!; [done|left|done|done]|].
  destruct (Hr1 t o' Hto) as (? & ? & ? & ?). set_solver.
  - apply NoDup_cons. split; [|done]. rewrite map_map.
  intros ([t o'] & E' & Hto)%list_elem_of_fmap. simpl in E'.
  destruct (Hr1 t o' Hto) as (_ & _ & _ & Hn). set_solver.
  - by constructor.
Qed.

#[export] Instance random_laws : SolverLaws random_solve.
Proof.
  intros allowed cost trucks orders r out r' Ht Ho Hnd Hs. unfold random_solve in Hs.
  pose proof (shuffle_perm r orders) as Hp. destruct (shuffle r orders) as [l r1]. simpl in Hp.
  apply (random_loop_sound allowed trucks [] l) in Hs as (Hin & N1 & Hsub); [|done|by rewrite Hp].
  split_and!; [|done|].
  - intros t o Hto. destruct (Hin t o Hto) as (? & Hol & ? & _). by rewrite Hp in Hol.
  - apply (sublist_NoDup _ (map id_of l)); [by rewrite Hp|by apply (fmap_sublist id_of)].
Qed.

#[export] Instance solve_laws s tb : SolverLaws (solve s tb).
Proof. destruct s; apply _. Qed.

Lemma score_pairs_perm cost pairs pairs' rows :
  score_pairs cost pairs = Ok rows → pairs ≡ₚ pairs' →
  ∃ rows', score_pairs cost pairs' = Ok rows' ∧ rows ≡ₚ rows'.
Proof.
  unfold score_pairs. intros Hs Hp. revert rows Hs.
  induction Hp as [|a l l' Hp IH|a b l|l1 l2 l3 _ IH1 _ IH2]; intros rows Hs; simpl in *.
  - eauto.
  - destruct (a ≫= _) as [w|]; simpl in *; [|done]. destruct (mapR _ l) as [ws|]; simpl in *; [|done].
  injection Hs as <-. destruct (IH ws eq_refl) as (ws' & -> & Hw). simpl. exists (w :: ws').
  split; [done|by constructor].
  - destruct (b ≫= _) as [w|]; simpl in *; [|done]. destruct (a ≫= _) as [w'|]; simpl in *; [|done].
  destruct (mapR _ l) as [ws|]; simpl in *; [|done]. injection Hs as <-. eexists.
  split; [done|]. apply Permutation_swap.
  - destruct (IH1 _ Hs) as (r2 & H2 & ?). destruct (IH2 _ H2) as (r3 & ? & ?).
  exists r3. split; [done|]. by etrans.
Qed.

(** ** Properties *)

(** every solver of the registry, in either tie-break mode, keeps the contract:
it returns only pairs of given trucks and orders that passed the feasibility
check, and never assigns one truck or one order twice. *)
Theorem solver_contract s tb allowed cost trucks orders r out r' :
  Forall has_id_str trucks → Forall has_id_str orders → NoDup (map id_of orders) →
  solve s tb allowed cost trucks orders r = (Ok out, r') →
  (∀ t o, (t, o) ∈ out → t ∈ trucks ∧ o ∈ orders ∧ allowed t o = Ok true) ∧
  NoDup (map id_of (map fst out)) ∧ NoDup (map id_of (map snd out)).
Proof. apply solve_sound. Qed.

(** the greedy matching is stable.  Every candidate pair with a known cost is
either assigned or loses its truck or its order to an assigned candidate pair
that costs no more, in the shuffled mode as in the hashed one. *)
Theorem greedy_stable tb pairs cost r out r' t o c :
  (∀ p, Ok p ∈ pairs → has_id_str p.1 ∧ has_id_str p.2) →
  greedy_solve_pairs tb pairs cost r = (Ok out, r') →
  Ok (t, o) ∈ pairs → cost t o = Ok c → isfinite c = true →
  ∃ t' o' c', (t', o') ∈ out ∧ Ok (t', o') ∈ pairs ∧ cost t' o' = Ok c' ∧ f_leb c' c = true ∧
  (id_of t' = id_of t ∨ id_of o' = id_of o).
Proof.
  intros Hids Hs Hin Hc Hf.
  destruct (greedy_solve_pairs_spec _ _ _ _ _ _ Hids Hs)
  as (rows & leb & l & Hrows & Htot & Hleb & Hl & -> & _).
  destruct (score_pairs_spec _ _ _ Hrows) as [Hp Hsc]. rewrite Forall_forall in Hsc.
  rewrite <-Hp, map_map in Hin. apply list_elem_of_fmap in Hin as (w & Ew & Hw).
  injection Ew as Et Eo. destruct (score_pair_spec _ _ _ (Hsc w Hw)) as (_ & _ & _ & _ & Hwc).
  assert (row_cost w = c) as Hcw by (apply Hwc; [by rewrite Et in Hc; rewrite Eo in Hc|done]).
  destruct (gsweep_stable row_tid row_oid (λ _, true) leb (λ w, not_nan (row_cost w)) l w)
  as (a & Ha & Hsw & Hla & E); [done| |by rewrite Hl|done|].
  { apply Forall_forall. intros x Hx. rewrite Hl in Hx. apply (score_pair_spec _ _ _ (Hsc x Hx)). }
  rewrite Hl in Ha. destruct (score_pair_spec _ _ _ (Hsc a Ha)) as (_ & _ & Hfin & Hcost & _).
  assert (f_leb (row_cost a) c = true) as Hac by (rewrite <-Hcw; by apply Hleb).
  assert (isfinite (row_cost a) = true) as Hfa.
  { destruct Hfin as [Hi|?]; [|done]. rewrite Hi in Hac. by destruct c as [|[]| |[]]. }
  exists (row_truck a), (row_order a), (row_cost a). split_and!.
  - apply list_elem_of_fmap. by exists a.
  - rewrite <-Hp, map_map. apply list_elem_of_fmap. by exists a.
  - by apply Hcost.
  - done.
  - unfold row_tid, row_oid in E. by rewrite Et, Eo.
Qed.

(** Pairs that tie in cost and in the hash. *)
Definition ties (cost : cost_fn) (seed : Z) (p p' : doc * doc) : Prop :=
  ∃ w w', score_pair cost p = Ok w ∧ score_pair cost p' = Ok w' ∧
  pooled_leb seed w w' = true ∧ pooled_leb seed w' w = true.

(** with a tie-break seed the greedy matching does not depend on the order of
the candidate pairs, as long as no two of them tie both in cost and in the
hash of their ids. *)
Theorem greedy_order_independent seed pairs pairs' cost r :
  (∀ p, Ok p ∈ pairs → has_id_str p.1 ∧ has_id_str p.2) →
  (∀ p p', Ok p ∈ pairs → Ok p' ∈ pairs → ties cost seed p p' → p = p') →
  is_ok (score_pairs cost pairs) = true → pairs ≡ₚ pairs' →
  greedy_solve_pairs (Some seed) pairs cost r = greedy_solve_pairs (Some seed) pairs' cost r.
Proof.
  intros Hids Hties Hok Hperm.
  destruct (score_pairs cost pairs) as [rows|] eqn:E; [|done].
  destruct (score_pairs_perm _ _ _ _ E Hperm) as (rows' & E' & Hrows).
  destruct (score_pairs_spec _ _ _ E) as [Hp Hsc]. rewrite Forall_forall in Hsc.
  assert (∀ w, w ∈ rows → Ok (row_pair w) ∈ pairs) as Hin.
  { intros w Hw. rewrite <-Hp, map_map. apply list_elem_of_fmap. by exists w. }
  assert (py_sorted (pooled_leb seed) rows = py_sorted (pooled_leb seed) rows') as Hs.
  { apply (py_sorted_unique _ (λ w, not_nan (row_cost w))); [| |done].
  - apply Forall_forall. intros w Hw. apply (score_pair_spec _ _ _ (Hsc w Hw)).
  - intros w w' Hw Hw' L1 L2.
  assert (row_pair w = row_pair w') as Hww by (apply Hties; auto; by exists w, w'; auto).
  pose proof (Hsc w Hw) as S1. pose proof (Hsc w' Hw') as S2. rewrite Hww in S1. congruence. }
  unfold greedy_solve_pairs, mbind, eff_bind, lift. rewrite E, E'.
  destruct rows as [|w rows], rows' as [|w' rows']; try done.
  - by apply Permutation_nil_cons in Hrows.
  - symmetry in Hrows. by apply Permutation_nil_cons in Hrows.
  - by rewrite Hs.
Qed.
End Contract.

(** ** Examples *)

(** Two trucks and one order, at costs 3 and 5. *)
Definition doc_named (s : string) : doc := Doc [("_id", PStr s)] [].
Definition t_near : doc := doc_named "t1".
Definition t_far : doc := doc_named "t2".
Definition an_order : doc := doc_named "o1".
Definition example_cost : cost_fn := λ t _, Ok (if decide (id_of t = "t1") then f_of_Z 3 else f_of_Z 5).
Definition example_pairs : list (result (doc * doc)) := [Ok (t_far, an_order); Ok (t_near, an_order)].

Lemma has_id_named s : has_id_str (doc_named s).
Proof. by exists s. Qed.

Lemma example_pairs_ids p : Ok p ∈ example_pairs → has_id_str p.1 ∧ has_id_str p.2.
Proof.
  intros [E|[E|E%elem_of_nil]%elem_of_cons]%elem_of_cons; [| |done];
    injection E as ->; split; apply has_id_named.
Qed.

Lemma solver_contract_witness :
  NoDup (map id_of (map fst [(t_near, an_order)])).
Proof.
  refine (proj1 (proj2 (solver_contract (H := no_text) (H0 := zero_hash) (H1 := zero_rng) GreedyNearest
    (Some 7%Z) (λ _ _, Ok true) example_cost [t_far; t_near] [an_order] tt [(t_near, an_order)] tt _ _ _ _))).
  - repeat constructor; apply has_id_named.
  - repeat constructor; apply has_id_named.
  - apply NoDup_singleton.
  - vm_compute. reflexivity.
Defined.

Lemma greedy_stable_witness :
  ∃ t' o' c', (t', o') ∈ [(t_near, an_order)] ∧ example_cost t' o' = Ok c' ∧ f_leb c' (f_of_Z 5) = true.
Proof.
  destruct (greedy_stable (H := no_text) (H0 := zero_hash) (H1 := zero_rng) None example_pairs example_cost tt
    [(t_near, an_order)] tt t_far an_order (f_of_Z 5)) as (t' & o' & c' & Hin & _ & Hc & Hl & _).
  - exact example_pairs_ids.
  - vm_compute. reflexivity.
  - left.
  - vm_compute. reflexivity.
  - reflexivity.
  - exists t', o', c'. split; [exact Hin|]. split; [exact Hc|exact Hl].
Defined.

Lemma greedy_order_independent_witness :
  greedy_solve_pairs (H := no_text) (H0 := zero_hash) (H1 := zero_rng) (Some 7%Z) example_pairs example_cost tt =
  greedy_solve_pairs (H := no_text) (H0 := zero_hash) (H1 := zero_rng) (Some 7%Z)
    [Ok (t_near, an_order); Ok (t_far, an_order)] example_cost tt.
Proof.
  apply (greedy_order_independent (H := no_text) (H0 := zero_hash) (H1 := zero_rng)).
  - exact example_pairs_ids.
  - intros p p' [E|[E|E%elem_of_nil]%elem_of_cons]%elem_of_cons
      [E'|[E'|E'%elem_of_nil]%elem_of_cons]%elem_of_cons; try done; injection E as ->; injection E' as ->;
      try done; intros (w & w' & S1 & S2 & L1 & L2); vm_compute in S1, S2; injection S1 as <-;
      injection S2 as <-; vm_compute in L1, L2; discriminate.
  - vm_compute. reflexivity.
  - apply Permutation_swap.
Defined.
