(* ===== verification/Policies.v ===== *)
(** A company's decisions: which orders to contribute ([policy/offer.py]) and
    which pooled orders to bid for ([policy/claim.py]). *)

From S2P Require Import Prelude PyValue Tiebreak Pools Constraints Solver.

(** What [offer] returns: a dictionary from order ids to pool ids, in insertion
    order, or something that is not a dictionary. *)
Inductive offer_answer :=
| Offers (d : list (string * list string))
| NotADict.

(** [BaseOfferPolicy.offer] *)
Abbreviation offer_fn R :=
  (string → list doc → list doc → list pool → cost_fn → eff R offer_answer).

(** [BaseClaimPolicy.bids]: haulier, pooled pairs, own pairs, cost, market, round. *)
Abbreviation claim_fn R :=
  (string → assignment → assignment → cost_fn → market → Z → eff R (list bid)).

Section Policies.
Context `{PyText}.

(** ** Offering *)

(** [_own_orders] *)
Definition own_orders (haulier_id : string) (orders : list doc) : list (string * doc) :=
  omap (λ o,
  if py_in (doc_id o) [PNone; PStr ""] then None
  else if bool_decide (haulier_of o = None ∨ haulier_of o = Some haulier_id)
   then Some (py_str (doc_id o), o) else None) orders.

(** [_cheapest_feasible_cost] *)
Definition cheapest_feasible_cost (order : doc) (trucks : list doc) (cost : cost_fn) : float64 :=
  foldl (λ best truck, match cost truck order with
             | Ok c => if f_ltb c best then c else best
             | Raise _ => best
             end) f_inf trucks.

Definition sorted_pool_ids (ps : list pool) : list string :=
  py_sorted String.leb (map pool_id ps).

(** [OfferAllPolicy.offer] *)
Definition offer_all (haulier_id : string) (orders trucks : list doc) (ps : list pool) (cost : cost_fn) :
  list (string * list string) :=
  match sorted_pool_ids ps with
  | [] => []
  | pids => foldl (λ d p, d_set d p.1 pids) [] (own_orders haulier_id orders)
  end.

(** [OfferSparePolicy]: the threshold. *)
Definition keep_below_km (params : pydict) : result float64 :=
  match py_float (get_or params "keep_below_km" (PFloat f_inf)) with
  | Raise TypeError | Raise ValueError => Ok f_inf
  | r => r
  end.

(** Whether an order is spare, with the fleet's size and the threshold known. *)
Definition is_spare (short : bool) (keep_below : float64) (trucks : list doc) (cost : cost_fn)
  (order : doc) : bool :=
  short ||
  (let best := cheapest_feasible_cost order trucks cost in
   f_eqb best f_inf || f_ltb keep_below best).

(** [OfferSparePolicy.offer] *)
Definition offer_spare (params : pydict) (haulier_id : string) (orders trucks : list doc)
  (ps : list pool) (cost : cost_fn) : result (list (string * list string)) :=
  match sorted_pool_ids ps with
  | [] => Ok []
  | pids =>
      let own := own_orders haulier_id orders in
      keep_below ← keep_below_km params;
      let only_when_short := truth (get_or params "only_when_short" (PBool true)) in
      let short := only_when_short && (length trucks <? length own)%nat in
      Ok (foldl (λ d p, if is_spare short keep_below trucks cost p.2 then d_set d p.1 pids else d) [] own)
  end.

Inductive offer_policy := OfferAll | OfferNone | OfferSpare.

Definition OFFER_REGISTRY : list (string * offer_policy) :=
  [("OfferAll", OfferAll); ("OfferNone", OfferNone); ("OfferSpare", OfferSpare)].

(** [get_offer_policy] *)
Definition get_offer_policy (name : option string) : offer_policy :=
  let key := match name with
   | Some n => if decide (n = "") then "OfferAll" else n
   | None => "OfferAll"
   end in
  default OfferAll (d_get OFFER_REGISTRY key).

Definition offer {R} (p : offer_policy) (params : pydict) : offer_fn R :=
  λ haulier_id orders trucks ps cost, lift
  match p with
  | OfferAll => Ok (Offers (offer_all haulier_id orders trucks ps cost))
  | OfferNone => Ok (Offers [])
  | OfferSpare => d ← offer_spare params haulier_id orders trucks ps cost; Ok (Offers d)
  end.

(** ** Claiming *)

(** [_ids] *)
Definition pair_ids (p : doc * doc) : option (string * string) :=
  if py_in (doc_id p.1) [PNone; PStr ""] then None
  else if py_in (doc_id p.2) [PNone; PStr ""] then None
  else Some (py_str (doc_id p.1), py_str (doc_id p.2)).

(** [_cost_km] *)
Definition cost_km (cost : cost_fn) (truck order : doc) : float64 := catch (cost truck order) f_inf.

Definition bid_for (haulier_id : string) (cost : cost_fn) (m : market) (round : Z) (p : doc * doc) :
  option bid :=
  '(tid, oid) ← pair_ids p;
  Some (Bid haulier_id oid tid (cost_km cost p.1 p.2) (pool_of_order m oid haulier_id) round).

(** [ClaimAllPlannedPolicy.bids] *)
Definition claim_all_planned (haulier_id : string) (pooled_pairs : assignment) (cost : cost_fn)
  (m : market) (round : Z) : list bid :=
  omap (bid_for haulier_id cost m round) pooled_pairs.

(** [ClaimIfGainExceedsPolicy]: the threshold and the gain of a pair. *)
Definition min_gain_km (params : pydict) : result float64 :=
  match py_float (get_or params "min_gain_km" (PFloat f_zero)) with
  | Raise TypeError | Raise ValueError => Ok f_zero
  | r => r
  end.

Definition best_own (cost : cost_fn) (truck : doc) (own : list doc) : float64 :=
  foldl (λ best o, let c := cost_km cost truck o in if f_ltb c best then c else best) f_inf own.

Definition gain (cost : cost_fn) (own : list doc) (p : doc * doc) : float64 :=
  match own with
  | [] => f_inf
  | _ => f_sub (best_own cost p.1 own) (cost_km cost p.1 p.2)
  end.

(** [ClaimIfGainExceedsPolicy.bids] *)
Definition claim_if_gain_exceeds (params : pydict) (haulier_id : string)
  (pooled_pairs own_pairs : assignment) (cost : cost_fn) (m : market) (round : Z) : result (list bid) :=
  min_gain ← min_gain_km params;
  Ok (omap (λ p, if f_ltb (gain cost (map snd own_pairs) p) min_gain then None
       else bid_for haulier_id cost m round p) pooled_pairs).

Inductive claim_policy := ClaimAllPlanned | ClaimNone | ClaimIfGainExceeds.

Definition CLAIM_REGISTRY : list (string * claim_policy) :=
  [("ClaimAllPlanned", ClaimAllPlanned); ("ClaimNone", ClaimNone);
   ("ClaimIfGainExceeds", ClaimIfGainExceeds)].

(** [get_claim_policy] *)
Definition get_claim_policy (name : option string) : claim_policy :=
  let key := match name with
   | Some n => if decide (n = "") then "ClaimAllPlanned" else n
   | None => "ClaimAllPlanned"
   end in
  default ClaimAllPlanned (d_get CLAIM_REGISTRY key).

Definition bids {R} (p : claim_policy) (params : pydict) : claim_fn R :=
  λ haulier_id pooled_pairs own_pairs cost m round, lift
  match p with
  | ClaimAllPlanned => Ok (claim_all_planned haulier_id pooled_pairs cost m round)
  | ClaimNone => Ok []
  | ClaimIfGainExceeds =>
      claim_if_gain_exceeds params haulier_id pooled_pairs own_pairs cost m round
  end.

(** ** Lemmas *)

Lemma fold_d_set_spec {V} (f : string * doc → bool) (v : V) l d k :
  d_get (foldl (λ d p, if f p then d_set d p.1 v else d) d l) k =
  if decide (k ∈ map fst (filter (λ p, f p = true) l)) then Some v else d_get d k.
Proof.
  revert d. induction l as [|p l IH]; intros d; simpl.
  { done. }
  rewrite IH. destruct (f p) eqn:E.
  - rewrite filter_cons_True by done. rewrite d_get_set. simpl.
  repeat case_decide; try done; set_solver.
  - by rewrite filter_cons_False by congruence.
Qed.

Lemma cheapest_not_nan order trucks cost : not_nan (cheapest_feasible_cost order trucks cost).
Proof.
  unfold cheapest_feasible_cost. apply (foldl_invariant _ not_nan); [|done].
  intros best t _ Hb. destruct (cost t order) as [c|]; [|done].
  destruct (f_ltb c best) eqn:E; [|done]. unfold not_nan in *. by destruct c, best.
Qed.

(** ** Properties *)

(** OfferSpare offers a part of what OfferAll offers, and says which.  Both
offer only orders of the company, each to all its pools; a company short of
trucks offers everything, and otherwise it keeps exactly the orders that some
truck of its can serve within the threshold. *)
Theorem offer_spare_within_all params h orders trucks ps cost keep d o :
  keep_below_km params = Ok keep → offer_spare params h orders trucks ps cost = Ok d →
  let all := offer_all h orders trucks ps cost in
  let short := truth (get_or params "only_when_short" (PBool true)) &&
     (length trucks <? length (own_orders h orders))%nat in
  (d_get all o = if decide (ps ≠ [] ∧ o ∈ map fst (own_orders h orders))
       then Some (sorted_pool_ids ps) else None) ∧
  (is_Some (d_get d o) → d_get d o = d_get all o) ∧
  (is_Some (d_get d o) ↔ ps ≠ [] ∧ ∃ order, (o, order) ∈ own_orders h orders ∧
   (short = true ∨
  let best := cheapest_feasible_cost order trucks cost in
  best = f_inf ∨ f_ltb keep best = true)).
Proof.
  intros Hk Hd. assert (sorted_pool_ids ps = [] ↔ ps = []) as Hps.
  { unfold sorted_pool_ids. split; [|by intros ->]. intros E.
  assert (map pool_id ps ≡ₚ []) as Hp by (by rewrite <-E, py_sorted_perm).
  apply Permutation_nil_r in Hp. by destruct ps. }
  unfold offer_spare, offer_all in *. cbv zeta.
  destruct (sorted_pool_ids ps) as [|pid pids] eqn:Ep.
  { injection Hd as <-. assert (ps = []) as Hnil by tauto.
  rewrite decide_False by tauto. simpl. split_and!; [done|by intros []|]. split; [by intros []|naive_solver]. }
  assert (ps ≠ []) as Hne by (intros E; by apply Hps in E).
  rewrite Hk in Hd. simpl in Hd. injection Hd as <-.
  set (short := truth _ && _). set (own := own_orders h orders).
  rewrite (fold_d_set_spec (λ p, is_spare short keep trucks cost p.2)).
  pose proof (fold_d_set_spec (λ _, true) (pid :: pids) own [] o) as Hall. simpl in Hall.
  assert (filter (λ _ : string * doc, true = true) own = own) as Hf.
  { clear. induction own as [|p own IH]; [done|]. rewrite filter_cons. by rewrite decide_True, IH. }
  rewrite Hf in Hall. rewrite Hall. simpl.
  assert (∀ p, is_spare short keep trucks cost p = true ↔ short = true ∨
  cheapest_feasible_cost p trucks cost = f_inf ∨
  f_ltb keep (cheapest_feasible_cost p trucks cost) = true) as Hsp.
  { intros p. unfold is_spare. rewrite !orb_true_iff.
  assert (f_eqb (cheapest_feasible_cost p trucks cost) f_inf = true ↔
  cheapest_feasible_cost p trucks cost = f_inf) as ->; [|tauto].
  destruct (cheapest_feasible_cost p trucks cost) as [|[]| |[]]; done. }
  assert (o ∈ map fst (filter (λ p : string * doc, is_spare short keep trucks cost p.2 = true) own) ↔
  ∃ order, (o, order) ∈ own ∧ (short = true ∨ cheapest_feasible_cost order trucks cost = f_inf ∨
  f_ltb keep (cheapest_feasible_cost order trucks cost) = true)) as Hin.
  { split.
  - intros ([o' order] & -> & [? ?]%list_elem_of_filter)%list_elem_of_fmap.
  exists order. split; [done|]. by apply Hsp.
  - intros (order & ? & ?%Hsp). apply list_elem_of_fmap. exists (o, order).
  split; [done|]. by apply list_elem_of_filter. }
  split_and!.
  - apply decide_ext. tauto.
  - intros Hd%is_Some_decide. rewrite decide_True by done. rewrite decide_True; [done|].
  apply Hin in Hd as (order & ? & _). apply list_elem_of_fmap. by exists (o, order).
  - rewrite is_Some_decide, <-Hin. tauto.
Qed.

(** a claim policy only drops bids.  Whatever the policy, its bids are a
sublist of the bids ClaimAllPlanned makes on the same pairs, so they keep the
planner's truck-disjointness; and ClaimIfGainExceeds keeps exactly the bids
whose gain is not below its threshold, all of them without own work. *)
Theorem claims_within_planned {R} policy params h pooled own cost m round (r : R) out r' :
  bids policy params h pooled own cost m round r = (Ok out, r') →
  let planned := claim_all_planned h pooled cost m round in
  out `sublist_of` planned ∧ r' = r ∧
  (policy = ClaimIfGainExceeds → ∃ min_gain, min_gain_km params = Ok min_gain ∧
   (own = [] → out = planned) ∧
   ∀ b, b ∈ out ↔ ∃ p, p ∈ pooled ∧ bid_for h cost m round p = Some b ∧
   f_ltb (gain cost (map snd own) p) min_gain = false).
Proof.
  unfold bids, lift. intros Hb. cbv zeta.
  destruct policy; [injection Hb as <- <-; done|injection Hb as <- <-|].
  { split_and!; [apply sublist_nil_l|done|done]. }
  unfold claim_if_gain_exceeds in Hb.
  destruct (min_gain_km params) as [g|]; simpl in Hb; [|done]. injection Hb as <- <-.
  split; [|split; [done|]].
  - unfold claim_all_planned. induction pooled as [|p pooled IH]; simpl; [done|].
  destruct (f_ltb _ g); destruct (bid_for h cost m round p); by constructor || done.
  - intros _. exists g. split; [done|]. split.
  + intros ->. unfold claim_all_planned. simpl.
  assert (f_ltb f_inf g = false) as Hg by (by destruct g as [|[]| |[]]).
  by rewrite Hg.
  + intros b. rewrite list_elem_of_omap. split.
  * intros (p & Hp & E). destruct (f_ltb _ g) eqn:Eg; [done|]. eauto.
  * intros (p & Hp & E & Eg). exists p. split; [done|]. by rewrite Eg.
Qed.
End Policies.

(** ** Examples *)

Definition example_pools : list pool := [Pool "p:a+b" {["a"; "b"]}].

(** A company with one truck and one order it serves at 3 km keeps the order. *)
Lemma offer_spare_within_all_witness :
  d_get (offer_all (H := no_text) "a" [an_order] [t_near] example_pools example_cost) "o1" =
  Some (sorted_pool_ids example_pools).
Proof.
  refine (proj1 (offer_spare_within_all (H := no_text) [] "a" [an_order] [t_near] example_pools example_cost
    f_inf [] "o1" _ _)); vm_compute; reflexivity.
Defined.

Lemma claims_within_planned_witness :
  claim_all_planned (H := no_text) "a" [(t_near, an_order)] example_cost (new_market []) 1 `sublist_of`
  claim_all_planned (H := no_text) "a" [(t_near, an_order)] example_cost (new_market []) 1.
Proof.
  refine (proj1 (claims_within_planned (H := no_text) ClaimIfGainExceeds [] "a" [(t_near, an_order)] []
    example_cost (new_market []) 1 tt
    (claim_all_planned (H := no_text) "a" [(t_near, an_order)] example_cost (new_market []) 1) tt _)).
  vm_compute. reflexivity.
Defined.
