(* ===== verification/PooledPlanner.v ===== *)
(** The pooled planner: one assignment tick of cooperating companies
    ([assignment/pooled_planner.py]).  The companies' solver, offer and claim
    policies are arbitrary; the framework's own steps are definitions. *)

From Stdlib Require Import SpecFloat.
From S2P Require Import Prelude PyValue Tiebreak Pools Arbitration Constraints Spatial Solver Policies.
Open Scope Z_scope.

(** ** Configuration: [resolve_market_config] *)

Definition DEFAULT_MAX_ROUNDS : Z := 20.
Definition MAX_ROUNDS_CEILING : Z := 100.

(** [max(1, min(MAX_ROUNDS_CEILING, n))] *)
Definition clamp_rounds (n : Z) : Z := Z.max 1 (Z.min MAX_ROUNDS_CEILING n).

Record role := Role { role_type : string; role_params : pydict }.

Record market_config := MarketConfig {
  cfg_offer : role;
  cfg_claim : role;
  cfg_arbitration : role;
  cfg_max_rounds : Z;
}.

Definition market_role `{PyText} (m : pydict) (name default_type : string) : role :=
  match get m name with
  | PDict raw =>
      let rtype := get raw "type" in
      Role (if truth rtype then py_str rtype else default_type)
           (match get raw "params" with PDict ps => ps | _ => [] end)
  | _ => Role default_type []
  end.

Definition resolve_market_config `{PyText} (planner : pyval) : result market_config :=
  let m := match planner with
           | PDict d => match get d "market" with PDict m => m | _ => [] end
           | _ => []
           end in
  n ← match py_int (get_or m "max_rounds" (PInt DEFAULT_MAX_ROUNDS)) with
      | Raise TypeError | Raise ValueError => Ok DEFAULT_MAX_ROUNDS
      | r => r
      end;
  Ok (MarketConfig (market_role m "offer" "OfferAll") (market_role m "claim" "ClaimAllPlanned")
        (market_role m "arbitration" DEFAULT_ARBITRATION_RULE) (clamp_rounds n)).

(** ** The context and the inputs *)

(** [PooledPlannerContext], with the facility settings the geometry reads. *)
Record planner_ctx `{Rng} := PlannerCtx {
  ctx_facs : list pydict;
  (** [None] for a solver without [solve_pairs] *)
  ctx_solve_pairs : option (assignment → cost_fn → eff rng assignment);
  ctx_solve : pair_allowed_fn → cost_fn → list doc → list doc → eff rng assignment;
  ctx_offer : offer_fn rng;
  ctx_claim : claim_fn rng;
  ctx_resolve : list bid → market → Z → (string → option string) → rng → list award * rng;
  ctx_max_rounds : Z;
  pair_allowed_own : pair_allowed_fn;
  pair_allowed_pooled : pair_allowed_fn;
  ctx_cost : cost_fn;
  tick_seed : Z;
  cell_deg : float64;
  per_order : Z;
  max_rings : Z;
  use_spatial : bool;
  max_trucks_per_haulier : nat;
}.

Section Planner.
Context `{PyText, Rng}.

(** [_entity_id] *)
Definition entity_id (d : doc) : string := py_str (doc_id d).

(** Documents of a haulier. *)
Abbreviation fleet := (gmap string (list doc)).

Definition docs_of (f : fleet) (h : string) : list doc := default [] (f !! h).

(** [(id, document, haulier)] of all documents, hauliers in sorted order. *)
Definition listing (f : fleet) : list (string * (doc * string)) :=
  concat (map (λ h, map (λ d, (entity_id d, (d, h))) (docs_of f h))
  (filter (λ h, h ≠ "") (sorted_strings (dom f)))).

(** [orders_by_id], [trucks_by_id] *)
Definition by_id (f : fleet) : gmap string doc :=
  foldl (λ m p, <[p.1 := p.2.1]> m) ∅ (listing f).

(** [owner_by_order_id] *)
Definition owner_by_id (f : fleet) : gmap string string :=
  foldl (λ m p, <[p.1 := p.2.2]> m) ∅ (listing f).

(** [company_ids] *)
Definition company_ids (trucks orders : fleet) : list string :=
  filter (λ h, h ≠ "") (sorted_strings (dom trucks ∪ dom orders)).

(** ** The shadow price: [owner_reserve_km] *)

Definition reserve_loop (order : doc) (committed : gset string) (allowed : pair_allowed_fn) (cost : cost_fn)
  (best : option float64) (truck : doc) : result (option float64) :=
  if decide (entity_id truck ∈ committed) then Ok best
  else
  ok ← allowed truck order;
  if negb ok then Ok best
  else
  c ← cost truck order;
  if f_eqb c f_inf || isnan c then Ok best
  else
  match best with
  | None => Ok (Some c)
  | Some b => Ok (Some (if f_ltb c b then c else b))
  end.

Definition owner_reserve_km (order : doc) (owner_trucks : list doc) (committed : gset string)
  (allowed : pair_allowed_fn) (cost : cost_fn) : result (option float64) :=
  foldR (reserve_loop order committed allowed cost) None owner_trucks.

(** [_finite_or_none] *)
Definition finite_or_none (f : float64) : option float64 := if isfinite f then Some f else None.

(** ** Candidates of a round: [build_round_candidates] *)

Context (ctx : planner_ctx).

(** [_pair_allowed_for(carrier)] *)
Definition pair_allowed_for (carrier : string) : pair_allowed_fn := λ t o,
  if decide (haulier_of o = Some carrier) then pair_allowed_own ctx t o
  else pair_allowed_pooled ctx t o.

(** Python's comparison of tuples of strings. *)
Fixpoint tuple_leb (l l' : list string) : bool :=
  match l, l' with
  | [], _ => true
  | _, [] => false
  | x :: l, y :: l' => if decide (x = y) then tuple_leb l l' else String.leb x y
  end.

(** The orders grouped by the set of hauliers that may carry them. *)
Definition carrier_groups (m : market) (owners : gmap string string) (free_orders : list doc) :
  list (gset string * list doc) :=
  foldl (λ groups o,
  match owners !! entity_id o with
  | None => groups
  | Some owner =>
      let carriers := eligible_carriers m (entity_id o) owner in
      d_set groups carriers (default [] (d_get groups carriers) ++ [o])
  end) [] free_orders.

Definition carrier_allowed : pair_allowed_fn := λ t o,
  match haulier_of t with
  | None => Ok false
  | Some carrier => pair_allowed_for carrier t o
  end.

(** One pair filed under its truck's haulier. *)
Definition file_pair (by_carrier : gmap string assignment) (p : doc * doc) : gmap string assignment :=
  match haulier_of p.1 with
  | None => by_carrier
  | Some c => <[c := default [] (by_carrier !! c) ++ [p]]> by_carrier
  end.

Definition group_candidates (free_trucks : string → list doc) (by_carrier : gmap string assignment)
  (group : gset string * list doc) : result (gmap string assignment) :=
  let union_trucks := concat (map free_trucks (sorted_strings group.1)) in
  match union_trucks with
  | [] => Ok by_carrier
  | _ =>
      pairs ← iter_candidate_pairs (ctx_facs ctx) carrier_allowed (cell_deg ctx) (per_order ctx)
          (max_rings ctx) union_trucks group.2;
      Ok (foldl file_pair by_carrier pairs)
  end.

Definition build_round_candidates (free_trucks : string → list doc) (free_orders : list doc)
  (m : market) (owners : gmap string string) : result (gmap string assignment) :=
  foldR (group_candidates free_trucks) ∅
  (py_sorted (on_key (λ g, sorted_strings g.1) tuple_leb) (carrier_groups m owners free_orders)).

(** ** One company's solve: [_solve_company] *)

Definition by_pairs : option (assignment → cost_fn → eff rng assignment) :=
  if use_spatial ctx then ctx_solve_pairs ctx else None.

Definition solve_company (trucks orders : list doc) (allowed : pair_allowed_fn)
  (prebuilt : assignment) : eff rng assignment :=
  match by_pairs with
  | Some slv =>
      match prebuilt with
      | [] => mret []
      | _ => slv prebuilt (ctx_cost ctx)
      end
  | None =>
      match trucks, orders with
      | [], _ | _, [] => mret []
      | _, _ => λ r,
      let '(bt, r') := if (max_trucks_per_haulier ctx <? length trucks)%nat
                     then sample r (max_trucks_per_haulier ctx) trucks else (trucks, r) in
      ctx_solve ctx allowed (ctx_cost ctx) bt orders r'
      end
  end.

(** ** Step 4: contribution *)

Context (trucks orders : fleet).

Definition owners : gmap string string := owner_by_id orders.
Definition orders_by_id : gmap string doc := by_id orders.
Definition trucks_by_id : gmap string doc := by_id trucks.
Definition input_order_ids : list string := sorted_strings (dom orders_by_id).

(** The loop over a company's answer: only its own orders are contributed. *)
Definition contribute_answer (h : string) (d : list (string * list string)) (m : market) : market :=
  foldl (λ m oid,
  if decide (owners !! oid = Some h)
  then (contribute m oid h (default [] (d_get d oid))).1 else m)
  m (py_sorted String.leb (d_keys d)).

Definition contribute_company (s : market * rng) (h : string) : market * rng :=
  let '(m, g) := s in
  match pools_for m h, docs_of orders h with
  | [], _ | _, [] => (m, g)
  | ps, own_orders =>
      match ctx_offer ctx h own_orders (docs_of trucks h) ps (ctx_cost ctx) g with
      | (Ok (Offers d), g') => (contribute_answer h d m, g')
      | (_, g') => (m, g')
      end
  end.

Definition contribution (m : market) (g : rng) : market * rng :=
  if market_is_empty m then (m, g)
  else foldl contribute_company (m, g) (company_ids trucks orders).

(** ** Step 5: one bidding round *)

(** What a round accumulates over the companies. *)
Record round_state := RoundState {
  rs_market : market;
  rs_rng : rng;
  rs_bids : list bid;
  rs_private : nat;
}.

(** Pairs on own private orders are committed at once, at the company's cost. *)
Definition commit_private (h : string) (rnd : Z) (s : market * nat) (p : doc * doc) : result (market * nat) :=
  c ← ctx_cost ctx p.1 p.2;
  let '(m', ok) := commit s.1 (Award (entity_id p.2) (entity_id p.1) h (Some h) c None rnd) in
  Ok (m', if ok : bool then S s.2 else s.2).

Definition is_own (h : string) (p : doc * doc) : bool :=
  bool_decide (owners !! entity_id p.2 = Some h).

Definition company_orders (m : market) (h : string) : list doc :=
  filter (λ o, is_order_free m (entity_id o) = true) (docs_of orders h) ++
  omap (λ oid, o ← orders_by_id !! oid; if is_order_free m oid then Some o else None)
  (sorted_strings (visible_pooled_order_ids m h)).

(** The body of the company loop. *)
Definition company_round (rnd : Z) (free_trucks : string → list doc) (candidates : gmap string assignment)
  (s : round_state) (h : string) : result round_state :=
  let m := rs_market s in
  match free_trucks h, company_orders m h with
  | [], _ | _, [] => Ok s
  | own_trucks, candidate_orders =>
      match solve_company own_trucks candidate_orders (pair_allowed_for h)
        (default [] (candidates !! h)) (rs_rng s) with
      | (Raise _, g) => Ok (RoundState m g (rs_bids s) (rs_private s))
      | (Ok planned, g) =>
          let contributed_order p := is_contributed m (entity_id p.2) in
          let own_private := filter (λ p, is_own h p && negb (contributed_order p) = true) planned in
          let own_contributed := filter (λ p, is_own h p && contributed_order p = true) planned in
          let foreign := filter (λ p, is_own h p = false) planned in
          let pooled := own_contributed ++ foreign in
          r ← foldR (commit_private h rnd) (m, rs_private s) own_private;
          match pooled with
          | [] => Ok (RoundState r.1 g (rs_bids s) r.2)
          | _ =>
            match ctx_claim ctx h pooled (own_private ++ own_contributed) (ctx_cost ctx) r.1 rnd g with
            | (Raise _, g') => Ok (RoundState r.1 g' (rs_bids s) r.2)
            | (Ok bs, g') => Ok (RoundState r.1 g' (rs_bids s ++ bs) r.2)
            end
          end
      end
  end.

(** Committing the rule's awards: a carrier may only take an order it owns or
sees.  Returns the market and whether an award was committed. *)
Definition commit_award (s : market * bool) (a : award) : market * bool :=
  let '(m, any) := s in
  if decide (Some (carrier_haulier a) ≠ owner_haulier a ∧
   pool_of_order m (award_order a) (carrier_haulier a) = None)
  then (m, any)
  else let '(m', ok) := commit m a in (m', any || ok).

(** The state of the round loop. *)
Record market_state := MarketState {
  ms_market : market;
  ms_rng : rng;
  rounds_used : Z;
  converged : bool;
  candidate_pairs_round1 : nat;
  candidate_pairs_total : nat;
}.

Definition free_trucks_of (m : market) (h : string) : list doc :=
  if decide (h = "") then []
  else filter (λ t, is_truck_free m (entity_id t) = true) (docs_of trucks h).

Definition free_orders_of (m : market) : list doc :=
  omap (λ oid, if is_order_free m oid then orders_by_id !! oid else None) input_order_ids.

Definition count_pairs (c : gmap string assignment) : nat :=
  sum_list (map (λ p, length p.2) (map_to_list c)).

(** One round that starts with a free order: the new state, and whether the loop
goes on. *)
Definition run_round (rnd : Z) (s : market_state) : result (market_state * bool) :=
  let m := ms_market s in
  let free_trucks := free_trucks_of m in
  candidates ← match by_pairs with
     | Some _ => build_round_candidates free_trucks (free_orders_of m) m owners
     | None => Ok ∅
     end;
  let pairs := count_pairs candidates in
  let total := (candidate_pairs_total s + pairs)%nat in
  let round1 := if rnd =? 1 then pairs else candidate_pairs_round1 s in
  r ← foldR (company_round rnd free_trucks candidates) (RoundState m (ms_rng s) [] 0)
  (company_ids trucks orders);
  match rs_bids r, rs_private r with
  | [], O => Ok (MarketState (rs_market r) (rs_rng r) rnd true round1 total, false)
  | _, _ =>
      let '(aw, g) := ctx_resolve ctx (rs_bids r) (rs_market r) (tick_seed ctx) (λ o, owners !! o) (rs_rng r) in
      let '(m', any) := foldl commit_award (rs_market r, bool_decide (rs_private r ≠ 0%nat)) aw in
      Ok (MarketState m' g rnd (negb any) round1 total, any)
  end.

(** [for rnd in range(1, max_rounds + 1)], with [n] rounds left. *)
Fixpoint round_loop (n : nat) (rnd : Z) (s : market_state) : result market_state :=
  match n with
  | O => Ok s
  | S n' =>
      if existsb (is_order_free (ms_market s)) input_order_ids then
      r ← run_round rnd s;
      if (r.2 : bool) then round_loop n' (rnd + 1) r.1 else Ok r.1
      else
      Ok (MarketState (ms_market s) (ms_rng s) (rounds_used s) true
        (candidate_pairs_round1 s) (candidate_pairs_total s))
  end.

Definition effective_max_rounds : Z :=
  clamp_rounds (if ctx_max_rounds ctx =? 0 then DEFAULT_MAX_ROUNDS else ctx_max_rounds ctx).

(** Steps 4 and 5. *)
Definition run_rounds (m : market) (g : rng) : result market_state :=
  let '(m', g') := contribution m g in
  round_loop (Z.to_nat effective_max_rounds) 1 (MarketState m' g' 0 false 0 0).

(** ** Step 6: accounting *)

(** The tag of a shared assignment. *)
Record share_tag := ShareTag {
  tag_owner : option string;
  tag_carrier : string;
  benefit_km : option float64;
  tag_pool : option string;
  awarded_cost_km : option float64;
  tag_reserve_km : option float64;
  market_round : Z;
}.

Definition tag_of (committed : gset string) (a : award) (order : doc) : result share_tag :=
  let owner_trucks := match owner_haulier a with Some h => docs_of trucks h | None => [] end in
  reserve ← owner_reserve_km order owner_trucks committed (pair_allowed_own ctx) (ctx_cost ctx);
  let awarded := finite_or_none (award_cost a) in
  let benefit := match reserve, awarded with
       | Some r, Some c => finite_or_none (f_sub r c)
       | _, _ => None
       end in
  Ok (ShareTag (owner_haulier a) (carrier_haulier a) (py_round3 <$> benefit) (award_pool a)
  (py_round3 <$> awarded) (py_round3 <$> reserve) (award_round a)).

Definition account_award (committed : gset string) (s : assignment * gmap (string * string) share_tag)
  (a : award) : result (assignment * gmap (string * string) share_tag) :=
  match trucks_by_id !! award_truck a, orders_by_id !! award_order a with
  | Some truck, Some order =>
      let assigned := s.1 ++ [(truck, order)] in
      if decide (Some (carrier_haulier a) = owner_haulier a) then Ok (assigned, s.2)
      else
      tag ← tag_of committed a order;
      Ok (assigned, <[(award_truck a, award_order a) := tag]> s.2)
  | _, _ => Ok s
  end.

Definition accounting (m : market) : result (assignment * gmap (string * string) share_tag) :=
  foldR (account_award (list_to_set (map award_truck (awards m)))) ([], ∅) (awards m).

(** ** Step 7: the assertions *)

Definition check_invariants (m : market) : result unit :=
  if decide (list_to_set (map award_order (awards m)) ⊆ dom orders_by_id ∧
   NoDup (map award_order (awards m)) ∧ NoDup (map award_truck (awards m)) ∧
   Forall (λ a, owner_haulier a = owners !! award_order a) (awards m))
  then Ok tt else Raise AssertionError.

(** [PooledMarketResult], with the market as the call leaves it. *)
Record market_result := MarketResult {
  res_assignment : assignment;
  res_share_tags : gmap (string * string) share_tag;
  res_state : market_state;
}.

Definition run_pooled_market (m : market) (g : rng) : result market_result :=
  s ← run_rounds m g;
  acc ← accounting (ms_market s);
  _ ← check_invariants (ms_market s);
  Ok (MarketResult acc.1 acc.2 s).
End Planner.

(** ** Lemmas: the invariant *)

Section PlannerLemmas.
Context `{PyText, Rng} (ctx : planner_ctx) (trucks orders : gmap string (list doc)).
Abbreviation owners := (owners orders).

(** An award the framework stands by: its owner is the order's, and its carrier
is the owner or a member of a pool the order was placed in. *)
Definition award_ok (m : market) (a : award) : Prop :=
  owner_haulier a = owners !! award_order a ∧ is_Some (owners !! award_order a) ∧
  (Some (carrier_haulier a) = owner_haulier a ∨
   ∃ pid, pid ∈ contributed m (award_order a) ∧ member_of m (carrier_haulier a) pid = true).

Record planner_inv (m : market) : Prop := {
  inv_wf : market_wf m;
  inv_owner o w : contribution_owner m !! o = Some w → owners !! o = Some w;
  inv_awards : Forall (award_ok m) (awards m);
}.

Lemma new_market_inv ps : planner_inv (new_market ps).
Proof. split; [apply new_market_wf|done|constructor]. Qed.

Lemma commit_inv m a : planner_inv m → award_ok m a → planner_inv (commit m a).1.
Proof.
  intros [Hwf Ho Ha] Hok. split; [by apply commit_wf|..]; unfold commit; case_decide; simpl; try done.
  apply Forall_app. split; [exact Ha|]. by apply Forall_singleton.
Qed.

Lemma contribute_inv m o h pids :
  planner_inv m → owners !! o = Some h → planner_inv (contribute m o h pids).1.
Proof.
  intros [Hwf Ho Ha] Hown. pose proof (call_extends m (Contribute o h pids)) as (_ & Hc & _).
  pose proof (call_pools m (Contribute o h pids)) as Hp. simpl in Hc, Hp.
  split; [by apply contribute_wf|..].
  - intros o' w. destruct (contribute_spec m o h pids) as [[-> _]|(_ & _ & ->)]; simpl; [apply Ho|].
  destruct (decide (o = o')) as [<-|]; simplify_map_eq; [congruence|apply Ho].
  - assert (awards (contribute m o h pids).1 = awards m) as ->
  by (destruct (contribute_spec m o h pids) as [[-> _]|(_ & _ & ->)]; done).
  eapply Forall_impl; [exact Ha|]. intros a (H1 & H2 & [?|(pid & Hpid & Hm)]); split_and!; try done;
  [by left|right]. exists pid. split; [by apply Hc|]. unfold member_of in *. by rewrite Hp.
Qed.

Lemma contribute_answer_inv h d m : planner_inv m → planner_inv (contribute_answer orders h d m).
Proof.
  apply foldl_invariant. intros m' oid _ Hm. case_decide; [by apply contribute_inv|done].
Qed.

Lemma contribution_inv m g : planner_inv m → planner_inv (contribution ctx trucks orders m g).1.
Proof.
  intros Hm. unfold contribution. destruct (market_is_empty m); [done|].
  apply (foldl_invariant _ (λ s, planner_inv s.1)); [|done].
  intros [m' g'] h _ Hi. simpl in Hi. unfold contribute_company.
  destruct (pools_for m' h), (docs_of orders h); try done.
  destruct (ctx_offer ctx _ _ _ _ _ _) as [[[ans|]|] g'']; simpl; try done. by apply contribute_answer_inv.
Qed.

(** [contribute] and the offer phase leave the award log alone. *)
Lemma contribution_awards m g : awards (contribution ctx trucks orders m g).1 = awards m.
Proof.
  unfold contribution. destruct (market_is_empty m); [done|].
  apply (foldl_invariant _ (λ s, awards s.1 = awards m)); [|done].
  intros [m' g'] h _ Hi. simpl in Hi. rewrite <-Hi. unfold contribute_company.
  destruct (pools_for m' h), (docs_of orders h); try done.
  destruct (ctx_offer ctx _ _ _ _ _ _) as [[[ans|]|] g'']; simpl; try done.
  unfold contribute_answer. apply (foldl_invariant _ (λ s, awards s = awards m')); [|done].
  intros m2 oid _ <-. case_decide; [|done].
  by destruct (contribute_spec m2 oid h (default [] (d_get ans oid))) as [[-> _]|(_ & _ & ->)].
Qed.

(** ** Lemmas: rounds *)

Lemma commit_length m a :
  length (awards (commit m a).1) = (length (awards m) + if (commit m a).2 then 1 else 0)%nat.
Proof. destruct (commit_spec m a) as [_ ->]. rewrite length_app. by destruct (commit m a).2. Qed.

Lemma commit_private_inv h rnd pairs s s' :
  Forall (λ p, is_own orders h p = true) pairs → planner_inv s.1 →
  foldR (commit_private ctx h rnd) s pairs = Ok s' →
  planner_inv s'.1 ∧ (length (awards s'.1) + s.2 = length (awards s.1) + s'.2)%nat.
Proof.
  revert s. induction pairs as [|p pairs IH]; intros s Hown Hi Hf; simpl in Hf.
  { injection Hf as <-. split; [done|lia]. }
  apply Forall_cons in Hown as [Hp Hown].
  destruct (commit_private ctx h rnd s p) as [s1|] eqn:E; simpl in Hf; [|done].
  unfold commit_private in E. destruct (ctx_cost ctx p.1 p.2) as [c|]; simpl in E; [|done].
  set (a := Award _ _ _ _ _ _ _) in E. pose proof (commit_length s.1 a) as Hlen.
  assert (planner_inv (commit s.1 a).1) as Hi'.
  { apply commit_inv; [done|]. apply bool_decide_eq_true in Hp. unfold award_ok; simpl.
  rewrite Hp. split_and!; [done|done|by left]. }
  destruct (commit s.1 a) as [m' ok]. cbn [fst snd] in Hi', Hlen. injection E as <-.
  apply IH in Hf as [? Hl]; [|exact Hown|exact Hi']. split; [done|]. simpl in Hl. destruct ok; lia.
Qed.

Lemma company_round_inv rnd free cands s h s' :
  planner_inv (rs_market s) → company_round ctx orders rnd free cands s h = Ok s' →
  planner_inv (rs_market s') ∧
  (length (awards (rs_market s')) + rs_private s = length (awards (rs_market s)) + rs_private s')%nat.
Proof.
  intros Hi Hs. unfold company_round in Hs.
  destruct (free h) as [|t ts]; [injection Hs as <-; split; [done|lia]|].
  destruct (company_orders orders (rs_market s) h) as [|o os]; [injection Hs as <-; split; [done|lia]|].
  destruct (solve_company _ _ _ _ _ _) as [[planned|e] g]; [|injection Hs as <-; split; [done|simpl; lia]].
  destruct (foldR _ _ _) as [r|] eqn:Ef; cbn [mbind result_bind] in Hs; [|done].
  apply commit_private_inv in Ef as [Hi' Hl]; [|by apply Forall_forall; intros p;
  rewrite list_elem_of_filter, andb_true_iff; tauto|done].
  simpl in Hl. destruct (_ ++ _); [injection Hs as <-; simpl; split; [done|lia]|].
  destruct (ctx_claim _ _ _ _ _ _ _ _) as [[bs|] g']; injection Hs as <-; simpl; split; done || lia.
Qed.

Lemma commit_award_inv (bl : list bid) owner_of m any aw :
  planner_inv m → (∀ a, a ∈ aw → ∃ b, b ∈ bl ∧ a = award_of owner_of b) →
  (∀ o, owner_of o = owners !! o) →
  let s' := foldl commit_award (m, any) aw in
  planner_inv s'.1 ∧ (length (awards m) ≤ length (awards s'.1))%nat ∧
  (s'.2 = true → any = true ∨ (length (awards m) < length (awards s'.1))%nat) ∧
  (any = true → s'.2 = true).
Proof.
  intros Hi Hb Hown. cbv zeta. revert m any Hi. induction aw as [|a aw IH]; intros m any Hi; simpl.
  { split_and!; auto. }
  assert (∀ a', a' ∈ aw → ∃ b, b ∈ bl ∧ a' = award_of owner_of b) as Hb' by (intros; apply Hb; by right).
  destruct (Hb a) as (b & _ & Ea); [left|]. case_decide as Hd; [by apply IH|].
  pose proof (commit_length m a) as Hlen.
  assert (planner_inv (commit m a).1) as Hi'.
  { apply commit_inv; [done|]. unfold award_ok. assert (owner_haulier a = owners !! award_order a) as Ho
  by (rewrite Ea; simpl; apply Hown). split; [done|].
  destruct (decide (Some (carrier_haulier a) = owner_haulier a)) as [Heq|Hne].
  { rewrite <-Ho, <-Heq. split; [done|by left]. }
  pose proof (pool_of_order_spec m (award_order a) (carrier_haulier a)) as Hp.
  destruct (pool_of_order m _ _) as [pid|]; [|tauto]. destruct Hp as (Hin & Hm & _).
  destruct (wf_placed _ (inv_wf _ Hi) _ _ Hin) as (w & Hw & _).
  apply (inv_owner _ Hi) in Hw. split; [by rewrite Hw|]. right. eauto. }
  destruct (commit m a) as [m' ok]. simpl in *.
  destruct (IH Hb' m' (any || ok) Hi') as (? & Hle & Hany & Hany'). split_and!; [done| | |].
  - destruct ok; lia.
  - intros [E|?]%Hany; [|right; destruct ok; lia]. apply orb_true_iff in E as [?| ->]; [by left|right; lia].
  - intros ->. by apply Hany'.
Qed.

Context `{!ArbitrationLaws (ctx_resolve ctx)}.

(** A round keeps the invariant, and one that lets the loop go on has committed. *)
Lemma run_round_spec rnd s s' go :
  planner_inv (ms_market s) → run_round ctx trucks orders rnd s = Ok (s', go) →
  planner_inv (ms_market s') ∧ rounds_used s' = rnd ∧ converged s' = negb go ∧
  (length (awards (ms_market s)) ≤ length (awards (ms_market s')))%nat ∧
  (go = true → (length (awards (ms_market s)) < length (awards (ms_market s')))%nat).
Proof.
  intros Hi Hs. unfold run_round in Hs.
  destruct (match by_pairs ctx with Some _ => _ | None => _ end) as [cands|];
  cbn [mbind result_bind] in Hs; [|done].
  destruct (foldR _ _ (company_ids trucks orders)) as [r|] eqn:Ef; cbn [mbind result_bind] in Hs; [|done].
  assert (planner_inv (rs_market r) ∧
  length (awards (rs_market r)) = (length (awards (ms_market s)) + rs_private r)%nat) as [Hir Hlr].
  { assert (∀ l s0 r0, foldR (company_round ctx orders rnd (free_trucks_of trucks (ms_market s)) cands) s0 l = Ok r0 →
  planner_inv (rs_market s0) → planner_inv (rs_market r0) ∧
  (length (awards (rs_market r0)) + rs_private s0 = length (awards (rs_market s0)) + rs_private r0)%nat) as Hf.
  { induction l as [|h l IH]; intros s0 r0 Hf Hi0; simpl in Hf; [injection Hf as <-; split; [done|lia]|].
  destruct (company_round _ _ _ _ _ s0 h) as [s1|] eqn:E; simpl in Hf; [|done].
  apply company_round_inv in E as [Hi1 Hl1]; [|done]. apply IH in Hf as [? ?]; [|done]. split; [done|lia]. }
  apply Hf in Ef as [? Hl]; [|done]. simpl in Hl. split; [done|lia]. }
  assert (∀ aw g, ctx_resolve ctx (rs_bids r) (rs_market r) (tick_seed ctx) (λ o, owners !! o) (rs_rng r) = (aw, g) →
  let any := bool_decide (rs_private r ≠ 0%nat) in
  Ok (MarketState (foldl commit_award (rs_market r, any) aw).1 g rnd
  (negb (foldl commit_award (rs_market r, any) aw).2)
  (if rnd =? 1 then count_pairs cands else candidate_pairs_round1 s)
  (candidate_pairs_total s + count_pairs cands), (foldl commit_award (rs_market r, any) aw).2) =
  Ok (s', go) → planner_inv (ms_market s') ∧ rounds_used s' = rnd ∧ converged s' = negb go ∧
  (length (awards (ms_market s)) ≤ length (awards (ms_market s')))%nat ∧
  (go = true → (length (awards (ms_market s)) < length (awards (ms_market s')))%nat)) as Hresolve.
  { intros aw g Hr any [= <- <-].
  assert (valid_awards (rs_market r) (λ o, owners !! o) (rs_bids r) aw) as Hv.
  { pose proof (resolve_valid (rs_bids r) (rs_market r) (tick_seed ctx) (λ o, owners !! o) (rs_rng r)) as Hv.
  by rewrite Hr in Hv. }
  destruct (commit_award_inv (rs_bids r) (λ o, owners !! o) (rs_market r) any aw)
  as (Hi' & Hle & Hany & _); [done|apply Hv|done|].
  simpl. split_and!; [done|done|done|lia|]. intros [E|?]%Hany; [|lia].
  apply bool_decide_eq_true in E. lia. }
  destruct (ctx_resolve ctx _ _ _ _ _) as [aw g] eqn:Er. specialize (Hresolve aw g eq_refl). cbv zeta in *.
  destruct (foldl commit_award _ aw) as [m' any'] eqn:Efold. simpl in Hresolve.
  destruct (rs_bids r), (rs_private r); [|by apply Hresolve..].
  injection Hs as <- <-. simpl. split_and!; [done|done|done|lia|done].
Qed.

Lemma round_loop_spec n rnd s s' :
  planner_inv (ms_market s) → converged s = false → rounds_used s = rnd - 1 → 0 < rnd →
  round_loop ctx trucks orders n rnd s = Ok s' →
  planner_inv (ms_market s') ∧ rnd - 1 ≤ rounds_used s' ≤ rnd - 1 + Z.of_nat n ∧
  (length (awards (ms_market s)) ≤ length (awards (ms_market s')))%nat ∧
  (converged s' = false → rounds_used s' = rnd - 1 + Z.of_nat n ∧
   (length (awards (ms_market s)) + n ≤ length (awards (ms_market s')))%nat).
Proof.
  revert rnd s. induction n as [|n IH]; intros rnd s Hi Hc Hu Hpos Hl; simpl in Hl.
  { injection Hl as <-. split_and!; [done|lia..|]. intros _. split; lia. }
  destruct (existsb _ _); [|injection Hl as <-; simpl; split_and!; [done|lia..|done]].
  destruct (run_round ctx trucks orders rnd s) as [[s1 go]|] eqn:E; simpl in Hl; [|done].
  apply run_round_spec in E as (Hi1 & Hu1 & Hc1 & Hle & Hlt); [|done]. destruct go.
  - apply IH in Hl as (? & ? & ? & Hconv); [|done|done|lia|lia]. specialize (Hlt eq_refl).
  split_and!; [done|lia..|]. intros Hf. apply Hconv in Hf as [? ?]. split; lia.
  - injection Hl as <-. split_and!; [done|lia..|]. by rewrite Hc1.
Qed.

Lemma run_rounds_spec ps g s :
  run_rounds ctx trucks orders (new_market ps) g = Ok s →
  planner_inv (ms_market s) ∧ 0 ≤ rounds_used s ≤ effective_max_rounds ctx ∧
  (converged s = false → rounds_used s = effective_max_rounds ctx ∧
   effective_max_rounds ctx ≤ Z.of_nat (length (awards (ms_market s)))).
Proof.
  unfold run_rounds. pose proof (contribution_inv (new_market ps) g (new_market_inv ps)) as Hi.
  destruct (contribution _ _ _ _ _) as [m' g']. simpl in Hi. intros Hl.
  assert (1 ≤ effective_max_rounds ctx) by (unfold effective_max_rounds, clamp_rounds; lia).
  apply round_loop_spec in Hl as (? & ? & ? & Hc); [|done..]. simpl in *.
  split_and!; [done|lia|lia|]. intros Hf. apply Hc in Hf. lia.
Qed.

(** ** Lemmas: the tables of the inputs *)

Lemma by_id_dom (f : gmap string (list doc)) : dom (by_id f) = dom (owner_by_id f).
Proof.
  unfold by_id, owner_by_id. assert (∀ l (m1 : gmap string doc) (m2 : gmap string string),
  dom m1 = dom m2 →
  dom (foldl (λ m p, <[p.1 := p.2.1]> m) m1 l) =
  dom (foldl (λ m (p : string * (doc * string)), <[p.1 := p.2.2]> m) m2 l)) as Hl.
  { induction l as [|p l IH]; intros m1 m2 Hd; simpl; [done|]. apply IH. by rewrite !dom_insert_L, Hd. }
  by apply Hl.
Qed.

Lemma check_invariants_ok m : planner_inv m → check_invariants orders m = Ok tt.
Proof.
  intros [Hwf _ Ha]. unfold check_invariants. rewrite decide_True; [done|].
  split_and!; try apply Hwf.
  - intros o Ho. apply elem_of_list_to_set, list_elem_of_fmap in Ho as (a & -> & Hin).
  rewrite Forall_forall in Ha. destruct (Ha a Hin) as (_ & Hs & _).
  unfold orders_by_id. rewrite by_id_dom. by apply elem_of_dom.
  - eapply Forall_impl; [exact Ha|]. by intros a [? _].
Qed.

Lemma awards_bound m :
  planner_inv m → (length (awards m) ≤ size (orders_by_id orders))%nat.
Proof.
  intros [Hwf _ Ha]. rewrite <-(length_map award_order), <-size_dom.
  rewrite <-(size_list_to_set (C := gset string) (map award_order (awards m))) by apply Hwf.
  apply subseteq_size. intros o Ho. apply elem_of_list_to_set, list_elem_of_fmap in Ho as (a & -> & Hin).
  rewrite Forall_forall in Ha. destruct (Ha a Hin) as (_ & Hs & _).
  unfold orders_by_id. rewrite by_id_dom. by apply elem_of_dom.
Qed.
End PlannerLemmas.

(** ** Lemmas: candidates and accounting *)

Section Candidates.
Context `{PyText, Rng} (ctx : planner_ctx) (trucks orders : gmap string (list doc)).
Abbreviation owners := (owners orders).

Lemma carrier_groups_spec m fo cs os o :
  (cs, os) ∈ carrier_groups m owners fo → o ∈ os →
  o ∈ fo ∧ ∃ w, owners !! entity_id o = Some w ∧ cs = eligible_carriers m (entity_id o) w.
Proof.
  unfold carrier_groups. intros Hin Ho.
  assert (∀ l (g : list (gset string * list doc)),
  (∀ c l' x, (c, l') ∈ g → x ∈ l' → x ∈ fo ∧
   ∃ w, owners !! entity_id x = Some w ∧ c = eligible_carriers m (entity_id x) w) →
  (∀ x, x ∈ l → x ∈ fo) →
  ∀ c l' x, (c, l') ∈ foldl (λ groups o,
  match owners !! entity_id o with
  | None => groups
  | Some owner => d_set groups (eligible_carriers m (entity_id o) owner)
  (default [] (d_get groups (eligible_carriers m (entity_id o) owner)) ++ [o])
  end) g l → x ∈ l' → x ∈ fo ∧
   ∃ w, owners !! entity_id x = Some w ∧ c = eligible_carriers m (entity_id x) w) as Hl.
  { induction l as [|y l IH]; intros g Hg Hfo; simpl; [done|]. apply IH; [|intros; apply Hfo; by right].
  destruct (owners !! entity_id y) as [w|] eqn:E; [|done].
  intros c l' x [Hx|[= -> ->]]%elem_d_set; [by apply Hg|].
  intros [Hx|Hx%list_elem_of_singleton]%elem_of_app.
  - destruct (d_get g _) as [k|] eqn:Ek; simpl in Hx; [|by apply elem_of_nil in Hx].
  apply d_get_Some_elem in Ek. by apply (Hg _ _ _ Ek).
  - subst. split; [apply Hfo; by left|]. by exists w. }
  eapply (Hl fo []); [by intros ? ? ? ?%elem_of_nil|done|exact Hin|done].
Qed.

Definition candidate_ok (free : string → list doc) (m : market) (fo : list doc) (c : string) (p : doc * doc) : Prop :=
  haulier_of p.1 = Some c ∧ p.2 ∈ fo ∧ pair_allowed_for ctx c p.1 p.2 = Ok true ∧
  ∃ w h, owners !! entity_id p.2 = Some w ∧ h ∈ eligible_carriers m (entity_id p.2) w ∧ p.1 ∈ free h.

Lemma file_pairs_spec (by_c : gmap string assignment) pairs c p :
  p ∈ default [] (foldl file_pair by_c pairs !! c) →
  p ∈ default [] (by_c !! c) ∨ p ∈ pairs ∧ haulier_of p.1 = Some c.
Proof.
  revert by_c. induction pairs as [|q pairs IH]; intros by_c; simpl; [by left|].
  intros [Hp|[? ?]]%IH; [|right; split; [by right|done]]. unfold file_pair in Hp.
  destruct (haulier_of q.1) as [cq|] eqn:E; [|by left].
  destruct (decide (cq = c)) as [->|Hne]; [|rewrite lookup_insert_ne in Hp by done; by left].
  rewrite lookup_insert_eq in Hp. simpl in Hp. apply elem_of_app in Hp as [?|Hp]; [by left|].
  apply list_elem_of_singleton in Hp as ->. right. split; [by left|done].
Qed.

Lemma build_round_candidates_spec free fo m cands c p :
  0 ≤ per_order ctx → build_round_candidates ctx free fo m owners = Ok cands →
  p ∈ default [] (cands !! c) → candidate_ok free m fo c p.
Proof.
  intros Hper. unfold build_round_candidates.
  set (gs := py_sorted _ _). assert (∀ g, g ∈ gs → g ∈ carrier_groups m owners fo) as Hgs
  by (intros g; unfold gs; by rewrite elem_of_py_sorted).
  clearbody gs. assert (∀ acc, (∀ c p, p ∈ default [] (acc !! c) → candidate_ok free m fo c p) →
  foldR (group_candidates ctx free) acc gs = Ok cands →
  ∀ c p, p ∈ default [] (cands !! c) → candidate_ok free m fo c p) as Hf.
  { induction gs as [|[cs os] gs IH]; intros acc Hacc Hc; simpl in Hc; [by injection Hc as <-|].
  destruct (group_candidates ctx free acc (cs, os)) as [acc'|] eqn:E; simpl in Hc; [|done].
  apply (IH ltac:(intros; apply Hgs; by right) acc'); [|done]. clear IH Hc.
  unfold group_candidates in E. simpl in E.
  destruct (concat (map free (sorted_strings cs))) as [|t0 ts] eqn:Eu; [by injection E as <-|].
  rewrite <-Eu in E. destruct (iter_candidate_pairs _ _ _ _ _ _ _) as [pairs|] eqn:Ei; simpl in E; [|done].
  injection E as <-. apply iter_candidate_pairs_spec in Ei as [_ Hp]; [|done].
  intros c' [t o] [Hin|[Hin Hh]]%file_pairs_spec; [by apply Hacc|].
  destruct (Hp t o Hin) as (Ht & Ho & Hal). simpl in Hh.
  destruct (carrier_groups_spec m fo cs os o) as (Hfo & w & Hw & ->); [apply Hgs; by left|done|].
  unfold carrier_allowed in Hal. rewrite Hh in Hal. unfold candidate_ok; simpl. split_and!; [done..|].
  apply list_elem_of_In, in_concat in Ht as (k & Hk & Ht).
  apply in_map_iff in Hk as (h & <- & Hk). apply list_elem_of_In in Hk, Ht.
  exists w, h. split_and!; [done|by apply elem_of_sorted_strings|done]. }
  intros Hc. apply (Hf ∅); [|done]. intros c' p'. rewrite lookup_empty. simpl. by intros ?%elem_of_nil.
Qed.

(** The document pairs of the awards whose truck and order are known. *)
Definition known_docs (a : award) : option (doc * doc) :=
  t ← trucks_by_id trucks !! award_truck a;
  o ← orders_by_id orders !! award_order a;
  Some (t, o).

Definition award_key (a : award) : string * string := (award_truck a, award_order a).

Lemma accounting_loop_spec com l s s' :
  NoDup (map award_order l) → foldR (account_award ctx trucks orders com) s l = Ok s' →
  s'.1 = s.1 ++ omap known_docs l ∧
  (∀ k, k ∉ map award_key l → s'.2 !! k = s.2 !! k) ∧
  (∀ a t o, a ∈ l → known_docs a = Some (t, o) →
   if decide (Some (carrier_haulier a) = owner_haulier a) then s'.2 !! award_key a = s.2 !! award_key a
   else ∃ tag, tag_of ctx trucks com a o = Ok tag ∧ s'.2 !! award_key a = Some tag).
Proof.
  revert s. induction l as [|a l IH]; intros s Hnd Hf; simpl in Hf.
  { injection Hf as <-. rewrite app_nil_r. split_and!; [done..|]. by intros a t o ?%elem_of_nil. }
  simpl in Hnd. apply NoDup_cons in Hnd as [Hni Hnd].
  assert (award_key a ∉ map award_key l) as Hka.
  { intros (b & E & Hb)%list_elem_of_fmap. injection E as _ E. apply Hni, list_elem_of_fmap. eauto. }
  destruct (account_award _ _ _ com s a) as [s1|] eqn:E; simpl in Hf; [|done].
  destruct (IH _ Hnd Hf) as (I1 & I2 & I3).
  assert (s1.1 = s.1 ++ option_list (known_docs a) ∧ (∀ k, k ≠ award_key a → s1.2 !! k = s.2 !! k) ∧
  ∀ t o, known_docs a = Some (t, o) →
  if decide (Some (carrier_haulier a) = owner_haulier a) then s1.2 !! award_key a = s.2 !! award_key a
  else ∃ tag, tag_of ctx trucks com a o = Ok tag ∧ s1.2 !! award_key a = Some tag) as (A1 & A2 & A3).
  { unfold account_award in E. unfold known_docs.
  destruct (trucks_by_id trucks !! award_truck a) as [t|]; simpl;
  [|injection E as <-; rewrite app_nil_r; done].
  destruct (orders_by_id orders !! award_order a) as [o|]; simpl;
  [|injection E as <-; rewrite app_nil_r; done].
  destruct (decide (Some (carrier_haulier a) = owner_haulier a)) as [Hd|Hd].
  { injection E as <-. done. }
  destruct (tag_of _ _ _ _ _) as [tag|] eqn:Et; simpl in E; [|done]. injection E as <-. simpl.
  split_and!; [done| |].
  - intros k Hk. by rewrite lookup_insert_ne.
  - intros t' o' [= -> ->]. exists tag. by rewrite lookup_insert_eq. }
  split_and!.
  - rewrite I1, A1, <-app_assoc. f_equal. simpl. by destruct (known_docs a).
  - intros k Hk. simpl in Hk. apply not_elem_of_cons in Hk as [??]. rewrite I2, A2; done.
  - intros b t o [->|Hb]%elem_of_cons Hd.
  + specialize (A3 t o Hd). by rewrite I2.
  + specialize (I3 b t o Hb Hd). assert (award_key b ≠ award_key a) as Hne.
  { intros Ek. apply Hka. rewrite <-Ek. apply list_elem_of_fmap. by exists b. }
  destruct (decide (Some (carrier_haulier b) = owner_haulier b)); [by rewrite I3, A2|done].
Qed.

Lemma reserve_loop_spec order com allowed cost l best best' :
  foldR (reserve_loop order com allowed cost) best l = Ok best' →
  (∀ b, best = Some b → not_nan b) →
  let able t c := t ∈ l ∧ entity_id t ∉ com ∧ allowed t order = Ok true ∧ cost t order = Ok c ∧
        f_eqb c f_inf = false ∧ isnan c = false in
  match best' with
  | Some v => not_nan v ∧ (best = Some v ∨ ∃ t, able t v) ∧
  (∀ b, best = Some b → f_leb v b = true) ∧ (∀ t c, able t c → f_leb v c = true)
  | None => best = None ∧ ∀ t c, ¬ able t c
  end.
Proof.
  revert best. induction l as [|t l IH]; intros best Hf Hb; simpl in Hf.
  { injection Hf as <-. cbv zeta. destruct best as [v|].
  - specialize (Hb v eq_refl). split_and!; [done|by left| |by intros ? ? [?%elem_of_nil _]].
  intros b [= <-]. by destruct (total_on v v Hb Hb).
  - split; [done|]. by intros t c [?%elem_of_nil _]. }
  destruct (reserve_loop order com allowed cost best t) as [b1|] eqn:E; simpl in Hf; [|done].
  assert ((b1 = best ∧ ∀ c, ¬ (entity_id t ∉ com ∧ allowed t order = Ok true ∧ cost t order = Ok c ∧
  f_eqb c f_inf = false ∧ isnan c = false)) ∨
  ∃ c v, entity_id t ∉ com ∧ allowed t order = Ok true ∧ cost t order = Ok c ∧
  f_eqb c f_inf = false ∧ isnan c = false ∧ b1 = Some v ∧ f_leb v c = true ∧ not_nan v ∧
  (v = c ∨ best = Some v) ∧ ∀ b, best = Some b → f_leb v b = true) as Hstep.
  { unfold reserve_loop in E. case_decide as Hc; [injection E as <-; left; split; [done|]; intros c; tauto|].
  destruct (allowed t order) as [[]|]; simpl in E; [| |done].
  2:{ injection E as <-. left. split; [done|]. intros c. naive_solver. }
  destruct (cost t order) as [c|]; simpl in E; [|done].
  destruct (f_eqb c f_inf || isnan c) eqn:Ei.
  { injection E as <-. left. split; [done|]. intros c' (_ & _ & [= <-] & E1 & E2).
  by rewrite E1, E2 in Ei. }
  bools. right. assert (f_leb c c = true) as Hcc by (by destruct (total_on c c)).
  destruct best as [b|]; injection E as <-.
  - specialize (Hb b eq_refl). destruct (f_ltb c b) eqn:Hlt.
  + exists c, c. split_and!; try done; [by left|]. intros ? [= <-]. by apply f_ltb_leb.
  + exists c, b. split_and!; try done; [by apply f_ltb_false|by right|].
  intros ? [= <-]. by destruct (total_on b b Hb Hb).
  - exists c, c. split_and!; try done; by left. }
  cbv zeta in *. destruct Hstep as [[-> Hno]|(c & v & Hfree & Hal & Hc & Hi & Hn & -> & Hvc & Hvn & Hv & Hvb)].
  - specialize (IH best Hf Hb). destruct best' as [v|].
  + destruct IH as (? & Hor & ? & Hmin). split_and!; [done| |done|].
  * destruct Hor as [?|(t' & ? & ?)]; [by left|right]. exists t'. split; [by right|done].
  * intros t' c' ([->|?]%elem_of_cons & Hr); [by destruct (Hno c')|]. by apply (Hmin t').
  + destruct IH as [? Hmin]. split; [done|].
  intros t' c' ([->|?]%elem_of_cons & Hr); [by destruct (Hno c')|]. by apply (Hmin t' c').
  - specialize (IH (Some v) Hf). destruct best' as [v'|].
  2:{ destruct IH as [? _]; [|done]. by intros ? [= <-]. }
  destruct IH as (Hn' & Hor & Hle & Hmin); [by intros ? [= <-]|]. specialize (Hle v eq_refl).
  split_and!; [done| | |].
  + destruct Hor as [[= <-]|(t' & ? & ?)]; [|right; exists t'; split; [by right|done]].
  destruct Hv as [->|?]; [|by left]. right. exists t. split; [by left|done].
  + intros b Hb'. apply (trans_on v' v b); auto.
  + intros t' c' ([->|?]%elem_of_cons & Hr); [|by apply (Hmin t')].
  destruct Hr as (_ & _ & Hc' & _). assert (c' = c) as -> by congruence.
  by apply (trans_on v' v c).
Qed.
End Candidates.

(** ** Properties *)

Section Properties.
Context `{PyText, Rng} (ctx : planner_ctx) (trucks orders : gmap string (list doc)).
Context `{!ArbitrationLaws (ctx_resolve ctx)}.
Abbreviation owners := (owners orders).

(** C13: whatever the companies' solver and policies do, a tick allocates safely.
With any arbitration rule that keeps its contract, the awards of a tick name
each order and truck at most once and only orders of the input, record the
order's true owner, and give an order to another company only through a pool
that the order was placed in and that both the carrier and the owner belong
to. *)
Theorem pooled_awards_safe ps g s :
  run_rounds ctx trucks orders (new_market ps) g = Ok s →
  let m := ms_market s in
  NoDup (map award_order (awards m)) ∧ NoDup (map award_truck (awards m)) ∧
  ∀ a, a ∈ awards m → ∃ owner,
  owners !! award_order a = Some owner ∧ owner_haulier a = Some owner ∧
  (carrier_haulier a = owner ∨
   ∃ pid p, pools m !! pid = Some p ∧ pid ∈ contributed m (award_order a) ∧
   carrier_haulier a ∈ members p ∧ owner ∈ members p).
Proof.
  intros Hr m. destruct (run_rounds_spec ctx trucks orders ps g s Hr) as ([Hwf Ho Ha] & _).
  split_and!; try apply Hwf. intros a Hin. rewrite Forall_forall in Ha.
  destruct (Ha a Hin) as (Howner & [owner Hown] & Hc). exists owner.
  split_and!; [done|by rewrite Howner|]. destruct Hc as [Hc|(pid & Hpid & Hm)].
  { left. rewrite Howner, Hown in Hc. by injection Hc. }
  right. destruct (wf_placed _ Hwf _ _ Hpid) as (w & Hw & Hmw). apply Ho in Hw.
  assert (w = owner) as -> by congruence. unfold member_of in Hm, Hmw.
  destruct (pools (ms_market s) !! pid) as [p|] eqn:E; [|done].
  exists pid, p. split_and!; [done|done|by apply bool_decide_eq_true in Hm|by apply bool_decide_eq_true in Hmw].
Qed.

(** C17: the assertions at the end of a tick never fire: a run is the same run
without them, whatever the companies' policies answer. *)
Theorem pooled_assertions_hold ps g :
  run_pooled_market ctx trucks orders (new_market ps) g =
  (s ← run_rounds ctx trucks orders (new_market ps) g;
   acc ← accounting ctx trucks orders (ms_market s);
   Ok (MarketResult acc.1 acc.2 s)).
Proof.
  unfold run_pooled_market. destruct (run_rounds ctx trucks orders (new_market ps) g) as [s|] eqn:E; [|done].
  simpl. destruct (accounting _ _ _ _) as [acc|]; [|done]. simpl.
  by rewrite (check_invariants_ok orders _ (proj1 (run_rounds_spec ctx trucks orders ps g s E))).
Qed.

(** C14: the auction terminates, and only a full auction is cut short.  It uses at
most the configured number of rounds, which is between 1 and 100; if it does
not report convergence every round was used and each of them awarded an order,
so it always converges when there are fewer orders than rounds. *)
Theorem pooled_rounds_terminate ps g s :
  run_rounds ctx trucks orders (new_market ps) g = Ok s →
  0 ≤ rounds_used s ≤ effective_max_rounds ctx ∧ 1 ≤ effective_max_rounds ctx ≤ 100 ∧
  (converged s = false → rounds_used s = effective_max_rounds ctx ∧
   effective_max_rounds ctx ≤ Z.of_nat (length (awards (ms_market s)))) ∧
  (Z.of_nat (size (orders_by_id orders)) < effective_max_rounds ctx → converged s = true).
Proof.
  intros Hr. destruct (run_rounds_spec ctx trucks orders ps g s Hr) as (Hi & Hu & Hc).
  split_and!; [lia|lia|unfold effective_max_rounds, clamp_rounds, MAX_ROUNDS_CEILING; lia..|done|].
  intros Hlt. destruct (converged s); [done|]. destruct Hc as [_ Hc]; [done|].
  pose proof (awards_bound orders (ms_market s) Hi). lia.
Qed.

(** the ledger records exactly the shared jobs.  The assignment lists the
documents of the awards in award order; an award whose carrier owns the order
leaves no tag, any other award with known documents leaves the tag computed
from the final commit, and nothing else is tagged. *)
Theorem pooled_tags_exact ps g res :
  run_pooled_market ctx trucks orders (new_market ps) g = Ok res →
  let m := ms_market (res_state res) in
  res_assignment res = omap (known_docs trucks orders) (awards m) ∧
  (∀ k, k ∉ map award_key (awards m) → res_share_tags res !! k = None) ∧
  ∀ a t o, a ∈ awards m → known_docs trucks orders a = Some (t, o) →
  if decide (Some (carrier_haulier a) = owner_haulier a) then res_share_tags res !! award_key a = None
  else ∃ tag, tag_of ctx trucks (list_to_set (map award_truck (awards m))) a o = Ok tag ∧
      res_share_tags res !! award_key a = Some tag.
Proof.
  intros Hr. unfold run_pooled_market in Hr.
  destruct (run_rounds ctx trucks orders (new_market ps) g) as [s|] eqn:Es; simpl in Hr; [|done].
  destruct (accounting ctx trucks orders (ms_market s)) as [acc|] eqn:Ea; simpl in Hr; [|done].
  destruct (check_invariants orders (ms_market s)) as [u|]; simpl in Hr; [|done]. injection Hr as <-. simpl.
  destruct (run_rounds_spec ctx trucks orders ps g s Es) as ([Hwf _ _] & _).
  destruct (accounting_loop_spec ctx trucks orders _ _ _ _ (wf_orders_once _ Hwf) Ea) as (E1 & E2 & E3).
  split_and!; [by rewrite E1|intros k Hk; by rewrite E2|].
  intros a t o Hin Hd. specialize (E3 a t o Hin Hd). by case_decide.
Qed.

(** the owner's reserve is the cost of its cheapest remaining truck: it is the
least of the known costs over the owner's trucks that were not committed and
may serve the order, and there is none exactly when no such truck exists. *)
Theorem owner_reserve_is_least order owner_trucks com allowed cost r :
  owner_reserve_km order owner_trucks com allowed cost = Ok r →
  let able t c := t ∈ owner_trucks ∧ entity_id t ∉ com ∧ allowed t order = Ok true ∧
        cost t order = Ok c ∧ f_eqb c f_inf = false ∧ isnan c = false in
  match r with
  | Some v => (∃ t, able t v) ∧ ∀ t c, able t c → f_leb v c = true
  | None => ∀ t c, ¬ able t c
  end.
Proof.
  intros Hr. apply reserve_loop_spec in Hr; [|done]. cbv zeta in *.
  destruct r as [v|]; [|tauto]. destruct Hr as (_ & [?|?] & _ & ?); [done|]. by split.
Qed.

(** every candidate of a round may be carried by the company it is filed
under.  When trucks are listed under their own haulier, a candidate of company
[c] pairs one of [c]'s free trucks with a free order that [c] owns or sees
through a pool, and the pair passed [c]'s feasibility rule. *)
Theorem round_candidates_eligible m cands c t o :
  (∀ h t, t ∈ docs_of trucks h → haulier_of t = Some h) → 0 ≤ per_order ctx →
  build_round_candidates ctx (free_trucks_of trucks m) (free_orders_of orders m) m owners = Ok cands →
  (t, o) ∈ default [] (cands !! c) →
  t ∈ docs_of trucks c ∧ is_truck_free m (entity_id t) = true ∧ o ∈ free_orders_of orders m ∧
  pair_allowed_for ctx c t o = Ok true ∧
  ∃ w, owners !! entity_id o = Some w ∧ c ∈ eligible_carriers m (entity_id o) w.
Proof.
  intros Hlisted Hper Hb Hp. eapply build_round_candidates_spec in Hp; [|done|exact Hb].
  destruct Hp as (Hh & Ho & Hal & w & h & Hw & Hel & Ht). simpl in *.
  unfold free_trucks_of in Ht. case_decide; [by apply elem_of_nil in Ht|].
  apply list_elem_of_filter in Ht as [Hf Ht].
  assert (h = c) as -> by (apply Hlisted in Ht; congruence). split_and!; try done. by exists w.
Qed.
End Properties.

(** the effective number of rounds is always in range, and only a
    [max_rounds] that [int] overflows on makes the resolution raise: a malformed
    block of any other kind falls back to the defaults. *)
Theorem resolve_market_config_clamped `{PyText} planner :
  match resolve_market_config planner with
  | Ok cfg => 1 ≤ cfg_max_rounds cfg ≤ 100
  | Raise e => e = OverflowError ∧ ∃ d m s, planner = PDict d ∧ get d "market" = PDict m ∧
      get_or m "max_rounds" (PInt DEFAULT_MAX_ROUNDS) = PFloat (S754_infinity s)
  end.
Proof.
  unfold resolve_market_config. set (m := match planner with PDict _ => _ | _ => _ end).
  assert (∀ n, 1 ≤ clamp_rounds n ≤ 100) as Hc
    by (intros n; unfold clamp_rounds, MAX_ROUNDS_CEILING; lia).
  destruct (get_or m "max_rounds" (PInt DEFAULT_MAX_ROUNDS)) as [| | |f| | | |] eqn:E; simpl; auto.
  - destruct f; simpl; auto. split; [done|]. unfold m in E. destruct planner; try done.
    destruct (get d "market") eqn:Em; try done. by exists d, d0, s.
  - destruct (int_of_str s); simpl; auto.
Qed.

(** ** Examples *)

(** Company [a] has an order and no truck, its pool partner [b] a truck. *)
Module Example.
Definition text : PyText := no_text.
Definition gen : Rng := zero_rng.
Definition hash : Blake2b := zero_hash.
#[local] Existing Instances text gen hash.

Definition owned (id h : string) : doc := Doc [("_id", PStr id); ("haulier_id", PStr h)] [].
Definition order_a : doc := owned "o1" "a".
Definition truck_b : doc := owned "t1" "b".
Definition trucks : gmap string (list doc) := {["b" := [truck_b]]}.
Definition orders : gmap string (list doc) := {["a" := [order_a]]}.
Definition pools_ab : list pool := [Pool "p:a+b" {["a"; "b"]}].
Definition always_ok : pair_allowed_fn := λ _ _, Ok true.
Definition three_km : cost_fn := λ _ _, Ok (f_of_Z 3).

(** The shipped components, without the spatial index. *)
Definition ctx (max_rounds : Z) : planner_ctx :=
  PlannerCtx _ [] (Some (λ ps cost, greedy_solve_pairs (Some 7) (map Ok ps) cost))
  (solve GreedyNearest (Some 7)) (offer OfferAll []) (bids ClaimAllPlanned [])
  (resolve LowestCost) max_rounds (λ t o, Ok (haulier_matches t o)) always_ok three_km 7 f_one 40 8 false 500.


Definition initial : market := new_market pools_ab.
Definition empty_state : market_state := MarketState initial tt 0 false 0 0.
Definition state (max_rounds : Z) : market_state :=
  match run_rounds (ctx max_rounds) trucks orders initial tt with Ok s => s | Raise _ => empty_state end.
Definition outcome : market_result :=
  match run_pooled_market (ctx 20) trucks orders initial tt with
  | Ok r => r
  | Raise _ => MarketResult [] ∅ empty_state
  end.

#[export] Instance laws n : ArbitrationLaws (ctx_resolve (ctx n)) := resolve_laws LowestCost.
End Example.

Lemma pooled_awards_safe_witness :
  NoDup (map award_order (awards (ms_market (Example.state 20)))).
Proof.
  refine (proj1 (pooled_awards_safe (H := Example.text) (H0 := Example.gen) (Example.ctx 20)
    Example.trucks Example.orders (ArbitrationLaws0 := Example.laws 20) Example.pools_ab tt (Example.state 20) _)).
  vm_compute. reflexivity.
Defined.

Lemma pooled_assertions_hold_witness :
  run_pooled_market (H := Example.text) (Example.ctx 20) Example.trucks Example.orders Example.initial tt =
  Ok Example.outcome.
Proof.
  etrans; [exact (pooled_assertions_hold (H := Example.text) (H0 := Example.gen) (Example.ctx 20)
    Example.trucks Example.orders (ArbitrationLaws0 := Example.laws 20) Example.pools_ab tt)|].
  vm_compute. reflexivity.
Defined.

Lemma pooled_rounds_terminate_witness : 0 ≤ rounds_used (Example.state 20) ≤ 20.
Proof.
  refine (proj1 (pooled_rounds_terminate (H := Example.text) (H0 := Example.gen) (Example.ctx 20)
    Example.trucks Example.orders (ArbitrationLaws0 := Example.laws 20) Example.pools_ab tt (Example.state 20) _)).
  vm_compute. reflexivity.
Defined.

Lemma pooled_tags_exact_witness :
  res_assignment Example.outcome =
  omap (known_docs (H := Example.text) Example.trucks Example.orders) (awards (ms_market (res_state Example.outcome))).
Proof.
  refine (proj1 (pooled_tags_exact (H := Example.text) (H0 := Example.gen) (Example.ctx 20)
    Example.trucks Example.orders (ArbitrationLaws0 := Example.laws 20) Example.pools_ab tt Example.outcome _)).
  vm_compute. reflexivity.
Defined.

Lemma owner_reserve_is_least_witness :
  ∃ t, t ∈ [Example.truck_b] ∧ Example.three_km t Example.order_a = Ok (f_of_Z 3).
Proof.
  destruct (owner_reserve_is_least (H := Example.text) Example.order_a [Example.truck_b] ∅ Example.always_ok
    Example.three_km (Some (f_of_Z 3))) as [(t & Ht & _ & _ & Hc & _) _].
  - vm_compute. reflexivity.
  - exists t. split; [exact Ht|exact Hc].
Defined.

Lemma round_candidates_eligible_witness :
  Example.truck_b ∈ docs_of Example.trucks "b".
Proof.
  refine (proj1 (round_candidates_eligible (H := Example.text) (H0 := Example.gen) (Example.ctx 20)
    Example.trucks Example.orders
    (contribute Example.initial "o1" "a" ["p:a+b"]).1
    {["b" := [(Example.truck_b, Example.order_a)]]} "b" Example.truck_b Example.order_a _ _ _ _)).
  - intros h t Ht. unfold docs_of, Example.trucks in Ht.
    destruct (decide (h = "b")) as [->|Hne].
    + rewrite lookup_singleton_eq in Ht. apply list_elem_of_singleton in Ht as ->. vm_compute. reflexivity.
    + rewrite lookup_singleton_ne in Ht by congruence. by apply elem_of_nil in Ht.
  - discriminate.
  - vm_compute. reflexivity.
  - vm_compute. left.
Defined.

(** a tick can report a truncated auction although nothing was left to
    allocate.  With one round allowed, the example's only order is awarded in that
    round, no order is free, and the result still says the auction did not
    converge: the check for free orders runs only at the start of a next round. *)
Theorem backstop_false_alarm :
  run_rounds (H := Example.text) (Example.ctx 1) Example.trucks Example.orders Example.initial tt = Ok (Example.state 1) ∧
  converged (Example.state 1) = false ∧
  existsb (is_order_free (ms_market (Example.state 1))) (input_order_ids (H := Example.text) Example.orders) = false.
Proof. split; [vm_compute; reflexivity|]. split; vm_compute; reflexivity. Qed.
