(* ===== verification/BatchWriter.v ===== *)
(** The order-lifecycle service: one batch of order events folded into one write
    per order, the demand curve and the overdue sweep
    ([order_lifecycle/batch_writer.py], [order_lifecycle/app.py]). *)

From S2P Require Import Prelude PyValue StateMachines.

(** ** Tables derived from the state machine *)

Definition TERMINAL_STATES : list string := [Order.name Order.completed; Order.name Order.cancelled].
Definition CREATED_STATE : string := Order.name Order.created.
Definition UNASSIGNED_STATE : string := Order.name Order.unassigned.
Definition ASSIGNED_STATE : string := Order.name Order.assigned.
Definition CANCELLED_STATE : string := Order.name Order.cancelled.
Definition SWEEP_CANCEL_REASON : string := "overdue_unassigned".

Definition EVENT_TO_STATE : list (string * string) :=
  foldl (λ d r, d_set d (rule_event r) (target_new_state r)) []
    (filter (λ r, target_statemachine r = Order.sm_name) haultrip_order_interactions).

Definition FEASIBLE_TRANSITIONS : list (string * list string) :=
  map (λ s, (Order.name s, map (λ t, Order.event_name (tr_event t)) (outgoing Order.table s))) Order.states.

Definition ADJACENT : list (string * list string) :=
  map (λ s, (Order.name s, map (λ t, Order.name (tr_target t)) (outgoing Order.table s))) Order.states.

Definition feasible_of (s : string) : list string := default [] (d_get FEASIBLE_TRANSITIONS s).

(** ** The environment

    Times and their text, the digest behind [_etag], and the canonical text of
    the database id a string stands for ([ObjectId]). *)
Class WriterEnv := {
  time : Type;
  parse_time : string → option time;
  isoformat : time → string;
  sha1_hex : string → string;
  as_id : string → string;
}.

(** What is known of an order: its state and its cancel reason. *)
Abbreviation known_state := (option string * option string)%type.

Section Plan.
Context `{PyText, WriterEnv}.

(** [_etag] *)
Definition etag (parts : list string) : string := sha1_hex (String.concat ":" parts).

(** ** Parsing: [parse_event] *)

Record parsed_event := ParsedEvent {
  order_id : string;
  event : string;
  target_state : string;
  ev_truck_id : option string;
  ev_clock : time;
}.

(** [EVENT_TO_STATE.get(event) if event else None] *)
Definition event_target (event : pyval) : result (option string) :=
  if truth event then
  match event with
  | PStr s => Ok (d_get EVENT_TO_STATE s)
  | PList _ | PDict _ => Raise TypeError
  | _ => Ok None
  end
  else Ok None.

Definition event_clock (raw : pyval) (fallback : time) : time :=
  match raw with
  | PStr s => if decide (s = "") then fallback else default fallback (parse_time s)
  | _ => fallback
  end.

Definition parse_event (payload : pyval) (fallback : time) : result (option parsed_event) :=
  match payload with
  | PDict d =>
      let data := match get d "data" with PDict data => data | _ => [] end in
      let ev := py_or (get data "event") (get d "event") in
      target ← event_target ev;
      match target with
      | None => Ok None
      | Some target_state =>
          let oid := py_or (get data "order_id") (get d "order_id") in
          if negb (truth oid) then Ok None
          else
          let truck := py_or (get d "truck_id") (get data "truck_id") in
          Ok (Some (ParsedEvent (py_str oid) (py_str ev) target_state
                      (match truck with PNone => None | v => Some (py_str v) end)
                      (event_clock (get data "sim_clock") fallback)))
      end
  | _ => Ok None
  end.

(** ** Planning: [plan_event_updates] *)

(** The [$set] document of one order. *)
Record slot := Slot {
  sl_state : string;
  sl_clock : time;
  sl_feasible : list string;
  sl_etag : string;
  sl_truck : option string;
  sl_clear_reason : bool;
}.

Record apply_stats := ApplyStats {
  events_seen : nat;
  parsed : nat;
  unknown : nat;
  orders_touched : nat;
  applied : nat;
  skipped_terminal : nat;
  warned_jumps : nat;
  st_resurrected : nat;
}.

(** [_resurrectable] *)
Definition resurrectable (k : known_state) : bool :=
  bool_decide (k.1 = Some CANCELLED_STATE) && bool_decide (k.2 = Some SWEEP_CANCEL_REASON).

Definition is_terminal (s : option string) : bool :=
  match s with Some s => bool_decide (s ∈ TERMINAL_STATES) | None => false end.

(** The fold's accumulator.  [merged] is in first-touch order, as [order_seq]. *)
Record plan_state := PlanState {
  merged : list (string * slot);
  resurrected : gset string;
  effective : gmap string known_state;
  skips : nat;
  jumps : nat;
  revivals : nat;
}.

Definition set_slot (old : option slot) (ev : parsed_event) (clear : bool) : slot :=
  Slot (target_state ev) (ev_clock ev) (feasible_of (target_state ev))
  (etag [order_id ev; target_state ev; isoformat (ev_clock ev)])
  (match ev_truck_id ev with
   | Some t => if decide (target_state ev = ASSIGNED_STATE ∧ t ≠ "") then Some (as_id t)
       else (old ≫= sl_truck)
   | None => (old ≫= sl_truck)
   end)
  clear.

Definition plan_step (current : gmap string known_state) (s : plan_state) (ev : parsed_event) : plan_state :=
  let oid := order_id ev in
  let known := match effective s !! oid with
     | Some k => k
     | None => default (None, None) (current !! oid)
     end in
  let eff0 := <[oid := known]> (effective s) in
  let reviving := resurrectable known in
  if reviving && bool_decide (target_state ev = CANCELLED_STATE)
   || negb reviving && is_terminal known.1
  then PlanState (merged s) (resurrected s) eff0 (S (skips s)) (jumps s) (revivals s)
  else
  let res := if reviving then {[oid]} ∪ resurrected s else resurrected s in
  let revived := if reviving && bool_decide (oid ∉ resurrected s) then 1 else 0 in
  let jump := match known.1 with
      | Some k => negb reviving && bool_decide (target_state ev ≠ k) &&
                  bool_decide (target_state ev ∉ default [] (d_get ADJACENT k))
      | None => false
      end in
  let sl := set_slot (d_get (merged s) oid) ev (bool_decide (oid ∈ res)) in
  PlanState (d_set (merged s) oid sl) res (<[oid := (Some (target_state ev), None)]> eff0)
  (skips s) (if jump then S (jumps s) else jumps s) (revived + revivals s).

Definition plan_start : plan_state := PlanState [] ∅ ∅ 0 0 0.

(** The operations, as pairs of an order id and its [$set], and the statistics. *)
Definition plan_event_updates (events : list parsed_event) (current : gmap string known_state) :
  list (string * slot) * apply_stats :=
  let s := foldl (plan_step current) plan_start events in
  (merged s, ApplyStats 0 (length events) 0 (length (merged s)) 0 (skips s) (jumps s) (revivals s)).

(** ** Order documents and the writes on them *)

Record order_doc := OrderDoc {
  od_id : string;
  od_run : string;
  od_state : string;
  od_clock : time;
  od_updated : time;
  od_feasible : list string;
  od_etag : string;
  od_truck : option string;
  od_haulier : option string;
  od_request_step : option Z;
  od_reason : option string;
}.

Definition doc_known (d : order_doc) : known_state := (Some (od_state d), od_reason d).

(** The [$or] guard of an event write. *)
Definition writable (d : order_doc) : bool :=
  bool_decide (od_state d ∉ TERMINAL_STATES) || resurrectable (doc_known d).

Definition apply_set (sl : slot) (d : order_doc) : order_doc :=
  OrderDoc (od_id d) (od_run d) (sl_state sl) (sl_clock sl) (sl_clock sl) (sl_feasible sl) (sl_etag sl)
  (match sl_truck sl with Some t => Some t | None => od_truck d end)
  (od_haulier d) (od_request_step d) (if sl_clear_reason sl then None else od_reason d).

(** [UpdateOne(filter, {"$set": set_doc})] on one document. *)
Definition apply_op (run : string) (op : string * slot) (d : order_doc) : order_doc :=
  if bool_decide (od_id d = as_id op.1) && bool_decide (od_run d = run) && writable d
  then apply_set op.2 d else d.

(** [_scope] *)
Definition in_scope (haulier_filter : option (list string)) (d : order_doc) : bool :=
  match haulier_filter with
  | Some (h :: hs) => match od_haulier d with Some x => bool_decide (x ∈ h :: hs) | None => false end
  | _ => true
  end.

(** [publish_due] on one document. *)
Definition publish_matches (run : string) (hf : option (list string)) (step : Z) (d : order_doc) : bool :=
  bool_decide (od_run d = run) && bool_decide (od_state d = CREATED_STATE) &&
  match od_request_step d with Some k => (k <=? step)%Z | None => false end && in_scope hf d.

Definition publish_set (run : string) (step : Z) (now : time) (d : order_doc) : order_doc :=
  OrderDoc (od_id d) (od_run d) UNASSIGNED_STATE now now (feasible_of UNASSIGNED_STATE)
  (etag [run; "publish"; py_str (PInt step)]) (od_truck d) (od_haulier d) (od_request_step d) (od_reason d).

(** [cancel_overdue_unassigned] on one document. *)
Definition sweep_matches (run : string) (hf : option (list string)) (step max_wait : Z)
  (open_ids : list string) (d : order_doc) : bool :=
  bool_decide (od_run d = run) && bool_decide (od_state d = UNASSIGNED_STATE) &&
  match od_request_step d with Some k => (k <? step - max_wait)%Z | None => false end &&
  bool_decide (od_id d ∉ map as_id (filter (λ x, x ≠ "") open_ids)) && in_scope hf d.

Definition sweep_set (run : string) (step : Z) (now : time) (d : order_doc) : order_doc :=
  OrderDoc (od_id d) (od_run d) CANCELLED_STATE now now []
  (etag [run; "sweep"; py_str (PInt step)]) (od_truck d) (od_haulier d) (od_request_step d)
  (Some SWEEP_CANCEL_REASON).

Definition update_if (p : order_doc → bool) (f : order_doc → order_doc) (d : order_doc) : order_doc :=
  if p d then f d else d.
End Plan.

(** ** The collection: what the database driver promises

    [update_many] rewrites the matching documents; [bulk_write(ordered=False)]
    applies its operations in some order; the cursor of [find] yields documents and
    may fail on the way: [true] says it came to its end, having yielded the
    documents with the given ids.  Writes also report a count. *)
Class Collection `{WriterEnv} := {
  coll : Type;
  docs : coll → list order_doc;
  find : coll → list string → list order_doc * bool;
  bulk_write : coll → string → list (string * slot) → coll * nat;
  update_many : coll → (order_doc → bool) → (order_doc → order_doc) → coll * nat;
}.

Class CollectionLaws `{Collection} : Prop := {
  find_docs c ids l : find c ids = (l, true) → ∀ d, d ∈ l ↔ d ∈ docs c ∧ od_id d ∈ ids;
  bulk_write_docs c run ops : ∃ ops', ops' ≡ₚ ops ∧
    docs (bulk_write c run ops).1 = map (λ d, foldl (λ d op, apply_op run op d) d ops') (docs c);
  update_many_docs c p f : docs (update_many c p f).1 = map (update_if p f) (docs c);
}.

Section Writer.
Context `{PyText, Collection} (run_id : string) (haulier_filter : option (list string)).

(** ** [OrderBatchWriter] *)

Definition current_states (l : list order_doc) : gmap string known_state :=
  foldl (λ m d, <[od_id d := doc_known d]> m) ∅ l.

Definition with_counts (s : apply_stats) (seen modified : nat) : apply_stats :=
  ApplyStats seen (parsed s) (seen - parsed s) (orders_touched s) modified
  (skipped_terminal s) (warned_jumps s) (st_resurrected s).

Definition apply_events (c : coll) (raw_payloads : list pyval) (fallback : time) :
  result (coll * apply_stats) :=
  parsed ← mapR (λ p, parse_event p fallback) raw_payloads;
  let events := omap id parsed in
  let seen := length raw_payloads in
  match events with
  | [] => Ok (c, ApplyStats seen 0 seen 0 0 0 0 0)
  | _ =>
      let current := current_states (find c (map (λ e, as_id (order_id e)) events)).1 in
      let '(ops, stats) := plan_event_updates events current in
      match ops with
      | [] => Ok (c, with_counts stats seen 0)
      | _ => let '(c', n) := bulk_write c run_id ops in Ok (c', with_counts stats seen n)
      end
  end.

Definition publish_due (c : coll) (step : Z) (now : time) : coll * nat :=
  update_many c (publish_matches run_id haulier_filter step) (publish_set run_id step now).

Definition cancel_overdue_unassigned (c : coll) (step max_wait : Z) (open_ids : list string) (now : time) :
  coll * nat :=
  update_many c (sweep_matches run_id haulier_filter step max_wait open_ids) (sweep_set run_id step now).

(** ** [OrderLifecycleApp.run_step]

[queue] holds the messages not yet dequeued; an empty queue and a queued
[None] both end the drain.  [open_ids] is the manager's answer, asked for only
when the sweep runs, and [interval] the configured [sweep_interval_steps]. *)
Fixpoint drain (queue : list pyval) : list pyval :=
  match queue with
  | [] | PNone :: _ => []
  | payload :: rest => payload :: drain rest
  end.

Definition sweep_interval (interval : Z) : Z := Z.max 1 interval.

Definition run_step (c : coll) (queue : list pyval) (sim_clock : string) (time_step max_wait_steps horizon_steps
  interval : Z) (open_ids : list string) : result (coll * (apply_stats * nat * nat)) :=
  now ← match parse_time sim_clock with Some t => Ok t | None => Raise ValueError end;
  r ← apply_events c (drain queue) now;
  let '(c1, stats) := r in
  let '(c2, published) :=
  if (horizon_steps =? 0)%Z || (time_step <? horizon_steps)%Z then publish_due c1 time_step now
  else (c1, 0) in
  let '(c3, swept) :=
  if (0 <? max_wait_steps)%Z && (time_step mod sweep_interval interval =? 0)%Z
  then cancel_overdue_unassigned c2 time_step max_wait_steps open_ids now
  else (c2, 0) in
  Ok (c3, (stats, published, swept)).

(** [close]: the final drain, whose failure is logged only. *)
Definition close_service (c : coll) (queue : list pyval) (sim_clock : string) : coll :=
  catch (now ← match parse_time sim_clock with Some t => Ok t | None => Raise ValueError end;
   r ← apply_events c (drain queue) now; Ok r.1) c.
End Writer.

(** ** The specification: one event at a time

    What applying a single event to a single document should do: nothing when the
    document is another order's, terminal, or a sweep's cancel hit by a cancel;
    otherwise move it, reviving a sweep's cancel. *)

Section Spec.
Context `{WriterEnv}.

Definition event_applies (run : string) (ev : parsed_event) (d : order_doc) : bool :=
  bool_decide (od_id d = order_id ev) && bool_decide (od_run d = run) &&
  (if resurrectable (doc_known d) then negb (bool_decide (target_state ev = CANCELLED_STATE))
   else bool_decide (od_state d ∉ TERMINAL_STATES)).

Definition spec_event (run : string) (d : order_doc) (ev : parsed_event) : order_doc :=
  if event_applies run ev d then
  OrderDoc (od_id d) (od_run d) (target_state ev) (ev_clock ev) (ev_clock ev)
  (feasible_of (target_state ev)) (etag [order_id ev; target_state ev; isoformat (ev_clock ev)])
  (match ev_truck_id ev with
   | Some t => if decide (target_state ev = ASSIGNED_STATE ∧ t ≠ "") then Some (as_id t) else od_truck d
   | None => od_truck d
   end)
  (od_haulier d) (od_request_step d)
  (if resurrectable (doc_known d) then None else od_reason d)
  else d.

Definition spec_events (run : string) (evs : list parsed_event) (d : order_doc) : order_doc :=
  foldl (spec_event run) d evs.

(** The sweep's marker is on cancelled documents only. *)
Definition doc_wf (d : order_doc) : Prop :=
  od_reason d = Some SWEEP_CANCEL_REASON → od_state d = CANCELLED_STATE.
End Spec.

(** ** Lemmas: the fold tracks the specification *)

Section FoldLemmas.
Context `{WriterEnv} (run : string).

Lemma apply_set_id sl d : od_id (apply_set sl d) = od_id d.
Proof. done. Qed.

Lemma spec_event_id d ev : od_id (spec_event run d ev) = od_id d ∧ od_run (spec_event run d ev) = od_run d.
Proof. unfold spec_event. by destruct (event_applies run ev d). Qed.

Definition known_in (current : gmap string known_state) (s : plan_state) (i : string) : known_state :=
  match effective s !! i with Some k => k | None => default (None, None) (current !! i) end.

(** The plan state [s] describes what the events so far made of document [d]. *)
Record tracks (current : gmap string known_state) (d : order_doc) (s : plan_state) (d' : order_doc) : Prop := {
  tr_id : od_id d' = od_id d;
  tr_run : od_run d' = run;
  tr_wf : doc_wf d';
  tr_state : (known_in current s (od_id d)).1 = Some (od_state d');
  tr_reason : (known_in current s (od_id d)).2 = Some SWEEP_CANCEL_REASON ↔
    od_reason d' = Some SWEEP_CANCEL_REASON;
  tr_merged : match d_get (merged s) (od_id d) with
    | None => d' = d ∧ od_id d ∉ resurrected s
    | Some sl => d' = apply_set sl d ∧ writable d = true ∧
                 sl_clear_reason sl = bool_decide (od_id d ∈ resurrected s)
    end;
}.

Lemma tracks_start current d :
  od_run d = run → doc_wf d → current !! od_id d = Some (doc_known d) → tracks current d plan_start d.
Proof.
  intros Hr Hwf Hc. split; try done; unfold known_in; simpl; rewrite lookup_empty, Hc; done.
Qed.

Lemma tracks_resurrectable current d s d' :
  tracks current d s d' → resurrectable (known_in current s (od_id d)) = resurrectable (doc_known d').
Proof.
  intros Ht. unfold resurrectable. rewrite (tr_state _ _ _ _ Ht). simpl. f_equal.
  apply bool_decide_ext, Ht.
Qed.

(** Another order's event changes nothing that is known of this one. *)
Lemma tracks_other current d s d' ev :
  order_id ev ≠ od_id d → tracks current d s d' →
  tracks current d (plan_step current s ev) (spec_event run d' ev).
Proof.
  intros Hne Ht.
  assert (spec_event run d' ev = d') as ->.
  { unfold spec_event, event_applies. rewrite (tr_id _ _ _ _ Ht).
  by rewrite bool_decide_eq_false_2 by congruence. }
  assert (known_in current (plan_step current s ev) (od_id d) = known_in current s (od_id d) ∧
  d_get (merged (plan_step current s ev)) (od_id d) = d_get (merged s) (od_id d) ∧
  (od_id d ∈ resurrected (plan_step current s ev) ↔ od_id d ∈ resurrected s)) as (E1 & E2 & E3).
  { unfold plan_step, known_in. cbv zeta. destruct (_ || _); simpl.
  - by rewrite lookup_insert_ne.
  - rewrite !lookup_insert_ne by done. rewrite d_get_set_ne by done.
  split_and!; [done|done|]. destruct (resurrectable _); set_solver. }
  destruct Ht as [T1 T2 T3 T4 T5 T6]. split; rewrite ?E1, ?E2; try done.
  destruct (d_get (merged s) (od_id d)) as [sl|].
  - destruct T6 as (? & ? & ->). split_and!; [done|done|]. by apply bool_decide_ext.
  - destruct T6. split; [done|]. by rewrite E3.
Qed.

Lemma event_applies_step current d s d' ev :
  order_id ev = od_id d → tracks current d s d' →
  let known := known_in current s (od_id d) in
  (resurrectable known && bool_decide (target_state ev = CANCELLED_STATE)
   || negb (resurrectable known) && is_terminal known.1) = negb (event_applies run ev d').
Proof.
  intros He Ht known. unfold event_applies.
  rewrite (tr_id _ _ _ _ Ht), (tr_run _ _ _ _ Ht), He.
  rewrite (bool_decide_eq_true_2 (od_id d = od_id d)), (bool_decide_eq_true_2 (run = run)) by done.
  unfold known. rewrite (tracks_resurrectable _ _ _ _ Ht), (tr_state _ _ _ _ Ht). simpl.
  destruct (resurrectable (doc_known d')); simpl.
  - by rewrite orb_false_r, negb_involutive.
  - by rewrite bool_decide_not, negb_involutive.
Qed.

Lemma doc_wf_not_sweep d :
  doc_wf d → resurrectable (doc_known d) = false → od_reason d ≠ Some SWEEP_CANCEL_REASON.
Proof.
  intros Hwf Hr Hs. unfold resurrectable in Hr. simpl in Hr. rewrite (Hwf Hs), Hs in Hr.
  by rewrite !bool_decide_eq_true_2 in Hr.
Qed.

Lemma tracks_own current d s d' ev :
  order_id ev = od_id d → tracks current d s d' →
  tracks current d (plan_step current s ev) (spec_event run d' ev).
Proof.
  intros He Ht. pose proof (event_applies_step _ _ _ _ _ He Ht) as Hap. cbv zeta in Hap.
  pose proof (tracks_resurrectable _ _ _ _ Ht) as Hres.
  unfold plan_step. cbv zeta. rewrite He. fold (known_in current s (od_id d)).
  rewrite Hap. unfold spec_event. destruct (event_applies run ev d') eqn:Eap; simpl.
  2:{ destruct Ht as [T1 T2 T3 T4 T5 T6]. split; [done..| | |done];
  unfold known_in at 1; simpl; rewrite lookup_insert_eq; [exact T4|exact T5]. }
  rewrite Hres. pose proof (tr_wf _ _ _ _ Ht) as Hwf.
  assert (resurrectable (doc_known d') = false → od_reason d' ≠ Some SWEEP_CANCEL_REASON) as Hns
  by by apply doc_wf_not_sweep.
  unfold event_applies in Eap. remember (resurrectable (doc_known d')) as rv eqn:Erv. clear Hres Hap.
  split; simpl; try apply Ht.
  - intros Hr. simpl in Hr. destruct rv; [done|]. by apply Hns in Hr.
  - unfold known_in; simpl. by rewrite lookup_insert_eq.
  - unfold known_in; simpl. rewrite lookup_insert_eq. simpl. split; [done|].
  intros Hr. destruct rv; [done|]. by apply Hns in Hr.
  - rewrite d_get_set_eq. split_and!; [|  |done].
  + pose proof (tr_merged _ _ _ _ Ht) as Hm. unfold apply_set, set_slot; simpl.
  rewrite He. destruct (d_get (merged s) (od_id d)) as [sl|] eqn:Em.
  * destruct Hm as (-> & _ & Hcl). simpl. f_equal.
  -- destruct (ev_truck_id ev) as [t|]; [|done].
   by destruct (decide (target_state ev = ASSIGNED_STATE ∧ t ≠ "")).
  -- destruct rv; simpl.
   ++ by rewrite bool_decide_eq_true_2 by (apply elem_of_union_l, elem_of_singleton; done).
   ++ by rewrite Hcl.
  * destruct Hm as [-> Hni]. f_equal.
  -- destruct (ev_truck_id ev) as [t|]; [|done].
   by destruct (decide (target_state ev = ASSIGNED_STATE ∧ t ≠ "")).
  -- destruct rv; simpl.
   ++ by rewrite bool_decide_eq_true_2 by (apply elem_of_union_l, elem_of_singleton; done).
   ++ by rewrite bool_decide_eq_false_2.
  + pose proof (tr_merged _ _ _ _ Ht) as Hm. destruct (d_get (merged s) (od_id d)) as [sl|].
  { apply Hm. }
  destruct Hm as [-> _]. unfold writable. bools. destruct rv.
  * rewrite <-Erv. apply orb_true_r.
  * match goal with E : bool_decide _ = true |- _ => rewrite E end. done.
Qed.

Lemma plan_tracks current d events :
  od_run d = run → doc_wf d → current !! od_id d = Some (doc_known d) →
  tracks current d (foldl (plan_step current) plan_start events) (spec_events run events d).
Proof.
  intros Hr Hwf Hc. unfold spec_events.
  assert (∀ s d', tracks current d s d' →
  tracks current d (foldl (plan_step current) s events) (foldl (spec_event run) d' events)) as Hf.
  { induction events as [|ev events IH]; intros s d' Ht; simpl; [done|]. apply IH.
  destruct (decide (order_id ev = od_id d)); [by apply tracks_own|by apply tracks_other]. }
  by apply Hf, tracks_start.
Qed.

(** Only orders of the events are written, each by one operation. *)
Lemma plan_keys current events :
  let ops := merged (foldl (plan_step current) plan_start events) in
  NoDup (d_keys ops) ∧ ∀ i, i ∈ d_keys ops → i ∈ map order_id events.
Proof.
  cbv zeta. apply (foldl_invariant (plan_step current)
  (λ s, NoDup (d_keys (merged s)) ∧ ∀ i, i ∈ d_keys (merged s) → i ∈ map order_id events)).
  - intros s ev Hev [Hnd Hin]. unfold plan_step. cbv zeta. destruct (_ || _); simpl; [done|].
  split; [by apply NoDup_d_set|]. intros i [->|?]%elem_d_keys_set; [|auto].
  apply list_elem_of_fmap. by exists ev.
  - split; [constructor|]. by intros i ?%elem_of_nil.
Qed.

(** Unordered one-per-order operations act on each document separately. *)
Lemma foldl_apply_op ops d :
  NoDup (d_keys ops) → (∀ i, i ∈ d_keys ops → as_id i = i) →
  foldl (λ d op, apply_op run op d) d ops =
  match d_get ops (od_id d) with
  | Some sl => if bool_decide (od_run d = run) && writable d then apply_set sl d else d
  | None => d
  end.
Proof.
  revert d. induction ops as [|[i sl] ops IH]; intros d Hnd Hid; simpl; [done|].
  unfold d_keys in Hnd; simpl in Hnd. apply NoDup_cons in Hnd as [Hni Hnd].
  assert (∀ j, j ∈ d_keys ops → as_id j = j) as Hid' by (intros; apply Hid; by right).
  unfold apply_op at 2; simpl. rewrite (Hid i) by left.
  destruct (decide (od_id d = i)) as [Hi|Hi].
  - rewrite bool_decide_eq_true_2 by done. simpl.
  assert (d_get ops (od_id d) = None) as Hnone.
  { apply eq_None_not_Some. by rewrite d_get_is_Some, Hi. }
  destruct (bool_decide (od_run d = run) && writable d) eqn:Ew.
  + rewrite IH by done. simpl. by rewrite Hnone.
  + rewrite IH by done. by rewrite Hnone.
  - rewrite bool_decide_eq_false_2 by done. simpl. by apply IH.
Qed.

Lemma bulk_write_spec current events ops' d :
  (∀ ev, ev ∈ events → as_id (order_id ev) = order_id ev) →
  ops' ≡ₚ merged (foldl (plan_step current) plan_start events) →
  foldl (λ d op, apply_op run op d) d ops' =
  match d_get (merged (foldl (plan_step current) plan_start events)) (od_id d) with
  | Some sl => if bool_decide (od_run d = run) && writable d then apply_set sl d else d
  | None => d
  end.
Proof.
  intros Hid Hp. destruct (plan_keys current events) as [Hnd Hin].
  rewrite foldl_apply_op, (d_get_perm _ _ _ Hnd Hp); [done|unfold d_keys; by rewrite Hp|].
  intros i Hi. unfold d_keys in Hi. rewrite Hp in Hi.
  apply Hin, list_elem_of_fmap in Hi as (ev & -> & ?). auto.
Qed.

Lemma current_states_lookup l d :
  (∀ x, x ∈ l → od_id x = od_id d → x = d) → d ∈ l →
  current_states l !! od_id d = Some (doc_known d).
Proof.
  unfold current_states. induction l as [|x l IH] using rev_ind; intros Huniq Hd.
  { by apply elem_of_nil in Hd. }
  rewrite foldl_app; simpl. destruct (decide (od_id x = od_id d)) as [E|Hne].
  - assert (x = d) as -> by (apply Huniq; [apply elem_of_app; right; by left|done]).
  by rewrite lookup_insert_eq.
  - rewrite lookup_insert_ne by done. apply IH.
  + intros y Hy. apply Huniq. apply elem_of_app. by left.
  + apply elem_of_app in Hd as [?|Hd%list_elem_of_singleton]; [done|]. by subst.
Qed.

Lemma spec_events_other events d :
  (od_run d ≠ run ∨ od_id d ∉ map order_id events) → spec_events run events d = d.
Proof.
  intros Hd. unfold spec_events. induction events as [|ev events IH]; simpl; [done|].
  assert (spec_event run d ev = d) as ->.
  { unfold spec_event, event_applies.
  destruct (bool_decide_reflect (od_id d = order_id ev)); [|done].
  destruct (bool_decide_reflect (od_run d = run)); [|done]. set_solver. }
  apply IH. set_solver.
Qed.
End FoldLemmas.

(** ** Lemmas: the writer's operations on the collection *)

Section WriterLemmas.
Context `{PyText, Collection, !CollectionLaws} (run_id : string) (haulier_filter : option (list string)).

Lemma NoDup_ids_unique (l : list order_doc) x y :
  NoDup (map od_id l) → x ∈ l → y ∈ l → od_id x = od_id y → x = y.
Proof.
  intros Hnd Hx Hy E. apply list_elem_of_lookup in Hx as [i Hi]. apply list_elem_of_lookup in Hy as [j Hj].
  assert (i = j) as <-; [|congruence].
  apply (NoDup_lookup _ i j (od_id x) Hnd).
  - by rewrite list_lookup_fmap, Hi.
  - rewrite list_lookup_fmap, Hj. simpl. by rewrite E.
Qed.

(** What an event batch does: planned operations, in some order. *)
Lemma apply_events_ops c payloads fallback c' stats :
  apply_events run_id c payloads fallback = Ok (c', stats) →
  ∃ parsed current ops', mapR (λ p, parse_event p fallback) payloads = Ok parsed ∧
  let events := omap id parsed in
  ops' ≡ₚ merged (foldl (plan_step current) plan_start events) ∧
  (∀ l, find c (map (λ e, as_id (order_id e)) events) = (l, true) → current = current_states l ∨ events = []) ∧
  docs c' = map (λ d, foldl (λ d op, apply_op run_id op d) d ops') (docs c).
Proof.
  unfold apply_events. intros Ha.
  destruct (mapR _ payloads) as [parsed|]; cbn [mbind result_bind] in Ha; [|done].
  exists parsed. cbv zeta. generalize dependent (omap id parsed). intros events Ha.
  destruct events as [|e events].
  { injection Ha as <- _. exists ∅, []. split_and!; [done|done|by right|].
  simpl. by rewrite map_id. }
  set (evs := e :: events) in *.
  set (current := current_states (find _ _).1) in Ha.
  exists current. unfold plan_event_updates in Ha.
  assert (∀ l, find c (map (λ e, as_id (order_id e)) evs) = (l, true) → current = current_states l) as Hcur.
  { intros l Hl. unfold current. by rewrite Hl. }
  destruct (merged (foldl (plan_step current) plan_start evs)) as [|op ops] eqn:Em; simpl in Ha.
  - injection Ha as <- _. exists []. split_and!; [done|done|auto|]. simpl. by rewrite map_id.
  - destruct (bulk_write_docs c run_id (op :: ops)) as (ops' & Hp & Hd).
  destruct (bulk_write c run_id (op :: ops)) as [c1 n]. injection Ha as <- _. exists ops'.
  split_and!; [done|done|auto|done].
Qed.

Lemma apply_events_spec c payloads fallback parsed l c' stats :
  mapR (λ p, parse_event p fallback) payloads = Ok parsed →
  let events := omap id parsed in
  (∀ ev, ev ∈ events → as_id (order_id ev) = order_id ev) →
  NoDup (map od_id (docs c)) → Forall doc_wf (docs c) →
  find c (map (λ e, as_id (order_id e)) events) = (l, true) →
  apply_events run_id c payloads fallback = Ok (c', stats) →
  docs c' = map (spec_events run_id events) (docs c).
Proof.
  intros Hparsed events Hid Hnd Hwf Hfind Ha.
  destruct (apply_events_ops _ _ _ _ _ Ha) as (parsed' & current & ops' & Hp' & Hops & Hcur & Hd).
  assert (parsed' = parsed) as -> by congruence. fold events in Hops, Hcur. cbv zeta in Hops, Hcur.
  rewrite Hd. apply map_ext_in. intros d Hin%list_elem_of_In.
  rewrite (bulk_write_spec run_id current events ops' d Hid Hops).
  destruct (decide (od_run d = run_id ∧ od_id d ∈ map order_id events)) as [[Hr Hm]|Hn].
  - assert (d ∈ l) as Hdl.
  { apply (find_docs _ _ _ Hfind). split; [done|]. apply list_elem_of_fmap in Hm as (ev & -> & Hev).
  apply list_elem_of_fmap. exists ev. by rewrite Hid. }
  destruct (Hcur l Hfind) as [->|Hnil]; [|by rewrite Hnil in Hm; apply elem_of_nil in Hm].
  rewrite Forall_forall in Hwf.
  pose proof (plan_tracks run_id (current_states l) d events Hr (Hwf d Hin)) as Ht.
  destruct Ht as [_ _ _ _ _ Hmerged].
  { apply current_states_lookup; [|done]. intros x Hx E.
  apply (find_docs _ _ _ Hfind) in Hx as [Hx _]. by apply (NoDup_ids_unique (docs c)). }
  destruct (d_get _ (od_id d)) as [sl|]; [|by destruct Hmerged].
  destruct Hmerged as (-> & Hw & _). by rewrite Hr, Hw, bool_decide_eq_true_2.
  - rewrite spec_events_other.
  2:{ destruct (decide (od_run d = run_id)); [right|left]; tauto. }
  destruct (d_get _ (od_id d)) as [sl|] eqn:E; [|done].
  assert (od_id d ∈ map order_id events) as Hm.
  { apply (plan_keys current events). apply d_get_is_Some. by rewrite E. }
  by rewrite bool_decide_eq_false_2 by tauto.
Qed.

Lemma spec_event_wf d ev : doc_wf d → doc_wf (spec_event run_id d ev).
Proof.
  intros Hwf. unfold spec_event. destruct (event_applies run_id ev d) eqn:E; [|done].
  unfold doc_wf; simpl. destruct (resurrectable (doc_known d)) eqn:Er; [done|].
  intros Hr. by apply (doc_wf_not_sweep d Hwf Er) in Hr.
Qed.

Lemma spec_events_wf evs d : doc_wf d → doc_wf (spec_events run_id evs d).
Proof.
  intros Hwf. unfold spec_events. apply (foldl_invariant _ doc_wf); [|done].
  intros; by apply spec_event_wf.
Qed.

(** A document no later operation of the service may change. *)
Definition hard_terminal (d : order_doc) : Prop :=
  od_state d ∈ TERMINAL_STATES ∧ resurrectable (doc_known d) = false.

Lemma hard_terminal_writes d ops step now max_wait open_ids :
  hard_terminal d →
  foldl (λ d op, apply_op run_id op d) d ops = d ∧
  update_if (publish_matches run_id haulier_filter step) (publish_set run_id step now) d = d ∧
  update_if (sweep_matches run_id haulier_filter step max_wait open_ids) (sweep_set run_id step now) d = d.
Proof.
  intros [Ht Hr]. split_and!.
  - apply (foldl_invariant _ (λ x, x = d)); [|done]. intros x op _ ->. unfold apply_op, writable.
  rewrite Hr, (bool_decide_eq_false_2 (od_state d ∉ TERMINAL_STATES)) by tauto.
  by rewrite andb_false_r.
  - unfold update_if. destruct (publish_matches _ _ _ _) eqn:E; [|done]. unfold publish_matches in E.
  bools. match goal with Hs : od_state d = CREATED_STATE |- _ => rewrite Hs in Ht end.
  vm_compute in Ht. set_solver.
  - unfold update_if. destruct (sweep_matches _ _ _ _ _ _) eqn:E; [|done]. unfold sweep_matches in E.
  bools. match goal with Hs : od_state d = UNASSIGNED_STATE |- _ => rewrite Hs in Ht end.
  vm_compute in Ht. set_solver.
Qed.

(** The three stages of a step, as one function on documents. *)
Definition step_doc (events : list parsed_event) (now : time) (time_step max_wait horizon interval : Z)
  (open_ids : list string) (d : order_doc) : order_doc :=
  let d1 := spec_events run_id events d in
  let d2 := if (horizon =? 0)%Z || (time_step <? horizon)%Z
  then update_if (publish_matches run_id haulier_filter time_step) (publish_set run_id time_step now) d1
  else d1 in
  if (0 <? max_wait)%Z && (time_step mod sweep_interval interval =? 0)%Z
  then update_if (sweep_matches run_id haulier_filter time_step max_wait open_ids)
   (sweep_set run_id time_step now) d2
  else d2.

Lemma run_step_stages c queue clock ts mw hz iv open_ids c' out :
  run_step run_id haulier_filter c queue clock ts mw hz iv open_ids = Ok (c', out) →
  ∃ now c1 stats, parse_time clock = Some now ∧ apply_events run_id c (drain queue) now = Ok (c1, stats) ∧
  docs c' = map (λ d1,
  let d2 := if (hz =? 0)%Z || (ts <? hz)%Z
      then update_if (publish_matches run_id haulier_filter ts) (publish_set run_id ts now) d1
      else d1 in
  if (0 <? mw)%Z && (ts mod sweep_interval iv =? 0)%Z
  then update_if (sweep_matches run_id haulier_filter ts mw open_ids) (sweep_set run_id ts now) d2
  else d2) (docs c1).
Proof.
  unfold run_step. destruct (parse_time clock) as [now|]; simpl; [|done]. intros Hs.
  destruct (apply_events run_id c (drain queue) now) as [[c1 stats]|] eqn:Ea; simpl in Hs; [|done].
  exists now, c1, stats. split_and!; [done|done|].
  pose proof (update_many_docs c1 (publish_matches run_id haulier_filter ts) (publish_set run_id ts now)) as Hpub.
  unfold publish_due in Hs. unfold cancel_overdue_unassigned in Hs.
  assert (∀ x, docs (update_many x (sweep_matches run_id haulier_filter ts mw open_ids)
  (sweep_set run_id ts now)).1 = map (update_if (sweep_matches run_id haulier_filter ts mw open_ids)
  (sweep_set run_id ts now)) (docs x)) as Hsw by (intros; apply update_many_docs).
  destruct ((hz =? 0)%Z || (ts <? hz)%Z); [destruct (update_many c1 _ _) as [c2 p]|set (c2 := c1) in *];
  (destruct ((0 <? mw)%Z && (ts mod sweep_interval iv =? 0)%Z);
   [specialize (Hsw c2); destruct (update_many c2 _ _) as [c3 w]|]); injection Hs as <- _; simpl in *;
  rewrite ?Hsw, ?Hpub, ?map_map; try done; unfold c2; by rewrite ?map_id.
Qed.

Lemma apply_events_total c payloads fallback parsed :
  mapR (λ p, parse_event p fallback) payloads = Ok parsed →
  ∃ c' stats, apply_events run_id c payloads fallback = Ok (c', stats).
Proof.
  intros Hp. unfold apply_events. rewrite Hp. cbn [mbind result_bind].
  destruct (omap id parsed) as [|ev events]; [eauto|]. cbv zeta.
  destruct (plan_event_updates _ _) as [[|op ops] stats]; [eauto|].
  destruct (bulk_write _ _ _). eauto.
Qed.

Lemma update_if_wf p f d : (∀ d, doc_wf d → p d = true → doc_wf (f d)) → doc_wf d → doc_wf (update_if p f d).
Proof. intros Hf Hd. unfold update_if. destruct (p d) eqn:E; auto. Qed.

Lemma publish_wf step now d :
  doc_wf d → doc_wf (update_if (publish_matches run_id haulier_filter step) (publish_set run_id step now) d).
Proof.
  apply update_if_wf. clear d. intros d Hwf Hm Hr. unfold publish_matches in Hm. bools.
  apply Hwf in Hr. assert (CREATED_STATE = CANCELLED_STATE) by congruence. done.
Qed.

Lemma sweep_wf step max_wait open_ids now d :
  doc_wf d → doc_wf (update_if (sweep_matches run_id haulier_filter step max_wait open_ids)
             (sweep_set run_id step now) d).
Proof. apply update_if_wf. done. Qed.

Lemma update_if_id p f d : (∀ d, od_id (f d) = od_id d) → od_id (update_if p f d) = od_id d.
Proof. intros Hf. unfold update_if. destruct (p d); auto. Qed.

Lemma spec_events_id evs d : od_id (spec_events run_id evs d) = od_id d.
Proof.
  unfold spec_events. apply (foldl_invariant _ (λ x, od_id x = od_id d)); [|done].
  intros x ev _ <-. apply spec_event_id.
Qed.

Lemma step_doc_wf events now ts mw hz iv open_ids d :
  doc_wf d → doc_wf (step_doc events now ts mw hz iv open_ids d).
Proof.
  intros Hwf. unfold step_doc. cbv zeta. apply (spec_events_wf events) in Hwf.
  destruct ((hz =? 0)%Z || (ts <? hz)%Z); destruct ((0 <? mw)%Z && (ts mod sweep_interval iv =? 0)%Z);
  auto using publish_wf, sweep_wf.
Qed.

Lemma step_doc_id events now ts mw hz iv open_ids d :
  od_id (step_doc events now ts mw hz iv open_ids d) = od_id d.
Proof.
  unfold step_doc. cbv zeta.
  destruct ((hz =? 0)%Z || (ts <? hz)%Z); destruct ((0 <? mw)%Z && (ts mod sweep_interval iv =? 0)%Z);
  rewrite ?update_if_id by done; apply spec_events_id.
Qed.

Lemma map_docs_ok (f : order_doc → order_doc) l :
  (∀ d, od_id (f d) = od_id d) → (∀ d, doc_wf d → doc_wf (f d)) →
  NoDup (map od_id l) → Forall doc_wf l → NoDup (map od_id (map f l)) ∧ Forall doc_wf (map f l).
Proof.
  intros Hid Hwf Hnd Hl. split.
  - rewrite map_map. by rewrite (map_ext _ od_id) by done.
  - apply Forall_map. by apply (Forall_impl _ _ _ Hl).
Qed.

(** The first event of an order overrides what the sweep did to it. *)
Lemma spec_events_swept pre ev post step now d :
  od_run d = run_id → od_state d = UNASSIGNED_STATE → od_reason d = None →
  order_id ev = od_id d → target_state ev ≠ CANCELLED_STATE →
  Forall (λ e, order_id e ≠ od_id d) pre →
  spec_events run_id (pre ++ ev :: post) (sweep_set run_id step now d) =
  spec_events run_id (pre ++ ev :: post) d.
Proof.
  intros Hr Hs Hn He Ht Hpre. unfold spec_events. rewrite !foldl_app.
  fold (spec_events run_id pre d). fold (spec_events run_id pre (sweep_set run_id step now d)).
  assert (od_id d ∉ map order_id pre) as Hni.
  { intros (e & Ee & Hin)%list_elem_of_fmap. rewrite Forall_forall in Hpre. by apply (Hpre e). }
  rewrite !spec_events_other by (by right). simpl. f_equal.
  unfold spec_event, event_applies. simpl. rewrite Hr, Hs, Hn, He.
  rewrite !(bool_decide_eq_true_2 (_ = _)) by done.
  rewrite (bool_decide_eq_false_2 _ Ht). rewrite (bool_decide_eq_true_2 (UNASSIGNED_STATE ∉ TERMINAL_STATES)).
  2:{ vm_compute. set_solver. }
  assert (resurrectable (doc_known d) = false) as ->; [|done].
  unfold resurrectable; simpl. rewrite Hn. apply andb_false_r.
Qed.
End WriterLemmas.

(** ** Properties *)

Section WriterProperties.
Context `{PyText, Collection, !CollectionLaws} (run_id : string) (haulier_filter : option (list string)).


(** Batch boundaries are invisible: a batch applied at once and the same
events applied in two batches leave the same documents. *)
Theorem batch_boundaries_invisible c p1 p2 fallback c12 s12 c1 s1 c2 s2 :
  (∀ c ids, (find c ids).2 = true) →
  (∀ p ev, p ∈ p1 ++ p2 → parse_event p fallback = Ok (Some ev) → as_id (order_id ev) = order_id ev) →
  NoDup (map od_id (docs c)) → Forall doc_wf (docs c) →
  apply_events run_id c (p1 ++ p2) fallback = Ok (c12, s12) →
  apply_events run_id c p1 fallback = Ok (c1, s1) →
  apply_events run_id c1 p2 fallback = Ok (c2, s2) →
  docs c12 = docs c2.
Proof.
  intros Hread Hid Hnd Hwf H12 H1' H2'.
  assert (∀ x ps cx sx, apply_events run_id x ps fallback = Ok (cx, sx) →
  (∀ p, p ∈ ps → p ∈ p1 ++ p2) → NoDup (map od_id (docs x)) → Forall doc_wf (docs x) →
  ∃ parsed, mapR (λ p, parse_event p fallback) ps = Ok parsed ∧
  docs cx = map (spec_events run_id (omap id parsed)) (docs x)) as Hspec.
  { intros x ps cx sx Ha Hsub Hndx Hwfx.
  destruct (apply_events_ops _ _ _ _ _ _ Ha) as (parsed & _ & _ & Hp & _).
  exists parsed. split; [done|].
  pose proof (Hread x (map (λ e, as_id (order_id e)) (omap id parsed))) as Hr.
  destruct (find x _) as [l ok] eqn:Ef in Hr. simpl in Hr. subst ok.
  apply (apply_events_spec run_id x ps fallback parsed l cx sx Hp); try done.
  intros ev (o & Ho & Eo)%list_elem_of_omap. destruct (mapR_elem _ _ _ _ Hp Ho) as (p & Hpin & Epp).
  apply (Hid p); [by apply Hsub|]. by destruct o; simplify_eq/=. }
  destruct (Hspec _ _ _ _ H12) as (q12 & Hq12 & ->); [done..|].
  destruct (Hspec _ _ _ _ H1') as (q1 & Hq1 & Hd1); [set_solver|done|done|].
  destruct (map_docs_ok (spec_events run_id (omap id q1)) (docs c)) as [Hnd1 Hwf1];
  [apply spec_events_id|apply spec_events_wf|done|done|]. rewrite <-Hd1 in Hnd1, Hwf1.
  destruct (Hspec _ _ _ _ H2') as (q2 & Hq2 & ->); [set_solver|done|done|].
  rewrite (mapR_app _ _ _ _ _ Hq1 Hq2) in Hq12. injection Hq12 as <-.
  rewrite Hd1, map_map, omap_app. unfold spec_events. apply map_ext. intros d. by rewrite foldl_app.
Qed.

(** A completed order, or one cancelled by anything but the sweep, is never
rewritten by a step: not by events, even when the read of the current states
failed or the batch repeats the order, nor by publication or the sweep. *)
Theorem terminal_never_overwritten c queue clock ts mw hz iv open_ids c' out i d :
  run_step run_id haulier_filter c queue clock ts mw hz iv open_ids = Ok (c', out) →
  docs c !! i = Some d → hard_terminal d → docs c' !! i = Some d.
Proof.
  intros Hs Hi Ht.
  destruct (run_step_stages _ _ _ _ _ _ _ _ _ _ _ _ Hs) as (now & c1 & stats & _ & Ha & ->).
  destruct (apply_events_ops _ _ _ _ _ _ Ha) as (parsed & current & ops & _ & _ & _ & ->).
  rewrite !list_lookup_fmap, Hi. simpl. f_equal.
  destruct (hard_terminal_writes run_id haulier_filter d ops ts now mw open_ids Ht) as (-> & Hp & Hw).
  destruct ((hz =? 0)%Z || (ts <? hz)%Z), ((0 <? mw)%Z && _); by rewrite ?Hp, ?Hw.
Qed.

(** Sweeping an order whose haul is under way does no lasting harm: when its
first event of the next batch is not a cancel, the batch leaves the document
it would have left had the sweep never run. *)
Theorem sweep_is_advisory c step max_wait open_ids now payloads fallback parsed l l' c0 s0 c1 s1 i d pre ev post :
  let swept := (cancel_overdue_unassigned run_id haulier_filter c step max_wait open_ids now).1 in
  let ids := map (λ e, as_id (order_id e)) (omap id parsed) in
  mapR (λ p, parse_event p fallback) payloads = Ok parsed → omap id parsed = pre ++ ev :: post →
  (∀ e, e ∈ omap id parsed → as_id (order_id e) = order_id e) →
  NoDup (map od_id (docs c)) → Forall doc_wf (docs c) →
  find c ids = (l, true) → find swept ids = (l', true) →
  apply_events run_id c payloads fallback = Ok (c0, s0) →
  apply_events run_id swept payloads fallback = Ok (c1, s1) →
  docs c !! i = Some d → od_reason d = None →
  sweep_matches run_id haulier_filter step max_wait open_ids d = true →
  Forall (λ e, order_id e ≠ od_id d) pre → order_id ev = od_id d → target_state ev ≠ CANCELLED_STATE →
  docs c1 !! i = docs c0 !! i.
Proof.
  intros swept ids Hp Hev Hid Hnd Hwf Hl Hl' H0' H1' Hi Hn Hm Hpre He Ht.
  assert (docs swept = map (update_if (sweep_matches run_id haulier_filter step max_wait open_ids)
  (sweep_set run_id step now)) (docs c)) as Hsw by apply update_many_docs.
  destruct (map_docs_ok (update_if (sweep_matches run_id haulier_filter step max_wait open_ids)
  (sweep_set run_id step now)) (docs c)) as [Hnd' Hwf'];
  [intros; by apply update_if_id|intros; by apply sweep_wf|done|done|].
  rewrite <-Hsw in Hnd', Hwf'.
  rewrite (apply_events_spec run_id c payloads fallback parsed l c0 s0) by done.
  rewrite (apply_events_spec run_id swept payloads fallback parsed l' c1 s1) by done.
  rewrite Hsw, !list_lookup_fmap, Hi. simpl. f_equal. unfold update_if. rewrite Hm, Hev.
  unfold sweep_matches in Hm. bools. by apply spec_events_swept.
Qed.
End WriterProperties.

(** ** A collection kept as a list, and a run over it *)

Module Example.
#[local] Instance text : PyText := no_text.

#[local] Instance env : WriterEnv := {|
  time := Z;
  parse_time := λ s, if decide (s = "t0") then Some 0%Z else if decide (s = "t1") then Some 1%Z else None;
  isoformat := λ t, py_str (PInt t);
  sha1_hex := λ s, s;
  as_id := λ s, s;
|}.

#[local] Instance list_collection : Collection := {|
  coll := list order_doc;
  docs := λ c, c;
  find := λ c ids, (filter (λ d, od_id d ∈ ids) c, true);
  bulk_write := λ c run ops, (map (λ d, foldl (λ d op, apply_op run op d) d ops) c, length ops);
  update_many := λ c p f, (map (update_if p f) c, length (filter (λ d, p d = true) c));
|}.

#[local] Instance list_collection_laws : CollectionLaws.
Proof.
  split.
  - intros c ids l [= <-] d. rewrite list_elem_of_filter. tauto.
  - intros c run ops. by exists ops.
  - done.
Qed.

Definition an_order (i s : string) (reason : option string) : order_doc :=
  OrderDoc i "run" s 0%Z 0%Z [] "" None (Some "h1") (Some 1%Z) reason.

Definition collection : coll :=
  [an_order "o1" "unassigned" None; an_order "o2" "completed" None; an_order "o3" "created" None].

Definition message (event order : string) : pyval :=
  PDict [("data", PDict [("event", PStr event); ("order_id", PStr order); ("sim_clock", PStr "t1")]);
   ("truck_id", PStr "t7")].

Definition queue : list pyval :=
  [message "order_assigned_to_truck" "o1"; message "order_cancelled" "o2";
   message "no_such_event" "o1"; message "order_pickup_started" "o1"].

Definition parsed_queue : list (option parsed_event) :=
  match mapR (λ p, parse_event p 0%Z) queue with Ok l => l | Raise _ => [] end.

Ltac concrete :=
  first [ exact I | done | by vm_compute | by apply (bool_decide_eq_true_1 _); vm_compute
  | rewrite Forall_forall; intros x Hx; vm_compute in Hx;
  repeat (apply elem_of_cons in Hx as [->|Hx]; [try (by vm_compute); try done|]);
  by apply elem_of_nil in Hx
  | by intros ].


Definition no_stats : apply_stats := ApplyStats 0 0 0 0 0 0 0 0.

Definition applied (c : coll) (payloads : list pyval) : coll * apply_stats :=
  match apply_events "run" c payloads 0%Z with Ok r => r | Raise _ => (c, no_stats) end.

Definition swept : coll := (cancel_overdue_unassigned "run" None collection 60%Z 5%Z [] 0%Z).1.

Lemma batch_boundaries_invisible_witness :
  apply_events "run" collection queue 0%Z = Ok (applied collection queue) ∧
  docs (applied collection queue).1 =
  docs (applied (applied collection (take 2 queue)).1 (drop 2 queue)).1.
Proof.
  split; [vm_compute; reflexivity|].
  refine (batch_boundaries_invisible "run" collection (take 2 queue) (drop 2 queue) 0%Z _ _ _ _ _ _ _ _ _ _ _ _ _).
  - done.
  - done.
  - concrete.
  - concrete.
  - instantiate (1 := (applied collection queue).2). vm_compute. reflexivity.
  - instantiate (1 := (applied collection (take 2 queue)).2). vm_compute. reflexivity.
  - instantiate (1 := (applied (applied collection (take 2 queue)).1 (drop 2 queue)).2). vm_compute. reflexivity.
Defined.

Definition stepped : coll * (apply_stats * nat * nat) :=
  match run_step "run" None collection queue "t0" 60%Z 5%Z 0%Z 30%Z [] with
  | Ok r => r | Raise _ => (collection, (no_stats, 0, 0)) end.

Lemma terminal_never_overwritten_witness :
  stepped.2.2 = 1 ∧ docs stepped.1 !! 1 = Some (an_order "o2" "completed" None).
Proof.
  split; [vm_compute; reflexivity|].
  refine (terminal_never_overwritten "run" None collection queue "t0" 60%Z 5%Z 0%Z 30%Z [] stepped.1 stepped.2 1 _ _ _ _).
  - vm_compute. reflexivity.
  - reflexivity.
  - split; concrete.
Defined.

Lemma sweep_is_advisory_witness :
  docs swept !! 0 ≠ docs collection !! 0 ∧
  docs (applied swept queue).1 !! 0 = docs (applied collection queue).1 !! 0.
Proof.
  split; [by vm_compute|].
  refine (sweep_is_advisory "run" None collection 60%Z 5%Z [] 0%Z queue 0%Z parsed_queue
  (find collection (map order_id (omap id parsed_queue))).1
  (find swept (map order_id (omap id parsed_queue))).1 _ (applied collection queue).2 _ (applied swept queue).2 0
  (an_order "o1" "unassigned" None) [] (nth 0 (omap id parsed_queue) (ParsedEvent "" "" "" None 0%Z))
  (drop 1 (omap id parsed_queue)) _ _ _ _ _ _ _ _ _ _ _ _ _ _ _).
  all: try (vm_compute; reflexivity).
  all: try concrete.
Defined.
End Example.
