(* ===== verification/Frame.v ===== *)
(** The frame contract of the data plane: the binary codec of a tick's truck
    positions and the table of state codes ([dataplane/contract/frame.py]). *)

From Stdlib Require Import Strings.Byte.
From coqutil Require Import Word.LittleEndianList.
From S2P Require Import Prelude PyValue.

#[export] Instance byte_eq_decision : EqDecision byte := byte_eq_dec.

(** ** Constants *)

(** [b"ORDP"] *)
Definition FRAME_MAGIC : list byte := [x4f; x52; x44; x50].
Definition FRAME_MAGIC_text : string := "ORDP".
Definition FRAME_VERSION : Z := 1.
Definition HEADER_SIZE : nat := 24.
Definition KIND_KEYFRAME : Z := 0.
Definition KIND_DELTA : Z := 1.

Definition FrameDecodeError : exn := OtherError "FrameDecodeError".
Definition FrameVersionMismatch : exn := OtherError "FrameVersionMismatch".
Definition FrameError : exn := OtherError "FrameError".
Definition struct_error : exn := OtherError "struct.error".

(** ** State codes *)

Definition STATE_NAMES : list string :=
  ["unknown"; "idle"; "created"; "assigned"; "repositioning_to_pickup"; "queued_for_pickup";
   "at_pickup_gate"; "loaded_in_transit"; "queued_for_dropoff"; "at_dropoff_gate"; "completed";
   "cancelled"].

Definition STATE_CODES : list (string * Z) :=
  imap (λ i name, (name, Z.of_nat i)) STATE_NAMES.

Definition known_code (z : Z) : bool := (0 <=? z)%Z && (z <? Z.of_nat (length STATE_NAMES))%Z.

(** [bool] is an [int] to Python. *)
Definition state_code (name : pyval) : Z :=
  match name with
  | PInt z => if known_code z then z else 0%Z
  | PBool b => if b then 1%Z else 0%Z
  | PStr s => default 0%Z (d_get STATE_CODES s)
  | _ => 0%Z
  end.

Definition state_name (code : Z) : string :=
  if known_code code then nth (Z.to_nat code) STATE_NAMES "unknown" else "unknown".

(** ** NumPy's buffers

    An array is the list of its elements: an unsigned integer of the width, or
    the 64-bit pattern of a float.  [frombuffer buf w n off] reads [n] elements
    of [w] bytes from offset [off]. *)
Class Numpy := {
  tobytes : nat → list Z → list byte;
  frombuffer : list byte → nat → nat → nat → result (list Z);
}.

Fixpoint words (w n : nat) (buf : list byte) : list Z :=
  match n with
  | 0 => []
  | S n => le_combine (take w buf) :: words w n (drop w buf)
  end.

Definition le_bytes (w : nat) (l : list Z) : list byte := l ≫= le_split w.

(** Little-endian layout, as documented. *)
Class NumpyLaws `{Numpy} : Prop := {
  tobytes_le w l : tobytes w l = le_bytes w l;
  frombuffer_le buf w n off :
    off + w * n ≤ length buf → frombuffer buf w n off = Ok (words w n (drop off buf));
}.

(** ** [Frame] *)

(** Floats are kept as their bit patterns. *)
Record frame := Frame {
  frame_idx : Z;
  sim_time_ms : Z;
  lng : list Z;
  lat : list Z;
  slot : list Z;
  state : list Z;
  haulier : list Z;
  kind : Z;
  version : Z;
}.

(** The constructor with its [__post_init__]. *)
Definition new_frame (idx t : Z) (lng lat slot state haulier : list Z) (kind version : Z) : result frame :=
  if bool_decide (length lat = length lng ∧ length slot = length lng ∧
                  length state = length lng ∧ length haulier = length lng)
  then Ok (Frame idx t lng lat slot state haulier kind version)
  else Raise FrameError.

Definition frame_n (f : frame) : nat := length (lng f).

(** ** The binary codec *)

(** One unsigned field of [struct.pack]. *)
Definition pack_uint (w : nat) (z : Z) : result (list byte) :=
  if (0 <=? z)%Z && (z <? 2 ^ (Z.of_nat w * 8))%Z then Ok (le_split w z) else Raise struct_error.

(** [HEADER_STRUCT.pack]: ["<4sHBBIId"] *)
Definition pack_header (version kind reserved idx n t : Z) : result (list byte) :=
  v ← pack_uint 2 version; k ← pack_uint 1 kind; r ← pack_uint 1 reserved;
  i ← pack_uint 4 idx; c ← pack_uint 4 n;
  Ok (FRAME_MAGIC ++ v ++ k ++ r ++ i ++ c ++ le_split 8 t).

Section Codec.
Context `{Numpy}.

Definition encode (f : frame) : result (list byte) :=
  header ← pack_header (version f) (kind f) 0 (frame_idx f) (Z.of_nat (frame_n f)) (sim_time_ms f);
  Ok (header ++ tobytes 8 (lng f) ++ tobytes 8 (lat f) ++ tobytes 4 (slot f) ++
  tobytes 1 (state f) ++ tobytes 1 (haulier f)).

(** The bytes [off, off + w) of the header, as an unsigned number. *)
Definition field (buf : list byte) (off w : nat) : Z := le_combine (take w (drop off buf)).

Definition decode (buf : list byte) : result frame :=
  if bool_decide (length buf < HEADER_SIZE) then Raise FrameDecodeError
  else
  let version := field buf 4 2 in
  let kind := field buf 6 1 in
  let idx := field buf 8 4 in
  let n := field buf 12 4 in
  let t := field buf 16 8 in
  if bool_decide (take 4 buf ≠ FRAME_MAGIC) then Raise FrameDecodeError
  else if negb (version =? FRAME_VERSION)%Z then Raise FrameVersionMismatch
  else if negb ((kind =? KIND_KEYFRAME)%Z || (kind =? KIND_DELTA)%Z) then Raise FrameDecodeError
  else
  let n := Z.to_nat n in
  if bool_decide (length buf ≠ HEADER_SIZE + 22 * n) then Raise FrameDecodeError
  else
  lng ← frombuffer buf 8 n HEADER_SIZE;
  lat ← frombuffer buf 8 n (HEADER_SIZE + 8 * n);
  slot ← frombuffer buf 4 n (HEADER_SIZE + 16 * n);
  state ← frombuffer buf 1 n (HEADER_SIZE + 20 * n);
  haulier ← frombuffer buf 1 n (HEADER_SIZE + 21 * n);
  new_frame idx t lng lat slot state haulier kind version.
End Codec.

(** ** Lemmas: little-endian words *)

Lemma le_bytes_cons w z l : le_bytes w (z :: l) = le_split w z ++ le_bytes w l.
Proof. done. Qed.

Lemma length_le_bytes w l : length (le_bytes w l) = w * length l.
Proof.
  induction l as [|z l IH]; [unfold le_bytes; simpl; lia|].
  rewrite le_bytes_cons, length_app, length_le_split, IH. simpl. lia.
Qed.

Definition fits (w : nat) (z : Z) : Prop := (0 <= z < 2 ^ (Z.of_nat w * 8))%Z.

Lemma le_combine_fits bs : fits (length bs) (le_combine bs).
Proof.
  unfold fits. pose proof (le_combine_split (length bs) (le_combine bs)) as E.
  rewrite split_le_combine in E. rewrite E. apply Z.mod_pos_bound, Z.pow_pos_nonneg; lia.
Qed.

Lemma le_combine_split_fits w z : fits w z → le_combine (le_split w z) = z.
Proof. intros Hz. rewrite le_combine_split. by apply Z.mod_small. Qed.

Lemma split_combine_length w bs : length bs = w → le_split w (le_combine bs) = bs.
Proof. intros <-. apply split_le_combine. Qed.

Lemma le_combine_fits' w bs : length bs = w → fits w (le_combine bs).
Proof. intros <-. apply le_combine_fits. Qed.

Lemma words_le_bytes w l rest : Forall (fits w) l → words w (length l) (le_bytes w l ++ rest) = l.
Proof.
  induction l as [|z l IH]; intros Hl; [done|]. inversion_clear Hl.
  rewrite le_bytes_cons, <-app_assoc. simpl.
  rewrite take_app_length', drop_app_length' by (by rewrite length_le_split).
  by rewrite le_combine_split_fits, IH.
Qed.

Lemma le_bytes_words w n buf : w * n ≤ length buf → le_bytes w (words w n buf) = take (w * n) buf.
Proof.
  revert buf. induction n as [|n IH]; intros buf Hb; [by rewrite Nat.mul_0_r|].
  cbn [words]. rewrite le_bytes_cons, IH by (rewrite length_drop; lia).
  rewrite split_combine_length by (rewrite length_take; lia).
  replace (w * S n) with (w + w * n) by lia. by rewrite take_take_drop.
Qed.

Lemma length_words w n buf : length (words w n buf) = n.
Proof. revert buf. induction n as [|n IH]; intros buf; simpl; [done|]. by rewrite IH. Qed.

Lemma words_fits w n buf : w * n ≤ length buf → Forall (fits w) (words w n buf).
Proof.
  revert buf. induction n as [|n IH]; intros buf Hb; constructor.
  - apply le_combine_fits'. rewrite length_take. lia.
  - apply IH. rewrite length_drop. lia.
Qed.

(** ** Lemmas: the two directions of the codec *)

Section CodecLemmas.
Context `{NumpyLaws}.

(** What the arrays' element types and the frame's integer types guarantee. *)
Record frame_wf (f : frame) : Prop := {
  wf_idx : fits 4 (frame_idx f);
  wf_n : fits 4 (Z.of_nat (frame_n f));
  wf_time : fits 8 (sim_time_ms f);
  wf_lng : Forall (fits 8) (lng f);
  wf_lat : Forall (fits 8) (lat f) ∧ length (lat f) = length (lng f);
  wf_slot : Forall (fits 4) (slot f) ∧ length (slot f) = length (lng f);
  wf_state : Forall (fits 1) (state f) ∧ length (state f) = length (lng f);
  wf_haulier : Forall (fits 1) (haulier f) ∧ length (haulier f) = length (lng f);
  wf_kind : kind f = KIND_KEYFRAME ∨ kind f = KIND_DELTA;
  wf_version : version f = FRAME_VERSION;
}.

Lemma pack_uint_fits w z : fits w z → pack_uint w z = Ok (le_split w z).
Proof.
  intros [? ?]. unfold pack_uint. rewrite (proj2 (Z.leb_le _ _)), (proj2 (Z.ltb_lt _ _)) by done. done.
Qed.

Lemma pack_uint_combine w bs : length bs = w → pack_uint w (le_combine bs) = Ok bs.
Proof. intros E. rewrite pack_uint_fits by by apply le_combine_fits'. by rewrite split_combine_length. Qed.

Lemma field_at buf a m rest off w :
  buf = a ++ m ++ rest → length a = off → length m = w → field buf off w = le_combine m.
Proof. intros -> <- <-. unfold field. by rewrite drop_app_length, take_app_length. Qed.

Lemma array_at buf a l rest off w n :
  buf = a ++ le_bytes w l ++ rest → length a = off → length l = n → Forall (fits w) l →
  frombuffer buf w n off = Ok l.
Proof.
  intros -> <- <- Hl. rewrite frombuffer_le.
  - by rewrite drop_app_length, words_le_bytes.
  - rewrite !length_app, length_le_bytes. lia.
Qed.

(** The 24 bytes of a header. *)
Definition header_bytes (v k r i c t : list byte) : list byte := FRAME_MAGIC ++ v ++ k ++ r ++ i ++ c ++ t.

Definition body_bytes (f : frame) : list byte :=
  le_bytes 8 (lng f) ++ le_bytes 8 (lat f) ++ le_bytes 4 (slot f) ++
  le_bytes 1 (state f) ++ le_bytes 1 (haulier f).

Lemma encode_bytes f v k i c :
  pack_uint 2 (version f) = Ok v → pack_uint 1 (kind f) = Ok k → pack_uint 4 (frame_idx f) = Ok i →
  pack_uint 4 (Z.of_nat (frame_n f)) = Ok c →
  encode f = Ok (header_bytes v k [x00] i c (le_split 8 (sim_time_ms f)) ++ body_bytes f).
Proof.
  intros Hv Hk Hi Hc. unfold encode, pack_header. rewrite Hv, Hk, Hi, Hc.
  cbn [mbind result_bind]. by rewrite !tobytes_le.
Qed.

Ltac by_length :=
  rewrite ?length_app, ?length_le_bytes, ?length_le_split, ?length_take, ?length_drop;
  repeat match goal with E : length _ = _ |- _ => rewrite E end; simpl; lia.

Ltac by_layout := first [ by_length | by rewrite ?app_nil_r, <-!app_assoc | done ].

Lemma layout_fields v k r i c t rest :
  length v = 2 → length k = 1 → length r = 1 → length i = 4 → length c = 4 → length t = 8 →
  let buf := header_bytes v k r i c t ++ rest in
  take 4 buf = FRAME_MAGIC ∧ field buf 4 2 = le_combine v ∧ field buf 6 1 = le_combine k ∧
  field buf 8 4 = le_combine i ∧ field buf 12 4 = le_combine c ∧ field buf 16 8 = le_combine t.
Proof.
  intros Lv Lk Lr Li Lc Lt buf. unfold buf, header_bytes. split_and!; [done|..].
  - apply (field_at _ FRAME_MAGIC _ (k ++ r ++ i ++ c ++ t ++ rest)); by_layout.
  - apply (field_at _ (FRAME_MAGIC ++ v) _ (r ++ i ++ c ++ t ++ rest)); by_layout.
  - apply (field_at _ (FRAME_MAGIC ++ v ++ k ++ r) _ (c ++ t ++ rest)); by_layout.
  - apply (field_at _ (FRAME_MAGIC ++ v ++ k ++ r ++ i) _ (t ++ rest)); by_layout.
  - apply (field_at _ (FRAME_MAGIC ++ v ++ k ++ r ++ i ++ c) _ rest); by_layout.
Qed.

Lemma layout_arrays h f :
  length h = HEADER_SIZE → frame_wf f →
  let buf := h ++ body_bytes f in
  let n := frame_n f in
  frombuffer buf 8 n HEADER_SIZE = Ok (lng f) ∧
  frombuffer buf 8 n (HEADER_SIZE + 8 * n) = Ok (lat f) ∧
  frombuffer buf 4 n (HEADER_SIZE + 16 * n) = Ok (slot f) ∧
  frombuffer buf 1 n (HEADER_SIZE + 20 * n) = Ok (state f) ∧
  frombuffer buf 1 n (HEADER_SIZE + 21 * n) = Ok (haulier f).
Proof.
  intros Hh Hwf buf n.
  destruct (wf_lat _ Hwf) as [Fla Lla], (wf_slot _ Hwf) as [Fsl Lsl],
  (wf_state _ Hwf) as [Fst Lst], (wf_haulier _ Hwf) as [Fha Lha].
  pose proof (wf_lng _ Hwf) as Fln. unfold HEADER_SIZE in *.
  assert (length (lng f) = n) as Ln by done. rewrite Ln in Lla, Lsl, Lst, Lha. clearbody n.
  unfold buf, body_bytes. split_and!.
  - apply (array_at _ h _ (le_bytes 8 (lat f) ++ le_bytes 4 (slot f) ++ le_bytes 1 (state f) ++
  le_bytes 1 (haulier f))); first [done|by_layout].
  - apply (array_at _ (h ++ le_bytes 8 (lng f)) _ (le_bytes 4 (slot f) ++ le_bytes 1 (state f) ++
  le_bytes 1 (haulier f))); first [done|by_layout].
  - apply (array_at _ (h ++ le_bytes 8 (lng f) ++ le_bytes 8 (lat f)) _ (le_bytes 1 (state f) ++
  le_bytes 1 (haulier f))); first [done|by_layout].
  - apply (array_at _ (h ++ le_bytes 8 (lng f) ++ le_bytes 8 (lat f) ++ le_bytes 4 (slot f)) _
  (le_bytes 1 (haulier f))); first [done|by_layout].
  - apply (array_at _ (h ++ le_bytes 8 (lng f) ++ le_bytes 8 (lat f) ++ le_bytes 4 (slot f) ++
  le_bytes 1 (state f)) _ []); first [done|by_layout].
Qed.

Lemma length_body f : frame_wf f → length (body_bytes f) = 22 * frame_n f.
Proof.
  intros Hwf. destruct (wf_lat _ Hwf) as [_ Lla], (wf_slot _ Hwf) as [_ Lsl],
  (wf_state _ Hwf) as [_ Lst], (wf_haulier _ Hwf) as [_ Lha].
  unfold body_bytes. fold (frame_n f) in *. unfold frame_n in *. by_length.
Qed.

(** Decoding a buffer laid out as the contract says. *)
Lemma decode_layout v k r i c t f :
  length v = 2 → length k = 1 → length r = 1 → length i = 4 → length c = 4 → length t = 8 →
  frame_wf f → le_combine v = version f → le_combine k = kind f → le_combine i = frame_idx f →
  le_combine c = Z.of_nat (frame_n f) → le_combine t = sim_time_ms f →
  decode (header_bytes v k r i c t ++ body_bytes f) = Ok f.
Proof.
  intros Lv Lk Lr Li Lc Lt Hwf Ev Ek Ei Ec Et.
  assert (length (header_bytes v k r i c t) = HEADER_SIZE) as Hh
  by (unfold header_bytes, HEADER_SIZE; by_length).
  destruct (layout_fields v k r i c t (body_bytes f)) as (Fm & Fv & Fk & Fi & Fc & Ft); [done..|].
  destruct (layout_arrays (header_bytes v k r i c t) f Hh Hwf) as (A1 & A2 & A3 & A4 & A5).
  pose proof (length_body f Hwf) as Hb.
  assert (length (header_bytes v k r i c t ++ body_bytes f) = HEADER_SIZE + 22 * frame_n f) as Hlen
  by (rewrite length_app; lia).
  unfold decode. cbv zeta in *. rewrite Fm, Fv, Fk, Fi, Fc, Ft, Ev, Ek, Ei, Ec, Et, Nat2Z.id.
  rewrite bool_decide_eq_false_2 by (rewrite Hlen; lia).
  rewrite (bool_decide_eq_false_2 (FRAME_MAGIC ≠ FRAME_MAGIC)) by (intros Hn; by apply Hn).
  rewrite (bool_decide_eq_false_2 (length _ ≠ _)) by (rewrite Hlen; lia).
  assert (((kind f =? KIND_KEYFRAME) || (kind f =? KIND_DELTA))%Z = true) as ->.
  { by destruct (wf_kind _ Hwf) as [-> | ->]. }
  rewrite A1, A2, A3, A4, A5, (wf_version _ Hwf), Z.eqb_refl. cbn [negb mbind result_bind].
  unfold new_frame. rewrite bool_decide_eq_true_2.
  2:{ by destruct (wf_lat _ Hwf), (wf_slot _ Hwf), (wf_state _ Hwf), (wf_haulier _ Hwf). }
  rewrite <-(wf_version _ Hwf). by destruct f.
Qed.

(** What a successful decode read. *)
Record decoded (b : list byte) (f : frame) : Prop := {
  dec_length : length b = HEADER_SIZE + 22 * frame_n f;
  dec_magic : take 4 b = FRAME_MAGIC;
  dec_version : version f = field b 4 2 ∧ version f = FRAME_VERSION;
  dec_kind : kind f = field b 6 1 ∧ (kind f = KIND_KEYFRAME ∨ kind f = KIND_DELTA);
  dec_idx : frame_idx f = field b 8 4;
  dec_n : Z.of_nat (frame_n f) = field b 12 4;
  dec_time : sim_time_ms f = field b 16 8;
  dec_lng : lng f = words 8 (frame_n f) (drop HEADER_SIZE b);
  dec_lat : lat f = words 8 (frame_n f) (drop (HEADER_SIZE + 8 * frame_n f) b);
  dec_slot : slot f = words 4 (frame_n f) (drop (HEADER_SIZE + 16 * frame_n f) b);
  dec_state : state f = words 1 (frame_n f) (drop (HEADER_SIZE + 20 * frame_n f) b);
  dec_haulier : haulier f = words 1 (frame_n f) (drop (HEADER_SIZE + 21 * frame_n f) b);
}.

Lemma field_fits b off w : off + w ≤ length b → fits w (field b off w).
Proof. intros Hl. apply le_combine_fits'. rewrite length_take, length_drop. lia. Qed.

(** The guards of [decode], in order; past them nothing fails. *)
Lemma decode_cases b :
  match decode b with
  | Ok f => decoded b f
  | Raise e => e = FrameDecodeError ∨
  e = FrameVersionMismatch ∧ HEADER_SIZE ≤ length b ∧ take 4 b = FRAME_MAGIC ∧ field b 4 2 ≠ FRAME_VERSION
  end.
Proof.
  unfold decode. cbv zeta.
  destruct (bool_decide_reflect (length b < HEADER_SIZE)) as [|Hl]; [by left|].
  destruct (bool_decide_reflect (take 4 b ≠ FRAME_MAGIC)) as [|Hm]; [by left|].
  apply dec_stable in Hm.
  destruct (Z.eqb_spec (field b 4 2) FRAME_VERSION) as [Hv|Hv]; simpl negb; cbn iota.
  2:{ right. split_and!; [done|lia|done|done]. }
  destruct (Z.eqb_spec (field b 6 1) KIND_KEYFRAME) as [Hk|Hk];
  destruct (Z.eqb_spec (field b 6 1) KIND_DELTA) as [Hk'|Hk']; simpl negb; cbn iota; try (by left).
  all: destruct (bool_decide_reflect (length b ≠ HEADER_SIZE + 22 * Z.to_nat (field b 12 4))) as [|Hn];
  [by left|]; apply dec_stable in Hn.
  all: assert (fits 4 (field b 12 4)) as [Hc _] by (apply field_fits; unfold HEADER_SIZE in *; lia).
  all: rewrite !frombuffer_le by lia; cbn [mbind result_bind]; unfold new_frame;
  rewrite bool_decide_eq_true_2 by (rewrite !length_words; done).
  all: split; unfold frame_n; simpl; rewrite ?length_words; auto; lia.
Qed.

Lemma decoded_wf b f : decoded b f → frame_wf f.
Proof.
  intros Hd. pose proof (dec_length _ _ Hd) as Hl. unfold HEADER_SIZE in Hl.
  assert (∀ l w off, l = words w (frame_n f) (drop off b) → off + w * frame_n f ≤ length b →
  Forall (fits w) l ∧ length l = frame_n f) as Hw.
  { intros l w off -> Ho. split; [apply words_fits; rewrite length_drop; lia|apply length_words]. }
  unfold HEADER_SIZE in *. split.
  - rewrite (dec_idx _ _ Hd). apply field_fits. lia.
  - rewrite (dec_n _ _ Hd). apply field_fits. lia.
  - rewrite (dec_time _ _ Hd). apply field_fits. lia.
  - apply (Hw _ _ _ (dec_lng _ _ Hd)). unfold HEADER_SIZE. lia.
  - apply (Hw _ _ _ (dec_lat _ _ Hd)). unfold HEADER_SIZE. lia.
  - apply (Hw _ _ _ (dec_slot _ _ Hd)). unfold HEADER_SIZE. lia.
  - apply (Hw _ _ _ (dec_state _ _ Hd)). unfold HEADER_SIZE. lia.
  - apply (Hw _ _ _ (dec_haulier _ _ Hd)). unfold HEADER_SIZE. lia.
  - apply (dec_kind _ _ Hd).
  - apply (dec_version _ _ Hd).
Qed.

Lemma decoded_body b f : decoded b f → body_bytes f = drop HEADER_SIZE b.
Proof.
  intros Hd. pose proof (dec_length _ _ Hd) as Hl. unfold body_bytes.
  rewrite (dec_lng _ _ Hd), (dec_lat _ _ Hd), (dec_slot _ _ Hd), (dec_state _ _ Hd), (dec_haulier _ _ Hd) at 1.
  rewrite !le_bytes_words by (rewrite length_drop; lia).
  set (n := frame_n f) in *. rewrite <-!drop_drop. set (d := drop HEADER_SIZE b).
  assert (length d = 22 * n) as Ld by (unfold d; rewrite length_drop; lia).
  rewrite !app_assoc, take_take_drop. replace (8 * n + 8 * n) with (16 * n) by lia.
  rewrite take_take_drop. replace (16 * n + 4 * n) with (20 * n) by lia.
  rewrite take_take_drop. replace (20 * n + 1 * n) with (21 * n) by lia.
  rewrite take_take_drop. apply take_ge. lia.
Qed.

Lemma header_split b :
  HEADER_SIZE ≤ length b → take 4 b = FRAME_MAGIC →
  ∀ r, take 7 b ++ r :: drop 8 b =
  header_bytes (take 2 (drop 4 b)) (take 1 (drop 6 b)) [r] (take 4 (drop 8 b)) (take 4 (drop 12 b))
  (take 8 (drop 16 b)) ++ drop HEADER_SIZE b.
Proof.
  intros Hl Hm r. unfold header_bytes, HEADER_SIZE in *. rewrite <-Hm.
  assert (take 4 b ++ take 2 (drop 4 b) ++ take 1 (drop 6 b) = take 7 b) as <-.
  { rewrite app_assoc, take_take_drop. apply (take_take_drop b 6 1). }
  assert (take 4 (drop 8 b) ++ take 4 (drop 12 b) ++ take 8 (drop 16 b) ++ drop 24 b = drop 8 b) as E.
  { assert (∀ k, drop (8 + k) b = drop k (drop 8 b)) as Hk by (intros; by rewrite drop_drop).
  rewrite (Hk 4 : drop 12 b = _), (Hk 8 : drop 16 b = _), (Hk 16 : drop 24 b = _), !app_assoc.
  rewrite (take_take_drop (drop 8 b) 4 4 : _ = take 8 (drop 8 b)).
  rewrite (take_take_drop (drop 8 b) 8 8 : _ = take 16 (drop 8 b)). apply (take_drop 16). }
  by rewrite <-!app_assoc, E.
Qed.

Lemma decoded_encode b f : decoded b f → encode f = Ok (take 7 b ++ x00 :: drop 8 b).
Proof.
  intros Hd. pose proof (dec_length _ _ Hd) as Hl.
  assert (∀ off w, off + w ≤ HEADER_SIZE → length (take w (drop off b)) = w) as Hw.
  { intros off w Ho. rewrite length_take, length_drop. lia. }
  rewrite (header_split b) by (lia || apply Hd).
  rewrite (encode_bytes f (take 2 (drop 4 b)) (take 1 (drop 6 b)) (take 4 (drop 8 b)) (take 4 (drop 12 b))).
  - rewrite (decoded_body _ _ Hd), (dec_time _ _ Hd). unfold field.
  rewrite split_combine_length by (apply Hw; unfold HEADER_SIZE; lia). done.
  - rewrite (proj1 (dec_version _ _ Hd)). apply pack_uint_combine, Hw. unfold HEADER_SIZE; lia.
  - rewrite (proj1 (dec_kind _ _ Hd)). apply pack_uint_combine, Hw. unfold HEADER_SIZE; lia.
  - rewrite (dec_idx _ _ Hd). apply pack_uint_combine, Hw. unfold HEADER_SIZE; lia.
  - rewrite (dec_n _ _ Hd). apply pack_uint_combine, Hw. unfold HEADER_SIZE; lia.
Qed.
End CodecLemmas.

(** ** State codes: lemmas *)

Lemma state_code_range v : (0 <= state_code v < Z.of_nat (length STATE_NAMES))%Z.
Proof.
  assert (∀ s, (0 <= default 0 (d_get STATE_CODES s) < Z.of_nat (length STATE_NAMES))%Z) as Hs.
  { intros s. destruct (d_get STATE_CODES s) as [z|] eqn:E; [|done]. apply d_get_Some_elem in E.
    unfold STATE_CODES in E. apply elem_of_lookup_imap in E as (i & name & [= -> ->] & Hi).
    apply lookup_lt_Some in Hi. unfold default, id. lia. }
  destruct v as [|[]|z| | s| | |]; try done; [|apply Hs].
  unfold state_code, known_code. destruct (Z.leb_spec 0 z), (Z.ltb_spec z (Z.of_nat (length STATE_NAMES)));
    simpl; try done; lia.
Qed.

Lemma state_name_code s : state_name (state_code (PStr s)) = if decide (s ∈ STATE_NAMES) then s else "unknown".
Proof.
  destruct (decide (s ∈ STATE_NAMES)) as [Hs|Hs].
  - repeat (apply elem_of_cons in Hs as [->|Hs]; [by vm_compute|]). by apply elem_of_nil in Hs.
  - unfold state_code. destruct (d_get STATE_CODES s) as [z|] eqn:E; [|by vm_compute].
    apply d_get_Some_elem in E. destruct Hs. unfold STATE_CODES in E. apply elem_of_lookup_imap in E as (i & name & [= -> _] & Hi).
    by apply list_elem_of_lookup_2 in Hi.
Qed.

(** ** Properties *)

Section FrameProperties.
Context `{NumpyLaws}.

(** C32: A well-formed frame is encoded, in [24 + 22 n] bytes, and decoding them
gives the frame back. *)
Theorem frame_roundtrip f :
  frame_wf f → ∃ b, encode f = Ok b ∧ length b = HEADER_SIZE + 22 * frame_n f ∧ decode b = Ok f.
Proof.
  intros Hwf. eexists. split.
  - apply encode_bytes; apply pack_uint_fits; try apply Hwf.
  + by rewrite (wf_version _ Hwf).
  + by destruct (wf_kind _ Hwf) as [-> | ->].
  - split.
  + rewrite length_app, (length_body f Hwf). unfold header_bytes. by rewrite !length_app, !length_le_split.
  + apply decode_layout; rewrite ?length_le_split; try done; apply le_combine_split_fits; try apply Hwf.
  * by rewrite (wf_version _ Hwf).
  * by destruct (wf_kind _ Hwf) as [-> | ->].
Qed.

(** Decoding accepts exactly the encodings of well-formed frames, whatever
their reserved byte, and rejects any other buffer with one of the two errors of
the contract; a version mismatch is reported only on an intact header. *)
Theorem decode_exact b :
  match decode b with
  | Ok f => frame_wf f ∧ encode f = Ok (take 7 b ++ x00 :: drop 8 b)
  | Raise e => e = FrameDecodeError ∨
  e = FrameVersionMismatch ∧ HEADER_SIZE ≤ length b ∧ take 4 b = FRAME_MAGIC ∧ field b 4 2 ≠ FRAME_VERSION
  end.
Proof.
  pose proof (decode_cases b) as Hd. destruct (decode b) as [f|e]; [|done].
  split; [by apply (decoded_wf b)|by apply decoded_encode].
Qed.
End FrameProperties.

(** ** A concrete frame *)

Module FrameExample.
#[local] Instance numpy : Numpy := {|
  tobytes := le_bytes;
  frombuffer := λ buf w n off,
  if decide (off + w * n ≤ length buf) then Ok (words w n (drop off buf)) else Raise ValueError;
|}.

#[local] Instance numpy_laws : NumpyLaws.
Proof. split; [done|]. intros buf w n off Hle. simpl. by rewrite decide_True. Qed.

(** Two trucks; 4636737291354636288 is the bit pattern of 100.0. *)
Definition two_trucks : frame :=
  Frame 7 4636737291354636288 [4636737291354636288; 0]%Z [0; 1]%Z [0; 258]%Z [3; 11]%Z [1; 255]%Z
  KIND_KEYFRAME FRAME_VERSION.

Lemma frame_roundtrip_witness :
  ∃ b, encode two_trucks = Ok b ∧ length b = 68 ∧ decode b = Ok two_trucks.
Proof.
  apply (frame_roundtrip two_trucks). split; unfold fits; simpl; rewrite ?Forall_cons, ?Forall_nil; try lia.
  all: split_and!; try done; try lia; by left.
Defined.

Lemma decode_exact_witness :
  match decode (FRAME_MAGIC ++ repeat x02 20) with
  | Ok f => frame_wf f ∧ encode f = Ok (take 7 (FRAME_MAGIC ++ repeat x02 20) ++ x00 ::
                                drop 8 (FRAME_MAGIC ++ repeat x02 20))
  | Raise e => e = FrameDecodeError ∨
  e = FrameVersionMismatch ∧ HEADER_SIZE ≤ length (FRAME_MAGIC ++ repeat x02 20) ∧
  take 4 (FRAME_MAGIC ++ repeat x02 20) = FRAME_MAGIC ∧
  field (FRAME_MAGIC ++ repeat x02 20) 4 2 ≠ FRAME_VERSION
  end.
Proof. exact (decode_exact (FRAME_MAGIC ++ repeat x02 20)). Defined.
End FrameExample.
