(* ===== verification/HotStore.v ===== *)
(** The hot tier of the data plane: one slab of packed truck positions per
    resident run, least-recently-written eviction, and the frame identity that
    survives it ([dataplane/store/hot.py]). *)

From S2P Require Import Prelude PyValue Frame.

Definition RunNotResident : exn := OtherError "RunNotResident".
Definition _MAX_HAULIER_CODE : Z := 255.

(** ** [_RunIdentity] and [_RunSlab] *)

Record identity := Identity {
  frame_counter : Z;
  frames_emitted : Z;
  agent_to_slot : list (string * nat);
  slot_to_agent : list string;
  haulier_to_code : list (string * Z);
  next_haulier_code : Z;
  last_sim_time_ms : Z;
  update_count : Z;
}.

(** The slab keeps its identity fields next to its arrays; [identity()] copies
    them.  Positions are kept as bit patterns. *)
Record slab := Slab {
  ident : identity;
  capacity : nat;
  sl_lng : list Z;
  sl_lat : list Z;
  sl_state : list Z;
  sl_haulier : list Z;
  written : list bool;
  n_active : nat;
  last_touched : Z;
  last_update : Z;
}.

Definition new_identity : identity := Identity 0 0 [] [] [] 1 0 0.

(** [_RunSlab(capacity)] at monotonic time [now] *)
Definition new_slab (capacity : Z) (now : Z) : slab :=
  let cap := Z.to_nat (Z.max capacity 1) in
  Slab new_identity cap (replicate cap 0%Z) (replicate cap 0%Z) (replicate cap 0%Z) (replicate cap 0%Z)
    (replicate cap false) 0 now now.

(** Field updates. *)
Definition with_ident (f : identity → identity) (s : slab) : slab :=
  Slab (f (ident s)) (capacity s) (sl_lng s) (sl_lat s) (sl_state s) (sl_haulier s) (written s)
    (n_active s) (last_touched s) (last_update s).
Definition with_arrays (lng lat st hl : list Z) (w : list bool) (s : slab) : slab :=
  Slab (ident s) (capacity s) lng lat st hl w (n_active s) (last_touched s) (last_update s).
Definition with_n_active (n : nat) (s : slab) : slab :=
  Slab (ident s) (capacity s) (sl_lng s) (sl_lat s) (sl_state s) (sl_haulier s) (written s)
    n (last_touched s) (last_update s).
Definition with_times (touched update : Z) (s : slab) : slab :=
  Slab (ident s) (capacity s) (sl_lng s) (sl_lat s) (sl_state s) (sl_haulier s) (written s)
    (n_active s) touched update.
Definition with_slots (a2s : list (string * nat)) (s2a : list string) (i : identity) : identity :=
  Identity (frame_counter i) (frames_emitted i) a2s s2a (haulier_to_code i) (next_haulier_code i)
    (last_sim_time_ms i) (update_count i).
Definition with_codes (codes : list (string * Z)) (next : Z) (i : identity) : identity :=
  Identity (frame_counter i) (frames_emitted i) (agent_to_slot i) (slot_to_agent i) codes next
    (last_sim_time_ms i) (update_count i).
Definition with_frames (counter emitted : Z) (i : identity) : identity :=
  Identity counter emitted (agent_to_slot i) (slot_to_agent i) (haulier_to_code i) (next_haulier_code i)
    (last_sim_time_ms i) (update_count i).
Definition with_updates (t count : Z) (i : identity) : identity :=
  Identity (frame_counter i) (frames_emitted i) (agent_to_slot i) (slot_to_agent i) (haulier_to_code i)
    (next_haulier_code i) t count.

(** [new = zeros(n); new[:len(old)] = old] *)
Definition grown {A} (zero : A) (n : nat) (old : list A) : list A := old ++ replicate (n - length old) zero.

Definition grow (min_capacity : nat) (s : slab) : slab :=
  let n := Nat.max (Nat.max (capacity s * 2) min_capacity) 1 in
  Slab (ident s) n (grown 0%Z n (sl_lng s)) (grown 0%Z n (sl_lat s)) (grown 0%Z n (sl_state s))
    (grown 0%Z n (sl_haulier s)) (grown false n (written s)) (n_active s) (last_touched s) (last_update s).

Definition ensure_capacity (slot : nat) (s : slab) : slab :=
  if bool_decide (capacity s ≤ slot) then grow (slot + 1) s else s.

Definition slab_slot_for (agent_id : string) (s : slab) : nat * slab :=
  match d_get (agent_to_slot (ident s)) agent_id with
  | Some slot => (slot, s)
  | None =>
      let slot := n_active s in
      let s := ensure_capacity slot s in
      (slot, with_n_active (S (n_active s))
               (with_ident (λ i, with_slots (d_set (agent_to_slot i) agent_id slot)
                                   (slot_to_agent i ++ [agent_id]) i) s))
  end.

Definition code_for_haulier (haulier_id : option string) (s : slab) : Z * slab :=
  match haulier_id with
  | None | Some "" => (0%Z, s)
  | Some h =>
      match d_get (haulier_to_code (ident s)) h with
      | Some code => (code, s)
      | None =>
          let next := next_haulier_code (ident s) in
          let '(code, next') := if (_MAX_HAULIER_CODE <? next)%Z then (_MAX_HAULIER_CODE, next)
                                else (next, next + 1)%Z in
          (code, with_ident (λ i, with_codes (d_set (haulier_to_code i) h code) next' i) s)
      end
  end.

(** [adopt_slot_map]: slots are array indices, handed out by a tier. *)
Definition adopt_slot_map (slot_map : list (string * nat)) (s : slab) : slab :=
  match slot_map with
  | [] => s
  | _ =>
      let highest := foldr Nat.max 0 (map snd slot_map) in
      let s := ensure_capacity highest s in
      let s2a := foldl (λ l p, <[p.2 := p.1]> l) (replicate (highest + 1) "") slot_map in
      let a2s := foldl (λ d p, d_set d p.1 p.2) (agent_to_slot (ident s)) slot_map in
      with_n_active (Nat.max (n_active s) (highest + 1)) (with_ident (with_slots a2s s2a) s)
  end.

Definition adopt_haulier_codes (codes : list (string * Z)) (s : slab) : slab :=
  match codes with
  | [] => s
  | _ =>
      let book := foldl (λ d p, d_set d p.1 p.2) (haulier_to_code (ident s)) codes in
      let assigned := filter (λ c, (c < _MAX_HAULIER_CODE)%Z) (map snd book) in
      let next := match assigned with [] => 1%Z | c :: cs => (foldr Z.max c cs + 1)%Z end in
      with_ident (λ i, with_codes book (Z.max (next_haulier_code i) next) i) s
  end.

(** ** [HotStore] *)

(** [runs] and [carryover] are dictionaries in insertion order.  [ticks] counts
    the readings of the monotonic clock so far. *)
Record store := Store {
  max_runs : nat;
  default_capacity : Z;
  runs : list (string * slab);
  carryover : list (string * identity);
  carryover_max : nat;
  frame_idx_seed : option (string → result pyval);
  seed_errors : nat;
  evictions : nat;
  ticks : nat;
}.

Definition new_store (max_runs capacity carryover_runs : Z) (seed : option (string → result pyval)) : store :=
  Store (Z.to_nat (Z.max max_runs 1)) capacity [] [] (Z.to_nat (Z.max carryover_runs 0)) seed 0 0 0.

Definition with_runs (r : list (string * slab)) (st : store) : store :=
  Store (max_runs st) (default_capacity st) r (carryover st) (carryover_max st) (frame_idx_seed st)
    (seed_errors st) (evictions st) (ticks st).
Definition with_carryover (c : list (string * identity)) (st : store) : store :=
  Store (max_runs st) (default_capacity st) (runs st) c (carryover_max st) (frame_idx_seed st)
    (seed_errors st) (evictions st) (ticks st).
Definition evicted (st : store) : store :=
  Store (max_runs st) (default_capacity st) (runs st) (carryover st) (carryover_max st) (frame_idx_seed st)
    (seed_errors st) (S (evictions st)) (ticks st).
Definition seed_failed (st : store) : store :=
  Store (max_runs st) (default_capacity st) (runs st) (carryover st) (carryover_max st) (frame_idx_seed st)
    (S (seed_errors st)) (evictions st) (ticks st).
Definition ticked (st : store) : store :=
  Store (max_runs st) (default_capacity st) (runs st) (carryover st) (carryover_max st) (frame_idx_seed st)
    (seed_errors st) (evictions st) (S (ticks st)).
Definition set_frame_idx_seed (fn : option (string → result pyval)) (st : store) : store :=
  Store (max_runs st) (default_capacity st) (runs st) (carryover st) (carryover_max st) fn
    (seed_errors st) (evictions st) (ticks st).

Definition modify (f : store → store) : eff store unit := λ st, (Ok tt, f st).
Definition gets {A} (f : store → A) : eff store A := λ st, (Ok (f st), st).
Definition set_slab (run_id : string) (s : slab) : eff store unit :=
  modify (λ st, with_runs (d_set (runs st) run_id s) st).

(** The element conversion of a [uint8] array, and the monotonic clock: reading
    [n] of the process. *)
Class HotEnv := {
  as_uint8 : Z → Z;
  clock : nat → Z;
}.

Section HotStore.
Context `{PyText, HotEnv}.

Definition monotonic : eff store Z := λ st, (Ok (clock (ticks st)), ticked st).

(** *** Seeding *)

Definition seeded_frame_idx (run_id : string) : eff store Z := λ st,
  match frame_idx_seed st with
  | None => (Ok 0%Z, st)
  | Some fn =>
      match fn run_id with
      | Raise _ => (Ok 0%Z, seed_failed st)
      | Ok PNone => (Ok 0%Z, st)
      | Ok value =>
          match py_int value with
          | Ok z => (Ok (Z.max z 0), st)
          | Raise TypeError | Raise ValueError => (Ok 0%Z, seed_failed st)
          | Raise e => (Raise e, st)
          end
      end
  end.

(** *** Internal operations *)

(** [_get] *)
Definition get_slab (run_id : string) : eff store slab := λ st,
  match d_get (runs st) run_id with Some s => (Ok s, st) | None => (Raise RunNotResident, st) end.

Definition touch_read (run_id : string) : eff store slab :=
  s ← get_slab run_id; now ← monotonic;
  let s := with_times now (last_update s) s in
  set_slab run_id s;; mret s.

Definition touch_write (run_id : string) : eff store slab :=
  s ← get_slab run_id; now ← monotonic;
  let s := with_times now now s in
  set_slab run_id s;; mret s.

Definition park (run_id : string) (s : slab) (st : store) : store :=
  if bool_decide (carryover_max st = 0) then st
  else
  let c := d_set (d_del (carryover st) run_id) run_id (ident s) in
  with_carryover (drop (length c - carryover_max st) c) st.

(** [min(runs, key=last_update)]: the first of the least. *)
Fixpoint least_recent (l : list (string * slab)) : option (string * slab) :=
  match l with
  | [] => None
  | p :: l =>
      match least_recent l with
      | Some q => if (last_update q.2 <? last_update p.2)%Z then Some q else Some p
      | None => Some p
      end
  end.

(** One turn of [_evict_lru_locked]'s loop. *)
Definition evict_one (st : store) : store :=
  match least_recent (runs st) with
  | Some (victim, s) => evicted (park victim s (with_runs (d_del (runs st) victim) st))
  | None => st
  end.

(** The loop removes one run a turn: as many turns as there are runs suffice. *)
Fixpoint evict_loop (fuel : nat) (st : store) : store :=
  match fuel with
  | 0 => st
  | S fuel => if bool_decide (max_runs st < length (runs st)) then evict_loop fuel (evict_one st) else st
  end.

Definition evict_lru (st : store) : store := evict_loop (length (runs st)) st.

(** The slab of [_create_slab_locked] before its frame counter is chosen. *)
Definition revived (parked : option identity) (slot_map : list (string * nat)) (codes : list (string * Z))
  (s : slab) : slab :=
  let s := match slot_map, parked with
   | [], Some p =>
       let n := length (slot_to_agent p) in
       ensure_capacity (n - 1)
         (with_n_active n (with_ident (with_slots (agent_to_slot p) (slot_to_agent p)) s))
   | [], None => s
   | _, _ => adopt_slot_map slot_map s
   end in
  let s := match codes, parked with
   | [], Some p => with_ident (with_codes (haulier_to_code p) (next_haulier_code p)) s
   | [], None => s
   | _, _ => adopt_haulier_codes codes s
   end in
  match parked with
  | Some p => with_ident (λ i, with_frames (frame_counter i) (frames_emitted p)
                         (with_updates (last_sim_time_ms p) (update_count p) i)) s
  | None => s
  end.

Definition create_slab (run_id : string) (capacity : option Z) (start_frame_idx : pyval)
  (slot_map : list (string * nat)) (haulier_codes : list (string * Z)) : eff store unit :=
  st ← gets id; now ← monotonic;
  let cap := match capacity with Some c => if decide (c = 0%Z) then default_capacity st else c
     | None => default_capacity st end in
  let parked := d_get (carryover st) run_id in
  modify (λ st, with_carryover (d_del (carryover st) run_id) st);;
  let s := revived parked slot_map haulier_codes (new_slab cap now) in
  seeded ← seeded_frame_idx run_id;
  start ← match start_frame_idx with
  | PNone => mret []
  | v => z ← lift (py_int v); mret [Z.max z 0]
  end;
  let candidates := match parked with Some p => [frame_counter p] | None => [] end ++ start in
  let counter := foldr Z.max seeded candidates in
  set_slab run_id (with_ident (λ i, with_frames counter (frames_emitted i) i) s);;
  modify evict_lru.

(** *** Public operations *)

Definition ensure_run (run_id : string) (capacity : option Z) (start_frame_idx : pyval)
  (slot_map : list (string * nat)) (haulier_codes : list (string * Z)) : eff store unit :=
  st ← gets id;
  match d_get (runs st) run_id with
  | Some s => now ← monotonic; set_slab run_id (with_times now now s)
  | None => create_slab run_id capacity start_frame_idx slot_map haulier_codes
  end.

(** [ensure_run(run_id)] with its defaults *)
Definition ensure (run_id : string) : eff store unit := ensure_run run_id None PNone [] [].

(** An in-place change of a slab with an answer. *)
Definition change {A} (f : slab → A * slab) : eff slab A := λ s, let '(a, s') := f s in (Ok a, s').

Definition on_slab {A} (run_id : string) (m : eff slab A) : eff store A :=
  s ← get_slab run_id;
  ((λ st, let '(r, s') := m s in (r, with_runs (d_set (runs st) run_id s') st)) : eff store A).

Definition slot_for (run_id agent_id : string) : eff store nat :=
  ensure run_id;; touch_write run_id;;
  on_slab run_id (change (slab_slot_for agent_id)).

(** [a[i] = v] *)
Definition set_at {A} (i : nat) (v : A) (l : list A) : result (list A) :=
  if bool_decide (i < length l) then Ok (<[i := v]> l) else Raise IndexError.

(** An in-place change of a slab, which may raise. *)
Definition update (f : slab → result slab) : eff slab unit := λ s,
  match f s with Ok s' => (Ok tt, s') | Raise e => (Raise e, s) end.

(** The body of [update_position] on the run's slab. *)
Definition write_position (agent_id : string) (lng lat : Z) (st : pyval) (haulier_id : option string)
  (sim_time_ms : Z) : eff slab nat :=
  slot ← change (slab_slot_for agent_id);
  update (λ s, l ← set_at slot lng (sl_lng s);
  Ok (with_arrays l (sl_lat s) (sl_state s) (sl_haulier s) (written s) s));;
  update (λ s, l ← set_at slot lat (sl_lat s);
  Ok (with_arrays (sl_lng s) l (sl_state s) (sl_haulier s) (written s) s));;
  update (λ s, l ← set_at slot (as_uint8 (state_code st)) (sl_state s);
  Ok (with_arrays (sl_lng s) (sl_lat s) l (sl_haulier s) (written s) s));;
  code ← change (code_for_haulier haulier_id);
  update (λ s, l ← set_at slot (as_uint8 code) (sl_haulier s);
  Ok (with_arrays (sl_lng s) (sl_lat s) (sl_state s) l (written s) s));;
  update (λ s, l ← set_at slot true (written s);
  Ok (with_arrays (sl_lng s) (sl_lat s) (sl_state s) (sl_haulier s) l s));;
  update (λ s, Ok (with_ident (λ i, with_updates sim_time_ms (update_count i + 1) i) s));;
  mret slot.

Definition update_position (run_id agent_id : string) (lng lat : Z) (st : pyval) (haulier_id : option string)
  (sim_time_ms : Z) : eff store nat :=
  ensure run_id;; touch_write run_id;;
  on_slab run_id (write_position agent_id lng lat st haulier_id sim_time_ms).

(** The indices of the written slots: [flatnonzero], or all of them. *)
Definition written_slots (s : slab) : list nat :=
  filter (λ i, written s !! i = Some true) (seq 0 (n_active s)).

Definition at_slots (l : list Z) (idx : list nat) : list Z := map (λ i, nth i l 0%Z) idx.

Definition uint32 (i : nat) : Z := (Z.of_nat i mod 2 ^ 32)%Z.

Definition frame_of (kind : Z) (s : slab) : result frame :=
  let idx := written_slots s in
  new_frame (frame_counter (ident s)) (last_sim_time_ms (ident s)) (at_slots (sl_lng s) idx)
  (at_slots (sl_lat s) idx) (map uint32 idx) (at_slots (sl_state s) idx) (at_slots (sl_haulier s) idx)
  kind FRAME_VERSION.

Definition snapshot (run_id : string) (kind : Z) : eff store frame :=
  s ← touch_read run_id; f ← lift (frame_of kind s);
  set_slab run_id (with_ident (λ i, with_frames (frame_counter i + 1) (frames_emitted i + 1) i) s);;
  mret f.

Definition resident_runs (st : store) : list string :=
  map fst (py_sorted (on_key (λ p, (last_update p.2, last_touched p.2))
  (λ x y, pair_leb Z.leb Z.leb y x)) (runs st)).

Definition evict (run_id : string) : eff store bool := λ st,
  match d_get (runs st) run_id with
  | None => (Ok false, st)
  | Some s => (Ok true, evicted (park run_id s (with_runs (d_del (runs st) run_id) st)))
  end.

Definition haulier_codes (run_id : string) : eff store (list (string * Z)) :=
  s ← touch_read run_id; mret (haulier_to_code (ident s)).

Definition slot_map (run_id : string) : eff store (list (string * nat)) :=
  s ← touch_read run_id; mret (agent_to_slot (ident s)).

Definition next_frame_idx (run_id : string) : eff store Z :=
  s ← get_slab run_id; mret (frame_counter (ident s)).

(** [_non_clashing] *)
Definition non_clashing {V} `{EqDecision V} (current incoming : list (string * V)) :
  list (string * V) * list string :=
  let used := foldl (λ d p, d_set d p.2 p.1) [] current in
  foldl (λ acc p,
  let '(keep, clashes) := acc in
  match d_get current p.1 with
  | Some live => if decide (live = p.2) then acc else (keep, clashes ++ [p.1])
  | None =>
      match d_get used p.2 with
      | Some owner => if decide (owner = p.1) then (d_set keep p.1 p.2, clashes)
                    else (keep, clashes ++ [p.1])
      | None => (d_set keep p.1 p.2, clashes)
      end
  end) ([], []) incoming.

(** What [seed_run_identity] merges into a resident slab. *)
Definition merge_codes (codes : list (string * Z)) (s : slab) : slab :=
  adopt_haulier_codes (non_clashing (haulier_to_code (ident s)) codes).1 s.

Definition merge_slots (slots : list (string * nat)) (s : slab) : slab :=
  match (non_clashing (agent_to_slot (ident s)) slots).1 with
  | [] => s
  | mergeable => adopt_slot_map (foldl (λ d p, d_set d p.1 p.2) (agent_to_slot (ident s)) mergeable) s
  end.

Definition seed_run_identity (run_id : string) (codes : list (string * Z)) (slots : list (string * nat))
  (start_frame_idx : pyval) : eff store bool :=
  st ← gets id;
  match d_get (runs st) run_id with
  | None => create_slab run_id None start_frame_idx slots codes;; mret true
  | Some s =>
      let s := merge_slots slots (merge_codes codes s) in
      set_slab run_id s;;
      match start_frame_idx with
      | PNone => mret true
      | v =>
          match py_int v with
          | Ok z => set_slab run_id (with_ident (λ i, with_frames (Z.max (frame_counter i) z)
                                                        (frames_emitted i) i) s);; mret true
          | Raise TypeError | Raise ValueError => mret true
          | Raise e => lift (Raise e)
          end
      end
  end.

Definition rollback_frame_idx (run_id : string) (frame_idx : pyval) : eff store bool :=
  st ← gets id;
  match d_get (runs st) run_id with
  | None => mret false
  | Some s =>
      match py_int frame_idx with
      | Ok idx =>
          if bool_decide (frame_counter (ident s) ≠ idx + 1)%Z then mret false
          else set_slab run_id (with_ident (λ i, with_frames idx (Z.max (frames_emitted i - 1) 0) i) s);; mret true
      | Raise TypeError | Raise ValueError => mret false
      | Raise e => lift (Raise e)
      end
  end.

Record tier_stats := TierStats {
  n_runs : nat; n_trucks : nat; n_frames : Z; n_updates : Z; n_evictions : nat; n_parked : nat;
  n_seed_errors : nat;
}.

Definition stats (st : store) : tier_stats :=
  TierStats (length (runs st)) (list_sum (map (λ p, n_active p.2) (runs st)))
  (foldr Z.add 0%Z (map (λ p, frames_emitted (ident p.2)) (runs st)))
  (foldr Z.add 0%Z (map (λ p, update_count (ident p.2)) (runs st)))
  (evictions st) (length (carryover st)) (seed_errors st).
End HotStore.

(** ** Lemmas: [_non_clashing] *)

Lemma used_spec {V} `{EqDecision V} (current : list (string * V)) v owner :
  let used := foldl (λ d p, d_set d p.2 p.1) [] current in
  (d_get used v = Some owner → (owner, v) ∈ current) ∧ (d_get used v = None → v ∉ map snd current).
Proof.
  cbv zeta. induction current as [|[k v'] current IH] using rev_ind.
  { split; [done|]. intros _ Hv. by apply elem_of_nil in Hv. }
  rewrite foldl_app. simpl. rewrite d_get_set, map_app. simpl. destruct (decide (v' = v)) as [->|Hne].
  - split; [|done]. intros [= ->]. apply elem_of_app. right. by left.
  - split.
    + intros Hg%IH. apply elem_of_app. by left.
    + intros Hg%IH. rewrite elem_of_app, list_elem_of_singleton. intros [?|?]; [done|]. by subst.
Qed.

(** [_non_clashing] keeps incoming entries that name new keys with unused values. *)
Lemma non_clashing_keep {V} `{EqDecision V} (current incoming : list (string * V)) :
  let keep := (non_clashing current incoming).1 in
  NoDup (d_keys keep) ∧
  ∀ k v, (k, v) ∈ keep → (k, v) ∈ incoming ∧ k ∉ d_keys current ∧ v ∉ map snd current.
Proof.
  cbv zeta. unfold non_clashing. set (used := foldl (λ d p, d_set d p.2 p.1) [] current).
  apply (foldl_invariant _ (λ acc : list (string * V) * list string, NoDup (d_keys acc.1) ∧
    ∀ k v, (k, v) ∈ acc.1 → (k, v) ∈ incoming ∧ k ∉ d_keys current ∧ v ∉ map snd current)).
  2:{ split; [constructor|]. by intros k v ?%elem_of_nil. }
  intros [keep clashes] [k v] Hin [Hnd Hk]; simpl in *.
  destruct (d_get current k) as [live|] eqn:El; [by case_decide|].
  assert (k ∉ d_keys current) as Hnk by (rewrite <-d_get_is_Some, El; by intros [? ?]).
  destruct (used_spec current v (default "" (d_get used v))) as [Hu Hn]. fold used in Hu, Hn.
  destruct (d_get used v) as [owner|] eqn:Eu; simpl in Hu.
  - specialize (Hu eq_refl). destruct (decide (owner = k)) as [->|]; [|done].
    destruct Hnk. apply elem_d_keys. by exists v.
  - specialize (Hn eq_refl). simpl. split; [by apply NoDup_d_set|].
    intros k' v' [?|[= -> ->]]%elem_d_set; auto.
Qed.

(** ** Lemmas: slabs *)

(** A haulier code book: codes in 1..255, all distinct but the overflow code. *)
Record book_ok (book : list (string * Z)) : Prop := {
  bk_keys : NoDup (d_keys book);
  bk_range : ∀ h c, (h, c) ∈ book → (1 <= c <= _MAX_HAULIER_CODE)%Z;
  bk_inj : ∀ h h' c, (h, c) ∈ book → (h', c) ∈ book → (c < _MAX_HAULIER_CODE)%Z → h = h';
}.

(** A slot map: no agent and no slot twice. *)
Record slots_ok (slots : list (string * nat)) : Prop := {
  so_keys : NoDup (d_keys slots);
  so_inj : ∀ a b n, (a, n) ∈ slots → (b, n) ∈ slots → a = b;
}.

Record identity_wf (i : identity) : Prop := {
  iw_keys : NoDup (d_keys (agent_to_slot i));
  iw_slots : ∀ a n, (a, n) ∈ agent_to_slot i → slot_to_agent i !! n = Some a;
  iw_last : ∀ n, length (slot_to_agent i) = S n → ∃ a, (a, n) ∈ agent_to_slot i;
  iw_book : book_ok (haulier_to_code i);
  iw_next : (1 <= next_haulier_code i <= _MAX_HAULIER_CODE + 1)%Z;
  iw_fresh : ∀ h c, (h, c) ∈ haulier_to_code i → (c < _MAX_HAULIER_CODE)%Z → (c < next_haulier_code i)%Z;
}.

Record slab_wf (s : slab) : Prop := {
  sw_ident : identity_wf (ident s);
  sw_active : n_active s = length (slot_to_agent (ident s));
  sw_capacity : n_active s ≤ capacity s;
  sw_lng : length (sl_lng s) = capacity s;
  sw_lat : length (sl_lat s) = capacity s;
  sw_state : length (sl_state s) = capacity s;
  sw_haulier : length (sl_haulier s) = capacity s;
  sw_written : length (written s) = capacity s;
}.

Lemma slots_wf i : identity_wf i → slots_ok (agent_to_slot i).
Proof.
  intros Hi. split; [apply Hi|]. intros a b n Ha Hb.
  apply (iw_slots _ Hi) in Ha, Hb. congruence.
Qed.

Lemma slot_bound s a n : slab_wf s → (a, n) ∈ agent_to_slot (ident s) → n < n_active s.
Proof.
  intros Hs Ha. rewrite (sw_active _ Hs). apply (iw_slots _ (sw_ident _ Hs)) in Ha.
  by apply lookup_lt_Some in Ha.
Qed.

Lemma new_slab_wf cap now : slab_wf (new_slab cap now).
Proof.
  split; simpl; rewrite ?length_replicate; try done; try lia.
  split; simpl; try done; try (by intros ? ? ?%elem_of_nil); try constructor.
  - by constructor.
  - by intros ? ? ?%elem_of_nil.
  - by intros ? ? ? ?%elem_of_nil.
Qed.

(** Changes that keep the slots, the codes and the arrays keep the invariant. *)
Lemma with_ident_wf f s :
  slab_wf s → identity_wf (f (ident s)) →
  length (slot_to_agent (f (ident s))) = length (slot_to_agent (ident s)) → slab_wf (with_ident f s).
Proof. intros [] Hi Hl. split; simpl; try done. by rewrite Hl. Qed.

Lemma with_frames_wf c e i : identity_wf i → identity_wf (with_frames c e i).
Proof. intros []. by split. Qed.

Lemma with_updates_wf t n i : identity_wf i → identity_wf (with_updates t n i).
Proof. intros []. by split. Qed.

Lemma with_times_wf a b s : slab_wf s → slab_wf (with_times a b s).
Proof. intros []. by split. Qed.

Lemma length_grown {A} (z : A) n l : length l ≤ n → length (grown z n l) = n.
Proof. intros Hl. unfold grown. rewrite length_app, length_replicate. lia. Qed.

Lemma lookup_grown {A} (z : A) n l i :
  grown z n l !! i = if decide (i < length l) then l !! i else if decide (i < n) then Some z else None.
Proof.
  unfold grown. destruct (decide (i < length l)); [by rewrite lookup_app_l|].
  rewrite lookup_app_r by lia. destruct (decide (i < n)).
  - apply lookup_replicate_2. lia.
  - apply lookup_ge_None. rewrite length_replicate. lia.
Qed.

Lemma ensure_capacity_wf n s : slab_wf s → slab_wf (ensure_capacity n s) ∧ n < capacity (ensure_capacity n s).
Proof.
  intros Hs. unfold ensure_capacity. case_bool_decide; [|split; [done|lia]].
  unfold grow. set (m := Nat.max (Nat.max (capacity s * 2) (n + 1)) 1). destruct Hs.
  split; [|simpl; lia]. split; simpl; rewrite ?length_grown by lia; try done; try lia.
Qed.

Lemma ensure_capacity_ident n s :
  ident (ensure_capacity n s) = ident s ∧ n_active (ensure_capacity n s) = n_active s.
Proof. unfold ensure_capacity. by case_bool_decide. Qed.

(** What a slab holds at a slot: the last position written there. *)
Definition row : Type := (Z * Z) * (Z * Z).

Definition row_at (s : slab) (i : nat) : option row :=
  match written s !! i with
  | Some true =>
      match sl_lng s !! i, sl_lat s !! i, sl_state s !! i, sl_haulier s !! i with
      | Some x, Some y, Some st, Some h => Some ((x, y), (st, h))
      | _, _, _, _ => None
      end
  | _ => None
  end.

Lemma row_at_grow n s i : slab_wf s → row_at (grow n s) i = row_at s i.
Proof.
  intros Hs. unfold row_at, grow; simpl. rewrite !lookup_grown.
  rewrite (sw_written _ Hs), (sw_lng _ Hs), (sw_lat _ Hs), (sw_state _ Hs), (sw_haulier _ Hs).
  destruct (decide (i < capacity s)); [done|].
  rewrite (lookup_ge_None_2 (written s)) by (rewrite (sw_written _ Hs); lia). by case_decide.
Qed.

Lemma row_at_ensure n s i : slab_wf s → row_at (ensure_capacity n s) i = row_at s i.
Proof. intros Hs. unfold ensure_capacity. case_bool_decide; [by apply row_at_grow|done]. Qed.

Lemma slab_slot_for_spec a s :
  slab_wf s →
  let r := slab_slot_for a s in
  slab_wf r.2 ∧ r.1 < n_active r.2 ∧ (a, r.1) ∈ agent_to_slot (ident r.2) ∧
  (∀ b n, (b, n) ∈ agent_to_slot (ident s) → (b, n) ∈ agent_to_slot (ident r.2)) ∧
  (∀ b n, (b, n) ∈ agent_to_slot (ident r.2) → b = a ∨ (b, n) ∈ agent_to_slot (ident s)) ∧
  (∀ i, row_at r.2 i = row_at s i) ∧ frame_counter (ident r.2) = frame_counter (ident s) ∧
  haulier_to_code (ident r.2) = haulier_to_code (ident s).
Proof.
  intros Hs r. unfold r, slab_slot_for. destruct (d_get (agent_to_slot (ident s)) a) as [n|] eqn:E; simpl.
  { apply d_get_Some_elem in E. split_and!; auto. by apply (slot_bound s a). }
  destruct (ensure_capacity_wf (n_active s) s Hs) as [Hs' Hc].
  destruct (ensure_capacity_ident (n_active s) s) as [Ei En].
  assert (a ∉ d_keys (agent_to_slot (ident s))) as Ha by (rewrite <-d_get_is_Some, E; by intros [? ?]).
  pose proof (sw_active _ Hs) as Hlen. pose proof (sw_ident _ Hs) as Hi.
  rewrite Ei, En, d_set_fresh by done. split_and!.
  - destruct Hs'. split; simpl; try done; rewrite ?Ei, ?d_set_fresh, ?length_app; simpl; try done; try lia.
    split; simpl; try apply Hi.
    + rewrite d_keys_app. apply NoDup_app. split_and!; [apply Hi| |apply NoDup_singleton].
      intros k Hk ->%list_elem_of_singleton. done.
    + intros b n [Hb|[= -> ->]%list_elem_of_singleton]%elem_of_app.
      * apply (iw_slots _ Hi) in Hb. rewrite lookup_app_l; [done|]. by apply lookup_lt_Some in Hb.
      * rewrite lookup_app_r by lia. by rewrite Hlen, Nat.sub_diag.
    + intros n. rewrite length_app. simpl. intros Hn. exists a. apply elem_of_app. right.
      apply list_elem_of_singleton. f_equal. lia.
  - lia.
  - apply elem_of_app. right. by left.
  - intros b n Hb. apply elem_of_app. by left.
  - intros b n [Hb|[= -> ->]%list_elem_of_singleton]%elem_of_app; auto.
  - intros i. by apply (row_at_ensure (n_active s)).
  - done.
  - done.
Qed.

Lemma code_for_haulier_spec h s :
  slab_wf s →
  let r := code_for_haulier h s in
  slab_wf r.2 ∧ (0 <= r.1 <= _MAX_HAULIER_CODE)%Z ∧
  agent_to_slot (ident r.2) = agent_to_slot (ident s) ∧ n_active r.2 = n_active s ∧
  capacity r.2 = capacity s ∧ (∀ i, row_at r.2 i = row_at s i) ∧
  frame_counter (ident r.2) = frame_counter (ident s) ∧
  (∀ k c, (k, c) ∈ haulier_to_code (ident s) → (k, c) ∈ haulier_to_code (ident r.2)) ∧
  match h with
  | None | Some "" => r.1 = 0%Z
  | Some h => (h, r.1) ∈ haulier_to_code (ident r.2)
  end.
Proof.
  intros Hs r. unfold r, code_for_haulier. pose proof (iw_book _ (sw_ident _ Hs)) as Hb.
  destruct h as [[|ch h]|]; try by split_and!.
  set (k := String ch h). destruct (d_get (haulier_to_code (ident s)) k) as [c|] eqn:E.
  { apply d_get_Some_elem in E. destruct (bk_range _ Hb _ _ E). simpl. split_and!; auto; lia. }
  assert (k ∉ d_keys (haulier_to_code (ident s))) as Hk by (rewrite <-d_get_is_Some, E; by intros [? ?]).
  pose proof (iw_next _ (sw_ident _ Hs)) as Hn. pose proof (iw_fresh _ (sw_ident _ Hs)) as Hf.
  set (next := next_haulier_code (ident s)) in *.
  destruct (if (_MAX_HAULIER_CODE <? next)%Z then (_MAX_HAULIER_CODE, next) else (next, (next + 1)%Z))
    as [code next'] eqn:Ec.
  assert ((1 <= code <= _MAX_HAULIER_CODE)%Z ∧ (next <= next' <= _MAX_HAULIER_CODE + 1)%Z ∧
    ((code < _MAX_HAULIER_CODE)%Z → code = next ∧ (code < next')%Z)) as (Hcode & Hnext & Hlt).
  { destruct (Z.ltb_spec _MAX_HAULIER_CODE next); injection Ec as <- <-; unfold _MAX_HAULIER_CODE in *; lia. }
  simpl. rewrite d_set_fresh by done. split_and!; try done; try lia.
  - apply with_ident_wf; simpl; [done| |done]. pose proof (sw_ident _ Hs) as Hi. split; simpl; try apply Hi.
    + rewrite d_set_fresh by done. split.
      * rewrite d_keys_app. apply NoDup_app. split_and!; [apply Hb| |apply NoDup_singleton].
        intros k' Hk' ->%list_elem_of_singleton. done.
      * intros k' c' [Hc|[= -> ->]%list_elem_of_singleton]%elem_of_app; [by apply (bk_range _ Hb k')|done].
      * intros k1 k2 c' [H1|E1%list_elem_of_singleton]%elem_of_app [H2|E2%list_elem_of_singleton]%elem_of_app Hc'.
        -- by apply (bk_inj _ Hb _ _ c').
        -- injection E2 as E2 E2'. pose proof (Hf _ _ H1 Hc'). lia.
        -- injection E1 as E1 E1'. pose proof (Hf _ _ H2 Hc'). lia.
        -- congruence.
    + lia.
    + intros k' c'. rewrite d_set_fresh by done.
      intros [Hc|[= -> ->]%list_elem_of_singleton]%elem_of_app Hc'; [pose proof (Hf _ _ Hc Hc')|]; lia.
  - intros k' c' ?. apply elem_of_app. by left.
  - apply elem_of_app. right. by left.
Qed.

(** *** Adopting persisted identities *)

Lemma highest_spec (m : list (string * nat)) :
  (∀ a n, (a, n) ∈ m → n ≤ foldr Nat.max 0 (map snd m)) ∧
  (m ≠ [] → ∃ a, (a, foldr Nat.max 0 (map snd m)) ∈ m).
Proof.
  induction m as [|[b k] m [IH1 IH2]]; simpl; [split; [by intros a n ?%elem_of_nil|done]|]. split.
  - intros a n [[= -> ->]|Hin%IH1]%elem_of_cons; lia.
  - intros _. destruct (Nat.max_spec k (foldr Nat.max 0 (map snd m))) as [[Hlt ->]|[Hle ->]].
    + destruct m as [|p m]; [simpl in Hlt; lia|]. destruct IH2 as [a Ha]; [done|]. exists a. by right.
    + exists b. by left.
Qed.

Lemma place_agents m (l : list string) :
  slots_ok m → (∀ a n, (a, n) ∈ m → n < length l) →
  let l' := foldl (λ l p, <[p.2 := p.1]> l) l m in
  length l' = length l ∧ ∀ a n, (a, n) ∈ m → l' !! n = Some a.
Proof.
  cbv zeta. induction m as [|[b k] m IH] using rev_ind; intros Hm Hlt.
  { split; [done|]. by intros a n ?%elem_of_nil. }
  rewrite foldl_app. simpl. destruct IH as [Hl Hs].
  - destruct Hm as [Hnd Hinj]. split.
    + rewrite d_keys_app in Hnd. by apply NoDup_app in Hnd as [? _].
    + intros a b' n Ha Hb. apply (Hinj a b' n); apply elem_of_app; by left.
  - intros a n Ha. apply (Hlt a). apply elem_of_app. by left.
  - rewrite length_insert. split; [done|]. intros a n Ha.
    assert (k < length l) as Hk by (apply (Hlt b); apply elem_of_app; right; by left).
    destruct (decide (n = k)) as [->|Hne].
    + rewrite list_lookup_insert_eq by lia. f_equal.
      apply (so_inj _ Hm b a k); [apply elem_of_app; right; by left|done].
    + rewrite list_lookup_insert_ne by done. apply Hs.
      apply elem_of_app in Ha as [?|[= -> ->]%list_elem_of_singleton]; done.
Qed.

Lemma adopt_slot_map_eq m s :
  m ≠ [] →
  adopt_slot_map m s =
  with_n_active (Nat.max (n_active (ensure_capacity (foldr Nat.max 0 (map snd m)) s)) (foldr Nat.max 0 (map snd m) + 1))
    (with_ident (with_slots
       (foldl (λ d p, d_set d p.1 p.2) (agent_to_slot (ident (ensure_capacity (foldr Nat.max 0 (map snd m)) s))) m)
       (foldl (λ l p, <[p.2 := p.1]> l) (replicate (foldr Nat.max 0 (map snd m) + 1) "") m))
       (ensure_capacity (foldr Nat.max 0 (map snd m)) s)).
Proof. by destruct m. Qed.

Lemma adopt_slot_map_wf m s :
  slab_wf s → slots_ok m → m ≠ [] →
  foldl (λ x p, d_set x p.1 p.2) (agent_to_slot (ident s)) m = m →
  n_active s ≤ S (foldr Nat.max 0 (map snd m)) →
  let s' := adopt_slot_map m s in
  slab_wf s' ∧ agent_to_slot (ident s') = m ∧ (∀ i, row_at s' i = row_at s i) ∧
  frame_counter (ident s') = frame_counter (ident s).
Proof.
  intros Hs Hm Hne Hup Hact s'. unfold s'. rewrite adopt_slot_map_eq by done. set (hi := foldr Nat.max 0 (map snd m)) in *.
  destruct (highest_spec m) as [Hhi Hlast]. fold hi in Hhi, Hlast.
  destruct (ensure_capacity_wf hi s Hs) as [Hs' Hc]. destruct (ensure_capacity_ident hi s) as [Ei En].
  destruct (place_agents m (replicate (hi + 1) "")) as [Hl Hp].
  { done. } { intros a n Hin%Hhi. rewrite length_replicate. lia. }
  rewrite length_replicate in Hl. rewrite Ei, Hup, En. split_and!; simpl.
  - destruct Hs'. split; simpl; try done; rewrite ?Hl; try lia.
    rewrite Ei. pose proof (sw_ident _ Hs) as Hi. split; simpl; try apply Hi; try apply Hm; try done.
    rewrite Hl. intros n Hn. assert (n = hi) as -> by lia. by apply Hlast.
  - done.
  - intros i. by apply (row_at_ensure hi).
  - by rewrite Ei.
Qed.

Lemma adopt_new_slot_map m s :
  slab_wf s → slots_ok m → agent_to_slot (ident s) = [] → n_active s = 0 → m ≠ [] →
  let s' := adopt_slot_map m s in
  slab_wf s' ∧ agent_to_slot (ident s') = m ∧ (∀ i, row_at s' i = row_at s i) ∧
  frame_counter (ident s') = frame_counter (ident s).
Proof.
  intros Hs Hm He Hn Hne. apply adopt_slot_map_wf; try done; [|lia].
  rewrite He, d_update_fresh; [done|apply Hm|]. intros k _ Hk. by apply elem_of_nil in Hk.
Qed.

Lemma merge_slots_wf slots s :
  slab_wf s → slots_ok slots →
  let s' := merge_slots slots s in
  slab_wf s' ∧ (∀ p, p ∈ agent_to_slot (ident s) → p ∈ agent_to_slot (ident s')) ∧
  (∀ i, row_at s' i = row_at s i) ∧ frame_counter (ident s') = frame_counter (ident s).
Proof.
  intros Hs Hok s'. unfold s', merge_slots. set (a2s := agent_to_slot (ident s)).
  destruct (non_clashing_keep a2s slots) as [Hnd Hkeep].
  destruct (non_clashing a2s slots).1 as [|p0 k0] eqn:Ek; [done|]. set (keep := p0 :: k0) in *.
  pose proof (slots_wf _ (sw_ident _ Hs)) as Hcur. fold a2s in Hcur.
  assert (∀ k, k ∈ d_keys keep → k ∉ d_keys a2s) as Hdis.
  { intros k [v Hv]%elem_d_keys. by apply (Hkeep k v). }
  rewrite (d_update_fresh a2s keep) by done.
  destruct (adopt_slot_map_wf (a2s ++ keep) s) as (Hs' & Ha & Hr & Hf).
  - done.
  - split.
    + rewrite d_keys_app. apply NoDup_app. split_and!; [apply Hcur| |done]. intros k H1 H2. by apply (Hdis k).
    + intros a b n [Ha|Ha]%elem_of_app [Hb|Hb]%elem_of_app.
      * by apply (so_inj _ Hcur a b n).
      * apply Hkeep in Hb as (_ & _ & Hb). destruct Hb. apply list_elem_of_fmap. by exists (a, n).
      * apply Hkeep in Ha as (_ & _ & Ha). destruct Ha. apply list_elem_of_fmap. by exists (b, n).
      * apply Hkeep in Ha, Hb. apply (so_inj _ Hok a b n); tauto.
  - unfold keep. by destruct a2s.
  - fold a2s. rewrite foldl_app. rewrite (d_update_same a2s a2s); [|apply Hcur|done]. by apply d_update_fresh.
  - destruct (n_active s) as [|n] eqn:En; [lia|]. pose proof (sw_active _ Hs) as Hlen. rewrite En in Hlen.
    destruct (iw_last _ (sw_ident _ Hs) n) as [a Ha]; [done|].
    destruct (highest_spec (a2s ++ keep)) as [Hhi _].
    assert (n ≤ foldr Nat.max 0 (map snd (a2s ++ keep))); [|lia].
    apply (Hhi a). apply elem_of_app. by left.
  - split_and!; try done. intros p Hp. rewrite Ha. apply elem_of_app. by left.
Qed.

Lemma max_code (cs : list Z) (c : Z) : (∀ x, x ∈ c :: cs → (x <= foldr Z.max c cs)%Z) ∧ foldr Z.max c cs ∈ c :: cs.
Proof.
  induction cs as [|d cs [IH1 IH2]]; simpl.
  { split; [|by left]. intros x ->%list_elem_of_singleton. lia. }
  split.
  - intros x [->|[->|Hx]%elem_of_cons]%elem_of_cons.
    + assert (c <= foldr Z.max c cs)%Z by (apply IH1; by left). lia.
    + lia.
    + assert (x <= foldr Z.max c cs)%Z by (apply IH1; by right). lia.
  - destruct (Z.max_spec d (foldr Z.max c cs)) as [[_ ->]|[_ ->]]; set_solver.
Qed.

Lemma adopt_codes_wf codes s :
  slab_wf s → book_ok (foldl (λ x p, d_set x p.1 p.2) (haulier_to_code (ident s)) codes) →
  let s' := adopt_haulier_codes codes s in
  slab_wf s' ∧ agent_to_slot (ident s') = agent_to_slot (ident s) ∧ n_active s' = n_active s ∧
  (∀ i, row_at s' i = row_at s i) ∧ frame_counter (ident s') = frame_counter (ident s).
Proof.
  intros Hs Hb s'. unfold s', adopt_haulier_codes. destruct codes as [|p0 c0]; [by split_and!|].
  set (codes := p0 :: c0) in *. cbv zeta.
  set (book := foldl _ _ codes) in *. set (assigned := filter _ (map snd book)).
  set (next := match assigned with [] => 1%Z | c :: cs => (foldr Z.max c cs + 1)%Z end).
  assert (∀ c, c ∈ assigned ↔ (c < _MAX_HAULIER_CODE)%Z ∧ ∃ h, (h, c) ∈ book) as Has.
  { intros c. unfold assigned. rewrite list_elem_of_filter, list_elem_of_fmap. split.
    - intros (? & [h c'] & -> & ?). eauto.
    - intros (? & h & ?). split; [done|]. by exists (h, c). }
  assert ((∀ c, c ∈ assigned → (c < next)%Z) ∧ (1 <= next <= _MAX_HAULIER_CODE + 1)%Z) as [Hlt Hr].
  { unfold next. destruct assigned as [|c cs]; [split; [by intros c ?%elem_of_nil|done]|].
    destruct (max_code cs c) as [Hm Hin]. split; [intros x Hx%Hm; lia|].
    apply Has in Hin as (? & h & Hh%(bk_range _ Hb)). lia. }
  pose proof (iw_next _ (sw_ident _ Hs)) as Hn.
  split_and!; try done. apply with_ident_wf; simpl; [done| |done].
  pose proof (sw_ident _ Hs) as Hi. split; simpl; try apply Hi; [done|lia|].
  intros h c Hh Hc. assert (c < next)%Z; [|lia]. apply Hlt, Has. eauto.
Qed.

Lemma merge_codes_book codes book :
  book_ok book → book_ok codes →
  book_ok (foldl (λ x p, d_set x p.1 p.2) book (non_clashing book codes).1).
Proof.
  intros Hb Hc. destruct (non_clashing_keep book codes) as [Hnd Hkeep].
  set (keep := (non_clashing book codes).1) in *.
  assert (∀ k, k ∈ d_keys keep → k ∉ d_keys book) as Hdis.
  { intros k [v Hv]%elem_d_keys. by apply (Hkeep k v). }
  rewrite d_update_fresh by done. split.
  - rewrite d_keys_app. apply NoDup_app. split_and!; [apply Hb| |done]. intros k H1 H2. by apply (Hdis k).
  - intros h c [Hh|Hh]%elem_of_app; [by apply (bk_range _ Hb h)|]. by apply Hkeep in Hh as [Hh%(bk_range _ Hc) _].
  - intros h h' c [Hh|Hh]%elem_of_app [Hh'|Hh']%elem_of_app Hlt.
    + by apply (bk_inj _ Hb h h' c).
    + apply Hkeep in Hh' as (_ & _ & Hn). destruct Hn. apply list_elem_of_fmap. by exists (h, c).
    + apply Hkeep in Hh as (_ & _ & Hn). destruct Hn. apply list_elem_of_fmap. by exists (h', c).
    + apply Hkeep in Hh, Hh'. apply (bk_inj _ Hc h h' c); tauto.
Qed.

(** The slots of a new slab: persisted, parked or none. *)
Lemma revived_slots_wf parked slots cap now :
  (∀ p, parked = Some p → identity_wf p) → (slots ≠ [] → slots_ok slots) →
  let s := match slots, parked with
           | [], Some p =>
               let n := length (slot_to_agent p) in
               ensure_capacity (n - 1)
                 (with_n_active n (with_ident (with_slots (agent_to_slot p) (slot_to_agent p)) (new_slab cap now)))
           | [], None => new_slab cap now
           | _, _ => adopt_slot_map slots (new_slab cap now)
           end in
  slab_wf s ∧ haulier_to_code (ident s) = [] ∧ (∀ i, row_at s i = None).
Proof.
  intros Hp Hs s. pose proof (new_slab_wf cap now) as Hnew.
  assert (∀ i, row_at (new_slab cap now) i = None) as Hrow.
  { intros i. unfold row_at; simpl. destruct (replicate _ false !! i) eqn:E; [|done].
    apply lookup_replicate in E as [-> _]. done. }
  unfold s. destruct slots as [|p0 m0].
  - destruct parked as [p|]; [|by split_and!]. specialize (Hp p eq_refl).
    set (n := length (slot_to_agent p)).
    set (s0 := with_n_active n (with_ident (with_slots (agent_to_slot p) (slot_to_agent p)) (new_slab cap now))).
    destruct (ensure_capacity_ident (n - 1) s0) as [Ei En]. cbv zeta. rewrite Ei.
    destruct (ensure_capacity_wf (n - 1) (new_slab cap now) Hnew) as [[_ _ _ W1 W2 W3 W4 W5] Hc].
    assert (∀ i, row_at (ensure_capacity (n - 1) s0) i = row_at (ensure_capacity (n - 1) (new_slab cap now)) i ∧
      capacity (ensure_capacity (n - 1) s0) = capacity (ensure_capacity (n - 1) (new_slab cap now)) ∧
      (sl_lng (ensure_capacity (n - 1) s0), sl_lat (ensure_capacity (n - 1) s0),
       sl_state (ensure_capacity (n - 1) s0), sl_haulier (ensure_capacity (n - 1) s0),
       written (ensure_capacity (n - 1) s0)) =
      (sl_lng (ensure_capacity (n - 1) (new_slab cap now)), sl_lat (ensure_capacity (n - 1) (new_slab cap now)),
       sl_state (ensure_capacity (n - 1) (new_slab cap now)), sl_haulier (ensure_capacity (n - 1) (new_slab cap now)),
       written (ensure_capacity (n - 1) (new_slab cap now)))) as Hsame.
    { intros i. unfold ensure_capacity, s0; simpl. by case_bool_decide. }
    destruct (Hsame 0) as (_ & Ecap & [= E1 E2 E3 E4 E5]).
    split_and!; [|done|].
    + split; rewrite ?Ei, ?En, ?Ecap, ?E1, ?E2, ?E3, ?E4, ?E5; try done; [|simpl; lia].
      unfold s0; simpl. pose proof (new_slab_wf cap now) as [Hi _]. simpl in Hi.
      split; simpl; try apply Hp; apply Hi.
    + intros i. destruct (Hsame i) as [-> _]. by rewrite row_at_ensure.
  - destruct (adopt_new_slot_map (p0 :: m0) (new_slab cap now) Hnew (Hs ltac:(done)) eq_refl eq_refl)
      as (Hwf & _ & Hr & _); [done|]. split_and!.
    + by destruct parked.
    + unfold adopt_slot_map. cbv zeta.
      assert (∀ n, haulier_to_code (ident (ensure_capacity n (new_slab cap now))) = []) as Hh
        by (intros n; by rewrite (proj1 (ensure_capacity_ident n _))).
      destruct parked; apply Hh.
    + intros i. destruct parked; by rewrite Hr.
Qed.

Lemma revived_wf parked slots codes cap now :
  (∀ p, parked = Some p → identity_wf p) → (slots ≠ [] → slots_ok slots) → book_ok codes →
  let s := revived parked slots codes (new_slab cap now) in
  slab_wf s ∧ ∀ i, row_at s i = None.
Proof.
  intros Hp Hs Hb s. unfold s, revived.
  destruct (revived_slots_wf parked slots cap now Hp Hs) as (Hwf & Hbook & Hrow).
  set (s1 := match slots with [] => _ | _ => _ end) in *. clearbody s1. cbv zeta.
  set (s2 := match codes with [] => _ | _ => _ end).
  assert (slab_wf s2 ∧ ∀ i, row_at s2 i = None) as [Hwf2 Hrow2].
  { unfold s2. destruct codes as [|c0 codes].
    - destruct parked as [p|]; [|done]. specialize (Hp p eq_refl). split; [|done].
      apply with_ident_wf; [done| |done]. pose proof (sw_ident _ Hwf) as Hi.
      split; simpl; try apply Hi; apply Hp.
    - destruct (adopt_codes_wf (c0 :: codes) s1 Hwf) as (Hw & _ & _ & Hr & _).
      { rewrite Hbook. rewrite d_update_fresh; [done|apply Hb|]. by intros k _ ?%elem_of_nil. }
      split; [by destruct parked|]. intros i. destruct parked; by rewrite Hr. }
  destruct parked as [p|]; [|done]. split; [|done].
  apply with_ident_wf; [done| |done]. by apply with_frames_wf, with_updates_wf, Hwf2.
Qed.

(** *** Writing a position *)

Lemma set_at_ok {A} i (v : A) l : i < length l → set_at i v l = Ok (<[i := v]> l).
Proof. intros Hi. unfold set_at. by rewrite bool_decide_eq_true_2. Qed.

Class HotEnvLaws `{HotEnv} : Prop := {
  as_uint8_small z : (0 <= z <= 255)%Z → as_uint8 z = z;
  clock_mono n m : n ≤ m → (clock n <= clock m)%Z;
}.

Lemma row_at_insert s i lng lat st hl :
  slab_wf s → i < capacity s →
  let s' := with_arrays (<[i := lng]> (sl_lng s)) (<[i := lat]> (sl_lat s)) (<[i := st]> (sl_state s))
              (<[i := hl]> (sl_haulier s)) (<[i := true]> (written s)) s in
  slab_wf s' ∧ ∀ j, row_at s' j = if decide (j = i) then Some ((lng, lat), (st, hl)) else row_at s j.
Proof.
  intros Hs Hi s'. split.
  - destruct Hs. split; simpl; rewrite ?length_insert; done.
  - intros j. unfold s', row_at; simpl. destruct (decide (j = i)) as [->|Hne].
    + rewrite !list_lookup_insert_eq; [done|..]; by destruct Hs; lia.
    + by rewrite !list_lookup_insert_ne.
Qed.

Lemma update_ok f s s' : f s = Ok s' → update f s = (Ok tt, s').
Proof. intros E. unfold update. by rewrite E. Qed.

(** A code book does not look at the arrays. *)
Lemma code_for_haulier_arrays h x y st hl w s :
  code_for_haulier h (with_arrays x y st hl w s) =
  ((code_for_haulier h s).1, with_arrays x y st hl w (code_for_haulier h s).2).
Proof.
  unfold code_for_haulier; simpl. destruct h as [[|c h]|]; try done.
  destruct (d_get _ _); [done|]. by destruct (_ <? _)%Z.
Qed.

Lemma code_for_haulier_same h s :
  let s' := (code_for_haulier h s).2 in
  (sl_lng s', sl_lat s', sl_state s', sl_haulier s', written s') =
  (sl_lng s, sl_lat s, sl_state s, sl_haulier s, written s).
Proof.
  unfold code_for_haulier. destruct h as [[|c h]|]; try done.
  destruct (d_get _ _); [done|]. by destruct (_ <? _)%Z.
Qed.

Lemma code_for_haulier_times h s : last_update (code_for_haulier h s).2 = last_update s.
Proof.
  unfold code_for_haulier. destruct h as [[|c h]|]; try done.
  destruct (d_get _ _); [done|]. by destruct (_ <? _)%Z.
Qed.

Lemma slab_slot_for_times a s : last_update (slab_slot_for a s).2 = last_update s.
Proof.
  unfold slab_slot_for, ensure_capacity. destruct (d_get _ _); [done|]. by case_bool_decide.
Qed.

Section WriteLemmas.
Context `{PyText, HotEnv, !HotEnvLaws}.

Lemma write_position_spec a lng lat st h t s :
  slab_wf s →
  ∃ slot code s', write_position a lng lat st h t s = (Ok slot, s') ∧
  slab_wf s' ∧ (a, slot) ∈ agent_to_slot (ident s') ∧
  (∀ b n, (b, n) ∈ agent_to_slot (ident s) → (b, n) ∈ agent_to_slot (ident s')) ∧
  (∀ b n, (b, n) ∈ agent_to_slot (ident s') → b = a ∨ (b, n) ∈ agent_to_slot (ident s)) ∧
  (∀ p, p ∈ haulier_to_code (ident s) → p ∈ haulier_to_code (ident s')) ∧
  (∀ i, row_at s' i = if decide (i = slot) then Some ((lng, lat), (state_code st, code)) else row_at s i) ∧
  frame_counter (ident s') = frame_counter (ident s) ∧ last_update s' = last_update s ∧ last_sim_time_ms (ident s') = t ∧
  match h with None | Some "" => code = 0%Z | Some h => (h, code) ∈ haulier_to_code (ident s') end.
Proof.
  intros Hs. destruct (slab_slot_for_spec a s Hs) as (Hs1 & Hlt & Ha & Hkeep & Hnew & Hr1 & Hf1 & Hbk1).
  destruct (slab_slot_for a s) as [slot s1] eqn:E1; simpl in Hs1, Hlt, Ha, Hkeep, Hnew, Hr1, Hf1, Hbk1.
  pose proof (code_for_haulier_spec h s1 Hs1) as Hcode. cbv zeta in Hcode.
  destruct (code_for_haulier h s1) as [code s2] eqn:E2; simpl in Hcode.
  destruct Hcode as (Hs2 & Hrange & Hslots & Hact & Hcap & Hr2 & Hf2 & Hbk2 & Hbook).
  assert (slot < capacity s2) as Hc by (destruct Hs2; lia).
  destruct (row_at_insert s2 slot lng lat (as_uint8 (state_code st)) (as_uint8 code) Hs2 Hc) as [Hwf Hrow].
  rewrite !as_uint8_small in Hrow, Hwf
  by (pose proof (state_code_range st) as Hst; unfold _MAX_HAULIER_CODE in *; simpl in Hst; lia).
  pose proof (code_for_haulier_same h s1) as Hsame. rewrite E2 in Hsame.
  injection Hsame as S1 S2 S3 S4 S5.
  exists slot, code, (with_ident (λ i, with_updates t (update_count i + 1) i)
  (with_arrays (<[slot:=lng]> (sl_lng s2)) (<[slot:=lat]> (sl_lat s2)) (<[slot:=state_code st]> (sl_state s2))
  (<[slot:=code]> (sl_haulier s2)) (<[slot:=true]> (written s2)) s2)). split.
  - pose proof (sw_lng _ Hs2) as L1. pose proof (sw_lat _ Hs2) as L2. pose proof (sw_state _ Hs2) as L3.
  pose proof (sw_haulier _ Hs2) as L4. pose proof (sw_written _ Hs2) as L5. rewrite S1, S2, S3 in *.
  unfold write_position. rewrite (bind_ok _ _ _ slot s1) by (unfold change; by rewrite E1).
  do 3 (erewrite bind_ok; [|apply update_ok; rewrite set_at_ok by (simpl; lia); reflexivity]; simpl).
  erewrite bind_ok; [|unfold change; rewrite !code_for_haulier_arrays, E2; reflexivity]. simpl.
  do 2 (erewrite bind_ok; [|apply update_ok; rewrite set_at_ok by (simpl; rewrite <-?S4, <-?S5; lia); reflexivity];
  simpl).
  erewrite bind_ok; [|by apply update_ok]. rewrite !as_uint8_small; [by rewrite <-S4, <-S5|..].
  + unfold _MAX_HAULIER_CODE in *; lia.
  + pose proof (state_code_range st). simpl in *; lia.
  - simpl. rewrite Hslots. split_and!; try done.
  + by apply with_ident_wf; [|apply with_updates_wf, Hwf|].
  + intros [k c]. rewrite <-Hbk1. apply Hbk2.
  + intros i. rewrite <-Hr1, <-Hr2. apply (Hrow i).
  + congruence.
  + pose proof (code_for_haulier_times h s1) as T2. pose proof (slab_slot_for_times a s) as T1.
  rewrite E1 in T1. rewrite E2 in T2. simpl in T1, T2. congruence.
Qed.
End WriteLemmas.

(** ** Lemmas: the store *)

(** What is remembered of a run: its slab's identity, or its parked one. *)
Definition known (st : store) (run_id : string) : option identity :=
  match d_get (runs st) run_id with
  | Some s => Some (ident s)
  | None => d_get (carryover st) run_id
  end.

(** Nothing already handed out changes its meaning: the frame counter does not go
    back, agents keep their slots and hauliers their codes. *)
Record identity_le (i i' : identity) : Prop := {
  le_counter : (frame_counter i <= frame_counter i')%Z;
  le_slots : ∀ p, p ∈ agent_to_slot i → p ∈ agent_to_slot i';
  le_codes : ∀ p, p ∈ haulier_to_code i → p ∈ haulier_to_code i';
}.

#[export] Instance identity_le_preorder : PreOrder identity_le.
Proof.
  split; [by intros i; split|]. intros i j k [] []. split; [lia|auto|auto].
Qed.

(** All of the invariant but the bound on the number of resident runs. *)
Record store_pre `{HotEnv} (st : store) : Prop := {
  sp_max : 1 ≤ max_runs st;
  sp_keys : NoDup (d_keys (runs st));
  sp_slabs : ∀ r s, (r, s) ∈ runs st → slab_wf s ∧ (last_update s <= clock (ticks st))%Z;
  sp_parked_keys : NoDup (d_keys (carryover st));
  sp_parked_bound : length (carryover st) ≤ carryover_max st;
  sp_parked : ∀ r i, (r, i) ∈ carryover st → identity_wf i;
  sp_disjoint : ∀ r, r ∈ d_keys (runs st) → r ∉ d_keys (carryover st);
}.

Record store_wf `{HotEnv} (st : store) : Prop := {
  wf_pre : store_pre st;
  wf_bound : length (runs st) ≤ max_runs st;
}.

(** The parameters of the tier, which no operation but [set_frame_idx_seed] changes. *)
Definition config (st : store) : nat * Z * nat * option (string → result pyval) :=
  (max_runs st, default_capacity st, carryover_max st, frame_idx_seed st).

(** All runs the tier remembers are among [R]. *)
Definition within (R : list string) (st : store) : Prop :=
  ∀ r, r ∈ d_keys (runs st) ∨ r ∈ d_keys (carryover st) → r ∈ R.

(** One operation's effect on what is remembered. *)
Record keeps (R : list string) (st st' : store) : Prop := {
  kp_config : config st' = config st;
  kp_ticks : ticks st ≤ ticks st';
  kp_within : within R st';
  kp_known : ∀ r i, known st r = Some i → ∃ i', known st' r = Some i' ∧ identity_le i i';
}.

Lemma keeps_refl R st : within R st → keeps R st st.
Proof. intros Hw. split; auto. intros r i Hk. by exists i. Qed.

Lemma keeps_trans R st st' st'' : keeps R st st' → keeps R st' st'' → keeps R st st''.
Proof.
  intros [C1 T1 W1 K1] [C2 T2 W2 K2]. split; [congruence|lia|done|].
  intros r i (i' & Hi' & L1)%K1. destruct (K2 _ _ Hi') as (i'' & ? & L2). exists i''. split; [done|].
  by trans i'.
Qed.

Section StoreLemmas.
Context `{PyText, HotEnv, !HotEnvLaws}.

Lemma least_recent_spec (l : list (string * slab)) :
  l ≠ [] → ∃ l1 p l2, least_recent l = Some p ∧ l = l1 ++ p :: l2 ∧
  Forall (λ q, last_update p.2 < last_update q.2)%Z l1 ∧ Forall (λ q, last_update p.2 <= last_update q.2)%Z l2.
Proof.
  induction l as [|p l IH]; [done|]. intros _. simpl. destruct l as [|q l].
  { exists [], p, []. by split_and!. }
  destruct IH as (l1 & m & l2 & -> & -> & G1 & G2); [done|].
  destruct (Z.ltb_spec (last_update m.2) (last_update p.2)).
  - exists (p :: l1), m, l2. split_and!; try done. by constructor.
  - exists [], p, (l1 ++ m :: l2). split_and!; try done. apply Forall_app. split.
  + apply (Forall_impl _ _ _ G1). simpl. lia.
  + constructor; [done|]. apply (Forall_impl _ _ _ G2). simpl. lia.
Qed.

(** Parking the slab of a run that is not resident (any more). *)
Lemma park_pre r s st :
  store_pre st → slab_wf s → r ∉ d_keys (runs st) → store_pre (park r s st).
Proof.
  intros Hst Hs Hr. unfold park. case_bool_decide as Hmax; [done|].
  set (c := d_set (d_del (carryover st) r) r (ident s)).
  assert (NoDup (d_keys c)) as Hc by apply NoDup_d_set, NoDup_d_del, Hst.
  split; simpl; try apply Hst.
  - by apply NoDup_keys_drop.
  - rewrite length_drop. lia.
  - intros r' i Hin%subseteq_drop. apply elem_d_set in Hin as [Hin|[= -> ->]].
  + apply list_elem_of_filter in Hin as [_ Hin]. by apply (sp_parked _ Hst r').
  + apply Hs.
  - intros r' Hr' Hk%elem_d_keys_drop. apply elem_d_keys_set in Hk as [->|Hk]; [done|].
  apply elem_d_keys_del in Hk as [_ Hk]. by apply (sp_disjoint _ Hst r').
Qed.

(** With room for every run, parking forgets nothing. *)
Lemma park_known R r s st :
  store_pre st → r ∉ d_keys (runs st) → within R st → r ∈ R → length R ≤ carryover_max st → 
  within R (park r s st) ∧
  ∀ r', known (park r s st) r' = if decide (r' = r) then Some (ident s) else known st r'.
Proof.
  intros Hst Hr Hw HrR HR. assert (R ≠ []) as HR0 by (by intros ->; apply elem_of_nil in HrR).
  unfold park. rewrite bool_decide_eq_false_2 by (destruct R; simpl in *; [done|lia]).
  set (c := d_set (d_del (carryover st) r) r (ident s)).
  assert (∀ k, k ∈ d_keys c → k ∈ R) as Hsub.
  { intros k [->|Hk]%elem_d_keys_set; [done|]. apply elem_d_keys_del in Hk as [_ Hk]. apply Hw. by right. }
  assert (length c ≤ length R) as Hlen.
  { rewrite <-length_d_keys. apply submseteq_length, NoDup_submseteq; [|done].
  apply NoDup_d_set, NoDup_d_del, Hst. }
  replace (length c - carryover_max st) with 0 by lia. rewrite drop_0. split.
  - intros r' [Hin|Hin]; simpl in Hin; [apply Hw; by left|by apply Hsub].
  - intros r'. unfold known; simpl. unfold c. rewrite d_get_set, d_get_del.
  destruct (decide (r' = r)) as [->|Hne].
  + destruct (d_get (runs st) r) eqn:E; [|by rewrite decide_True].
  destruct Hr. apply d_get_is_Some. by rewrite E.
  + rewrite !decide_False by congruence. done.
Qed.

(** One eviction: the least recently written run is parked. *)
Lemma evict_one_spec st :
  store_pre st → runs st ≠ [] →
  ∃ l1 v s l2, runs st = l1 ++ (v, s) :: l2 ∧ evict_one st = evicted (park v s (with_runs (l1 ++ l2) st)) ∧
  store_pre (evict_one st) ∧
  Forall (λ q, last_update s < last_update q.2)%Z l1 ∧ Forall (λ q, last_update s <= last_update q.2)%Z l2.
Proof.
  intros Hst Hne. destruct (least_recent_spec _ Hne) as (l1 & [v s] & l2 & E & Er & G1 & G2).
  exists l1, v, s, l2. split; [done|]. pose proof (sp_keys _ Hst) as Hnd. rewrite Er in Hnd.
  assert (evict_one st = evicted (park v s (with_runs (l1 ++ l2) st))) as Ee.
  { unfold evict_one. by rewrite E, Er, d_del_split. }
  split; [done|]. split; [|done]. rewrite Ee.
  assert (store_pre (with_runs (l1 ++ l2) st) ∧ v ∉ d_keys (l1 ++ l2)) as [Hpre Hv].
  { rewrite d_keys_app in Hnd. apply NoDup_app in Hnd as (Hn1 & Hdis & Hn2).
  unfold d_keys in Hn2, Hdis; simpl in Hn2, Hdis. apply NoDup_cons in Hn2 as [Hv2 Hn2]. split.
  - split; simpl; try apply Hst.
  + rewrite d_keys_app. apply NoDup_app. split_and!; [done| |done].
  intros k Hk Hk2. apply (Hdis k Hk). by right.
  + intros r s' [Hin|Hin]%elem_of_app; apply (sp_slabs _ Hst r); rewrite Er; apply elem_of_app;
  [by left|right; by right].
  + intros r Hr. apply (sp_disjoint _ Hst). rewrite Er. rewrite d_keys_app in *.
  apply elem_of_app in Hr as [Hr|Hr]; apply elem_of_app; [by left|right; by right].
  - rewrite d_keys_app, elem_of_app. intros [Hin|Hin]; [|done]. apply (Hdis v Hin). by left. }
  assert (slab_wf s) as Hs.
  { apply (sp_slabs _ Hst v). rewrite Er. apply elem_of_app. right. by left. }
  pose proof (park_pre v s _ Hpre Hs Hv) as [P1 P2 P3 P4 P5 P6 P7]. by split.
Qed.

Lemma config_park v s st : config (park v s st) = config st ∧ ticks (park v s st) = ticks st ∧
  runs (park v s st) = runs st.
Proof. unfold park. by case_bool_decide. Qed.

Lemma evict_one_keeps R st :
  store_pre st → runs st ≠ [] → within R st → length R ≤ carryover_max st → keeps R st (evict_one st).
Proof.
  intros Hst Hne Hw HR.
  destruct (evict_one_spec st Hst Hne) as (l1 & v & s & l2 & Er & Ee & Hpre & _).
  rewrite Ee in *. pose proof (sp_keys _ Hst) as Hnd. rewrite Er in Hnd.
  set (st0 := with_runs (l1 ++ l2) st) in *.
  destruct (config_park v s st0) as (Ec & Et & Erun).
  assert (v ∉ d_keys (runs st0)) as Hv.
  { simpl. rewrite d_keys_app in Hnd. apply NoDup_app in Hnd as (Hn1 & Hdis & Hn2).
  unfold d_keys in Hn2, Hdis; simpl in Hn2, Hdis. apply NoDup_cons in Hn2 as [Hv2 Hn2].
  rewrite d_keys_app, elem_of_app. intros [Hin|Hin]; [|done]. apply (Hdis v Hin). by left. }
  assert (∀ r, r ∈ d_keys (runs st0) → r ∈ d_keys (runs st)) as Hsub.
  { simpl. intros r. rewrite Er, !d_keys_app, !elem_of_app. intros [?|?]; [by left|right; by right]. }
  assert (store_pre st0) as Hst0.
  { split; simpl; try apply Hst.
  - rewrite <-(d_del_split l1 l2 v s Hnd). by apply NoDup_d_del.
  - intros r s' Hin. apply (sp_slabs _ Hst r). rewrite Er. apply elem_of_app in Hin as [?|?];
  apply elem_of_app; [by left|right; by right].
  - intros r Hr. by apply (sp_disjoint _ Hst), Hsub. }
  destruct (park_known R v s st0) as [Hw' Hk]; [done|done| | |done|].
  { intros r [Hr|Hr]; apply Hw; [left; by apply Hsub|by right]. }
  { apply Hw. left. rewrite Er, d_keys_app. apply elem_of_app. right. by left. }
  split; simpl; [done|by rewrite Et|done|].
  intros r i Hi. exists i. split; [|done].
  change (known (park v s st0) r = Some i). rewrite Hk. unfold known in Hi. rewrite Er in Hi.
  destruct (decide (r = v)) as [->|Hrv].
  - rewrite (elem_d_get (l1 ++ (v, s) :: l2) v s) in Hi; [done|done|]. apply elem_of_app. right. by left.
  - unfold known; simpl. rewrite <-(d_del_split l1 l2 v s Hnd), d_get_del, decide_False by done. done.
Qed.

Lemma evict_loop_done fuel st : length (runs st) ≤ max_runs st → evict_loop fuel st = st.
Proof. intros Hl. destruct fuel; [done|]. simpl. by rewrite bool_decide_eq_false_2 by lia. Qed.

(** Eviction after one run was added. *)
Lemma evict_lru_spec st l q :
  store_pre st → length (runs st) ≤ S (max_runs st) → runs st = l ++ [q] →
  (∀ p, p ∈ l → last_update p.2 <= last_update q.2)%Z →
  store_wf (evict_lru st) ∧ q ∈ runs (evict_lru st) ∧ ticks (evict_lru st) = ticks st ∧
  config (evict_lru st) = config st ∧
  ∀ R, within R st → length R ≤ carryover_max st → keeps R st (evict_lru st).
Proof.
  intros Hst Hlen Er Hq. unfold evict_lru.
  destruct (decide (length (runs st) ≤ max_runs st)) as [Hle|Hgt].
  { rewrite evict_loop_done by done. split_and!; try done.
  - rewrite Er. apply elem_of_app. right. by left.
  - intros. by apply keeps_refl. }
  assert (runs st ≠ []) as Hne by (rewrite Er; by destruct l).
  destruct (length (runs st)) as [|n] eqn:El; [lia|]. simpl. rewrite El.
  rewrite bool_decide_eq_true_2 by lia.
  destruct (evict_one_spec st Hst Hne) as (l1 & v & s & l2 & Er' & Ee & Hpre & G1 & _).
  destruct (config_park v s (with_runs (l1 ++ l2) st)) as (Ec & Et & Erun).
  assert (runs (evict_one st) = l1 ++ l2 ∧ ticks (evict_one st) = ticks st ∧ config (evict_one st) = config st)
  as (Er1 & Et1 & Ec1) by (by rewrite Ee; simpl; rewrite Erun).
  assert (length (runs (evict_one st)) = n) as El1.
  { rewrite Er1. rewrite Er' in El. rewrite length_app in *. simpl in El. lia. }
  assert (max_runs (evict_one st) = max_runs st) as Em by (by injection Ec1).
  rewrite evict_loop_done by lia.
  split_and!; try done.
  - split; [done|lia].
  - rewrite Er1. destruct l2 as [|p l2].
  + exfalso. rewrite Er in Er'. apply app_inj_tail in Er' as [-> ->]. simpl in Hq.
  pose proof (sp_max _ Hst). rewrite Er, length_app in El; simpl in El.
  destruct l1 as [|p l1]; [simpl in El; lia|]. apply Forall_cons in G1 as [G1 _].
  specialize (Hq p ltac:(by left)). lia.
  + rewrite Er in Er'. apply elem_of_app. right.
  assert (last (l ++ [q]) = last (l1 ++ (v, s) :: p :: l2)) as Hlast by (by rewrite Er').
  rewrite last_snoc, last_app_cons, last_cons_cons in Hlast. symmetry in Hlast.
  by apply last_Some_elem_of in Hlast.
  - intros R Hw HR. by apply evict_one_keeps.
Qed.

(** *** Replacing a resident run's slab *)

Lemma set_run_spec R r s s' st :
  store_wf st → d_get (runs st) r = Some s → slab_wf s' →
  (last_update s' <= clock (ticks st))%Z → identity_le (ident s) (ident s') →
  let st' := with_runs (d_set (runs st) r s') st in
  store_wf st' ∧ (within R st → keeps R st st').
Proof.
  intros [Hst Hb] Hr Hs' Ht Hle st'.
  assert (r ∈ d_keys (runs st)) as Hin by (apply d_get_is_Some; by rewrite Hr).
  assert (∀ k, k ∈ d_keys (d_set (runs st) r s') ↔ k ∈ d_keys (runs st)) as Hk.
  { intros k. rewrite elem_d_keys_set. split; [intros [->|?]; done|by right]. }
  assert (NoDup (d_keys (d_set (runs st) r s'))) as Hnd by apply NoDup_d_set, Hst.
  split.
  - split; [|simpl].
  + split; simpl; try apply Hst; try done.
  * intros k s0 [Hin0|[= -> ->]]%elem_d_set; [by apply (sp_slabs _ Hst k)|done].
  * intros k Hk0%Hk. by apply (sp_disjoint _ Hst).
  + rewrite <-length_d_keys. etrans; [|exact Hb]. rewrite <-(length_d_keys (runs st)).
  apply submseteq_length, NoDup_submseteq; [done|]. intros k. by rewrite Hk.
  - intros Hw. split; [done|done| |].
  + intros k [Hk0|Hk0]; simpl in Hk0; apply Hw; [left; by apply Hk|by right].
  + intros k i Hi. unfold known in *; simpl. rewrite d_get_set. destruct (decide (r = k)) as [->|]; [|by exists i].
  rewrite Hr in Hi. injection Hi as <-. by exists (ident s').
Qed.

Lemma ticked_spec R st : store_wf st → store_wf (ticked st) ∧ (within R st → keeps R st (ticked st)).
Proof.
  intros [Hst Hb]. split.
  - split; [|done]. destruct Hst. split; simpl; try done. intros r s Hin.
  destruct (sp_slabs0 r s Hin). split; [done|]. etrans; [done|]. apply clock_mono. lia.
  - intros Hw. split; simpl; try done; [lia|]. intros r i Hi. by exists i.
Qed.

(** *** Making a run resident *)

Lemma ensure_capacity_times n s : last_update (ensure_capacity n s) = last_update s.
Proof. unfold ensure_capacity. by case_bool_decide. Qed.

Lemma adopt_times m codes s :
  last_update (adopt_slot_map m s) = last_update s ∧ last_update (adopt_haulier_codes codes s) = last_update s.
Proof.
  split; [|by destruct codes]. destruct m as [|p m]; [done|].
  rewrite adopt_slot_map_eq by done. apply ensure_capacity_times.
Qed.

Lemma revived_times parked slots codes s : last_update (revived parked slots codes s) = last_update s.
Proof.
  unfold revived. destruct parked as [p|], slots as [|q slots], codes as [|c codes]; cbv zeta; cbn [with_ident last_update];
  rewrite ?(proj2 (adopt_times [] _ _)), ?(proj1 (adopt_times _ [] _)), ?ensure_capacity_times; done.
Qed.

Lemma revived_parked p s :
  agent_to_slot (ident (revived (Some p) [] [] s)) = agent_to_slot p ∧
  haulier_to_code (ident (revived (Some p) [] [] s)) = haulier_to_code p.
Proof.
  unfold revived. cbv zeta. cbn [with_ident ident with_frames with_updates with_codes agent_to_slot haulier_to_code].
  split; [|done]. by rewrite (proj1 (ensure_capacity_ident _ _)).
Qed.

(** What the callers of the tier provide: a seed that answers with a number or
nothing, an explicit start that is one, slot maps and code books as a tier
hands them out, and none of these for a run whose identity is parked. *)
Definition good_int (v : pyval) : Prop := v = PNone ∨ ∃ z, py_int v = Ok z.

Definition seed_ok (st : store) : Prop :=
  ∀ fn r v, frame_idx_seed st = Some fn → fn r = Ok v → good_int v.

Record args_ok (st : store) (r : string) (start : pyval) (slots : list (string * nat))
  (codes : list (string * Z)) : Prop := {
  ao_start : good_int start;
  ao_slots : slots_ok slots;
  ao_codes : book_ok codes;
  ao_parked : d_get (carryover st) r = None ∨ slots = [] ∧ codes = [];
}.

Lemma seeded_spec r st :
  seed_ok st → ∃ z st', seeded_frame_idx r st = (Ok z, st') ∧ (st' = st ∨ st' = seed_failed st).
Proof.
  intros Hseed. unfold seeded_frame_idx. destruct (frame_idx_seed st) as [fn|] eqn:Ef; [|eauto].
  destruct (fn r) as [v|] eqn:Ev; [|eauto].
  destruct (Hseed fn r v Ef Ev) as [->|[z Hz]]; [eauto|]. destruct v; rewrite ?Hz; eauto.
Qed.

(** The store in which the new slab of run [r] takes its place. *)
Lemma place_slab_spec st st3 r s :
  store_wf st → d_get (runs st) r = None → slab_wf s → last_update s = clock (ticks st) →
  st3 = with_carryover (d_del (carryover st) r) (ticked st) ∨
  st3 = seed_failed (with_carryover (d_del (carryover st) r) (ticked st)) →
  let st4 := with_runs (d_set (runs st3) r s) st3 in
  store_pre st4 ∧ runs st4 = runs st ++ [(r, s)] ∧ config st4 = config st ∧ ticks st4 = S (ticks st) ∧
  ∀ R, r ∈ R → within R st →
  (∀ i, d_get (carryover st) r = Some i → identity_le i (ident s)) → keeps R st st4.
Proof.
  intros [Hst Hb] Hr Hs Hu Hst3 st4.
  assert (r ∉ d_keys (runs st)) as Hnr by (rewrite <-d_get_is_Some, Hr; by intros [? ?]).
  assert (runs st3 = runs st ∧ carryover st3 = d_del (carryover st) r ∧ config st3 = config st ∧
  ticks st3 = S (ticks st)) as (E1 & E2 & E3 & E4) by (by destruct Hst3 as [-> | ->]).
  assert (max_runs st3 = max_runs st ∧ carryover_max st3 = carryover_max st) as [E5 E6] by (by injection E3).
  unfold st4. rewrite E1, d_set_fresh by done. split_and!; try done.
  - assert (clock (ticks st) <= clock (S (ticks st)))%Z as Hc by (apply clock_mono; lia).
  split; simpl; rewrite ?E2, ?E4, ?E5, ?E6; try apply Hst.
  + rewrite d_keys_app. apply NoDup_app. split_and!; [apply Hst| |apply NoDup_singleton].
  intros k Hk ->%list_elem_of_singleton. done.
  + intros k s0 [Hin|[= -> ->]%list_elem_of_singleton]%elem_of_app; [|split; [done|lia]].
  destruct (sp_slabs _ Hst k s0 Hin). split; [done|lia].
  + apply NoDup_d_del, Hst.
  + etrans; [|apply (sp_parked_bound _ Hst)]. apply length_filter.
  + intros k i Hin%list_elem_of_filter. apply (sp_parked _ Hst k). tauto.
  + intros k Hk [Hne Hk2]%elem_d_keys_del. rewrite d_keys_app in Hk.
  apply elem_of_app in Hk as [Hk| ->%list_elem_of_singleton]; [|done]. by apply (sp_disjoint _ Hst k).
  - intros R HR Hw Hle. split; [done|simpl; lia| |].
  + intros k [Hk|Hk]; simpl in Hk.
  * rewrite d_keys_app in Hk. apply elem_of_app in Hk as [Hk| ->%list_elem_of_singleton]; [|done].
  apply Hw. by left.
  * rewrite E2 in Hk. apply elem_d_keys_del in Hk as [_ Hk]. apply Hw. by right.
  + intros k i Hi. unfold known in *; simpl. rewrite <-(d_set_fresh (runs st) r s) by done.
  rewrite d_get_set, E2, d_get_del. destruct (decide (r = k)) as [<-|Hne].
  * rewrite Hr in Hi. exists (ident s). split; [done|]. by apply Hle.
  * exists i. split; [by destruct (d_get (runs st) k)|done].
Qed.

(** The candidates of [_create_slab_locked], read off the arguments. *)
Lemma start_spec start (st : store) :
  good_int start → ∃ l, (match start with PNone => mret [] | v => z ← lift (py_int v); mret [Z.max z 0] end :
  eff store (list Z)) st = (Ok l, st).
Proof. intros [->|[z Hz]]; [by exists []|]. destruct start; cbv [mbind eff_bind lift]; rewrite ?Hz; eauto. Qed.

Lemma max_candidates z l : (z <= foldr Z.max z l)%Z ∧ ∀ x, x ∈ l → (x <= foldr Z.max z l)%Z.
Proof.
  induction l as [|y l [IH1 IH2]]; simpl; [split; [lia|by intros x ?%elem_of_nil]|].
  split; [lia|]. intros x [->|Hx%IH2]%elem_of_cons; lia.
Qed.

Lemma create_slab_spec r capacity start slots codes st :
  store_wf st → d_get (runs st) r = None → seed_ok st → args_ok st r start slots codes →
  ∃ st' s, create_slab r capacity start slots codes st = (Ok tt, st') ∧ store_wf st' ∧
  d_get (runs st') r = Some s ∧ slab_wf s ∧ (∀ i, row_at s i = None) ∧ config st' = config st ∧
  ticks st' = S (ticks st) ∧
  ∀ R, r ∈ R → within R st → length R ≤ carryover_max st → keeps R st st'.
Proof.
  intros Hst Hr Hseed Hargs. unfold create_slab.
  rewrite (bind_ok _ _ _ st st) by done.
  rewrite (bind_ok _ _ _ (clock (ticks st)) (ticked st)) by done. cbv zeta.
  set (cap := match capacity with Some _ => _ | None => _ end).
  set (parked := d_get (carryover st) r).
  set (st2 := with_carryover (d_del (carryover (ticked st)) r) (ticked st)).
  rewrite (bind_ok _ _ _ tt st2) by done.
  set (s0 := revived parked slots codes (new_slab cap (clock (ticks st)))).
  destruct (seeded_spec r st2 Hseed) as (z & st3 & Hz & Hst3). rewrite (bind_ok _ _ _ _ _ Hz).
  destruct (start_spec start st3 (ao_start _ _ _ _ _ Hargs)) as [l Hl]. rewrite (bind_ok _ _ _ _ _ Hl).
  set (counter := foldr Z.max z _).
  set (s := with_ident (λ i, with_frames counter (frames_emitted i) i) s0).
  assert (slab_wf s0 ∧ ∀ i, row_at s0 i = None) as [Hwf0 Hrow0].
  { apply revived_wf.
  - intros p Hp. apply (sp_parked _ (wf_pre _ Hst) r). by apply d_get_Some_elem.
  - intros _. apply Hargs.
  - apply Hargs. }
  assert (slab_wf s) as Hwf by (apply with_ident_wf; [done|by apply with_frames_wf, Hwf0|done]).
  destruct (place_slab_spec st st3 r s Hst Hr Hwf) as (Hpre & Er & Ec & Et & Hkeep); [apply revived_times|done|].
  cbv zeta in Hpre, Er, Ec, Et, Hkeep.
  set (st4 := with_runs (d_set (runs st3) r s) st3) in *.
  rewrite (bind_ok _ _ _ tt st4) by done.
  destruct (evict_lru_spec st4 (runs st) (r, s)) as (Hwf5 & Hin & Et5 & Ec5 & Hkeep5); [done| |done| |].
  { rewrite Er, length_app. pose proof (wf_bound _ Hst). assert (max_runs st4 = max_runs st) as -> by (by injection Ec).
  cbn [length]. lia. }
  { intros [k q] Hq. simpl. unfold s0. rewrite revived_times. simpl.
  by apply (sp_slabs _ (wf_pre _ Hst) k). }
  exists (evict_lru st4), s. split_and!; try done.
  - apply elem_d_get; [apply Hwf5|done].
  - congruence.
  - congruence.
  - intros R HR Hw Hlen.
  assert (keeps R st st4) as H4.
  { apply Hkeep; [done|done|]. intros i Hi. fold parked in Hi.
  assert (slots = [] ∧ codes = []) as [-> ->].
  { destruct (ao_parked _ _ _ _ _ Hargs) as [Hn|]; [|done]. fold parked in Hn. congruence. }
  assert (agent_to_slot (ident s0) = agent_to_slot i ∧ haulier_to_code (ident s0) = haulier_to_code i)
  as [Ea Eh] by (unfold s0; rewrite Hi; apply revived_parked).
  split.
  - change (frame_counter (ident s)) with counter. unfold counter. rewrite Hi. apply max_candidates. by left.
  - change (agent_to_slot (ident s)) with (agent_to_slot (ident s0)). by rewrite Ea.
  - change (haulier_to_code (ident s)) with (haulier_to_code (ident s0)). by rewrite Eh. }
  apply (keeps_trans _ _ st4); [done|]. apply Hkeep5; [apply H4|].
  assert (carryover_max st4 = carryover_max st) by (by injection Ec). lia.
Qed.

(** [ensure_run] makes the run resident; the new slab is never its own victim. *)
Lemma ensure_run_spec r capacity start slots codes st :
  store_wf st → seed_ok st → (d_get (runs st) r = None → args_ok st r start slots codes) →
  ∃ st' s, ensure_run r capacity start slots codes st = (Ok tt, st') ∧ store_wf st' ∧
  d_get (runs st') r = Some s ∧ slab_wf s ∧ config st' = config st ∧
  match d_get (runs st) r with
  | Some s0 => ident s = ident s0 ∧ ∀ i, row_at s i = row_at s0 i
  | None => ∀ i, row_at s i = None
  end ∧
  ∀ R, r ∈ R → within R st → length R ≤ carryover_max st → keeps R st st'.
Proof.
  intros Hst Hseed Hargs. unfold ensure_run. rewrite (bind_ok _ _ _ st st) by done.
  destruct (d_get (runs st) r) as [s0|] eqn:Er.
  - rewrite (bind_ok _ _ _ (clock (ticks st)) (ticked st)) by done.
  set (s := with_times (clock (ticks st)) (clock (ticks st)) s0).
  destruct (ticked_spec [] st Hst) as [Hwf1 _].
  assert (slab_wf s0) as Hs0 by (apply (sp_slabs _ (wf_pre _ Hst) r); by apply d_get_Some_elem).
  assert (∀ R, store_wf (with_runs (d_set (runs (ticked st)) r s) (ticked st)) ∧
  (within R (ticked st) → keeps R (ticked st) (with_runs (d_set (runs (ticked st)) r s) (ticked st)))) as Hset.
  { intros R. apply (set_run_spec R r s0 s (ticked st)); try done; [by apply with_times_wf|].
  simpl. apply clock_mono. lia. }
  eexists _, s. split; [reflexivity|]. split_and!; try done.
  + apply (Hset []).
  + simpl. apply d_get_set_eq.
  + by apply with_times_wf.
  + intros R HR Hw Hlen. destruct (ticked_spec R st Hst) as [_ Ht].
  apply (keeps_trans _ _ (ticked st)); [by apply Ht|]. by apply (Hset R).
  - destruct (create_slab_spec r capacity start slots codes st Hst Er Hseed (Hargs eq_refl))
  as (st' & s & E & Hwf & Hg & Hs & Hrow & Hc & _ & Hk).
  exists st', s. by split_and!.
Qed.

(** *** Reads, positions, snapshots *)

Lemma touch_spec r s (f : Z → slab → slab) st :
  store_wf st → d_get (runs st) r = Some s →
  (∀ now, slab_wf (f now s) ∧ ident (f now s) = ident s ∧ (last_update (f now s) = last_update s ∨ last_update (f now s) = now)) →
  let st' := with_runs (d_set (runs st) r (f (clock (ticks st)) s)) (ticked st) in
  store_wf st' ∧ d_get (runs st') r = Some (f (clock (ticks st)) s) ∧
  ∀ R, within R st → keeps R st st'.
Proof.
  intros Hst Hr Hf st'. destruct (Hf (clock (ticks st))) as (Hs & Hi & Hu).
  destruct (ticked_spec [] st Hst) as [Hwf1 _].
  assert (∀ R, store_wf st' ∧ (within R (ticked st) → keeps R (ticked st) st')) as Hset.
  { intros R. apply (set_run_spec R r s _ (ticked st)); try done; [|by rewrite Hi].
  destruct (sp_slabs _ (wf_pre _ Hwf1) r s) as [_ Hlast]; [by apply d_get_Some_elem|].
  destruct Hu as [-> | ->]; [done|]. simpl. apply clock_mono. lia. }
  split_and!; [apply (Hset [])|simpl; apply d_get_set_eq|].
  intros R Hw. destruct (ticked_spec R st Hst) as [_ Ht].
  apply (keeps_trans _ _ (ticked st)); [by apply Ht|]. by apply (Hset R).
Qed.

Lemma get_slab_ok r s st : d_get (runs st) r = Some s → get_slab r st = (Ok s, st).
Proof. intros E. unfold get_slab. by rewrite E. Qed.

Lemma get_slab_none r st : d_get (runs st) r = None → get_slab r st = (Raise RunNotResident, st).
Proof. intros E. unfold get_slab. by rewrite E. Qed.

Lemma touch_read_eq r st :
  touch_read r st =
  match d_get (runs st) r with
  | Some s => let s' := with_times (clock (ticks st)) (last_update s) s in
      (Ok s', with_runs (d_set (runs st) r s') (ticked st))
  | None => (Raise RunNotResident, st)
  end.
Proof. unfold touch_read, mbind, eff_bind, get_slab. by destruct (d_get (runs st) r). Qed.

Lemma touch_write_eq r st :
  touch_write r st =
  match d_get (runs st) r with
  | Some s => let s' := with_times (clock (ticks st)) (clock (ticks st)) s in
      (Ok s', with_runs (d_set (runs st) r s') (ticked st))
  | None => (Raise RunNotResident, st)
  end.
Proof. unfold touch_write, mbind, eff_bind, get_slab. by destruct (d_get (runs st) r). Qed.

Lemma default_args_ok st r : args_ok st r PNone [] [].
Proof.
  split; [by left|split|split|by right]; try apply NoDup_nil_2; try (by intros ? ? ? ?%elem_of_nil).
  by intros ? ? ?%elem_of_nil.
Qed.

(** What the tier holds for run [r] at a slot. *)
Definition held (st : store) (r : string) (i : nat) : option row :=
  match d_get (runs st) r with Some s => row_at s i | None => None end.

(** [ensure_run] then [_touch_write]: the head of both writing operations. *)
Lemma ensure_touch_spec r st :
  store_wf st → seed_ok st →
  ∃ st' s s', (ensure r;; touch_write r) st = (Ok s', st') ∧ store_wf st' ∧ d_get (runs st') r = Some s ∧
  slab_wf s ∧ config st' = config st ∧ (∀ i, row_at s i = held st r i) ∧
  (∀ R, r ∈ R → within R st → length R ≤ carryover_max st → keeps R st st').
Proof.
  intros Hst Hseed.
  destruct (ensure_run_spec r None PNone [] [] st Hst Hseed) as (st1 & s1 & E1 & Hwf1 & Hg1 & Hs1 & Hc1 & Hrow & Hk1).
  { intros _. apply default_args_ok. }
  set (now := clock (ticks st1)).
  destruct (touch_spec r s1 (λ now s, with_times now now s) st1 Hwf1 Hg1) as (Hwf2 & Hg2 & Hk2).
  { intros t. split_and!; [by apply with_times_wf|done|by right]. }
  exists (with_runs (d_set (runs st1) r (with_times now now s1)) (ticked st1)), (with_times now now s1),
  (with_times now now s1).
  split_and!; try done.
  - unfold ensure. rewrite (bind_ok _ _ _ _ _ E1), touch_write_eq, Hg1. done.
  - by apply with_times_wf.
  - intros i. unfold held. change (row_at (with_times now now s1) i) with (row_at s1 i).
  destruct (d_get (runs st) r); apply Hrow.
  - intros R HR Hw Hlen. pose proof (Hk1 R HR Hw Hlen) as Hk. apply (keeps_trans _ _ st1); [done|].
  apply Hk2, Hk.
Qed.

(** A change of the resident slab that keeps its meaning. *)
Lemma on_slab_spec {A} r s (m : eff slab A) res s' st :
  store_wf st → d_get (runs st) r = Some s → m s = (res, s') → slab_wf s' →
  last_update s' = last_update s → identity_le (ident s) (ident s') →
  let st' := with_runs (d_set (runs st) r s') st in
  on_slab r m st = (res, st') ∧ store_wf st' ∧ d_get (runs st') r = Some s' ∧ ∀ R, within R st → keeps R st st'.
Proof.
  intros Hst Hr Hm Hs' Hu Hle st'. split.
  { unfold on_slab. rewrite (bind_ok _ _ _ s st) by (by apply get_slab_ok). by rewrite Hm. }
  assert (∀ R, store_wf st' ∧ (within R st → keeps R st st')) as Hset.
  { intros R. apply (set_run_spec R r s s' st); try done. rewrite Hu.
  apply (sp_slabs _ (wf_pre _ Hst) r). by apply d_get_Some_elem. }
  split_and!; [apply (Hset [])|simpl; apply d_get_set_eq|]. intros R. apply Hset.
Qed.

Lemma update_position_spec r a lng lat sv h t st :
  store_wf st → seed_ok st →
  ∃ slot code st' s, update_position r a lng lat sv h t st = (Ok slot, st') ∧ store_wf st' ∧
  d_get (runs st') r = Some s ∧ (a, slot) ∈ agent_to_slot (ident s) ∧ last_sim_time_ms (ident s) = t ∧
  (∀ i, row_at s i = if decide (i = slot) then Some ((lng, lat), (state_code sv, code)) else held st r i) ∧
  match h with None | Some "" => code = 0%Z | Some h => (h, code) ∈ haulier_to_code (ident s) end ∧
  config st' = config st ∧
  ∀ R, r ∈ R → within R st → length R ≤ carryover_max st → keeps R st st'.
Proof.
  intros Hst Hseed.
  destruct (ensure_touch_spec r st Hst Hseed) as (st1 & s1 & s1' & E1 & Hwf1 & Hg1 & Hs1 & Hc1 & Hrow & Hk1).
  destruct (write_position_spec a lng lat sv h t s1 Hs1)
  as (slot & code & s2 & E2 & Hs2 & Ha & Hold & _ & Hcodes & Hr2 & Hf2 & Hu2 & Ht & Hcode).
  destruct (on_slab_spec r s1 _ _ s2 st1 Hwf1 Hg1 E2 Hs2 Hu2) as (E & Hwf & Hg & Hk).
  { split; [lia|by intros []; apply Hold|done]. }
  eexists slot, code, _, s2. split.
  { unfold update_position. rewrite <-bind_bind.
  rewrite (bind_ok _ _ _ _ _ E1). exact E. }
  split_and!; try done.
  - intros i. rewrite Hr2. by rewrite Hrow.
  - intros R HR Hw Hlen. pose proof (Hk1 R HR Hw Hlen) as Hk'. apply (keeps_trans _ _ st1); [done|]. apply Hk, Hk'.
Qed.

Lemma nth_ok (l : list Z) i : i < length l → l !! i = Some (nth i l 0%Z).
Proof. intros Hi. destruct (lookup_lt_is_Some_2 l i Hi) as [x Hx]. by rewrite Hx, (nth_lookup_Some _ _ _ _ Hx). Qed.

(** The rows a frame reports, in order. *)
Definition reported (f : frame) : list (Z * row) :=
  zip (slot f) (zip (zip (lng f) (lat f)) (zip (state f) (haulier f))).

Lemma zip_map {A B C} (f : A → B) (g : A → C) l : zip (map f l) (map g l) = map (λ x, (f x, g x)) l.
Proof. induction l as [|x l IH]; simpl; [done|]. by rewrite IH. Qed.

Lemma frame_of_spec kind s :
  slab_wf s →
  ∃ f, frame_of kind s = Ok f ∧ frame_idx f = frame_counter (ident s) ∧
  sim_time_ms f = last_sim_time_ms (ident s) ∧
  reported f = omap (λ i, r ← row_at s i; Some (uint32 i, r)) (seq 0 (n_active s)).
Proof.
  intros Hs. unfold frame_of, new_frame. rewrite bool_decide_eq_true_2.
  2:{ unfold at_slots. by rewrite !length_map. }
  eexists. split; [reflexivity|]. split_and!; [done|done|].
  unfold reported, at_slots; simpl. rewrite !zip_map. unfold written_slots.
  assert (∀ i, i ∈ seq 0 (n_active s) → i < capacity s) as Hlt.
  { intros i Hi. apply elem_of_seq in Hi. destruct Hs; lia. }
  induction (seq 0 (n_active s)) as [|i l IH]; [done|].
  assert (i < capacity s) as Hi by (apply Hlt; by left).
  specialize (IH ltac:(intros j Hj; apply Hlt; by right)).
  simpl. unfold row_at at 1. destruct (decide (written s !! i = Some true)) as [Hw|Hw].
  - rewrite filter_cons_True, Hw by done. simpl.
  rewrite (nth_ok (sl_lng s) i), (nth_ok (sl_lat s) i), (nth_ok (sl_state s) i), (nth_ok (sl_haulier s) i)
  by (destruct Hs; lia).
  simpl. by rewrite IH.
  - rewrite filter_cons_False by done. destruct (written s !! i) as [[]|]; [done| |]; simpl; apply IH.
Qed.

Lemma snapshot_spec r kind s st :
  store_wf st → d_get (runs st) r = Some s →
  ∃ f st' s', snapshot r kind st = (Ok f, st') ∧ store_wf st' ∧ d_get (runs st') r = Some s' ∧
  frame_idx f = frame_counter (ident s) ∧ sim_time_ms f = last_sim_time_ms (ident s) ∧
  reported f = omap (λ i, r ← row_at s i; Some (uint32 i, r)) (seq 0 (n_active s)) ∧
  frame_counter (ident s') = (frame_counter (ident s) + 1)%Z ∧
  frames_emitted (ident s') = (frames_emitted (ident s) + 1)%Z ∧
  last_update s' = last_update s ∧ (∀ i, row_at s' i = row_at s i) ∧ config st' = config st ∧
  ∀ R, within R st → keeps R st st'.
Proof.
  intros Hst Hr. destruct (touch_spec r s (λ now s, with_times now (last_update s) s) st Hst Hr) as (Hwf1 & Hg1 & Hk1).
  { intros now. split_and!; [|done|by left]. apply with_times_wf, (sp_slabs _ (wf_pre _ Hst) r).
  by apply d_get_Some_elem. }
  set (s1 := with_times (clock (ticks st)) (last_update s) s) in *.
  set (st1 := with_runs (d_set (runs st) r s1) (ticked st)) in *.
  assert (slab_wf s1) as Hs1 by (apply (sp_slabs _ (wf_pre _ Hwf1) r); by apply d_get_Some_elem).
  destruct (frame_of_spec kind s1 Hs1) as (f & Ef & Hidx & Htime & Hrep).
  set (s2 := with_ident (λ i, with_frames (frame_counter i + 1) (frames_emitted i + 1) i) s1).
  assert (∀ R, store_wf (with_runs (d_set (runs st1) r s2) st1) ∧
  (within R st1 → keeps R st1 (with_runs (d_set (runs st1) r s2) st1))) as Hset.
  { intros R. apply (set_run_spec R r s1 s2 st1); try done.
  - apply with_ident_wf; [done|by apply with_frames_wf, Hs1|done].
  - apply (sp_slabs _ (wf_pre _ Hwf1) r s1). by apply d_get_Some_elem.
  - split; simpl; [lia|done|done]. }
  exists f, (with_runs (d_set (runs st1) r s2) st1), s2. split_and!; try done.
  - unfold snapshot. rewrite (bind_ok _ _ _ s1 st1) by (by rewrite touch_read_eq, Hr).
  rewrite (bind_ok _ _ _ f st1) by (unfold lift; by rewrite Ef). done.
  - apply (Hset []).
  - simpl. apply d_get_set_eq.
  - intros R Hw. pose proof (Hk1 R Hw) as Hk. apply (keeps_trans _ _ st1); [done|]. apply (Hset R), Hk.
Qed.

(** *** The remaining operations *)

Lemma evict_spec r st :
  store_wf st →
  store_wf (evict r st).2 ∧
  ∀ R, within R st → length R ≤ carryover_max st → keeps R st (evict r st).2.
Proof.
  intros Hst. unfold evict. destruct (d_get (runs st) r) as [s|] eqn:Er; simpl.
  2:{ split; [done|]. intros. by apply keeps_refl. }
  set (st0 := with_runs (d_del (runs st) r) st).
  assert (slab_wf s) as Hs by (apply (sp_slabs _ (wf_pre _ Hst) r); by apply d_get_Some_elem).
  assert (r ∉ d_keys (runs st0)) as Hr by (simpl; rewrite elem_d_keys_del; tauto).
  assert (store_pre st0) as Hst0.
  { destruct Hst as [[] _]. split; simpl; try done.
  - by apply NoDup_d_del.
  - intros k s' Hin%list_elem_of_filter. apply (sp_slabs0 k). tauto.
  - intros k Hk%elem_d_keys_del. apply sp_disjoint0. tauto. }
  destruct (config_park r s st0) as (Ec & Et & Erun). split.
  - split.
  + destruct (park_pre r s st0 Hst0 Hs Hr). by split.
  + simpl. rewrite Erun. assert (max_runs (park r s st0) = max_runs st) as -> by (by injection Ec).
  etrans; [apply length_filter|apply Hst].
  - intros R Hw HR.
  assert (within R st0) as Hw0.
  { intros k [Hk|Hk]; apply Hw; [left|by right]. simpl in Hk. apply elem_d_keys_del in Hk. tauto. }
  destruct (park_known R r s st0 Hst0 Hr Hw0) as [Hw' Hk]; [|done|].
  { apply Hw. left. apply d_get_is_Some. by rewrite Er. }
  split; simpl; [done|by rewrite Et|done|].
  intros k i Hi. exists i. split; [|done]. change (known (park r s st0) k = Some i). rewrite Hk.
  unfold known in *; simpl. rewrite d_get_del. destruct (decide (k = r)) as [->|Hne].
  + by rewrite Er in Hi.
  + by rewrite decide_False.
Qed.

Lemma merge_codes_spec codes s :
  slab_wf s → book_ok codes →
  slab_wf (merge_codes codes s) ∧ identity_le (ident s) (ident (merge_codes codes s)) ∧
  (∀ i, row_at (merge_codes codes s) i = row_at s i).
Proof.
  intros Hs Hb. unfold merge_codes. set (book := haulier_to_code (ident s)).
  destruct (adopt_codes_wf (non_clashing book codes).1 s Hs) as (Hwf & Ha & _ & Hr & Hf).
  { apply merge_codes_book; [apply Hs|done]. }
  split_and!; try done. split; [lia|by rewrite Ha|].
  intros p Hp. destruct (non_clashing_keep book codes) as [Hnd Hkeep].
  unfold adopt_haulier_codes. destruct (non_clashing book codes).1 as [|p0 k0]; [done|]. simpl.
  fold book. change (p ∈ foldl (λ x p, d_set x p.1 p.2) book (p0 :: k0)).
  rewrite d_update_fresh; [apply elem_of_app; by left|done|].
  intros k [v Hv]%elem_d_keys. by apply (Hkeep k v).
Qed.

Lemma merge_slots_codes slots s :
  haulier_to_code (ident (merge_slots slots s)) = haulier_to_code (ident s) ∧
  last_update (merge_slots slots s) = last_update s.
Proof.
  unfold merge_slots. destruct (non_clashing _ slots).1 as [|p k]; [done|].
  split; [|apply (proj1 (adopt_times _ [] _))].
  destruct (foldl _ _ (p :: k)) as [|q m] eqn:E; [done|]. rewrite adopt_slot_map_eq by done.
  simpl. by rewrite (proj1 (ensure_capacity_ident _ _)).
Qed.

Lemma merge_spec codes slots s :
  slab_wf s → book_ok codes → slots_ok slots →
  let s' := merge_slots slots (merge_codes codes s) in
  slab_wf s' ∧ identity_le (ident s) (ident s') ∧ last_update s' = last_update s ∧
  ∀ i, row_at s' i = row_at s i.
Proof.
  intros Hs Hb Hsl s'. destruct (merge_codes_spec codes s Hs Hb) as (H1' & L1 & R1).
  destruct (merge_slots_wf slots _ H1' Hsl) as (H2' & A2 & R2 & F2).
  destruct (merge_slots_codes slots (merge_codes codes s)) as [C2 T2].
  unfold s'. split_and!; [done| | |intros i; by rewrite R2].
  - etrans; [exact L1|]. split; [lia|done|by rewrite C2].
  - rewrite T2. apply (proj2 (adopt_times [] _ s)).
Qed.

Lemma with_counter_wf n s : slab_wf s → slab_wf (with_ident (λ i, with_frames n (frames_emitted i) i) s).
Proof. intros Hs. by apply with_ident_wf; [|apply with_frames_wf, Hs|]. Qed.

Lemma seed_run_identity_spec r codes slots start st :
  store_wf st → seed_ok st → args_ok st r start slots codes →
  ∃ st', seed_run_identity r codes slots start st = (Ok true, st') ∧ store_wf st' ∧ config st' = config st ∧
  is_Some (d_get (runs st') r) ∧
  ∀ R, r ∈ R → within R st → length R ≤ carryover_max st → keeps R st st'.
Proof.
  intros Hst Hseed Hargs. unfold seed_run_identity. rewrite (bind_ok _ _ _ st st) by done.
  destruct (d_get (runs st) r) as [s|] eqn:Er.
  2:{ destruct (create_slab_spec r None start slots codes st Hst Er Hseed Hargs)
  as (st' & s & E & Hwf & Hg & _ & _ & Hc & _ & Hk).
  exists st'. rewrite (bind_ok _ _ _ _ _ E), Hg. by split_and!. }
  assert (slab_wf s) as Hs by (apply (sp_slabs _ (wf_pre _ Hst) r); by apply d_get_Some_elem).
  destruct (merge_spec codes slots s Hs (ao_codes _ _ _ _ _ Hargs) (ao_slots _ _ _ _ _ Hargs)) as (Hs1 & L1 & U1 & _).
  set (s1 := merge_slots slots (merge_codes codes s)) in *.
  assert (∀ s', slab_wf s' → last_update s' = last_update s → identity_le (ident s) (ident s') → ∀ R,
  store_wf (with_runs (d_set (runs st) r s') st) ∧ (within R st → keeps R st (with_runs (d_set (runs st) r s') st)))
  as Hset.
  { intros s' Hs' Hu' Hle' R. apply (set_run_spec R r s s' st Hst Er Hs'); [|done]. rewrite Hu'.
  apply (sp_slabs _ (wf_pre _ Hst) r). by apply d_get_Some_elem. }
  set (st1 := with_runs (d_set (runs st) r s1) st).
  rewrite (bind_ok _ _ _ tt st1) by done. cbv zeta.
  destruct (ao_start _ _ _ _ _ Hargs) as [->|[z Hz]].
  { exists st1. split_and!; [done|apply (Hset s1 Hs1 U1 L1 [])|done| |].
  - simpl. rewrite d_get_set_eq. by eexists.
  - intros R _ Hw _. by apply Hset. }
  set (s2 := with_ident (λ i, with_frames (Z.max (frame_counter i) z) (frames_emitted i) i) s1).
  destruct (Hset s2) with (R := @nil string) as [Hwf2 _].
  { by apply with_counter_wf. } { done. } { destruct L1. split; simpl; [lia|done|done]. }
  assert (with_runs (d_set (runs st1) r s2) st1 = with_runs (d_set (runs st) r s2) st) as Est.
  { unfold st1, with_runs; simpl. by rewrite d_set_set. }
  exists (with_runs (d_set (runs st) r s2) st). rewrite <-Est at 1. split_and!; try done.
  - destruct start; rewrite ?Hz; done.
  - simpl. rewrite d_get_set_eq. by eexists.
  - intros R _ Hw _. apply Hset; try done; [by apply with_counter_wf|]. destruct L1. split; simpl; [lia|done|done].
Qed.

Lemma slot_for_spec r a st :
  store_wf st → seed_ok st →
  ∃ slot st', slot_for r a st = (Ok slot, st') ∧ store_wf st' ∧ config st' = config st ∧
  ∀ R, r ∈ R → within R st → length R ≤ carryover_max st → keeps R st st'.
Proof.
  intros Hst Hseed.
  destruct (ensure_touch_spec r st Hst Hseed) as (st1 & s1 & s1' & E1 & Hwf1 & Hg1 & Hs1 & Hc1 & _ & Hk1).
  destruct (slab_slot_for_spec a s1 Hs1) as (Hs2 & _ & _ & Hold & _ & _ & Hf & Hcodes).
  pose proof (slab_slot_for_times a s1) as Hu.
  destruct (slab_slot_for a s1) as [slot s2] eqn:E2; simpl in *.
  destruct (on_slab_spec r s1 (change (slab_slot_for a)) (Ok slot) s2 st1) as (E & Hwf & Hg & Hk); try done.
  { unfold change. by rewrite E2. }
  { split; [lia|intros []; apply Hold|by rewrite Hcodes]. }
  exists slot, (with_runs (d_set (runs st1) r s2) st1). split_and!; [|done|done|].
  - unfold slot_for. rewrite <-bind_bind, (bind_ok _ _ _ _ _ E1). exact E.
  - intros R HR Hw Hlen. pose proof (Hk1 R HR Hw Hlen) as Hk'. apply (keeps_trans _ _ st1); [done|]. apply Hk, Hk'.
Qed.

Lemma read_spec r st :
  store_wf st →
  store_wf (touch_read r st).2 ∧ config (touch_read r st).2 = config st ∧
  (∀ e, (touch_read r st).1 = Raise e → e = RunNotResident ∧ d_get (runs st) r = None) ∧
  ∀ R, within R st → keeps R st (touch_read r st).2.
Proof.
  intros Hst. rewrite touch_read_eq. destruct (d_get (runs st) r) as [s|] eqn:Er; simpl.
  - destruct (touch_spec r s (λ now s, with_times now (last_update s) s) st Hst Er) as (Hwf & _ & Hk).
  { intros now. split_and!; [|done|by left]. apply with_times_wf, (sp_slabs _ (wf_pre _ Hst) r).
  by apply d_get_Some_elem. }
  by split_and!.
  - split_and!; try done. { by intros e [= <-]. } intros R. apply keeps_refl.
Qed.

Lemma rollback_wf r idx st :
  store_wf st → store_wf (rollback_frame_idx r idx st).2 ∧ config (rollback_frame_idx r idx st).2 = config st.
Proof.
  intros Hst. unfold rollback_frame_idx. rewrite (bind_ok _ _ _ st st) by done.
  destruct (d_get (runs st) r) as [s|] eqn:Er; [|done].
  destruct (py_int idx) as [z|[]]; try done. case_bool_decide; [done|].
  split; [|done]. destruct Hst as [Hst Hb]. cbn [mbind eff_bind set_slab modify snd].
  set (s' := with_ident (λ i, with_frames z (Z.max (frames_emitted i - 1) 0) i) s).
  change (store_wf (with_runs (d_set (runs st) r s') st)).
  assert (∀ k, k ∈ d_keys (d_set (runs st) r s') ↔ k ∈ d_keys (runs st)) as Hk.
  { intros k. rewrite elem_d_keys_set. split; [|by right]. intros [->|?]; [|done].
  apply d_get_is_Some. by rewrite Er. }
  assert (NoDup (d_keys (d_set (runs st) r s'))) as Hnd by apply NoDup_d_set, Hst.
  pose proof (d_get_Some_elem _ _ _ Er) as Hin. destruct (sp_slabs _ Hst r s Hin) as [Hs Hu]. split.
  - split; simpl; try apply Hst; try done.
  + intros k s0 [Hin0|[= -> ->]]%elem_d_set; [by apply (sp_slabs _ Hst k)|].
  split; [|done]. by apply with_ident_wf; [|apply with_frames_wf, Hs|].
  + intros k Hk0%Hk. by apply (sp_disjoint _ Hst).
  - simpl. rewrite <-length_d_keys. etrans; [|exact Hb]. rewrite <-(length_d_keys (runs st)).
  apply submseteq_length, NoDup_submseteq; [done|]. intros k. by rewrite Hk.
Qed.
End StoreLemmas.

(** ** The tier's interface as operations, and their traces *)

Inductive op :=
| EnsureRun (r : string) (capacity : option Z) (start : pyval) (slots : list (string * nat)) (codes : list (string * Z))
| SlotFor (r agent : string)
| UpdatePosition (r agent : string) (lng lat : Z) (st : pyval) (haulier : option string) (t : Z)
| Snapshot (r : string) (kind : Z)
| Evict (r : string)
| HaulierCodes (r : string)
| SlotMap (r : string)
| NextFrameIdx (r : string)
| SeedRunIdentity (r : string) (codes : list (string * Z)) (slots : list (string * nat)) (start : pyval)
| RollbackFrameIdx (r : string) (idx : pyval).

Definition op_run (o : op) : string :=
  match o with
  | EnsureRun r _ _ _ _ | SlotFor r _ | UpdatePosition r _ _ _ _ _ _ | Snapshot r _ | Evict r
  | HaulierCodes r | SlotMap r | NextFrameIdx r | SeedRunIdentity r _ _ _ | RollbackFrameIdx r _ => r
  end.

Definition is_rollback (o : op) : bool := match o with RollbackFrameIdx _ _ => true | _ => false end.

Section Operations.
Context `{PyText, HotEnv}.

(** Only [snapshot]'s answer is kept. *)
Definition exec (o : op) : eff store (option frame) :=
  match o with
  | EnsureRun r capacity start slots codes => ensure_run r capacity start slots codes;; mret None
  | SlotFor r a => slot_for r a;; mret None
  | UpdatePosition r a lng lat st h t => update_position r a lng lat st h t;; mret None
  | Snapshot r kind => f ← snapshot r kind; mret (Some f)
  | Evict r => evict r;; mret None
  | HaulierCodes r => haulier_codes r;; mret None
  | SlotMap r => slot_map r;; mret None
  | NextFrameIdx r => next_frame_idx r;; mret None
  | SeedRunIdentity r codes slots start => seed_run_identity r codes slots start;; mret None
  | RollbackFrameIdx r idx => rollback_frame_idx r idx;; mret None
  end.

Definition op_ok (st : store) (o : op) : Prop :=
  match o with
  | EnsureRun r _ start slots codes | SeedRunIdentity r codes slots start => args_ok st r start slots codes
  | _ => True
  end.

(** The run and index of the frame an operation emitted. *)
Definition emitted (o : op) (res : result (option frame)) : list (string * Z) :=
  match res with Ok (Some f) => [(op_run o, frame_idx f)] | _ => [] end.

(** The frames of a history, in order; an operation that raises leaves its store. *)
Fixpoint history (ops : list op) (st : store) : list (string * Z) * store :=
  match ops with
  | [] => ([], st)
  | o :: ops =>
      let '(res, st1) := exec o st in
      let '(frames, st') := history ops st1 in
      (emitted o res ++ frames, st')
  end.

Fixpoint history_ok (ops : list op) (st : store) : Prop :=
  match ops with
  | [] => True
  | o :: ops => op_ok st o ∧ history_ok ops (exec o st).2
  end.
End Operations.

Section OperationLemmas.
Context `{PyText, HotEnv, !HotEnvLaws}.

Lemma seed_ok_config st st' : config st' = config st → seed_ok st → seed_ok st'.
Proof. intros [= _ _ _ E] Hs fn r v Hf. apply (Hs fn). congruence. Qed.

Lemma read_case {A} r (f : slab → A) st :
  store_wf st →
  let '(res, st') := ((x ← (s ← touch_read r; mret (f s)); mret None) : eff store (option frame)) st in
  store_wf st' ∧ config st' = config st ∧
  (∀ e, res = Raise e → false = false → e = RunNotResident ∧ d_get (runs st) r = None) ∧
  (false = false → ∀ R, r ∈ R → within R st → length R ≤ carryover_max st → keeps R st st').
Proof.
  intros Hst. destruct (read_spec r st Hst) as (Hwf & Hc & He & Hk). unfold mbind, eff_bind.
  destruct (touch_read r st) as [[s|e] st']; simpl in *; split_and!; try done; auto.
  intros e' [= <-] _. by apply He.
Qed.

(** Every operation: it raises only when it reads a run that is not resident (or
is handed an index that is no number), keeps the invariant, and changes nothing
that was handed out. *)
Lemma exec_spec o st :
  store_wf st → seed_ok st → op_ok st o →
  let '(res, st') := exec o st in
  store_wf st' ∧ config st' = config st ∧
  (∀ e, res = Raise e → is_rollback o = false → e = RunNotResident ∧ d_get (runs st) (op_run o) = None) ∧
  (is_rollback o = false → ∀ R, op_run o ∈ R → within R st → length R ≤ carryover_max st → keeps R st st').
Proof.
  intros Hst Hseed Hok. destruct o as [r cap start slots codes|r a|r a x y sv h t|r kind|r|r|r|r|r codes slots start|r idx];
  cbn [exec op_run is_rollback].
  - destruct (ensure_run_spec r cap start slots codes st Hst Hseed) as (st' & s & E & Hwf & _ & _ & Hc & _ & Hk); [done|].
  rewrite (bind_ok _ _ _ _ _ E). by split_and!.
  - destruct (slot_for_spec r a st Hst Hseed) as (slot & st' & E & Hwf & Hc & Hk).
  rewrite (bind_ok _ _ _ _ _ E). by split_and!.
  - destruct (update_position_spec r a x y sv h t st Hst Hseed) as (slot & code & st' & s & E & Hwf & _ & _ & _ & _ & _ & Hc & Hk).
  rewrite (bind_ok _ _ _ _ _ E). by split_and!.
  - destruct (d_get (runs st) r) as [s|] eqn:Er.
  + destruct (snapshot_spec r kind s st Hst Er) as (f & st' & s' & E & Hwf & _ & _ & _ & _ & _ & _ & _ & _ & Hc & Hk).
  rewrite (bind_ok _ _ _ _ _ E). split_and!; try done. intros _ R _ Hw _. by apply Hk.
  + assert (snapshot r kind st = (Raise RunNotResident, st)) as E.
  { unfold snapshot, mbind at 1, eff_bind. by rewrite touch_read_eq, Er. }
  unfold mbind, eff_bind. rewrite E. split_and!; try done; [by intros e [= <-]|].
  intros _ R _ Hw _. by apply keeps_refl.
  - destruct (evict_spec r st Hst) as [Hwf Hk]. 
  assert (config (evict r st).2 = config st) as Hc.
  { unfold evict. destruct (d_get (runs st) r); [|done]. exact (proj1 (config_park r _ (with_runs _ st))). }
  assert (∃ b, (evict r st).1 = Ok b) as [b Hb] by (unfold evict; destruct (d_get (runs st) r); eauto).
  destruct (evict r st) as [res st'] eqn:E; simpl in *. subst res. rewrite (bind_ok _ _ _ _ _ E).
  split_and!; try done. intros _ R _ Hw Hlen. by apply Hk.
  - by apply (read_case r (λ s, haulier_to_code (ident s))).
  - by apply (read_case r (λ s, agent_to_slot (ident s))).
  - unfold next_frame_idx. destruct (d_get (runs st) r) as [s|] eqn:Er.
  + unfold mbind, eff_bind. rewrite (get_slab_ok r s st Er). split_and!; try done. intros _ R _ Hw _. by apply keeps_refl.
  + unfold mbind, eff_bind. rewrite (get_slab_none r st Er). split_and!; try done; [by intros e [= <-]|].
  intros _ R _ Hw _. by apply keeps_refl.
  - destruct (seed_run_identity_spec r codes slots start st Hst Hseed Hok) as (st' & E & Hwf & Hc & _ & Hk).
  rewrite (bind_ok _ _ _ _ _ E). by split_and!.
  - destruct (rollback_wf r idx st Hst) as [Hwf Hc]. unfold mbind, eff_bind.
  destruct (rollback_frame_idx r idx st) as [[b|e] st'] eqn:E; simpl in *; by split_and!.
Qed.

Lemma new_store_wf max_runs capacity carryover_runs seed :
  store_wf (new_store max_runs capacity carryover_runs seed).
Proof.
  split; [split|]; simpl; try lia; try apply NoDup_nil_2; by intros ? ? ?%elem_of_nil.
Qed.

Lemma history_wf ops st :
  store_wf st → seed_ok st → history_ok ops st → store_wf (history ops st).2 ∧ config (history ops st).2 = config st.
Proof.
  revert st. induction ops as [|o ops IH]; intros st Hst Hseed Hok; [done|]. destruct Hok as [Ho Hok]. simpl.
  pose proof (exec_spec o st Hst Hseed Ho) as Hspec. destruct (exec o st) as [res st1]; simpl in Hok.
  destruct Hspec as (Hwf & Hc & _ & _). destruct (IH st1 Hwf) as [Hwf' Hc']; [by apply (seed_ok_config st)|done|].
  destruct (history ops st1) as [frames st']; simpl in *. split; [done|congruence].
Qed.

Lemma history_cons o ops st :
  history (o :: ops) st =
  (emitted o (exec o st).1 ++ (history ops (exec o st).2).1, (history ops (exec o st).2).2).
Proof. simpl. destruct (exec o st) as [res st1]; simpl. by destruct (history ops st1). Qed.

(** A history without rollbacks over runs the tier has room to remember. *)
Lemma history_keeps R ops st :
  store_wf st → seed_ok st → history_ok ops st → within R st → length R ≤ carryover_max st →
  Forall (λ o, is_rollback o = false ∧ op_run o ∈ R) ops →
  keeps R st (history ops st).2.
Proof.
  revert st. induction ops as [|o ops IH]; intros st Hst Hseed Hok Hw Hlen Hops; [by apply keeps_refl|].
  apply Forall_cons in Hops as [[Hroll HR] Hops]. destruct Hok as [Ho Hok]. rewrite history_cons.
  pose proof (exec_spec o st Hst Hseed Ho) as Hspec. destruct (exec o st) as [res st1]; simpl in *.
  destruct Hspec as (Hwf & Hc & _ & Hk). specialize (Hk Hroll R HR Hw Hlen).
  apply (keeps_trans _ _ st1); [done|]. apply IH; try done; [by apply (seed_ok_config st)|apply Hk|].
  assert (carryover_max st1 = carryover_max st) by (by injection Hc). lia.
Qed.

Lemma emitted_none {A} o (m : eff store A) st : emitted o ((m;; mret None) st).1 = [].
Proof. unfold mbind, eff_bind. by destruct (m st) as [[] ?]. Qed.

Lemma history_app ops ops' st : (history (ops ++ ops') st).2 = (history ops' (history ops st).2).2.
Proof.
  revert st. induction ops as [|o ops IH]; intros st; [done|].
  cbn [app]. rewrite !history_cons. cbn [snd]. apply IH.
Qed.

Lemma history_ok_app ops ops' st :
  history_ok (ops ++ ops') st → history_ok ops st ∧ history_ok ops' (history ops st).2.
Proof.
  revert st. induction ops as [|o ops IH]; intros st; [done|].
  cbn [app]. intros [Ho Hok]. rewrite history_cons. cbn [snd]. apply IH in Hok as [? ?]. done.
Qed.

(** A snapshot emits the counter of its run and moves it on. *)
Lemma emitted_counter o st r k :
  store_wf st → (r, k) ∈ emitted o (exec o st).1 →
  ∃ i i', known st r = Some i ∧ known (exec o st).2 r = Some i' ∧ k = frame_counter i ∧
  frame_counter i' = (k + 1)%Z ∧ emitted o (exec o st).1 = [(r, k)].
Proof.
  intros Hst Hin. destruct o as [r0 cap start slots codes|r0 a|r0 a x y sv h t|r0 kind|r0|r0|r0|r0|r0 codes slots start|r0 idx];
  cbn [exec] in *.
  4:{ destruct (d_get (runs st) r0) as [s|] eqn:Er.
  - destruct (snapshot_spec r0 kind s st Hst Er) as (f & st' & s' & E & _ & Hg & Hidx & _ & _ & Hcnt & _).
  rewrite (bind_ok _ _ _ _ _ E) in *. simpl in *. apply list_elem_of_singleton in Hin as [= -> ->].
  exists (ident s), (ident s'). unfold known. rewrite Er, Hg. split_and!; congruence.
  - unfold snapshot, mbind, eff_bind in Hin. rewrite touch_read_eq, Er in Hin. simpl in Hin.
  by apply elem_of_nil in Hin. }
  all: rewrite emitted_none in Hin; by apply elem_of_nil in Hin.
Qed.

(** The indices emitted for one run. *)
Definition indices_of (r : string) (frames : list (string * Z)) : list Z :=
  map snd (filter (λ p, p.1 = r) frames).

Lemma history_indices R ops st r :
  store_wf st → seed_ok st → history_ok ops st → within R st → length R ≤ carryover_max st →
  Forall (λ o, is_rollback o = false ∧ op_run o ∈ R) ops →
  StronglySorted Z.lt (indices_of r (history ops st).1) ∧
  ∀ i, known st r = Some i → Forall (λ k, (frame_counter i <= k)%Z) (indices_of r (history ops st).1).
Proof.
  revert st. induction ops as [|o ops IH]; intros st Hst Hseed Hok Hw Hlen Hops.
  { split; [constructor|]. intros i _. constructor. }
  apply Forall_cons in Hops as [[Hroll HR] Hops]. destruct Hok as [Ho Hok]. rewrite history_cons.
  pose proof (emitted_counter o st r) as Hem.
  pose proof (exec_spec o st Hst Hseed Ho) as Hspec. destruct (exec o st) as [res st1] eqn:Ee.
  destruct Hspec as (Hwf & Hc & _ & Hk). specialize (Hk Hroll R HR Hw Hlen). simpl in Hok, Hem |- *.
  assert (carryover_max st1 = carryover_max st) as Ecm by (by injection Hc).
  destruct (IH st1) as [Hs Hge]; try done; [by apply (seed_ok_config st)|apply Hk|lia|].
  unfold indices_of in *. rewrite filter_app, map_app.
  destruct (filter (λ p, p.1 = r) (emitted o res)) as [|[r' k] rest] eqn:Ef; simpl.
  - split; [done|]. intros i Hi. destruct (kp_known _ _ _ Hk r i Hi) as (i' & Hi' & Hle).
  apply (Forall_impl _ _ _ (Hge i' Hi')). destruct Hle. lia.
  - assert ((r', k) ∈ filter (λ p, p.1 = r) (emitted o res)) as Hin by (rewrite Ef; by left).
  apply list_elem_of_filter in Hin as [Hr' Hin]. simpl in Hr'. subst r'.
  destruct (Hem k Hst Hin) as (i & i' & Hi & Hi' & -> & Hcnt & Hone).
  rewrite Hone, filter_cons_True in Ef by done. injection Ef as <-. simpl.
  specialize (Hge i' Hi'). split.
  + constructor; [done|]. apply (Forall_impl _ _ _ Hge). lia.
  + intros j Hj. rewrite Hi in Hj. injection Hj as ->. constructor; [lia|].
  apply (Forall_impl _ _ _ Hge). lia.
Qed.
End OperationLemmas.

(** ** Properties *)

Section HotProperties.
Context `{PyText, HotEnv, !HotEnvLaws}.



(** Once handed out, an agent's slot and a haulier's code keep their meaning
through every later operation, eviction included, and the frame counter of the
run does not go back. *)
Theorem identities_stable limit capacity room seed ops ops' R r i :
  let st0 := new_store limit capacity room seed in
  seed_ok st0 → history_ok (ops ++ ops') st0 → (Z.of_nat (length R) <= room)%Z →
  Forall (λ o, is_rollback o = false ∧ op_run o ∈ R) (ops ++ ops') →
  known (history ops st0).2 r = Some i →
  ∃ i', known (history (ops ++ ops') st0).2 r = Some i' ∧ identity_le i i'.
Proof.
  intros st0 Hseed [Hok Hok']%history_ok_app Hlen [Hops Hops']%Forall_app Hi.
  destruct (history_wf ops st0 (new_store_wf _ _ _ _) Hseed Hok) as [Hwf Hc].
  assert (keeps R st0 (history ops st0).2) as Hk.
  { apply history_keeps; try done; [apply new_store_wf| |simpl; lia].
  intros k [Hk|Hk]; by apply elem_of_nil in Hk. }
  assert (carryover_max (history ops st0).2 = Z.to_nat (Z.max room 0)) as Ecm by (by injection Hc).
  rewrite history_app. apply (history_keeps R ops' (history ops st0).2 Hwf); try done.
  - by apply (seed_ok_config st0).
  - apply Hk.
  - lia.
Qed.

(** A position written is what the next frame of its run reports: the frame
lists, in slot order, every position held, the new one at its agent's slot and
the others as they were; it carries the run's next frame index. *)
Theorem frame_reports_positions r a lng lat sv h t kind st :
  store_wf st → seed_ok st →
  ∃ slot code st1 f st2 n, update_position r a lng lat sv h t st = (Ok slot, st1) ∧
  snapshot r kind st1 = (Ok f, st2) ∧ slot < n ∧ sim_time_ms f = t ∧
  reported f = omap (λ i,
  x ← (if decide (i = slot) then Some ((lng, lat), (state_code sv, code)) else held st r i);
  Some (uint32 i, x)) (seq 0 n) ∧
  (next_frame_idx r st1).1 = Ok (frame_idx f) ∧ (next_frame_idx r st2).1 = Ok (frame_idx f + 1)%Z.
Proof.
  intros Hst Hseed.
  destruct (update_position_spec r a lng lat sv h t st Hst Hseed)
  as (slot & code & st1 & s & E & Hwf & Hg & Ha & Ht & Hrow & _).
  destruct (snapshot_spec r kind s st1 Hwf Hg) as (f & st2 & s2 & E2 & _ & Hg2 & Hidx & Htime & Hrep & Hcnt & _).
  exists slot, code, st1, f, st2, (n_active s). split_and!; try done.
  - apply (slot_bound s a); [|done]. apply (sp_slabs _ (wf_pre _ Hwf) r). by apply d_get_Some_elem.
  - congruence.
  - rewrite Hrep. apply list_omap_ext. apply Forall2_same_length_lookup_2; [done|].
  intros i x y Hx Hy. assert (x = y) as -> by congruence. by rewrite Hrow.
  - unfold next_frame_idx. rewrite (bind_ok _ _ _ s st1) by (by apply get_slab_ok). simpl. by rewrite Hidx.
  - unfold next_frame_idx. rewrite (bind_ok _ _ _ s2 st2) by (by apply get_slab_ok). simpl. by rewrite Hcnt, Hidx.
Qed.
End HotProperties.

(** ** A small tier: one resident run at a time *)

Module HotExample.
#[local] Instance text : PyText := no_text.

#[local] Instance env : HotEnv := {| as_uint8 := λ z, (z mod 256)%Z; clock := Z.of_nat |}.

#[local] Instance env_laws : HotEnvLaws.
Proof.
  split.
  - intros z Hz. simpl. rewrite Z.mod_small; lia.
  - intros n m Hle. simpl. lia.
Qed.

Definition tier : store := new_store 1 4 8 None.

(** Run r1 reports and is snapshot twice; r2 evicts it; it comes back. *)
Definition calls : list op :=
  [UpdatePosition "r1" "t1" 1 2 (PStr "idle") (Some "h1") 5; Snapshot "r1" KIND_KEYFRAME;
   Snapshot "r1" KIND_KEYFRAME; UpdatePosition "r2" "t9" 3 4 PNone None 6; Snapshot "r2" KIND_KEYFRAME]%Z.

Definition more_calls : list op :=
  [UpdatePosition "r1" "t2" 7 8 (PStr "assigned") (Some "h2") 9; Snapshot "r1" KIND_KEYFRAME]%Z.

Lemma tier_seed_ok : seed_ok tier.
Proof. by intros fn r v [=]. Qed.

Lemma calls_ok : history_ok (calls ++ more_calls) tier.
Proof. by vm_compute. Qed.

Lemma calls_shape :
  Forall (λ o, is_rollback o = false ∧ op_run o ∈ ["r1"; "r2"]) (calls ++ more_calls).
Proof. repeat constructor; set_solver. Qed.



Definition remembered : identity :=
  match known (history calls tier).2 "r1" with Some i => i | None => new_identity end.

Lemma identities_stable_witness :
  agent_to_slot remembered = [("t1", 0)] ∧
  ∃ i', known (history (calls ++ more_calls) tier).2 "r1" = Some i' ∧ identity_le remembered i'.
Proof.
  split; [by vm_compute|].
  apply (identities_stable 1 4 8 None calls more_calls ["r1"; "r2"] "r1" remembered tier_seed_ok calls_ok);
  [done|apply calls_shape|]. vm_compute. reflexivity.
Defined.

Lemma frame_reports_positions_witness :
  store_wf tier ∧
  ∃ slot code st1 f st2 n, update_position "r1" "t1" 1 2 (PStr "idle") (Some "h1") 5 tier = (Ok slot, st1) ∧
  snapshot "r1" KIND_KEYFRAME st1 = (Ok f, st2) ∧ slot < n ∧ sim_time_ms f = 5%Z ∧
  reported f = omap (λ i,
  x ← (if decide (i = slot) then Some ((1, 2)%Z, (state_code (PStr "idle"), code)) else held tier "r1" i);
  Some (uint32 i, x)) (seq 0 n) ∧
  (next_frame_idx "r1" st1).1 = Ok (frame_idx f) ∧ (next_frame_idx "r1" st2).1 = Ok (frame_idx f + 1)%Z.
Proof.
  split; [apply new_store_wf|].
  exact (frame_reports_positions "r1" "t1" 1 2 (PStr "idle") (Some "h1") 5 KIND_KEYFRAME tier
  (new_store_wf 1 4 8 None) tier_seed_ok).
Defined.

(** Seeding an evicted run with a start that is no number raises after its parked
identity was taken out of the table: the run is forgotten, and its next frame
gets index 0 again.  (A resident run only logs the bad start.) *)
Example bad_start_forgets_run :
  let st := (history calls tier).2 in
  let '(res, st') := seed_run_identity "r1" [] [] (PStr "x") st in
  res = Raise ValueError ∧ is_Some (known st "r1") ∧ known st' "r1" = None ∧
  (history calls tier).1 = [("r1", 0); ("r1", 1); ("r2", 0)]%Z ∧
  (history more_calls st').1 = [("r1", 0)]%Z.
Proof. vm_compute. split_and!; try done. by eexists. Qed.

(** A frame whose write failed gives its index back, once. *)
Example rollback_once :
  let st := (history calls tier).2 in
  let '(res, st') := rollback_frame_idx "r2" (PInt 0) st in
  res = Ok true ∧ (next_frame_idx "r2" st').1 = Ok 0%Z ∧
  (rollback_frame_idx "r2" (PInt 0) st').1 = Ok false.
Proof. by vm_compute. Qed.

(** A seed that answers with an infinity makes the lookup raise. *)
Example seed_may_raise :
  (seeded_frame_idx "r1" (new_store 1 4 8 (Some (λ _, Ok (PFloat f_inf))))).1 = Raise OverflowError.
Proof. reflexivity. Qed.
End HotExample.
