(* ===== verification/Scheduler.v ===== *)
(** The step scheduler ([src/apps/simulation/openride_scheduler.py]).

    [OpenRideScheduler] advances a run one step at a time: it broadcasts the step,
    waits until every expected agent has replied (the barrier), prunes the agents
    that stayed silent, and goes on.  Replies are handled on another thread
    ([handle_reply]), while the event loop waits ([confirm_responses]) or prunes
    ([reap]); the model takes the replies that arrive at each of these points as
    an argument, so its theorems hold for every interleaving of handlers.

    [handle_reply] is atomic (each container operation of the source is, under
    the interpreter's lock, and replies are handled by one thread); the wake-up of
    the event loop has no definition: the loop polls on its own cadence as well.
    The class [ORSimScheduler] it extends is a third-party package: its
    [remove_agent] is a parameter, with what the source relies on as a law. *)

From Stdlib Require Import Ascii.
From stdpp Require Import gmap.
From S2P Require Import Prelude PyValue.

(** ** Data *)

(** When a nap ends: at a step, or never by itself ([float('inf')]). *)
Inductive wake : Set := WakeAt (step : Z) | Indefinite.

(** [wake <= time] *)
Definition wake_leb (w : wake) (time : Z) : bool :=
  match w with WakeAt step => (step <=? time)%Z | Indefinite => false end.

(** An item of [step_response]. *)
Record response : Set := Response {
  reaction : option string;
  resp_did_step : pyval;
  resp_run_time : pyval;
}.

(** An item of [agent_collection]. *)
Record entry : Set := Entry {
  spec : pydict;
  pending_boot : bool;
  step_response : list (Z * response);
}.

(** The payload of a reply, read with [payload.get]: [None] for what is missing. *)
Record reply : Set := Reply {
  agent_id : string;
  time_step : pyval;
  action : option string;
  did_step : pyval;
  run_time : pyval;
  sleep_steps : pyval;
  wake_topic : pyval;
}.

(** An item of [agent_stat]. *)
Record stat : Set := Stat {
  completed : Z; ready : Z; errors : Z; shutdowns : Z;
  waiting : Z; booting : Z; sleeping : Z; stepping_agents : Z; total_agents : Z;
}.

(** What the scheduler sends: Celery launches, direct notices, broadcasts. *)
Inductive sent : Set :=
| StartAgent (project_path module_name agent_class_name : string) (kwargs : pydict)
| Notice (topic : pyval) (step : Z)
| Broadcast (shutdown : bool) (step : Z).

(** The keys of [orsim_settings] the scheduler reads ([None]: not set). *)
Record settings : Set := Settings {
  STEP_TIMEOUT_TOLERANCE : option float64;
  STEP_SETTLE_SECONDS : option float64;
  STEP_TIMEOUT_ABORT_CONSECUTIVE : option pyval;
  ALLOW_POST_HORIZON_DRAIN : bool;
  SIMULATION_LENGTH_IN_STEPS : option Z;
}.

(** The per-step state, replaced as a whole when a step begins. *)
Record barrier : Set := Barrier {
  expected_this_step : gset string;
  responded_this_step : gset string;
  outstanding : Z;
  reaction_counts : gmap (option string) Z;
  did_step_count : Z;
  shutdown_replied : gset string;
  error_replied : gset string;
  booting_count_this_step : Z;
  sleeping_count_this_step : Z;
}.

(** The sleep ledger; the topics in insertion order, as notices are sent. *)
Record ledger : Set := Ledger {
  sleeping_until : gmap string wake;
  sleep_wake_topics : list (string * pyval);
}.

Record sched : Set := Sched {
  time : Z;
  agent_collection : gmap string entry;
  agent_stat : gmap Z stat;
  consecutive_step_timeouts : Z;
  bar : barrier;
  naps : ledger;
  pruned_stash : list (string * entry);
  outbox : list sent;
}.

Definition PRUNED_STASH_MAX : nat := 4096.

Definition with_agents (f : gmap string entry → gmap string entry) (s : sched) : sched :=
  Sched (time s) (f (agent_collection s)) (agent_stat s) (consecutive_step_timeouts s) (bar s)
    (naps s) (pruned_stash s) (outbox s).
Definition with_stat (f : gmap Z stat → gmap Z stat) (s : sched) : sched :=
  Sched (time s) (agent_collection s) (f (agent_stat s)) (consecutive_step_timeouts s) (bar s)
    (naps s) (pruned_stash s) (outbox s).
Definition with_timeouts (n : Z) (s : sched) : sched :=
  Sched (time s) (agent_collection s) (agent_stat s) n (bar s) (naps s) (pruned_stash s) (outbox s).
Definition with_bar (b : barrier) (s : sched) : sched :=
  Sched (time s) (agent_collection s) (agent_stat s) (consecutive_step_timeouts s) b
    (naps s) (pruned_stash s) (outbox s).
Definition with_naps (n : ledger) (s : sched) : sched :=
  Sched (time s) (agent_collection s) (agent_stat s) (consecutive_step_timeouts s) (bar s)
    n (pruned_stash s) (outbox s).
Definition with_stash (d : list (string * entry)) (s : sched) : sched :=
  Sched (time s) (agent_collection s) (agent_stat s) (consecutive_step_timeouts s) (bar s)
    (naps s) d (outbox s).
Definition send (m : list sent) (s : sched) : sched :=
  Sched (time s) (agent_collection s) (agent_stat s) (consecutive_step_timeouts s) (bar s)
    (naps s) (pruned_stash s) (outbox s ++ m).
Definition tick (s : sched) : sched :=
  Sched (time s + 1) (agent_collection s) (agent_stat s) (consecutive_step_timeouts s) (bar s)
    (naps s) (pruned_stash s) (outbox s).

Definition new_barrier : barrier := Barrier ∅ ∅ 0 ∅ 0 ∅ ∅ 0 0.

(** [__init__]; the base class starts with no agents, at step [t]. *)
Definition new_sched (t : Z) : sched := Sched t ∅ ∅ 0 new_barrier (Ledger ∅ []) [] [].

Definition sleeping_agent_count (s : sched) : Z := Z.of_nat (size (sleeping_until (naps s))).

(** ** Parameters *)

(** The base class's [remove_agent], on the collection. *)
Class OrsimScheduler := super_remove_agent : string → gmap string entry → gmap string entry.

Class OrsimSchedulerLaws `{OrsimScheduler} : Prop :=
  super_remove_agent_spec a m : super_remove_agent a m = delete a m.

(** The order in which a set of agents is iterated: any. *)
Class SetOrder := iter_set : gset string → list string.

Class SetOrderLaws `{SetOrder} : Prop := iter_set_perm X : iter_set X ≡ₚ elements X.

(** ** Registering and removing agents *)

(** [agent_class.split('.')]: the last piece and the pieces before it. *)
Fixpoint split_dots (s : string) : list string :=
  match s with
  | EmptyString => [""]
  | String c s =>
      if Ascii.eqb c "."%char then "" :: split_dots s
      else match split_dots s with
           | p :: ps => String c p :: ps
           | [] => [String c EmptyString]
           end
  end.

(** [add_agent]; the scheduler's id and settings are the [scheduler] keyword. *)
Definition add_agent (unique_id : string) (scheduler_kwarg : pyval) (sp : pydict)
    (project_path agent_class : string) (s : sched) : sched :=
  let s := with_agents (insert unique_id {|
    spec := sp; pending_boot := true;
    step_response := [(time s, Response (Some "waiting") (PBool false) (PInt 0))] |}) s in
  let module_comp := split_dots agent_class in
  send [StartAgent project_path (String.concat "." (removelast module_comp))
    (List.last module_comp "") (d_set sp "scheduler" scheduler_kwarg)] s.

Section Scheduler.
Context `{PyText} `{OrsimScheduler} `{SetOrder}.

Definition remove_agent (unique_id : string) (s : sched) : sched :=
  let s := with_agents (super_remove_agent unique_id) s in
  with_naps (Ledger (delete unique_id (sleeping_until (naps s)))
  (d_del (sleep_wake_topics (naps s)) unique_id)) s.

(** ** Handling a reply *)

(** The step a reply is for: [-1] stands for the current one. *)
Definition response_time_step (r : reply) (s : sched) : pyval :=
  if py_eq (time_step r) (PInt (-1)) then PInt (time s) else time_step r.

(** The largest key of a non-empty dictionary. *)
Definition max_key {V} (k : Z) (d : list (Z * V)) : Z := foldl Z.max k (map fst d).

(** At most the latest item is kept before a new one is added. *)
Definition cap_history (sr : list (Z * response)) : list (Z * response) :=
  match sr with
  | p :: q :: d =>
      let latest := max_key p.1 (q :: d) in
      match d_get sr latest with Some x => [(latest, x)] | None => [] end
  | _ => sr
  end.

(** The entry a reply is about: a registered one, or a pruned one that proves
to be alive, which is registered again. *)
Definition find_entry (r : reply) (s : sched) : option entry * sched :=
  match agent_collection s !! agent_id r with
  | Some e => (Some e, s)
  | None =>
      if bool_decide (action r = Some "completed") || bool_decide (action r = Some "ready") then
        match d_get (pruned_stash s) (agent_id r) with
        | Some e => (Some e, with_agents (insert (agent_id r) e)
                       (with_stash (d_del (pruned_stash s) (agent_id r)) s))
        | None => (None, s)
        end
      else (None, s)
  end.

Definition note_response (r : reply) (rts : pyval) (e : entry) : entry :=
  {| spec := spec e; pending_boot := false;
   step_response :=
   match as_int rts with
   | Some t => d_set (cap_history (step_response e)) t
                 (Response (action r) (did_step r) (run_time r))
   | None => step_response e
   end |}.

Definition record_response (r : reply) (rts : pyval) (s : sched) : sched :=
  let '(e, s) := find_entry r s in
  match e with
  | Some e => with_agents (insert (agent_id r) (note_response r rts e)) s
  | None => s
  end.

(** The sleep protocol's bookkeeping; [int(sleep_steps)] may raise. *)
Definition note_sleep (r : reply) (rts : pyval) (s : sched) : result ledger :=
  let n := naps s in
  if truth (sleep_steps r) then
  k ← py_int (sleep_steps r);
  let base := default (time s) (as_int rts) in
  if (k <? 0)%Z then
  Ok (Ledger (<[agent_id r := Indefinite]> (sleeping_until n))
       (if truth (wake_topic r) then d_set (sleep_wake_topics n) (agent_id r) (wake_topic r)
        else sleep_wake_topics n))
  else Ok (Ledger (<[agent_id r := WakeAt (base + k)]> (sleeping_until n)) (sleep_wake_topics n))
  else if bool_decide (is_Some (sleeping_until n !! agent_id r)) then
  Ok (Ledger (delete (agent_id r) (sleeping_until n)) (d_del (sleep_wake_topics n) (agent_id r)))
  else Ok n.

(** Count a reply of the current step. *)
Definition tally (r : reply) (b : barrier) : barrier :=
  let a := agent_id r in
  let counted := bool_decide (a ∈ expected_this_step b) && bool_decide (a ∉ responded_this_step b) in
  {| expected_this_step := expected_this_step b;
   responded_this_step :=
   if counted then {[a]} ∪ responded_this_step b else responded_this_step b;
   outstanding := if counted then (outstanding b - 1)%Z else outstanding b;
   reaction_counts :=
   if counted
   then <[action r := (default 0 (reaction_counts b !! action r) + 1)%Z]> (reaction_counts b)
   else reaction_counts b;
   did_step_count :=
   if counted && truth (did_step r) then (did_step_count b + 1)%Z else did_step_count b;
   shutdown_replied :=
   if bool_decide (action r = Some "shutdown") then {[a]} ∪ shutdown_replied b
   else shutdown_replied b;
   error_replied :=
   if bool_decide (action r = Some "error") then {[a]} ∪ error_replied b else error_replied b;
   booting_count_this_step := booting_count_this_step b;
   sleeping_count_this_step := sleeping_count_this_step b |}.

(** [_handle_reply] *)
Definition handle_reply (r : reply) : eff sched unit := λ s,
  let rts := response_time_step r s in
  let s := record_response r rts s in
  match note_sleep r rts s with
  | Raise e => (Raise e, s)
  | Ok n =>
      let s := with_naps n s in
      (Ok tt, if py_eq rts (PInt (time s)) then with_bar (tally r (bar s)) s else s)
  end.

(** [on_receive_message]; [parsed] is what the JSON parser makes of the payload. *)
Definition on_receive_message (reply_topic topic : string) (parsed : option reply) : eff sched unit := λ s,
  if decide (topic = reply_topic) then
  match parsed with Some r => handle_reply r s | None => (Ok tt, s) end
  else (Ok tt, s).

(** The state after a reply, whether its handler raised or not. *)
Definition deliver (s : sched) (r : reply) : sched := (handle_reply r s).2.

(** ** The barrier *)

(** The nap of [a] is over. *)
Definition expired (s : sched) (a : string) : bool :=
  match sleeping_until (naps s) !! a with Some w => wake_leb w (time s) | None => false end.

(** [_begin_step_barrier] *)
Definition begin_step_barrier (s : sched) : sched :=
  let n := Ledger (filter (λ p, expired s p.1 = false) (sleeping_until (naps s)))
  (filter (λ p, expired s p.1 = false) (sleep_wake_topics (naps s))) in
  let sleeping_now := dom (sleeping_until n) in
  let expected := dom (filter (λ p, pending_boot p.2 = false ∧ p.1 ∉ sleeping_now) (agent_collection s)) in
  with_bar {|
  expected_this_step := expected;
  responded_this_step := ∅;
  outstanding := Z.of_nat (size expected);
  reaction_counts := ∅;
  did_step_count := 0;
  shutdown_replied := ∅;
  error_replied := ∅;
  booting_count_this_step :=
  Z.of_nat (size (filter (λ p, pending_boot p.2 = true) (agent_collection s)));
  sleeping_count_this_step := Z.of_nat (size sleeping_now) |} (with_naps n s).

(** What [_update_agent_stat] returns. *)
Definition waiting_count (s : sched) : Z := Z.max 0 (outstanding (bar s)).

(** [_update_agent_stat] *)
Definition update_agent_stat (s : sched) : sched :=
  let count a := default 0%Z (reaction_counts (bar s) !! Some a) in
  with_stat (insert (time s) {|
  completed := count "completed"; ready := count "ready";
  errors := count "error"; shutdowns := count "shutdown";
  waiting := waiting_count s;
  booting := booting_count_this_step (bar s);
  sleeping := sleeping_count_this_step (bar s);
  stepping_agents := did_step_count (bar s);
  total_agents := Z.of_nat (size (agent_collection s)) |}) s.

(** [_done] of [confirm_responses], [waited] seconds after its start. *)
Definition done (cfg : settings) (total : Z) (waited : float64) (s : sched) : bool :=
  (outstanding (bar s) <=? 0)%Z ||
  ((0 <? total)%Z &&
   f_leb (f_div (f_of_Z (outstanding (bar s))) (f_of_Z total))
   (default f_zero (STEP_TIMEOUT_TOLERANCE cfg)) &&
   f_leb (default (f_of_Z 2) (STEP_SETTLE_SECONDS cfg)) waited).

(** The loop of [confirm_responses].  A moment is the replies handled since the
last poll, and the seconds waited at this one; after the last moment
[STEP_TIMEOUT] strikes, and the loop is cancelled ([false]). *)
Fixpoint confirm_responses (cfg : settings) (total : Z) (moments : list (list reply * float64))
  (s : sched) : bool * sched :=
  match moments with
  | [] => (false, s)
  | (replies, waited) :: moments =>
      let s := foldl deliver s replies in
      if done cfg total waited s then (true, update_agent_stat s)
      else confirm_responses cfg total moments s
  end.

(** [_non_responding_agent_ids] *)
Definition non_responding_agent_ids (s : sched) : list string :=
  sorted_strings ((expected_this_step (bar s) ∖ responded_this_step (bar s)) ∪ error_replied (bar s)).

(** [step_timeout_handler]: it re-raises the timeout to abort the run. *)
Definition step_timeout_handler (cfg : settings) : eff sched unit := λ s,
  let s := update_agent_stat s in
  let total := Z.of_nat (size (agent_collection s)) in
  if (total =? 0)%Z then (Ok tt, with_timeouts 0 s)
  else
  match STEP_TIMEOUT_TOLERANCE cfg with
  | None => (Raise KeyError, s)
  | Some tolerance =>
    if f_leb (f_div (f_of_Z (waiting_count s)) (f_of_Z total)) tolerance then
      (Ok tt, with_timeouts 0 s)
    else
      let s := with_timeouts (consecutive_step_timeouts s + 1) s in
      match py_int (default (PInt 3) (STEP_TIMEOUT_ABORT_CONSECUTIVE cfg)) with
      | Raise e => (Raise e, s)
      | Ok k =>
          if (Z.max 1 k <=? consecutive_step_timeouts s)%Z
          then (Raise (OtherError "TimeoutError"), s) else (Ok tt, s)
      end
  end.

(** ** Pruning *)

(** [while len(stash) > MAX: stash.pop(next(iter(stash)))] *)
Definition trim_stash (d : list (string * entry)) : list (string * entry) :=
  drop (length d - PRUNED_STASH_MAX) d.

(** One agent of the sweep. *)
Definition reap_agent (non_responders : gset string) (s : sched) (a : string) : sched :=
  match agent_collection s !! a with
  | None => s
  | Some e =>
      let s :=
        if decide (a ∈ non_responders ∧ a ∉ shutdown_replied (bar s))
        then with_stash (trim_stash (d_set (pruned_stash s) a e)) s else s in
      remove_agent a s
  end.

(** The loop over the agents to reap, [late] being the replies that are handled
between its iterations. *)
Fixpoint reap_loop (non_responders : gset string) (todo : list string) (late : list (list reply))
  (s : sched) : sched :=
  match todo with
  | [] => s
  | a :: todo => reap_loop non_responders todo (tail late)
               (reap_agent non_responders (foldl deliver s (default [] (head late))) a)
  end.

(** The agents silent at the end of the step. *)
Definition silent (s : sched) : gset string :=
  expected_this_step (bar s) ∖ responded_this_step (bar s).

Definition reap (late : list (list reply)) (s : sched) : sched :=
  reap_loop (silent s) (iter_set (shutdown_replied (bar s) ∪ silent s)) late s.

(** The final step deregisters the agents that sleep through it. *)
Definition remove_sleepers (s : sched) : sched :=
  foldl (λ s a, match agent_collection s !! a with Some _ => remove_agent a s | None => s end) s
  (elements (dom (sleeping_until (naps s)))).

(** ** A step *)

(** What happens around a step: the moments of [confirm_responses], and the
replies handled from its end on. *)
Record surroundings : Set := Surroundings {
  moments : list (list reply * float64);
  late : list (list reply);
}.

(** The fallback that makes the last step of the configured length final. *)
Definition resolve_final (cfg : settings) (is_final : bool) (s : sched) : result bool :=
  if is_final then Ok true
  else if ALLOW_POST_HORIZON_DRAIN cfg then Ok false
  else match SIMULATION_LENGTH_IN_STEPS cfg with
   | Some n => Ok (time s =? n - 1)%Z
   | None => Raise KeyError
   end.

(** Everything before the wait: the barrier, the direct notices, the broadcast. *)
Definition open_step (is_final : bool) (s : sched) : sched :=
  let s := begin_step_barrier s in
  let s := if is_final
       then send (map (λ p, Notice p.2 (time s)) (sleep_wake_topics (naps s))) s else s in
  send [Broadcast is_final (time s)] s.

(** Everything after it. *)
Definition close_step (is_final : bool) (late : list (list reply)) (s : sched) : sched :=
  let s := reap (tail late) (foldl deliver s (default [] (head late))) in
  tick (if is_final then remove_sleepers s else s).

(** [step]: the [end_sim] of its result. *)
Definition step (cfg : settings) (is_final : bool) (env : surroundings) : eff sched bool := λ s,
  match resolve_final cfg is_final s with
  | Raise e => (Raise e, s)
  | Ok is_final =>
      let s := open_step is_final s in
      let '(resolved, s) :=
        confirm_responses cfg (Z.of_nat (size (agent_collection s))) (moments env) s in
      let '(r, s) := if resolved then (Ok tt, with_timeouts 0 s) else step_timeout_handler cfg s in
      match r with
      | Raise e => (Raise e, s)
      | Ok _ => (Ok is_final, close_step is_final (late env) s)
      end
  end.
End Scheduler.

Abbreviation deliver_all := (foldl deliver).

(** ** What a reply changes *)

Section Replies.
Context `{PyText} `{OrsimScheduler} `{SetOrder}.

(** The reply is for step [t]. *)
Definition for_step (t : Z) (r : reply) : bool :=
  py_eq (if py_eq (time_step r) (PInt (-1)) then PInt t else time_step r) (PInt t).

(** Its [sleep_steps] can be read. *)
Definition readable (r : reply) : bool :=
  if truth (sleep_steps r) then is_ok (py_int (sleep_steps r)) else true.

(** The handler gets to the barrier counters. *)
Definition answers (t : Z) (r : reply) : bool := for_step t r && readable r.

Lemma note_sleep_ok r rts s : is_ok (note_sleep r rts s) = readable r.
Proof.
  unfold note_sleep, readable. destruct (truth (sleep_steps r)).
  - destruct (py_int (sleep_steps r)); simpl; [|done]. by case_match.
  - by case_match.
Qed.

Lemma find_entry_frame r s :
  let s' := (find_entry r s).2 in
  time s' = time s ∧ agent_stat s' = agent_stat s ∧
  consecutive_step_timeouts s' = consecutive_step_timeouts s ∧ bar s' = bar s ∧ naps s' = naps s ∧
  outbox s' = outbox s.
Proof. unfold find_entry. by repeat case_match. Qed.

(** Registering a reply leaves everything but the collection and the stash. *)
Lemma record_response_frame r rts s :
  let s' := record_response r rts s in
  time s' = time s ∧ agent_stat s' = agent_stat s ∧
  consecutive_step_timeouts s' = consecutive_step_timeouts s ∧ bar s' = bar s ∧ naps s' = naps s ∧
  outbox s' = outbox s.
Proof.
  pose proof (find_entry_frame r s) as Hf. unfold record_response.
  destruct (find_entry r s) as [[e|] s0]; by simpl in *.
Qed.

Lemma deliver_frame s r :
  time (deliver s r) = time s ∧ agent_stat (deliver s r) = agent_stat s ∧
  consecutive_step_timeouts (deliver s r) = consecutive_step_timeouts s ∧
  outbox (deliver s r) = outbox s.
Proof.
  pose proof (record_response_frame r (response_time_step r s) s) as (Ht & Ha & Hc & Hb & Hn & Ho).
  unfold deliver, handle_reply. destruct (note_sleep _ _ _); simpl; [|done]. by case_match.
Qed.

Lemma deliver_time s r : time (deliver s r) = time s.
Proof. apply deliver_frame. Qed.

Lemma deliver_all_time s rs : time (deliver_all s rs) = time s.
Proof.
  apply (foldl_invariant _ (λ s', time s' = time s)); [|done]. intros s' r _ Hs'.
  by rewrite deliver_time.
Qed.

Lemma deliver_bar s r :
  bar (deliver s r) = if answers (time s) r then tally r (bar s) else bar s.
Proof.
  pose proof (record_response_frame r (response_time_step r s) s) as (Ht & Ha & Hc & Hb & Hn & Ho).
  unfold deliver, handle_reply, answers. pose proof (note_sleep_ok r (response_time_step r s)
  (record_response r (response_time_step r s) s)) as Hok.
  destruct (note_sleep r _ _) as [n|e]; simpl in *; rewrite <-Hok.
  - rewrite Ht, andb_true_r. change (for_step (time s) r) with
  (py_eq (response_time_step r s) (PInt (time s))). case_match; simpl; by rewrite Hb.
  - by rewrite andb_false_r.
Qed.

(** Handling a reply never removes an agent. *)
Lemma record_response_dom r rts s a :
  a ∈ dom (agent_collection s) → a ∈ dom (agent_collection (record_response r rts s)).
Proof. unfold record_response, find_entry. repeat case_match; simplify_eq/=; set_solver. Qed.

Lemma deliver_agents s r :
  agent_collection (deliver s r) = agent_collection (record_response r (response_time_step r s) s).
Proof. unfold deliver, handle_reply. destruct (note_sleep _ _ _); simpl; [|done]. by case_match. Qed.

Lemma deliver_dom s r a : a ∈ dom (agent_collection s) → a ∈ dom (agent_collection (deliver s r)).
Proof. rewrite deliver_agents. apply record_response_dom. Qed.

Lemma deliver_all_dom s rs a :
  a ∈ dom (agent_collection s) → a ∈ dom (agent_collection (deliver_all s rs)).
Proof.
  intros Ha. apply (foldl_invariant _ (λ s', a ∈ dom (agent_collection s'))); [|done].
  intros; by apply deliver_dom.
Qed.

(** *** The barrier's counters *)

Definition sum_counts (m : gmap (option string) Z) : Z := map_fold (λ _ n acc, (n + acc)%Z) 0%Z m.

Lemma sum_counts_insert m k :
  sum_counts (<[k := (default 0 (m !! k) + 1)%Z]> m) = (sum_counts m + 1)%Z.
Proof.
  unfold sum_counts.
  assert (∀ (m : gmap (option string) Z) k v, m !! k = None →
  map_fold (λ _ n acc, (n + acc)%Z) 0%Z (<[k:=v]> m) = (v + map_fold (λ _ n acc, (n + acc)%Z) 0%Z m)%Z) as Hins.
  { intros m' k' v Hm'. apply map_fold_insert_L; [|done]. intros; lia. }
  destruct (m !! k) as [v|] eqn:E; simpl; [|rewrite Hins by done; lia].
  rewrite <-(insert_delete_id m k v) at 2 by done. rewrite <-insert_delete_eq.
  rewrite !Hins by apply lookup_delete_eq. lia.
Qed.

(** The counters agree with the sets they summarise. *)
Record barrier_ok (b : barrier) : Prop := {
  ok_responded : responded_this_step b ⊆ expected_this_step b;
  ok_outstanding : outstanding b = Z.of_nat (size (expected_this_step b ∖ responded_this_step b));
  ok_reactions : sum_counts (reaction_counts b) = Z.of_nat (size (responded_this_step b));
  ok_did_step : (0 ≤ did_step_count b ≤ Z.of_nat (size (responded_this_step b)))%Z;
}.

Lemma new_barrier_ok : barrier_ok new_barrier.
Proof. by split. Qed.

Lemma begin_step_barrier_ok s : barrier_ok (bar (begin_step_barrier s)).
Proof.
  split; simpl; [set_solver| |done|].
  - by rewrite difference_empty_L.
  - lia.
Qed.

Lemma tally_ok r b : barrier_ok b → barrier_ok (tally r b).
Proof.
  intros [Hs Ho Hr Hd]. unfold tally.
  destruct (decide (agent_id r ∈ expected_this_step b)) as [He|He];
  [destruct (decide (agent_id r ∈ responded_this_step b)) as [Hi|Hi]|].
  - rewrite (bool_decide_eq_true_2 (agent_id r ∈ _)), (bool_decide_eq_false_2 (agent_id r ∉ _)) by tauto.
  by split.
  - rewrite !bool_decide_eq_true_2 by done. split; simpl.
  + set_solver.
  + assert (expected_this_step b ∖ responded_this_step b =
  {[agent_id r]} ∪ expected_this_step b ∖ ({[agent_id r]} ∪ responded_this_step b)) as E.
  { apply leibniz_equiv. intros x. destruct (decide (x = agent_id r)); set_solver. }
  rewrite Ho, E, size_union by set_solver. rewrite size_singleton. lia.
  + rewrite sum_counts_insert, Hr, size_union by set_solver. rewrite size_singleton. lia.
  + rewrite size_union by set_solver. rewrite size_singleton. case_match; lia.
  - rewrite (bool_decide_eq_false_2 (agent_id r ∈ _)) by done. by split.
Qed.

Lemma deliver_barrier_ok s r : barrier_ok (bar s) → barrier_ok (bar (deliver s r)).
Proof. rewrite deliver_bar. case_match; auto using tally_ok. Qed.

Lemma tally_expected r b : expected_this_step (tally r b) = expected_this_step b.
Proof. done. Qed.

Lemma deliver_expected s r :
  expected_this_step (bar (deliver s r)) = expected_this_step (bar s).
Proof. rewrite deliver_bar. by case_match. Qed.

Lemma deliver_all_expected s rs :
  expected_this_step (bar (deliver_all s rs)) = expected_this_step (bar s).
Proof.
  apply (foldl_invariant _ (λ s', expected_this_step (bar s') = expected_this_step (bar s))); [|done].
  intros s' r _ <-. apply deliver_expected.
Qed.

Lemma elem_of_tally_responded r b a :
  a ∈ responded_this_step (tally r b) ↔
  a ∈ responded_this_step b ∨ a = agent_id r ∧ a ∈ expected_this_step b.
Proof.
  simpl. destruct (decide (agent_id r ∈ expected_this_step b)) as [He|He];
  [destruct (decide (agent_id r ∈ responded_this_step b)) as [Hi|Hi]|].
  - rewrite (bool_decide_eq_true_2 (agent_id r ∈ _)), (bool_decide_eq_false_2 (agent_id r ∉ _)) by tauto.
  simpl. naive_solver.
  - rewrite !bool_decide_eq_true_2 by done. simpl. set_solver.
  - rewrite (bool_decide_eq_false_2 (agent_id r ∈ _)) by done. simpl. naive_solver.
Qed.

(** Who has responded, after any list of replies in any order. *)
Lemma deliver_all_responded s rs a :
  a ∈ responded_this_step (bar (deliver_all s rs)) ↔
  a ∈ responded_this_step (bar s) ∨
  a ∈ expected_this_step (bar s) ∧ ∃ r, r ∈ rs ∧ agent_id r = a ∧ answers (time s) r = true.
Proof.
  revert s. induction rs as [|r rs IH]; intros s; simpl.
  { split; [by left|]. intros [?|[_ (r & Hr & _)]]; [done|by apply elem_of_nil in Hr]. }
  rewrite IH, deliver_expected, deliver_time, deliver_bar.
  setoid_rewrite elem_of_cons. destruct (answers (time s) r) eqn:E.
  - rewrite elem_of_tally_responded. naive_solver.
  - naive_solver congruence.
Qed.

Lemma deliver_all_barrier_ok s rs : barrier_ok (bar s) → barrier_ok (bar (deliver_all s rs)).
Proof. apply (foldl_invariant _ (λ s', barrier_ok (bar s'))). intros; by apply deliver_barrier_ok. Qed.

(** Who is expected: the registered agents that have booted and are not napping. *)
Lemma elem_of_expected s a :
  a ∈ expected_this_step (bar (begin_step_barrier s)) ↔
  ∃ e, agent_collection s !! a = Some e ∧ pending_boot e = false ∧
  ∀ w, sleeping_until (naps s) !! a = Some w → wake_leb w (time s) = true.
Proof.
  simpl. rewrite elem_of_dom. unfold is_Some. setoid_rewrite map_lookup_filter_Some.
  setoid_rewrite elem_of_dom. unfold is_Some. setoid_rewrite map_lookup_filter_Some. unfold expired. simpl.
  split.
  - intros (e & He & Hp & Hn). exists e. split_and!; [done..|]. intros w Hw.
  destruct (wake_leb w (time s)) eqn:E; [done|]. destruct Hn. exists w. by rewrite Hw.
  - intros (e & He & Hp & Hw). exists e. split_and!; [done..|]. intros (w & Ew & E).
  rewrite Ew in E. rewrite (Hw w Ew) in E. done.
Qed.
End Replies.

(** ** The sweep at the end of a step *)

Section Sweep.
Context `{PyText} `{OrsimScheduler} `{SetOrder}.

(** What handlers and the sweep read: everything but statistics, the streak of
timeouts and what was sent. *)
Definition core (s : sched) :=
  (time s, agent_collection s, bar s, naps s, pruned_stash s).

(** [s] with other statistics. *)
Definition reframe (s' s : sched) : sched :=
  Sched (time s) (agent_collection s) (agent_stat s') (consecutive_step_timeouts s') (bar s)
  (naps s) (pruned_stash s) (outbox s').

Lemma core_reframe s s' : core s = core s' → s' = reframe s' s.
Proof. destruct s, s'. unfold core, reframe; simpl. by intros [= -> -> -> -> ->]. Qed.

Lemma record_response_reframe r rts s s' :
  record_response r rts (reframe s' s) = reframe s' (record_response r rts s).
Proof.
  unfold record_response, find_entry; simpl. destruct (agent_collection s !! agent_id r); [done|].
  destruct (_ || _); [|done]. by destruct (d_get _ _).
Qed.

Lemma deliver_reframe s s' r : deliver (reframe s' s) r = reframe s' (deliver s r).
Proof.
  unfold deliver, handle_reply. rewrite record_response_reframe.
  change (response_time_step r (reframe s' s)) with (response_time_step r s).
  change (note_sleep r ?x (reframe ?y ?z)) with (note_sleep r x z).
  destruct (note_sleep _ _ _); simpl; [|done]. by case_match.
Qed.

Lemma deliver_core s s' r : core s = core s' → core (deliver s r) = core (deliver s' r).
Proof. intros E. by rewrite (core_reframe s s' E), deliver_reframe. Qed.

Lemma deliver_all_core s s' rs :
  core s = core s' → core (deliver_all s rs) = core (deliver_all s' rs).
Proof.
  revert s s'. induction rs as [|r rs IH]; intros s s' E; simpl; [done|].
  by apply IH, deliver_core.
Qed.

Lemma confirm_responses_spec cfg total ms s :
  ∃ rs, rs ⊆ concat (map fst ms) ∧
  core (confirm_responses cfg total ms s).2 = core (deliver_all s rs).
Proof.
  revert s. induction ms as [|[replies waited] ms IH]; intros s; simpl.
  { exists []. split; [set_solver|done]. }
  case_match; simpl.
  - exists replies. split; [set_solver|done].
  - destruct (IH (deliver_all s replies)) as (rs & Hrs & E). exists (replies ++ rs).
  split; [set_solver|]. by rewrite E, foldl_app.
Qed.

Lemma step_timeout_handler_core cfg s : core (step_timeout_handler cfg s).2 = core s.
Proof. unfold step_timeout_handler. by repeat case_match. Qed.

(** A step that returns, in three parts: the replies since the barrier was set
up, the sweep, and the clock. *)
Lemma step_ok cfg f env s g s' :
  step cfg f env s = (Ok g, s') →
  resolve_final cfg f s = Ok g ∧
  ∃ rs s1, rs ⊆ concat (map fst (moments env)) ++ default [] (head (late env)) ∧
  core s1 = core (deliver_all (begin_step_barrier s) rs) ∧
  s' = tick (if g then remove_sleepers (reap (tail (late env)) s1)
         else reap (tail (late env)) s1).
Proof.
  unfold step. destruct (resolve_final cfg f s) as [g'|]; [|done].
  destruct (confirm_responses _ _ _ _) as [b s0] eqn:Ec.
  destruct (confirm_responses_spec cfg (Z.of_nat (size (agent_collection (open_step g' s)))) (moments env)
  (open_step g' s)) as (rs & Hrs & E). rewrite Ec in E. simpl in E.
  assert (core (open_step g' s) = core (begin_step_barrier s)) as Ho by (by destruct g').
  destruct (if b then _ else _) as [r s2] eqn:E2.
  assert (core s2 = core s0) as E2'.
  { destruct b; [by injection E2 as <- <-|]. pose proof (step_timeout_handler_core cfg s0) as Hc.
  by rewrite E2 in Hc. }
  destruct r; [|done]. intros [= <- <-]. split; [done|].
  exists (rs ++ default [] (head (late env))), (deliver_all s2 (default [] (head (late env)))).
  split_and!; [set_solver| |done].
  rewrite foldl_app. apply deliver_all_core. rewrite E2', E. by apply deliver_all_core.
Qed.

Lemma deliver_all_shutdown s rs a :
  a ∈ shutdown_replied (bar (deliver_all s rs)) ↔
  a ∈ shutdown_replied (bar s) ∨
  ∃ r, r ∈ rs ∧ agent_id r = a ∧ answers (time s) r = true ∧ action r = Some "shutdown".
Proof.
  revert s. induction rs as [|r rs IH]; intros s; simpl.
  { split; [by left|]. intros [?|(r & Hr & _)]; [done|by apply elem_of_nil in Hr]. }
  rewrite IH, deliver_time, deliver_bar. setoid_rewrite elem_of_cons.
  destruct (answers (time s) r) eqn:E; simpl; [|naive_solver congruence].
  destruct (decide (action r = Some "shutdown")) as [Ha|Ha].
  - rewrite bool_decide_eq_true_2 by done. rewrite elem_of_union, elem_of_singleton. naive_solver.
  - rewrite bool_decide_eq_false_2 by done. naive_solver.
Qed.

(** *** With the base class's [remove_agent] *)

Context `{!OrsimSchedulerLaws}.

Lemma remove_agent_agents a s : agent_collection (remove_agent a s) = delete a (agent_collection s).
Proof. apply super_remove_agent_spec. Qed.

Lemma reap_agent_agents N s a :
  agent_collection (reap_agent N s a) = delete a (agent_collection s).
Proof.
  unfold reap_agent. destruct (agent_collection s !! a) as [e|] eqn:E.
  - rewrite remove_agent_agents. by case_decide.
  - by rewrite delete_id.
Qed.

Lemma reap_agent_bar N s a : bar (reap_agent N s a) = bar s.
Proof. unfold reap_agent. repeat case_match; done. Qed.

Lemma reap_agent_time N s a : time (reap_agent N s a) = time s.
Proof. unfold reap_agent. repeat case_match; done. Qed.

(** Only the agents of the work list are removed, whatever replies arrive. *)
Lemma reap_loop_dom N todo late s a :
  a ∉ todo → a ∈ dom (agent_collection s) → a ∈ dom (agent_collection (reap_loop N todo late s)).
Proof.
  revert late s. induction todo as [|b todo IH]; intros late s Hni Ha; simpl; [done|].
  apply not_elem_of_cons in Hni as [Hne Hni]. apply IH; [done|].
  rewrite reap_agent_agents, dom_delete_L. pose proof (deliver_all_dom s (default [] (head late)) a Ha).
  set_solver.
Qed.

Lemma reap_loop_time N todo late s : time (reap_loop N todo late s) = time s.
Proof.
  revert late s. induction todo as [|b todo IH]; intros late s; simpl; [done|].
  by rewrite IH, reap_agent_time, deliver_all_time.
Qed.

Lemma remove_sleepers_time s : time (remove_sleepers s) = time s.
Proof.
  unfold remove_sleepers. apply (foldl_invariant _ (λ s', time s' = time s)); [|done].
  intros s' b _ <-. by case_match.
Qed.

Context `{!SetOrderLaws}.

Lemma elem_of_iter_set X a : a ∈ iter_set X ↔ a ∈ X.
Proof. by rewrite iter_set_perm, elem_of_elements. Qed.

Lemma NoDup_iter_set X : NoDup (iter_set X).
Proof. rewrite iter_set_perm. apply NoDup_elements. Qed.

Lemma reap_dom late s a :
  a ∉ shutdown_replied (bar s) → a ∉ silent s → a ∈ dom (agent_collection s) →
  a ∈ dom (agent_collection (reap late s)).
Proof. intros ???. apply reap_loop_dom; [rewrite elem_of_iter_set; set_solver|done]. Qed.

Lemma step_time cfg f env s g s' :
  step cfg f env s = (Ok g, s') → time s' = (time s + 1)%Z.
Proof.
  intros (_ & rs & s1 & _ & Hc & ->)%step_ok. simpl.
  assert (time s1 = time s) as Et.
  { pose proof (f_equal (λ p, p.1.1.1.1) Hc) as Ht. simpl in Ht. rewrite Ht. by rewrite deliver_all_time. }
  destruct g; rewrite ?remove_sleepers_time; unfold reap; rewrite reap_loop_time; lia.
Qed.

(** *** Without replies during the sweep *)

Lemma deliver_nothing s (late : list (list reply)) :
  late = [] → deliver_all s (default [] (head late)) = s.
Proof. by intros ->. Qed.

Lemma reap_loop_agents N todo s :
  agent_collection (reap_loop N todo [] s) = filter (λ p, p.1 ∉ todo) (agent_collection s).
Proof.
  revert s. induction todo as [|b todo IH]; intros s; simpl.
  { symmetry. apply map_filter_id. intros i x _. apply not_elem_of_nil. }
  rewrite IH, reap_agent_agents. apply map_eq. intros i. apply option_eq. intros x.
  rewrite !map_lookup_filter_Some, lookup_delete_Some, not_elem_of_cons. simpl. naive_solver.
Qed.

Lemma reap_loop_bar N todo s : bar (reap_loop N todo [] s) = bar s.
Proof.
  revert s. induction todo as [|b todo IH]; intros s; simpl; [done|]. by rewrite IH, reap_agent_bar.
Qed.

Lemma reap_agents s :
  agent_collection (reap [] s) =
  filter (λ p, p.1 ∉ shutdown_replied (bar s) ∧ p.1 ∉ silent s) (agent_collection s).
Proof.
  unfold reap. rewrite reap_loop_agents. apply map_filter_ext. intros i x _.
  rewrite elem_of_iter_set. simpl. set_solver.
Qed.
End Sweep.

(** ** Who a reply and a sweep leave alone *)

Section Others.
Context `{PyText} `{OrsimScheduler} `{SetOrder} `{!OrsimSchedulerLaws} `{!SetOrderLaws}.

(** What the scheduler holds about an agent. *)
Definition about (s : sched) (a : string) :=
  (agent_collection s !! a, sleeping_until (naps s) !! a, d_get (pruned_stash s) a).

Lemma deliver_naps s r :
  naps (deliver s r) = catch (note_sleep r (response_time_step r s) s) (naps s).
Proof.
  pose proof (record_response_frame r (response_time_step r s) s) as (Ht & Ha & Hc & Hb & Hn & Ho).
  unfold deliver, handle_reply.
  assert (note_sleep r (response_time_step r s) (record_response r (response_time_step r s) s) =
  note_sleep r (response_time_step r s) s) as -> by (unfold note_sleep; by rewrite Hn, Ht).
  destruct (note_sleep _ _ _); simpl; [|done]. by case_match.
Qed.

Lemma deliver_stash s r :
  pruned_stash (deliver s r) = pruned_stash (record_response r (response_time_step r s) s).
Proof. unfold deliver, handle_reply. destruct (note_sleep _ _ _); simpl; [|done]. by case_match. Qed.

Lemma deliver_other s r a : agent_id r ≠ a → about (deliver s r) a = about s a.
Proof.
  intros Hne. unfold about. f_equal; [f_equal|].
  - rewrite deliver_agents. unfold record_response, find_entry.
  repeat case_match; simplify_eq/=; by rewrite ?lookup_insert_ne by done.
  - rewrite deliver_naps. unfold note_sleep. destruct (truth (sleep_steps r)).
  + destruct (py_int (sleep_steps r)); simpl; [|done]. case_match; simpl; by rewrite lookup_insert_ne.
  + case_match; simpl; [by rewrite lookup_delete_ne|done].
  - rewrite deliver_stash. unfold record_response, find_entry.
  repeat case_match; simplify_eq/=; try done; by rewrite d_get_del, decide_False.
Qed.

Lemma deliver_all_other s rs a :
  (∀ r, r ∈ rs → agent_id r ≠ a) → about (deliver_all s rs) a = about s a.
Proof.
  intros Hrs. apply (foldl_invariant _ (λ s', about s' a = about s a)); [|done].
  intros s' r Hr <-. by apply deliver_other, Hrs.
Qed.

Lemma remove_agent_other s a b : a ≠ b → about (remove_agent b s) a = about s a.
Proof.
  intros Hne. unfold about. rewrite remove_agent_agents. simpl. by rewrite !lookup_delete_ne.
Qed.

Lemma drop_length_le {A} (l : list A) n : (length (drop (length l - n) l) ≤ n)%nat.
Proof. rewrite length_drop. lia. Qed.

Lemma trim_stash_small d : (length d ≤ PRUNED_STASH_MAX)%nat → trim_stash d = d.
Proof. intros Hd. unfold trim_stash. replace (length d - _)%nat with 0%nat by lia. done. Qed.

Lemma length_d_set {V} (d : list (string * V)) k v : (length (d_set d k v) ≤ S (length d))%nat.
Proof. induction d as [|[k' v'] d IH]; simpl; [done|]. case_decide; simpl; lia. Qed.

Lemma reap_agent_stash N s a :
  (S (length (pruned_stash s)) ≤ PRUNED_STASH_MAX)%nat →
  pruned_stash (reap_agent N s a) =
  match agent_collection s !! a with
  | Some e => if decide (a ∈ N ∧ a ∉ shutdown_replied (bar s))
          then d_set (pruned_stash s) a e else pruned_stash s
  | None => pruned_stash s
  end.
Proof.
  intros Hlen. unfold reap_agent. destruct (agent_collection s !! a) as [e|]; [|done].
  case_decide; [|done]. apply trim_stash_small. pose proof (length_d_set (pruned_stash s) a e). lia.
Qed.

Lemma reap_agent_other N s a b :
  a ≠ b → (S (length (pruned_stash s)) ≤ PRUNED_STASH_MAX)%nat → about (reap_agent N s b) a = about s a.
Proof.
  intros Hne Hlen. unfold about. f_equal; [f_equal|].
  - by rewrite reap_agent_agents, lookup_delete_ne.
  - unfold reap_agent. destruct (agent_collection s !! b); [|done]. case_decide; simpl; by rewrite lookup_delete_ne.
  - rewrite reap_agent_stash by done. destruct (agent_collection s !! b); [|done].
  case_decide; [|done]. by rewrite d_get_set_ne.
Qed.

Lemma reap_agent_length N s b :
  (S (length (pruned_stash s)) ≤ PRUNED_STASH_MAX)%nat →
  (length (pruned_stash (reap_agent N s b)) ≤ S (length (pruned_stash s)))%nat.
Proof.
  intros Hlen. rewrite reap_agent_stash by done. destruct (agent_collection s !! b) as [e|]; [|lia].
  case_decide; [|lia]. apply length_d_set.
Qed.

Lemma reap_loop_other N todo s a :
  a ∉ todo → (length (pruned_stash s) + length todo ≤ PRUNED_STASH_MAX)%nat →
  about (reap_loop N todo [] s) a = about s a.
Proof.
  revert s. induction todo as [|b todo IH]; intros s Hni Hlen; simpl in *; [done|].
  apply not_elem_of_cons in Hni as [Hne Hni]. pose proof (reap_agent_length N s b).
  rewrite IH by (done || lia). apply reap_agent_other; [done|lia].
Qed.

(** A silent agent goes to the stash with its entry, and its nap is forgotten. *)
Lemma reap_loop_silent N todo s a e :
  NoDup todo → a ∈ todo → a ∈ N → a ∉ shutdown_replied (bar s) →
  agent_collection s !! a = Some e → (length (pruned_stash s) + length todo ≤ PRUNED_STASH_MAX)%nat →
  about (reap_loop N todo [] s) a = (None, None, Some e).
Proof.
  revert s. induction todo as [|b todo IH]; intros s Hnd Hin HN Hsh He Hlen; simpl in *.
  { by apply elem_of_nil in Hin. }
  apply NoDup_cons in Hnd as [Hb Hnd]. pose proof (reap_agent_length N s b).
  apply elem_of_cons in Hin as [->|Hin].
  - rewrite reap_loop_other by (done || lia). unfold about. rewrite reap_agent_agents, lookup_delete_eq.
  rewrite reap_agent_stash, He, decide_True, d_get_set_eq by (done || lia).
  unfold reap_agent. rewrite He, decide_True by done. simpl. by rewrite lookup_delete_eq.
  - assert (a ≠ b) as Hne by set_solver. apply IH; [done..| | |lia].
  + by rewrite reap_agent_bar.
  + by rewrite reap_agent_agents, lookup_delete_ne.
Qed.

Lemma reap_silent s a e :
  a ∈ silent s → a ∉ shutdown_replied (bar s) → agent_collection s !! a = Some e →
  (length (pruned_stash s) + size (shutdown_replied (bar s) ∪ silent s) ≤ PRUNED_STASH_MAX)%nat →
  about (reap [] s) a = (None, None, Some e).
Proof.
  intros Hs Hsh He Hlen. unfold reap.
  apply reap_loop_silent; [apply NoDup_iter_set|rewrite elem_of_iter_set; set_solver|done..|].
  by rewrite (Permutation_length (iter_set_perm _)).
Qed.

Lemma reap_other s a :
  a ∉ silent s → a ∉ shutdown_replied (bar s) →
  (length (pruned_stash s) + size (shutdown_replied (bar s) ∪ silent s) ≤ PRUNED_STASH_MAX)%nat →
  about (reap [] s) a = about s a.
Proof.
  intros Hs Hsh Hlen. unfold reap. apply reap_loop_other; [rewrite elem_of_iter_set; set_solver|].
  by rewrite (Permutation_length (iter_set_perm _)).
Qed.
End Others.

(** ** The barrier resolves when everyone has answered *)

Section BarrierTheorem.
Context `{PyText} `{OrsimScheduler} `{SetOrder}.

(** C21: The barrier of a step waits for exactly the registered agents that have
booted and are not napping; whatever replies arrive, in whatever order, with
duplicates, stragglers of other steps and replies of agents nobody waits for,
an agent has responded once a reply of its own for this step was read, the
count of outstanding agents is the number of those that have not, and it
reaches zero exactly when each expected agent has answered. *)
Theorem barrier_resolves s rs :
  let b := bar (deliver_all (begin_step_barrier s) rs) in
  let answered a := ∃ r, r ∈ rs ∧ agent_id r = a ∧ answers (time s) r = true in
  (∀ a, a ∈ expected_this_step b ↔ ∃ e, agent_collection s !! a = Some e ∧ pending_boot e = false ∧
   ∀ w, sleeping_until (naps s) !! a = Some w → wake_leb w (time s) = true) ∧
  (∀ a, a ∈ responded_this_step b ↔ a ∈ expected_this_step b ∧ answered a) ∧
  outstanding b = Z.of_nat (size (expected_this_step b ∖ responded_this_step b)) ∧
  ((outstanding b ≤ 0)%Z ↔ ∀ a, a ∈ expected_this_step b → answered a).
Proof.
  cbv zeta. set (b := bar _).
  assert (expected_this_step b = expected_this_step (bar (begin_step_barrier s))) as Ee
  by apply deliver_all_expected.
  assert (∀ a, a ∈ responded_this_step b ↔ a ∈ expected_this_step b ∧
  ∃ r, r ∈ rs ∧ agent_id r = a ∧ answers (time s) r = true) as Hr.
  { intros a. unfold b at 1. rewrite deliver_all_responded, Ee. set_solver. }
  destruct (deliver_all_barrier_ok (begin_step_barrier s) rs (begin_step_barrier_ok s)) as [_ Ho _ _].
  fold b in Ho. split_and!; [intros a; rewrite Ee; apply elem_of_expected|done|done|].
  rewrite Ho. split.
  - intros Hz a Ha. assert (size (expected_this_step b ∖ responded_this_step b) = 0%nat) as Hs by lia.
  apply size_empty_inv in Hs. apply Hr. apply dec_stable. intros Hn. apply (not_elem_of_empty (C:=gset string) a), Hs. set_solver.
  - intros Hall. assert (expected_this_step b ∖ responded_this_step b = ∅) as ->;
  [|rewrite size_empty; lia].
  apply leibniz_equiv. intros a. split; [|set_solver]. rewrite elem_of_difference. intros [Ha Hn].
  destruct Hn. apply Hr. auto.
Qed.
End BarrierTheorem.

(** ** The invariant of the scheduler *)

Section Invariant.
Context `{PyText} `{OrsimScheduler} `{SetOrder}.

(** The history of an agent: its last responses. *)
Definition capped (e : entry) : Prop := (1 ≤ length (step_response e) ≤ 2)%nat.

Record sched_ok (s : sched) : Prop := {
  inv_barrier : barrier_ok (bar s);
  inv_stash : (length (pruned_stash s) ≤ PRUNED_STASH_MAX)%nat ∧ NoDup (d_keys (pruned_stash s));
  inv_history : map_Forall (λ _, capped) (agent_collection s) ∧
  Forall (λ p, capped p.2) (pruned_stash s);
  inv_topics : NoDup (d_keys (sleep_wake_topics (naps s))) ∧
  ∀ a, a ∈ d_keys (sleep_wake_topics (naps s)) → is_Some (sleeping_until (naps s) !! a);
}.

Lemma sched_ok_core s s' : core s = core s' → sched_ok s → sched_ok s'.
Proof.
  unfold core. intros [= Ht Ha Hb Hn Hp] [H1' H2' H3' H4']. split; congruence || by rewrite <-?Ha, <-?Hb, <-?Hn, <-?Hp.
Qed.

Lemma cap_history_length sr : (length (cap_history sr) ≤ 1)%nat.
Proof. destruct sr as [|p [|q d]]; simpl; [lia..|]. by case_match; simpl; lia. Qed.

Lemma d_set_length_Z {V} (d : list (Z * V)) k v : (1 ≤ length (d_set d k v) ≤ S (length d))%nat.
Proof. induction d as [|[k' v'] d IH]; simpl; [lia|]. case_decide; simpl; lia. Qed.

Lemma note_response_capped r rts e : capped e → capped (note_response r rts e).
Proof.
  unfold capped, note_response; simpl. destruct (as_int rts) as [t|]; [|done]. intros _.
  pose proof (cap_history_length (step_response e)).
  pose proof (d_set_length_Z (cap_history (step_response e)) t (Response (action r) (did_step r) (run_time r))).
  lia.
Qed.

Lemma length_d_del {V} (d : list (string * V)) k : (length (d_del d k) ≤ length d)%nat.
Proof. apply length_filter. Qed.

Lemma record_response_ok r rts s : sched_ok s → sched_ok (record_response r rts s).
Proof.
  intros [Hb [Hs Hnd] [Ha Hp] [Ht Htk]]. unfold record_response, find_entry.
  destruct (agent_collection s !! agent_id r) as [e|] eqn:E; simpl.
  { split; simpl; [done..| |done]. split; [|done].
  apply map_Forall_insert_2; [|done]. apply note_response_capped. by apply (Ha _ _ E). }
  destruct (_ || _); simpl; [|by split]. destruct (d_get (pruned_stash s) (agent_id r)) as [e|] eqn:Ee; [|by split].
  apply d_get_Some_elem in Ee. split; simpl; [done| | |done].
  - split; [|by apply NoDup_d_del]. pose proof (length_d_del (pruned_stash s) (agent_id r)). lia.
  - rewrite Forall_forall in Hp. split.
  + rewrite insert_insert_eq. apply map_Forall_insert_2; [|done].
  apply note_response_capped. by apply (Hp (agent_id r, e)).
  + apply Forall_forall. intros p [_ Hin]%list_elem_of_filter. auto.
Qed.

Lemma note_sleep_topics r rts s n :
  note_sleep r rts s = Ok n →
  NoDup (d_keys (sleep_wake_topics (naps s))) →
  (∀ a, a ∈ d_keys (sleep_wake_topics (naps s)) → is_Some (sleeping_until (naps s) !! a)) →
  NoDup (d_keys (sleep_wake_topics n)) ∧
  ∀ a, a ∈ d_keys (sleep_wake_topics n) → is_Some (sleeping_until n !! a).
Proof.
  unfold note_sleep. intros Hn Hnd Hk.
  assert (∀ w (a : string), a = agent_id r ∨ a ∈ d_keys (sleep_wake_topics (naps s)) →
  is_Some (<[agent_id r := w]> (sleeping_until (naps s)) !! a)) as Hins.
  { intros w a Ha. destruct (decide (agent_id r = a)) as [->|Hne];
  [rewrite lookup_insert_eq; eauto|rewrite lookup_insert_ne by done; apply Hk; naive_solver]. }
  destruct (truth (sleep_steps r)).
  - destruct (py_int (sleep_steps r)) as [k|]; simpl in Hn; [|done].
  destruct (k <? 0)%Z; injection Hn as <-; simpl; [|by split; [done|intros; apply Hins; right]].
  case_match; (split; [auto with openride|]); intros a Ha; apply Hins; [|by right].
  by apply elem_d_keys_set in Ha.
  - case_match; injection Hn as <-; [|done]. simpl. split; [auto with openride|].
  intros a [Hne Ha]%elem_d_keys_del. rewrite lookup_delete_ne by done. auto.
Qed.

Lemma deliver_ok s r : sched_ok s → sched_ok (deliver s r).
Proof.
  intros Hok%(record_response_ok r (response_time_step r s)). unfold deliver, handle_reply.
  destruct (note_sleep _ _ _) as [n|] eqn:En; simpl; [|done].
  destruct Hok as [Hb Hs Hh [Ht Htk]]. destruct (note_sleep_topics _ _ _ _ En Ht Htk) as [Ht' Htk'].
  case_match; split; simpl; auto using tally_ok.
Qed.

Lemma deliver_all_ok s rs : sched_ok s → sched_ok (deliver_all s rs).
Proof. apply foldl_invariant. intros; by apply deliver_ok. Qed.

Lemma begin_step_barrier_sched_ok s : sched_ok s → sched_ok (begin_step_barrier s).
Proof.
  intros [Hb Hs Hh [Ht Htk]]. split; simpl; [apply begin_step_barrier_ok|done..|].
  split; [auto with openride|]. intros a (v & Hv)%elem_d_keys.
  apply list_elem_of_filter in Hv as [He Hv]. simpl in He.
  destruct (Htk a) as [w Hw]; [apply elem_d_keys; eauto|].
  exists w. apply map_lookup_filter_Some. by split.
Qed.

Context `{!OrsimSchedulerLaws}.

Lemma remove_agent_ok a s : sched_ok s → sched_ok (remove_agent a s).
Proof.
  intros [Hb Hs [Ha Hp] [Ht Htk]]. split; simpl; [done..| |].
  - rewrite super_remove_agent_spec. split; [by apply map_Forall_delete|done].
  - split; [auto with openride|]. intros b [Hne Hin]%elem_d_keys_del. rewrite lookup_delete_ne by done. auto.
Qed.

Lemma elem_d_set_entry (d : list (string * entry)) a e (P : entry → Prop) :
  P e → Forall (λ p, P p.2) d → Forall (λ p, P p.2) (d_set d a e).
Proof.
  rewrite !Forall_forall. intros He Hd p Hp. apply elem_d_set in Hp as [Hp| ->]; auto.
Qed.

Lemma reap_agent_ok N s a : sched_ok s → sched_ok (reap_agent N s a).
Proof.
  intros Hok. unfold reap_agent. destruct (agent_collection s !! a) as [e|] eqn:E; [|done].
  apply remove_agent_ok. case_decide; [|done].
  destruct Hok as [Hb [Hs Hnd] [Ha Hp] Ht]. split; simpl; [done| | |done].
  - unfold trim_stash. split; [rewrite length_drop; lia|]. by apply NoDup_keys_drop, NoDup_d_set.
  - split; [done|]. unfold trim_stash. apply Forall_drop, elem_d_set_entry; [by apply (Ha _ _ E)|done].
Qed.

Lemma reap_loop_ok N todo late s : sched_ok s → sched_ok (reap_loop N todo late s).
Proof.
  revert late s. induction todo as [|a todo IH]; intros late s Hok; simpl; [done|].
  by apply IH, reap_agent_ok, deliver_all_ok.
Qed.

Lemma remove_sleepers_ok s : sched_ok s → sched_ok (remove_sleepers s).
Proof.
  intros Hok. unfold remove_sleepers. apply (foldl_invariant _ sched_ok); [|done].
  intros s' a _ Hs'. case_match; [by apply remove_agent_ok|done].
Qed.

Lemma tick_ok s : sched_ok s → sched_ok (tick s).
Proof. by intros [? ? ? ?]. Qed.

Lemma close_step_ok g lt s : sched_ok s → sched_ok (close_step g lt s).
Proof.
  intros Hok. apply tick_ok.
  assert (sched_ok (reap (tail lt) (deliver_all s (default [] (head lt))))) by
  by apply reap_loop_ok, deliver_all_ok.
  destruct g; [by apply remove_sleepers_ok|done].
Qed.

Lemma step_sched_ok cfg f env s : sched_ok s → sched_ok (step cfg f env s).2.
Proof.
  intros Hok. unfold step. destruct (resolve_final cfg f s) as [g|]; [|done].
  assert (sched_ok (open_step g s)) as Ho.
  { apply (sched_ok_core (begin_step_barrier s)); [by destruct g|by apply begin_step_barrier_sched_ok]. }
  destruct (confirm_responses_spec cfg (Z.of_nat (size (agent_collection (open_step g s)))) (moments env)
  (open_step g s)) as (rs & _ & E).
  destruct (confirm_responses _ _ _ _) as [b s0]. simpl in E.
  assert (sched_ok s0) as H0' by (by eapply sched_ok_core; [symmetry; exact E|apply deliver_all_ok]).
  destruct (if b then _ else _) as [r s2] eqn:E2.
  assert (core s2 = core s0) as E2'.
  { destruct b; [by injection E2 as <- <-|]. pose proof (step_timeout_handler_core cfg s0) as Hc.
  by rewrite E2 in Hc. }
  apply (sched_ok_core s0 s2) in H0'; [|done]. destruct r; simpl; [by apply close_step_ok|done].
Qed.

(** What happens to a scheduler in a run. *)
Inductive act : Set :=
| Add (unique_id : string) (scheduler_kwarg : pyval) (sp : pydict) (project_path agent_class : string)
| Remove (unique_id : string)
| Receive (r : reply)
| Step (is_final : bool) (env : surroundings).

Definition perform (cfg : settings) (s : sched) (x : act) : sched :=
  match x with
  | Add a k sp p c => add_agent a k sp p c s
  | Remove a => remove_agent a s
  | Receive r => deliver s r
  | Step f env => (step cfg f env s).2
  end.

Lemma new_sched_ok t : sched_ok (new_sched t).
Proof.
  split; simpl; [apply new_barrier_ok|split; [lia|constructor]| |].
  - split; [apply map_Forall_empty|constructor].
  - split; [constructor|]. intros a Ha. by apply elem_of_nil in Ha.
Qed.

(** Through any history of launches, removals, replies at any moment and steps,
also steps that raise: the counters of the barrier agree with the sets they
summarise, no agent has more than two responses on record, the stash of pruned
agents never exceeds its bound and holds an agent once, and a topic for the
direct notice is kept only for agents in a nap. *)
Theorem scheduler_invariant cfg t acts : sched_ok (foldl (perform cfg) (new_sched t) acts).
Proof.
  apply foldl_invariant; [|apply new_sched_ok]. intros s x _ Hok. destruct x; simpl.
  - destruct Hok as [Hb Hs [Ha Hp] Ht]. split; simpl; [done..| |done]. split; [|done].
  apply map_Forall_insert_2; [|done]. unfold capped; simpl; lia.
  - by apply remove_agent_ok.
  - by apply deliver_ok.
  - by apply step_sched_ok.
Qed.
End Invariant.

(** ** Who is pruned, and how a straggler returns *)

Section Pruning.
Context `{PyText} `{OrsimScheduler} `{SetOrder} `{!OrsimSchedulerLaws} `{!SetOrderLaws}.

(** An agent that a step does not wait for - still booting, or in a nap it has
announced - survives the step, however the step ends and whichever replies
arrive while it runs (the final step apart), unless it replies that it shuts
down. *)
Theorem booting_and_napping_survive cfg f env s s' a e :
  step cfg f env s = (Ok false, s') →
  agent_collection s !! a = Some e →
  pending_boot e = true ∨ (∃ w, sleeping_until (naps s) !! a = Some w ∧ wake_leb w (time s) = false) →
  (∀ r, r ∈ concat (map fst (moments env)) ++ default [] (head (late env)) →
  agent_id r = a → action r ≠ Some "shutdown") →
  is_Some (agent_collection s' !! a).
Proof.
  intros (_ & rs & s1 & Hrs & Hc & ->)%step_ok He Hwhy Hno. simpl.
  unfold core in Hc. injection Hc as Ht Ha Hb Hn Hp.
  assert (a ∉ expected_this_step (bar s1)) as Hex.
  { rewrite Hb, deliver_all_expected, elem_of_expected. intros (e' & He' & Hp' & Hw). simplify_eq.
  destruct Hwhy as [?|(w & Hw1 & Hw2)]; [congruence|]. rewrite (Hw w Hw1) in Hw2. done. }
  rewrite <-elem_of_dom. apply reap_dom.
  - rewrite Hb, deliver_all_shutdown. intros [Hin|(r & Hr & Ea & _ & Hs)]; [set_solver|].
  by apply (Hno r (Hrs r Hr)).
  - unfold silent. set_solver.
  - rewrite Ha. apply deliver_all_dom. simpl. by apply elem_of_dom_2 in He.
Qed.

(** A step begins: naps that are over are forgotten, nothing else about an agent. *)
Lemma about_begin s a :
  about (begin_step_barrier s) a =
  (agent_collection s !! a,
   if expired s a then None else sleeping_until (naps s) !! a, d_get (pruned_stash s) a).
Proof.
  unfold about; simpl. f_equal. f_equal. apply option_eq. intros w.
  rewrite map_lookup_filter_Some. simpl. destruct (expired s a); naive_solver.
Qed.

Lemma about_open s a g :
  about (open_step g s) a =
  (agent_collection s !! a,
   if expired s a then None else sleeping_until (naps s) !! a, d_get (pruned_stash s) a).
Proof.
  rewrite <-about_begin. by destruct g.
Qed.

Lemma about_inv s a x y z : about s a = (x, y, z) →
  agent_collection s !! a = x ∧ sleeping_until (naps s) !! a = y ∧ d_get (pruned_stash s) a = z.
Proof. unfold about. by intros [= -> -> ->]. Qed.

Lemma expired_None s a : sleeping_until (naps s) !! a = None → expired s a = false.
Proof. unfold expired. by intros ->. Qed.

Lemma expected_open s a g :
  a ∈ expected_this_step (bar (open_step g s)) ↔
  ∃ e, agent_collection s !! a = Some e ∧ pending_boot e = false ∧
  ∀ w, sleeping_until (naps s) !! a = Some w → wake_leb w (time s) = true.
Proof. rewrite <-elem_of_expected. by destruct g. Qed.

Lemma about_close s a : about (close_step false [] s) a = about (reap [] s) a.
Proof. done. Qed.

(** The reply of a pruned agent that is alive registers it again. *)
Lemma deliver_reinstates s r a e :
  about s a = (None, None, Some e) → agent_id r = a →
  action r = Some "completed" ∨ action r = Some "ready" → truth (sleep_steps r) = false →
  about (deliver s r) a = (Some (note_response r (response_time_step r s) e), None, None).
Proof.
  unfold about. intros [= Ha Hn Hp] Hid Hact Hsl. f_equal; [f_equal|].
  - rewrite deliver_agents. unfold record_response, find_entry. rewrite Hid, Ha, Hp.
  destruct Hact as [->| ->]; simpl; by rewrite lookup_insert_eq.
  - rewrite deliver_naps. unfold note_sleep. rewrite Hsl, Hid, Hn. done.
  - rewrite deliver_stash. unfold record_response, find_entry. rewrite Hid, Ha, Hp.
  destruct Hact as [->| ->]; simpl; by rewrite d_get_del, decide_True.
Qed.

Definition stash_room (s : sched) : Prop :=
  (length (pruned_stash s) + size (shutdown_replied (bar s) ∪ silent s) ≤ PRUNED_STASH_MAX)%nat.

(** A straggler is not lost.  An agent that stays silent in a step is pruned;
its late reply, in the next step and after any replies of other agents, puts
it back with the specification it was launched with; that step does not wait
for it and its sweep does not touch it, and the step after that expects it
like any other agent (while the stash has room for the agents pruned). *)
Theorem straggler_returns s1 rs r e :
  let a := agent_id r in
  agent_collection s1 !! a = Some e → a ∈ silent s1 → a ∉ shutdown_replied (bar s1) →
  (∀ r', r' ∈ rs → agent_id r' ≠ a) →
  action r = Some "completed" ∨ action r = Some "ready" → truth (sleep_steps r) = false →
  let s2 := close_step false [] s1 in
  let s3 := deliver (deliver_all (open_step false s2) rs) r in
  stash_room s1 → stash_room s3 →
  agent_collection s2 !! a = None ∧
  (∃ e', agent_collection s3 !! a = Some e' ∧ spec e' = spec e ∧ pending_boot e' = false ∧
  agent_collection (close_step false [] s3) !! a = Some e') ∧
  a ∉ expected_this_step (bar s3) ∧
  a ∈ expected_this_step (bar (open_step false (close_step false [] s3))).
Proof.
  intros a He Hsi Hsh Hrs Hact Hsl s2 s3 Hroom1 Hroom3.
  assert (about s2 a = (None, None, Some e)) as H2' by (unfold s2; rewrite about_close; by apply reap_silent).
  destruct (about_inv _ _ _ _ _ H2') as (Ha2 & Hn2 & Hp2).
  assert (about (deliver_all (open_step false s2) rs) a = (None, None, Some e)) as H2o.
  { rewrite deliver_all_other by done. by rewrite about_open, expired_None, Ha2, Hn2, Hp2. }
  pose proof (deliver_reinstates _ r a e H2o eq_refl Hact Hsl) as H3'. fold s3 in H3'.
  set (e' := note_response _ _ _) in H3'.
  assert (a ∉ expected_this_step (bar s3)) as Hex3.
  { unfold s3. rewrite deliver_expected, deliver_all_expected, expected_open. intros (? & ? & _). congruence. }
  assert (about (close_step false [] s3) a = (Some e', None, None)) as H4'.
  { rewrite about_close, reap_other; [done|unfold silent; set_solver| |done].
  unfold s3. change (deliver (foldl deliver ?x ?y) r) with (foldl deliver (foldl deliver x y) [r]).
  rewrite <-foldl_app, deliver_all_shutdown. intros [Hin|(r' & Hr' & Ea & _ & Hshut)].
  - simpl in Hin. set_solver.
  - apply elem_of_app in Hr' as [Hr'|Hr']; [by apply (Hrs r')|].
  apply list_elem_of_singleton in Hr' as ->. rewrite Hshut in Hact. naive_solver. }
  destruct (about_inv _ _ _ _ _ H3') as (Ha3 & _), (about_inv _ _ _ _ _ H4') as (Ha4 & Hn4 & _).
  split_and!; [done|by exists e'|done|].
  apply expected_open. exists e'. split_and!; [done..|]. intros w Hw. congruence.
Qed.
End Pruning.

(** ** Giving up *)

Section Abort.
Context `{PyText} `{OrsimScheduler} `{SetOrder}.
Abbreviation streak_of := consecutive_step_timeouts.

Lemma deliver_all_streak s rs : streak_of (deliver_all s rs) = streak_of s.
Proof.
  apply (foldl_invariant _ (λ s', streak_of s' = streak_of s)); [|done].
  intros s' r _ <-. apply deliver_frame.
Qed.

Lemma reap_agent_streak N s a : streak_of (reap_agent N s a) = streak_of s.
Proof. unfold reap_agent. by repeat case_match. Qed.

Lemma close_step_streak g lt s : streak_of (close_step g lt s) = streak_of s.
Proof.
  assert (∀ N todo lt s, streak_of (reap_loop N todo lt s) = streak_of s) as Hloop.
  { intros N todo. induction todo as [|a todo IH]; intros lt' s'; simpl; [done|].
  by rewrite IH, reap_agent_streak, deliver_all_streak. }
  unfold close_step; simpl. destruct g; [|unfold reap; by rewrite Hloop, deliver_all_streak].
  unfold remove_sleepers. apply (foldl_invariant _ (λ s', streak_of s' = streak_of s)).
  - intros s' a _ <-. by case_match.
  - unfold reap. by rewrite Hloop, deliver_all_streak.
Qed.

Lemma confirm_streak cfg total ms s : streak_of (confirm_responses cfg total ms s).2 = streak_of s.
Proof.
  revert s. induction ms as [|[rs w] ms IH]; intros s; simpl; [done|].
  case_match; simpl; [|rewrite IH]; apply deliver_all_streak.
Qed.

(** The step runs into [STEP_TIMEOUT] with more than [tolerance] of the
registered agents still waited for. *)
Definition over_tolerance (cfg : settings) (tolerance : float64) (f : bool) (env : surroundings) (s : sched) : bool :=
  match resolve_final cfg f s with
  | Ok g =>
      let s := open_step g s in
      let '(resolved, s) := confirm_responses cfg (Z.of_nat (size (agent_collection s))) (moments env) s in
      let total := Z.of_nat (size (agent_collection s)) in
      negb resolved && negb (total =? 0)%Z &&
      negb (f_leb (f_div (f_of_Z (waiting_count s)) (f_of_Z total)) tolerance)
  | Raise _ => false
  end.

(** Steps in a row, until one raises. *)
Fixpoint run_steps (cfg : settings) (l : list (bool * surroundings)) : eff sched unit := λ s,
  match l with
  | [] => (Ok tt, s)
  | (f, env) :: l =>
      match step cfg f env s with
      | (Ok _, s') => run_steps cfg l s'
      | (Raise e, s') => (Raise e, s')
      end
  end.

(** Which of the steps that ran were over tolerance. *)
Fixpoint verdicts (cfg : settings) (tolerance : float64) (l : list (bool * surroundings)) (s : sched) : list bool :=
  match l with
  | [] => []
  | (f, env) :: l =>
      over_tolerance cfg tolerance f env s ::
      match step cfg f env s with
      | (Ok _, s') => verdicts cfg tolerance l s'
      | (Raise _, _) => []
      end
  end.

Definition streak (n : nat) (vs : list bool) : nat := foldl (λ n v, if v : bool then S n else 0%nat) n vs.

Section Settings.
Context (cfg : settings) (tol : float64) (k n : Z).
Context (Htol : STEP_TIMEOUT_TOLERANCE cfg = Some tol).
Context (Hk : py_int (default (PInt 3) (STEP_TIMEOUT_ABORT_CONSECUTIVE cfg)) = Ok k).
Context (Hn : SIMULATION_LENGTH_IN_STEPS cfg = Some n).

(** The counter after a step, and when the step raises. *)
Lemma step_streak f env s :
  let '(r, s') := step cfg f env s in
  if over_tolerance cfg tol f env s then
    if (Z.max 1 k <=? streak_of s + 1)%Z then r = Raise (OtherError "TimeoutError")
    else is_ok r = true ∧ streak_of s' = (streak_of s + 1)%Z
  else is_ok r = true ∧ streak_of s' = 0%Z.
Proof.
  unfold step, over_tolerance.
  assert (∃ g, resolve_final cfg f s = Ok g) as [g ->].
  { unfold resolve_final. rewrite Hn. repeat case_match; eauto. }
  set (s0 := open_step g s).
  assert (streak_of s0 = streak_of s) as Es0 by (unfold s0; by destruct g).
  pose proof (confirm_streak cfg (Z.of_nat (size (agent_collection s0))) (moments env) s0) as Es1.
  destruct (confirm_responses _ _ _ s0) as [b s1]. cbn -[open_step] in Es1. destruct b; cbn -[close_step open_step].
  { by rewrite close_step_streak. }
  unfold step_timeout_handler. rewrite Htol, Hk.
  replace (waiting_count (update_agent_stat s1)) with (waiting_count s1) by done.
  change (agent_collection (update_agent_stat s1)) with (agent_collection s1).
  destruct (_ =? 0)%Z; cbn -[close_step].
  { by rewrite close_step_streak. }
  destruct (f_leb _ _); cbn -[close_step].
  { by rewrite close_step_streak. }
  rewrite Es1, Es0. destruct (Z.max 1 k <=? _)%Z; cbn -[close_step]; [done|].
  by rewrite close_step_streak.
Qed.

Lemma run_steps_streak l s c :
  streak_of s = Z.of_nat c → (Z.of_nat c < Z.max 1 k)%Z →
  let K := Z.to_nat (Z.max 1 k) in
  let vs := verdicts cfg tol l s in
  match (run_steps cfg l s).1 with
  | Ok _ => length vs = length l ∧ ∀ i, (i ≤ length vs)%nat → (streak c (take i vs) < K)%nat
  | Raise e => e = OtherError "TimeoutError" ∧ streak c vs = K ∧
  ∀ i, (i < length vs)%nat → (streak c (take i vs) < K)%nat
  end.
Proof.
  revert s c. induction l as [|[f env] l IH]; intros s c Hs Hc; simpl.
  { split; [done|]. intros i Hi. rewrite take_nil. simpl. lia. }
  pose proof (step_streak f env s) as Hstep. destruct (step cfg f env s) as [r s'].
  destruct (over_tolerance cfg tol f env s).
  - destruct (Z.leb_spec (Z.max 1 k) (streak_of s + 1)) as [Hle|Hlt].
  + subst r. simpl. split_and!; [done|lia|]. intros [|i] Hi; simpl; lia.
  + destruct Hstep as [Hok Hs']. destruct r; [|done].
  specialize (IH s' (S c) ltac:(lia) ltac:(lia)). simpl in IH.
  destruct (run_steps cfg l s').1; simpl.
  * destruct IH as [Hlen IH]. split; [lia|]. intros [|i] Hi; simpl; [lia|]. apply IH. lia.
  * destruct IH as (-> & Hst & IH). split_and!; [done..|]. intros [|i] Hi; simpl; [lia|]. apply IH. lia.
  - destruct Hstep as [Hok Hs']. destruct r; [|done].
  specialize (IH s' 0%nat ltac:(lia) ltac:(lia)). simpl in IH.
  destruct (run_steps cfg l s').1; simpl.
  * destruct IH as [Hlen IH]. split; [lia|]. intros [|i] Hi; simpl; [lia|]. apply IH. lia.
  * destruct IH as (-> & Hst & IH). split_and!; [done..|]. intros [|i] Hi; simpl; [lia|]. apply IH. lia.
Qed.
End Settings.

(** The run is given up at the first step that completes a row of
[STEP_TIMEOUT_ABORT_CONSECUTIVE] (at least one) timed-out steps over the
tolerance, and at no other: a clean step, or a timeout within the tolerance,
starts the count anew, and while no such row is complete every step returns. *)
Theorem abort_after_streak cfg tol k n l s :
  STEP_TIMEOUT_TOLERANCE cfg = Some tol →
  py_int (default (PInt 3) (STEP_TIMEOUT_ABORT_CONSECUTIVE cfg)) = Ok k →
  SIMULATION_LENGTH_IN_STEPS cfg = Some n →
  consecutive_step_timeouts s = 0%Z →
  let K := Z.to_nat (Z.max 1 k) in
  let vs := verdicts cfg tol l s in
  match (run_steps cfg l s).1 with
  | Ok _ => length vs = length l ∧ ∀ i, (i ≤ length vs)%nat → (streak 0 (take i vs) < K)%nat
  | Raise e => e = OtherError "TimeoutError" ∧ streak 0 vs = K ∧
  ∀ i, (i < length vs)%nat → (streak 0 (take i vs) < K)%nat
  end.
Proof. intros Htol Hk Hn Hs. apply (run_steps_streak cfg tol k n Htol Hk Hn l s 0); lia. Qed.
End Abort.

(** ** Runs of the scheduler *)

Module SchedulerExamples.

#[export] Instance text : PyText := no_text.
#[export] Instance orsim : OrsimScheduler := λ a m, delete a m.
#[export] Instance orsim_laws : OrsimSchedulerLaws := λ a m, eq_refl.
#[export] Instance set_order : SetOrder := elements.
#[export] Instance set_order_laws : SetOrderLaws := λ X, reflexivity _.

Definition cfg (tolerance : float64) : settings :=
  Settings (Some tolerance) None (Some (PInt 2)) false (Some 100%Z).

Definition says (a act : string) (t : Z) : reply :=
  Reply a (PInt t) (Some act) (PBool true) (PInt 1) PNone PNone.
Definition naps_for (a : string) (t : Z) (k : pyval) : reply :=
  Reply a (PInt t) (Some "completed") (PBool true) (PInt 1) k (PStr ("run/" +:+ a)).

Definition launched : sched :=
  foldl (λ s a, add_agent a (PDict []) [] "proj" "apps.order.OrderAgent" s) (new_sched 0) ["a0"; "a1"; "a2"; "a3"].

(** Booted agents, at step 1. *)
Definition booted : sched :=
  (step (cfg f_zero) false (Surroundings [([], f_zero)] [map (λ a, says a "ready" 0) ["a0"; "a1"; "a2"; "a3"]])
  launched).2.

Example add_agent_launches :
  head (outbox launched) = Some (StartAgent "proj" "apps.order" "OrderAgent" [("scheduler", PDict [])]) ∧
  expected_this_step (bar (begin_step_barrier launched)) = ∅ ∧
  expected_this_step (bar (begin_step_barrier booted)) = {["a0"; "a1"; "a2"; "a3"]}.
Proof. by vm_compute. Qed.

Lemma scheduler_invariant_witness :
  sched_ok (foldl (perform (cfg f_zero)) (new_sched 0) [Add "a" PNone [] "p" "m.C"; Receive (says "a" "ready" 0)]).
Proof. apply (scheduler_invariant (cfg f_zero) 0 [Add "a" PNone [] "p" "m.C"; Receive (says "a" "ready" 0)]). Defined.

(** A step in which [a0] naps and [a1], launched late, is still booting. *)
Definition napping : sched :=
  with_agents (insert "a1" (Entry [] true [])) (deliver booted (naps_for "a0" 1 (PInt 5))).
Definition calm : surroundings :=
  Surroundings [(map (λ a, says a "completed" 1) ["a2"; "a3"], f_zero)] [].

Lemma booting_and_napping_survive_witness :
  is_Some (agent_collection (step (cfg f_zero) false calm napping).2 !! "a0") ∧
  is_Some (agent_collection (step (cfg f_zero) false calm napping).2 !! "a1").
Proof.
  split.
  - apply (booting_and_napping_survive (cfg f_zero) false calm napping _ "a0"
    (default (Entry [] false []) (agent_collection napping !! "a0"))).
  + vm_compute. reflexivity.
  + vm_compute. reflexivity.
  + right. exists (WakeAt 6). split; vm_compute; reflexivity.
  + intros r Hr Ha. vm_compute in Hr. 
    repeat (apply elem_of_cons in Hr as [->|Hr]; [vm_compute; discriminate|]). by apply elem_of_nil in Hr.
  - apply (booting_and_napping_survive (cfg f_zero) false calm napping _ "a1" (Entry [] true [])).
  + vm_compute. reflexivity.
  + vm_compute. reflexivity.
  + by left.
  + intros r Hr Ha. vm_compute in Hr. 
    repeat (apply elem_of_cons in Hr as [->|Hr]; [vm_compute; discriminate|]). by apply elem_of_nil in Hr.
Defined.

(** [a0] answers, the others stay silent until the step ends. *)
Definition waited : sched := deliver (open_step false booted) (says "a0" "completed" 1).

Lemma straggler_returns_witness :
  "a1" ∈ expected_this_step (bar (open_step false (close_step false []
  (deliver (foldl deliver (open_step false (close_step false [] waited)) [says "a2" "ready" 1])
    (says "a1" "completed" 1))))).
Proof.
  apply (straggler_returns waited [says "a2" "ready" 1] (says "a1" "completed" 1)
  (default (Entry [] false []) (agent_collection waited !! "a1"))).
  - vm_compute. reflexivity.
  - apply (bool_decide_unpack _). vm_compute. exact I.
  - apply (bool_decide_unpack _). vm_compute. exact I.
  - intros r' ->%list_elem_of_singleton. discriminate.
  - by left.
  - reflexivity.
  - unfold stash_room. apply Nat.leb_le. vm_compute. reflexivity.
  - unfold stash_room. apply Nat.leb_le. vm_compute. reflexivity.
Defined.

(** Two steps in a row with half of the agents silent, at a tolerance of 0.1. *)
Definition bad_run : list (bool * surroundings) :=
  [(false, Surroundings [(map (λ a, says a "completed" 1) ["a0"; "a1"], f_zero)] []);
   (false, Surroundings [] []); (false, Surroundings [] [])].

Lemma abort_after_streak_witness :
  (run_steps (cfg (f_frac 1 10)) bad_run booted).1 = Raise (OtherError "TimeoutError") ∧
  streak 0 (verdicts (cfg (f_frac 1 10)) (f_frac 1 10) bad_run booted) = 2%nat.
Proof.
  pose proof (abort_after_streak (cfg (f_frac 1 10)) (f_frac 1 10) 2 100 bad_run booted
  eq_refl eq_refl eq_refl ltac:(vm_compute; reflexivity)) as Habort.
  cbv zeta in Habort. assert ((run_steps (cfg (f_frac 1 10)) bad_run booted).1 = Raise (OtherError "TimeoutError")) as E
  by (vm_compute; reflexivity).
  rewrite E in Habort. split; [exact E|]. apply Habort.
Defined.

(** A reply for the current step that comes twice leaves one response on record
where two steps are kept otherwise. *)
Example duplicate_reply_forgets_previous :
  let s := foldl deliver booted [says "a0" "completed" 1; says "a0" "completed" 1] in
  let t := deliver booted (says "a0" "completed" 1) in
  (map fst ∘ step_response <$> agent_collection t !! "a0") = Some [0; 1]%Z ∧
  (map fst ∘ step_response <$> agent_collection s !! "a0") = Some [1]%Z.
Proof. by vm_compute. Qed.

(** A nap announced by an agent that is not registered is entered all the same. *)
Example ghost_sleeper :
  let s := deliver booted (naps_for "gone" 1 (PInt (-1))) in
  agent_collection s !! "gone" = None ∧ sleeping_agent_count s = 1%Z.
Proof. by vm_compute. Qed.
End SchedulerExamples.
