(* ===== verification/Agent.v ===== *)
(** The agent half of the step barrier ([container_logistics/openride_agent.py]),
    the naps of order agents ([container_logistics/order/agent.py]), and the run
    of a scheduler together with its agents.

    [OpenRideAgent] answers the scheduler's broadcasts.  What an agent does in a
    step is the business of its subclass and of the third-party base class: the
    class [AgentBody].  A message's surroundings say whether the broker accepts a
    (un)subscription and how long the step took. *)

From S2P Require Import Prelude PyValue Scheduler.

(** ** The agent *)

(** What [OpenRideAgent] calls of its base class and of its subclass. *)
Class AgentBody (S : Type) := {
  (** [bootstrap_step] sets the clock of the agent *)
  bootstrap_step : pyval → S → result unit * S;
  current_time_step : S → Z;
  (** [process_payload], with [estimate_next_event_time] after it *)
  process_payload : S → result pyval * S;
  sleep_steps_hint : S → result pyval;
  (** of an [int] *)
  wake_signal_for_step : Z → S → bool;
  (** [_shutdown], and [shutdown()] *)
  is_shutdown : S → bool;
  shutdown : S → S;
}.

(** What the protocol relies on: the step is entered, and the clock stays at it;
    an agent whose processing raises has not shut itself down. *)
Class AgentBodyLaws (S : Type) `{AgentBody S} : Prop := {
  bootstrap_spec t x : ∃ x', bootstrap_step (PInt t) x = (Ok tt, x') ∧ current_time_step x' = t ∧
    is_shutdown x' = is_shutdown x;
  process_time x : current_time_step (process_payload x).2 = current_time_step x;
  process_raise x e x' : process_payload x = (Raise e, x') → is_shutdown x = false → is_shutdown x' = false;
}.

(** A message of the scheduler: [action] and [time_step]. *)
Record control : Set := Control { c_action : option string; c_time_step : option pyval }.

Record surrounding : Set := Surrounding { broker_ok : bool; elapsed : float64 }.

Record agent (S : Type) : Type := Agent {
  unique_id : string;
  sleep_until_step : option wake;
  broadcast_subscribed : bool;
  app_topic : option string;
  message_processing_active : bool;
  last_message_time : float64;
  body : S;
}.
Arguments Agent {S}.
Arguments unique_id {S}.
Arguments sleep_until_step {S}.
Arguments broadcast_subscribed {S}.
Arguments app_topic {S}.
Arguments message_processing_active {S}.
Arguments last_message_time {S}.
Arguments body {S}.

Section Agents.
Context {S : Type} `{PyText} `{AgentBody S}.
Implicit Types g : agent S.

Definition with_body (x : S) g : agent S :=
  Agent (unique_id g) (sleep_until_step g) (broadcast_subscribed g) (app_topic g)
  (message_processing_active g) (last_message_time g) x.
Definition with_sleep (w : option wake) g : agent S :=
  Agent (unique_id g) w (broadcast_subscribed g) (app_topic g)
  (message_processing_active g) (last_message_time g) (body g).
Definition with_subscription (b : bool) g : agent S :=
  Agent (unique_id g) (sleep_until_step g) b (app_topic g)
  (message_processing_active g) (last_message_time g) (body g).
Definition with_processing (b : bool) g : agent S :=
  Agent (unique_id g) (sleep_until_step g) (broadcast_subscribed g) (app_topic g)
  b (last_message_time g) (body g).

(** [_resubscribe_broadcast]; a broker error is logged. *)
Definition resubscribe_broadcast (env : surrounding) g : agent S :=
  if negb (broadcast_subscribed g) && broker_ok env then with_subscription true g else g.

(** [_unsubscribe_broadcast] *)
Definition unsubscribe_broadcast (env : surrounding) g : agent S :=
  if broadcast_subscribed g && broker_ok env then with_subscription false g else g.

(** [time_step < self._sleep_until_step] *)
Definition before (t : Z) (w : wake) : bool :=
  match w with WakeAt z => (t <? z)%Z | Indefinite => true end.

(** [int(self.sleep_steps_hint() or 0)], [0] when that raises *)
Definition nap_request (x : S) : Z :=
  catch (v ← sleep_steps_hint x; py_int (py_or v (PInt 0))) 0%Z.

(** The reply to a step the agent went through, and the nap it announces. *)
Definition answer_step (env : surrounding) (did : pyval) g : reply * agent S :=
  let t := current_time_step (body g) in
  let r act k topic := Reply (unique_id g) (PInt t) (Some act) did (PFloat (elapsed env)) k topic in
  if is_shutdown (body g) then (r "shutdown" PNone PNone, g)
  else
  let k := nap_request (body g) in
  if (0 <? k)%Z then (r "completed" (PInt k) PNone, with_sleep (Some (WakeAt (t + k))) g)
  else if (k <? 0)%Z then
  (r "completed" (PInt (-1)) (match app_topic g with Some topic => PStr topic | None => PNone end),
   unsubscribe_broadcast env (with_sleep (Some Indefinite) g))
  else (r "completed" PNone PNone, g).

Definition error_reply (env : surrounding) g : reply :=
  Reply (unique_id g) (PInt (current_time_step (body g))) (Some "error") (PBool false)
  (PFloat (elapsed env)) PNone PNone.

(** The body of the [try] of [handle_orsim_agent_message]: the reply, if any. *)
Definition respond (env : surrounding) (c : control) g : option reply * agent S :=
  match c_time_step c with
  | Some t =>
      match bootstrap_step t (body g) with
      | (Raise _, x) => let g := with_body x g in (Some (error_reply env g), g)
      | (Ok _, x) =>
          let g := with_body x g in
          if bool_decide (c_action c = Some "step") then
            match process_payload x with
            | (Ok did, x) => let '(r, g) := answer_step env did (with_body x g) in (Some r, g)
            | (Raise _, x) => let g := with_body x g in (Some (error_reply env g), g)
            end
          else if bool_decide (c_action c = Some "init") then
            match process_payload x with
            | (Ok did, x) =>
                let g := with_body x g in
                (Some (Reply (unique_id g) (PInt (current_time_step x)) (Some "ready") did
                  (PFloat (elapsed env)) PNone PNone), g)
            | (Raise _, x) => let g := with_body x g in (Some (error_reply env g), g)
            end
          else if bool_decide (c_action c = Some "shutdown") then
            (Some (Reply (unique_id g) (PInt (current_time_step x)) (Some "shutdown") (PBool true)
              (PFloat (elapsed env)) PNone PNone), g)
          else (None, g)
      end
  | None => (Some (error_reply env g), g)
  end.

(** The sleep gate: a step broadcast that the agent swallows. *)
Definition swallows (c : control) g : bool :=
  match sleep_until_step g, c_time_step c ≫= as_int with
  | Some w, Some t => before t w && negb (wake_signal_for_step t (body g))
  | _, _ => false
  end.

(** [handle_orsim_agent_message] *)
Definition handle_orsim_agent_message (env : surrounding) (c : control) g : option reply * agent S :=
  let is_step := bool_decide (c_action c = Some "step") in
  if is_step && is_shutdown (body g) then (None, with_processing false g)
  else if is_step && swallows c g then
  let g := match sleep_until_step g with
         | Some Indefinite => unsubscribe_broadcast env g
         | _ => g
         end in
  (None, with_processing false g)
  else
  let g := if is_step then with_sleep None g else g in
  let '(r, g) := respond env c g in
  let g := if bool_decide (c_action c = Some "shutdown")
         then with_body (shutdown (body g)) g else g in
  (r, with_processing false g).

(** The wrapper of the app topic: a direct notice of the scheduler is treated as
a broadcast, anything else goes to the app ([inner]) and brings an agent in an
indefinite nap back into the broadcast. *)
Definition app_topic_handler (env : surrounding) (inner : S → S) (msg : option control) g : option reply * agent S :=
  match msg with
  | Some c => handle_orsim_agent_message env c (resubscribe_broadcast env g)
  | None =>
      let g := with_body (inner (body g)) g in
      (None, if bool_decide (is_Some (sleep_until_step g)) && negb (broadcast_subscribed g)
             then resubscribe_broadcast env g else g)
  end.

(** [handle_heartbeat_failure] after the base class's: refresh the liveness of a
sleeper half-way to the deadline, tear an orphan down past it. *)
Definition handle_heartbeat_failure (env : surrounding) (now orphan_timeout : float64) g : agent S :=
  let g :=
  if negb (is_shutdown (body g)) && bool_decide (is_Some (sleep_until_step g)) &&
   negb (broadcast_subscribed g) &&
   f_ltb (f_div orphan_timeout (f_of_Z 2)) (f_sub now (last_message_time g))
  then resubscribe_broadcast env g else g in
  if negb (is_shutdown (body g)) && f_ltb orphan_timeout (f_sub now (last_message_time g))
  then with_body (shutdown (body g)) g else g.
End Agents.

(** ** One agent and the ledger *)

Section Protocol.
Context {S : Type} `{PyText} `{AgentBody S} `{!AgentBodyLaws S}.
Implicit Types g : agent S.

Definition step_control (t : Z) : control := Control (Some "step") (Some (PInt t)).

(** The nap a reply to step [t] announces. *)
Definition nap_of (t : Z) (r : reply) : option wake :=
  match sleep_steps r with
  | PInt k => Some (if (k <? 0)%Z then Indefinite else WakeAt (t + k))
  | _ => None
  end.

(** A well-formed reply to step [t]: read by the scheduler, its nap a number. *)
Definition proper_reply (t : Z) (r : reply) : Prop :=
  time_step r = PInt t ∧
  (sleep_steps r = PNone ∨ ∃ k, sleep_steps r = PInt k ∧ k ≠ 0%Z).

Lemma proper_answers t r : proper_reply t r → answers t r = true.
Proof.
  intros [Ht Hs]. unfold answers, for_step, readable. rewrite Ht. 
  replace (py_eq (PInt t) (PInt (-1))) with (t =? -1)%Z by done.
  assert (py_eq (if (t =? -1)%Z then PInt t else PInt t) (PInt t) = true) as ->.
  { case_match; simpl; by rewrite Z.eqb_refl. }
  destruct Hs as [->|(k & -> & _)]; simpl; [done|]. by case_match.
Qed.

Lemma unsubscribe_frame env g :
  unique_id (unsubscribe_broadcast env g) = unique_id g ∧
  sleep_until_step (unsubscribe_broadcast env g) = sleep_until_step g ∧
  body (unsubscribe_broadcast env g) = body g.
Proof. unfold unsubscribe_broadcast. by case_match. Qed.

Lemma resubscribe_frame env g :
  unique_id (resubscribe_broadcast env g) = unique_id g ∧
  sleep_until_step (resubscribe_broadcast env g) = sleep_until_step g ∧
  body (resubscribe_broadcast env g) = body g ∧
  (broadcast_subscribed g = true → broadcast_subscribed (resubscribe_broadcast env g) = true).
Proof. unfold resubscribe_broadcast. by repeat case_match. Qed.

(** What an agent does with a broadcast it does not swallow. *)
Lemma handle_step env t g :
  is_shutdown (body g) = false → swallows (step_control t) g = false →
  ∃ r g', handle_orsim_agent_message env (step_control t) g = (Some r, g') ∧
  agent_id r = unique_id g ∧ unique_id g' = unique_id g ∧ proper_reply t r ∧
  (action r = Some "shutdown" ↔ is_shutdown (body g') = true) ∧
  sleep_until_step g' = nap_of t r ∧
  (broadcast_subscribed g = true → sleep_until_step g' ≠ Some Indefinite → broadcast_subscribed g' = true).
Proof.
  intros Hsh Hsw. unfold handle_orsim_agent_message. rewrite Hsh, Hsw. simpl.
  unfold respond. simpl. destruct (bootstrap_spec t (body g)) as (x & -> & Htx & Hshx). simpl.
  pose proof (process_time x) as Hpt. pose proof (process_raise x) as Hpr.
  destruct (process_payload x) as [[did|e] x'].
  - simpl in Hpt. unfold answer_step; simpl. destruct (is_shutdown x') eqn:Es; simpl.
  + eexists _, _. split; [done|]. split_and!; try done. split; simpl; [congruence|by left].
  + destruct (0 <? nap_request x')%Z eqn:E1; [|destruct (nap_request x' <? 0)%Z eqn:E2]; simpl.
  * bools. eexists _, _. split; [done|]. split_and!; try done; simpl.
  -- split; simpl; [congruence|right; eexists; split; [done|lia]].
  -- split; [discriminate|congruence].
  -- unfold nap_of; simpl. destruct (Z.ltb_spec (nap_request x') 0); [lia|]. by rewrite Hpt, Htx.
  * eexists _, _. split; [done|]. simpl.
  destruct (unsubscribe_frame env (with_sleep (Some Indefinite) (with_body x' (with_body x (with_sleep None g)))))
  as (-> & -> & ->). simpl. split_and!; try done.
  -- split; simpl; [congruence|right; eexists; split; [done|lia]].
  -- split; [discriminate|congruence].
  * eexists _, _. split; [done|]. split_and!; try done; simpl.
  -- split; simpl; [congruence|by left].
  -- split; [discriminate|congruence].
  - simpl in Hpt. eexists _, _. split; [done|]. split_and!; try done; simpl.
  + split; simpl; [congruence|by left].
  + rewrite (Hpr e x'); [|done|congruence]. split; discriminate.
Qed.

(** A broadcast that is swallowed changes the subscription at most. *)
Lemma handle_swallowed env t g :
  is_shutdown (body g) = false → swallows (step_control t) g = true →
  ∃ g', handle_orsim_agent_message env (step_control t) g = (None, g') ∧ unique_id g' = unique_id g ∧
  body g' = body g ∧ sleep_until_step g' = sleep_until_step g ∧
  (sleep_until_step g ≠ Some Indefinite → broadcast_subscribed g' = broadcast_subscribed g) ∧
  ∃ w, sleep_until_step g = Some w ∧ wake_leb w t = false.
Proof.
  intros Hsh Hsw. unfold handle_orsim_agent_message. rewrite Hsh, Hsw. simpl.
  unfold swallows in Hsw. destruct (sleep_until_step g) as [w|] eqn:Ew; [|done]. simpl in Hsw.
  apply andb_true_iff in Hsw as [Hb _].
  assert (wake_leb w t = false) as Hw by (destruct w; simpl in *; bools; lia).
  destruct w.
  - eexists. split; [done|]. split_and!; try done. by exists (WakeAt step).
  - eexists. split; [done|]. destruct (unsubscribe_frame env g) as (E1 & E2 & E3).
  split_and!; simpl; [done..|congruence| |by exists Indefinite]; done.
Qed.

(** A shut-down agent ignores broadcasts. *)
Lemma handle_zombie env t g :
  is_shutdown (body g) = true →
  handle_orsim_agent_message env (step_control t) g = (None, with_processing false g).
Proof. intros Hsh. unfold handle_orsim_agent_message. by rewrite Hsh. Qed.

Context `{OrsimScheduler} `{SetOrder}.

Lemma proper_response_time s r t : time s = t → proper_reply t r → response_time_step r s = PInt t.
Proof. intros Es [Ht _]. unfold response_time_step. rewrite Ht, Es. by case_match. Qed.

(** The ledger takes over the nap a reply announces. *)
Lemma deliver_nap s r t :
  time s = t → proper_reply t r →
  sleeping_until (naps (deliver s r)) !! agent_id r = nap_of t r.
Proof.
  intros Es Hr. rewrite deliver_naps, (proper_response_time s r t Es Hr).
  destruct Hr as [_ Hs]. unfold note_sleep, nap_of.
  destruct Hs as [->|(k & -> & Hk)]; cbn [truth py_int].
  - case_bool_decide as Hd; simpl; [by rewrite lookup_delete_eq|]. by apply eq_None_not_Some.
  - destruct (Z.eqb_spec k 0); [done|]. cbn [negb mbind result_bind catch as_int default].
  destruct (k <? 0)%Z; simpl; by rewrite lookup_insert_eq.
Qed.

(** An agent's reply reaches its entry. *)
Lemma deliver_entry s r e :
  agent_collection s !! agent_id r = Some e →
  agent_collection (deliver s r) !! agent_id r = Some (note_response r (response_time_step r s) e).
Proof.
  intros He. rewrite deliver_agents. unfold record_response, find_entry. rewrite He. simpl.
  by rewrite lookup_insert_eq.
Qed.
End Protocol.

(** ** A scheduler and its agents *)

Section System.
Context {S : Type} `{PyText} `{AgentBody S} `{!AgentBodyLaws S}.
Context `{OrsimScheduler} `{SetOrder} `{!OrsimSchedulerLaws} `{!SetOrderLaws}.
Implicit Types g : agent S.

Record system : Type := System { sch : sched; fleet : gmap string (agent S) }.

(** A broadcast reaches the agents that are subscribed. *)
Definition hear (envs : string → surrounding) (t : Z) (a : string) g : option reply * agent S :=
  if broadcast_subscribed g then handle_orsim_agent_message (envs a) (step_control t) g else (None, g).

Definition replies (envs : string → surrounding) (t : Z) (f : gmap string (agent S)) : list reply :=
  omap (λ p, (hear envs t p.1 p.2).1) (map_to_list f).

Definition fleet_after (envs : string → surrounding) (t : Z) (f : gmap string (agent S)) : gmap string (agent S) :=
  map_imap (λ a g, Some (hear envs t a g).2) f.

(** The moments of a run: an agent is launched, boots (from then on it hears the
broadcasts), gets a message on its app topic; or the scheduler makes a step in
which all replies arrive in time, in any order. *)
Inductive sys_step (cfg : settings) : system → system → Prop :=
| Launch s f a kw sp p c : agent_collection s !! a = None → f !! a = None →
sys_step cfg (System s f) (System (add_agent a kw sp p c s) f)
| Boot s f a g : is_Some (agent_collection s !! a) → f !! a = None → unique_id g = a →
sleep_until_step g = None → broadcast_subscribed g = true → is_shutdown (body g) = false →
sys_step cfg (System s f) (System s (<[a := g]> f))
| Event s f a g env inner : f !! a = Some g →
is_shutdown (inner (body g)) = is_shutdown (body g) →
sys_step cfg (System s f) (System s (<[a := (app_topic_handler env inner None g).2]> f))
| Round s f envs rs waited : rs ≡ₚ replies envs (time s) f →
sys_step cfg (System s f)
  (System (step cfg false (Surroundings [(rs, waited)] []) s).2 (fleet_after envs (time s) f)).

(** An agent and the scheduler see its nap alike. *)
Definition agrees (s : sched) (a : string) g : Prop :=
  unique_id g = a ∧ is_shutdown (body g) = false ∧
  sleeping_until (naps s) !! a = sleep_until_step g ∧
  (sleep_until_step g ≠ Some Indefinite → broadcast_subscribed g = true).

Record sys_ok (x : system) : Prop := {
  sys_booted a e : agent_collection (sch x) !! a = Some e → pending_boot e = false → is_Some (fleet x !! a);
  sys_agree a g : fleet x !! a = Some g →
  is_Some (agent_collection (sch x) !! a) ∧ agrees (sch x) a g ∨
  agent_collection (sch x) !! a = None ∧ unique_id g = a ∧ is_shutdown (body g) = true;
  sys_naps a : is_Some (sleeping_until (naps (sch x)) !! a) → is_Some (fleet x !! a);
  sys_stash : pruned_stash (sch x) = [];
}.

(** *** The replies to a broadcast *)

Section Broadcast.
Context (envs : string → surrounding) (s : sched) (f : gmap string (agent S)).
Context (Hok : sys_ok (System s f)).
Abbreviation t := (time s).

Lemma hear_id a g : f !! a = Some g → unique_id g = a.
Proof. intros [(_ & ? & _)|(_ & ? & _)]%(sys_agree _ Hok); done. Qed.

(** Each agent that is not shut down answers, or is in a nap that goes on. *)
Lemma hear_spec a g :
  f !! a = Some g → is_shutdown (body g) = false →
  let '(r, g') := hear envs t a g in
  unique_id g' = a ∧
  match r with
  | Some r => agent_id r = a ∧ proper_reply t r ∧ (action r = Some "shutdown" ↔ is_shutdown (body g') = true) ∧
  sleep_until_step g' = nap_of t r ∧ (sleep_until_step g' ≠ Some Indefinite → broadcast_subscribed g' = true)
  | None => is_shutdown (body g') = false ∧ sleep_until_step g' = sleep_until_step g ∧
  (sleep_until_step g ≠ Some Indefinite → broadcast_subscribed g' = true) ∧
  ∃ w, sleep_until_step g = Some w ∧ wake_leb w t = false
  end.
Proof.
  intros Hg Hsh. pose proof (hear_id a g Hg) as Hid.
  destruct (sys_agree _ Hok a g Hg) as [(_ & _ & _ & _ & Hsub)|(_ & _ & ?)]; [|congruence].
  unfold hear. destruct (broadcast_subscribed g) eqn:Eb.
  - destruct (swallows (step_control t) g) eqn:Esw.
  + destruct (handle_swallowed (envs a) t g Hsh Esw) as (g' & -> & Hid' & Hb & Hsl & Hs & Hw).
  split; [congruence|]. split_and!; [congruence|done| |done]. intros Hne. rewrite Hs; done.
  + destruct (handle_step (envs a) t g Hsh Esw) as (r & g' & -> & Hr & Hid' & Hp & Hact & Hsl & Hs).
  split; [congruence|]. refine (conj _ (conj Hp (conj Hact (conj Hsl _)))); [congruence|exact (Hs Eb)].
  - assert (sleep_until_step g = Some Indefinite) as ->.
  { destruct (sleep_until_step g) as [[z|]|]; [by discriminate Hsub|done|by discriminate Hsub]. }
  split; [done|]. split_and!; [done..|]. by exists Indefinite.
Qed.

Lemma hear_zombie a g : is_shutdown (body g) = true →
  (hear envs t a g).1 = None ∧ is_shutdown (body (hear envs t a g).2) = true ∧
  unique_id (hear envs t a g).2 = unique_id g.
Proof. intros Hsh. unfold hear. rewrite handle_zombie by done. by case_match. Qed.

Lemma hear_reply_id a g r : f !! a = Some g → (hear envs t a g).1 = Some r → agent_id r = a.
Proof.
  intros Hg Hr. destruct (is_shutdown (body g)) eqn:Es.
  - destruct (hear_zombie a g Es) as [E _]. congruence.
  - pose proof (hear_spec a g Hg Es) as Hs. destruct (hear envs t a g) as [r' g']. simpl in Hr. subst r'.
  apply Hs.
Qed.

Lemma elem_of_replies r :
  r ∈ replies envs t f ↔ ∃ a g, f !! a = Some g ∧ (hear envs t a g).1 = Some r.
Proof.
  unfold replies. rewrite list_elem_of_omap. split.
  - intros ([a g] & Hin%elem_of_map_to_list & Hr). eauto.
  - intros (a & g & Hin & Hr). exists (a, g). split; [by apply elem_of_map_to_list|done].
Qed.

(** At most one reply per agent. *)
Lemma replies_ids : NoDup (map agent_id (replies envs t f)).
Proof.
  unfold replies. assert (∀ p, p ∈ map_to_list f → f !! p.1 = Some p.2) as Hl.
  { intros [a g] Hin. by apply elem_of_map_to_list in Hin. }
  pose proof (NoDup_fst_map_to_list f) as Hnd. revert Hl Hnd. generalize (map_to_list f).
  induction l as [|[a g] l IH]; intros Hl Hnd; [constructor|].
  apply NoDup_cons in Hnd as [Hni Hnd]. simpl in *.
  assert (NoDup (map agent_id (omap (λ p, (hear envs t p.1 p.2).1) l))) as IHl.
  { apply IH; [|done]. intros p Hp. apply Hl. by right. }
  destruct (hear envs t a g).1 as [r|] eqn:Er; [|done]. simpl. apply NoDup_cons. split; [|done].
  rewrite (hear_reply_id a g r); [|apply (Hl (a, g)); by left|done].
  intros (r' & E & Hr')%list_elem_of_fmap. apply list_elem_of_omap in Hr' as ([a' g'] & Hin & Hr').
  simpl in Hr'. apply (hear_reply_id a' g' r') in Hr'; [|apply (Hl (a', g')); by right].
  apply Hni. apply list_elem_of_fmap. exists (a', g'). simpl. split; [congruence|done].
Qed.

Context (rs : list reply) (Hrs : rs ≡ₚ replies envs t f).

Lemma rs_split a g r :
  f !! a = Some g → (hear envs t a g).1 = Some r →
  ∃ l1 l2, rs = l1 ++ r :: l2 ∧ (∀ r', r' ∈ l1 ∨ r' ∈ l2 → agent_id r' ≠ a).
Proof.
  intros Hg Hr. assert (r ∈ rs) as Hin by (rewrite Hrs; apply elem_of_replies; eauto).
  apply list_elem_of_split in Hin as (l1 & l2 & Heq). exists l1, l2. split; [done|].
  assert (NoDup (map agent_id rs)) as Hnd.
  { rewrite (Permutation_map agent_id Hrs). apply replies_ids. }
  rewrite Heq, map_app in Hnd. simpl in Hnd. apply NoDup_app in Hnd as (_ & Hd & Hnd).
  apply NoDup_cons in Hnd as [Hni _]. rewrite (hear_reply_id a g r Hg Hr) in Hd, Hni.
  intros r' [Hr'|Hr'] E.
  - apply (Hd a); [|by left]. rewrite <-E. by apply list_elem_of_fmap_2.
  - apply Hni. rewrite <-E. by apply list_elem_of_fmap_2.
Qed.

Lemma rs_other a r :
  (∀ g, f !! a = Some g → (hear envs t a g).1 = None) → r ∈ rs → agent_id r ≠ a.
Proof.
  intros Hno Hin E. rewrite Hrs in Hin. apply elem_of_replies in Hin as (a' & g & Hg & Hr).
  rewrite (hear_reply_id a' g r Hg Hr) in E. subst a'. rewrite (Hno g Hg) in Hr. done.
Qed.

(** *** After the replies *)

Definition answered_state : sched := deliver_all (open_step false s) rs.

Lemma about_silent_agent a :
  (∀ g, f !! a = Some g → (hear envs t a g).1 = None) →
  about answered_state a = about (open_step false s) a ∧ a ∉ shutdown_replied (bar answered_state).
Proof.
  intros Hno. split.
  - apply deliver_all_other. intros r. by apply rs_other.
  - unfold answered_state. rewrite deliver_all_shutdown. intros [Hin|(r & Hr & E & _)].
  + simpl in Hin. set_solver.
  + by apply (rs_other a r Hno Hr).
Qed.

Lemma about_answering_agent a g e r :
  f !! a = Some g → (hear envs t a g).1 = Some r → proper_reply t r →
  agent_collection s !! a = Some e →
  agent_collection answered_state !! a = Some (note_response r (PInt t) e) ∧
  sleeping_until (naps answered_state) !! a = nap_of t r ∧
  (a ∈ expected_this_step (bar answered_state) → a ∈ responded_this_step (bar answered_state)) ∧
  (a ∈ shutdown_replied (bar answered_state) ↔ action r = Some "shutdown").
Proof.
  intros Hg Hr Hp He. pose proof (hear_reply_id a g r Hg Hr) as Hid.
  destruct (rs_split a g r Hg Hr) as (l1 & l2 & Heq & Hl).
  set (sx := deliver_all (open_step false s) l1).
  assert (time sx = t) as Htx by (unfold sx; by rewrite deliver_all_time).
  assert (about answered_state a = about (deliver sx r) a) as Hab.
  { unfold answered_state. rewrite Heq, foldl_app. simpl. apply deliver_all_other. auto. }
  assert (agent_collection sx !! a = Some e) as Hex.
  { assert (about sx a = about (open_step false s) a) as Hx by (apply deliver_all_other; auto).
  rewrite about_open in Hx. by destruct (about_inv _ _ _ _ _ Hx) as (-> & _). }
  pose proof (deliver_nap sx r t Htx Hp) as Hnap. rewrite Hid in Hnap.
  pose proof (deliver_entry sx r e) as Hent. rewrite Hid in Hent. specialize (Hent Hex).
  rewrite (proper_response_time sx r t Htx Hp) in Hent.
  unfold about in Hab at 2. rewrite Hnap, Hent in Hab.
  destruct (about_inv _ _ _ _ _ Hab) as (Ha & Hn & _). split; [done|]. split; [done|]. split; [|split].
  - unfold answered_state. rewrite deliver_all_expected, deliver_all_responded. intros Hin.
  right. split; [done|]. exists r. split_and!; [rewrite Heq; set_solver|done|]. by apply proper_answers.
  - unfold answered_state. rewrite deliver_all_shutdown. intros [Hin|(r' & Hr' & E & _ & Hs)]; [simpl in Hin; set_solver|].
  rewrite Heq in Hr'. apply elem_of_app in Hr' as [Hr'|Hr']; [by destruct (Hl r' (or_introl Hr'))|].
  apply elem_of_cons in Hr' as [->|Hr']; [done|by destruct (Hl r' (or_intror Hr'))].
  - intros Hs. unfold answered_state. rewrite deliver_all_shutdown. right. exists r.
  split_and!; [rewrite Heq; set_solver|done|by apply proper_answers|done].
Qed.

(** Everyone who is waited for has answered. *)
Lemma nobody_silent : silent answered_state = ∅.
Proof.
  apply leibniz_equiv. intros a. split; [|set_solver]. unfold silent.
  rewrite elem_of_difference. intros [Hex Hnr]. exfalso.
  pose proof Hex as Hex'. unfold answered_state in Hex'. rewrite deliver_all_expected in Hex'.
  apply expected_open in Hex' as (e & He & Hpend & Hwake).
  destruct (sys_booted _ Hok a e He Hpend) as [g Hg]. simpl in Hg.
  destruct (sys_agree _ Hok a g Hg) as [(_ & Hid & Hsh & Hsl & Hsub)|[E _]]; simpl in *; [|congruence].
  pose proof (hear_spec a g Hg Hsh) as Hs. destruct (hear envs t a g) as [r g'] eqn:Eh.
  destruct Hs as [_ Hs]. destruct r as [r|].
  - destruct Hs as (_ & Hp & _). destruct (about_answering_agent a g e r Hg) as (_ & _ & Hin & _); [by rewrite Eh|done..|].
  set_solver.
  - destruct Hs as (_ & _ & _ & w & Hw & Hlt). rewrite Hw in Hsl. rewrite (Hwake w Hsl) in Hlt. done.
Qed.

Lemma reap_agent_none s0 b : reap_agent ∅ s0 b =
  match agent_collection s0 !! b with Some _ => remove_agent b s0 | None => s0 end.
Proof. unfold reap_agent. destruct (agent_collection s0 !! b); [|done]. by rewrite decide_False by set_solver. Qed.

Lemma reap_loop_none todo s0 a :
  pruned_stash (reap_loop ∅ todo [] s0) = pruned_stash s0 ∧
  (a ∉ todo → about (reap_loop ∅ todo [] s0) a = about s0 a) ∧
  (a ∈ todo → agent_collection (reap_loop ∅ todo [] s0) !! a = None).
Proof.
  split_and!.
  - revert s0. induction todo as [|b todo IH]; intros s0; simpl; [done|]. rewrite IH, reap_agent_none. by case_match.
  - revert s0. induction todo as [|b todo IH]; intros s0 Hni; simpl; [done|].
  apply not_elem_of_cons in Hni as [Hne Hni]. rewrite IH, reap_agent_none by done.
  case_match; [by rewrite remove_agent_other|done].
  - intros Hin. rewrite reap_loop_agents. apply map_lookup_filter_None. right. intros e _. simpl. tauto.
Qed.

(** The step is clean, and removes those that said they shut down. *)
Lemma round_step cfg waited :
  ALLOW_POST_HORIZON_DRAIN cfg = true →
  ∃ s', step cfg false (Surroundings [(rs, waited)] []) s = (Ok false, s') ∧
    consecutive_step_timeouts s' = 0%Z ∧ pruned_stash s' = pruned_stash answered_state ∧
    (∀ a, a ∉ shutdown_replied (bar answered_state) → about s' a = about answered_state a) ∧
    (∀ a, a ∈ shutdown_replied (bar answered_state) → agent_collection s' !! a = None).
Proof.
  intros Hdrain. pose proof nobody_silent as Hsil.
  assert (outstanding (bar answered_state) ≤ 0)%Z as Hout.
  { destruct (deliver_all_barrier_ok (open_step false s) rs) as [_ Ho _ _]; [apply (begin_step_barrier_ok s)|].
  fold answered_state in Ho. rewrite Ho. change (_ ∖ _) with (silent answered_state).
  rewrite Hsil, size_empty. lia. }
  set (s1 := with_timeouts 0 (update_agent_stat answered_state)).
  exists (close_step false [] s1). split_and!.
  - unfold step, resolve_final. rewrite Hdrain. cbn -[close_step open_step done]. fold answered_state.
  unfold done at 1. rewrite (proj2 (Z.leb_le _ _) Hout). done.
  - by rewrite close_step_streak.
  - change (silent s1) with (silent answered_state) in *. unfold close_step, reap. simpl.
  change (silent s1) with (silent answered_state). rewrite Hsil.
  by rewrite (proj1 (reap_loop_none _ s1 "")).
  - intros a Ha. rewrite about_close. unfold reap. change (silent s1) with (silent answered_state).
  rewrite Hsil. rewrite (proj1 (proj2 (reap_loop_none _ s1 a))); [done|]. rewrite elem_of_iter_set. set_solver.
  - intros a Ha. unfold close_step, reap. simpl. change (silent s1) with (silent answered_state).
  rewrite Hsil. apply (proj2 (proj2 (reap_loop_none _ s1 a))). rewrite elem_of_iter_set. set_solver.
Qed.

(** The naps and the registrations agree again after the step. *)
Lemma round_ok cfg waited :
  ALLOW_POST_HORIZON_DRAIN cfg = true →
  sys_ok (System (step cfg false (Surroundings [(rs, waited)] []) s).2 (fleet_after envs t f)).
Proof.
  intros Hdrain. destruct (round_step cfg waited Hdrain) as (s' & -> & _ & Hst & Hkeep & Hgone). simpl.
  assert (∀ a, fleet_after envs t f !! a = (λ g, (hear envs t a g).2) <$> f !! a) as Hf.
  { intros a. unfold fleet_after. rewrite map_lookup_imap. by destruct (f !! a). }
  assert (∀ a, (∀ g, f !! a = Some g → (hear envs t a g).1 = None) →
  about s' a = (agent_collection s !! a, if expired s a then None else sleeping_until (naps s) !! a,
    d_get (pruned_stash s) a)) as Hquiet.
  { intros a Hno. destruct (about_silent_agent a Hno) as [Hab Hsh]. rewrite Hkeep, Hab by done. apply about_open. }
  split; simpl.
  - intros a e He Hp. rewrite Hf. destruct (f !! a) as [g|] eqn:Hg; [by eexists|].
  pose proof (Hquiet a ltac:(congruence)) as Hab. destruct (about_inv _ _ _ _ _ Hab) as (Ha & _).
  rewrite He in Ha. destruct (sys_booted _ Hok a e (eq_sym Ha) Hp) as [g Hg']. simpl in Hg'. congruence.
  - intros a g'. rewrite Hf. destruct (f !! a) as [g|] eqn:Hg; simpl; [|done]. intros [= <-].
  destruct (sys_agree _ Hok a g Hg) as [([e He] & Hid & Hsh & Hsl & Hsub)|(Hno & Hid & Hsh)]; simpl in *.
  + pose proof (hear_spec a g Hg Hsh) as Hs. destruct (hear envs t a g) as [r g'] eqn:Eh. simpl.
  destruct Hs as [Hid' Hs]. destruct r as [r|].
  * destruct Hs as (Hr & Hp & Hact & Hsl' & Hsub').
  destruct (about_answering_agent a g e r Hg) as (Ha & Hn & _ & Hshut); [by rewrite Eh|done..|].
  destruct (is_shutdown (body g')) eqn:Es'.
  -- right. split; [|done]. apply Hgone, Hshut. by apply Hact.
  -- left. assert (about s' a = about answered_state a) as Hab.
  { apply Hkeep. intros Hin%Hshut%Hact. congruence. }
  unfold about in Hab at 2. rewrite Ha, Hn in Hab.
  destruct (about_inv _ _ _ _ _ Hab) as (Ha' & Hn' & _). split; [by eexists|].
  split; [done|]. split; [done|]. split; [congruence|done].
  * destruct Hs as (Hsh' & Hsl' & Hsub' & w & Hw & Hlt). left.
  pose proof (Hquiet a ltac:(intros; simplify_eq; by rewrite Eh)) as Hab.
  assert (expired s a = false) as Hex by (unfold expired; by rewrite Hsl, Hw).
  rewrite Hex, He in Hab. destruct (about_inv _ _ _ _ _ Hab) as (Ha' & Hn' & _).
  split; [by eexists|]. split; [done|]. split; [done|]. split; [congruence|]. rewrite Hsl'. done.
  + right. destruct (hear_zombie a g Hsh) as (Hr & Hsh' & Hid'). split; [|by rewrite Hid'].
  pose proof (Hquiet a ltac:(intros; by simplify_eq)) as Hab. rewrite Hno in Hab.
  by destruct (about_inv _ _ _ _ _ Hab) as (Ha & _).
  - intros a Hs. rewrite Hf. destruct (f !! a) as [g|] eqn:Hg; [by eexists|].
  pose proof (Hquiet a ltac:(congruence)) as Hab. destruct (about_inv _ _ _ _ _ Hab) as (_ & Hn & _).
  rewrite Hn in Hs. destruct (expired s a); [by destruct Hs|].
  destruct (sys_naps _ Hok a Hs) as [g Hg']. simpl in Hg'. congruence.
  - rewrite Hst. assert (∀ l s0, pruned_stash s0 = [] → pruned_stash (deliver_all s0 l) = []) as Hd.
  { intros l s0 Hs0. apply (foldl_invariant _ (λ x, pruned_stash x = [])); [|done].
  intros x r _ Hx. rewrite deliver_stash. unfold record_response, find_entry.
  destruct (agent_collection x !! agent_id r); [done|]. rewrite Hx. by destruct (_ || _). }
  apply Hd. apply (sys_stash _ Hok).
Qed.

(** An agent that leaves the collection in the step has shut itself down. *)
Lemma round_leavers cfg waited a e :
  ALLOW_POST_HORIZON_DRAIN cfg = true → agent_collection s !! a = Some e →
  agent_collection (step cfg false (Surroundings [(rs, waited)] []) s).2 !! a = None →
  ∃ g, fleet_after envs t f !! a = Some g ∧ is_shutdown (body g) = true.
Proof.
  intros Hdrain He Hnone. destruct (round_step cfg waited Hdrain) as (s' & E & _ & _ & Hkeep & _).
  rewrite E in Hnone. simpl in Hnone. unfold fleet_after. rewrite map_lookup_imap.
  destruct (f !! a) as [g|] eqn:Hg.
  - simpl. exists (hear envs t a g).2. split; [done|].
  destruct (sys_agree _ Hok a g Hg) as [(_ & Hid & Hsh & Hsl & Hsub)|(Hno & _)]; simpl in *; [|congruence].
  pose proof (hear_spec a g Hg Hsh) as Hs. destruct (hear envs t a g) as [r g'] eqn:Eh. simpl.
  destruct Hs as [_ Hs]. destruct r as [r|].
  + destruct Hs as (Hr & Hp & Hact & _). apply Hact.
  destruct (about_answering_agent a g e r Hg) as (Ha & _ & _ & Hshut); [by rewrite Eh|done..|].
  apply Hshut. apply dec_stable. intros Hni. pose proof (Hkeep a Hni) as Hab.
  unfold about in Hab at 2. rewrite Ha in Hab. destruct (about_inv _ _ _ _ _ Hab) as (Ha' & _). congruence.
  + exfalso. destruct (about_silent_agent a) as [Hab Hni]; [intros; simplify_eq; by rewrite Eh|].
  rewrite <-Hkeep, about_open in Hab by done. destruct (about_inv _ _ _ _ _ Hab) as (Ha' & _). congruence.
  - exfalso. destruct (about_silent_agent a) as [Hab Hni]; [congruence|].
  rewrite <-Hkeep, about_open in Hab by done. destruct (about_inv _ _ _ _ _ Hab) as (Ha' & _). congruence.
Qed.
End Broadcast.

(** *** Runs *)

Lemma app_topic_frame env inner g :
  unique_id (app_topic_handler env inner None g).2 = unique_id g ∧
  sleep_until_step (app_topic_handler env inner None g).2 = sleep_until_step g ∧
  body (app_topic_handler env inner None g).2 = inner (body g) ∧
  (broadcast_subscribed g = true → broadcast_subscribed (app_topic_handler env inner None g).2 = true).
Proof.
  unfold app_topic_handler. simpl. case_match; [|done].
  destruct (resubscribe_frame env (with_body (inner (body g)) g)) as (-> & -> & -> & Hs). done.
Qed.

Lemma sys_step_ok cfg x y :
  ALLOW_POST_HORIZON_DRAIN cfg = true → sys_ok x → sys_step cfg x y → sys_ok y.
Proof.
  intros Hdrain Hok Hstep. destruct Hstep as [s f a kw sp p c Ha Hf|s f a g Ha Hf Hid Hsl Hsub Hsh|
  s f a g env inner Hf Hsh|s f envs rs waited Hrs]; [| | |by apply round_ok];
  destruct Hok as [Hb Hg Hn Hs]; cbn [sch fleet] in *; split; cbn [sch fleet]; try done.
  - intros a' e'. simpl. destruct (decide (a = a')) as [<-|Hne].
  + rewrite lookup_insert_eq. intros [= <-]. done.
  + rewrite lookup_insert_ne by done. apply Hb.
  - intros a' g Hg'. simpl. assert (a ≠ a') as Hne by congruence. rewrite lookup_insert_ne by done.
  destruct (Hg a' g Hg') as [[He Hag]|?]; [by left|by right].
  - intros a' e' He Hp. destruct (decide (a = a')) as [<-|Hne];
  [rewrite lookup_insert_eq; eauto|rewrite lookup_insert_ne by done; eauto].
  - intros a' g'. destruct (decide (a = a')) as [<-|Hne].
  + rewrite lookup_insert_eq. intros [= <-]. left. split; [done|]. split; [done|]. split; [done|]. split; [|done].
  rewrite Hsl. destruct (sleeping_until (naps s) !! a) eqn:E; [|done].
  destruct (Hn a) as [? ?]; [by eexists|]. congruence.
  + rewrite lookup_insert_ne by done. apply Hg.
  - intros a' [g' Hg']%Hn. destruct (decide (a = a')) as [<-|Hne];
  [rewrite lookup_insert_eq; eauto|rewrite lookup_insert_ne by done; eauto].
  - intros a' e' He Hp. destruct (decide (a = a')) as [<-|Hne];
  [rewrite lookup_insert_eq; eauto|rewrite lookup_insert_ne by done; eauto].
  - destruct (app_topic_frame env inner g) as (Eid & Esl & Ebody & Esub).
  intros a' g'. destruct (decide (a = a')) as [<-|Hne]; [|rewrite lookup_insert_ne by done; apply Hg].
  rewrite lookup_insert_eq. intros Heq%(inj Some). subst g'. unfold agrees. rewrite Eid, Esl, Ebody, Hsh.
  destruct (Hg a g Hf) as [(He & Hid & Hsh' & Hsl & Hsub)|(He & Hid & Hsh')]; [left|by right].
  split; [done|]. split_and!; [done..|]. auto.
  - intros a' [g' Hg']%Hn. destruct (decide (a = a')) as [<-|Hne];
  [rewrite lookup_insert_eq; eauto|rewrite lookup_insert_ne by done; eauto].
Qed.

Lemma new_system_ok t0 : sys_ok (System (new_sched t0) ∅).
Proof.
  split; simpl; [done|done| |done]. intros a [w Hw]. done.
Qed.

End System.

(** ** Order agents *)

Section OrderAgent.

(** The settings an order agent reads, with their defaults. *)
Record order_settings : Set := OrderSettings {
  UNASSIGNED_ORDER_MAX_WAIT_STEPS : Z;
  UNASSIGNED_ORDER_SLEEP_STEPS : Z;
  HORIZON_STEPS : Z;
  POST_HORIZON_GRACE_STEPS : Z;
}.

(** What its hooks look at: [state] is the one [app.manager.as_dict()] reports
(the call may raise), [None] without an app. *)
Record order_view : Type := OrderView {
  active : bool;
  queue_empty : bool;
  state : option (result pyval);
  request_time_step : Z;
  order_time_step : Z;
}.

Context (cfg : order_settings).

(** [wake_signal] *)
Definition wake_signal (o : order_view) : bool :=
  bool_decide (is_Some (state o)) && negb (queue_empty o).

(** [_unassigned_overdue] *)
Definition unassigned_overdue (time_step : Z) (o : order_view) : bool :=
  if (UNASSIGNED_ORDER_MAX_WAIT_STEPS cfg <=? 0)%Z then false
  else if (time_step - request_time_step o <=? UNASSIGNED_ORDER_MAX_WAIT_STEPS cfg)%Z then false
  else match state o with
   | Some (Ok v) => py_eq v (PStr "unassigned")
   | _ => false
   end.

(** [OrderAgent.wake_signal_for_step] *)
Definition order_wake_signal_for_step (time_step : Z) (o : order_view) : bool :=
  wake_signal o || unassigned_overdue time_step o.

(** [OrderAgent.sleep_steps_hint] *)
Definition order_sleep_steps_hint (o : order_view) : Z :=
  if negb (active o) then 0
  else match state o with
   | None => 0
   | Some st =>
       if negb (queue_empty o) then 0
       else match st with
            | Raise _ => 0
            | Ok v =>
                if py_in v [PStr "completed"; PStr "cancelled"] then 0
                else if negb (py_eq v (PStr "unassigned")) then -1
                else
                  let sleep_steps := UNASSIGNED_ORDER_SLEEP_STEPS cfg in
                  if (sleep_steps <? 0)%Z then -1
                  else Z.max 0 (if (HORIZON_STEPS cfg =? 0)%Z then sleep_steps
                                else Z.min sleep_steps (HORIZON_STEPS cfg - order_time_step o))
            end
   end%Z.

(** How an order leaves the market. *)
Inductive exit : Set := Stay | Leave | CancelAndLeave.

(** [exiting_market] *)
Definition exiting_market (o : order_view) : exit :=
  match state o with
  | Some (Ok v) =>
      if py_in v [PStr "completed"; PStr "cancelled"] then Leave
      else if py_eq v (PStr "unassigned") && unassigned_overdue (order_time_step o) o then CancelAndLeave
      else if (HORIZON_STEPS cfg =? 0)%Z then Stay
      else if (HORIZON_STEPS cfg <=? order_time_step o)%Z && py_in v [PStr "created"; PStr "unassigned"] then Leave
      else if (HORIZON_STEPS cfg + POST_HORIZON_GRACE_STEPS cfg <=? order_time_step o)%Z then Leave
      else Stay
  | _ => Stay
  end.

(** The naps of an order are safe.  It naps only while it is live, has no event
queued and is in no final state; a timed nap is for an unassigned order and
ends at the horizon at the latest; a queued event wakes it at the next
broadcast, and so does the end of its bounded wait, at which it leaves with a
cancellation. *)
Theorem order_naps_safe o :
  let k := order_sleep_steps_hint o in
  (k = 0%Z ∨
  active o = true ∧ queue_empty o = true ∧ ∃ v, state o = Some (Ok v) ∧
  py_in v [PStr "completed"; PStr "cancelled"] = false ∧
  (k = (-1)%Z ∨ (0 < k)%Z ∧ py_eq v (PStr "unassigned") = true ∧
    (HORIZON_STEPS cfg = 0 ∨ order_time_step o + k ≤ HORIZON_STEPS cfg)%Z)) ∧
  (∀ t, queue_empty o = false → is_Some (state o) → order_wake_signal_for_step t o = true) ∧
  (∀ t v, state o = Some (Ok v) → py_eq v (PStr "unassigned") = true →
  (0 < UNASSIGNED_ORDER_MAX_WAIT_STEPS cfg < t - request_time_step o)%Z →
  order_wake_signal_for_step t o = true) ∧
  (unassigned_overdue (order_time_step o) o = true → exiting_market o = CancelAndLeave).
Proof.
  cbv zeta. split_and!.
  - unfold order_sleep_steps_hint. destruct (active o); [|by left]. cbn [negb].
  destruct (state o) as [[v|e]|] eqn:Est; [| |by left]; destruct (queue_empty o) eqn:Eq; cbn [negb]; try by left.
  destruct (py_in v [PStr "completed"; PStr "cancelled"]) eqn:Ef; [by left|]. destruct (py_eq v (PStr "unassigned")) eqn:Eu; cbn [negb].
  + destruct (UNASSIGNED_ORDER_SLEEP_STEPS cfg <? 0)%Z eqn:Es; [right; naive_solver|]. bools.
  destruct (HORIZON_STEPS cfg =? 0)%Z eqn:Eh.
  * destruct (Z.max_spec 0 (UNASSIGNED_ORDER_SLEEP_STEPS cfg)) as [[? E]|[? E]]; rewrite E; [right|by left].
  split_and!; [done..|]. exists v. split_and!; [done..|]. right. split_and!; [lia|done|left; lia].
  * destruct (Z.max_spec 0 (UNASSIGNED_ORDER_SLEEP_STEPS cfg `min` (HORIZON_STEPS cfg - order_time_step o)))
  as [[? E]|[? E]]; rewrite E; [right|by left].
  split_and!; [done..|]. exists v. split_and!; [done..|]. right. split_and!; [lia|done|right; lia].
  + right. split_and!; [done..|]. exists v. split_and!; [done..|]. by left.
  - intros t Hq Hs. unfold order_wake_signal_for_step, wake_signal. rewrite Hq, bool_decide_eq_true_2 by done. done.
  - intros t v Hs Hv Ht. unfold order_wake_signal_for_step, unassigned_overdue. rewrite Hs, Hv.
  destruct (Z.leb_spec (UNASSIGNED_ORDER_MAX_WAIT_STEPS cfg) 0); [lia|].
  destruct (Z.leb_spec (t - request_time_step o) (UNASSIGNED_ORDER_MAX_WAIT_STEPS cfg)); [lia|]. apply orb_true_r.
  - unfold exiting_market. intros Ho. pose proof Ho as Ho'. unfold unassigned_overdue in Ho'.
  destruct (_ <=? 0)%Z; [done|]. destruct (_ <=? _)%Z; [done|]. destruct (state o) as [[v|]|]; [|done..].
  rewrite Ho', Ho. destruct v; try done. simpl in Ho'. bools. by subst.
Qed.
End OrderAgent.

(** ** Runs *)

Module AgentExamples.
Import SchedulerExamples.

(** A body that counts its steps down to a shutdown and naps at 2. *)
#[export] Instance countdown : AgentBody (Z * nat) := {|
  bootstrap_step t x := (Ok tt, (match t with PInt z => z | _ => x.1 end, x.2));
  current_time_step := fst;
  process_payload x := (Ok (PBool true), (x.1, pred x.2));
  sleep_steps_hint x := Ok (PInt (if bool_decide (x.2 = 2%nat) then 3 else 0));
  wake_signal_for_step _ _ := false;
  is_shutdown x := bool_decide (x.2 = 0%nat);
  shutdown x := (x.1, 0%nat) |}.

#[export] Instance countdown_laws : AgentBodyLaws (Z * nat).
Proof.
  split.
  - intros t x. by eexists.
  - done.
  - by intros x e x'.
Defined.

Definition drain_cfg : settings := Settings (Some f_zero) None None true None.
Definition env0 : surrounding := Surrounding true f_zero.
Definition fresh_agent (a : string) (n : nat) : agent (Z * nat) :=
  Agent a None true (Some ("run/" +:+ a)) false f_zero (0%Z, n).

Definition sched0 : sched := add_agent "a" PNone [] "p" "m.C" (new_sched 0).
Definition fleet0 : gmap string (agent (Z * nat)) := {["a" := fresh_agent "a" 3]}.
Definition sched1 : sched :=
  (step drain_cfg false (Surroundings [(replies (λ _, env0) 0 fleet0, f_zero)] []) sched0).2.
Definition fleet1 : gmap string (agent (Z * nat)) := fleet_after (λ _, env0) 0 fleet0.

End AgentExamples.
