(* ===== verification/Runtime.v ===== *)
(** The simulation loop ([src/apps/simulation/]): the source that spawns agents
    ([batched_agent_source.py]), the end of a run ([terminations.py]), the loop
    itself and the status it writes ([simulation_runtime.py]).

    A run has several schedulers, by key; the ones named ["agent"] and ["service"]
    matter to the termination condition.  HTTP answers are arguments. *)

From S2P Require Import Prelude PyValue Scheduler.

(** ** The agent source *)

(** An agent to spawn; [init_time_step] is the one of its [spec]. *)
Record item : Type := Item {
  scheduler_key : string;
  item_id : string;
  item_spec : pydict;
  project_path : string;
  agent_class : string;
  role : string;
  init_time_step : Z;
}.

(** An item of [agent_config], with the agents [scenario_manager] has for it. *)
Record role_config : Type := RoleConfig {
  cfg_role : string;
  cfg_scheduler_key : string;
  cfg_agent_class : string;
  cfg_init_time_step_key : option string;
  cfg_extra_fields : option (string → doc → pydict);
  cfg_collection : list (string * doc);
}.

Record source : Type := Source {
  registry : gmap Z (list item);
  bootstrap : list item;
  max_step : Z;
  current_step : Z;
  order_spawn_max_per_step : nat;
  order_role : string;
  order_backlog : list item;
}.

(** The step an agent is spawned at; the model covers integer steps. *)
Definition initial_step (c : role_config) (behavior : doc) : result Z :=
  match cfg_init_time_step_key c with
  | Some k =>
      if bool_decide (k = "") then Ok 0%Z
      else match as_int (get_or (profile behavior) k (PInt 0)) with
           | Some z => Ok z
           | None => Raise TypeError
           end
  | None => Ok 0%Z
  end.

(** The item of one agent; [reference_time] is formatted already. *)
Definition make_item (run_id reference_time project_path : string) (c : role_config)
    (agent : string * doc) : result item :=
  step ← initial_step c agent.2;
  let sp := [("unique_id", PStr agent.1); ("run_id", PStr run_id);
             ("reference_time", PStr reference_time); ("init_time_step", PInt step);
             ("behavior", PDict (d_set (fields agent.2) "profile" (PDict (profile agent.2))))] in
  let sp := match cfg_extra_fields c with
            | Some f => foldl (λ d p, d_set d p.1 p.2) sp (f agent.1 agent.2)
            | None => sp
            end in
  step' ← match as_int (get sp "init_time_step") with Some z => Ok z | None => Raise TypeError end;
  Ok (Item (cfg_scheduler_key c) agent.1 sp project_path (cfg_agent_class c) (cfg_role c) step').

(** One item enters the registry or the bootstrap list. *)
Definition register (src : source) (it : item) : source :=
  if decide (scheduler_key it = "agent") then
    Source (<[init_time_step it := default [] (registry src !! init_time_step it) ++ [it]]> (registry src))
      (bootstrap src) (Z.max (max_step src) (init_time_step it)) (current_step src)
      (order_spawn_max_per_step src) (order_role src) (order_backlog src)
  else
    Source (registry src) (bootstrap src ++ [it]) (max_step src) (current_step src)
      (order_spawn_max_per_step src) (order_role src) (order_backlog src).

Definition empty_source (cap : Z) (role : string) : source :=
  Source ∅ [] 0 (-1) (Z.to_nat (Z.max 1 cap)) role [].

(** [BatchedPrecomputedAgentSource.__init__] *)
Definition new_source (run_id reference_time project_path : string) (config : list role_config)
    (cap : Z) (role : string) : result source :=
  items ← mapR (λ c, mapR (make_item run_id reference_time project_path c) (cfg_collection c)) config;
  Ok (foldl register (empty_source cap role) (concat items)).

Definition is_order (src : source) (it : item) : bool := bool_decide (role it = order_role src).

(** [agents_for_step] *)
Definition agents_for_step (src : source) (step : Z) : list item * source :=
  let due := order_backlog src ++ default [] (registry src !! step) in
  let orders := filter (λ it, role it = order_role src) due in
  let others := filter (λ it, role it ≠ order_role src) due in
  let cap := order_spawn_max_per_step src in
  (others ++ take cap orders,
   Source (registry src) (bootstrap src) (max_step src) step cap (order_role src) (drop cap orders)).

(** [is_exhausted] *)
Definition is_exhausted (src : source) : bool :=
  (max_step src <=? current_step src)%Z && bool_decide (order_backlog src = []).

(** ** The end of a run *)

Record horizon_drain : Set := HorizonDrain {
  horizon_steps : Z;
  agent_scheduler_key : string;
  max_drain_steps : option Z;
}.

Section Termination.
Context (term : horizon_drain).

Definition past_horizon (step : Z) : bool := (horizon_steps term <=? step)%Z.

Definition drain_cap_reached (step : Z) : bool :=
  match max_drain_steps term with
  | Some m => (horizon_steps term + m <=? step)%Z
  | None => false
  end.

Definition awake_agent_count (s : sched) : Z :=
  (Z.of_nat (size (agent_collection s)) - sleeping_agent_count s)%Z.

Definition agent_scheduler_drained (schedulers : list (string * sched)) : bool :=
  match d_get schedulers (agent_scheduler_key term) with
  | None => forallb (λ p, awake_agent_count p.2 <=? 0)%Z schedulers
  | Some s => (awake_agent_count s <=? 0)%Z
  end.

Definition service_scheduler_drained (schedulers : list (string * sched)) : bool :=
  match d_get schedulers "service" with
  | None => true
  | Some s => bool_decide (size (agent_collection s) = 0%nat)
  end.

Definition ready_for_final_shutdown (step : Z) (schedulers : list (string * sched)) (src : source) : bool :=
  drain_cap_reached step ||
  past_horizon step && is_exhausted src && agent_scheduler_drained schedulers.

Definition should_terminate (step : Z) (schedulers : list (string * sched)) (src : source) : bool :=
  ready_for_final_shutdown step schedulers src && service_scheduler_drained schedulers.

Definition is_final_step (step : Z) (schedulers : list (string * sched)) (src : source) : bool :=
  ready_for_final_shutdown step schedulers src && negb (service_scheduler_drained schedulers).
End Termination.

(** ** The loop *)

Record sim : Type := Sim { schedulers : list (string * sched); src : source }.

Section Loop.
Context `{PyText} `{OrsimScheduler} `{SetOrder}.
Context (term : horizon_drain) (cfgs : string → settings) (kw : string → pyval).

(** Spawn the agents of a step; an unknown scheduler is a [KeyError]. *)
Definition spawn (items : list item) (schedulers : list (string * sched)) : result (list (string * sched)) :=
  foldR (λ ss it,
  match d_get ss (scheduler_key it) with
  | Some s => Ok (d_set ss (scheduler_key it)
    (add_agent (item_id it) (kw (scheduler_key it)) (item_spec it) (project_path it) (agent_class it) s))
  | None => Raise KeyError
  end) schedulers items.

(** [_run_schedulers_for_step]: every scheduler makes the step; they share
nothing, so that overlapping them is running them in any order. *)
Definition run_schedulers_for_step (step : Z) (envs : string → surroundings) (x : sim) :
  result (list (string * sched)) :=
  let final := is_final_step term step (schedulers x) (src x) in
  mapR (λ p, match Scheduler.step (cfgs p.1) final (envs p.1) p.2 with
         | (Ok _, s') => Ok (p.1, s')
         | (Raise e, _) => Raise e
         end) (schedulers x).

(** The body of [_simulation_loop]. *)
Definition sim_step (step : Z) (envs : string → surroundings) (x : sim) : result sim :=
  let '(items, src') := agents_for_step (src x) step in
  ss ← spawn items (schedulers x);
  ss ← run_schedulers_for_step step envs (Sim ss src');
  Ok (Sim ss src').

(** How a run stands after the steps an environment was given for. *)
Inductive run_outcome : Type :=
| Terminated (step : Z) (x : sim)
| Running (step : Z) (x : sim)
| Failed (step : Z) (e : exn).

(** [_simulation_loop], for as many steps as there are environments. *)
Fixpoint simulation_loop (step : Z) (envs : list (string → surroundings)) (x : sim) : run_outcome :=
  if should_terminate term step (schedulers x) (src x) then Terminated step x
  else match envs with
   | [] => Running step x
   | env :: envs =>
       match sim_step step env x with
       | Ok x' => simulation_loop (step + 1) envs x'
       | Raise e => Failed step e
       end
   end.
End Loop.

(** ** Status writes *)

Inductive status_write : Set :=
| OK | RETRIED_OK | STALE_ETAG_EXHAUSTED | SERVER_ERROR | EXCEPTION.

Definition succeeded (w : status_write) : bool :=
  match w with OK | RETRIED_OK => true | _ => false end.

(** An HTTP answer: its status code, and its JSON body (parsing may raise). *)
Record http : Type := Http { status_code : Z; json : result pydict }.

Definition STATUS_PATCH_MAX_ATTEMPTS : nat := 3.
Definition TERMINAL_STATUS_PATCH_MAX_ATTEMPTS : nat := 3.

(** [record[key]] *)
Definition item_of (d : pydict) (k : string) : result pyval :=
  match d_get d k with Some v => Ok v | None => Raise KeyError end.

Section Status.
(** The answers to a PATCH with an etag, and to a GET, at each attempt. *)
Context (patch : nat → pyval → result http) (refetch : nat → result http).

(** Attempt number [attempt] of [update_status], [remaining] more being allowed; the
result also lists the etags that were sent. *)
Fixpoint status_attempts (remaining attempt : nat) (etag : pyval) : result (option pydict * status_write) * list pyval :=
  match patch attempt etag with
  | Raise e => (Raise e, [etag])
  | Ok response =>
      if bool_decide (status_code response = 200%Z ∨ status_code response = 201%Z) then
        ((d ← json response; Ok (Some d, if bool_decide (attempt = 1%nat) then OK else RETRIED_OK)), [etag])
      else if negb (status_code response =? 412)%Z then (Ok (None, SERVER_ERROR), [etag])
      else
        match remaining with
        | O => (Ok (None, STALE_ETAG_EXHAUSTED), [etag])
        | S remaining =>
            match refetch attempt with
            | Raise e => (Raise e, [etag])
            | Ok refreshed =>
                if negb (status_code refreshed =? 200)%Z then (Ok (None, SERVER_ERROR), [etag])
                else
                  match (d ← json refreshed; item_of d "_etag") with
                  | Raise e => (Raise e, [etag])
                  | Ok etag' =>
                      let '(r, sent) := status_attempts remaining (S attempt) etag' in (r, etag :: sent)
                  end
            end
        end
  end.

(** [update_status]: any exception is the outcome [EXCEPTION]. *)
Definition update_status (run_record : pydict) : (option pydict * status_write) * list pyval :=
  match item_of run_record "_etag" with
  | Raise _ => ((None, EXCEPTION), [])
  | Ok etag =>
      let '(r, sent) := status_attempts (pred STATUS_PATCH_MAX_ATTEMPTS) 1 etag in
      (catch r (None, EXCEPTION), sent)
  end.
End Status.

(** The ledger of status writes, and the record the runtime holds. *)
Record status_ledger : Type := StatusLedger {
  run_record : pydict;
  status_write_failures : nat;
  status_write_outcomes : list status_write;
  consecutive_status_write_failures : nat;
  terminal_status_write : option status_write;
}.

(** [_apply_status_write]; the counts per outcome are kept as the outcomes. *)
Definition apply_status_write (result : option pydict * status_write) (l : status_ledger) : status_ledger :=
  let '(record, outcome) := result in
  StatusLedger
    (if succeeded outcome then default [] record else run_record l)
    (if succeeded outcome then status_write_failures l else S (status_write_failures l))
    (status_write_outcomes l ++ [outcome])
    (if succeeded outcome then 0%nat else S (consecutive_status_write_failures l))
    (terminal_status_write l).

(** [_write_terminal_status]: the outcome, the ledger, and whether a terminal
    [run_status] is published in its place; [write] answers the n-th attempt. *)
Fixpoint terminal_attempts (write : nat → pydict → option pydict * status_write) (remaining attempt : nat)
    (l : status_ledger) : status_write * status_ledger * bool :=
  let result := write attempt (run_record l) in
  let l := apply_status_write result l in
  let settle l w := StatusLedger (run_record l) (status_write_failures l) (status_write_outcomes l)
                      (consecutive_status_write_failures l) (Some w) in
  if succeeded result.2 then (result.2, settle l result.2, false)
  else match remaining with
       | O => (result.2, settle l result.2, true)
       | S remaining => terminal_attempts write remaining (S attempt) l
       end.

Definition write_terminal_status (write : nat → pydict → option pydict * status_write) (l : status_ledger) :
    status_write * status_ledger * bool :=
  terminal_attempts write (pred TERMINAL_STATUS_PATCH_MAX_ATTEMPTS) 1 l.

(** ** Spawning *)

(** The steps of a run, one after the other: what is launched at each. *)
Fixpoint spawn_steps (src : source) (steps : list Z) : list (list item) * source :=
  match steps with
  | [] => ([], src)
  | t :: steps =>
      let '(l, src) := agents_for_step src t in
      let '(ls, src) := spawn_steps src steps in
      (l :: ls, src)
  end.

Section Spawning.
Implicit Types (src : source) (items : list item).

Abbreviation orders_of src l := (filter (λ it, role it = order_role src) l).
Abbreviation others_of src l := (filter (λ it, role it ≠ order_role src) l).
Abbreviation due_at src t := (default [] (registry src !! t)).

(** The backlog holds orders only. *)
Definition backlog_ok src : Prop := Forall (λ it, role it = order_role src) (order_backlog src).

Lemma filter_all {A} (P : A → Prop) `{∀ x, Decision (P x)} l : Forall P l → filter P l = l.
Proof. induction 1; [done|]. rewrite filter_cons_True by done. by f_equal. Qed.

Lemma filter_none {A} (P : A → Prop) `{∀ x, Decision (P x)} l : Forall (λ x, ¬ P x) l → filter P l = [].
Proof. induction 1; [done|]. by rewrite filter_cons_False. Qed.

Lemma orders_due src t : backlog_ok src →
  orders_of src (order_backlog src ++ due_at src t) = order_backlog src ++ orders_of src (due_at src t).
Proof. intros Hb. by rewrite filter_app, filter_all. Qed.

Lemma others_due src t : backlog_ok src →
  others_of src (order_backlog src ++ due_at src t) = others_of src (due_at src t).
Proof.
  intros Hb. rewrite filter_app, filter_none; [done|]. eapply Forall_impl; [exact Hb|]. tauto.
Qed.

Lemma filter_is_filtered {A} (P : A → Prop) `{∀ x, Decision (P x)} l : Forall P (filter P l).
Proof. apply Forall_forall. intros x Hx. by apply list_elem_of_filter in Hx as [? _]. Qed.

(** One step: everyone due but the orders beyond the cap, which wait in order. *)
Lemma agents_for_step_spec src t l src' :
  backlog_ok src → agents_for_step src t = (l, src') →
  orders_of src l ++ order_backlog src' = order_backlog src ++ orders_of src (due_at src t) ∧
  others_of src l = others_of src (due_at src t) ∧
  (length (orders_of src l) ≤ order_spawn_max_per_step src)%nat ∧
  order_backlog src' = drop (order_spawn_max_per_step src) (order_backlog src ++ orders_of src (due_at src t)) ∧
  backlog_ok src'.
Proof.
  intros Hb [= <- <-]. cbn [order_backlog].
  pose proof (filter_is_filtered (λ it, role it = order_role src) (order_backlog src ++ due_at src t)) as Hf.
  pose proof (filter_is_filtered (λ it, role it ≠ order_role src) (order_backlog src ++ due_at src t)) as Hg.
  rewrite orders_due in * by done. rewrite others_due in * by done.
  set (os := order_backlog src ++ _) in *. set (cap := order_spawn_max_per_step src).
  assert (orders_of src (others_of src (due_at src t) ++ take cap os) = take cap os) as Ho.
  { rewrite filter_app, filter_none, filter_all; [done|by apply Forall_take|done]. }
  split_and!.
  - rewrite Ho. apply take_drop.
  - rewrite filter_app, (filter_none _ (take cap os)), app_nil_r; [by rewrite filter_all|].
  apply Forall_take. eapply Forall_impl; [exact Hf|]. tauto.
  - rewrite Ho, length_take. lia.
  - done.
  - unfold backlog_ok; simpl. by apply Forall_drop.
Qed.

Lemma agents_for_step_frame src t :
  let src' := (agents_for_step src t).2 in
  registry src' = registry src ∧ order_role src' = order_role src ∧ max_step src' = max_step src ∧
  order_spawn_max_per_step src' = order_spawn_max_per_step src ∧ current_step src' = t.
Proof. done. Qed.

(** Any steps: orders leave in the order they came due, at most [cap] per step;
the other agents leave at their step. *)
Lemma spawn_steps_spec src steps ls src' :
  backlog_ok src → spawn_steps src steps = (ls, src') →
  concat (map (filter (λ it, role it = order_role src)) ls) ++ order_backlog src' =
  order_backlog src ++ concat (map (λ t, orders_of src (due_at src t)) steps) ∧
  map (filter (λ it, role it ≠ order_role src)) ls = map (λ t, others_of src (due_at src t)) steps ∧
  Forall (λ l, (length (orders_of src l) ≤ order_spawn_max_per_step src)%nat) ls.
Proof.
  revert src ls src'. induction steps as [|t steps IH]; intros src ls src' Hb; cbn [spawn_steps].
  { intros [= <- <-]. simpl. by rewrite app_nil_r. }
  destruct (agents_for_step src t) as [l src1] eqn:E.
  destruct (spawn_steps src1 steps) as [ls1 src2] eqn:E1. intros [= <- <-].
  pose proof (agents_for_step_frame src t) as Hfr. rewrite E in Hfr. simpl in Hfr.
  destruct Hfr as (Hreg & Hrole & Hmax & Hcap & Hcur).
  destruct (agents_for_step_spec src t l src1 Hb E) as (H1' & H2' & H3' & H4' & Hb1).
  destruct (IH src1 ls1 src2 Hb1 E1) as (I1 & I2 & I3). rewrite Hreg, Hrole, Hcap in *. cbn [map concat]. split_and!.
  - rewrite <-app_assoc, I1, !app_assoc, H1'. done.
  - by rewrite H2', I2.
  - by constructor.
Qed.

(** *** What the registry holds *)

Abbreviation spawned it := (scheduler_key it = "agent").

Lemma register_all_spec items src :
  let src' := foldl register src items in
  (∀ t, due_at src' t = due_at src t ++ filter (λ it, spawned it ∧ init_time_step it = t) items) ∧
  bootstrap src' = bootstrap src ++ filter (λ it, ¬ spawned it) items ∧
  (max_step src ≤ max_step src')%Z ∧
  Forall (λ it, spawned it → (init_time_step it ≤ max_step src')%Z) items ∧
  order_backlog src' = order_backlog src ∧ order_role src' = order_role src ∧
  order_spawn_max_per_step src' = order_spawn_max_per_step src ∧ current_step src' = current_step src.
Proof.
  revert src. induction items as [|it items IH]; intros src; cbn [foldl].
  { cbv zeta. split_and!; intros; rewrite ?app_nil_r; done || lia || constructor. }
  destruct (IH (register src it)) as (I1 & I2 & I3 & I4 & I5 & I6 & I7 & I8). cbv zeta in *.
  assert (∀ t, due_at (register src it) t =
  due_at src t ++ (if decide (spawned it ∧ init_time_step it = t) then [it] else [])) as Hdue.
  { intros t. unfold register. destruct (decide (spawned it)) as [Hs|Hs]; simpl.
  - destruct (decide (init_time_step it = t)) as [<-|Hne].
  + by rewrite lookup_insert_eq, decide_True.
  + rewrite lookup_insert_ne, decide_False by tauto. by rewrite app_nil_r.
  - rewrite decide_False by tauto. by rewrite app_nil_r. }
  split_and!.
  - intros t. rewrite I1, Hdue, <-app_assoc. f_equal. rewrite filter_cons. repeat case_decide; done || tauto.
  - rewrite I2. unfold register. rewrite filter_cons. destruct (decide (spawned it)) as [Hs|Hs]; simpl.
  + rewrite decide_False by tauto. done.
  + rewrite decide_True by done. by rewrite <-app_assoc.
  - revert I3. unfold register. case_decide; simpl; lia.
  - constructor; [|done]. intros Hs. revert I3. unfold register. rewrite decide_True by done. simpl. lia.
  - rewrite I5. unfold register. by case_decide.
  - rewrite I6. unfold register. by case_decide.
  - rewrite I7. unfold register. by case_decide.
  - rewrite I8. unfold register. by case_decide.
Qed.
End Spawning.

(** *** Lists by key *)

Section ByKey.
Context {A : Type} (P : A → Prop) `{∀ x, Decision (P x)} (f : A → Z).

Lemma concat_map_app {B} (g h : B → list A) l :
  concat (map (λ t, g t ++ h t) l) ≡ₚ concat (map g l) ++ concat (map h l).
Proof.
  induction l as [|t l IH]; simpl; [done|]. rewrite IH, <-!app_assoc. apply Permutation_app_head.
  rewrite !app_assoc. apply Permutation_app_tail, Permutation_app_comm.
Qed.

Lemma concat_map_at (x : A) (t0 : Z) l : NoDup l →
  concat (map (λ t, if decide (P x ∧ t0 = t) then [x] else []) l) =
  if decide (P x ∧ t0 ∈ l) then [x] else [].
Proof.
  induction 1 as [|t l Hni Hnd IH]; simpl.
  { rewrite decide_False; [done|]. intros [_ Hin]. by apply elem_of_nil in Hin. }
  rewrite IH. destruct (decide (P x ∧ t0 = t)) as [[Hp <-]|Hne]; simpl.
  - rewrite decide_False by tauto. rewrite decide_True; [done|]. split; [done|]. by left.
  - destruct (decide (P x ∧ t0 ∈ l)) as [[? ?]|Hn].
  + rewrite decide_True; [done|]. split; [done|]. by right.
  + rewrite decide_False; [done|]. rewrite elem_of_cons. naive_solver.
Qed.

(** Grouping by a key loses the items whose key is not visited, and no other. *)
Lemma concat_by_key l steps : NoDup steps →
  concat (map (λ t, filter (λ x, P x ∧ f x = t) l) steps) ≡ₚ filter (λ x, P x ∧ f x ∈ steps) l.
Proof.
  intros Hnd. induction l as [|x l IH].
  { clear. induction steps; simpl; done. }
  rewrite filter_cons.
  trans (concat (map (λ t, (if decide (P x ∧ f x = t) then [x] else []) ++ filter (λ x, P x ∧ f x = t) l) steps)).
  { apply Permutation_refl'. f_equal. apply map_ext. intros t. rewrite filter_cons. by repeat case_decide. }
  rewrite concat_map_app, concat_map_at, IH by done. by repeat case_decide.
Qed.
End ByKey.

Lemma filter_ext_in {A} (P Q : A → Prop) `{∀ x, Decision (P x), ∀ x, Decision (Q x)} (l : list A) :
  (∀ x, x ∈ l → P x ↔ Q x) → filter P l = filter Q l.
Proof.
  induction l as [|x l IH]; intros Hpq; [done|]. rewrite !filter_cons, IH by (intros; apply Hpq; by right).
  pose proof (Hpq x ltac:(by left)). repeat case_decide; tauto.
Qed.

Lemma concat_filters {A} (P : A → Prop) `{∀ x, Decision (P x)} (ls : list (list A)) :
  concat ls ≡ₚ concat (map (filter P) ls) ++ concat (map (filter (λ x, ¬ P x)) ls).
Proof.
  induction ls as [|l ls IH]; simpl; [done|]. rewrite IH.
  assert (l ≡ₚ filter P l ++ filter (λ x, ¬ P x) l) as Hl.
  { clear. induction l as [|x l IH]; [done|]. rewrite !filter_cons. destruct (decide (P x)).
    - rewrite decide_False by tauto. simpl. by constructor.
    - rewrite decide_True by done. rewrite <-Permutation_middle. by constructor. }
  rewrite Hl at 1. rewrite <-!app_assoc. apply Permutation_app_head.
  rewrite !app_assoc. apply Permutation_app_tail, Permutation_app_comm.
Qed.

Lemma last_cons {A} (l : list A) x d : List.last (x :: l) d = List.last l x.
Proof. revert x d. induction l as [|y l IH]; intros x d; [done|]. by rewrite (IH y x), <-(IH y d). Qed.

Section Source.
Implicit Types (items : list item).
Abbreviation spawned it := (scheduler_key it = "agent").
Abbreviation due_at src t := (default [] (registry src !! t)).

Lemma spawn_steps_app src s1 s2 :
  spawn_steps src (s1 ++ s2) =
  let '(l1, src1) := spawn_steps src s1 in
  let '(l2, src2) := spawn_steps src1 s2 in (l1 ++ l2, src2).
Proof.
  revert src. induction s1 as [|t s1 IH]; intros src; cbn [spawn_steps app].
  - by destruct (spawn_steps src s2).
  - destruct (agents_for_step src t) as [l src1]. rewrite IH. destruct (spawn_steps src1 s1) as [l1 src2].
  by destruct (spawn_steps src2 s2).
Qed.

Lemma spawn_steps_frame src steps :
  let src' := (spawn_steps src steps).2 in
  registry src' = registry src ∧ order_role src' = order_role src ∧ max_step src' = max_step src ∧
  order_spawn_max_per_step src' = order_spawn_max_per_step src ∧ bootstrap src' = bootstrap src ∧
  current_step src' = List.last steps (current_step src) ∧ (backlog_ok src → backlog_ok src').
Proof.
  revert src. induction steps as [|t steps IH]; intros src; cbn [spawn_steps]; [done|].
  destruct (agents_for_step src t) as [l src1] eqn:E.
  pose proof (agents_for_step_frame src t) as Hfr. rewrite E in Hfr. simpl in Hfr.
  destruct Hfr as (Hreg & Hrole & Hmax & Hcap & Hcur).
  assert (bootstrap src1 = bootstrap src) as Hboot by (by injection E as _ <-).
  specialize (IH src1). destruct (spawn_steps src1 steps) as [ls src2]. simpl in *.
  destruct IH as (-> & -> & -> & -> & -> & -> & Hb). split_and!; try done.
  - rewrite Hcur. symmetry. apply last_cons.
  - intros Hb0. apply Hb. by eapply agents_for_step_spec.
Qed.

(** Once nothing more comes due, the backlog shrinks by the cap each step. *)
Lemma spawn_steps_drains src steps :
  backlog_ok src → Forall (λ t, due_at src t = []) steps →
  order_backlog (spawn_steps src steps).2 =
  drop (length steps * order_spawn_max_per_step src) (order_backlog src).
Proof.
  revert src. induction steps as [|t steps IH]; intros src Hb Hdue; cbn [spawn_steps]; [done|].
  apply Forall_cons in Hdue as [Ht Hdue].
  destruct (agents_for_step src t) as [l src1] eqn:E.
  pose proof (agents_for_step_frame src t) as Hfr. rewrite E in Hfr. simpl in Hfr.
  destruct Hfr as (Hreg & Hrole & Hmax & Hcap & Hcur).
  destruct (agents_for_step_spec src t l src1 Hb E) as (_ & _ & _ & Hbl & Hb1).
  rewrite Ht, filter_nil, app_nil_r in Hbl.
  specialize (IH src1 Hb1). rewrite Hreg, Hcap, Hbl, drop_drop in IH. specialize (IH Hdue).
  destruct (spawn_steps src1 steps) as [ls src2]. simpl in *. rewrite IH. f_equal; lia.
Qed.

Lemma seqZ_last n d : (0 < n)%Z → List.last (seqZ 0 n) d = (n - 1)%Z.
Proof.
  intros Hn. replace n with ((n - 1) + 1)%Z at 1 by lia. rewrite seqZ_app by lia.
  rewrite (seqZ_cons _ 1) by lia. simpl. rewrite last_last. lia.
Qed.

(** C23: Every agent of the configuration is spawned exactly once, in time.  Over
the first [n] steps the orders leave the queue in the order in which they came
due, never more than the cap in a step; every other agent is launched at its
own step; the rest waits in the backlog, in order.  Once the source reports to
be exhausted, what was launched is exactly the configured agents (their steps
not being negative), and it does so at the latest when as many steps have
passed after the last one as there are agents. *)
Theorem agents_spawned_in_order items cap r n :
  let src := foldl register (empty_source cap r) items in
  let at_step t := filter (λ it, spawned it ∧ init_time_step it = t) items in
  let ls := (spawn_steps src (seqZ 0 n)).1 in
  let src' := (spawn_steps src (seqZ 0 n)).2 in
  concat (map (filter (λ it, role it = r)) ls) ++ order_backlog src' =
  concat (map (λ t, filter (λ it, role it = r) (at_step t)) (seqZ 0 n)) ∧
  map (filter (λ it, role it ≠ r)) ls = map (λ t, filter (λ it, role it ≠ r) (at_step t)) (seqZ 0 n) ∧
  Forall (λ l, (Z.of_nat (length (filter (λ it, role it = r) l)) ≤ Z.max 1 cap)%Z) ls ∧
  (is_exhausted src' = true → Forall (λ it, spawned it → (0 ≤ init_time_step it)%Z) items →
  concat ls ≡ₚ filter (λ it, spawned it) items) ∧
  ((max_step src + Z.of_nat (length items) < n)%Z → is_exhausted src' = true) ∧
  bootstrap src' = filter (λ it, ¬ spawned it) items.
Proof.
  intros src at_step ls src'.
  destruct (register_all_spec items (empty_source cap r)) as (Hdue & Hboot & Hmax0 & Hmax & Hbl & Hrole & Hcap & Hcur).
  fold src in Hdue, Hboot, Hmax0, Hmax, Hbl, Hrole, Hcap, Hcur. simpl in Hdue, Hboot, Hmax0, Hbl, Hrole, Hcap, Hcur.
  assert (∀ t, due_at src t = at_step t) as Hat by (intros t; by rewrite Hdue, lookup_empty).
  assert (backlog_ok src) as Hb by (unfold backlog_ok; rewrite Hbl; constructor).
  destruct (spawn_steps_frame src (seqZ 0 n)) as (_ & _ & Hmax' & _ & Hboot' & Hcur' & _).
  fold src' in Hmax', Hboot', Hcur'.
  destruct (spawn_steps_spec src (seqZ 0 n) ls src' Hb (surjective_pairing _)) as (S1 & S2 & S3).
  rewrite Hrole, Hcap, Hbl in *. simpl in S1.
  assert (concat (map (λ t, filter (λ it, role it = r) (at_step t)) (seqZ 0 n)) =
  concat (map (λ t, filter (λ it, role it = r) (due_at src t)) (seqZ 0 n))) as E1.
  { f_equal. apply map_ext. intros t. by rewrite Hat. }
  assert (map (λ t, filter (λ it, role it ≠ r) (at_step t)) (seqZ 0 n) =
  map (λ t, filter (λ it, role it ≠ r) (due_at src t)) (seqZ 0 n)) as E2.
  { apply map_ext. intros t. by rewrite Hat. }
  split_and!; [by rewrite E1|by rewrite E2| | | |].
  - eapply Forall_impl; [exact S3|]. simpl. intros l. lia.
  - intros Hex Hpos. unfold is_exhausted in Hex. apply andb_true_iff in Hex as [Hex%Z.leb_le Hnil%bool_decide_eq_true].
  assert (0 < n)%Z as Hn0.
  { destruct (decide (0 < n)%Z) as [|Hneg]; [done|]. rewrite Hcur', seqZ_nil in Hex by lia. simpl in Hex. lia. }
  rewrite (concat_filters (λ it, role it = r)).
  rewrite Hnil, app_nil_r in S1. rewrite S1.
  replace (map (filter (λ x, ¬ role x = r)) ls) with (map (λ t, filter (λ it, role it ≠ r) (due_at src t)) (seqZ 0 n)) by done.
  rewrite <-E1, <-E2.
  trans (concat (map at_step (seqZ 0 n))).
  { rewrite (concat_filters (λ it, role it = r) (map at_step (seqZ 0 n))), !map_map. done. }
  unfold at_step. rewrite (concat_by_key (λ it, spawned it) init_time_step) by apply NoDup_seqZ.
  apply Permutation_refl'. apply filter_ext_in. intros it Hit. rewrite elem_of_seqZ.
  rewrite Forall_forall in Hpos, Hmax. specialize (Hpos it Hit). specialize (Hmax it Hit).
  rewrite Hcur', (seqZ_last n) in Hex by done. split; [tauto|]. intros Hs. split; [done|].
  specialize (Hpos Hs). specialize (Hmax Hs). lia.
  - intros Hlong. unfold is_exhausted.
  set (m := (max_step src + 1)%Z). assert (0 ≤ m)%Z as Hm by lia.
  assert (order_backlog src' = []) as ->.
  { unfold src'. replace n with (m + (n - m))%Z by lia. rewrite seqZ_app, spawn_steps_app by lia.
  pose proof (spawn_steps_frame src (seqZ 0 m)) as (F1 & F2 & F3 & F4 & F5 & F6 & F7).
  destruct (spawn_steps_spec src (seqZ 0 m) _ _ Hb (surjective_pairing _)) as (T1 & _ & _).
  destruct (spawn_steps src (seqZ 0 m)) as [l1 src1]. simpl in F1, F2, F3, F4, F5, F6, F7, T1.
  assert (order_backlog (spawn_steps src1 (seqZ (0 + m) (n - m))).2 = []) as Hd.
  { rewrite spawn_steps_drains; [|by apply F7|].
  - apply drop_ge. rewrite F4, Hcap, length_seqZ.
  assert (length (order_backlog src1) ≤ length items)%nat as Hle.
  { apply (f_equal length) in T1. rewrite length_app, Hbl, app_nil_l in T1.
  etrans; [|apply (length_filter (λ it, (spawned it ∧ role it = r) ∧ init_time_step it ∈ seqZ 0 m))].
  rewrite <-(Permutation_length (concat_by_key (λ it, spawned it ∧ role it = r) init_time_step items (seqZ 0 m) (NoDup_seqZ _ _))).
  replace (concat (map (λ t, filter (λ x, (spawned x ∧ role x = r) ∧ init_time_step x = t) items) (seqZ 0 m)))
  with (concat (map (λ t, filter (λ it, role it = order_role src) (due_at src t)) (seqZ 0 m))); [lia|].
  f_equal. apply map_ext. intros t. rewrite Hat, Hrole. unfold at_step. rewrite list_filter_filter.
  apply filter_ext_in. intros it _. tauto. }
  simpl. nia.
  - apply Forall_forall. intros t Ht%elem_of_seqZ. rewrite F1, Hat. apply filter_none, Forall_forall.
  intros it Hit [Hs E]. rewrite Forall_forall in Hmax. specialize (Hmax it Hit Hs). lia. }
  by destruct (spawn_steps src1 _) as [l2 src2]. }
  rewrite Hcur', Hmax', seqZ_last by lia. rewrite bool_decide_eq_true_2 by done.
  rewrite andb_true_r. lia.
  - by rewrite Hboot', Hboot.
Qed.
End Source.

(** ** The end of a run *)

Section Ending.
Context `{PyText} `{OrsimScheduler} `{SetOrder} `{!OrsimSchedulerLaws} `{!SetOrderLaws}.

Lemma about_eq s s' a : about s a = about s' a →
  agent_collection s !! a = agent_collection s' !! a ∧
  sleeping_until (naps s) !! a = sleeping_until (naps s') !! a.
Proof. unfold about. by intros [= -> -> _]. Qed.

(** The sweep keeps the naps of the agents it does not remove. *)
Lemma reap_loop_naps N todo s a : a ∉ todo →
  sleeping_until (naps (reap_loop N todo [] s)) !! a = sleeping_until (naps s) !! a.
Proof.
  revert s. induction todo as [|b todo IH]; intros s Hni; simpl; [done|].
  apply not_elem_of_cons in Hni as [Hne Hni]. rewrite IH by done. unfold reap_agent.
  destruct (agent_collection s !! b); [|done]. case_decide; simpl; by rewrite lookup_delete_ne.
Qed.

(** The replies of a step, up to its sweep. *)
Definition all_replies (env : surroundings) : list reply := concat (map fst (moments env)) ++ concat (late env).

(** A reply that says goodbye: it registers nobody again and announces no nap. *)
Definition goodbye (t : Z) (r : reply) : Prop :=
  answers t r = true ∧ action r = Some "shutdown" ∧ truth (sleep_steps r) = false.

Lemma goodbye_agents s r a :
  goodbye (time s) r → is_Some (agent_collection (deliver s r) !! a) → is_Some (agent_collection s !! a).
Proof.
  intros (_ & Hact & _). rewrite deliver_agents. unfold record_response, find_entry. rewrite Hact. simpl.
  destruct (agent_collection s !! agent_id r) as [e|] eqn:E; simpl; [|done].
  destruct (decide (agent_id r = a)) as [<-|Hne]; [by rewrite E|by rewrite lookup_insert_ne].
Qed.

(** What [deliver] does to the nap of an agent that says goodbye, or to others'. *)
Lemma goodbye_naps s r a :
  goodbye (time s) r → is_Some (sleeping_until (naps s) !! a) →
  is_Some (sleeping_until (naps (deliver s r)) !! a) ∨ agent_id r = a.
Proof.
  intros _ Ha. destruct (decide (agent_id r = a)) as [|Hne]; [by right|left].
  pose proof (deliver_other s r a Hne) as Hab. destruct (about_eq _ _ _ Hab) as [_ Hn]. by rewrite Hn.
Qed.

Lemma goodbyes s rs a :
  Forall (goodbye (time s)) rs → is_Some (agent_collection (deliver_all s rs) !! a) →
  is_Some (agent_collection s !! a) ∧
  (is_Some (sleeping_until (naps s) !! a) →
   is_Some (sleeping_until (naps (deliver_all s rs)) !! a) ∨ ∃ r, r ∈ rs ∧ agent_id r = a).
Proof.
  revert s. induction rs as [|r rs IH]; intros s Hg Ha; simpl in *; [auto|].
  apply Forall_cons in Hg as [Hr Hg]. rewrite <-(deliver_time s r) in Hg.
  destruct (IH _ Hg Ha) as [Ha' Hn]. split; [by apply (goodbye_agents s r)|].
  intros Hs. destruct (goodbye_naps s r a Hr Hs) as [Hs'|E].
  - destruct (Hn Hs') as [?|(r' & ? & ?)]; [by left|right]. exists r'. split; [by right|done].
  - right. exists r. split; [by left|done].
Qed.

(** A final step that returns leaves nobody behind when every agent has booted and
every reply is a goodbye. *)
Lemma final_step_empties cfg f env s s' :
  step cfg f env s = (Ok true, s') → late env = [] →
  (∀ a e, agent_collection s !! a = Some e → pending_boot e = false) →
  Forall (goodbye (time s)) (all_replies env) →
  agent_collection s' = ∅.
Proof.
  intros (_ & rs & s1 & Hrs & Hc & ->)%step_ok Hlate Hboot Hg.
  unfold all_replies in Hg. rewrite Hlate in *. simpl in *. rewrite app_nil_r in *.
  assert (Forall (goodbye (time s)) rs) as Hg' by (rewrite Forall_forall in Hg |- *; auto).
  unfold core in Hc. injection Hc as Ht Ha Hb Hn Hp.
  apply map_empty. intros a. simpl. apply eq_None_not_Some. intros Hin.
  assert (∀ l s0, is_Some (agent_collection (foldl (λ s a, match agent_collection s !! a with
  | Some _ => remove_agent a s | None => s end) s0 l) !! a) →
  is_Some (agent_collection s0 !! a) ∧ a ∉ l) as Hrem.
  { induction l as [|b l IH]; intros s0 Hs0; simpl in Hs0; [split; [done|apply not_elem_of_nil]|].
  apply IH in Hs0 as [Hs0 Hni]. destruct (agent_collection s0 !! b) as [e|] eqn:E.
  - rewrite remove_agent_agents in Hs0. destruct (decide (b = a)) as [->|Hne].
  + rewrite lookup_delete_eq in Hs0. by destruct Hs0.
  + rewrite lookup_delete_ne in Hs0 by done. split; [done|]. rewrite not_elem_of_cons. done.
  - split; [done|]. rewrite not_elem_of_cons. split; [|done]. intros ->. rewrite E in Hs0. by destruct Hs0. }
  unfold remove_sleepers in Hin. apply Hrem in Hin as [Hin Hnap].
  rewrite elem_of_elements, elem_of_dom in Hnap.
  rewrite reap_agents in Hin. destruct Hin as [e He]. apply map_lookup_filter_Some in He as [He [Hsh Hsi]].
  simpl in Hsh, Hsi. rewrite Ha in He.
  destruct (goodbyes (begin_step_barrier s) rs a Hg' ltac:(by eexists)) as [[e0 He0] Hnaps]. simpl in He0.
  assert (¬ ∃ r, r ∈ rs ∧ agent_id r = a) as Hno.
  { intros (r & Hr & E). apply Hsh. rewrite Hb, deliver_all_shutdown. right.
  rewrite Forall_forall in Hg'. destruct (Hg' r Hr) as (? & ? & _). by exists r. }
  destruct (decide (a ∈ expected_this_step (bar (begin_step_barrier s)))) as [Hex|Hex].
  - apply Hsi. unfold silent. rewrite Hb, deliver_all_expected. apply elem_of_difference. split; [done|].
  rewrite deliver_all_responded. intros [Hr|[_ (r & Hr & E & _)]]; [simpl in Hr; set_solver|naive_solver].
  - rewrite elem_of_expected in Hex. apply Hnap.
  assert (is_Some (sleeping_until (naps (begin_step_barrier s)) !! a)) as Hsl.
  { pose proof (about_begin s a) as Hab. destruct (about_inv _ _ _ _ _ Hab) as (_ & Hab' & _). rewrite Hab'.
  unfold expired. destruct (sleeping_until (naps s) !! a) as [w|] eqn:Ew.
  - destruct (wake_leb w (time s)) eqn:E; [|by eexists]. destruct Hex. exists e0.
  split_and!; [done|by apply (Hboot a)|]. intros w' Hw'. congruence.
  - destruct Hex. exists e0. split_and!; [done|by apply (Hboot a)|]. intros w' Hw'. congruence. }
  destruct (Hnaps Hsl) as [Hsl'|?]; [|done].
  unfold reap. rewrite reap_loop_naps; [by rewrite Hn|rewrite elem_of_iter_set; set_solver].
Qed.

(** A step keeps an agent that is still booting and never heard of. *)
Lemma reap_loop_unheard N todo late s a :
  a ∉ todo → Forall (λ r, agent_id r ≠ a) (concat late) →
  agent_collection (reap_loop N todo late s) !! a = agent_collection s !! a ∧
  sleeping_until (naps (reap_loop N todo late s)) !! a = sleeping_until (naps s) !! a.
Proof.
  revert late s. induction todo as [|b todo IH]; intros late s Hni Hl; cbn [reap_loop]; [done|].
  apply not_elem_of_cons in Hni as [Hne Hni].
  assert (Forall (λ r, agent_id r ≠ a) (default [] (head late)) ∧ Forall (λ r, agent_id r ≠ a) (concat (tail late))) as [Hh Ht].
  { destruct late as [|l late]; [by split; constructor|]. simpl in Hl |- *. by apply Forall_app in Hl. }
  destruct (IH (tail late) (reap_agent N (deliver_all s (default [] (head late))) b) Hni Ht) as [-> ->].
  assert (about (deliver_all s (default [] (head late))) a = about s a) as Hab.
  { apply deliver_all_other. by rewrite Forall_forall in Hh. }
  destruct (about_eq _ _ _ Hab) as [<- <-]. rewrite reap_agent_agents, lookup_delete_ne by done.
  split; [done|]. unfold reap_agent. destruct (agent_collection _ !! b); [|done].
  case_decide; simpl; by rewrite lookup_delete_ne.
Qed.

Lemma remove_sleepers_awake s a : sleeping_until (naps s) !! a = None →
  agent_collection (remove_sleepers s) !! a = agent_collection s !! a ∧
  sleeping_until (naps (remove_sleepers s)) !! a = None.
Proof.
  intros Hs. unfold remove_sleepers.
  assert (a ∉ elements (dom (sleeping_until (naps s)))) as Hni by (by rewrite elem_of_elements, elem_of_dom, Hs; intros []).
  apply (foldl_invariant _ (λ s', agent_collection s' !! a = agent_collection s !! a ∧ sleeping_until (naps s') !! a = None)).
  - intros s' b Hb [Ha Hn]. destruct (agent_collection s' !! b); [|done].
  assert (a ≠ b) as Hne by congruence. rewrite remove_agent_agents. simpl. by rewrite !lookup_delete_ne.
  - done.
Qed.

Definition unbooted (s : sched) (a : string) : Prop :=
  (∃ e, agent_collection s !! a = Some e ∧ pending_boot e = true) ∧ sleeping_until (naps s) !! a = None.

Lemma step_keeps_unbooted cfg f env s g s' a :
  step cfg f env s = (Ok g, s') → Forall (λ r, agent_id r ≠ a) (all_replies env) →
  unbooted s a → unbooted s' a.
Proof.
  intros (_ & rs & s1 & Hrs & Hc & ->)%step_ok Hno [(e & He & Hp) Hn].
  unfold all_replies in Hno. apply Forall_app in Hno as [Hm Hl].
  assert (Forall (λ r, agent_id r ≠ a) rs ∧ Forall (λ r, agent_id r ≠ a) (concat (tail (late env)))) as [Hrs' Hl'].
  { rewrite !Forall_forall in *. destruct (late env) as [|l ls]; simpl in *; split; intros r Hr.
  - apply Hm. specialize (Hrs r Hr). by rewrite app_nil_r in Hrs.
  - by apply elem_of_nil in Hr.
  - specialize (Hrs r Hr). apply elem_of_app in Hrs as [?|?]; [by apply Hm|apply Hl, elem_of_app; by left].
  - apply Hl, elem_of_app. by right. }
  unfold core in Hc. injection Hc as Ht Ha Hb Hnp Hps.
  assert (about (deliver_all (begin_step_barrier s) rs) a = about (begin_step_barrier s) a) as Hab.
  { apply deliver_all_other. by rewrite Forall_forall in Hrs'. }
  rewrite about_begin, expired_None, Hn, He in Hab by done.
  destruct (about_inv _ _ _ _ _ Hab) as (Ha1 & Hn1 & _). rewrite <-Ha in Ha1. rewrite <-Hnp in Hn1.
  assert (a ∉ iter_set (shutdown_replied (bar s1) ∪ silent s1)) as Hni.
  { rewrite elem_of_iter_set, Hb. intros [Hin|Hin]%elem_of_union.
  - rewrite deliver_all_shutdown in Hin. destruct Hin as [Hin|(r & Hr & E & _)]; [simpl in Hin; set_solver|].
  rewrite Forall_forall in Hrs'. by apply (Hrs' r).
  - unfold silent in Hin. rewrite Hb, deliver_all_expected in Hin. apply elem_of_difference in Hin as [Hin _].
  apply elem_of_expected in Hin as (e' & He' & Hp' & _). congruence. }
  destruct (reap_loop_unheard (silent s1) _ (tail (late env)) s1 a Hni Hl') as [Ha2 Hn2].
  fold (reap (tail (late env)) s1) in Ha2, Hn2. rewrite Ha1 in Ha2. rewrite Hn1 in Hn2.
  destruct g; [|split; [by exists e|done]].
  destruct (remove_sleepers_awake (reap (tail (late env)) s1) a Hn2) as [Ha3 Hn3].
  split; [exists e; split; [|done]|done]. simpl. by rewrite Ha3.
Qed.

(** *** The loop *)

Context (term : horizon_drain) (cfgs : string → settings) (kw : string → pyval).

Definition spawns_agents (l : list item) : Prop := Forall (λ it, scheduler_key it = "agent") l.

Lemma spawn_service items ss ss' : spawn kw items ss = Ok ss' → spawns_agents items →
  d_get ss' "service" = d_get ss "service".
Proof.
  unfold spawn. revert ss. induction items as [|it items IH]; intros ss; cbn [foldR]; [by intros [= ->]|].
  intros Hs [Hit Hits]%Forall_cons. destruct (d_get ss (scheduler_key it)) as [s|]; [|done].
  cbn [mbind result_bind] in Hs. rewrite (IH _ Hs Hits). apply d_get_set_ne. rewrite Hit. discriminate.
Qed.

Lemma run_schedulers_service t envs x ss s :
  run_schedulers_for_step term cfgs t envs x = Ok ss → d_get (schedulers x) "service" = Some s →
  ∃ g s', step (cfgs "service") (is_final_step term t (schedulers x) (src x)) (envs "service") s = (Ok g, s') ∧
  d_get ss "service" = Some s'.
Proof.
  unfold run_schedulers_for_step. set (fin := is_final_step _ _ _ _). clearbody fin. revert ss.
  generalize (schedulers x). induction l as [|[k s0] l IH]; intros ss; cbn [mapR fst snd]; [done|].
  destruct (step (cfgs k) fin (envs k) s0) as [[g|e] s'] eqn:E; cbn [mbind result_bind]; [|done].
  destruct (mapR _ l) as [ss0|] eqn:Em; [|done]. cbn [mbind result_bind]. intros [= <-]. simpl.
  case_decide as Hk.
  - subst k. intros [= ->]. by exists g, s'.
  - intros Hs. by apply IH.
Qed.

(** What a step of the run does to the service scheduler. *)
Lemma sim_step_service t envs x x' s :
  sim_step term cfgs kw t envs x = Ok x' → spawns_agents (agents_for_step (src x) t).1 →
  d_get (schedulers x) "service" = Some s →
  ∃ f g s', step (cfgs "service") f (envs "service") s = (Ok g, s') ∧
  d_get (schedulers x') "service" = Some s' ∧ src x' = (agents_for_step (src x) t).2 ∧
  (drain_cap_reached term t = true → f = negb (bool_decide (size (agent_collection s) = 0%nat))).
Proof.
  unfold sim_step. destruct (agents_for_step (src x) t) as [items src1] eqn:Ei. simpl.
  destruct (spawn kw items (schedulers x)) as [ss|] eqn:Es; [|done]. cbn [mbind result_bind].
  destruct (run_schedulers_for_step _ _ _ _ _) as [ss'|] eqn:Er; [|done]. cbn [mbind result_bind].
  intros [= <-] Hsp Hs. pose proof (spawn_service _ _ _ Es Hsp) as Hss. rewrite Hs in Hss.
  destruct (run_schedulers_service _ _ _ _ _ Er Hss) as (g & s' & Hst & Hs').
  exists (is_final_step term t ss src1), g, s'. split_and!; [done..|].
  intros Hcap. unfold is_final_step, ready_for_final_shutdown. rewrite Hcap. simpl.
  unfold service_scheduler_drained. by rewrite Hss.
Qed.

(** The drain cap ends a run.  At any step from the cap on, whatever agents are
left to the agent scheduler and however many, one more step is enough: if every
service agent has booted and answers the shutdown broadcast, the service
scheduler is empty afterwards and the loop stops at the next step. *)
Theorem drain_cap_terminates t envs x x' s :
  drain_cap_reached term t = true →
  d_get (schedulers x) "service" = Some s → spawns_agents (agents_for_step (src x) t).1 →
  ALLOW_POST_HORIZON_DRAIN (cfgs "service") = true →
  (∀ a e, agent_collection s !! a = Some e → pending_boot e = false) →
  late (envs "service") = [] → Forall (goodbye (time s)) (all_replies (envs "service")) →
  sim_step term cfgs kw t envs x = Ok x' →
  ∀ more, simulation_loop term cfgs kw (t + 1) more x' = Terminated (t + 1) x'.
Proof.
  intros Hcap Hs Hsp Hdrain Hboot Hlate Hg Hstep more.
  destruct (sim_step_service t envs x x' s Hstep Hsp Hs) as (f & g & s' & Hst & Hs' & _ & Hf).
  specialize (Hf Hcap).
  assert (size (agent_collection s') = 0%nat) as Hz.
  { destruct f.
  - assert (g = true) as -> by (by apply step_ok in Hst as [[= <-] _]).
  rewrite (final_step_empties _ _ _ _ _ Hst Hlate Hboot Hg). apply map_size_empty.
  - symmetry in Hf. apply negb_false_iff, bool_decide_eq_true, map_size_empty_inv in Hf.
  pose proof Hst as (Hres & rs & s1 & Hrs & Hc & E)%step_ok.
  assert (g = false) as -> by (unfold resolve_final in Hres; rewrite Hdrain in Hres; congruence).
  apply map_size_empty_iff, map_empty. intros a. apply eq_None_not_Some. intros Hin.
  unfold core in Hc. injection Hc as Ht Ha Hb Hn Hp.
  rewrite E, Hlate in Hin. simpl in Hin. rewrite reap_agents in Hin. destruct Hin as [e He].
  apply map_lookup_filter_Some in He as [He _]. rewrite Ha in He.
  unfold all_replies in Hg. rewrite Hlate in Hg, Hrs. simpl in Hg, Hrs. rewrite app_nil_r in Hg, Hrs.
  assert (Forall (goodbye (time (begin_step_barrier s))) rs) as Hg' by (rewrite Forall_forall in Hg |- *; auto).
  destruct (goodbyes (begin_step_barrier s) rs a Hg' ltac:(by eexists)) as [[e' He'] _].
  simpl in He'. rewrite Hf in He'. done. }
  assert (should_terminate term (t + 1) (schedulers x') (src x') = true) as Hend.
  { unfold should_terminate, ready_for_final_shutdown, service_scheduler_drained. rewrite Hs', Hz. simpl.
  assert (drain_cap_reached term (t + 1) = true) as ->; [|done].
  unfold drain_cap_reached in *. destruct (max_drain_steps term); [|done]. lia. }
  destruct more; simpl; by rewrite Hend.
Qed.

(** But the cap waits for service agents to boot.  If one service agent is
launched and never heard of, no number of steps, however far past the cap,
ends the run. *)
Theorem unbooted_service_agent_blocks a envs t x s :
  d_get (schedulers x) "service" = Some s → unbooted s a →
  (∀ env, env ∈ envs → Forall (λ r, agent_id r ≠ a) (all_replies (env "service"))) →
  (∀ t', spawns_agents (default [] (registry (src x) !! t'))) → spawns_agents (order_backlog (src x)) →
  ∀ k y, simulation_loop term cfgs kw t envs x ≠ Terminated k y.
Proof.
  revert t x s. induction envs as [|env envs IH]; intros t x s Hs Hun Hno Hreg Hback k y; cbn [simulation_loop];
  (assert (should_terminate term t (schedulers x) (src x) = false) as ->;
  [unfold should_terminate, service_scheduler_drained; rewrite Hs; apply andb_false_iff; right;
   apply bool_decide_eq_false_2; intros Hz%map_size_empty_inv; destruct Hun as [(e & He & _) _];
   rewrite Hz in He; by rewrite lookup_empty in He|]); [done|].
  destruct (sim_step term cfgs kw t env x) as [x'|] eqn:Est; [|done].
  assert (spawns_agents (order_backlog (src x) ++ default [] (registry (src x) !! t))) as Hdue.
  { unfold spawns_agents. apply Forall_app. split; [done|apply Hreg]. }
  unfold spawns_agents in Hdue.
  assert (spawns_agents (agents_for_step (src x) t).1) as Hsp.
  { simpl. unfold spawns_agents. apply Forall_app. split; [|apply Forall_take]; apply Forall_forall; intros it [_ Hit]%list_elem_of_filter;
  rewrite Forall_forall in Hdue; auto. }
  destruct (sim_step_service t env x x' s Est Hsp Hs) as (f & g & s' & Hst & Hs' & Hsrc & _).
  apply (IH (t + 1)%Z x' s'); [done| | |rewrite Hsrc; done|].
  - eapply step_keeps_unbooted; [exact Hst|apply Hno; by left|done].
  - intros env' Henv'. apply Hno. by right.
  - rewrite Hsrc. simpl. unfold spawns_agents. apply Forall_drop, Forall_forall. intros it [_ Hit]%list_elem_of_filter.
  rewrite Forall_forall in Hdue. auto.
Qed.
End Ending.

(** ** Status writes tell the truth *)

Section StatusWrites.
Context (patch : nat → pyval → result http) (refetch : nat → result http).

(** The PATCH of an attempt lost the race for the etag. *)
Definition lost_race (attempt : nat) (etag : pyval) : Prop :=
  ∃ h, patch attempt etag = Ok h ∧ status_code h = 412%Z.

(** The GET after it supplied the next etag. *)
Definition refreshed (attempt : nat) (etag : pyval) : Prop :=
  ∃ h d, refetch attempt = Ok h ∧ status_code h = 200%Z ∧ json h = Ok d ∧ d_get d "_etag" = Some etag.

Definition accepted (attempt : nat) (etag : pyval) (d : pydict) : Prop :=
  ∃ h, patch attempt etag = Ok h ∧ (status_code h = 200 ∨ status_code h = 201)%Z ∧ json h = Ok d.

(** A history of attempts: all but the last one lost the race. *)
Fixpoint history (attempt : nat) (sent : list pyval) (final : nat → pyval → Prop) : Prop :=
  match sent with
  | [] => False
  | [etag] => final attempt etag
  | etag :: ((etag' :: _) as sent) => lost_race attempt etag ∧ refreshed attempt etag' ∧ history (S attempt) sent final
  end.

Lemma status_attempts_spec remaining attempt etag :
  let '(r, sent) := status_attempts patch refetch remaining attempt etag in
  (length sent ≤ S remaining)%nat ∧ head sent = Some etag ∧
  history attempt sent (λ n e,
  match r with
  | Ok (Some d, w) => accepted n e d ∧ w = (if bool_decide (n = 1%nat) then OK else RETRIED_OK)
  | Ok (None, w) => w = STALE_ETAG_EXHAUSTED ∧ lost_race n e ∧ (n = attempt + remaining)%nat ∨ w = SERVER_ERROR
  | Raise _ => True
  end).
Proof.
  revert attempt etag. induction remaining as [|remaining IH]; intros attempt etag; cbn [status_attempts].
  - destruct (patch attempt etag) as [h|e] eqn:Ep; [|by split_and!].
  case_bool_decide as H200; [|destruct (status_code h =? 412)%Z eqn:E412]; simpl.
  + split_and!; [lia|done|]. destruct (json h) as [d|] eqn:Ej; simpl; [|done]. split; [by exists h|done].
  + split_and!; [lia|done|]. left. split_and!; [done| |lia]. exists h. split; [done|lia].
  + split_and!; [lia|done|by right].
  - destruct (patch attempt etag) as [h|e] eqn:Ep; [|split_and!; simpl; done || lia].
  case_bool_decide as H200; [|destruct (status_code h =? 412)%Z eqn:E412]; simpl.
  + split_and!; [lia|done|]. destruct (json h) as [d|] eqn:Ej; simpl; [|done]. split; [by exists h|done].
  + assert (lost_race attempt etag) as Hlost by (exists h; split; [done|lia]).
  destruct (refetch attempt) as [g|e] eqn:Eg; [|split_and!; simpl; done || lia].
  destruct (status_code g =? 200)%Z eqn:E200; simpl; [|split_and!; [lia|done|by right]].
  destruct (json g) as [d|e] eqn:Ed; cbn [mbind result_bind]; [|split_and!; simpl; done || lia].
  unfold item_of. destruct (d_get d "_etag") as [etag'|] eqn:Ee; [|split_and!; simpl; done || lia].
  specialize (IH (S attempt) etag'). destruct (status_attempts patch refetch remaining (S attempt) etag') as [r sent].
  destruct IH as (Hlen & Hhead & Hhist). split_and!; [simpl; lia|done|].
  destruct sent as [|e0 sent]; [done|]. injection Hhead as ->. simpl. split; [done|]. split.
  * exists g, d. split_and!; [done|lia|done|done].
  * replace (attempt + S remaining)%nat with (S attempt + remaining)%nat by lia. exact Hhist.
  + split_and!; [lia|done|by right].
Qed.

End StatusWrites.

(** The ledger counts the outcomes it lists. *)
Definition ledger_ok (l : status_ledger) : Prop :=
  status_write_failures l = length (filter (λ w, succeeded w = false) (status_write_outcomes l)) ∧
  consecutive_status_write_failures l =
    foldl (λ n w, if succeeded w then 0%nat else S n) 0%nat (status_write_outcomes l).

Lemma apply_status_write_ok result l : ledger_ok l → ledger_ok (apply_status_write result l).
Proof.
  unfold ledger_ok, apply_status_write. destruct result as [record w]; simpl. intros [-> ->].
  rewrite filter_app, length_app, foldl_app, filter_cons. simpl.
  destruct (succeeded w) eqn:E; simpl; split; lia || done.
Qed.

(** The terminal write: published as a last resort exactly when no attempt
    succeeded, after three of them. *)
Lemma write_terminal_status_spec write l :
  let '(w, l', published) := write_terminal_status write l in
  (published = negb (succeeded w)) ∧ terminal_status_write l' = Some w ∧
  (published = true → status_write_failures l' = (3 + status_write_failures l)%nat ∧ run_record l' = run_record l) ∧
  (ledger_ok l → ledger_ok l').
Proof.
  unfold write_terminal_status. simpl.
  destruct (write 1%nat (run_record l)) as [rec1 w1] eqn:E1; simpl. destruct (succeeded w1) eqn:S1; simpl.
  { rewrite S1. split_and!; try done. intros Hl. apply (apply_status_write_ok (rec1, w1)) in Hl.
    unfold apply_status_write in Hl. rewrite S1 in Hl. done. }
  destruct (write 2%nat (run_record l)) as [rec2 w2] eqn:E2; simpl. destruct (succeeded w2) eqn:S2; simpl.
  { rewrite S2. split_and!; try done. intros Hl. apply (apply_status_write_ok (rec1, w1)), (apply_status_write_ok (rec2, w2)) in Hl.
    unfold apply_status_write in Hl. rewrite S1, S2 in Hl. done. }
  destruct (write 3%nat (run_record l)) as [rec3 w3] eqn:E3; simpl. destruct (succeeded w3) eqn:S3; simpl; rewrite S3;
    (split_and!; try done; intros Hl;
     apply (apply_status_write_ok (rec1, w1)), (apply_status_write_ok (rec2, w2)), (apply_status_write_ok (rec3, w3)) in Hl;
     unfold apply_status_write in Hl; rewrite S1, S2, S3 in Hl; done).
Qed.

(** ** Runs *)

Module RuntimeExamples.
Import SchedulerExamples.

Definition term : horizon_drain := HorizonDrain 2 "agent" (Some 1%Z).
Definition cfgs (k : string) : settings := Settings (Some f_zero) None None true None.
Definition kw (k : string) : pyval := PNone.

Definition entry_of (pending : bool) : entry := Entry [] pending [(0%Z, Response None PNone PNone)].
Definition at_step (t : Z) (a : string) (pending : bool) : sched :=
  with_agents (insert a (entry_of pending)) (new_sched t).

(** At step 3 a truck is left, and one service agent. *)
Definition at_cap : sim :=
  Sim [("agent", at_step 3 "truck" false); ("service", at_step 3 "svc" false)] (empty_source 1 "order").
Definition answers_shutdown (k : string) : surroundings :=
  Surroundings [(if bool_decide (k = "service") then [says "svc" "shutdown" 3] else [], f_zero)] [].
Definition ok_or {A} (r : result A) (d : A) : A := match r with Ok a => a | Raise _ => d end.
Definition after_cap : sim := ok_or (sim_step term cfgs kw 3 answers_shutdown at_cap) at_cap.

Lemma drain_cap_terminates_witness :
  simulation_loop term cfgs kw 4 [] after_cap = Terminated 4 after_cap.
Proof.
  apply (drain_cap_terminates term cfgs kw 3 answers_shutdown at_cap after_cap (at_step 3 "svc" false)).
  - reflexivity.
  - reflexivity.
  - constructor.
  - reflexivity.
  - intros a e. unfold at_step. simpl. rewrite lookup_insert_Some. intros [[<- <-]|[_ Hl]]; [done|].
  by rewrite lookup_empty in Hl.
  - reflexivity.
  - repeat constructor.
  - vm_compute. reflexivity.
Defined.

(** The same run with a service agent that never boots. *)
Definition never_boots : sim :=
  Sim [("agent", new_sched 3); ("service", at_step 3 "svc" true)] (empty_source 1 "order").

Lemma unbooted_service_agent_blocks_witness :
  (∃ x, simulation_loop term cfgs kw 3 (replicate 20 (λ _, Surroundings [([], f_zero)] [])) never_boots = Running 23 x) ∧
  simulation_loop term cfgs kw 3 (replicate 20 (λ _, Surroundings [([], f_zero)] [])) never_boots ≠ Terminated 23 never_boots.
Proof.
  split; [eexists; vm_compute; reflexivity|].
  apply (unbooted_service_agent_blocks term cfgs kw "svc" _ 3 never_boots (at_step 3 "svc" true)).
  - reflexivity.
  - split; [exists (entry_of true); split; reflexivity|reflexivity].
  - intros env Henv. apply elem_of_replicate in Henv as [-> _]. constructor.
  - intros t'. simpl. rewrite lookup_empty. constructor.
  - constructor.
Defined.

(** A competing writer takes the etag once. *)
Definition contended (attempt : nat) (etag : pyval) : result http :=
  if bool_decide (attempt = 1%nat) then Ok (Http 412 (Ok [])) else Ok (Http 200 (Ok [("_id", PInt 1); ("_etag", PStr "e3")])).
Definition fresh_etag (attempt : nat) : result http := Ok (Http 200 (Ok [("_etag", PStr "e2")])).


(** Three orders due at step 0 and a cap of two; a truck due at step 1. *)
Definition order_at (id : string) (t : Z) : item := Item "agent" id [] "p" "c" "order" t.
Example batched_spawn :
  let src := foldl register (empty_source 2 "order")
  [order_at "o1" 0; order_at "o2" 0; order_at "o3" 0; Item "agent" "t1" [] "p" "c" "truck" 1; order_at "o4" 1] in
  map (map item_id) (spawn_steps src (seqZ 0 3)).1 = [["o1"; "o2"]; ["t1"; "o3"; "o4"]; []] ∧
  is_exhausted (spawn_steps src (seqZ 0 2)).2 = true.
Proof. by vm_compute. Qed.
End RuntimeExamples.
