(* ===== verification/Supervisor.v ===== *)
(** Supervised background tasks ([dataplane/supervisor.py]): runner threads as
    program counters over a shared task, interleaved at the granularity of its
    lock; restarts with backoff, stall detection, abandonment of wedged threads,
    health, and the watchdog over a registry of tasks.  The clock is a parameter of
    every step. *)

From Stdlib Require Import SpecFloat.
From S2P Require Import Prelude PyValue.
Open Scope Z_scope.

(** ** Data *)

(** How a task function ends: it returns, raises an [Exception], or raises past it
    ([SystemExit] and the like), which kills the thread. *)
Inductive outcome : Set := Returned | Crashed (message : string) | Escaped.

Inductive error : Set := CrashedWith (message : string) | ReturnedEarly | StalledOut | DidNotJoin.

Record options : Set := Options {
  backoff_initial : float64;
  backoff_max : float64;
  heartbeat_timeout : float64;
  reset_after : float64;
  unhealthy_after_failures : Z;
  stall_timeout : float64;
  restart_on_stall : bool;
}.

Definition DEFAULT_RESET_AFTER_S : float64 := f_of_Z 60.
Definition DEFAULT_UNHEALTHY_AFTER_FAILURES : Z := 3.

(** The constructor's arguments; a stall timeout not given is three heartbeats, and
    at least a second. *)
Definition make_options (initial max_ beat reset : float64) (failures : Z) (stall : option float64) (restart : bool) :
  options :=
  Options initial max_ beat reset failures
    (match stall with Some s => s | None => f_max (f_mul (f_of_Z 3) beat) (f_of_Z 1) end) restart.

(** Where a runner thread stands in [_runner]; [round] is the time its attempt
    began. *)
Inductive pc : Set :=
| PLoop                                      (* while not self._stop.is_set() *)
| POwned                                     (* is this generation still the owner? *)
| PStamp                                     (* _round_started *)
| PMark (round : float64)                    (* _mark_alive *)
| PCall (round : float64)                    (* the task function runs *)
| PCrashed (round : float64) (message : string)
| PReturned (round : float64)                (* was a stop requested? *)
| PEarly (round : float64)                   (* it was not *)
| PTest (round : float64)                    (* if self._stop.is_set(): break *)
| PBook (round : float64)                    (* count the failed attempt *)
| PRest                                      (* _mark_alive *)
| PNote                                      (* backoff_history.append *)
| PWait                                      (* self._stop.wait(backoff) *)
| PExit                                      (* _finished *)
| PGone.                                     (* the thread has ended *)

Record thread : Set := Thread { at_pc : pc; backoff : float64 }.

(** A thread object is named by the generation it was spawned for; the active one
    is that of [generation] ([0]: none yet). *)
Record task : Set := Task {
  generation : nat;
  threads : gmap nat thread;
  stop_set : bool;
  started_at : option float64;
  round_started : option float64;
  last_heartbeat : option float64;
  last_progress : option float64;
  restarts : Z;
  consecutive_failures : Z;
  abandoned : Z;
  last_error : option error;
  join_failed : bool;
  finished : bool;
  backoff_history : list float64;
}.

Definition new_task : task := Task 0 ∅ false None None None None 0 0 0 None false false [].

Definition with_threads (ts : gmap nat thread) (s : task) : task :=
  Task (generation s) ts (stop_set s) (started_at s) (round_started s) (last_heartbeat s) (last_progress s)
    (restarts s) (consecutive_failures s) (abandoned s) (last_error s) (join_failed s) (finished s) (backoff_history s).
Definition with_stop (b : bool) (s : task) : task :=
  Task (generation s) (threads s) b (started_at s) (round_started s) (last_heartbeat s) (last_progress s)
    (restarts s) (consecutive_failures s) (abandoned s) (last_error s) (join_failed s) (finished s) (backoff_history s).
Definition with_round (r : option float64) (s : task) : task :=
  Task (generation s) (threads s) (stop_set s) (started_at s) r (last_heartbeat s) (last_progress s)
    (restarts s) (consecutive_failures s) (abandoned s) (last_error s) (join_failed s) (finished s) (backoff_history s).
Definition with_marks (heartbeat progress : option float64) (s : task) : task :=
  Task (generation s) (threads s) (stop_set s) (started_at s) (round_started s) heartbeat progress
    (restarts s) (consecutive_failures s) (abandoned s) (last_error s) (join_failed s) (finished s) (backoff_history s).
Definition with_counts (r f a : Z) (s : task) : task :=
  Task (generation s) (threads s) (stop_set s) (started_at s) (round_started s) (last_heartbeat s) (last_progress s)
    r f a (last_error s) (join_failed s) (finished s) (backoff_history s).
Definition with_error (e : error) (s : task) : task :=
  Task (generation s) (threads s) (stop_set s) (started_at s) (round_started s) (last_heartbeat s) (last_progress s)
    (restarts s) (consecutive_failures s) (abandoned s) (Some e) (join_failed s) (finished s) (backoff_history s).
Definition with_ending (joined done : bool) (s : task) : task :=
  Task (generation s) (threads s) (stop_set s) (started_at s) (round_started s) (last_heartbeat s) (last_progress s)
    (restarts s) (consecutive_failures s) (abandoned s) (last_error s) joined done (backoff_history s).
Definition with_history (h : list float64) (s : task) : task :=
  Task (generation s) (threads s) (stop_set s) (started_at s) (round_started s) (last_heartbeat s) (last_progress s)
    (restarts s) (consecutive_failures s) (abandoned s) (last_error s) (join_failed s) (finished s) h.

(** ** Liveness *)

(** [_is_current_generation], for the thread of generation [g]. *)
Definition is_current (g : nat) (s : task) : bool := bool_decide (g = generation s).

(** [heartbeat] *)
Definition heartbeat (g : nat) (now : float64) (s : task) : task :=
  if is_current g s then with_marks (Some now) (Some now) s else s.

(** [_mark_alive] *)
Definition mark_alive (g : nat) (now : float64) (s : task) : task :=
  if is_current g s then with_marks (Some now) (last_progress s) s else s.

(** [stopping], asked by the thread of generation [g], or by a thread that is no
    runner of this task. *)
Definition stopping (g : option nat) (s : task) : bool :=
  stop_set s ||
  match g with
  | Some g => bool_decide (is_Some (threads s !! g)) && negb (is_current g s)
  | None => false
  end.

Definition thread_alive (t : thread) : bool := match at_pc t with PGone => false | _ => true end.

(** [alive] *)
Definition alive (s : task) : bool :=
  match threads s !! generation s with Some t => thread_alive t | None => false end.

(** What freshness is measured from: progress, or else the runner's mark. *)
Definition reference (s : task) : option float64 :=
  match last_progress s with Some t => Some t | None => last_heartbeat s end.

(** [stalled] *)
Definition stalled (o : options) (now : float64) (s : task) : bool :=
  negb (stop_set s) && alive s &&
  match reference s with Some t => f_ltb (stall_timeout o) (f_sub now t) | None => false end.

(** [_current_attempt_settled_locked] *)
Definition attempt_settled (o : options) (now : float64) (s : task) : bool :=
  match round_started s with Some t => f_leb (reset_after o) (f_sub now t) | None => false end.

(** [healthy] *)
Definition healthy (o : options) (now : float64) (s : task) : bool :=
  if join_failed s then false
  else if stop_set s && finished s then true
  else if negb (alive s) then false
  else if (0 <? unhealthy_after_failures o) && (unhealthy_after_failures o <=? consecutive_failures s)
          && negb (attempt_settled o now s) then false
  else match reference s with Some t => f_leb (f_sub now t) (heartbeat_timeout o) | None => false end.

(** [TaskStatus], without the name. *)
Record status : Set := Status {
  s_alive : bool;
  s_healthy : bool;
  s_started_at : option float64;
  s_last_heartbeat : option float64;
  s_restarts : Z;
  s_last_error : option error;
  s_consecutive_failures : Z;
  s_stalled : bool;
}.

(** [status] *)
Definition status_of (o : options) (now : float64) (s : task) : status :=
  Status (alive s) (healthy o now s) (started_at s) (last_heartbeat s) (restarts s) (last_error s)
    (consecutive_failures s) (stalled o now s).

(** ** Lifecycle *)

(** [_spawn_locked] *)
Definition spawn (o : options) (s : task) : task :=
  let g := S (generation s) in
  Task g (<[g := Thread PLoop (backoff_initial o)]> (threads s)) (stop_set s) (started_at s) (round_started s)
    (last_heartbeat s) (last_progress s) (restarts s) (consecutive_failures s) (abandoned s) (last_error s)
    (join_failed s) (finished s) (backoff_history s).

(** [start] *)
Definition start (o : options) (now : float64) (s : task) : task :=
  if alive s then s
  else
    spawn o (Task (generation s) (threads s) false (Some now) None (Some now) None (restarts s) 0 (abandoned s)
      (last_error s) false false (backoff_history s)).

(** [restart_stalled] *)
Definition restart_stalled (o : options) (now : float64) (s : task) : bool * task :=
  if negb (restart_on_stall o) then (false, s)
  else if stop_set s || negb (stalled o now s) then (false, s)
  else
    (true, spawn o (Task (generation s) (threads s) (stop_set s) (started_at s) (round_started s) (Some now) None
      (restarts s + 1) (consecutive_failures s) (abandoned s + 1) (Some StalledOut) (join_failed s) false
      (backoff_history s))).

(** [stop]: the signal, and a join that times out on a thread that is still there. *)
Definition stop (s : task) : task := with_stop true s.
Definition join_timeout (s : task) : task :=
  if alive s then with_error DidNotJoin (with_ending true (finished s) s) else s.

(** ** The runner *)

Definition goto (g : nat) (p : pc) (b : float64) (s : task) : task := with_threads (<[g := Thread p b]> (threads s)) s.

(** Counting an attempt that failed; [settled]: it had lasted long enough. *)
Definition settles (o : options) (now round : float64) : bool := f_leb (reset_after o) (f_sub now round).

Definition book (settled : bool) (s : task) : task :=
  with_round None
    (with_counts (restarts s + 1) (if settled then 0 else consecutive_failures s + 1) (abandoned s) s).

(** One step of the thread of generation [g] in [_runner]. *)
Definition step (o : options) (g : nat) (now : float64) (s : task) : task :=
  match threads s !! g with
  | None => s
  | Some (Thread p b) =>
      match p with
      | PLoop => goto g (if stop_set s then PExit else POwned) b s
      | POwned => goto g (if is_current g s then PStamp else PGone) b s
      | PStamp => goto g (PMark now) b (if is_current g s then with_round (Some now) s else s)
      | PMark r => goto g (PCall r) b (mark_alive g now s)
      | PCall _ => s
      | PCrashed r m => goto g (PTest r) b (if is_current g s then with_error (CrashedWith m) s else s)
      | PReturned r => goto g (if stop_set s then PExit else PEarly r) b s
      | PEarly r => goto g (PTest r) b (if is_current g s then with_error ReturnedEarly s else s)
      | PTest r => goto g (if stop_set s then PExit else PBook r) b s
      | PBook r =>
          if is_current g s then
            goto g PRest (if settles o now r then backoff_initial o else b) (book (settles o now r) s)
          else goto g PGone b s
      | PRest => goto g PNote b (mark_alive g now s)
      | PNote => goto g PWait b (with_history (backoff_history s ++ [b]) s)
      | PWait => if stop_set s then goto g PExit b s else goto g PLoop (f_min (f_mul b (f_of_Z 2)) (backoff_max o)) s
      | PExit => goto g PGone b (if is_current g s then with_ending (join_failed s) true s else s)
      | PGone => s
      end
  end.

(** The task function ends. *)
Definition ends (g : nat) (r : outcome) (s : task) : task :=
  match threads s !! g with
  | Some (Thread (PCall round) b) =>
      goto g (match r with Returned => PReturned round | Crashed m => PCrashed round m | Escaped => PGone end) b s
  | _ => s
  end.

(** A heartbeat comes from the task function. *)
Definition beats (g : nat) (now : float64) (s : task) : task :=
  match threads s !! g with
  | Some (Thread (PCall _) _) => heartbeat g now s
  | _ => s
  end.

(** What may happen to a task, in any order. *)
Inductive event : Set :=
| Start (now : float64)
| Stop
| JoinTimeout
| Watch (now : float64)
| Step (g : nat) (now : float64)
| Ends (g : nat) (r : outcome)
| Beats (g : nat) (now : float64).

Definition exec (o : options) (s : task) (e : event) : task :=
  match e with
  | Start now => start o now s
  | Stop => stop s
  | JoinTimeout => join_timeout s
  | Watch now => (restart_stalled o now s).2
  | Step g now => step o g now s
  | Ends g r => ends g r s
  | Beats g now => beats g now s
  end.

Definition run (o : options) (es : list event) (s : task) : task := foldl (exec o) s es.

(** ** The registry *)

(** [Supervisor]: tasks by name, in the order they were added. *)
Abbreviation supervisor := (list (string * (options * task))).

(** [add], [get] *)
Definition sup_add (name : string) (o : options) (sup : supervisor) : supervisor := d_set sup name (o, new_task).
Definition sup_get (name : string) (sup : supervisor) : option (options * task) := d_get sup name.

Definition on_tasks (f : options → task → task) (sup : supervisor) : supervisor :=
  (λ t, (t.1, (t.2.1, f t.2.1 t.2.2))) <$> sup.

(** [start_all]; [stop_all] signals everyone before it joins anyone. *)
Definition start_all (now : float64) : supervisor → supervisor := on_tasks (λ o s, start o now s).
Definition stop_all : supervisor → supervisor := on_tasks (λ _ s, stop s).

(** [watchdog_tick] *)
Definition watchdog_tick (now : float64) (sup : supervisor) : list string * supervisor :=
  (omap (λ t, if (restart_stalled t.2.1 now t.2.2).1 then Some t.1 else None) sup,
   on_tasks (λ o s, (restart_stalled o now s).2) sup).

(** [stalled_tasks], [healthy] *)
Definition stalled_tasks (now : float64) (sup : supervisor) : list string :=
  omap (λ t, if stalled t.2.1 now t.2.2 then Some t.1 else None) sup.
Definition all_healthy (now : float64) (sup : supervisor) : bool :=
  forallb (λ t, healthy t.2.1 now t.2.2) sup.

(** ** Invariant *)

(** A delay that is the first one, or not above the largest. *)
Definition bounded (o : options) (b : float64) : Prop := b = backoff_initial o ∨ f_ltb (backoff_max o) b = false.

Record task_ok (o : options) (s : task) : Prop := {
  ok_named g t : threads s !! g = Some t → (1 ≤ g ≤ generation s)%nat;
  ok_active : generation s ≠ 0%nat → is_Some (threads s !! generation s);
  ok_counts : 0 ≤ consecutive_failures s ≤ restarts s ∧ 0 ≤ abandoned s ≤ restarts s;
  ok_backoffs g t : threads s !! g = Some t → bounded o (backoff t);
  ok_history : Forall (bounded o) (backoff_history s);
  ok_finished : finished s = true → alive s = false;
}.

Lemma f_min_bounded o b : bounded o (f_min b (backoff_max o)).
Proof.
  right. unfold f_min. destruct (f_ltb (backoff_max o) b) eqn:E; [|done].
  unfold f_ltb, SFltb. destruct (backoff_max o) as [|[]| |[] m e]; try done; cbn;
    by rewrite Z.compare_refl, ?Pos.compare_cont_refl.
Qed.

Lemma new_task_ok o : task_ok o new_task.
Proof. split; cbn; try done; try lia. Qed.

Lemma goto_alive g p b s :
  alive (goto g p b s) = if is_current g s then thread_alive (Thread p b) else alive s.
Proof.
  unfold alive, goto, is_current. cbn [threads with_threads generation].
  case_bool_decide; subst; by rewrite ?lookup_insert_eq, ?lookup_insert_ne by done.
Qed.

Lemma goto_ok o g t p b s :
  task_ok o s → threads s !! g = Some t → bounded o b →
  (finished s = true → is_current g s = true → p = PGone) → task_ok o (goto g p b s).
Proof.
  intros [Hn Ha Hc Hb Hh Hf] Hg Hbound Hfin. split; cbn [goto with_threads generation threads]; try done.
  - intros g' t'. destruct (decide (g = g')) as [<-|]; [intros _; eauto|rewrite lookup_insert_ne by done; eauto].
  - intros Hgen. destruct (decide (g = generation s)) as [<-|]; [rewrite lookup_insert_eq; eauto|].
    rewrite lookup_insert_ne by done. by apply Ha.
  - intros g' t'. destruct (decide (g = g')) as [<-|]; [rewrite lookup_insert_eq; by intros [= <-]|].
    rewrite lookup_insert_ne by done. eauto.
  - intros Hfinished. rewrite goto_alive. destruct (is_current g s) eqn:E; [|by apply Hf]. by rewrite Hfin.
Qed.

(** A change of the face of a task that keeps the counts in order. *)
Lemma face_ok o s s' :
  task_ok o s → generation s' = generation s → threads s' = threads s → backoff_history s' = backoff_history s →
  (0 ≤ consecutive_failures s' ≤ restarts s' ∧ 0 ≤ abandoned s' ≤ restarts s') →
  (finished s' = true → finished s = true ∨ alive s = false) → task_ok o s'.
Proof.
  intros [Hn Ha Hc Hb Hh Hf] Hg Ht Hb' Hc' Hf'. assert (alive s' = alive s) as Hal by (unfold alive; by rewrite Hg, Ht).
  split; rewrite ?Hg, ?Ht, ?Hb', ?Hal; auto. intros H. destruct (Hf' H); auto.
Qed.

Lemma mark_alive_face g now s : ∃ m, mark_alive g now s = with_marks m (last_progress s) s.
Proof. unfold mark_alive. destruct (is_current g s); [eauto|]. exists (last_heartbeat s). by destruct s. Qed.

Lemma spawn_ok o s : task_ok o s → finished s = false → task_ok o (spawn o s).
Proof.
  intros [Hn Ha Hc Hb Hh Hf] Hfin. split; cbn [spawn generation threads]; try done.
  - intros g t. destruct (decide (S (generation s) = g)) as [<-|]; [lia|]. rewrite lookup_insert_ne by done.
    intros Hg%Hn. lia.
  - intros _. rewrite lookup_insert_eq. eauto.
  - intros g t. destruct (decide (S (generation s) = g)) as [<-|].
    + rewrite lookup_insert_eq. intros [= <-]. by left.
    + rewrite lookup_insert_ne by done. eauto.
  - cbn. by rewrite Hfin.
Qed.

Lemma start_ok o now s : task_ok o s → task_ok o (start o now s).
Proof.
  intros Hok. unfold start. destruct (alive s); [done|]. apply spawn_ok; [|done].
  eapply face_ok; [done..| |done]. destruct (ok_counts o s Hok). cbn. lia.
Qed.

Lemma restart_stalled_ok o now s : task_ok o s → task_ok o (restart_stalled o now s).2.
Proof.
  intros Hok. unfold restart_stalled. destruct (negb _); [done|]. destruct (_ || _); [done|]. cbn [snd].
  apply spawn_ok; [|done]. eapply face_ok; [done..| |done]. destruct (ok_counts o s Hok). cbn. lia.
Qed.

Lemma join_timeout_ok o s : task_ok o s → task_ok o (join_timeout s).
Proof.
  intros Hok. unfold join_timeout. destruct (alive s); [|done].
  eapply face_ok; [done..|by destruct (ok_counts o s Hok)|cbn; auto].
Qed.

Lemma not_finished o g p b s :
  task_ok o s → threads s !! g = Some (Thread p b) → p ≠ PGone → finished s = true → is_current g s = true → False.
Proof.
  intros Hok Hg Hp Hfin Hcur. pose proof (ok_finished o s Hok Hfin) as Ha. unfold alive, is_current in *.
  apply bool_decide_eq_true in Hcur. rewrite <- Hcur, Hg in Ha. by destruct p.
Qed.

Lemma runner_step_ok o g now s : task_ok o s → task_ok o (step o g now s).
Proof.
  intros Hok. unfold step. destruct (threads s !! g) as [[p b]|] eqn:Hg; [|done].
  pose proof (ok_backoffs o s Hok g _ Hg) as Hb. cbn in Hb.
  assert (∀ s', task_ok o s' → threads s' = threads s → finished s' = finished s → is_current g s' = is_current g s →
    ∀ p' b', p ≠ PGone → bounded o b' → task_ok o (goto g p' b' s')) as Hgo.
  { intros s' Hok' Ht Hf Hc p' b' Hp Hb'. eapply goto_ok; [done|by rewrite Ht|done|].
    rewrite Hf, Hc. intros. by destruct (not_finished o g p b s). }
  pose proof (ok_counts o s Hok) as Hcounts.
  destruct p; try done; try (apply (Hgo s); done).
  - destruct (is_current g s) eqn:E; apply Hgo; try done. by eapply face_ok; eauto.
  - destruct (mark_alive_face g now s) as [m ->]. apply Hgo; try done. by eapply face_ok; eauto.
  - destruct (is_current g s) eqn:E; apply Hgo; try done. by eapply face_ok; eauto.
  - destruct (is_current g s) eqn:E; apply Hgo; try done. by eapply face_ok; eauto.
  - destruct (is_current g s) eqn:E; [|by apply Hgo].
    apply Hgo; try done; [|destruct (settles o now round); [by left|done]].
    eapply face_ok; [done..| |auto]. cbn. destruct (settles o now round); lia.
  - destruct (mark_alive_face g now s) as [m ->]. apply Hgo; try done. by eapply face_ok; eauto.
  - apply Hgo; try done. destruct Hok as [Hn Ha Hc Hb' Hh Hf]. split; try done. cbn. by apply Forall_app_2; [|constructor].
  - destruct (stop_set s); apply Hgo; try done. apply f_min_bounded.
  - assert (threads s !! g = Some (Thread PExit b)) as Hg' by done.
    destruct (is_current g s) eqn:E; [|by apply Hgo].
    destruct Hok as [Hn Ha Hc Hb' Hh Hf]. split; cbn; try done.
    + intros g' t'. destruct (decide (g = g')) as [<-|]; [intros _; eauto|rewrite lookup_insert_ne by done; eauto].
    + intros Hgen. destruct (decide (g = generation s)) as [<-|]; [rewrite lookup_insert_eq; eauto|].
      rewrite lookup_insert_ne by done. by apply Ha.
    + intros g' t'. destruct (decide (g = g')) as [<-|]; [rewrite lookup_insert_eq; by intros [= <-]|].
      rewrite lookup_insert_ne by done. eauto.
    + intros _. rewrite goto_alive. unfold is_current in *. cbn. by rewrite E.
Qed.

Lemma ends_ok o g r s : task_ok o s → task_ok o (ends g r s).
Proof.
  intros Hok. unfold ends. destruct (threads s !! g) as [[[] b]|] eqn:Hg; try done.
  eapply goto_ok; [done..| |]; [by apply (ok_backoffs o s Hok g _ Hg)|].
  intros Hfin Hcur. by destruct (not_finished o g _ b s Hok Hg).
Qed.

Lemma beats_ok o g now s : task_ok o s → task_ok o (beats g now s).
Proof.
  intros Hok. unfold beats, heartbeat. repeat (case_match; try done).
  eapply face_ok; [done..|by apply (ok_counts o s Hok)|auto].
Qed.

Lemma exec_ok o e s : task_ok o s → task_ok o (exec o s e).
Proof.
  intros Hok. destruct e; cbn [exec];
    auto using start_ok, join_timeout_ok, restart_stalled_ok, runner_step_ok, ends_ok, beats_ok.
  eapply face_ok; [done..|by apply (ok_counts o s Hok)|auto].
Qed.

(** the supervised task is well formed whatever happens to it.  However its
    starts, stops, join timeouts, watchdog ticks, thread steps, crashes and
    heartbeats interleave, threads are named by the generations spawned so far and
    the active one is the last; failures in a row and abandonments are at most the
    restarts; every delay ever waited is the first one or at most the largest; and
    a task reported as cleanly finished has no live thread. *)
Theorem supervision_invariant (o : options) (es : list event) : task_ok o (run o es new_task).
Proof. apply (foldl_invariant (exec o) (task_ok o)); [intros; by apply exec_ok|apply new_task_ok]. Qed.

(** ** Abandoned threads *)

(** The thread of [g] exists, and is no longer the active one. *)
Definition superseded (g : nat) (s : task) : Prop := (g < generation s)%nat ∧ is_Some (threads s !! g).

(** An event of the thread of [g]. *)
Definition of_thread (g : nat) (e : event) : bool :=
  match e with
  | Step g' _ | Ends g' _ | Beats g' _ => bool_decide (g' = g)
  | _ => false
  end.

(** Equal but for the thread of [g] and the delays recorded. *)
Definition same_but (g : nat) (s s' : task) : Prop :=
  ∃ ts h, s = with_threads ts (with_history h s') ∧ ∀ g', g' ≠ g → ts !! g' = threads s' !! g'.

Lemma same_but_refl g s : same_but g s s.
Proof. exists (threads s), (backoff_history s). by destruct s. Qed.

Lemma same_but_trans g s1 s2 s3 : same_but g s1 s2 → same_but g s2 s3 → same_but g s1 s3.
Proof.
  intros (ts & h & -> & H1) (ts' & h' & -> & H2). exists ts, h. split; [done|].
  intros g' Hg. rewrite H1 by done. cbn. by apply H2.
Qed.

Lemma superseded_insert g g' t s :
  superseded g s → is_Some (<[g' := t]> (threads s) !! g).
Proof. intros [_ Hg]. destruct (decide (g' = g)) as [->|]; by rewrite ?lookup_insert_eq, ?lookup_insert_ne. Qed.

Lemma superseded_goto g g' p b s : superseded g s → superseded g (goto g' p b s).
Proof. intros Hs. split; [apply Hs|]. by apply superseded_insert. Qed.

Lemma superseded_spawn o g s : superseded g s → superseded g (spawn o s).
Proof. intros Hs. split; [destruct Hs; cbn; lia|]. by apply superseded_insert. Qed.

Lemma superseded_same g s s' : generation s = generation s' → threads s = threads s' → superseded g s → superseded g s'.
Proof. intros H1 H2. unfold superseded. by rewrite H1, H2. Qed.

Lemma superseded_mark g g' now s : superseded g s → superseded g (mark_alive g' now s).
Proof. intros Hs. destruct (mark_alive_face g' now s) as [m ->]. done. Qed.

(** Once superseded, always superseded. *)
Lemma exec_superseded o g e s : superseded g s → superseded g (exec o s e).
Proof.
  intros Hs. destruct e; cbn [exec]; try done.
  - unfold start. destruct (alive s); [done|]. by apply superseded_spawn.
  - unfold join_timeout. by destruct (alive s).
  - unfold restart_stalled. destruct (negb _); [done|]. destruct (_ || _); [done|]. by apply superseded_spawn.
  - unfold step. destruct (threads s !! g0) as [[p b]|]; [|done].
    destruct p; repeat case_match; try done; try apply superseded_goto; try apply superseded_mark; try done;
      by repeat case_match.
  - unfold ends. destruct (threads s !! g0) as [[[] b]|]; try done. by apply superseded_goto.
  - unfold beats, heartbeat. by repeat case_match.
Qed.

Lemma superseded_not_current g s : superseded g s → is_current g s = false.
Proof. intros [Hg _]. apply bool_decide_eq_false. lia. Qed.

Lemma goto_same g p b s : same_but g (goto g p b s) s.
Proof. exists (<[g := Thread p b]> (threads s)), (backoff_history s). split; [by destruct s|]. intros. by rewrite lookup_insert_ne. Qed.

Lemma history_same g h s : same_but g (with_history h s) s.
Proof. exists (threads s), h. by destruct s. Qed.

(** What a superseded thread does shows nowhere. *)
Lemma superseded_mute o g e s : superseded g s → of_thread g e = true → same_but g (exec o s e) s.
Proof.
  intros Hs He. pose proof (superseded_not_current g s Hs) as Hc.
  destruct e as [| | | |g' now|g' r|g' now]; try done; apply bool_decide_eq_true in He as ->; cbn [exec].
  - unfold step, mark_alive. destruct (threads s !! g) as [[p b]|]; [|apply same_but_refl].
    rewrite Hc. destruct p; try apply goto_same; try apply same_but_refl.
    + eapply same_but_trans; [apply goto_same|apply history_same].
    + destruct (stop_set s); apply goto_same.
  - unfold ends. destruct (threads s !! g) as [[[] b]|]; try apply same_but_refl. apply goto_same.
  - unfold beats, heartbeat. rewrite Hc. repeat case_match; apply same_but_refl.
Qed.

Lemma same_but_goto g g' p b s s' : same_but g s s' → same_but g (goto g' p b s) (goto g' p b s').
Proof.
  intros (ts & h & -> & Ht). exists (<[g' := Thread p b]> ts), h. split; [done|]. intros g'' Hg. cbn.
  destruct (decide (g' = g'')) as [->|]; by rewrite ?lookup_insert_eq, ?lookup_insert_ne, ?Ht.
Qed.

Lemma same_but_spawn o g s s' : same_but g s s' → same_but g (spawn o s) (spawn o s').
Proof.
  intros (ts & h & -> & Ht). eexists (<[S (generation s') := _]> ts), h. split; [done|]. intros g'' Hg. cbn.
  destruct (decide (S (generation s') = g'')) as [->|]; by rewrite ?lookup_insert_eq, ?lookup_insert_ne, ?Ht.
Qed.

(** A change of the face only. *)
Lemma same_but_face g (f : task → task) s s' :
  (∀ ts h, f (with_threads ts (with_history h s')) = with_threads ts (with_history h (f s'))) →
  threads (f s') = threads s' → same_but g s s' → same_but g (f s) (f s').
Proof. intros Hf Hth (ts & h & -> & Ht). exists ts, h. by rewrite Hf, Hth. Qed.

Lemma same_but_alive g s s' : same_but g s s' → generation s' ≠ g → alive s = alive s'.
Proof. intros (ts & h & -> & Ht) Hg. unfold alive. cbn. by rewrite Ht. Qed.

Lemma same_but_stalled o now g s s' : same_but g s s' → generation s' ≠ g → stalled o now s = stalled o now s'.
Proof. intros Hs Hg. unfold stalled. rewrite (same_but_alive g s s') by done. by destruct Hs as (ts & h & -> & _). Qed.

Lemma same_but_step o g g' now s s' :
  same_but g s s' → g' ≠ g → same_but g (step o g' now s) (step o g' now s').
Proof.
  intros Hs Hg. unfold step, mark_alive, is_current.
  assert (threads s !! g' = threads s' !! g') as -> by (destruct Hs as (ts & h & -> & Ht); by apply Ht).
  assert (generation s = generation s' ∧ stop_set s = stop_set s' ∧ last_progress s = last_progress s' ∧ join_failed s = join_failed s')
    as (-> & -> & -> & ->) by (by destruct Hs as (ts & h & -> & _)).
  destruct (threads s' !! g') as [[p b]|]; [|done].
  assert (∀ f, (∀ ts h, f (with_threads ts (with_history h s')) = with_threads ts (with_history h (f s'))) →
    threads (f s') = threads s' → same_but g (f s) (f s')) as Hface by (intros; by apply same_but_face).
  destruct p; try done; try (by apply same_but_goto);
    repeat case_match; try (apply same_but_goto; try done; by match goal with |- same_but _ (?f _) _ => apply (Hface f) end).
  apply same_but_goto. destruct Hs as (ts & h & -> & Ht). by exists ts, (h ++ [b]).
Qed.

Lemma exec_same_but o g e s s' :
  same_but g s s' → superseded g s' → of_thread g e = false → same_but g (exec o s e) (exec o s' e).
Proof.
  intros Hs Hsup He. assert (generation s' ≠ g) as Hgen by (destruct Hsup; lia).
  assert (∀ f, (∀ ts h, f (with_threads ts (with_history h s')) = with_threads ts (with_history h (f s'))) →
    threads (f s') = threads s' → same_but g (f s) (f s')) as Hface by (intros; by apply same_but_face).
  destruct e as [now| | |now|g' now|g' r|g' now]; cbn [exec of_thread] in *.
  - unfold start. rewrite (same_but_alive g s s') by done. destruct (alive s'); [done|].
    apply same_but_spawn. destruct Hs as (ts & h & -> & Ht). by exists ts, h.
  - by apply (Hface stop).
  - unfold join_timeout. rewrite (same_but_alive g s s') by done. destruct (alive s'); [|done].
    destruct Hs as (ts & h & -> & Ht). by exists ts, h.
  - unfold restart_stalled. rewrite (same_but_stalled o now g s s') by done.
    assert (stop_set s = stop_set s') as -> by (by destruct Hs as (ts & h & -> & _)).
    destruct (negb _); [done|]. destruct (_ || _); [done|]. cbn [snd].
    apply same_but_spawn. destruct Hs as (ts & h & -> & Ht). by exists ts, h.
  - apply bool_decide_eq_false in He. by apply same_but_step.
  - apply bool_decide_eq_false in He. unfold ends.
    assert (threads s !! g' = threads s' !! g') as -> by (destruct Hs as (ts & h & -> & Ht); by apply Ht).
    destruct (threads s' !! g') as [[[] b]|]; try done. by apply same_but_goto.
  - apply bool_decide_eq_false in He. unfold beats, heartbeat, is_current.
    assert (threads s !! g' = threads s' !! g') as -> by (destruct Hs as (ts & h & -> & Ht); by apply Ht).
    assert (generation s = generation s') as -> by (by destruct Hs as (ts & h & -> & _)).
    destruct (threads s' !! g') as [[[] b]|]; try done. case_bool_decide; [|done].
    by apply (Hface (with_marks (Some now) (Some now))).
Qed.

(** C34: an abandoned thread cannot be seen.  Once a thread has been superseded,
    everything it still does (steps of the runner, crashes, heartbeats, in any
    interleaving with the rest) can be erased from the history: the task ends with
    the same liveness, progress, counters, errors, active thread and health, and
    with the other threads where they would have been; only the list of delays
    records that it was there. *)
Theorem superseded_does_not_interfere (o : options) (g : nat) (es : list event) (s : task) (Hsup : superseded g s) :
  same_but g (run o es s) (run o (filter (λ e, of_thread g e = false) es) s).
Proof.
  assert (∀ s s', same_but g s s' → superseded g s → superseded g s' →
    same_but g (run o es s) (run o (filter (λ e, of_thread g e = false) es) s')) as Hgo;
    [|by apply Hgo; [apply same_but_refl|..]].
  clear s Hsup. induction es as [|e es IH]; intros s s' Hs Hsup Hsup'; [done|]. rewrite filter_cons. cbn [run foldl].
  case_decide as He; cbn [foldl].
  - apply IH; [by apply exec_same_but|by apply exec_superseded..].
  - apply IH; [|by apply exec_superseded|done]. eapply same_but_trans; [|done].
    apply superseded_mute; [done|by destruct (of_thread g e)].
Qed.

(** How far a thread that is not wanted has to go. *)
Definition rank (p : pc) : nat :=
  match p with
  | PGone => 0 | PExit => 1 | POwned => 2 | PLoop => 3 | PWait => 4 | PNote => 5 | PRest => 6 | PBook _ => 7
  | PTest _ => 8 | PEarly _ | PCrashed _ _ => 9 | PReturned _ => 10 | PCall _ => 11 | PMark _ => 12 | PStamp => 13
  end.

Definition rank_of (g : nat) (s : task) : nat := match threads s !! g with Some t => rank (at_pc t) | None => 0 end.

(** The thread of [g] moves: its runner takes a step, or its function ends. *)
Definition moves (g : nat) (s : task) (e : event) : bool :=
  match e, threads s !! g with
  | Step g' _, Some (Thread p _) => bool_decide (g' = g) && match p with PCall _ | PGone => false | _ => true end
  | Ends g' _, Some (Thread (PCall _) _) => bool_decide (g' = g)
  | _, _ => false
  end.

(** It calls the task function. *)
Definition calls (g : nat) (s : task) (e : event) : bool :=
  moves g s e && match threads s !! g with Some (Thread (PMark _) _) => true | _ => false end.

(** How often an event of some kind happens in a history. *)
Fixpoint occurs (f : task → event → bool) (o : options) (es : list event) (s : task) : nat :=
  match es with
  | [] => 0
  | e :: es => (if f s e then 1 else 0) + occurs f o es (exec o s e)
  end.

Lemma rank_goto g g' p b s : rank_of g (goto g' p b s) = if decide (g = g') then rank p else rank_of g s.
Proof. unfold rank_of. cbn. case_decide; subst; by rewrite ?lookup_insert_eq, ?lookup_insert_ne. Qed.

Lemma rank_spawn o g s : (g ≤ generation s)%nat → rank_of g (spawn o s) = rank_of g s.
Proof. intros. unfold rank_of. cbn. by rewrite lookup_insert_ne by lia. Qed.

Lemma rank_marked g g' now s : rank_of g (mark_alive g' now s) = rank_of g s.
Proof. by destruct (mark_alive_face g' now s) as [m ->]. Qed.

(** Every move of a superseded thread takes it closer to its end, and nothing else
    moves it. *)
Lemma rank_exec o g s e :
  superseded g s →
  (rank_of g (exec o s e) + (if moves g s e then 1 else 0) ≤ rank_of g s ∧
   (calls g s e = true → rank_of g s = 12 ∧ rank_of g (exec o s e) = 11))%nat.
Proof.
  intros Hsup. pose proof (superseded_not_current g s Hsup) as Hc.
  destruct e as [now| | |now|g' now|g' r|g' now]; unfold calls, moves; cbn [exec].
  - cbn. rewrite Nat.add_0_r. split; [|done]. unfold start. destruct (alive s); [done|]. rewrite rank_spawn; [done|destruct Hsup; cbn; lia].
  - cbn. split; [unfold rank_of; cbn; lia|done].
  - cbn. split; [|done]. unfold join_timeout. destruct (alive s); unfold rank_of; cbn; lia.
  - cbn. rewrite Nat.add_0_r. split; [|done]. unfold restart_stalled. destruct (negb _); [done|]. destruct (_ || _); [done|].
    cbn [snd]. rewrite rank_spawn; [done|destruct Hsup; cbn; lia].
  - case_bool_decide as Hg.
    + subst g'. unfold step, mark_alive, rank_of. rewrite Hc.
      destruct (threads s !! g) as [[p b]|] eqn:E; [|cbn; rewrite ?E; cbn; split; [lia|done]].
      destruct p; try destruct (stop_set s); cbn; rewrite ?lookup_insert_eq, ?E; cbn; split; try done; try lia.
    + assert (rank_of g (step o g' now s) = rank_of g s) as ->.
      { unfold step. destruct (threads s !! g') as [[p b]|]; [|done].
        destruct p; repeat case_match; try done; rewrite rank_goto, decide_False by done; try done; apply rank_marked. }
      destruct (threads s !! g) as [[]|]; cbn; split; try done; lia.
  - case_bool_decide as Hg.
    + subst g'. unfold ends, rank_of. destruct (threads s !! g) as [[[] b]|] eqn:E; cbn; rewrite ?lookup_insert_eq, ?E;
        cbn; try (split; [lia|done]). destruct r; cbn; split; [lia|done|lia|done|lia|done].
    + assert (rank_of g (ends g' r s) = rank_of g s) as ->.
      { unfold ends. destruct (threads s !! g') as [[[] b]|]; try done. by rewrite rank_goto, decide_False. }
      destruct (threads s !! g) as [[[]]|]; cbn; split; try done; lia.
  - cbn. split; [|done]. unfold beats, heartbeat. repeat case_match; unfold rank_of; cbn; lia.
Qed.

(** an abandoned thread leaves.  From the moment a thread is superseded its
    function is told to stop whenever it asks, and over any continuation of the
    history, restarts and all, the thread makes at most thirteen more moves (a
    step of its runner, or its function ending) and calls the task function at
    most once more: so it never works beside its replacement for more than the
    attempt it was in. *)
Theorem superseded_thread_leaves (o : options) (g : nat) (es : list event) (s : task) (Hsup : superseded g s) :
  stopping (Some g) (run o es s) = true ∧ (occurs (moves g) o es s ≤ 13)%nat ∧ (occurs (calls g) o es s ≤ 1)%nat.
Proof.
  split.
  - assert (superseded g (run o es s)) as Hs by (apply (foldl_invariant (exec o) (superseded g)); [intros; by apply exec_superseded|done]).
    unfold stopping. rewrite (superseded_not_current g _ Hs), bool_decide_true by apply Hs. apply orb_true_r.
  - assert ((occurs (moves g) o es s ≤ rank_of g s)%nat ∧
      (occurs (calls g) o es s ≤ if decide (12 ≤ rank_of g s)%nat then 1 else 0)%nat) as [H1 H2].
    { revert s Hsup. induction es as [|e es IH]; intros s Hsup; [cbn; split; [lia|case_decide; lia]|].
      destruct (rank_exec o g s e Hsup) as [Hr Hcall]. destruct (IH (exec o s e)) as [I1 I2]; [by apply exec_superseded|].
      cbn [occurs]. split; [lia|]. destruct (calls g s e).
      - destruct (Hcall eq_refl) as [-> Hr']. rewrite Hr', decide_False in I2 by lia. rewrite decide_True by lia. lia.
      - destruct (decide (12 ≤ rank_of g (exec o s e))%nat), (decide (12 ≤ rank_of g s)%nat), (moves g s e); lia. }
    split; [|destruct (decide (12 ≤ rank_of g s)%nat); lia]. etrans; [exact H1|]. unfold rank_of.
    destruct (threads s !! g) as [[p b]|]; [destruct p; cbn; lia|lia].
Qed.

(** ** Restart storms *)

(** The active thread counts a failed attempt that had, or had not, settled. *)
Definition books (settled : bool) (o : options) (s : task) (e : event) : bool :=
  match e with
  | Step g now =>
      match threads s !! g with
      | Some (Thread (PBook r) _) => is_current g s && eqb (settles o now r) settled
      | _ => false
      end
  | _ => false
  end.

Lemma failures_exec o s e :
  (∀ now, e ≠ Start now) → books true o s e = false →
  consecutive_failures (exec o s e) = consecutive_failures s + (if books false o s e then 1 else 0).
Proof.
  intros Hstart Hb. unfold books in *. destruct e as [now| | |now|g now|g r|g now]; try (by destruct (Hstart now));
    cbn [exec]; rewrite ?Z.add_0_r; try done.
  - unfold join_timeout. by destruct (alive s).
  - unfold restart_stalled. destruct (negb _); [done|]. by destruct (_ || _).
  - unfold step, mark_alive. destruct (threads s !! g) as [[p b]|]; [|lia].
    destruct p; try (cbn; lia); try (by destruct (stop_set s); cbn; lia); try (by destruct (is_current g s); cbn; lia).
    destruct (is_current g s), (settles o now round); cbn in *; try done; lia.
  - unfold ends. by destruct (threads s !! g) as [[[] b]|].
  - unfold beats, heartbeat. by repeat case_match.
Qed.

Lemma failures_run o es s :
  Forall (λ e, ∀ now, e ≠ Start now) es → occurs (books true o) o es s = 0%nat →
  consecutive_failures (run o es s) = consecutive_failures s + Z.of_nat (occurs (books false o) o es s).
Proof.
  revert s. induction es as [|e es IH]; intros s Hes Hset; [cbn; lia|].
  apply Forall_cons in Hes as [He Hes]. cbn [occurs run foldl] in *.
  destruct (books true o s e) eqn:Hb; [lia|]. unfold run in IH. rewrite IH by (done || lia).
  rewrite failures_exec by done. destruct (books false o s e); lia.
Qed.

(** a crash loop is unhealthy, however lively its runner looks.  Over any
    history in which the task is not started anew and no failed attempt had
    settled, every failure counts, through abandonments too; once as many as
    [unhealthy_after_failures] have, the task is unhealthy at every moment until
    the attempt that is running has lasted [reset_after] seconds. *)
Theorem storm_is_unhealthy (o : options) (es : list event) (s : task) (now : float64)
    (Hstart : Forall (λ e, ∀ now, e ≠ Start now) es) (Hunsettled : occurs (books true o) o es s = 0%nat)
    (Hstorm : 0 < unhealthy_after_failures o ≤ consecutive_failures s + Z.of_nat (occurs (books false o) o es s))
    (Hstop : stop_set (run o es s) = false) (Hrunning : attempt_settled o now (run o es s) = false) :
  healthy o now (run o es s) = false.
Proof.
  rewrite <- (failures_run o es s) in Hstorm by done. unfold healthy. rewrite Hstop, Hrunning.
  destruct (join_failed _); [done|]. cbn [andb negb]. destruct (negb (alive _)); [done|].
  assert (0 <? unhealthy_after_failures o = true) as -> by lia.
  by assert (unhealthy_after_failures o <=? consecutive_failures (run o es s) = true) as -> by lia.
Qed.

(** ** Wedged tasks *)

Lemma run_cons o e es s : run o (e :: es) s = run o es (exec o s e).
Proof. done. Qed.

Lemma goto_goto g p b p' b' s : goto g p' b' (goto g p b s) = goto g p' b' s.
Proof. unfold goto, with_threads. cbn. by rewrite insert_insert_eq. Qed.

Lemma step_loop o g now b s : step o g now (goto g PLoop b s) = goto g (if stop_set s then PExit else POwned) b s.
Proof. unfold step. cbn [goto threads with_threads]. rewrite lookup_insert_eq. apply goto_goto. Qed.

Lemma step_owned o g now b s : step o g now (goto g POwned b s) = goto g (if is_current g s then PStamp else PGone) b s.
Proof. unfold step. cbn [goto threads with_threads]. rewrite lookup_insert_eq. apply goto_goto. Qed.

Lemma step_stamp o g now b s :
  is_current g s = true → step o g now (goto g PStamp b s) = goto g (PMark now) b (with_round (Some now) s).
Proof.
  intros Hc. unfold step. cbn [goto threads with_threads]. rewrite lookup_insert_eq.
  change (is_current g (goto g PStamp b s)) with (is_current g s). rewrite Hc.
  unfold goto, with_threads, with_round. cbn.
  by rewrite insert_insert_eq.
Qed.

Lemma step_mark o g now r b s : step o g now (goto g (PMark r) b s) = goto g (PCall r) b (mark_alive g now s).
Proof.
  unfold step. cbn [goto threads with_threads]. rewrite lookup_insert_eq. unfold mark_alive.
  change (is_current g (goto g (PMark r) b s)) with (is_current g s).
  unfold goto, with_threads, with_marks. destruct (is_current g s); cbn; by rewrite insert_insert_eq.
Qed.

(** From its first instruction a wanted thread reaches the task function. *)
Lemma fresh_thread_runs o s g b t1 t2 t3 t4 :
  threads s !! g = Some (Thread PLoop b) → stop_set s = false → is_current g s = true →
  run o [Step g t1; Step g t2; Step g t3; Step g t4] s = mark_alive g t4 (with_round (Some t3) (goto g (PCall t3) b s)).
Proof.
  intros Hg Hstop Hcur. assert (s = goto g PLoop b s) as Hs.
  { unfold goto, with_threads. rewrite insert_id by done. by destruct s. }
  rewrite Hs at 1. cbn [run foldl exec]. rewrite step_loop, Hstop, step_owned, Hcur, step_stamp, step_mark by done.
  unfold mark_alive. change (is_current g (goto g (PCall t3) b s)) with (is_current g s).
  change (is_current g (with_round (Some t3) s)) with (is_current g s).
  change (is_current g (with_round (Some t3) (goto g (PCall t3) b s))) with (is_current g s). by rewrite Hcur.
Qed.

(** a wedged task is replaced.  When a task that opted in is stalled, the
    watchdog abandons its thread, counts the restart and the abandonment, and
    spawns a thread that reaches the task function within four steps of its
    runner, is the active one and is not told to stop, with the first delay;
    while the abandoned thread is told to stop from then on. *)
Theorem wedged_task_is_replaced (o : options) (now t1 t2 t3 t4 : float64) (s : task)
    (Hopt : restart_on_stall o = true) (Hstalled : stalled o now s = true) :
  let g := S (generation s) in
  let s' := run o [Watch now; Step g t1; Step g t2; Step g t3; Step g t4] s in
  threads s' !! g = Some (Thread (PCall t3) (backoff_initial o)) ∧ generation s' = g ∧ stopping (Some g) s' = false ∧
  stopping (Some (generation s)) s' = true ∧ last_heartbeat s' = Some t4 ∧ stalled o t4 s' = f_ltb (stall_timeout o) (f_sub t4 t4) ∧
  restarts s' = restarts s + 1 ∧ abandoned s' = abandoned s + 1 ∧ consecutive_failures s' = consecutive_failures s.
Proof.
  intros g s'. assert (stop_set s = false) as Hstop by (unfold stalled in Hstalled; by destruct (stop_set s)).
  assert (is_Some (threads s !! generation s)) as Hold.
  { unfold stalled, alive in Hstalled. rewrite Hstop in Hstalled. cbn in Hstalled. destruct (threads s !! generation s); [eauto|done]. }
  assert (s' = mark_alive g t4 (with_round (Some t3) (goto g (PCall t3) (backoff_initial o) (restart_stalled o now s).2))) as ->.
  { unfold s'. rewrite run_cons. apply fresh_thread_runs; unfold restart_stalled; rewrite Hopt, Hstalled, Hstop; cbn;
      [by rewrite lookup_insert_eq|done|by apply bool_decide_true]. }
  unfold restart_stalled. rewrite Hopt, Hstalled, Hstop. unfold mark_alive, is_current. cbn.
  rewrite bool_decide_true by done. cbn.
  assert (generation s ≠ g) as Hne by lia.
  split_and!; cbn; try done.
  - by rewrite lookup_insert_eq.
  - unfold stopping, is_current. cbn. rewrite (bool_decide_true (g = g)) by done. by rewrite andb_false_r.
  - unfold stopping, is_current. cbn. rewrite bool_decide_true by (by rewrite !lookup_insert_ne).
    by rewrite bool_decide_eq_false_2.
  - unfold stalled, alive, reference. cbn. by rewrite lookup_insert_eq.
Qed.

(** ** The watchdog *)

(** One tick respawns exactly the stalled tasks that opted in, and leaves the
    others alone. *)
Lemma watchdog_tick_spec now sup :
  watchdog_tick now sup =
  (fst <$> filter (λ t, restart_on_stall t.2.1 = true ∧ stalled t.2.1 now t.2.2 = true) sup,
   (λ t, (t.1, (t.2.1, if restart_on_stall t.2.1 && stalled t.2.1 now t.2.2
                       then (restart_stalled t.2.1 now t.2.2).2 else t.2.2))) <$> sup).
Proof.
  assert (∀ o s, restart_stalled o now s =
    if restart_on_stall o && stalled o now s then (true, (restart_stalled o now s).2) else (false, s)) as Hr.
  { intros o s. unfold restart_stalled, stalled. destruct (restart_on_stall o), (stop_set s); try done.
    cbn [negb orb andb]. by destruct (alive s && _). }
  unfold watchdog_tick, on_tasks. f_equal.
  - induction sup as [|[n [o s]] sup IH]; [done|]. cbn [omap list_omap fst snd]. rewrite Hr, filter_cons. cbn [fst snd].
    destruct (restart_on_stall o), (stalled o now s); cbn [andb fst].
    1: rewrite decide_True by done; cbn; by rewrite IH.
    all: rewrite decide_False by naive_solver; exact IH.
  - induction sup as [|[n [o s]] sup IH]; [done|]. cbn [fmap list_fmap fst snd]. rewrite Hr, IH.
    by destruct (restart_on_stall o && stalled o now s).
Qed.

(** ** Examples *)

Module SupervisorExamples.

Definition secs : Z → float64 := f_of_Z.
Definition opts : options := make_options (f_frac 1 2) (secs 30) (secs 30) DEFAULT_RESET_AFTER_S
  DEFAULT_UNHEALTHY_AFTER_FAILURES None true.

(** The steps of a runner up to its function, from there to the end of its delay. *)
Definition attempt (g : nat) (t : Z) : list event := [Step g (secs t); Step g (secs t); Step g (secs t); Step g (secs t)].
Definition crash (g : nat) (t : Z) : list event :=
  [Ends g (Crashed "boom"); Step g (secs t); Step g (secs t); Step g (secs t); Step g (secs t); Step g (secs t)].

Definition working : task := run opts (Start (secs 0) :: attempt 1 0 ++ [Beats 1 (secs 1)]) new_task.

(** A thread that stopped beating at [1] is replaced at [100]. *)
Lemma wedged_task_is_replaced_witness : abandoned (run opts [Watch (secs 100); Step 2 (secs 100); Step 2 (secs 100); Step 2 (secs 100); Step 2 (secs 100)] working) = 1.
Proof.
  destruct (wedged_task_is_replaced opts (secs 100) (secs 100) (secs 100) (secs 100) (secs 100) working) as
    (_ & _ & _ & _ & _ & _ & _ & Ha & _); [by vm_compute|by vm_compute|].
  exact Ha.
Defined.

Definition replaced : task := run opts [Watch (secs 100)] working.

#[local] Instance superseded_dec g s : Decision (superseded g s).
Proof. unfold superseded. apply _. Defined.

Lemma superseded_does_not_interfere_witness :
  same_but 1 (run opts (Beats 1 (secs 101) :: crash 1 101 ++ attempt 2 102) replaced)
    (run opts (attempt 2 102) replaced).
Proof.
  apply (superseded_does_not_interfere opts 1 (Beats 1 (secs 101) :: crash 1 101 ++ attempt 2 102) replaced).
  by apply (bool_decide_unpack _); vm_compute.
Defined.

Lemma superseded_thread_leaves_witness :
  stopping (Some 1%nat) replaced = true ∧
  (occurs (moves 1) opts (crash 1 101 ++ attempt 2 102) replaced ≤ 13)%nat.
Proof.
  split; [by vm_compute|]. apply (superseded_thread_leaves opts 1 (crash 1 101 ++ attempt 2 102) replaced).
  by apply (bool_decide_unpack _); vm_compute.
Defined.

(** It crashed three times in a row, and looks alive. *)
Definition storm : list event :=
  attempt 1 0 ++ crash 1 0 ++ [Step 1 (secs 1)] ++ attempt 1 1 ++ crash 1 1 ++ [Step 1 (secs 2)] ++ attempt 1 2 ++ crash 1 2.

Lemma storm_is_unhealthy_witness :
  let s := run opts storm (start opts (secs 0) new_task) in alive s = true ∧ healthy opts (secs 2) s = false.
Proof.
  split; [by vm_compute|].
  apply (storm_is_unhealthy opts storm (start opts (secs 0) new_task) (secs 2)).
  - by repeat constructor.
  - by vm_compute.
  - vm_compute. done.
  - by vm_compute.
  - by vm_compute.
Defined.

(** A task that made progress once and then crashed every so often counts as
    stalled although its runner has just marked it alive: the watchdog abandons a
    thread that was sleeping out its delay, and the replacement starts over with
    the first delay. *)
Example crash_loop_counts_as_stall :
  let s := run opts (crash 1 2 ++ [Step 1 (secs 3)] ++ attempt 1 99 ++ crash 1 100) working in
  threads s !! 1%nat = Some (Thread PWait (secs 1)) ∧ last_heartbeat s = Some (secs 100) ∧
  stalled opts (secs 100) s = true ∧
  threads (restart_stalled opts (secs 100) s).2 !! 2%nat = Some (Thread PLoop (f_frac 1 2)).
Proof. by vm_compute. Qed.

(** A function that raises past [Exception] is not restarted, and shows. *)
Example escaped_is_dead :
  let s := run opts [Ends 1 Escaped; Watch (secs 100)] working in
  alive s = false ∧ healthy opts (secs 1) s = false ∧ restarts s = 0.
Proof. by vm_compute. Qed.
End SupervisorExamples.
