(* ===== verification/Consumer.v ===== *)
(** The Kafka consumer of the data plane ([dataplane/ingest/consumer.py]): routing
    of messages, the offset rule, the flush gate, commits, rewinds, and the
    measurement of the broker's backlog.  Decoding and the client library are
    parameters; handlers and the flush act on a state of their own. *)

From Stdlib Require Import SpecFloat.
From S2P Require Import Prelude PyValue.
Open Scope Z_scope.

(** ** Constants *)

Definition LOGICAL_TOPICS : list string :=
  ["run_status"; "kpi"; "kpi_breakdown"; "trip_geo"; "facility_stream"; "perf"].
Definition PARTITION_EOF : Z := -191.
Definition ASSIGNMENT_REFRESH_S : float64 := f_of_Z 1.
Definition BROKER_LAG_REFRESH_S : float64 := f_of_Z 5.
Definition SEEK_BACKOFF_S : float64 := f_of_Z 5.
Definition BROKER_LAG_RISE_RECORDS : Z := 1000.
Definition POLL_BATCH : nat := 200.
Definition DISCARD_COUNTS : gset string :=
  {["decode_errors"; "missing_key"; "empty_value"; "unknown_topic"; "no_handler"; "handler_errors"]}.

(** ** Messages *)

(** A key or a value: absent, bytes, or what an embedding hands over. *)
Inductive raw : Set := RawNone | RawBytes (b : string) | RawOther (v : pyval).

(** [orjson.loads] and [bytes.decode("utf-8")] *)
Class Decoding := {
  loads : string → result pyval;
  utf8_decode : string → option string;
}.

(** A polled message.  [m_error]: its error object, if any, with the code it
    reports, if any; [m_partition], [m_offset]: [None] when the object has no such
    method.  Any of its methods may raise. *)
Record msg : Set := Msg {
  m_error : result (option (option Z));
  m_topic : result (option string);
  m_partition : option (result pyval);
  m_offset : option (result pyval);
  m_key : raw;
  m_value : raw;
}.

(** A topic and one of its partitions. *)
Abbreviation tp := (string * Z)%type.

(** ** State *)

Record offsets : Set := Offsets {
  commit_at : gmap tp Z;
  max_seen : gmap tp Z;
  committed : gmap tp Z;
  commit_moved_at : gmap tp float64;
  flush_floor : gmap tp Z;
  blocked : gmap tp Z;
  last_seek_at : gmap tp float64;
}.

Record tallies : Set := Tallies {
  counts : gmap string Z;
  by_topic : gmap string Z;
  discards : Z;
  last_discard_at : option float64;
  last_message_at : option float64;
  untracked : Z;
}.

Record backlog : Set := Backlog {
  broker_lag : gmap tp Z;
  broker_lag_unknown : Z;
  broker_lag_base : gmap tp Z;
  broker_lag_at : float64;
  broker_lag_floor : option Z;
  broker_lag_rising : Z;
  broker_lag_msgs : Z;
}.

(** [connected]: a subscribed client is published in [_consumer]. *)
Record consumer : Set := Consumer {
  offs : offsets;
  tally : tallies;
  lag : backlog;
  connected : bool;
  last_commit_at : float64;
  assigned : Z;
  assignment_at : float64;
  last_assigned : option (gset tp);
}.

Definition new_offsets : offsets := Offsets ∅ ∅ ∅ ∅ ∅ ∅ ∅.
Definition zeros (names : list string) : gmap string Z := list_to_map ((λ n, (n, 0)) <$> names).

Definition new_tallies : tallies :=
  Tallies
    (zeros ["messages"; "handler_errors"; "decode_errors"; "kafka_errors"; "eof"; "unknown_topic"; "missing_key";
            "empty_value"; "no_handler"; "commits"; "commit_errors"])
    (zeros LOGICAL_TOPICS) 0 None None 0.
Definition new_backlog : backlog := Backlog ∅ 0 ∅ f_zero None 0 0.
Definition new_consumer : consumer := Consumer new_offsets new_tallies new_backlog false f_zero 0 f_zero None.

Definition with_offs (o : offsets) (c : consumer) : consumer :=
  Consumer o (tally c) (lag c) (connected c) (last_commit_at c) (assigned c) (assignment_at c) (last_assigned c).
Definition with_tally (t : tallies) (c : consumer) : consumer :=
  Consumer (offs c) t (lag c) (connected c) (last_commit_at c) (assigned c) (assignment_at c) (last_assigned c).
Definition with_lag (l : backlog) (c : consumer) : consumer :=
  Consumer (offs c) (tally c) l (connected c) (last_commit_at c) (assigned c) (assignment_at c) (last_assigned c).
Definition with_connected (b : bool) (c : consumer) : consumer :=
  Consumer (offs c) (tally c) (lag c) b (last_commit_at c) (assigned c) (assignment_at c) (last_assigned c).
Definition with_last_commit (t : float64) (c : consumer) : consumer :=
  Consumer (offs c) (tally c) (lag c) (connected c) t (assigned c) (assignment_at c) (last_assigned c).

(** [_ensure_consumer]: the client is published only once it has subscribed;
    [build] and [subscribe] may raise. *)
Definition ensure_consumer (build subscribe : result unit) : eff consumer unit := λ c,
  if connected c then (Ok tt, c)
  else match (_ ← build; subscribe) with
       | Ok _ => (Ok tt, with_connected true c)
       | Raise e => (Raise e, c)
       end.

(** [close] *)
Definition close (c : consumer) : consumer := with_connected false c.

(** ** Counting *)

(** [_bump] *)
Definition bump (now : float64) (name : string) (discard : bool) (c : consumer) : consumer :=
  let t := tally c in
  let d := discard || bool_decide (name ∈ DISCARD_COUNTS) in
  with_tally (Tallies (<[name := default 0 (counts t !! name) + 1]> (counts t)) (by_topic t)
    (if d then discards t + 1 else discards t) (if d then Some now else last_discard_at t)
    (last_message_at t) (untracked t)) c.

(** [note_discard] *)
Definition note_discard (now : float64) (reason : string) (c : consumer) : consumer := bump now reason true c.

(** A message for a handler is counted under [messages] and its topic. *)
Definition count_message (now : float64) (logical : string) (c : consumer) : consumer :=
  let t := tally c in
  with_tally (Tallies (<["messages" := default 0 (counts t !! "messages") + 1]> (counts t))
    (<[logical := default 0 (by_topic t !! logical) + 1]> (by_topic t))
    (discards t) (last_discard_at t) (Some now) (untracked t)) c.

Definition count_untracked (c : consumer) : consumer :=
  let t := tally c in
  with_tally (Tallies (counts t) (by_topic t) (discards t) (last_discard_at t) (last_message_at t) (untracked t + 1)) c.

(** ** The offset rule *)

(** [_note_offset] *)
Definition note_offset (now : float64) (key : tp) (offset : Z) (ok : bool) (o : offsets) : offsets :=
  let seen := if default (-1) (max_seen o !! key) <? offset then <[key := offset]> (max_seen o) else max_seen o in
  let back := match commit_at o !! key with Some nxt => offset <? nxt | None => true end in
  let nxt := if back then offset else default offset (commit_at o !! key) in
  let at_ := if back then <[key := offset]> (commit_at o) else commit_at o in
  let moved := if back then <[key := now]> (commit_moved_at o) else commit_moved_at o in
  let floor := if back && (offset <? default (offset + 1) (flush_floor o !! key))
               then <[key := offset]> (flush_floor o) else flush_floor o in
  if ok && ((nxt =? offset) || bool_decide (blocked o !! key = None)) then
    Offsets (<[key := offset + 1]> at_) seen (committed o) (<[key := now]> moved) floor
      (delete key (blocked o)) (last_seek_at o)
  else if negb ok then
    Offsets at_ seen (committed o) moved floor
      (match blocked o !! key with Some _ => blocked o | None => <[key := offset]> (blocked o) end) (last_seek_at o)
  else Offsets at_ seen (committed o) moved floor (blocked o) (last_seek_at o).

Section Consumer.
Context `{PyText, Decoding} {W : Type}.

(** A handler writes to the store [W]; it may note discards, and may raise. *)
Definition handler : Type := string → string → pydict → W → result unit * list string * W.

Record config := Config {
  handlers : gmap string handler;
  flush : option (eff W unit);
  flush_topics : gset string;
  broker_topic : string → string;
  group_id : string;
  commit_interval_s : float64;
}.

Context (cfg : config).

(** The topics of the broker, in the order of the logical ones; a broker topic
    that several logical ones share is the last one's. *)
Definition broker_topics : list string := broker_topic cfg <$> LOGICAL_TOPICS.
Definition topic_to_logical : gmap string string :=
  list_to_map (reverse ((λ l, (broker_topic cfg l, l)) <$> LOGICAL_TOPICS)).

(** ** Routing: [handle_message] *)

(** [_coords] *)
Definition coords (m : msg) : result (option (tp * Z)) :=
  match m_partition m, m_offset m with
  | Some p, Some o =>
      match p, o, m_topic m with
      | Ok p, Ok o, Ok t =>
          match t with
          | None => Ok None
          | Some t =>
              if py_eq p PNone || py_eq o PNone then Ok None
              else
                match (p ← py_int p; o ← py_int o; Ok (p, o)) with
                | Ok (p, o) => Ok (Some ((t, p), o))
                | Raise TypeError | Raise ValueError => Ok None
                | Raise e => Raise e
                end
          end
      | _, _, _ => Ok None
      end
  | _, _ => Ok None
  end.

(** [_decode_key] *)
Definition decode_key (k : raw) : option string :=
  match k with
  | RawNone => None
  | RawBytes b => utf8_decode b
  | RawOther v => match v with PNone => None | _ => Some (py_str v) end
  end.

Definition raw_bytes (v : raw) : option string :=
  match v with
  | RawNone => None
  | RawBytes b => if decide (b = "") then None else Some b
  | RawOther v => if truth v then Some (py_str v) else None
  end.

(** [_route] *)
Definition route (now : float64) (m : msg) (c : consumer) (w : W) : result bool * consumer * W :=
  match m_topic m with
  | Raise e => (Raise e, c, w)
  | Ok topic =>
      match (t ← topic; topic_to_logical !! t) with
      | None => (Ok false, bump now "unknown_topic" false c, w)
      | Some logical =>
          match decode_key (m_key m) with
          | None | Some EmptyString => (Ok false, bump now "missing_key" false c, w)
          | Some run_id =>
              match raw_bytes (m_value m) with
              | None => (Ok false, bump now "empty_value" false c, w)
              | Some bytes =>
                  match loads bytes with
                  | Ok (PDict payload) =>
                      match handlers cfg !! logical with
                      | None => (Ok false, bump now "no_handler" false c, w)
                      | Some h =>
                          let c := count_message now logical c in
                          let '(r, notes, w) := h logical run_id payload w in
                          let c := foldl (λ c reason, note_discard now reason c) c notes in
                          (match r with Ok _ => Ok true | Raise e => Raise e end, c, w)
                      end
                  | _ => (Ok false, bump now "decode_errors" false c, w)
                  end
              end
          end
      end
  end.

(** [handle_message]: it never raises. *)
Definition handle_message (now : float64) (m : msg) (c : consumer) (w : W) : bool * consumer * W :=
  match m_error m with
  | Raise _ => (false, bump now "handler_errors" false c, w)
  | Ok (Some code) =>
      if decide (code = Some PARTITION_EOF) then (false, bump now "eof" false c, w)
      else (false, bump now "kafka_errors" false c, w)
  | Ok None =>
      match coords m with
      | Raise _ => (false, bump now "handler_errors" false c, w)
      | Ok at_ =>
          let '(r, c, w) := route now m c w in
          let '(ok, committable, c) :=
            match r with
            | Ok b => (b, true, c)
            | Raise _ => (false, false, bump now "handler_errors" false c)
            end in
          (ok,
           match at_ with
           | None => count_untracked c
           | Some (key, offset) => with_offs (note_offset now key offset committable (offs c)) c
           end, w)
      end
  end.

(** ** The flush gate and rewinds *)

(** The client object: [None] for a method it lacks; the answers say whether a
  call returns. *)
Record client := Client {
  client_seek : option (tp → Z → bool);
  client_commit : option (list (string * Z * Z) → bool);
  client_commit_blind : bool;
  client_watermarks : option (tp → result Z);
  client_assignment : option (result (gset tp));
}.

(** The partitions a failed flush rolls back, with where to. *)
Definition rolled_back (o : offsets) : gmap tp Z :=
  map_imap (λ key nxt,
    let floor := default nxt (flush_floor o !! key) in
    if decide (floor < nxt ∧ (flush_topics cfg = ∅ ∨ key.1 ∈ flush_topics cfg)) then Some floor else None)
    (commit_at o).

Definition roll_back (o : offsets) : offsets :=
  let rolled := rolled_back o in
  Offsets (rolled ∪ commit_at o) (max_seen o) (committed o) (commit_moved_at o) (flush_floor o)
    (blocked o ∪ rolled) (last_seek_at o).

(** [_seek_back], as [_rewind_blocked] calls it: the partitions whose rewind is
  attempted now and returns. *)
Definition seekable (cl : client) (now : float64) (o : offsets) : gmap tp Z :=
  match client_seek cl with
  | None => ∅
  | Some seek =>
      filter (λ p, f_ltb (f_sub now (default f_zero (last_seek_at o !! p.1))) SEEK_BACKOFF_S = false ∧
                   seek p.1 p.2 = true) (blocked o)
  end.

(** What a flush that returned leaves as the floor. *)
Definition flushed (o : offsets) : offsets :=
  Offsets (commit_at o) (max_seen o) (committed o) (commit_moved_at o) (commit_at o) (blocked o) (last_seek_at o).

(** What the rewinds that returned are remembered by. *)
Definition note_seeks (now : float64) (sought : gmap tp Z) (o : offsets) : offsets :=
  Offsets (commit_at o) (max_seen o) (committed o) (commit_moved_at o) (flush_floor o) (blocked o)
    (((λ _, now) <$> sought) ∪ last_seek_at o).

(** [_rewind_blocked], [rewind_if_blocked]: the consumer, and the rewinds. *)
Definition rewind_blocked (cl : client) (now : float64) (c : consumer) : consumer * gmap tp Z :=
  if negb (connected c) then (c, ∅)
  else
    let sought := seekable cl now (offs c) in
    (Nat.iter (size sought) (bump now "seek_back" false) (with_offs (note_seeks now sought (offs c)) c), sought).

(** [flush_writes] *)
Definition flush_writes (cl : client) (now : float64) (c : consumer) (w : W) :
  bool * consumer * W * gmap tp Z :=
  match flush cfg with
  | None => (true, c, w, ∅)
  | Some f =>
      match f w with
      | (Ok _, w) => (true, with_offs (flushed (offs c)) c, w, ∅)
      | (Raise _, w) =>
          let c := bump now "handler_errors" false c in
          let '(c, sought) := rewind_blocked cl now (with_offs (roll_back (offs c)) c) in
          (false, c, w, sought)
      end
  end.

(** ** Commits *)

(** [safe_offsets], as a mapping: the points the broker has not accepted yet. *)
Definition uncommitted_points (o : offsets) : gmap tp Z :=
  filter (λ p, default (-1) (committed o !! p.1) < p.2) (commit_at o).

Definition safe_offsets (o : offsets) : list (string * Z * Z) :=
  py_sorted (pair_leb (pair_leb String.leb Z.leb) Z.leb) (map_to_list (uncommitted_points o)).

Definition count_commit (now : float64) (c : consumer) : consumer :=
  let t := tally c in
  with_last_commit now (with_tally (Tallies (<["commits" := default 0 (counts t !! "commits") + 1]> (counts t))
    (by_topic t) (discards t) (last_discard_at t) (last_message_at t) 0) c).

Definition commit_failed (now : float64) (c : consumer) : consumer :=
  with_last_commit now (bump now "commit_errors" false c).

(** The points a commit covered are accepted. *)
Definition accepted (o : offsets) : offsets :=
  Offsets (commit_at o) (max_seen o) (uncommitted_points o ∪ committed o) (commit_moved_at o) (flush_floor o)
    (blocked o) (last_seek_at o).

(** What the broker is told: nothing, to commit wherever the reader stands, or to
  commit these points. *)
Inductive issued : Type := Nothing | Blind | Points (points : gmap tp Z).

(** [commit_safe]: the commit issued, and the rewinds ([True] is returned when a
  commit was issued). *)
Definition commit_safe (cl : client) (now : float64) (force : bool) (c : consumer) (w : W) :
  issued * consumer * W * gmap tp Z :=
  let '(flushed, c, w, sought) := flush_writes cl now c w in
  if negb flushed then (Nothing, c, w, sought)
  else if negb (connected c) then (Nothing, c, w, sought)
  else if negb force && f_ltb (f_sub now (last_commit_at c)) (commit_interval_s cfg) then (Nothing, c, w, sought)
  else
    match client_commit cl with
    | None => (Nothing, with_last_commit now c, w, sought)
    | Some commit =>
        match safe_offsets (offs c) with
        | [] =>
            if untracked (tally c) <=? 0 then (Nothing, c, w, sought)
            else if client_commit_blind cl then (Blind, count_commit now c, w, sought)
            else (Nothing, commit_failed now c, w, sought)
        | points =>
            if negb (commit points) then (Nothing, commit_failed now c, w, sought)
            else (Points (uncommitted_points (offs c)), count_commit now (with_offs (accepted (offs c)) c), w, sought)
        end
    end.

(** ** The broker's backlog *)

(** Where the broker thinks a partition stands. *)
Definition position (o : offsets) (key : tp) : option Z :=
  match committed o !! key with Some p => Some p | None => commit_at o !! key end.

(** One partition of a refresh: its lag, the base it sets, whether it could not be
  measured. *)
Record measured : Set := Measured { lags : gmap tp Z; bases : gmap tp Z; unknown : Z }.

Definition measure (watermark : tp → result Z) (o : offsets) (b : backlog) (acc : measured) (key : tp) : measured :=
  match watermark key with
  | Raise _ =>
      Measured (match broker_lag b !! key with Some n => <[key := n]> (lags acc) | None => lags acc end)
        (bases acc) (unknown acc + 1)
  | Ok high =>
      let '(pos, bases') :=
        match position o key with
        | Some p => (p, bases acc)
        | None => match broker_lag_base b !! key with
                  | Some p => (p, bases acc)
                  | None => (high, <[key := high]> (bases acc))
                  end
        end in
      Measured (<[key := Z.max 0 (high - pos)]> (lags acc)) bases' (unknown acc)
  end.

Definition total_lag (l : gmap tp Z) : Z := map_fold (λ _ n acc, n + acc) 0 l.

(** The trend: refreshes in a row that failed to fall back to the floor. *)
Definition trend (total : Z) (consuming : bool) (b : backlog) : option Z * Z :=
  if (total <=? 0) || negb consuming then (None, 0)
  else match broker_lag_floor b with
       | None => (Some total, 0)
       | Some floor =>
           if total <? floor then (Some total, 0)
           else if BROKER_LAG_RISE_RECORDS <=? total - floor then (Some floor, broker_lag_rising b + 1)
           else (Some floor, 0)
       end.

(** [refresh_broker_lag], [_refresh_broker_lag] *)
Definition refresh_broker_lag (cl : client) (now : float64) (c : consumer) : consumer :=
  let b := lag c in
  if negb (connected c) then c
  else if f_ltb (f_sub now (broker_lag_at b)) BROKER_LAG_REFRESH_S then c
  else
    match client_watermarks cl with
    | None => c
    | Some watermark =>
        let keys := dom (commit_at (offs c)) ∪ default ∅ (last_assigned c) in
        let m := foldl (measure watermark (offs c) b) (Measured ∅ ∅ 0) (elements keys) in
        let messages := default 0 (counts (tally c) !! "messages") in
        let '(floor, rising) := trend (total_lag (lags m)) (broker_lag_msgs b <? messages) b in
        with_lag (Backlog (lags m) (unknown m) (bases m ∪ broker_lag_base b) now floor rising messages) c
    end.

(** [_poll_bookkeeping] *)
Definition poll_bookkeeping (cl : client) (now : float64) (c : consumer) : consumer :=
  if f_ltb (f_sub now (assignment_at c)) ASSIGNMENT_REFRESH_S then c
  else
    let '(n, keys) :=
      match client_assignment cl with
      | None => (Z.of_nat (size (max_seen (offs c))), None)
      | Some (Ok keys) => (Z.of_nat (size keys), Some keys)
      | Some (Raise _) => (assigned c, None)
      end in
    Consumer (offs c) (tally c) (lag c) (connected c) (last_commit_at c) n now keys.

(** ** The loop: [run] *)

Definition drain (now : float64) (polled : list msg) (c : consumer) (w : W) : consumer * W :=
  foldl (λ s m, let '(_, c, w) := handle_message now m s.1 s.2 in (c, w)) (c, w) polled.

(** One turn: drain at most [POLL_BATCH] of the messages the polls return, then
  commit once and retry what is blocked. *)
Definition poll_turn (cl : client) (now : float64) (polled : list msg) (c : consumer) (w : W) :
  issued * consumer * W * gmap tp Z :=
  let '(c, w) := drain now (take POLL_BATCH polled) c w in
  let c := poll_bookkeeping cl now c in
  let '(sent, c, w, sought) := commit_safe cl now false c w in
  let '(c, sought') := rewind_blocked cl now c in
  (sent, c, w, sought' ∪ sought).

(** ** Statistics: [stats] *)

(** Records consumed whose offset is not committed, per partition. *)
Definition commit_lag (o : offsets) : gmap tp Z :=
  map_imap (λ key seen, Some (seen + 1 - default seen (commit_at o !! key))) (max_seen o).

Definition uncommitted (c : consumer) : Z := total_lag (commit_lag (offs c)) + untracked (tally c).

Definition later (a : option float64) (b : float64) : option float64 :=
  Some (match a with Some a => f_max a b | None => b end).

(** How long the oldest shut commit point has stood. *)
Definition commit_stuck_s (now : float64) (o : offsets) : option float64 :=
  map_fold (λ key behind stuck,
    if 0 <? behind then later stuck (f_sub now (default now (commit_moved_at o !! key))) else stuck)
    None (commit_lag o).

Definition opt_float (v : option float64) : pyval := match v with Some f => PFloat f | None => PNone end.

(** How long ago, to the millisecond. *)
Definition age_s (now : float64) (at_ : option float64) : pyval :=
  opt_float ((λ t, py_round3 (f_max f_zero (f_sub now t))) <$> at_).

Definition per_partition (l : gmap tp Z) : pyval :=
  PDict ((λ kv, ((kv.1.1 +:+ ":" +:+ py_str (PInt kv.1.2))%string, PInt kv.2)) <$> map_to_list l).

Definition count_dict (m : gmap string Z) : pydict := (λ kv, (kv.1, PInt kv.2)) <$> map_to_list m.

(** [stats]: the body of the consumer in the health document (the order of the
    counts and of the partitions is not kept). *)
Definition stats (now : float64) (c : consumer) : pydict :=
  let o := offs c in
  let t := tally c in
  let b := lag c in
  foldl (λ d kv, d_set d kv.1 kv.2) (count_dict (counts t))
    [("topics", PList (PStr <$> broker_topics));
     ("by_topic", PDict (count_dict (by_topic t)));
     ("group_id", PStr (group_id cfg));
     ("last_message_age_s", age_s now (last_message_at t));
     ("assigned_partitions", PInt (assigned c));
     ("discards", PInt (discards t));
     ("last_discard_age_s", age_s now (last_discard_at t));
     ("commit_lag", per_partition (commit_lag o));
     ("broker_lag", per_partition (broker_lag b));
     ("broker_lag_total", PInt (total_lag (broker_lag b)));
     ("broker_lag_unknown", PInt (broker_lag_unknown b));
     ("broker_lag_rising", PInt (broker_lag_rising b));
     ("uncommitted", PInt (uncommitted c));
     ("commit_stuck_s", opt_float ((λ s, py_round3 (f_max f_zero s)) <$> commit_stuck_s now o))].

(** [blocked_topics] *)
Definition blocked_topics (o : offsets) : gset string :=
  set_map (λ key : tp, default key.1 (topic_to_logical !! key.1)) (dom (blocked o)).
End Consumer.

(** ** The offset book of one partition *)

(** Where a partition stands: its commit point, its flush floor, its block. *)
Record standing : Set := Standing { point : option Z; floor : option Z; block : option Z }.

Definition standing_of (o : offsets) (key : tp) : standing :=
  Standing (commit_at o !! key) (flush_floor o !! key) (blocked o !! key).

(** What noting a record does to its partition. *)
Definition note (offset : Z) (ok : bool) (s : standing) : standing :=
  let back := match point s with Some n => offset <? n | None => true end in
  let n := if back then offset else default offset (point s) in
  let f := if back && (offset <? default (offset + 1) (floor s)) then Some offset else floor s in
  if ok && ((n =? offset) || bool_decide (block s = None)) then Standing (Some (offset + 1)) f None
  else if negb ok then Standing (Some n) f (Some (default offset (block s)))
  else Standing (Some n) f (block s).

Lemma note_offset_standing now key offset ok o key' :
  standing_of (note_offset now key offset ok o) key' =
  if decide (key' = key) then note offset ok (standing_of o key) else standing_of o key'.
Proof.
  destruct (decide (key' = key)) as [->|Hne].
  - unfold note_offset, note, standing_of. cbn [point floor block].
    destruct (commit_at o !! key) as [n|] eqn:En, (flush_floor o !! key) as [f|] eqn:Ef,
      (blocked o !! key) as [b|] eqn:Eb, ok;
      cbn [default from_option id andb negb orb];
      repeat match goal with |- context [if ?b then _ else _] => destruct b eqn:? end;
      cbn [commit_at flush_floor blocked andb negb orb default from_option id];
      rewrite ?lookup_insert_eq, ?lookup_delete_eq, ?En, ?Ef, ?Eb; done.
  - unfold note_offset, standing_of.
    repeat match goal with |- context [if ?b then _ else _] => destruct b eqn:? end;
      repeat case_match; cbn [commit_at flush_floor blocked];
      by rewrite ?lookup_insert_ne, ?lookup_delete_ne by done.
Qed.

Lemma note_offset_committed now key offset ok o : committed (note_offset now key offset ok o) = committed o.
Proof. unfold note_offset. by repeat case_match. Qed.

(** A failed flush. *)
Definition rolled (defers : bool) (s : standing) : standing :=
  match point s with
  | Some n =>
      let f := default n (floor s) in
      if (f <? n) && defers then Standing (Some f) (floor s) (Some (default f (block s))) else s
  | None => s
  end.

Lemma map_imap_eq {A B} (f : tp → A → option B) (m : gmap tp A) k :
  map_imap f m !! k = match m !! k with Some a => f k a | None => None end.
Proof. rewrite map_lookup_imap. by destruct (m !! k). Qed.

(** A partition's book is right: everything that survives below the commit point
    is settled or waits, below the floor it is settled, and while nothing is
    blocked the reader has passed over nothing above the commit point.  [L] is
    the log, [l] the lowest record given, [p] the reader's position. *)
Definition key_inv (L : Z → Prop) (lo : option Z) (s : standing) (p : Z) (S V : Z → Prop) : Prop :=
  match s with
  | Standing (Some n) (Some fl) b =>
      ∃ l, lo = Some l ∧ l ≤ fl ∧ l ≤ n ∧
        (∀ o, L o → l ≤ o < n → S o ∨ V o) ∧ (∀ o, L o → l ≤ o < fl → S o) ∧
        (b = None → ∀ o, L o → n ≤ o → p ≤ o)
  | Standing None None None => lo = None
  | _ => False
  end.

(** The record read from a position of a log, as it survives compaction, is the
    first one at or above it. *)
Definition next_in (L : Z → Prop) (p o : Z) : Prop := L o ∧ p ≤ o ∧ ∀ x, L x → p ≤ x → o ≤ x.

Lemma note_inv L lo s p (S V S' V' : Z → Prop) o ok :
  key_inv L lo s p S V → next_in L p o → (ok = true → S' o ∨ V' o) →
  (∀ x, S x → S' x) → (∀ x, V x → V' x) →
  key_inv L (Some (Z.min o (default o lo))) (note o ok s) (o + 1) S' V'.
Proof.
  intros Hs (Hlog & Hp & Hnext) Hok HS HV.
  assert (∀ b n1 f1, (∀ x, L x → Z.min o (default o lo) ≤ x < n1 → S x ∨ V x) →
    (∀ x, L x → Z.min o (default o lo) ≤ x < f1 → S x) → Z.min o (default o lo) ≤ f1 →
    Z.min o (default o lo) ≤ n1 → (n1 ≠ o → b = None → ∀ x, L x → n1 ≤ x → o ≤ x) →
    key_inv L (Some (Z.min o (default o lo)))
      (if ok && ((n1 =? o) || bool_decide (b = None)) then Standing (Some (o + 1)) (Some f1) None
       else if negb ok then Standing (Some n1) (Some f1) (Some (default o b)) else Standing (Some n1) (Some f1) b)
      (o + 1) S' V') as Hgo.
  { intros b n1 f1 HA HC Lf Ln HR.
    destruct (ok && ((n1 =? o) || bool_decide (b = None))) eqn:Ec.
    - apply andb_true_iff in Ec as [-> Ec]. eexists; split_and!; [done|done|lia| |by auto|intros; lia].
      intros x Hx Hr. destruct (decide (x = o)) as [->|]; [by auto|]. destruct (decide (x < n1)).
      + destruct (HA x Hx) as [?|?]; [lia|left; auto|right; auto].
      + destruct (decide (n1 = o)) as [->|Hne]; [lia|].
        apply orb_true_iff in Ec as [Ec|Ec%bool_decide_eq_true]; [lia|].
        specialize (HR Hne Ec x Hx). lia.
    - assert (∀ x, L x → Z.min o (default o lo) ≤ x < n1 → S' x ∨ V' x) as HA'.
      { intros x Hx Hr. destruct (HA x Hx Hr); auto. }
      destruct ok; cbn [negb andb] in *.
      + eexists; split_and!; [done|done|done|done|by auto|]. intros ->. by rewrite orb_true_r in Ec.
      + eexists; split_and!; [done|done|done|done|by auto|]. done. }
  destruct s as [[n|] [fl|] b]; try done; cbn [key_inv] in Hs.
  - destruct Hs as (l & -> & L1 & L2 & A & C & R). cbn [default from_option id] in *.
    unfold note. cbn [point floor block default from_option id].
    assert ((if (o <? n) && (o <? fl) then Some o else Some fl) = Some (if (o <? n) && (o <? fl) then o else fl)) as ->
      by (by destruct (_ && _)).
    apply Hgo; destruct (o <? n) eqn:Eb, (o <? fl) eqn:Efl; bools; cbn [andb]; try lia;
      intros; try (apply A; [done|lia]); try (apply C; [done|lia]); try lia;
      match goal with Hx : L ?x, Hb : b = None |- _ => specialize (R Hb x Hx); specialize (Hnext x Hx); lia end.
  - destruct b; [done|]. subst lo. cbn [default from_option id] in *. unfold note.
    cbn [point floor block default from_option id]. assert (o <? o + 1 = true) as -> by lia. cbn [andb].
    apply (Hgo None); intros; try lia.
Qed.

(** ** The broker, and what is durable *)

Section System.
Context {W : Type} (cfg : @config W) (log : tp → Z → Prop).

(** Partitions whose rows wait for the flush (all, when none is declared). *)
Definition defers (key : tp) : bool :=
  bool_decide (flush_topics cfg = ∅) || bool_decide (key.1 ∈ flush_topics cfg).

Lemma roll_back_standing o key :
  standing_of (roll_back cfg o) key = rolled (defers key) (standing_of o key).
Proof.
  unfold standing_of, roll_back, rolled, rolled_back. cbn [commit_at flush_floor blocked point floor block].
  rewrite !lookup_union, !map_imap_eq. destruct (commit_at o !! key) as [n|] eqn:En; [|by destruct (blocked o !! key)].
  assert (((default n (flush_floor o !! key) <? n) && defers key) =
    bool_decide (default n (flush_floor o !! key) < n ∧ (flush_topics cfg = ∅ ∨ key.1 ∈ flush_topics cfg))) as ->.
  { unfold defers. apply eq_true_iff_eq. rewrite andb_true_iff, orb_true_iff, !bool_decide_eq_true, Z.ltb_lt. done. }
  case_decide as Hd; [rewrite bool_decide_eq_true_2 by done|rewrite bool_decide_eq_false_2 by done];
    by destruct (blocked o !! key).
Qed.

(** What becomes of a delivered record: its row is written (or the record is
  thrown away for good), its row waits for the flush, or the handler raises. *)
Inductive fate : Set := Settled | Waiting | Raised.

#[export] Instance fate_eq_dec : EqDecision fate.
Proof. solve_decision. Defined.

Record world : Type := World {
  book : offsets;
  pos : gmap tp Z;
  low : gmap tp Z;
  settled : gset (tp * Z);
  waiting : gset (tp * Z);
}.

Definition position_of (w : world) (key : tp) : Z := default 0 (pos w !! key).

(** A record is given: its book entry, and what has become of it. *)
Definition deliver (now : float64) (key : tp) (o : Z) (f : fate) (w : world) : world :=
  World (note_offset now key o (bool_decide (f ≠ Raised)) (book w)) (<[key := o + 1]> (pos w))
    (<[key := Z.min o (default o (low w !! key))]> (low w))
    (if decide (f = Settled) then {[(key, o)]} ∪ settled w else settled w)
    (if decide (f = Waiting) then {[(key, o)]} ∪ waiting w else waiting w).

(** [Some sent]: the points a commit covered. *)
Inductive world_step : world → option (gmap tp Z) → world → Prop :=
| step_deliver w now key o (f : fate) :
  next_in (log key) (position_of w key) o → (f = Waiting → defers key = true) →
  world_step w None (deliver now key o f w)
| step_flush w :
  world_step w None (World (flushed (book w)) (pos w) (low w) (waiting w ∪ settled w) ∅)
| step_flush_fails w :
  world_step w None (World (roll_back cfg (book w)) (pos w) (low w) (settled w) ∅)
| step_commit w :
  waiting w = ∅ →
  world_step w (Some (uncommitted_points (book w))) (World (accepted (book w)) (pos w) (low w) (settled w) ∅)
| step_rewind w now sought :
  sought ⊆ blocked (book w) →
  world_step w None (World (note_seeks now sought (book w)) (sought ∪ pos w) (low w) (settled w) (waiting w))
| step_rebalance w key p :
  p ≤ position_of w key →
  world_step w None (World (book w) (<[key := p]> (pos w)) (low w) (settled w) (waiting w)).

Definition some_step (w w' : world) : Prop := ∃ l, world_step w l w'.

(** ** The book never commits past unsettled records *)

Definition world_ok (w : world) : Prop :=
  (∀ key o, (key, o) ∈ waiting w → defers key = true) ∧
  ∀ key, key_inv (log key) (low w !! key) (standing_of (book w) key) (position_of w key)
           (λ o, (key, o) ∈ settled w) (λ o, (key, o) ∈ waiting w).

Lemma rolled_inv L lo s p (S V : Z → Prop) d :
  key_inv L lo s p S V → (∀ o, V o → d = true) → key_inv L lo (rolled d s) p S (λ _, False).
Proof.
  destruct s as [[n|] [fl|] b]; try done; intros (l & -> & L1 & L2 & A & C & R) Hd.
  unfold rolled; cbn [point floor block default from_option id].
  destruct ((fl <? n) && d) eqn:E; cbn [key_inv]; exists l; split_and!; try done.
  - intros o Ho Hr. left. by apply C.
  - intros o Ho Hr. left. destruct (decide (o < fl)); [apply C; [done|lia]|].
    destruct (A o Ho Hr) as [?|Hv]; [done|]. apply Hd in Hv as ->. rewrite andb_true_r in E. lia.
Qed.

Lemma flushed_inv L lo s p (S V S' V' : Z → Prop) :
  key_inv L lo s p S V → (∀ o, S o ∨ V o → S' o) →
  key_inv L lo (Standing (point s) (point s) (block s)) p S' V'.
Proof.
  destruct s as [[n|] [fl|] b]; try done.
  intros (l & -> & L1 & L2 & A & C & R) HS. exists l; cbn; split_and!; auto.
Qed.

(** The reader moves at will while its partition is blocked, and back otherwise. *)
Lemma moved_inv L lo s p p' (S V : Z → Prop) :
  key_inv L lo s p S V → block s ≠ None ∨ p' ≤ p → key_inv L lo s p' S V.
Proof.
  destruct s as [[n|] [fl|] b]; try done.
  intros (l & -> & L1 & L2 & A & C & R) Hm. exists l; split_and!; auto. cbn in Hm.
  intros Hb o Ho Hn. destruct Hm as [|]; [done|]. specialize (R Hb o Ho Hn). lia.
Qed.

Lemma key_inv_impl L lo s p (S V S' V' : Z → Prop) :
  key_inv L lo s p S V → (∀ o, S o → S' o) → (∀ o, V o → V' o) → key_inv L lo s p S' V'.
Proof.
  destruct s as [[n|] [fl|] b]; try done.
  intros (l & -> & L1 & L2 & A & C & R) HS HV. exists l; split_and!; auto.
  intros o Ho Hr. destruct (A o Ho Hr); auto.
Qed.

(** A fresh process, whose reader starts where the group's offsets say. *)
Definition new_world (start : gmap tp Z) : world := World new_offsets start ∅ ∅ ∅.

Lemma new_world_ok start : world_ok (new_world start).
Proof. split; [set_solver|done]. Qed.

Lemma position_insert w book' key p low' S V key' :
  position_of (World book' (<[key := p]> (pos w)) low' S V) key' =
  if decide (key' = key) then p else position_of w key'.
Proof. unfold position_of; cbn [pos]. case_decide; subst; by rewrite ?lookup_insert_eq, ?lookup_insert_ne. Qed.

Lemma delivery_inv w now key o f :
  next_in (log key) (position_of w key) o → (f = Waiting → defers key = true) → world_ok w →
  world_ok (deliver now key o f w).
Proof.
  intros Hnext Hf [Hd Hk]. split; cbn [deliver waiting].
  - intros key' o'. case_decide; [|apply Hd]. intros [[=-> ->]%elem_of_singleton|]%elem_of_union; eauto.
  - intros key'. unfold deliver. cbn [book low settled waiting]. rewrite note_offset_standing, position_insert. case_decide as Hkey.
    + subst key'. rewrite lookup_insert_eq. eapply note_inv; [apply Hk|done|..].
      * destruct f; rewrite bool_decide_eq_true; intros; try done; [left|right]; rewrite decide_True by done; set_solver.
      * intros x. case_decide; set_solver.
      * intros x. case_decide; set_solver.
    + rewrite lookup_insert_ne by done. eapply key_inv_impl; [apply Hk|..]; intros x; case_decide; set_solver.
Qed.

Lemma world_step_ok w l w' : world_step w l w' → world_ok w → world_ok w'.
Proof.
  intros Hstep Hok. destruct Hstep; [by apply delivery_inv| | | | |]; destruct Hok as [Hd Hk];
    (split; [cbn [waiting]; try set_solver|intros key']); specialize (Hk key').
  - eapply (flushed_inv _ _ _ _ _ _ _ _ Hk). cbn [settled]. set_solver.
  - unfold position_of in *; cbn [book pos low settled waiting] in *. rewrite roll_back_standing.
    eapply key_inv_impl; [apply (rolled_inv _ _ _ _ _ _ (defers key') Hk); eauto|auto|done].
  - eapply key_inv_impl; [apply Hk|auto|cbn [waiting]; set_solver].
  - eapply moved_inv; [apply Hk|]. unfold position_of; cbn [book pos standing_of note_seeks block blocked].
    rewrite lookup_union. destruct (sought !! key') as [b|] eqn:E.
    + left. rewrite (lookup_weaken _ _ _ _ E) by done. done.
    + right. rewrite (left_id None _). done.
  - eapply moved_inv; [apply Hk|]. rewrite position_insert. case_decide; subst; right; done.
Qed.


(** ** Blocked partitions *)

(** A partition blocked at [b], its commit point at most [n], its reader not below
  [n]. *)
Definition wedged (key : tp) (n b : Z) (w : world) : Prop :=
  (∃ m fl, standing_of (book w) key = Standing (Some m) fl (Some b) ∧ m ≤ n) ∧ n ≤ position_of w key.

Lemma note_above_block m fl b o ok :
  m < o → note o ok (Standing (Some m) fl (Some b)) = Standing (Some m) fl (Some b).
Proof.
  intros Hmo. unfold note; cbn [point floor block default from_option id].
  assert (o <? m = false) as -> by lia. assert (m =? o = false) as -> by lia. cbn [andb orb].
  rewrite bool_decide_eq_false_2 by done. by destruct ok.
Qed.

(** With no record between the commit point and the block, it stays so. *)
Lemma wedged_step key n b w w' :
  next_in (log key) n b → n < b → some_step w w' → n ≤ position_of w' key → wedged key n b w → wedged key n b w'.
Proof.
  intros (_ & _ & Hgap) Hnb [l Hstep] Hpos ((m & fl & Hst & Hmn) & Hp). split; [|done].
  destruct Hstep as [w now k o f (Ho & Hle & _)|w|w|w|w now sought|w k p]; cbn [book deliver]; eauto.
  - rewrite note_offset_standing. case_decide; [subst k|eauto]. rewrite Hst.
    assert (b ≤ o) by (apply Hgap; [done|lia]). rewrite note_above_block by lia. eauto.
  - injection Hst as Hm Hf Hb. exists m, (Some m). unfold standing_of, flushed. cbn. by rewrite Hm, Hb.
  - rewrite roll_back_standing, Hst. unfold rolled. cbn [point floor block default from_option id].
    case_match; bools; eexists _, _; split; try done; lia.
Qed.

Lemma wedged_start now key n o w :
  commit_at (book w) !! key = Some n → blocked (book w) !! key = None → n < o → n ≤ position_of w key ≤ o →
  wedged key n o (deliver now key o Raised w).
Proof.
  intros Hpoint Hopen Hgap Hpos. split; [|unfold deliver; rewrite position_insert, decide_True by done; lia].
  cbn [deliver book]. rewrite note_offset_standing, decide_True by done. unfold standing_of. rewrite Hpoint, Hopen.
  unfold note; cbn. assert (o <? n = false) as -> by lia. cbn. eexists _, _; split; [done|lia].
Qed.

(** a failure above a gap is never recovered from in place.  Suppose the commit
  point of an unblocked partition stands at [n], the next surviving record is at
  [o > n] because compaction removed the ones between, and its handler raises.
  Then the consumer rewinds to [o] for ever: in every continuation in which the
  reader is not moved below [n] (as a rebalance to the group's offset is not),
  however many later handlers succeed, the partition stays blocked and its
  commit point never passes [n], because the redelivered [o] is not the commit
  point and the partition is blocked. *)
Theorem gap_failure_wedges (w w' : world) (now : float64) (key : tp) (n o : Z)
    (Hpoint : commit_at (book w) !! key = Some n) (Hopen : blocked (book w) !! key = None)
    (Hnext : next_in (log key) n o) (Hgap : n < o) (Hpos : n ≤ position_of w key ≤ o)
    (Hrun : star (λ a b, some_step a b ∧ n ≤ position_of b key) (deliver now key o Raised w) w') :
  blocked (book w') !! key = Some o ∧ ∃ m, commit_at (book w') !! key = Some m ∧ m ≤ n.
Proof.
  enough (wedged key n o w') as ((m & fl & Hst & ?) & _)
    by (split; [exact (f_equal block Hst)|exists m; split; [exact (f_equal point Hst)|done]]).
  eapply (star_invariant _ (wedged key n o)); [|..|done]; [intros a b Ha [??]; by eapply wedged_step|].
  by apply wedged_start.
Qed.

(** Records read one after the other from a position. *)
Fixpoint read_from (L : Z → Prop) (p : Z) (os : list Z) : Prop :=
  match os with [] => True | o :: os => next_in L p o ∧ read_from L (o + 1) os end.

Definition redeliver (now : float64) (key : tp) (os : list Z) (w : world) : world :=
  foldl (λ w o, deliver now key o Settled w) w os.

Lemma redeliver_star now key os w :
  read_from (log key) (position_of w key) os → star some_step w (redeliver now key os w).
Proof.
  revert w. induction os as [|o os IH]; intros w; [constructor|]. intros [Ho Hos]. cbn [redeliver foldl].
  eapply star_step; [exists None; by apply (step_deliver w now key o Settled)|]. apply IH. unfold deliver. by rewrite position_insert, decide_True.
Qed.

Lemma note_open n fl o :
  n ≤ o → ∃ fl', note o true (Standing (Some n) fl None) = Standing (Some (o + 1)) fl' None.
Proof. intros. unfold note. cbn. rewrite orb_true_r. eauto. Qed.

Lemma note_at_block n fl b :
  ∃ fl', note n true (Standing (Some n) fl b) = Standing (Some (n + 1)) fl' None.
Proof. unfold note. cbn. rewrite Z.ltb_irrefl, Z.eqb_refl. cbn. eauto. Qed.

Lemma redeliver_standing now key w o os n fl b :
  standing_of (book w) key = Standing (Some n) fl b → n = o ∨ b = None ∧ n ≤ o → read_from (log key) o (o :: os) →
  ∃ fl', standing_of (book (redeliver now key (o :: os) w)) key = Standing (Some (default o (last os) + 1)) fl' None.
Proof.
  revert w o n fl b. induction os as [|o' os IH]; intros w o n fl b Hst Hno Hos; cbn [redeliver foldl];
    (assert (∃ fl', standing_of (book (deliver now key o Settled w)) key = Standing (Some (o + 1)) fl' None) as [fl' Hst'];
      [cbn [deliver book]; rewrite note_offset_standing, decide_True, Hst by done;
       destruct Hno as [->|[-> ?]]; auto using note_at_block, note_open|]); [by exists fl'|].
  destruct Hos as (_ & (Hlog & Hle & Hleast) & Hos). rewrite last_cons.
  edestruct (IH (deliver now key o Settled w) o') as [fl2 H2]; [done|right; split; [done|lia]|split; [|done]|].
  - split_and!; [done|lia|]. intros. apply Hleast; [done|lia].
  - exists fl2. unfold redeliver in H2. cbn [foldl] in H2. rewrite H2. by destruct (last os).
Qed.

(** a partition blocked at its commit point recovers in place.  When a
  partition's handler failed at the commit point, or its rows were lost by a
  failed flush, so that the block and the commit point are the same surviving
  record [b], then rewinding the reader to the block and having the records from
  there on handled, in the order the broker gives them, is a run of the system;
  it lifts the block at the first of them and moves the commit point past the
  last. *)
Theorem blocked_partition_recovers (w : world) (now : float64) (key : tp) (b : Z) (os : list Z)
    (Hpoint : commit_at (book w) !! key = Some b) (Hblock : blocked (book w) !! key = Some b)
    (Hread : read_from (log key) b (b :: os)) :
  ∃ w', star some_step w w' ∧ blocked (book w') !! key = None ∧
    commit_at (book w') !! key = Some (default b (last os) + 1).
Proof.
  set (w1 := World (note_seeks now {[key := b]} (book w)) ({[key := b]} ∪ pos w) (low w) (settled w) (waiting w)).
  exists (redeliver now key (b :: os) w1). split.
  - eapply star_step; [exists None; apply (step_rewind w now {[key := b]}), map_singleton_subseteq_l; done|].
    apply redeliver_star. unfold position_of, w1. cbn [pos]. by rewrite lookup_union, lookup_singleton_eq, union_Some_l.
  - destruct (redeliver_standing now key w1 b os b (flush_floor (book w) !! key) (Some b)) as [fl' Hst];
      [unfold standing_of, w1; cbn; by rewrite Hpoint, Hblock|by left|done|].
    split; [exact (f_equal block Hst)|exact (f_equal point Hst)].
Qed.
End System.

(** ** The poll loop is a run of the system *)

Section Turn.
Context `{PyText, Decoding} {W : Type} (cfg : @config W) (log : tp → Z → Prop).

(** The record a message notes in the book, and whether its handler was done. *)
Definition noted (now : float64) (m : msg) (c : consumer) (w : W) : option (tp * Z * bool) :=
  match m_error m, coords m with
  | Ok None, Ok (Some (key, o)) =>
      Some (key, o, match route cfg now m c w with (Ok _, _, _) => true | _ => false end)
  | _, _ => None
  end.

Fixpoint notes (now : float64) (ms : list msg) (c : consumer) (w : W) : list (tp * Z * bool) :=
  match ms with
  | [] => []
  | m :: ms =>
      let '(_, c', w') := handle_message cfg now m c w in option_list (noted now m c w) ++ notes now ms c' w'
  end.

Lemma foldl_notes_offs now reasons c :
  offs (foldl (λ c reason, note_discard now reason c) c reasons) = offs c.
Proof. apply (foldl_invariant _ (λ c', offs c' = offs c)); done. Qed.

Lemma route_offs now m c w : offs (route cfg now m c w).1.2 = offs c.
Proof.
  unfold route. repeat (case_match; try done); cbn [fst snd]; by rewrite foldl_notes_offs.
Qed.

Lemma handle_message_offs now m c w :
  offs (handle_message cfg now m c w).1.2 =
  match noted now m c w with Some (key, o, ok) => note_offset now key o ok (offs c) | None => offs c end.
Proof.
  unfold handle_message, noted. destruct (m_error m) as [[code|]|e]; [by destruct (decide _)| |done].
  destruct (coords m) as [[[key o]|]|e]; [| |done].
  - pose proof (route_offs now m c w) as Hr. destruct (route cfg now m c w) as [[[b|e] c'] w']; cbn in *; by rewrite Hr.
  - pose proof (route_offs now m c w) as Hr. destruct (route cfg now m c w) as [[[b|e] c'] w']; cbn in *; by rewrite Hr.
Qed.

Lemma drain_offs now ms c w :
  offs (drain cfg now ms c w).1 = foldl (λ o d, note_offset now d.1.1 d.1.2 d.2 o) (offs c) (notes now ms c w).
Proof.
  revert c w. induction ms as [|m ms IH]; intros c w; [done|]. unfold drain in *. cbn [foldl notes fst snd].
  pose proof (handle_message_offs now m c w) as Hm. destruct (handle_message cfg now m c w) as [[b c'] w'].
  cbn [fst snd] in *. rewrite IH, foldl_app, Hm. destruct (noted now m c w) as [[[key o] ok]|]; done.
Qed.

(** The records of a turn, each with what became of it, are what the broker gives
  from the reader's positions on. *)
Fixpoint given (now : float64) (ds : list (tp * Z * fate)) (w : world) : Prop :=
  match ds with
  | [] => True
  | (key, o, f) :: ds =>
      next_in (log key) (position_of w key) o ∧ (f = Waiting → defers cfg key = true) ∧
      given now ds (deliver now key o f w)
  end.

Definition deliver_all (now : float64) (ds : list (tp * Z * fate)) (w : world) : world :=
  foldl (λ w d, deliver now d.1.1 d.1.2 d.2 w) w ds.

Lemma given_star now ds w : given now ds w → star (some_step cfg log) w (deliver_all now ds w).
Proof.
  revert w. induction ds as [|[[key o] f] ds IH]; intros w; [constructor|]. intros (Hn & Hf & Hg).
  eapply star_step; [exists None; by apply (step_deliver cfg log w now key o f)|]. by apply IH.
Qed.

Lemma deliver_all_book now ds w :
  book (deliver_all now ds w) =
  foldl (λ o d, note_offset now d.1.1 d.1.2 d.2 o) (book w) ((λ d, (d.1.1, d.1.2, bool_decide (d.2 ≠ Raised))) <$> ds).
Proof. revert w. induction ds as [|[[key o] f] ds IH]; intros w; [done|]. cbn [deliver_all foldl fmap list_fmap]. apply IH. Qed.

Lemma seekable_blocked cl now o : seekable cl now o ⊆ blocked o.
Proof. unfold seekable. destruct (client_seek cl); [apply map_filter_subseteq|apply map_empty_subseteq]. Qed.

Lemma iter_bump_offs now name n c : offs (Nat.iter n (bump now name false) c) = offs c.
Proof. induction n as [|n IH]; [done|]. by cbn [Nat.iter]. Qed.

Definition seek_world (now : float64) (sought : gmap tp Z) (w : world) : world :=
  World (note_seeks now sought (book w)) (sought ∪ pos w) (low w) (settled w) (waiting w).

(** A rewind is a step of the system, and of nothing when there is no client. *)
Lemma rewind_star cl now c w :
  book w = offs c → let '(c', sought) := rewind_blocked cl now c in
  ∃ w', star (some_step cfg log) w w' ∧ book w' = offs c' ∧ pos w' = sought ∪ pos w ∧ waiting w' = waiting w.
Proof.
  intros Hb. unfold rewind_blocked. destruct (negb (connected c)).
  { exists w. rewrite (left_id_L ∅ (∪)). split_and!; [constructor|done..]. }
  exists (seek_world now (seekable cl now (offs c)) w). split_and!; [|by rewrite iter_bump_offs; cbn; rewrite Hb|done|done].
  eapply star_step; [exists None; apply step_rewind|constructor]. rewrite Hb. apply seekable_blocked.
Qed.

(** The flush gate is a step of the system. *)
Lemma flush_star cl now c w st :
  book w = offs c → (flush cfg = None → waiting w = ∅) → let '(ok, c', _, sought) := flush_writes cfg cl now c st in
  ∃ w', star (some_step cfg log) w w' ∧ book w' = offs c' ∧ pos w' = sought ∪ pos w ∧ waiting w' = ∅.
Proof.
  intros Hb Hnone. unfold flush_writes. destruct (flush cfg) as [f|].
  - destruct (f st) as [[u|e] st'].
    + eexists; split_and!; [eapply star_step; [exists None; apply step_flush|constructor]|cbn; by rewrite Hb| |done].
      by rewrite (left_id_L ∅ (∪)).
    + set (w1 := World (roll_back cfg (book w)) (pos w) (low w) (settled w) ∅).
      set (c1 := with_offs _ _). pose proof (rewind_star cl now c1 w1) as Hr.
      destruct (rewind_blocked cl now c1) as [c2 sought]. destruct Hr as (w' & Hs & ? & ? & ?); [unfold w1, c1; cbn; by rewrite Hb|].
      exists w'. split_and!; try done. eapply star_step; [exists None; apply step_flush_fails|done].
  - exists w. rewrite (left_id_L ∅ (∪)). split_and!; [constructor|done|done|by apply Hnone].
Qed.

Lemma bookkeeping_offs cl now c : offs (poll_bookkeeping cl now c) = offs c.
Proof. unfold poll_bookkeeping. case_match; [done|]. by destruct (client_assignment cl) as [[?|?]|]. Qed.

(** C26: the poll loop refines the abstract broker and book.  Take one turn of the
  loop, from a consumer whose offsets are the world's book.  When the records its
  messages note are those the broker gives from the reader's positions, each
  with a fate that agrees with whether its handler returned, the turn is a run of
  the system that ends with the consumer's offsets as its book and the rewound
  positions as its reader; and if it commits points, it does so in a commit step
  of that run, with no row waiting. *)
Theorem turn_refines (cl : client) (now : float64) (polled : list msg) (c : consumer) (st : W)
    (w : world) (ds : list (tp * Z * fate))
    (Hbook : book w = offs c) (Hnone : flush cfg = None → waiting (deliver_all now ds w) = ∅)
    (Hfates : notes now (take POLL_BATCH polled) c st = (λ d, (d.1.1, d.1.2, bool_decide (d.2 ≠ Raised))) <$> ds)
    (Hgiven : given now ds w) :
  let '(sent, c', _, sought) := poll_turn cfg cl now polled c st in
  ∃ w', book w' = offs c' ∧ pos w' = sought ∪ pos (deliver_all now ds w) ∧
    match sent with
    | Points points => ∃ w1 w2, star (some_step cfg log) w w1 ∧ world_step cfg log w1 (Some points) w2 ∧
        star (some_step cfg log) w2 w'
    | _ => star (some_step cfg log) w w'
    end.
Proof.
  unfold poll_turn. pose proof (drain_offs now (take POLL_BATCH polled) c st) as Hd. rewrite Hfates in Hd.
  destruct (drain cfg now (take POLL_BATCH polled) c st) as [c1 st1]. cbn [fst] in Hd.
  apply given_star in Hgiven. set (w1 := deliver_all now ds w) in *.
  assert (book w1 = offs (poll_bookkeeping cl now c1)) as Hb1.
  { rewrite bookkeeping_offs, Hd. unfold w1. by rewrite deliver_all_book, Hbook. }
  set (c2 := poll_bookkeeping cl now c1) in *. clearbody c2 w1.
  unfold commit_safe. pose proof (flush_star cl now c2 w1 st1 Hb1 Hnone) as Hf.
  destruct (flush_writes cfg cl now c2 st1) as [[[ok c3] st3] sought]. destruct Hf as (w3 & Hs3 & Hb3 & Hp3 & Hw3).
  assert (∀ c4, offs c4 = offs c3 → let '(c5, sought') := rewind_blocked cl now c4 in
    ∃ w', book w' = offs c5 ∧ pos w' = (sought' ∪ sought) ∪ pos w1 ∧ star (some_step cfg log) w w') as Hrest.
  { intros c4 Hc4. rewrite <- Hc4 in Hb3. pose proof (rewind_star cl now c4 w3 Hb3) as Hr.
    destruct (rewind_blocked cl now c4) as [c5 sought']. destruct Hr as (w' & Hs' & Hb' & Hp' & _).
    exists w'. split_and!; [done|by rewrite Hp', Hp3, (assoc_L (∪))|eauto using star_trans]. }
  destruct (negb ok); [by specialize (Hrest c3 eq_refl); destruct (rewind_blocked cl now c3)|].
  destruct (negb (connected c3)); [by specialize (Hrest c3 eq_refl); destruct (rewind_blocked cl now c3)|].
  destruct (negb false && _); [by specialize (Hrest c3 eq_refl); destruct (rewind_blocked cl now c3)|].
  destruct (client_commit cl) as [commit|];
    [|specialize (Hrest (with_last_commit now c3) eq_refl); by destruct (rewind_blocked cl now _)].
  destruct (safe_offsets (offs c3)) as [|x l].
  - destruct (untracked (tally c3) <=? 0); [by specialize (Hrest c3 eq_refl); destruct (rewind_blocked cl now c3)|].
    destruct (client_commit_blind cl).
    + specialize (Hrest (count_commit now c3) eq_refl). by destruct (rewind_blocked cl now _).
    + specialize (Hrest (commit_failed now c3) eq_refl). by destruct (rewind_blocked cl now _).
  - destruct (negb (commit (x :: l))); [specialize (Hrest (commit_failed now c3) eq_refl); by destruct (rewind_blocked cl now _)|].
    set (w4 := World (accepted (book w3)) (pos w3) (low w3) (settled w3) ∅). set (c4 := count_commit now _).
    assert (book w4 = offs c4) as Hb4 by (unfold w4, c4; cbn; by rewrite Hb3).
    pose proof (rewind_star cl now c4 w4 Hb4) as Hr. destruct (rewind_blocked cl now c4) as [c5 sought'].
    destruct Hr as (w' & Hs' & Hb' & Hp' & _). exists w'. split_and!; [done|by rewrite Hp'; unfold w4; cbn [pos]; rewrite Hp3, (assoc_L (∪))|].
    exists w3, w4. split_and!; [eauto using star_trans| |done]. rewrite <- Hb3. by constructor.
Qed.
End Turn.

(** ** One message *)

Section Message.
Context `{PyText, Decoding} {W : Type} (cfg : @config W).

Lemma bump_discards now name c :
  name ∈ DISCARD_COUNTS → discards (tally (bump now name false c)) = discards (tally c) + 1.
Proof. intros Hn. unfold bump. cbn [tally with_tally discards orb]. by rewrite bool_decide_eq_true_2. Qed.

(** A record that is thrown away is counted so, and touches nothing else. *)
Lemma route_discards now m c st c' st' :
  route cfg now m c st = (Ok false, c', st') →
  discards (tally c') = discards (tally c) + 1 ∧ offs c' = offs c ∧ st' = st.
Proof.
  unfold route. intros Hr.
  repeat match type of Hr with
  | (match ?x with _ => _ end) = _ => destruct x eqn:?; try done
  end; try (injection Hr as <- <-; rewrite bump_discards by (unfold DISCARD_COUNTS; set_solver); done).
  match goal with r : result unit |- _ => by destruct r end.
Qed.

(** what one message does to its partition.  On a partition that is not blocked
  and whose commit point is not above the record, a record whose handler
  returned moves the point just past it; so does a record that is thrown away
  (unknown topic, no key, no value, undecodable, no handler), which is counted as
  a discard and writes nothing, so no poisoned record can hold its partition; and
  a record whose handler raised leaves the point where it was (at the record
  itself when it is the first) and blocks the partition at the record. *)
Theorem message_outcomes (now : float64) (m : msg) (c : consumer) (st : W) (key : tp) (o : Z)
    (Herr : m_error m = Ok None) (Hcoords : coords m = Ok (Some (key, o)))
    (Hopen : blocked (offs c) !! key = None) (Hpoint : default o (commit_at (offs c) !! key) ≤ o) :
  let '(ok, c', st') := handle_message cfg now m c st in
  match (route cfg now m c st).1.1 with
  | Raise _ => ok = false ∧ commit_at (offs c') !! key = Some (default o (commit_at (offs c) !! key)) ∧
      blocked (offs c') !! key = Some o
  | Ok b => ok = b ∧ commit_at (offs c') !! key = Some (o + 1) ∧ blocked (offs c') !! key = None ∧
      (b = false → st' = st ∧ discards (tally c') = discards (tally c) + 1)
  end.
Proof.
  unfold handle_message. rewrite Herr, Hcoords.
  pose proof (route_offs cfg now m c st) as Hoffs. pose proof (route_discards now m c st) as Hdisc.
  destruct (route cfg now m c st) as [[r c1] st1]. cbn [fst snd] in *.
  assert (∀ ok, standing_of (note_offset now key o ok (offs c)) key = note o ok (standing_of (offs c) key)) as Hst
    by (intros; by rewrite note_offset_standing, decide_True).
  unfold standing_of in Hst. rewrite Hopen in Hst. unfold note in Hst. cbn [point floor block] in Hst.
  destruct r as [b|e]; cbn [with_offs offs bump with_tally]; rewrite Hoffs; [specialize (Hst true)|specialize (Hst false)].
  - rewrite orb_true_r in Hst. cbn [andb] in Hst.
    split_and!; [done|exact (f_equal point Hst)|exact (f_equal block Hst)|].
    intros ->. destruct (Hdisc c1 st1 eq_refl) as (? & _ & ->). done.
  - split_and!; [done| |exact (f_equal block Hst)]. etrans; [exact (f_equal point Hst)|].
    cbn [andb negb point]. destruct (commit_at (offs c) !! key) as [n|]; [|done]. cbn in *.
    by assert (o <? n = false) as -> by lia.
Qed.
End Message.

(** ** Examples *)

Module Examples.

#[local] Instance text : PyText := no_text.
#[local] Instance decoding : Decoding := {|
  loads s := if decide (s = "{}") then Ok (PDict []) else Raise ValueError;
  utf8_decode := Some;
|}.

Definition here : tp := ("runs", 0).

(** A log whose records 101 to 106 were compacted away. *)
Definition compacted : tp → Z → Prop := λ key o, key = here ∧ (o = 100 ∨ o = 107).

Lemma compacted_next p o :
  (o = 100 ∨ o = 107) → p ≤ o → (o = 107 → 100 < p) → next_in (compacted here) p o.
Proof.
  intros Ho Hp Hlow. split; [by split|]. split; [done|]. intros x [_ Hx] Hpx.
  destruct Ho as [-> | ->]; [|specialize (Hlow eq_refl)]; lia.
Qed.

Lemma compacted_at w p o :
  position_of w here = p → (o = 100 ∨ o = 107) → p ≤ o → (o = 107 → 100 < p) →
  next_in (compacted here) (position_of w here) o.
Proof. intros ->. apply compacted_next. Qed.

Definition on_receipt : @config unit := Config ∅ None ∅ id "dataplane" f_zero.

Definition started : world := new_world {[here := 100]}.
Definition first_done : world := deliver f_zero here 100 Settled started.


(** Record 107 fails once, is read again and succeeds: the partition stays blocked. *)
Definition failed_above : world := deliver f_zero here 107 Raised first_done.
Definition rewound : world :=
  World (note_seeks f_zero {[here := 107]} (book failed_above)) ({[here := 107]} ∪ pos failed_above)
    (low failed_above) (settled failed_above) (waiting failed_above).
Definition retried : world := deliver f_zero here 107 Settled rewound.

Lemma gap_failure_wedges_witness :
  (here, 107) ∈ settled retried ∧ blocked (book retried) !! here = Some 107 ∧
  ∃ m, commit_at (book retried) !! here = Some m ∧ m ≤ 101.
Proof.
  split; [by apply (bool_decide_unpack _)|].
  apply (gap_failure_wedges on_receipt compacted first_done retried f_zero here 101 107).
  - reflexivity.
  - reflexivity.
  - apply compacted_next; lia.
  - lia.
  - done.
  - eapply star_step; [split; [exists None; apply (step_rewind _ _ failed_above f_zero {[here := 107]}), map_singleton_subseteq_l; done|done]|].
    eapply star_step; [split; [exists None; apply (step_deliver _ _ rewound f_zero here 107 Settled); [by apply (compacted_at _ 107); [|right| |]|done]|done]|].
    constructor.
Defined.

(** The same failure on the record at the commit point is recovered from. *)
Definition failed_first : world := deliver f_zero here 100 Raised started.

Lemma blocked_partition_recovers_witness :
  ∃ w', star (some_step on_receipt compacted) failed_first w' ∧ blocked (book w') !! here = None ∧
    commit_at (book w') !! here = Some 108.
Proof.
  apply (blocked_partition_recovers on_receipt compacted failed_first f_zero here 100 [107]); [reflexivity|reflexivity|].
  split; [apply compacted_next; lia|]. split; [apply compacted_next; lia|done].
Defined.

(** A handler that counts what it is given, and its consumer. *)
Definition count_handler : @handler Z := λ _ _ _ n, (Ok tt, [], n + 1).
Definition counting : @config Z :=
  Config {["run_status" := count_handler]} None ∅ (λ l, if decide (l = "run_status") then "runs" else l) "dataplane" f_zero.
Definition run_message (o : Z) (value : string) : msg :=
  Msg (Ok None) (Ok (Some "runs")) (Some (Ok (PInt 0))) (Some (Ok (PInt o))) (RawBytes "r1") (RawBytes value).
Definition broker : client := Client None (Some (λ _, true)) true None None.
Definition subscribed : consumer := with_connected true new_consumer.

Example a_good_record : (handle_message counting f_zero (run_message 100 "{}") subscribed 0).1.1 = true ∧
  (handle_message counting f_zero (run_message 100 "{}") subscribed 0).2 = 1.
Proof. by vm_compute. Qed.

Lemma message_outcomes_witness :
  let '(ok, c', st') := handle_message counting f_zero (run_message 100 "oops") subscribed 0 in
  ok = false ∧ commit_at (offs c') !! here = Some 101 ∧ blocked (offs c') !! here = None ∧
    (ok = false → st' = 0 ∧ discards (tally c') = 1).
Proof.
  assert (default 100 (commit_at (offs subscribed) !! here) ≤ 100) as Hle by (change (100 ≤ 100); lia).
  exact (message_outcomes counting f_zero (run_message 100 "oops") subscribed 0 here 100 eq_refl eq_refl eq_refl Hle).
Defined.

Lemma turn_refines_witness :
  let '(sent, c', _, sought) := poll_turn counting broker f_zero [run_message 100 "{}"; run_message 107 "{}"] subscribed 0 in
  ∃ w', book w' = offs c' ∧
    pos w' = sought ∪ pos (deliver_all f_zero [(here, 100, Settled); (here, 107, Settled)] started) ∧
    match sent with
    | Points points => ∃ w1 w2, star (some_step counting compacted) started w1 ∧
        world_step counting compacted w1 (Some points) w2 ∧ star (some_step counting compacted) w2 w'
    | _ => star (some_step counting compacted) started w'
    end.
Proof.
  apply (turn_refines counting compacted broker f_zero [run_message 100 "{}"; run_message 107 "{}"] subscribed 0 started
    [(here, 100, Settled); (here, 107, Settled)]).
  - reflexivity.
  - reflexivity.
  - vm_compute. reflexivity.
  - split; [by apply (compacted_at _ 100); [|left| |]|]. split; [done|].
    split; [by apply (compacted_at _ 101); [|right| |]|]. by split.
Defined.

Example a_turn_commits :
  (poll_turn counting broker f_zero [run_message 100 "{}"; run_message 107 "{}"] subscribed 0).1.1.1 = Points {[here := 108]}.
Proof. by vm_compute. Qed.

(** A blind commit, which commits wherever the reader stands, is issued although a
  partition is tracked, and blocked: an untracked record is enough. *)
Definition raising : @config Z :=
  Config {["run_status" := λ _ _ _ n, (Raise ValueError, [], n)]} None ∅ (λ l, if decide (l = "run_status") then "runs" else l) "dataplane" f_zero.
Definition untracked_message : msg :=
  Msg (Ok None) (Ok (Some "runs")) None None (RawBytes "r1") (RawBytes "{}").

Example blind_commit_over_a_block :
  let '(sent, c, _, _) :=
    poll_turn raising broker f_zero [run_message 0 "{}"; untracked_message]
      (with_offs (Offsets ∅ ∅ {[here := 0]} ∅ ∅ ∅ ∅) subscribed) 0 in
  sent = Blind ∧ blocked (offs c) !! here = Some 0.
Proof. by vm_compute. Qed.
End Examples.
