(* ===== verification/Health.v ===== *)
(** The verdict of the data plane's health document ([dataplane/health.py]) over
    the statuses of the supervised tasks ([Supervisor.v]) and the statistics of the
    ingest consumer ([Consumer.v]).  The HTTP server around it is left out. *)

From Stdlib Require Import SpecFloat.
From S2P Require Import Prelude PyValue Supervisor Consumer.
Open Scope Z_scope.

(** ** Constants *)

Definition INGEST_STALL_AFTER_S : float64 := f_of_Z 300.
Definition NOT_CONSUMING_AFTER_S : float64 := f_of_Z 20.
Definition ARCHIVE_LAG_AFTER_S : float64 := f_of_Z 300.
Definition BROKER_LAG_RISING_REFRESHES : Z := 5.
Definition DISCARD_WINDOW_S : float64 := f_of_Z 300.

(** What each part of the document reports, in order, and what stands for a key
    that its source does not have. *)
Definition CONSUMER_DEFAULTS : pydict :=
  [("topics", PList []); ("messages", PInt 0); ("handler_errors", PInt 0); ("decode_errors", PInt 0);
   ("last_message_age_s", PNone); ("uncommitted", PInt 0); ("commit_lag", PDict []); ("broker_lag", PDict []);
   ("broker_lag_total", PInt 0); ("broker_lag_unknown", PInt 0); ("broker_lag_rising", PInt 0);
   ("commit_stuck_s", PNone); ("assigned_partitions", PInt 0); ("discards", PInt 0); ("last_discard_age_s", PNone)].
Definition ARCHIVE_DEFAULTS : pydict :=
  [("available", PBool false); ("lag_runs", PInt 0); ("last_dump_at", PNone); ("pending_run_ids", PList [])].
Definition HOT_DEFAULTS : pydict := [("resident_runs", PList []); ("trucks", PInt 0); ("frames", PInt 0)].
Definition STORE_DEFAULTS : pydict :=
  [("db_path", PNone); ("run_ids", PInt 0); ("open_runs", PInt 0); ("rows_dropped", PInt 0); ("frame_write_failures", PInt 0)].

(** ** Data *)

Record task_entry : Set := TaskEntry {
  e_name : string;
  e_alive : bool;
  e_healthy : bool;
  e_restarts : Z;
  e_last_error : option error;
  e_last_heartbeat_age_s : option float64;
}.

Record health : Set := Health {
  ok : bool;
  uptime : float64;
  degraded : list string;
  tasks : list task_entry;
  consumer_out : pydict;
  archive_out : pydict;
  hot_out : pydict;
  store_out : pydict;
}.

Section Health.
Context `{PyText}.

(** [_project] *)
Definition project (src : option pydict) (defaults : pydict) : pydict :=
  (λ kv, (kv.1, get_or (default [] src) kv.1 kv.2)) <$> defaults.

(** [_task_entry] *)
Definition task_entry_of (now : float64) (s : string * status) : task_entry :=
  TaskEntry s.1 (s_alive s.2) (s_healthy s.2) (s_restarts s.2) (s_last_error s.2)
    ((λ t, py_round3 (f_max f_zero (f_sub now t))) <$> s_last_heartbeat s.2).

(** [_int] *)
Definition int_or_zero (v : pyval) : result Z :=
  match py_int (py_or v (PInt 0)) with
  | Raise TypeError | Raise ValueError => Ok 0
  | r => r
  end.

(** [_age] *)
Definition age (v : pyval) : result (option float64) :=
  match v with
  | PNone | PBool _ => Ok None
  | _ =>
      match py_float v with
      | Ok f => Ok (Some f)
      | Raise TypeError | Raise ValueError => Ok None
      | Raise e => Raise e
      end
  end.

(** [len(v or [])] *)
Definition len_or_empty (v : pyval) : result Z :=
  if truth v then
    match v with
    | PList l | PTuple l => Ok (Z.of_nat (length l))
    | PStr s => Ok (Z.of_nat (String.length s))
    | PDict d => Ok (Z.of_nat (length d))
    | _ => Raise TypeError
    end
  else Ok 0.

(** [any(_int(lag) > 0 for lag in (v or {}).values())] *)
Fixpoint any_positive (d : pydict) : result bool :=
  match d with
  | [] => Ok false
  | (_, v) :: d => n ← int_or_zero v; if 0 <? n then Ok true else any_positive d
  end.

Definition some_lag (v : pyval) : result bool :=
  if truth v then match v with PDict d => any_positive d | _ => Raise AttributeError end else Ok false.

Definition when (b : bool) (reason : string) : list string := if b then [reason] else [].

(** Runs waiting for the archive. *)
Definition archive_reasons (wall up : float64) (a : pydict) : result (list string) :=
  n ← int_or_zero (get a "lag_runs");
  pending ← (if n =? 0 then len_or_empty (get a "pending_run_ids") else Ok n);
  last_dump ← age (get a "last_dump_at");
  let lag_s := match last_dump with None => up | Some t => f_max f_zero (f_sub wall t) end in
  Ok (if negb (pending =? 0) && negb (truth (get a "available")) then ["archive_unavailable_with_pending_runs"]
      else when (negb (pending =? 0) && f_ltb ARCHIVE_LAG_AFTER_S lag_s) "archive_lagging").

Definition store_reasons (s : pydict) : result (list string) :=
  n ← int_or_zero (get s "rows_dropped"); Ok (when (negb (n =? 0)) "store_rows_dropped").

(** Silence, judged against whether ingest is expected. *)
Definition silence_reasons (up : float64) (c : pydict) : result (list string) :=
  last_age ← age (get c "last_message_age_s");
  let silence := default up last_age in
  unassigned ← (if truth (get c "topics") then n ← int_or_zero (get c "assigned_partitions"); Ok (n =? 0) else Ok false);
  if unassigned : bool then Ok (when (f_ltb NOT_CONSUMING_AFTER_S silence) "ingest_not_consuming")
  else if f_ltb INGEST_STALL_AFTER_S silence then
    total ← int_or_zero (get c "broker_lag_total");
    waiting ← (if total =? 0 then some_lag (get c "commit_lag") else Ok true);
    if waiting : bool then Ok ["ingest_stalled"]
    else unknown ← int_or_zero (get c "broker_lag_unknown"); Ok (when (negb (unknown =? 0)) "ingest_lag_unknown")
  else Ok [].

Definition behind_reasons (c : pydict) : result (list string) :=
  n ← int_or_zero (get c "broker_lag_rising"); Ok (when (BROKER_LAG_RISING_REFRESHES <=? n) "ingest_behind").

Definition wedged_reasons (c : pydict) : result (list string) :=
  stuck ← age (get c "commit_stuck_s");
  Ok (when match stuck with Some s => f_ltb INGEST_STALL_AFTER_S s | None => false end "ingest_wedged").

Definition discard_reasons (c : pydict) : result (list string) :=
  discard_age ← age (get c "last_discard_age_s");
  n ← int_or_zero (get c "discards");
  Ok (when (negb (n =? 0) && match discard_age with Some a => f_leb a DISCARD_WINDOW_S | None => false end)
        "ingest_discarding").

(** Reasons the caller passes: the empty ones and the repeated ones are dropped. *)
Definition extra_reasons (reasons extras : list string) : list string :=
  foldl (λ rs x, if decide (x = "" ∨ x ∈ rs) then rs else rs ++ [x]) reasons extras.

(** [build_health_payload]; [now] is the monotonic clock, [wall] the time of day. *)
Definition build_health_payload (now wall up : float64) (statuses : list (string * status))
    (consumer archive hot store : option pydict) (extras : list string) : result health :=
  let entries := task_entry_of now <$> statuses in
  let c := project consumer CONSUMER_DEFAULTS in
  let a := project archive ARCHIVE_DEFAULTS in
  let s := project store STORE_DEFAULTS in
  let unhealthy := ((λ e, ("task_unhealthy:" +:+ e_name e)%string) <$> filter (λ e, e_healthy e = false) entries) in
  r1 ← archive_reasons wall up a;
  r2 ← store_reasons s;
  r3 ← silence_reasons up c;
  r4 ← behind_reasons c;
  r5 ← wedged_reasons c;
  r6 ← discard_reasons c;
  let reasons := extra_reasons (unhealthy ++ r1 ++ r2 ++ r3 ++ r4 ++ r5 ++ r6) extras in
  Ok (Health (bool_decide (reasons = [])) (py_round3 up) reasons entries c a (project hot HOT_DEFAULTS) s).

(** [do_GET] on [/health]: the status code. *)
Definition health_code (payload : result health) : Z :=
  match payload with
  | Raise _ => 503
  | Ok h => if ok h then 200 else 503
  end.
End Health.

(** ** Reading the documents *)

Section Reading.
Context `{PyText}.

Lemma int_or_zero_int n : int_or_zero (PInt n) = Ok n.
Proof.
  unfold int_or_zero, py_or. cbn [truth]. destruct (n =? 0) eqn:E; cbn [negb py_int]; [|done].
  by apply Z.eqb_eq in E as ->.
Qed.

Lemma age_opt v : age (opt_float v) = Ok v.
Proof. by destruct v. Qed.

Lemma any_positive_ints l :
  any_positive ((λ kv : string * Z, (kv.1, PInt kv.2)) <$> l) = Ok (bool_decide (Exists (λ kv, 0 < kv.2) l)).
Proof.
  induction l as [|[k n] l IH]; [done|]. cbn [fmap list_fmap any_positive fst snd]. rewrite int_or_zero_int.
  cbn [mbind result_bind]. destruct (0 <? n) eqn:E.
  - rewrite bool_decide_true; [done|left; cbn; lia].
  - rewrite IH. f_equal. apply bool_decide_ext. rewrite Exists_cons. cbn. split; [tauto|]. intros [|]; [lia|done].
Qed.

Lemma some_lag_partitions l : some_lag (per_partition l) = Ok (bool_decide (∃ key n, l !! key = Some n ∧ 0 < n)).
Proof.
  set (names := (λ kv : tp * Z, ((kv.1.1 +:+ ":" +:+ py_str (PInt kv.1.2))%string, kv.2)) <$> map_to_list l).
  assert (per_partition l = PDict ((λ kv : string * Z, (kv.1, PInt kv.2)) <$> names)) as ->.
  { unfold per_partition, names. by rewrite <- list_fmap_compose. }
  assert (bool_decide (Exists (λ kv, 0 < kv.2) names) = bool_decide (∃ key n, l !! key = Some n ∧ 0 < n)) as <-.
  { apply bool_decide_ext. unfold names. rewrite Exists_fmap, Exists_exists. split.
    - intros ([key n] & Hin & Hn). exists key, n. split; [by apply elem_of_map_to_list|done].
    - intros (key & n & Hin & Hn). exists (key, n). split; [by apply elem_of_map_to_list|done]. }
  unfold some_lag. cbn [truth]. case_bool_decide as Hl.
  - apply length_zero_iff_nil in Hl. apply fmap_nil_inv in Hl as ->. done.
  - apply any_positive_ints.
Qed.

Lemma when_nil b r : when b r = [] ↔ b = false.
Proof. by destruct b. Qed.

Lemma extra_reasons_elem r reasons extras : r ∈ reasons → r ∈ extra_reasons reasons extras.
Proof.
  intros Hr. unfold extra_reasons. apply (foldl_invariant _ (λ rs, r ∈ rs)); [|done].
  intros rs x _ Hin. case_decide; [done|]. apply elem_of_app. by left.
Qed.

Lemma extra_reasons_nil reasons extras :
  extra_reasons reasons extras = [] ↔ reasons = [] ∧ Forall (λ x, x = "") extras.
Proof.
  split.
  - intros Hnil. assert (reasons = []) as ->.
    { destruct reasons as [|r rs]; [done|]. pose proof (extra_reasons_elem r (r :: rs) extras) as He.
      rewrite Hnil in He. by destruct (not_elem_of_nil r); apply He; left. }
    split; [done|]. revert Hnil. unfold extra_reasons. induction extras as [|x extras IH]; [done|]. cbn [foldl].
    destruct (decide (x = "" ∨ x ∈ [])) as [[->|Hx%not_elem_of_nil]|Hx]; [by constructor; auto|done|].
    intros Hnil. pose proof (extra_reasons_elem x ([] ++ [x]) extras) as He. unfold extra_reasons in He.
    rewrite Hnil in He. destruct (not_elem_of_nil x). apply He. by left.
  - intros [-> Hall]. unfold extra_reasons. induction Hall as [|x extras -> _ IH]; [done|]. cbn [foldl].
    by rewrite decide_True by auto.
Qed.

(** What the consumer's statistics say under the keys the verdict reads. *)
Lemma stats_read {W} (cfg : @config W) t c :
  let d := project (Some (stats cfg t c)) CONSUMER_DEFAULTS in
  get d "topics" = PList (PStr <$> broker_topics cfg) ∧
  get d "last_message_age_s" = age_s t (last_message_at (tally c)) ∧
  get d "assigned_partitions" = PInt (assigned c) ∧
  get d "discards" = PInt (discards (tally c)) ∧
  get d "last_discard_age_s" = age_s t (last_discard_at (tally c)) ∧
  get d "commit_lag" = per_partition (commit_lag (offs c)) ∧
  get d "broker_lag_total" = PInt (total_lag (broker_lag (lag c))) ∧
  get d "broker_lag_unknown" = PInt (broker_lag_unknown (lag c)) ∧
  get d "broker_lag_rising" = PInt (broker_lag_rising (lag c)) ∧
  get d "commit_stuck_s" = opt_float ((λ s, py_round3 (f_max f_zero s)) <$> commit_stuck_s t (offs c)).
Proof.
  intros d. unfold d, project, get. cbn [d_get fmap list_fmap CONSUMER_DEFAULTS fst snd].
  split_and!; (rewrite ?decide_True by done; rewrite ?decide_False by done; rewrite ?decide_True by done);
    cbn [default from_option id]; unfold get_or, stats; cbn [foldl fst snd default from_option id];
    repeat (rewrite d_get_set_eq || rewrite d_get_set_ne by done); done.
Qed.
End Reading.

(** ** The verdict *)

Section Verdict.
Context `{PyText} {W : Type} (cfg : @config W).

(** What the archive and the store report. *)
Definition archive_report (available : bool) (lag_runs : Z) (last_dump : option float64) (pending : list string) : pydict :=
  [("available", PBool available); ("lag_runs", PInt lag_runs); ("last_dump_at", opt_float last_dump);
   ("pending_run_ids", PList (PStr <$> pending))].
Definition store_report (rows_dropped : Z) : pydict := [("rows_dropped", PInt rows_dropped)].

(** Nothing is wrong with the archive. *)
Definition archive_fine (wall up : float64) (available : bool) (lag_runs : Z) (last_dump : option float64) (pending : list string) : Prop :=
  lag_runs = 0 ∧ pending = [] ∨
  available = true ∧
    f_ltb ARCHIVE_LAG_AFTER_S (match last_dump with None => up | Some t => f_max f_zero (f_sub wall t) end) = false.

(** Nothing is wrong with the ingest. *)
Definition ingest_fine (t up : float64) (c : consumer) : Prop :=
  let silence := match last_message_at (tally c) with
                 | None => up
                 | Some m => py_round3 (f_max f_zero (f_sub t m))
                 end in
  (if decide (assigned c = 0) then f_ltb NOT_CONSUMING_AFTER_S silence = false
   else f_ltb INGEST_STALL_AFTER_S silence = true →
     total_lag (broker_lag (lag c)) = 0 ∧ (∀ key n, commit_lag (offs c) !! key = Some n → n ≤ 0) ∧
     broker_lag_unknown (lag c) = 0) ∧
  broker_lag_rising (lag c) < BROKER_LAG_RISING_REFRESHES ∧
  (∀ s, commit_stuck_s t (offs c) = Some s → f_ltb INGEST_STALL_AFTER_S (py_round3 (f_max f_zero s)) = false) ∧
  (∀ m, last_discard_at (tally c) = Some m → discards (tally c) ≠ 0 →
     f_leb (py_round3 (f_max f_zero (f_sub t m))) DISCARD_WINDOW_S = false).

Lemma archive_reasons_spec wall up av n d l :
  ∃ r, archive_reasons wall up (project (Some (archive_report av n d l)) ARCHIVE_DEFAULTS) = Ok r ∧
    (r = [] ↔ archive_fine wall up av n d l).
Proof.
  unfold archive_reasons.
  change (get (project (Some (archive_report av n d l)) ARCHIVE_DEFAULTS) "lag_runs") with (PInt n).
  change (get (project (Some (archive_report av n d l)) ARCHIVE_DEFAULTS) "pending_run_ids") with (PList (PStr <$> l)).
  change (get (project (Some (archive_report av n d l)) ARCHIVE_DEFAULTS) "last_dump_at") with (opt_float d).
  change (get (project (Some (archive_report av n d l)) ARCHIVE_DEFAULTS) "available") with (PBool av).
  rewrite int_or_zero_int. cbn [mbind result_bind].
  assert ((if n =? 0 then len_or_empty (PList (PStr <$> l)) else Ok n) =
    Ok (if n =? 0 then Z.of_nat (length l) else n)) as ->.
  { destruct (n =? 0); [|done]. destruct l as [|x l]; [done|]. unfold len_or_empty. cbn. by rewrite length_fmap. }
  cbn [mbind result_bind]. rewrite age_opt. cbn [mbind result_bind truth]. eexists; split; [reflexivity|].
  set (lag_s := match d with None => up | Some t => f_max f_zero (f_sub wall t) end).
  unfold archive_fine. fold lag_s.
  assert (((if n =? 0 then Z.of_nat (length l) else n) =? 0) = true ↔ n = 0 ∧ l = []) as Hp.
  { destruct (n =? 0) eqn:E; rewrite Z.eqb_eq; [|lia]. destruct l; cbn; [naive_solver lia|]. split; [lia|naive_solver]. }
  destruct ((if n =? 0 then Z.of_nat (length l) else n) =? 0), av, (f_ltb ARCHIVE_LAG_AFTER_S lag_s); cbn; naive_solver.
Qed.

Lemma silence_reasons_spec t up c :
  ∃ r, silence_reasons up (project (Some (stats cfg t c)) CONSUMER_DEFAULTS) = Ok r ∧
    (r = [] ↔
      let silence := match last_message_at (tally c) with
                     | None => up
                     | Some m => py_round3 (f_max f_zero (f_sub t m))
                     end in
      if decide (assigned c = 0) then f_ltb NOT_CONSUMING_AFTER_S silence = false
      else f_ltb INGEST_STALL_AFTER_S silence = true →
        total_lag (broker_lag (lag c)) = 0 ∧ (∀ key n, commit_lag (offs c) !! key = Some n → n ≤ 0) ∧
        broker_lag_unknown (lag c) = 0).
Proof.
  destruct (stats_read cfg t c) as (Htop & Hmsg & Hass & _ & _ & Hcl & Htot & Hunk & _).
  unfold silence_reasons. rewrite Hmsg. unfold age_s. rewrite age_opt. cbn [mbind result_bind].
  set (silence := match last_message_at (tally c) with None => up | Some m => py_round3 (f_max f_zero (f_sub t m)) end).
  assert (default up ((λ m, py_round3 (f_max f_zero (f_sub t m))) <$> last_message_at (tally c)) = silence) as ->
    by (unfold silence; by destruct (last_message_at (tally c))).
  rewrite Htop. change (truth (PList (PStr <$> broker_topics cfg))) with true. cbv iota. rewrite Hass, int_or_zero_int.
  cbn [mbind result_bind]. case_decide as Ha.
  - rewrite (proj2 (Z.eqb_eq _ _)) by done. eexists; split; [reflexivity|]. rewrite when_nil. naive_solver.
  - rewrite (proj2 (Z.eqb_neq _ _)) by done. destruct (f_ltb INGEST_STALL_AFTER_S silence); [|eexists; split; [done|naive_solver]].
    rewrite Htot, int_or_zero_int. cbn [mbind result_bind].
    assert ((if total_lag (broker_lag (lag c)) =? 0 then some_lag (get (project (Some (stats cfg t c)) CONSUMER_DEFAULTS) "commit_lag") else Ok true) =
      Ok (negb (total_lag (broker_lag (lag c)) =? 0) || bool_decide (∃ key n, commit_lag (offs c) !! key = Some n ∧ 0 < n))) as ->.
    { rewrite Hcl, some_lag_partitions. by destruct (_ =? 0). }
    cbn [mbind result_bind]. destruct (total_lag (broker_lag (lag c)) =? 0) eqn:E; cbn [negb orb].
    + case_bool_decide as Hl.
      * eexists; split; [reflexivity|]. split; [done|]. destruct Hl as (key & n & Hn & Hpos). intros Hall.
        destruct (Hall eq_refl) as (_ & Hle & _). specialize (Hle key n Hn). lia.
      * rewrite Hunk, int_or_zero_int. cbn [mbind result_bind]. eexists; split; [reflexivity|]. rewrite when_nil, negb_false_iff, Z.eqb_eq.
        apply Z.eqb_eq in E. split; [|naive_solver]. intros Hu _. split_and!; [done| |done].
        intros key n Hn. destruct (decide (0 < n)); [|lia]. destruct Hl. eauto.
    + eexists; split; [reflexivity|]. apply Z.eqb_neq in E. naive_solver.
Qed.


(** C35: the verdict is exactly what it documents.  For the statistics of any state
    of the consumer and any report of the archive and the store, the document is
    built, and it says ok, and the endpoint answers 200, exactly when every task is
    healthy, no run waits for an archive that is away or has written nothing for
    five minutes, no row was dropped, the consumer holds a partition or has been
    silent for at most twenty seconds, it is not silent for five minutes with
    records waiting at the broker or unwritten here or with a partition nobody
    could measure, its backlog is not rising, no commit point has stood still for
    five minutes, nothing was discarded in the last five minutes, and the caller
    adds no reason. *)
Theorem health_ok_exact (now wall up t : float64) (statuses : list (string * status)) (c : consumer) (hot : option pydict)
    (av : bool) (n rows : Z) (d : option float64) (pending extras : list string) :
  ∃ h, build_health_payload now wall up statuses (Some (stats cfg t c)) (Some (archive_report av n d pending)) hot
         (Some (store_report rows)) extras = Ok h ∧
    health_code (Ok h) = (if ok h then 200 else 503) ∧
    (ok h = true ↔
      Forall (λ s, s_healthy s.2 = true) statuses ∧ archive_fine wall up av n d pending ∧ rows = 0 ∧
      ingest_fine t up c ∧ Forall (λ x, x = "") extras).
Proof.
  unfold build_health_payload. destruct (archive_reasons_spec wall up av n d pending) as (r1 & -> & H1).
  cbn [mbind result_bind]. unfold store_reasons.
  change (get (project (Some (store_report rows)) STORE_DEFAULTS) "rows_dropped") with (PInt rows).
  rewrite int_or_zero_int. cbn [mbind result_bind].
  destruct (silence_reasons_spec t up c) as (r3 & -> & H3). cbn [mbind result_bind].
  destruct (stats_read cfg t c) as (_ & _ & _ & Hdisc & Hage & _ & _ & _ & Hris & Hstuck).
  unfold behind_reasons, wedged_reasons, discard_reasons. rewrite Hris, Hstuck, Hage, Hdisc. unfold age_s.
  rewrite !int_or_zero_int, !age_opt. cbn [mbind result_bind].
  eexists; split; [reflexivity|]. split; [done|]. cbn [ok]. rewrite bool_decide_eq_true, extra_reasons_nil.
  rewrite !app_nil. rewrite H1, H3, !when_nil. unfold ingest_fine.
  assert ((λ e, ("task_unhealthy:" +:+ e_name e)%string) <$> filter (λ e, e_healthy e = false) (task_entry_of now <$> statuses) = [] ↔
    Forall (λ s, s_healthy s.2 = true) statuses) as ->.
  { induction statuses as [|[nm s] ss IH]; [done|]. rewrite Forall_cons, <- IH. cbn [fmap list_fmap]. rewrite filter_cons.
    cbn [e_healthy task_entry_of snd]. destruct (s_healthy s); [by rewrite decide_False by done; naive_solver|].
    rewrite decide_True by done. naive_solver. }
  assert (negb (rows =? 0) = false ↔ rows = 0) as -> by lia.
  assert ((BROKER_LAG_RISING_REFRESHES <=? broker_lag_rising (lag c)) = false ↔ broker_lag_rising (lag c) < BROKER_LAG_RISING_REFRESHES) as -> by lia.
  assert (match (λ s, py_round3 (f_max f_zero s)) <$> commit_stuck_s t (offs c) with Some s => f_ltb INGEST_STALL_AFTER_S s | None => false end = false ↔
    ∀ s, commit_stuck_s t (offs c) = Some s → f_ltb INGEST_STALL_AFTER_S (py_round3 (f_max f_zero s)) = false) as ->.
  { destruct (commit_stuck_s t (offs c)) as [s|]; cbn; [|done]. split; [by intros ? ? [= <-]|eauto]. }
  assert (negb (discards (tally c) =? 0) && match (λ t0, py_round3 (f_max f_zero (f_sub t t0))) <$> last_discard_at (tally c) with Some a => f_leb a DISCARD_WINDOW_S | None => false end = false ↔
    ∀ m, last_discard_at (tally c) = Some m → discards (tally c) ≠ 0 → f_leb (py_round3 (f_max f_zero (f_sub t m))) DISCARD_WINDOW_S = false) as ->.
  { destruct (last_discard_at (tally c)) as [m|]; cbn; [|rewrite andb_false_r; done].
    destruct (discards (tally c) =? 0) eqn:E; cbn.
    - apply Z.eqb_eq in E. split; [done|done].
    - apply Z.eqb_neq in E. split; [by intros ? ? [= <-]|eauto]. }
  tauto.
Qed.
End Verdict.

(** ** A wedged partition is loud *)

Section Wedged.
Context `{PyText} {W : Type} (cfg : @config W) (log : tp → Z → Prop).

Lemma f_leb_refl x : not_nan x → f_leb x x = true.
Proof. intros Hx. by destruct (total_on x x Hx Hx). Qed.

(** Wedged since its point last moved at [moved], with a record above it seen. *)
Definition wedged_since (key : tp) (n b : Z) (moved : float64) (w : world) : Prop :=
  wedged key n b w ∧ commit_moved_at (book w) !! key = Some moved ∧ ∃ m, max_seen (book w) !! key = Some m ∧ b ≤ m.

Lemma note_offset_above now key key' o ok bk m b :
  commit_at bk !! key = Some m → m ≤ b → blocked bk !! key = Some b → (key' = key → b ≤ o ∧ m < o) →
  commit_moved_at (note_offset now key' o ok bk) !! key = commit_moved_at bk !! key ∧
  (∀ s, max_seen bk !! key = Some s → b ≤ s → ∃ s', max_seen (note_offset now key' o ok bk) !! key = Some s' ∧ b ≤ s').
Proof.
  intros Hm Hmb Hb Ho. destruct (decide (key' = key)) as [->|Hne].
  - destruct (Ho eq_refl) as [Hbo Hmo]. unfold note_offset. rewrite Hm, Hb.
    assert (o <? m = false) as -> by lia. cbn [andb default from_option id]. assert (m =? o = false) as -> by lia.
    rewrite bool_decide_eq_false_2 by done. rewrite andb_false_r.
    destruct ok; cbn [negb commit_moved_at max_seen]; (split; [done|]); intros s Hs Hle; rewrite Hs; cbn [default from_option id];
      (destruct (s <? o); [rewrite lookup_insert_eq|]; eauto).
  - unfold note_offset. split; [by repeat case_match; cbn; rewrite ?lookup_insert_ne by done|].
    intros s Hs Hle. exists s. split; [|done]. by repeat case_match; cbn; rewrite ?lookup_insert_ne by done.
Qed.

Lemma wedged_since_step key n b moved w w' :
  next_in (log key) n b → n < b → some_step cfg log w w' → n ≤ position_of w' key →
  wedged_since key n b moved w → wedged_since key n b moved w'.
Proof.
  intros Hnext Hnb Hstep Hpos (Hw & Hmoved & m & Hm & Hbm). split; [by eapply wedged_step|].
  destruct Hw as [(p & fl & Hst & Hpn) Hp]. destruct Hstep as [l Hstep].
  destruct Hstep as [w now k o f (Ho & Hle & _)|w|w|w|w now sought|w k q]; cbn [book deliver]; eauto.
  destruct (note_offset_above now key k o (bool_decide (f ≠ Raised)) (book w) p b) as [-> Hseen].
  - exact (f_equal point Hst).
  - lia.
  - exact (f_equal block Hst).
  - intros ->. destruct Hnext as (_ & _ & Hgap). assert (b ≤ o) by (apply Hgap; [done|lia]). lia.
  - split; [done|]. by apply (Hseen m).
Qed.

(** The oldest standstill is at least as old as each. *)
Lemma commit_stuck_bound now o key behind :
  commit_lag o !! key = Some behind → 0 < behind →
  (∀ key' n, commit_lag o !! key' = Some n → 0 < n → not_nan (f_sub now (default now (commit_moved_at o !! key')))) →
  ∃ s, commit_stuck_s now o = Some s ∧ f_leb (f_sub now (default now (commit_moved_at o !! key))) s = true.
Proof.
  unfold commit_stuck_s. set (age key := f_sub now (default now (commit_moved_at o !! key))).
  intros Hb Hpos Hnan.
  enough (∀ l : gmap tp Z, (∀ key' n, l !! key' = Some n → 0 < n → not_nan (age key')) →
    let r := map_fold (λ key behind stuck, if 0 <? behind then later stuck (age key) else stuck) None l in
    (∀ s, r = Some s → not_nan s) ∧
    ∀ key n, l !! key = Some n → 0 < n → ∃ s, r = Some s ∧ f_leb (age key) s = true) as Hfold.
  { destruct (Hfold (commit_lag o) Hnan) as [_ Hf]. by apply (Hf key behind). }
  clear Hb Hpos Hnan. intros l. induction l as [|k n l Hk Hfirst IH] using map_first_key_ind; [by split|]. intros Hnan.
  destruct IH as [IH1 IH2].
  { intros key' n' Hl. apply (Hnan key' n'). rewrite lookup_insert_ne; [done|]. by intros ->; rewrite Hk in Hl. }
  rewrite map_fold_insert_first_key by done. set (r := map_fold _ _ _) in *. cbv zeta.
  destruct (0 <? n) eqn:En.
  - assert (not_nan (age k)) as Hak by (apply (Hnan k n); [by rewrite lookup_insert_eq|lia]).
    assert (∃ s, later r (age k) = Some s ∧ not_nan s ∧ f_leb (age k) s = true ∧ (∀ s', r = Some s' → f_leb s' s = true)) as (s & Hs & Hns & Has & Hrs).
    { unfold later. destruct r as [s'|]; eexists; (split; [reflexivity|]); [|by split_and!; [|apply f_leb_refl|]].
      specialize (IH1 s' eq_refl). unfold f_max. destruct (f_ltb s' (age k)) eqn:El.
      - split_and!; [done|by apply f_leb_refl|]. intros ? [= <-]. by apply f_ltb_leb.
      - split_and!; [done|by apply f_ltb_false|]. intros ? [= <-]. by apply f_leb_refl. }
    rewrite Hs. split; [by intros ? [= <-]|]. intros key' n' Hl Hn'. exists s. split; [done|].
    destruct (decide (k = key')) as [<-|Hne]; [done|]. rewrite lookup_insert_ne in Hl by done.
    destruct (IH2 key' n' Hl Hn') as (s' & Hr & Hle).
    apply (trans_on (age key') s' s); [apply (Hnan key' n'); [by rewrite lookup_insert_ne|done]|by apply IH1|done|done|by apply Hrs].
  - split; [done|]. intros key' n' Hl Hn'. destruct (decide (k = key')) as [<-|Hne].
    + rewrite lookup_insert_eq in Hl. injection Hl as <-. lia.
    + rewrite lookup_insert_ne in Hl by done. by apply (IH2 key' n').
Qed.

(** a wedged partition turns the endpoint red.  Take the failure above a
    compaction gap that the consumer never recovers from, and any run of the system
    after it that does not move the reader below the gap.  The age the consumer
    reports for its oldest standing commit point is at least the time since that
    partition's point last moved, before the failure; and once that age, rounded to
    the millisecond, is over five minutes, the health document lists ingest_wedged
    and the endpoint answers 503, whatever the tasks, the archive and the store
    report. *)
Theorem wedged_partition_is_loud (w w' : world) (now clock t moved : float64) (key : tp) (n o : Z) (c : consumer)
    (Hpoint : commit_at (book w) !! key = Some n) (Hopen : blocked (book w) !! key = None)
    (Hmoved : commit_moved_at (book w) !! key = Some moved)
    (Hnext : next_in (log key) n o) (Hgap : n < o) (Hpos : 0 ≤ n ≤ position_of w key ∧ position_of w key ≤ o)
    (Hrun : star (λ a b, some_step cfg log a b ∧ n ≤ position_of b key) (deliver now key o Raised w) w')
    (Hbook : offs c = book w')
    (Hclocks : ∀ k x, commit_lag (offs c) !! k = Some x → 0 < x →
       not_nan (f_sub t (default t (commit_moved_at (offs c) !! k)))) :
  ∃ s, commit_stuck_s t (offs c) = Some s ∧ f_leb (f_sub t moved) s = true ∧
    ∀ up statuses archive hot store extras wall,
      f_ltb INGEST_STALL_AFTER_S (py_round3 (f_max f_zero s)) = true →
      health_code (build_health_payload clock wall up statuses (Some (stats cfg t c)) archive hot store extras) = 503 ∧
      ∀ h, build_health_payload clock wall up statuses (Some (stats cfg t c)) archive hot store extras = Ok h →
        "ingest_wedged" ∈ degraded h.
Proof.
  assert (wedged_since key n o moved w') as (((p & fl & Hst & Hpn) & _) & Hmoved' & m & Hm & Hom).
  { eapply (star_invariant _ (wedged_since key n o moved)); [|..|done];
      [intros a b Ha [??]; by eapply wedged_since_step|].
    split_and!; [by apply wedged_start; try lia| |]; cbn [deliver book].
    - unfold note_offset. rewrite Hpoint, Hopen. cbn. assert (o <? n = false) as -> by lia. done.
    - change (bool_decide (Raised ≠ Raised)) with false. unfold note_offset. rewrite Hpoint, Hopen.
      assert (o <? n = false) as -> by lia. cbn [andb negb max_seen].
      destruct (default (-1) (max_seen (book w) !! key) <? o) eqn:E; [rewrite lookup_insert_eq; exists o; split; [done|lia]|].
      destruct (max_seen (book w) !! key) as [x|]; cbn in E; [exists x; split; [done|lia]|].
      lia. }
  destruct (commit_stuck_bound t (offs c) key (m + 1 - p)) as (s & Hs & Hle).
  - rewrite Hbook. unfold commit_lag. rewrite map_imap_eq, Hm. by injection Hst as -> _ _.
  - lia.
  - exact Hclocks.
  - exists s. rewrite Hbook, Hmoved' in Hle. split_and!; [done|done|]. intros up statuses archive hot store extras wall Hred.
    destruct (stats_read cfg t c) as (_ & _ & _ & _ & _ & _ & _ & _ & _ & Hstuck). rewrite Hs in Hstuck. cbn [fmap option_fmap option_map] in Hstuck.
    unfold build_health_payload.
    destruct (archive_reasons _ _ _) as [r1|]; [|done]. cbn [mbind result_bind].
    destruct (store_reasons _) as [r2|]; [|done]. cbn [mbind result_bind].
    destruct (silence_reasons _ _) as [r3|]; [|done]. cbn [mbind result_bind].
    destruct (behind_reasons _) as [r4|]; [|done]. cbn [mbind result_bind].
    unfold wedged_reasons at 1 2. rewrite Hstuck, age_opt. cbn [mbind result_bind].
    destruct (discard_reasons _) as [r6|]; [|done]. cbn [mbind result_bind]. rewrite Hred. cbn [when].
    set (reasons := extra_reasons _ _).
    assert ("ingest_wedged" ∈ reasons) as Hin by (apply extra_reasons_elem; set_solver).
    split; [|by intros ? [= <-]]. cbn [health_code ok]. by rewrite bool_decide_eq_false_2 by (intros E; rewrite E in Hin; set_solver).
Qed.
End Wedged.

(** ** Examples *)

Module HealthExamples.
Import Consumer.Examples.

#[local] Instance text : PyText := no_text.

Definition minutes_later : float64 := f_of_Z 400.
Definition stuck_consumer : consumer := with_offs (book retried) (with_connected true new_consumer).

Lemma clocks_are_numbers :
  map_Forall (λ k x, 0 < x → not_nan (f_sub minutes_later (default minutes_later (commit_moved_at (book retried) !! k))))
    (commit_lag (book retried)).
Proof. apply (bool_decide_unpack _). by vm_compute. Qed.

(** The partition of the example is red after 400 seconds. *)
Lemma wedged_partition_is_loud_witness :
  health_code (build_health_payload f_zero f_zero f_zero [] (Some (stats on_receipt minutes_later stuck_consumer)) None None None []) = 503.
Proof.
  destruct (wedged_partition_is_loud on_receipt compacted first_done retried f_zero f_zero minutes_later f_zero here 101 107
    stuck_consumer) as (s & Hs & _ & Hred).
  - reflexivity.
  - reflexivity.
  - reflexivity.
  - apply compacted_next; lia.
  - lia.
  - change (position_of first_done here) with 101. lia.
  - eapply star_step; [split; [exists None; apply (step_rewind _ _ failed_above f_zero {[here := 107]}), map_singleton_subseteq_l; done|done]|].
    eapply star_step; [split; [exists None; apply (step_deliver _ _ rewound f_zero here 107 Settled); [by apply (compacted_at _ 107); [|right| |]|done]|done]|].
    constructor.
  - reflexivity.
  - exact clocks_are_numbers.
  - apply Hred. revert Hs. vm_compute. by intros [= <-].
Defined.

(** A quiet, healthy process. *)
Example idle_is_green :
  health_code (build_health_payload f_zero f_zero (f_of_Z 10000)
    [("consumer", Status true true None None 0 None 0 false)]
    (Some (stats on_receipt minutes_later
       (Consumer new_offsets new_tallies new_backlog true f_zero 6 f_zero None)))
    (Some (archive_report true 0 None [])) None (Some (store_report 0)) []) = 200.
Proof. by vm_compute. Qed.

(** An infinite count is not read as zero: it makes the document fail, and the
    endpoint red. *)
Example infinite_count_raises :
  build_health_payload f_zero f_zero f_zero [] None None None (Some [("rows_dropped", PFloat f_inf)]) [] = Raise OverflowError.
Proof. by vm_compute. Qed.
End HealthExamples.
