(* ===== verification/Rebate.v ===== *)
(** Facility rebates ([rebate.py]): the authored schedule and its 24 slots, the one
    pricing rule, the book of a run's facilities, and the digests of its provenance
    stamp.  The date parsers of the standard library and the digest are
    parameters. *)

From Stdlib Require Import SpecFloat Ascii.
From S2P Require Import Prelude PyValue.
Open Scope Z_scope.

(** ** Constants *)

Definition HOURS_PER_DAY : Z := 24.
Definition DEFAULT_CURRENCY : string := "credit".
Definition SUPPORTED_RESOLUTIONS : list string := ["hour"].

(** A [ValueError] of its own. *)
Definition RebateSpecError : exn := OtherError "RebateSpecError".

(** The hour a date parser reads off a text, if it can: [parsedate_to_datetime],
    [datetime.strptime] with the two formats, [datetime.fromisoformat]. *)
Class TimeText := {
  parsedate_hour : string → option Z;
  rfc1123_hour : string → option Z;
  isoformat_hour : string → option Z;
  epoch_hour : string → option Z;
  parsedate_range s h : parsedate_hour s = Some h → 0 ≤ h < HOURS_PER_DAY;
  rfc1123_range s h : rfc1123_hour s = Some h → 0 ≤ h < HOURS_PER_DAY;
  isoformat_range s h : isoformat_hour s = Some h → 0 ≤ h < HOURS_PER_DAY;
  epoch_range s h : epoch_hour s = Some h → 0 ≤ h < HOURS_PER_DAY;
}.

(** ** Schedules *)

(** [RebateSchedule]; [__post_init__] demands 24 amounts. *)
Record schedule : Set := Schedule {
  amounts : list float64;
  currency : string;
  missing_hours : list Z;
}.

Definition make_schedule (a : list float64) (c : string) (m : list Z) : result schedule :=
  if Z.of_nat (length a) =? HOURS_PER_DAY then Ok (Schedule a c m) else Raise RebateSpecError.

(** [value_at] *)
Definition value_at (s : schedule) (hour : Z) : result float64 :=
  match amounts s !! Z.to_nat (hour mod HOURS_PER_DAY) with Some a => Ok a | None => Raise IndexError end.

Definition is_all_zero (s : schedule) : bool := forallb (λ a, f_eqb a f_zero) (amounts s).

Definition hours : list Z := seqZ 0 HOURS_PER_DAY.

(** [to_points] *)
Definition to_points (s : schedule) : list pyval :=
  zip_with (λ h a, PDict [("hour", PInt h); ("amount", PFloat a)]) hours (amounts s).

(** [as_block] *)
Definition as_block (s : schedule) : pyval :=
  PDict [("currency", PStr (currency s)); ("resolution", PStr "hour"); ("points", PList (to_points s))].

(** [RebateSchedule.zero] *)
Definition zero_schedule (c : string) : schedule := Schedule (replicate 24 f_zero) c [].

(** ** Parsing *)

(** [_coerce_amount] *)
Definition coerce_amount (v : pyval) : result float64 :=
  match v with
  | PInt n => if isinf (f_of_Z n) then Raise OverflowError else Ok (f_of_Z n)
  | PFloat f => Ok f
  | _ => Raise RebateSpecError
  end ≫= λ f,
  if isnan f || isinf f then Raise RebateSpecError else Ok f.

(** [_coerce_hour] *)
Definition coerce_hour (v : pyval) : result Z :=
  match v with
  | PInt h => if (0 <=? h) && (h <=? HOURS_PER_DAY - 1) then Ok h else Raise RebateSpecError
  | _ => Raise RebateSpecError
  end.

(** One point of the authored list, into the amounts by hour. *)
Definition add_point (acc : gmap Z float64) (point : pyval) : result (gmap Z float64) :=
  match point with
  | PDict p =>
      match d_get p "hour" with
      | None => Raise RebateSpecError
      | Some h =>
          hour ← coerce_hour h;
          if decide (is_Some (acc !! hour)) then Raise RebateSpecError
          else
            match d_get p "amount", d_get p "weight" with
            | Some _, Some _ => Raise RebateSpecError
            | None, None => Raise RebateSpecError
            | Some a, None | None, Some a => amount ← coerce_amount a; Ok (<[hour := amount]> acc)
            end
      end
  | _ => Raise RebateSpecError
  end.

Definition check_resolution (v : pyval) : result unit :=
  match v with
  | PNone => Ok tt
  | r => if existsb (λ x, py_eq r (PStr x)) SUPPORTED_RESOLUTIONS then Ok tt else Raise RebateSpecError
  end.

Definition read_currency (v : pyval) : result string :=
  match v with
  | PNone => Ok DEFAULT_CURRENCY
  | PStr c => Ok c
  | _ => Raise RebateSpecError
  end.

Definition read_points (v : pyval) : result (list pyval) :=
  match v with
  | PList [] | PTuple [] => Raise RebateSpecError
  | PList points | PTuple points => Ok points
  | _ => Raise RebateSpecError
  end.

(** [parse_rebate_schedule] *)
Definition parse_rebate_schedule (raw : pyval) : result schedule :=
  match raw with
  | PDict d =>
      _ ← check_resolution (get_or d "resolution" (PStr "hour"));
      c ← read_currency (get_or d "currency" (PStr DEFAULT_CURRENCY));
      points ← read_points (get d "points");
      acc ← foldR add_point ∅ points;
      make_schedule ((λ h, default f_zero (acc !! h)) <$> hours) c (filter (λ h, acc !! h = None) hours)
  | _ => Raise RebateSpecError
  end.

(** ** Pricing *)

(** A recorded arrival: a value of a document, or a [datetime] of this hour. *)
Inductive moment : Set := Recorded (v : pyval) | Datetime (hour : Z).

(** [str.replace("Z", "+00:00")] *)
Fixpoint replace_Z (s : string) : string :=
  match s with
  | EmptyString => EmptyString
  | String c s' => if decide (c = "Z"%char) then ("+00:00" +:+ replace_Z s')%string else String c (replace_Z s')
  end.

(** [_RFC1123_RE]: the pieces of the pattern, each taking a prefix off the text. *)
Definition is_alpha (c : Ascii.ascii) : bool :=
  let n := Z.of_N (Ascii.N_of_ascii c) in ((65 <=? n) && (n <=? 90)) || ((97 <=? n) && (n <=? 122)).
Definition is_digit (c : Ascii.ascii) : bool :=
  let n := Z.of_N (Ascii.N_of_ascii c) in (48 <=? n) && (n <=? 57).

Fixpoint exactly (n : nat) (p : Ascii.ascii → bool) (s : string) : option string :=
  match n, s with
  | O, _ => Some s
  | S n, String c s' => if p c then exactly n p s' else None
  | S _, EmptyString => None
  end.

Definition spaces (s : string) : option string :=
  match s with String c s' => if is_space c then Some (lstrip s') else None | EmptyString => None end.

Definition one_or_two_digits (s : string) : option string :=
  s' ← exactly 1 is_digit s; Some (default s' (exactly 1 is_digit s')).

Definition is_char (c : Ascii.ascii) (d : Ascii.ascii) : bool := bool_decide (c = d).

Definition rfc1123_match (s : string) : bool :=
  match
    (s ← exactly 3 is_alpha s; s ← exactly 1 (is_char ","%char) s; s ← spaces s; s ← one_or_two_digits s; s ← spaces s;
     s ← exactly 3 is_alpha s; s ← spaces s; s ← exactly 4 is_digit s; s ← spaces s; s ← exactly 2 is_digit s;
     s ← exactly 1 (is_char ":"%char) s; s ← exactly 2 is_digit s; s ← exactly 1 (is_char ":"%char) s; exactly 2 is_digit s)
  with Some _ => true | None => false end.

Section Pricing.
Context `{PyText, TimeText}.

(** [coerce_when]: the hour of the moment. *)
Definition coerce_when (w : moment) : result Z :=
  match w with
  | Datetime h => Ok h
  | Recorded (PStr t) =>
      let text := strip t in
      if decide (text = "") then Raise ValueError
      else if rfc1123_match text then
        match parsedate_hour text with
        | Some h => Ok h
        | None => match rfc1123_hour text with Some h => Ok h | None => Raise ValueError end
        end
      else match isoformat_hour (replace_Z text) with Some h => Ok h | None => Raise ValueError end
  | Recorded _ => Raise ValueError
  end.

(** [price_at] *)
Definition price_at (s : option schedule) (w : moment) : result float64 :=
  match s with
  | None => Raise ValueError
  | Some s => h ← coerce_when w; value_at s h
  end.

(** [reference_hour] *)
Definition reference_hour (w : moment) : option Z :=
  match w with
  | Datetime h => Some h
  | Recorded (PStr t) => if decide (strip t = "") then None else epoch_hour (strip t)
  | Recorded _ => None
  end.

(** ** The book *)

(** [RebateBook], by facility, in the order it was built. *)
Definition book : Set := list (string * schedule).

Definition facility_ids (b : book) : list string := d_keys b.
Definition contains (b : book) (facility : pyval) : bool := bool_decide (py_str facility ∈ d_keys b).

(** [schedule_for] *)
Definition schedule_for (b : book) (facility : pyval) : option schedule :=
  match facility with PNone => None | _ => d_get b (py_str facility) end.

(** [currency]: of mixed labels the least. *)
Definition book_currency (b : book) : option string :=
  head (sorted_strings (list_to_set (currency ∘ snd <$> b))).

(** [RebateBook.price_at] *)
Definition book_price_at (b : book) (facility : pyval) (w : moment) : result (option float64) :=
  match schedule_for b facility with
  | None => Ok None
  | Some s => a ← price_at (Some s) w; Ok (Some a)
  end.

(** What one facility document contributes: only a block that is refused as
    malformed is skipped; another exception stops the build. *)
Definition add_facility (b : book) (d : pyval) : result book :=
  match d with
  | PDict fields =>
      match get fields "_id" with
      | PNone => Ok b
      | fid =>
          match py_or (get fields "profile") (PDict []) with
          | PDict prof =>
              let block := get prof "rebate" in
              if negb (truth block) then Ok b
              else
                match parse_rebate_schedule block with
                | Ok s => Ok (d_set b (py_str fid) s)
                | Raise e => if decide (e = RebateSpecError) then Ok b else Raise e
                end
          | _ => Raise AttributeError
          end
      end
  | _ => Ok b
  end.

(** [from_facility_docs] *)
Definition from_facility_docs (docs : list pyval) : result book := foldR add_facility [] docs.
End Pricing.

(** ** Digests *)

(** [digest]: the blake2b of the canonical JSON of currency and amounts. *)
Class Digests := schedule_digest : string → list float64 → string.

Section Stamp.
Context `{PyText, Digests}.

Definition digest (s : schedule) : string := schedule_digest (currency s) (amounts s).

(** A bucket of the provenance stamp, its facility types still a set. *)
Record bucket : Set := Bucket {
  b_points : list pyval;
  b_currency : string;
  facility_count : Z;
  facility_types : gset string;
  example_facility : string;
}.

Definition file_schedule (out : list (string * bucket)) (entry : string * pyval * schedule) : list (string * bucket) :=
  let '(name, ftype, s) := entry in
  let b := default (Bucket (to_points s) (currency s) 0 ∅ name) (d_get out (digest s)) in
  d_set out (digest s)
    (Bucket (b_points b) (b_currency b) (facility_count b + 1)
       (if truth ftype then {[py_str ftype]} ∪ facility_types b else facility_types b) (example_facility b)).

(** [schedules_by_digest] *)
Definition schedules_by_digest (entries : list (string * pyval * schedule)) : list (string * (bucket * list string)) :=
  (λ kv, (kv.1, (kv.2, sorted_strings (facility_types kv.2)))) <$> foldl file_schedule [] entries.
End Stamp.

(** ** Parsing is exact *)

(** A schedule as the parser makes them, with every hour authored or missing. *)
Definition schedule_ok (s : schedule) : Prop :=
  length (amounts s) = 24%nat ∧ Forall (λ a, isfinite a = true) (amounts s).

Lemma length_hours : length hours = 24%nat.
Proof. done. Qed.

Lemma elem_of_hours h : h ∈ hours ↔ 0 ≤ h < 24.
Proof. unfold hours, HOURS_PER_DAY. rewrite elem_of_seqZ. lia. Qed.

Lemma hours_lookup i : (i < 24)%nat → hours !! i = Some (Z.of_nat i).
Proof. intros. unfold hours. rewrite lookup_seqZ_lt; [f_equal; lia|unfold HOURS_PER_DAY; lia]. Qed.

(** A point says hour [h] and amount [a]. *)
Definition point_says (point : pyval) (h : Z) (a : float64) : Prop :=
  ∃ p v, point = PDict p ∧ d_get p "hour" = Some (PInt h) ∧ 0 ≤ h < 24 ∧ isfinite a = true ∧
    (d_get p "amount" = Some v ∧ d_get p "weight" = None ∨ d_get p "amount" = None ∧ d_get p "weight" = Some v) ∧
    (v = PFloat a ∨ ∃ n, v = PInt n ∧ a = f_of_Z n).

Lemma coerce_amount_spec v a :
  coerce_amount v = Ok a ↔ isfinite a = true ∧ (v = PFloat a ∨ ∃ n, v = PInt n ∧ a = f_of_Z n).
Proof.
  unfold coerce_amount, isfinite. split.
  - intros Hv. assert (∃ f, (v = PFloat f ∨ ∃ n, v = PInt n ∧ f = f_of_Z n) ∧
      (if isnan f || isinf f then Raise RebateSpecError else Ok f) = Ok a) as (f & Hf & Ha).
    { destruct v as [| |n|f| | | |]; try done; [|exists f; split; [by left|done]]. cbn [mbind result_bind] in Hv.
      destruct (isinf (f_of_Z n)) eqn:E; [done|]. cbn [mbind result_bind] in Hv.
      exists (f_of_Z n). split; [right; by exists n|done]. }
    destruct (isnan f) eqn:E1, (isinf f) eqn:E2; try done. injection Ha as <-. rewrite E1, E2. eauto.
  - intros [Hfin Hv]. apply andb_true_iff in Hfin as [H1%negb_true_iff H2%negb_true_iff].
    destruct Hv as [->|(n & -> & ->)]; cbn [mbind result_bind]; rewrite ?H2; cbn [mbind result_bind]; by rewrite H1, ?H2.
Qed.

Lemma coerce_hour_spec v h : coerce_hour v = Ok h ↔ v = PInt h ∧ 0 ≤ h < 24.
Proof.
  unfold coerce_hour, HOURS_PER_DAY. split.
  - destruct v as [| |n| | | | |]; try done. destruct (_ && _) eqn:E; [|done]. intros [= <-]. split; [done|lia].
  - intros [-> Hr]. by assert ((0 <=? h) && (h <=? 24 - 1) = true) as -> by lia.
Qed.

Lemma add_point_spec acc point acc' :
  add_point acc point = Ok acc' ↔ ∃ h a, point_says point h a ∧ acc !! h = None ∧ acc' = <[h := a]> acc.
Proof.
  unfold add_point, point_says. split.
  - destruct point as [| | | | | | |p]; try done. destruct (d_get p "hour") as [v|] eqn:Eh; [|done].
    destruct (coerce_hour v) as [h|] eqn:Ec; [|done]. apply coerce_hour_spec in Ec as [-> Hr]. cbn [mbind result_bind].
    case_decide as Hin; [done|]. apply eq_None_not_Some in Hin.
    destruct (d_get p "amount") as [a|] eqn:Ea, (d_get p "weight") as [w|] eqn:Ew; try done;
      (destruct (coerce_amount _) as [x|] eqn:Ex; [|done]); intros [= <-]; apply coerce_amount_spec in Ex as [Hfin Hx];
      exists h, x; split_and!; try done; eexists _, _; split_and!; eauto; lia.
  - intros (h & a & (p & v & -> & Hh & Hr & Hfin & Hk & Hv) & Hacc & ->). rewrite Hh.
    rewrite (proj2 (coerce_hour_spec _ _)) by done. cbn [mbind result_bind].
    rewrite decide_False by (by rewrite Hacc; intros [? ?]).
    assert (coerce_amount v = Ok a) as Ha by (by apply coerce_amount_spec).
    destruct Hk as [[-> ->]|[-> ->]]; by rewrite Ha.
Qed.

(** Reading the points one after the other. *)
Inductive authored : list pyval → gmap Z float64 → gmap Z float64 → Prop :=
| authored_nil acc : authored [] acc acc
| authored_cons point points h a acc acc' :
    point_says point h a → acc !! h = None → authored points (<[h := a]> acc) acc' →
    authored (point :: points) acc acc'.

Lemma fold_points points acc acc' : foldR add_point acc points = Ok acc' ↔ authored points acc acc'.
Proof.
  revert acc. induction points as [|point points IH]; intros acc; cbn [foldR].
  - split; [intros [= <-]; constructor|by inversion 1].
  - destruct (add_point acc point) as [acc1|e] eqn:E; cbn [mbind result_bind].
    + apply add_point_spec in E as (h & a & Hp & Hacc & ->). rewrite IH. split; [by econstructor|].
      inversion 1 as [|? ? h' a' ? ? Hp' Hacc' Hrest]; subst.
      assert (h' = h ∧ a' = a) as [-> ->]; [|done].
      destruct Hp as (p & v & -> & Hh & _ & _ & Hk & Hv), Hp' as (p' & v' & [= <-] & Hh' & _ & _ & Hk' & Hv').
      rewrite Hh in Hh'. injection Hh' as <-. split; [done|].
      assert (v' = v) as -> by (destruct Hk as [[? ?]|[? ?]], Hk' as [[? ?]|[? ?]]; congruence).
      destruct Hv as [->|(n & -> & ->)], Hv' as [?|(n' & ? & ?)]; congruence.
    + split; [done|]. inversion 1 as [|? ? h a ? ? Hp Hacc Hrest]; subst.
      rewrite (proj2 (add_point_spec acc point _)) in E by eauto. done.
Qed.

Lemma authored_lookup points acc acc' :
  authored points acc acc' →
  ∀ h, match acc' !! h with
       | Some a => acc !! h = Some a ∨ ∃ point, point ∈ points ∧ point_says point h a
       | None => acc !! h = None ∧ ∀ point a, point ∈ points → ¬ point_says point h a
       end.
Proof.
  induction 1 as [acc|point points h0 a0 acc acc' Hp Hacc _ IH]; intros h.
  - destruct (acc !! h); [by left|]. split; [done|]. intros. by apply not_elem_of_nil in H.
  - specialize (IH h). destruct (acc' !! h) as [a|].
    + destruct IH as [IH|(q & ? & ?)]; [|right; exists q; split; [by right|done]].
      destruct (decide (h0 = h)) as [->|]; [|left; by rewrite lookup_insert_ne in IH].
      rewrite lookup_insert_eq in IH. injection IH as ->. right. exists point. split; [by left|done].
    + destruct IH as [IH1 IH2]. destruct (decide (h0 = h)) as [->|Hne]; [by rewrite lookup_insert_eq in IH1|].
      rewrite lookup_insert_ne in IH1 by done. split; [done|]. intros q a [->|Hq]%elem_of_cons; [|by apply IH2].
      intros (p & v & -> & Hh & _). destruct Hp as (p' & v' & [= <-] & Hh' & _). congruence.
Qed.

(** The list of points of a block, and its currency. *)
Definition block_of (raw : pyval) (c : string) (points : list pyval) : Prop :=
  ∃ d, raw = PDict d ∧ (get_or d "resolution" (PStr "hour") = PNone ∨ get_or d "resolution" (PStr "hour") = PStr "hour") ∧
    (get_or d "currency" (PStr DEFAULT_CURRENCY) = PStr c ∨ get_or d "currency" (PStr DEFAULT_CURRENCY) = PNone ∧ c = DEFAULT_CURRENCY) ∧
    points ≠ [] ∧ (get d "points" = PList points ∨ get d "points" = PTuple points).

Lemma check_resolution_spec v u : check_resolution v = Ok u ↔ v = PNone ∨ v = PStr "hour".
Proof.
  destruct u. unfold check_resolution, SUPPORTED_RESOLUTIONS. destruct v as [| | | |t| | |]; cbn; try (split; [done|by intros [|]]); [by split; auto|].
  destruct (decide (t = "hour")) as [->|Hne]; cbn; [by split; auto|].
  rewrite bool_decide_eq_false_2 by done. split; [done|]. by intros [?|[= ?]].
Qed.

Lemma read_points_spec v l : read_points v = Ok l ↔ l ≠ [] ∧ (v = PList l ∨ v = PTuple l).
Proof.
  unfold read_points. split.
  - destruct v as [| | | | |[|x xs]|[|x xs]|]; try done; intros [= <-]; auto.
  - intros [Hl [->| ->]]; by destruct l.
Qed.

Lemma read_currency_spec v c : read_currency v = Ok c ↔ v = PStr c ∨ v = PNone ∧ c = DEFAULT_CURRENCY.
Proof.
  unfold read_currency. split.
  - destruct v; try done; intros [= <-]; auto.
  - by intros [->|[-> ->]].
Qed.

Lemma parse_inv raw s :
  parse_rebate_schedule raw = Ok s ↔
  ∃ c points acc, block_of raw c points ∧ authored points ∅ acc ∧
    s = Schedule ((λ h, default f_zero (acc !! h)) <$> hours) c (filter (λ h, acc !! h = None) hours).
Proof.
  unfold parse_rebate_schedule, block_of. split.
  - destruct raw as [| | | | | | |d]; try done.
    intros (u & Hr%check_resolution_spec & Hp)%result_bind_inv.
    apply result_bind_inv in Hp as (c & Hc%read_currency_spec & Hp).
    apply result_bind_inv in Hp as (points & [Hne Hpts]%read_points_spec & Hp).
    apply result_bind_inv in Hp as (acc & Hacc%fold_points & Hp).
    unfold make_schedule in Hp. rewrite length_fmap in Hp. cbn in Hp. injection Hp as <-.
    exists c, points, acc. split; [|done]. exists d. auto.
  - intros (c & points & acc & (d & -> & Hr & Hc & Hne & Hpts) & Hacc & ->).
    rewrite (proj2 (check_resolution_spec _ tt)) by done. cbn [mbind result_bind].
    rewrite (proj2 (read_currency_spec _ c)) by done. cbn [mbind result_bind].
    rewrite (proj2 (read_points_spec _ points)) by done. cbn [mbind result_bind].
    rewrite (proj2 (fold_points _ _ acc)) by done. cbn [mbind result_bind].
    unfold make_schedule. by rewrite length_fmap.
Qed.

(** C36: parsing prices exactly what was authored.  When a block is accepted it is
    an hourly block with at least one point, the schedule has 24 finite amounts and
    the block's currency, and in every hour either some point names the hour and
    its finite amount (an integer as its float) is the price, or no point does, the
    price is zero and the hour is listed as missing: nothing is interpolated,
    clamped or scaled. *)
Theorem parse_prices_authored (raw : pyval) (s : schedule) (Hparse : parse_rebate_schedule raw = Ok s) :
  schedule_ok s ∧ ∃ points, block_of raw (currency s) points ∧
    ∀ h, 0 ≤ h < 24 →
      (∃ point a, point ∈ points ∧ point_says point h a ∧ value_at s h = Ok a ∧ h ∉ missing_hours s) ∨
      (∀ point a, point ∈ points → ¬ point_says point h a) ∧ value_at s h = Ok f_zero ∧ h ∈ missing_hours s.
Proof.
  apply parse_inv in Hparse as (c & points & acc & Hblock & Hacc & ->). cbn [amounts currency missing_hours].
  pose proof (authored_lookup points ∅ acc Hacc) as Hlook.
  assert (∀ h, 0 ≤ h < 24 → value_at (Schedule ((λ h, default f_zero (acc !! h)) <$> hours) c (filter (λ h, acc !! h = None) hours)) h
    = Ok (default f_zero (acc !! h))) as Hval.
  { intros h Hr. unfold value_at, HOURS_PER_DAY. cbn [amounts]. rewrite Z.mod_small by lia.
    rewrite list_lookup_fmap, hours_lookup by lia. cbn. by rewrite Z2Nat.id by lia. }
  split; [split; cbn [amounts]|].
  - by rewrite length_fmap.
  - apply Forall_fmap, Forall_forall. intros h Hh. specialize (Hlook h). cbn. destruct (acc !! h) as [a|]; [|done].
    destruct Hlook as [?|(point & _ & p & v & _ & _ & _ & Hfin & _)]; [done|done].
  - exists points. split; [done|]. intros h Hr. rewrite (Hval h Hr). specialize (Hlook h).
    destruct (acc !! h) as [a|] eqn:E.
    + left. destruct Hlook as [?|(point & Hin & Hsays)]; [done|]. exists point, a. split_and!; try done.
      rewrite list_elem_of_filter. by intros [? _]; congruence.
    + right. destruct Hlook as [_ Hno]. split_and!; [done|done|]. rewrite list_elem_of_filter, elem_of_hours. done.
Qed.

(** ** Round trip *)

Lemma point_says_own h a :
  0 ≤ h < 24 → isfinite a = true → point_says (PDict [("hour", PInt h); ("amount", PFloat a)]) h a.
Proof. intros. eexists _, _. split_and!; try done; try lia; [by left|by left]. Qed.

Lemma authored_dense a n acc :
  Forall (λ a, isfinite a = true) a → 0 ≤ n → n + Z.of_nat (length a) ≤ 24 → (∀ h, n ≤ h → acc !! h = None) →
  ∃ acc', authored (zip_with (λ h a, PDict [("hour", PInt h); ("amount", PFloat a)]) (seqZ n (Z.of_nat (length a))) a) acc acc' ∧
    (∀ h, h < n → acc' !! h = acc !! h) ∧ (∀ i, acc' !! (n + Z.of_nat i) = a !! i).
Proof.
  intros Ha. revert n acc. induction Ha as [|x a Hx _ IH]; intros n acc Hn Hlen Hacc.
  - exists acc. split_and!; [constructor|done|]. intros i. rewrite Hacc by lia. by rewrite lookup_nil.
  - cbn [length] in *. rewrite seqZ_cons by lia. replace (Z.pred (Z.of_nat (S (length a)))) with (Z.of_nat (length a)) by lia.
    destruct (IH (Z.succ n) (<[n := x]> acc)) as (acc' & Hauth & Hlow & Hat); [lia|lia| |].
    { intros h Hh. rewrite lookup_insert_ne by lia. apply Hacc. lia. }
    exists acc'. split_and!.
    + cbn [zip_with]. econstructor; [apply point_says_own; [lia|done]|by apply Hacc|done].
    + intros h Hh. rewrite Hlow by lia. by rewrite lookup_insert_ne by lia.
    + intros [|i]; cbn [lookup list_lookup].
      * rewrite Z.add_0_r, Hlow by lia. by rewrite lookup_insert_eq.
      * rewrite <- Hat. f_equal. lia.
Qed.

(** the stamped block means the schedule.  Parsing the block a well-formed
    schedule is stamped as gives back its 24 amounts, bit for bit, and its
    currency, with no hour missing: the compiled artefact prices what the author's
    block did. *)
Theorem rebate_block_roundtrip (s : schedule) (Hok : schedule_ok s) :
  parse_rebate_schedule (as_block s) = Ok (Schedule (amounts s) (currency s) []).
Proof.
  destruct Hok as [Hlen Hfin]. destruct s as [a c m]; cbn [amounts currency] in *.
  destruct (authored_dense a 0 ∅ Hfin) as (acc & Hauth & _ & Hat); [lia|lia|done|].
  apply parse_inv. exists c, (to_points (Schedule a c m)), acc. split_and!.
  - unfold block_of, as_block. eexists. split_and!; [reflexivity|by right|by left| |by left].
    unfold to_points. cbn [amounts]. by destruct a.
  - unfold to_points. cbn [amounts]. by rewrite Hlen in Hauth.
  - assert (∀ h, h ∈ hours → acc !! h = a !! Z.to_nat h) as Hlook.
    { intros h Hh%elem_of_hours. rewrite <- Hat. f_equal. lia. }
    f_equal.
    + apply list_eq. intros i. rewrite list_lookup_fmap. destruct (decide (i < 24)%nat) as [Hi|Hi].
      * rewrite hours_lookup by done. cbn. pose proof (Hlook (Z.of_nat i)) as Hl. rewrite elem_of_hours in Hl.
        rewrite Hl, Nat2Z.id by lia. destruct (lookup_lt_is_Some_2 a i) as [x ->]; [lia|done].
      * rewrite !lookup_ge_None_2; [done|rewrite length_hours; lia|lia].
    + symmetry. apply elem_of_nil_inv. intros h [Hnone Hh]%list_elem_of_filter.
      rewrite (Hlook h Hh) in Hnone. apply elem_of_hours in Hh. apply lookup_ge_None in Hnone. lia.
Qed.

(** ** The provenance stamp *)

Section StampFacts.
Context `{PyText, Digests}.

Definition total_count (out : list (string * bucket)) : Z := foldr (λ kv n, facility_count kv.2 + n) 0 out.

Lemma total_count_set out k b :
  total_count (d_set out k b) =
  total_count out + facility_count b - match d_get out k with Some b' => facility_count b' | None => 0 end.
Proof.
  induction out as [|[k' b'] out IH]; cbn; [lia|]. case_decide; cbn; [lia|]. unfold total_count in IH. rewrite IH. lia.
Qed.

(** Every entry is counted in one bucket. *)
Lemma schedules_by_digest_counts entries :
  foldr (λ kv n, facility_count kv.2.1 + n) 0 (schedules_by_digest entries) = Z.of_nat (length entries).
Proof.
  unfold schedules_by_digest. rewrite foldr_fmap.
  enough (∀ out, total_count (foldl file_schedule out entries) = total_count out + Z.of_nat (length entries)) as Hc.
  { specialize (Hc []). cbn in Hc. exact Hc. }
  induction entries as [|[[name ft] s] entries IH]; intros out; cbn [foldl length]; [lia|]. rewrite IH.
  cbn [file_schedule]. rewrite total_count_set. cbn [facility_count].
  destruct (d_get out (digest s)) as [b|]; cbn [default from_option id facility_count]; lia.
Qed.
End StampFacts.

(** ** Examples *)

Module RebateExamples.

#[local] Instance text : PyText := no_text.

(** Evening pays, the small hours cost. *)
Definition evening : pyval :=
  PDict [("points", PList [PDict [("hour", PInt 18); ("amount", PInt 20)];
                           PDict [("hour", PInt 2); ("weight", PFloat (f_of_Z (-5)))]])].
Definition evening_schedule : schedule :=
  Schedule (<[18%nat := f_of_Z 20]> (<[2%nat := f_of_Z (-5)]> (replicate 24 f_zero))) "credit"
    (filter (λ h, h ≠ 18 ∧ h ≠ 2) hours).

Lemma parse_prices_authored_witness :
  parse_rebate_schedule evening = Ok evening_schedule ∧ schedule_ok evening_schedule.
Proof.
  assert (parse_rebate_schedule evening = Ok evening_schedule) as Hp by (by vm_compute).
  split; [exact Hp|]. exact (proj1 (parse_prices_authored evening evening_schedule Hp)).
Defined.

Lemma rebate_block_roundtrip_witness :
  parse_rebate_schedule (as_block evening_schedule) = Ok (Schedule (amounts evening_schedule) "credit" []).
Proof. apply (rebate_block_roundtrip evening_schedule). split; [done|by apply (bool_decide_unpack _)]. Defined.

(** An amount too large for a float stops the build of the whole book, although an
    unparseable block is documented to be skipped. *)
Example huge_amount_stops_the_book :
  from_facility_docs [PDict [("_id", PStr "f1"); ("profile", PDict [("rebate", evening)])];
    PDict [("_id", PStr "f2"); ("profile", PDict [("rebate",
      PDict [("points", PList [PDict [("hour", PInt 1); ("amount", PInt (10 ^ 400))]])])])]] = Raise OverflowError.
Proof. by vm_compute. Qed.

(** A negative zero is another schedule for the digest than the zero it prices as. *)
Example negative_zero_is_authored :
  (amounts <$> parse_rebate_schedule (PDict [("points", PList [PDict [("hour", PInt 0); ("amount", PFloat (f_opp f_zero))]])])) ≠
  Ok (replicate 24 f_zero).
Proof. by vm_compute. Qed.

Example rfc1123_examples :
  rfc1123_match "Wed, 01 Jan 2020 16:00:00 GMT" = true ∧ rfc1123_match "2020-01-01T16:00:00" = false.
Proof. done. Qed.
End RebateExamples.
