(* ===== verification/HaulDuration.v ===== *)
(** Drive-time floors of haul trips ([haul_trip_duration.py],
    [duration_constants.py]): clamping of leg estimates, the minimum duration of a
    whole haul, and the modelled duration of a trip document. *)

From Stdlib Require Import SpecFloat.
From S2P Require Import Prelude PyValue.
Open Scope Z_scope.

(** ** Constants *)

Definition MIN_HAUL_TRIP_SECONDS : Z := 35 * 60.
Definition MIN_LEG_PICKUP_SECONDS : Z := 15 * 60.
Definition MIN_LEG_DROPOFF_SECONDS : Z := 16 * 60.
Definition MAX_LEG_PICKUP_SECONDS : Z := 40 * 60.
Definition MAX_LEG_DROPOFF_SECONDS : Z := 60 * 60.
Definition DEFAULT_GATE_SERVICE_SECONDS : Z := 120.

Record bounds : Set := Bounds {
  min_pickup : Z;
  max_pickup : Z;
  min_dropoff : Z;
  max_dropoff : Z;
  min_haul : Z;
}.

(** ** Operations *)

Section Durations.
Context `{PyText}.

(** [_profile_bounds] *)
Definition profile_bounds (profile : option pydict) : result bounds :=
  let tp := default [] profile in
  a ← py_int (get_or tp "min_estimated_time_to_pickup" (PInt MIN_LEG_PICKUP_SECONDS));
  b ← py_int (get_or tp "max_estimated_time_to_pickup" (PInt MAX_LEG_PICKUP_SECONDS));
  c ← py_int (get_or tp "min_estimated_time_to_dropoff" (PInt MIN_LEG_DROPOFF_SECONDS));
  d ← py_int (get_or tp "max_estimated_time_to_dropoff" (PInt MAX_LEG_DROPOFF_SECONDS));
  e ← py_int (get_or tp "min_haul_trip_seconds" (PInt MIN_HAUL_TRIP_SECONDS));
  Ok (Bounds a b c d e).

(** [_coerce_seconds] *)
Definition coerce_seconds (v : pyval) (default : float64) : result float64 :=
  match py_float v with
  | Ok sec => Ok (if f_leb f_zero sec then sec else default)
  | Raise TypeError | Raise ValueError => Ok default
  | Raise e => Raise e
  end.

(** [clamp_leg_eta] *)
Definition clamp_leg_eta (eta_seconds : pyval) (min_seconds : Z) (max_seconds : option Z) : result float64 :=
  lo ← py_float (PInt min_seconds);
  eta ← coerce_seconds eta_seconds lo;
  let eta := f_max lo eta in
  match max_seconds with
  | None => Ok eta
  | Some m => hi ← py_float (PInt m); Ok (f_min eta hi)
  end.

(** [gate_service_seconds], with its defaults. *)
Definition gate_service_seconds (order : option pydict) : result (float64 * float64) :=
  let o := default [] order in
  pickup ← coerce_seconds (get o "pickup_service_time") (f_of_Z DEFAULT_GATE_SERVICE_SECONDS);
  dropoff ← coerce_seconds (get o "dropoff_service_time") (f_of_Z DEFAULT_GATE_SERVICE_SECONDS);
  Ok (pickup, dropoff).

Definition sum4 (a b c d : float64) : float64 := f_add (f_add (f_add a b) c) d.

(** [apply_haul_trip_duration_floors] *)
Definition apply_haul_trip_duration_floors (eta_pickup eta_dropoff : pyval) (order profile : option pydict) :
  result (float64 * float64) :=
  b ← profile_bounds profile;
  '(pickup_svc, dropoff_svc) ← gate_service_seconds order;
  pickup ← clamp_leg_eta eta_pickup (min_pickup b) (Some (max_pickup b));
  dropoff ← clamp_leg_eta eta_dropoff (min_dropoff b) (Some (max_dropoff b));
  min_total ← py_float (PInt (min_haul b));
  let drive := sum4 pickup dropoff pickup_svc dropoff_svc in
  let dropoff := if f_ltb drive min_total then f_add dropoff (f_sub min_total drive) else dropoff in
  max_drop ← py_float (PInt (max_dropoff b));
  if f_ltb max_drop dropoff && f_leb min_total (sum4 pickup max_drop pickup_svc dropoff_svc) then Ok (pickup, max_drop)
  else if f_ltb (sum4 pickup dropoff pickup_svc dropoff_svc) min_total then
    Ok (pickup, f_sub (f_sub (f_sub min_total pickup) pickup_svc) dropoff_svc)
  else Ok (pickup, dropoff).

(** [patch_route_duration] *)
Definition patch_route_duration (route : pyval) (duration_seconds : float64) : pyval :=
  match route with
  | PDict r => PDict (d_set r "duration" (PFloat duration_seconds))
  | _ => route
  end.

(** A value that must be a dictionary when it is there: [x or {}], then [.get]. *)
Definition dict_or_empty (v : pyval) : result pydict :=
  match py_or v (PDict []) with PDict d => Ok d | _ => Raise AttributeError end.

(** [modeled_haul_duration_seconds] *)
Definition modeled_haul_duration_seconds (trip : pydict) : result float64 :=
  stats ← dict_or_empty (get trip "stats");
  '(pickup_svc, dropoff_svc) ← gate_service_seconds
    (Some [("pickup_service_time", get stats "pickup_service_time"); ("dropoff_service_time", get stats "dropoff_service_time")]);
  pickup ← coerce_seconds (get stats "estimated_time_to_pickup") f_zero;
  dropoff ← coerce_seconds (get stats "estimated_time_to_dropoff") f_zero;
  Ok (sum4 pickup dropoff pickup_svc dropoff_svc).
End Durations.

(** ** Bounds *)

Section DurationFacts.
Context `{PyText}.

Lemma leb_zero_not_nan f : f_leb f_zero f = true → not_nan f.
Proof. by destruct f. Qed.

Lemma coerce_seconds_not_nan v d f : coerce_seconds v d = Ok f → not_nan d → not_nan f.
Proof.
  unfold coerce_seconds. intros Hc Hd. destruct (py_float v) as [sec|[]]; try done; injection Hc as <-; [|done..].
  destruct (f_leb f_zero sec) eqn:E; [by apply leb_zero_not_nan|done].
Qed.

Lemma f_leb_refl_on x : not_nan x → f_leb x x = true.
Proof. intros Hx. by destruct (total_on x x Hx Hx). Qed.

Lemma f_max_spec lo x : not_nan lo → not_nan x → not_nan (f_max lo x) ∧ f_leb lo (f_max lo x) = true.
Proof.
  intros Hlo Hx. unfold f_max. destruct (f_ltb lo x) eqn:E; [split; [done|by apply f_ltb_leb]|].
  split; [done|by apply f_leb_refl_on].
Qed.

Lemma f_min_spec lo x hi :
  not_nan x → not_nan hi → f_leb lo x = true → f_leb lo hi = true →
  not_nan (f_min x hi) ∧ f_leb lo (f_min x hi) = true ∧ f_leb (f_min x hi) hi = true.
Proof.
  intros Hx Hhi Hlx Hlh. unfold f_min. destruct (f_ltb hi x) eqn:E; [split_and!; [done|done|by apply f_leb_refl_on]|].
  split_and!; [done|done|]. by apply f_ltb_false.
Qed.

(** Whatever the estimate is (missing, a text, negative, not a number, infinite),
    a clamped leg lies within its bounds. *)
Lemma clamp_leg_within v lo hi f :
  clamp_leg_eta v lo (Some hi) = Ok f → not_nan (f_of_Z lo) → not_nan (f_of_Z hi) → f_leb (f_of_Z lo) (f_of_Z hi) = true →
  not_nan f ∧ f_leb (f_of_Z lo) f = true ∧ f_leb f (f_of_Z hi) = true.
Proof.
  intros Hc Hlo Hhi Hle. unfold clamp_leg_eta in Hc. apply result_bind_inv in Hc as (l & Hl & Hc).
  apply result_bind_inv in Hc as (eta & He & Hc). apply result_bind_inv in Hc as (h & Hh & Hc). injection Hc as <-.
  cbn in Hl, Hh. destruct (isinf (f_of_Z lo)); [done|]. injection Hl as <-.
  destruct (isinf (f_of_Z hi)); [done|]. injection Hh as <-.
  destruct (f_max_spec (f_of_Z lo) eta) as [Hn Hm]; [done|by eapply coerce_seconds_not_nan|].
  by apply f_min_spec.
Qed.

(** a leg is never driven faster or slower than its bounds, but for the slack.
    When the profile's bounds are in order, the pickup leg a trip is given lies
    within the pickup bounds whatever the route service estimated (nothing, a
    text, a negative, infinite or undefined number), and the dropoff leg is the
    clamped estimate, the maximum, that estimate with the slack to the minimum
    total added, or what the minimum total leaves for it. *)
Theorem duration_floors_bound (eta_pickup eta_dropoff : pyval) (order profile : option pydict) (b : bounds) (p d : float64)
    (Hb : profile_bounds profile = Ok b)
    (Hnum : Forall (λ n, not_nan (f_of_Z n)) [min_pickup b; max_pickup b; min_dropoff b; max_dropoff b])
    (Hp : f_leb (f_of_Z (min_pickup b)) (f_of_Z (max_pickup b)) = true)
    (Hd : f_leb (f_of_Z (min_dropoff b)) (f_of_Z (max_dropoff b)) = true)
    (Hrun : apply_haul_trip_duration_floors eta_pickup eta_dropoff order profile = Ok (p, d)) :
  (f_leb (f_of_Z (min_pickup b)) p = true ∧ f_leb p (f_of_Z (max_pickup b)) = true) ∧
  ∃ d0 ps ds, clamp_leg_eta eta_dropoff (min_dropoff b) (Some (max_dropoff b)) = Ok d0 ∧
    f_leb (f_of_Z (min_dropoff b)) d0 = true ∧ f_leb d0 (f_of_Z (max_dropoff b)) = true ∧
    gate_service_seconds order = Ok (ps, ds) ∧
    let total := f_of_Z (min_haul b) in
    (d = d0 ∧ f_ltb (sum4 p d0 ps ds) total = false) ∨
    (d = f_of_Z (max_dropoff b) ∧ f_leb total (sum4 p d ps ds) = true) ∨
    (d = f_add d0 (f_sub total (sum4 p d0 ps ds)) ∧ f_ltb (sum4 p d ps ds) total = false) ∨
    d = f_sub (f_sub (f_sub total p) ps) ds.
Proof.
  unfold apply_haul_trip_duration_floors in Hrun. rewrite Hb in Hrun. cbn [mbind result_bind] in Hrun.
  apply result_bind_inv in Hrun as ([ps ds] & Hsvc & Hrun). apply result_bind_inv in Hrun as (p0 & Hp0 & Hrun).
  apply result_bind_inv in Hrun as (d0 & Hd0 & Hrun). apply result_bind_inv in Hrun as (total & Ht & Hrun).
  apply result_bind_inv in Hrun as (mx & Hmx & Hrun).
  cbn in Ht, Hmx. destruct (isinf (f_of_Z (min_haul b))); [done|]. injection Ht as <-.
  destruct (isinf (f_of_Z (max_dropoff b))); [done|]. injection Hmx as <-.
  apply Forall_cons in Hnum as [N1 Hnum]. apply Forall_cons in Hnum as [N2 Hnum].
  apply Forall_cons in Hnum as [N3 Hnum]. apply Forall_cons in Hnum as [N4 _].
  destruct (clamp_leg_within _ _ _ _ Hp0 N1 N2 Hp) as (_ & P1 & P2).
  destruct (clamp_leg_within _ _ _ _ Hd0 N3 N4 Hd) as (_ & D1 & D2).
  assert (p = p0) as ->.
  { match type of Hrun with (if ?x then _ else _) = _ => destruct x; [congruence|] end.
    match type of Hrun with (if ?x then _ else _) = _ => destruct x; congruence end. }
  split; [done|]. exists d0, ps, ds. split_and!; try done.
  set (total := f_of_Z (min_haul b)) in *. set (mx := f_of_Z (max_dropoff b)) in *.
  destruct (f_ltb (sum4 p0 d0 ps ds) total) eqn:E1;
    (match type of Hrun with (if ?x then _ else _) = _ => destruct x eqn:E2 end;
      [injection Hrun as <-; apply andb_true_iff in E2 as [_ E2]; right; left; done|]);
    (match type of Hrun with (if ?x then _ else _) = _ => destruct x eqn:E3 end; injection Hrun as <-).
  - by right; right; right.
  - right; right; left. done.
  - congruence.
  - by left.
Qed.
End DurationFacts.

(** ** Examples *)

Module DurationExamples.

#[local] Instance text : PyText := no_text.

Definition default_bounds : bounds := Bounds 900 2400 960 3600 2100.

(** With short gate services, a haul on the floors gets slack on its dropoff leg. *)
Definition quick_order : pydict := [("pickup_service_time", PInt 0); ("dropoff_service_time", PInt 60)].

Lemma duration_floors_bound_witness :
  apply_haul_trip_duration_floors PNone (PFloat S754_nan) (Some quick_order) None = Ok (f_of_Z 900, f_of_Z 1140) ∧
  f_leb (f_of_Z 900) (f_of_Z 900) = true ∧ f_leb (f_of_Z 900) (f_of_Z 2400) = true.
Proof.
  assert (apply_haul_trip_duration_floors PNone (PFloat S754_nan) (Some quick_order) None = Ok (f_of_Z 900, f_of_Z 1140)) as Hrun
    by (by vm_compute).
  split; [exact Hrun|].
  apply (duration_floors_bound PNone (PFloat S754_nan) (Some quick_order) None default_bounds (f_of_Z 900) (f_of_Z 1140));
    [reflexivity|by apply (bool_decide_unpack _)|by vm_compute|by vm_compute|exact Hrun].
Defined.
End DurationExamples.
