(* ===== verification/HaulTrip.v ===== *)
(** The haul trip of a truck ([truck/trip_manager.py], [common/trip_manager_base.py]):
    the REST document it keeps a copy of, the transitions it asks the server for, the
    workflow messages it publishes after each, and the clock of its next event.  The
    REST server is a parameter; the class [HaulServer] states what the workflow
    endpoint promises. *)

From Stdlib Require Import Ascii SpecFloat.
From stdpp Require Import pretty.
From S2P Require Import Prelude PyValue StateMachines HaulDuration.
Open Scope Z_scope.

(** ** Requests *)

Record response : Set := Response { status : Z; body : pydict }.

(** What the truck asks of the REST API, and of the routing server. *)
Inductive request : Set :=
| GetTruck (id : pyval)
| PatchTruck (id etag : pyval) (data : pydict)
| PostIdle (data : pydict)
| PatchIdle (id etag : pyval) (data : pydict)
| PostTrip (data : pydict)
| GetTrip (id : pyval)
| PatchTrip (id : pyval) (transition : string) (etag : pyval) (data : pydict)
| FindFacility (name : string)
| GetIdle (id : pyval)
| GetRoute (start end_ : pyval).   (* of the routing server *)

Definition WriteFailedException : exn := OtherError "WriteFailedException".
Definition bare_exception : exn := OtherError "Exception".

(** ** Routes and profiles *)

(** [_without_planned_routes] *)
Definition PLANNED_ROUTE_KEYS : list string := ["planned_reposition_route"; "planned_dropoff_route"].

Definition without_planned_routes (profile : pyval) : pyval :=
  match profile with
  | PDict d => PDict (filter (λ kv, kv.1 ∉ PLANNED_ROUTE_KEYS) d)
  | _ => profile
  end.

(** [_route_summary] *)
Definition route_summary (route : pyval) : pyval :=
  match route with
  | PDict d =>
      let part k := match d_get d k with Some v => [(k, v)] | None => [] end in
      match part "geometry" ++ part "distance" ++ part "duration" ++ part "geometry_source" with
      | [] => route
      | summary => PDict summary
      end
  | _ => route
  end.

(** [a if a is not None else b] *)
Definition or_else (a b : pyval) : pyval := if is_none a then b else a.

(** [dict.update] *)
Definition dict_update (d e : pydict) : pydict := foldl (λ d kv, d_set d kv.1 kv.2) d e.

(** ** State *)

Record trip_manager (S : Type) : Type := TripManager {
  trip : option pydict;
  world : S;
  outbox : list (string * pydict);
}.
Arguments TripManager {S}.
Arguments trip {S}.
Arguments world {S}.
Arguments outbox {S}.

Definition with_trip {S} (t : option pydict) (m : trip_manager S) : trip_manager S := TripManager t (world m) (outbox m).
Definition with_world {S} (w : S) (m : trip_manager S) : trip_manager S := TripManager (trip m) w (outbox m).
Definition with_outbox {S} (o : list (string * pydict)) (m : trip_manager S) : trip_manager S :=
  TripManager (trip m) (world m) o.

(** What a trip manager is constructed with. *)
Record trip_config : Set := TripConfig {
  run_id : string;
  domain : string;
  persona : pyval;
  order_events_topic : option string;
  connected : bool;   (* a messenger was given *)
}.

Section TripManager.
Context `{PyText, SimTime} {S : Type} (serve : request → S → result response * S) (cfg : trip_config).

Abbreviation action := (eff (trip_manager S)).

Definition ask (q : request) : action response :=
  λ m, let '(r, w) := serve q (world m) in (r, with_world w m).
Definition look {A} (f : trip_manager S → A) : action A := λ m, (Ok (f m), m).
Definition set_trip (t : option pydict) : action unit := λ m, (Ok tt, with_trip t m).
Definition fail {A} (e : exn) : action A := lift (Raise e).

(** [_trip_item_url] and the etag header: both fields must be there. *)
Definition trip_field (k : string) : action pyval :=
  t ← look trip;
  match t with Some d => lift (item (PDict d) k) | None => fail bare_exception end.

Definition patch_trip_transition (t : Haul.event) (payload : pydict) : action response :=
  id ← trip_field "_id";
  etag ← trip_field "_etag";
  ask (PatchTrip id (Haul.event_name t) etag payload).

(** [refresh] *)
Definition refresh : action unit :=
  t ← look trip;
  match t with
  | None => mret tt
  | Some d =>
      id ← lift (item (PDict d) "_id");
      r ← ask (GetTrip id);
      if is_success (status r) then set_trip (Some (body r)) else fail WriteFailedException
  end.

(** ** Workflow messages *)

(** [_facility_resource_id_by_profile_name]; a request that fails finds nothing. *)
Definition first_id (items : pyval) : result (option string) :=
  if negb (truth items) then Ok None
  else
    match items with
    | PList (PDict d :: _) | PTuple (PDict d :: _) =>
        Ok (if is_none (get d "_id") then None else Some (py_str (get d "_id")))
    | PList (_ :: _) | PTuple (_ :: _) | PStr _ => Raise AttributeError
    | PDict _ => Raise KeyError
    | _ => Raise TypeError
    end.

Definition facility_resource_id_by_profile_name (name : pyval) : action (option string) :=
  if negb (truth name) then mret None
  else λ m,
    let '(r, w) := serve (FindFacility (py_str name)) (world m) in
    (match r with
     | Raise _ => Ok None
     | Ok r => if is_success (status r) then first_id (get (body r) "_items") else Ok None
     end, with_world w m).

Definition topic_of (suffix : string) : string := (run_id cfg +:+ "/" +:+ suffix)%string.

(** [_facility_topic_for_profile_name] *)
Definition facility_topic_for_profile_name (name : pyval) : action (option string) :=
  fid ← facility_resource_id_by_profile_name name;
  mret (match fid with Some "" | None => None | Some fid => Some (topic_of fid) end).

Definition is_order_event (event : string) : bool := String.prefix "order_" event.

Definition trip_or_empty (t : option pydict) : pydict := default [] t.

(** The queue of one leg's facility. *)
Definition queue_topic (leg : string) (meta : pydict) : action (option string) :=
  let fid := get meta (leg +:+ "_facility_resource_id")%string in
  if truth fid then mret (Some (topic_of (py_str fid)))
  else
    match get_or meta "order_profile" (PDict []) with
    | PDict profile => facility_topic_for_profile_name (get profile (leg +:+ "_facility_name")%string)
    | _ => fail AttributeError
    end.

(** [_mqtt_topic_for_workflow_event] *)
Definition mqtt_topic_for_workflow_event (event : string) : action (option string) :=
  t ← look trip;
  let d := trip_or_empty t in
  if is_order_event event then
    mret (if truth (get d "order") then
            Some (topic_of (match order_events_topic cfg with
                            | Some "" | None => py_str (get d "order")
                            | Some topic => topic
                            end))
          else None)
  else
    meta ← lift (dict_or_empty (get d "meta"));
    if decide (event = Events.TRUCK_ARRIVED_PICKUP_QUEUE) then queue_topic "pickup" meta
    else if decide (event = Events.TRUCK_ARRIVED_DROPOFF_QUEUE) then queue_topic "dropoff" meta
    else mret None.

(** [message_template], with the context merged into its data. *)
Definition message_data (event : string) (d : pydict) : pydict :=
  if is_order_event event
  then [("event", PStr event); ("order_id", get d "order"); ("sim_clock", get d "sim_clock")]
  else [("event", PStr event)].

Definition workflow_message (event : string) (d context : pydict) : pydict :=
  [("action", PStr (if is_order_event event then Events.ORDER_WORKFLOW_EVENT else Events.FACILITY_WORKFLOW_EVENT));
   ("truck_id", get d "truck");
   ("data", PDict (dict_update (message_data event d) context))].

(** [messenger.client.publish]: what the client is handed; that it may lose it is
    logged and goes no further. *)
Definition publish (channel : string) (msg : pydict) : action unit :=
  λ m, (Ok tt, with_outbox (outbox m ++ [(channel, msg)]) m).

(** [post_transition_hook] *)
Definition post_transition_hook (t : Haul.event) (context : pydict) : action unit :=
  match emitted_event t with
  | None => mret tt
  | Some event =>
      d ← look trip;
      match d with
      | None => fail AttributeError
      | Some d =>
          channel ← mqtt_topic_for_workflow_event event;
          match channel with
          | Some c => if connected cfg then publish c (workflow_message event d context) else mret tt
          | None => mret tt
          end
      end
  end.

(** [apply_trip_transition_and_notify] *)
Definition apply_trip_transition_and_notify (t : Haul.event) (data context : pydict) : action response :=
  r ← patch_trip_transition t data;
  if is_success (status r) then
    _ ← refresh;
    _ ← trip_field "state";
    _ ← post_transition_hook t context;
    mret r
  else mret r.

(** ** Operations *)

(** [v.get(k)], where [v] may be anything. *)
Definition sub (v : pyval) (k : string) : result pyval :=
  match v with PDict d => Ok (get d k) | _ => Raise AttributeError end.

(** The estimate of a leg: the profile's, or the order's. *)
Definition leg_eta (profile order : pydict) (k : string) : pyval :=
  or_else (get profile k) (get_or order k (PInt 0)).

(** One facility of an order: named by the order, or found by its profile's name. *)
Definition facility_of (leg : string) (order : pydict) : action pyval :=
  let fid := get order (leg +:+ "_facility_resource_id")%string in
  if truth fid then mret fid
  else
    name ← lift (sub (py_or (get order "profile") (PDict [])) (leg +:+ "_facility_name")%string);
    found ← facility_resource_id_by_profile_name name;
    mret (match found with Some f => PStr f | None => PNone end).

(** The document [create_new_trip] posts. *)
Definition new_trip_doc (sim_clock current_loc : pyval) (truck order : pydict)
  (etas : float64 * float64) (routes : pyval * pyval) (facilities : pyval * pyval) (collaboration : pyval) : pydict :=
  [("truck", get truck "_id");
   ("order", get order "_id");
   ("persona", persona cfg);
   ("meta", PDict
     ([("truck_profile", without_planned_routes (get_or truck "profile" (PDict [])));
       ("order_profile", get_or order "profile" (PDict []));
       ("pickup_facility_resource_id", facilities.1);
       ("dropoff_facility_resource_id", facilities.2);
       ("reposition_origin_loc", current_loc)] ++
      (if truth collaboration then [("collaboration", collaboration)] else [])));
   ("current_loc", current_loc);
   ("pickup_loc", get order "pickup_loc");
   ("dropoff_loc", get order "dropoff_loc");
   ("stats", PDict
     [("estimated_time_to_pickup", PFloat etas.1);
      ("estimated_time_to_dropoff", PFloat etas.2);
      ("pickup_service_time", get_or order "pickup_service_time" (PInt 0));
      ("dropoff_service_time", get_or order "dropoff_service_time" (PInt 0))]);
   ("routes", PDict [("planned", PDict
     [("repositioning_to_pickup", routes.1); ("loaded_to_dropoff", routes.2)])]);
   ("statemachine", PDict [("name", PStr Haul.sm_name); ("domain", PStr (domain cfg))]);
   ("state", PStr (Haul.name Haul.initial));
   ("sim_clock", sim_clock)].

(** [create_new_trip].  The order is the caller's own copy: what [pop] takes out of
    it is not read again. *)
Definition create_new_trip (sim_clock current_loc : pyval) (truck order : pydict) : action pydict :=
  truck_prof ← lift (dict_or_empty (get truck "profile"));
  etas ← lift (apply_haul_trip_duration_floors
    (leg_eta truck_prof order "estimated_time_to_pickup") (leg_eta truck_prof order "estimated_time_to_dropoff")
    (Some order) (Some truck_prof));
  let plan_repo := or_else (get truck_prof "planned_reposition_route") (get order "planned_reposition_route") in
  let plan_drop := or_else (get truck_prof "planned_dropoff_route") (get order "planned_dropoff_route") in
  let collaboration := get order "_collaboration" in
  pickup ← facility_of "pickup" order;
  dropoff ← facility_of "dropoff" order;
  r ← ask (PostTrip (new_trip_doc sim_clock current_loc truck order etas (plan_repo, plan_drop) (pickup, dropoff) collaboration));
  if is_success (status r) then
    id ← lift (item (PDict (body r)) "_id");
    _ ← set_trip (Some [("_id", id)]);
    _ ← refresh;
    t ← look trip;
    mret (trip_or_empty t)
  else fail WriteFailedException.

Definition order_id (order : option pydict) : pyval := match order with Some o => get o "_id" | None => PNone end.

(** [assign] *)
Definition assign (sim_clock current_loc : pyval) (order truck : option pydict) (assignment_metadata : pyval) : action response :=
  let o := default [] order in
  tp ← lift (dict_or_empty (get (default [] truck) "profile"));
  '(eta_p, eta_d) ← lift (apply_haul_trip_duration_floors
    (leg_eta tp o "estimated_time_to_pickup") (leg_eta tp o "estimated_time_to_dropoff") (Some o) (Some tp));
  let stat f := match order with Some _ => PFloat f | None => PInt 0 end in
  apply_trip_transition_and_notify Haul.assign
    [("sim_clock", sim_clock); ("current_loc", current_loc); ("order", order_id order);
     ("stats.estimated_time_to_pickup", stat eta_p); ("stats.estimated_time_to_dropoff", stat eta_d)]
    [("order_id", order_id order); ("assignment_metadata", py_or assignment_metadata (PDict []))].

(** [cancel] *)
Definition cancel (sim_clock current_loc : pyval) : action response :=
  apply_trip_transition_and_notify Haul.cancel [("sim_clock", sim_clock); ("current_loc", current_loc)] [].

(** [start_empty_reposition] *)
Definition start_empty_reposition (sim_clock current_loc route estimated_time_to_pickup : pyval) : action response :=
  t ← look trip;
  route ← lift
    (if is_none route then
       planned ← (match py_or (get (trip_or_empty t) "routes") (PDict []) with
                  | PDict routes => Ok (get_or routes "planned" (PDict []))
                  | _ => Raise AttributeError
                  end);
       sub planned "repositioning_to_pickup"
     else Ok route);
  apply_trip_transition_and_notify Haul.start_empty_reposition
    [("sim_clock", sim_clock); ("stats.reposition_started_at", sim_clock); ("current_loc", current_loc);
     ("routes.planned.repositioning_to_pickup", route); ("stats.estimated_time_to_pickup", estimated_time_to_pickup)]
    [("planned_route", route_summary route); ("estimated_time_to_pickup", estimated_time_to_pickup)].

(** [arrive_pickup_queue] *)
Definition arrive_pickup_queue (sim_clock current_loc queue_arrival_time : pyval) : action response :=
  apply_trip_transition_and_notify Haul.arrive_pickup_queue
    [("sim_clock", sim_clock); ("current_loc", current_loc);
     ("stats.pickup_queue_arrival_time", py_or queue_arrival_time sim_clock)]
    [("location", current_loc); ("queue_arrival_time", py_or queue_arrival_time sim_clock)].

(** [enter_pickup_gate] *)
Definition enter_pickup_gate (sim_clock current_loc gate_index service_time : pyval) : action response :=
  apply_trip_transition_and_notify Haul.enter_pickup_gate
    [("sim_clock", sim_clock); ("current_loc", current_loc); ("gate_index", gate_index);
     ("stats.pickup_service_time", service_time)]
    [("gate_index", gate_index); ("service_time", service_time)].

(** [finish_pickup_service] *)
Definition finish_pickup_service (sim_clock current_loc route_to_dropoff estimated_time_to_dropoff service_time : pyval) :
  action response :=
  t ← look trip;
  let d := trip_or_empty t in
  stats ← lift (dict_or_empty (get d "stats"));
  meta ← lift (dict_or_empty (get d "meta"));
  truck_prof ← lift (dict_or_empty (get meta "truck_profile"));
  let order_stub := [("pickup_service_time", get stats "pickup_service_time");
                     ("dropoff_service_time", or_else service_time (get stats "dropoff_service_time"))] in
  '(_, eta) ← lift (apply_haul_trip_duration_floors (get_or stats "estimated_time_to_pickup" (PInt 0))
    estimated_time_to_dropoff (Some order_stub) (Some truck_prof));
  route ← lift
    (if is_none route_to_dropoff then
       planned ← sub (py_or (get d "routes") (PDict [])) "planned";
       sub (py_or planned (PDict [])) "loaded_to_dropoff"
     else Ok route_to_dropoff);
  let route := patch_route_duration route eta in
  apply_trip_transition_and_notify Haul.finish_pickup_service
    [("sim_clock", sim_clock); ("stats.loaded_started_at", sim_clock); ("current_loc", current_loc);
     ("routes.planned.loaded_to_dropoff", route); ("stats.estimated_time_to_dropoff", PFloat eta);
     ("stats.pickup_service_time", service_time)]
    [("location", current_loc); ("planned_route", route_summary route); ("estimated_time_to_dropoff", PFloat eta);
     ("service_time", service_time)].

(** [arrive_dropoff_queue] *)
Definition arrive_dropoff_queue (sim_clock current_loc queue_arrival_time : pyval) : action response :=
  apply_trip_transition_and_notify Haul.arrive_dropoff_queue
    [("sim_clock", sim_clock); ("current_loc", current_loc);
     ("stats.dropoff_queue_arrival_time", py_or queue_arrival_time sim_clock)]
    [("location", current_loc); ("queue_arrival_time", py_or queue_arrival_time sim_clock)].

(** [enter_dropoff_gate] *)
Definition enter_dropoff_gate (sim_clock current_loc gate_index service_time : pyval) : action response :=
  apply_trip_transition_and_notify Haul.enter_dropoff_gate
    [("sim_clock", sim_clock); ("current_loc", current_loc); ("gate_index", gate_index);
     ("stats.dropoff_service_time", service_time)]
    [("gate_index", gate_index); ("service_time", service_time)].

(** [finish_dropoff_service] *)
Definition finish_dropoff_service (sim_clock current_loc service_time : pyval) : action response :=
  apply_trip_transition_and_notify Haul.finish_dropoff_service
    [("sim_clock", sim_clock); ("current_loc", current_loc); ("stats.dropoff_service_time", service_time)]
    [("location", current_loc); ("service_time", service_time)].
End TripManager.

(** ** The clock of the next event

    Times are in microseconds, as [datetime] keeps them. *)

Section Clock.
Context `{PyText, SimTime}.

Definition US : Z := 1000000.

(** [datetime.max]: the years 1 to 9999 have 3652059 days. *)
Definition MAX_TIME : Z := (MIN_TIME + 3652059 * 86400) * US - 1.

(** [timedelta(seconds=f)]: whole seconds, then the fraction rounded half to even;
    at most 999999999 days either way. *)
Definition timedelta_us (f : float64) : result Z :=
  secs ← py_int (PFloat f);
  frac ← py_int (PFloat (py_round 1 (f_mul (f_sub f (f_of_Z secs)) (f_of_Z US))));
  let us := secs * US + frac in
  if (Z.abs (us / (86400 * US)) <=? 999999999) then Ok us else Raise OverflowError.

(** A [datetime] plus a [timedelta]. *)
Definition add_us (t d : Z) : result Z :=
  if (MIN_TIME * US <=? t + d) && (t + d <=? MAX_TIME) then Ok (t + d) else Raise OverflowError.

(** [float(v)], [None] when it is not a number. *)
Definition soft_float (v : pyval) : result (option float64) :=
  match py_float v with
  | Ok f => Ok (Some f)
  | Raise TypeError | Raise ValueError => Ok None
  | Raise e => Raise e
  end.

(** [_route_duration_seconds] *)
Definition route_duration_seconds (route : pyval) : result (option float64) :=
  match route with
  | PDict r => if is_none (get r "duration") then Ok None else soft_float (get r "duration")
  | _ => Ok None
  end.

(** [_anchor_time] *)
Definition anchor_time (trip : pydict) (current_time : Z) : Z :=
  let stamp k (rest : Z) :=
    if truth (get trip k) then match to_time (get trip k) with Ok z => z * US | Raise _ => rest end else rest in
  stamp "_updated" (stamp "sim_clock" current_time).

(** [seconds_or_route] *)
Definition seconds_or_route (stats planned : pyval) (stat_key route_key : string) : result float64 :=
  let of_route :=
    route ← sub planned route_key;
    rd ← route_duration_seconds route;
    Ok (default f_zero rd) in
  v ← sub stats stat_key;
  if is_none v then of_route
  else
    sec ← soft_float v;
    match sec with
    | Some sec => if f_ltb f_zero sec then Ok sec else of_route
    | None => of_route
    end.

(** The service time at a gate. *)
Definition service_seconds (stats : pyval) (k : string) : result float64 :=
  v ← sub stats k;
  sec ← soft_float (py_or v (PInt 0));
  Ok (default f_zero sec).

(** How long the phase of a state lasts; [None] when it ends as soon as the clock allows. *)
Definition phase_seconds (state stats planned : pyval) : option (result float64) :=
  let in_state s := py_eq state (PStr (Haul.name s)) in
  if in_state Haul.repositioning_to_pickup then
    Some (seconds_or_route stats planned "estimated_time_to_pickup" "repositioning_to_pickup")
  else if in_state Haul.loaded_in_transit then
    Some (seconds_or_route stats planned "estimated_time_to_dropoff" "loaded_to_dropoff")
  else if in_state Haul.at_pickup_gate then Some (service_seconds stats "pickup_service_time")
  else if in_state Haul.at_dropoff_gate then Some (service_seconds stats "dropoff_service_time")
  else None.

(** [estimate_next_event_time] *)
Definition estimate_next_event_time (trip : option pydict) (current_time : Z) : result Z :=
  match trip with
  | None => Ok current_time
  | Some d =>
      let stats := py_or (get d "stats") (PDict []) in
      planned ← sub (py_or (get d "routes") (PDict [])) "planned";
      let planned := py_or planned (PDict []) in
      let anchor := anchor_time d current_time in
      match phase_seconds (get d "state") stats planned with
      | None => Ok current_time
      | Some dur =>
          Ok (catch
            (dur ← dur;
             td ← timedelta_us dur;
             at_ ← add_us anchor td;
             Ok (Z.max at_ current_time)) current_time)
      end
  end.

(** [TruckAgent.estimate_next_event_time], with a live app.  The step interval and
    the cadence are whatever [int] accepts. *)
Definition agent_estimate (trip : option pydict) (current_time : Z) (step_interval steps_per_action : pyval) : result Z :=
  match trip with
  | None =>
      interval ← py_int step_interval;
      spa ← py_int steps_per_action;
      add_us current_time (interval * Z.max 1 spa * US)
  | Some _ => Ok (catch (estimate_next_event_time trip current_time) current_time)
  end.
End Clock.

(** ** The server

    What the workflow endpoint promises: a stored trip carries its id, an etag and a
    state; reading one answers it; a transition is applied, and answered with a
    success, or refused, and changes nothing.  The keys of [KEPT] stay unless the
    payload names them. *)

Definition KEPT : list string := ["_id"; "truck"; "order"; "meta"; "pickup_loc"; "dropoff_loc"].

Definition in_state (d : pydict) (s : Haul.state) : Prop := get d "state" = PStr (Haul.name s).

Definition writes_trip (q : request) : bool := match q with PostTrip _ | PatchTrip _ _ _ _ => true | _ => false end.

Class HaulServer {S} (serve : request → S → result response * S) := {
  stored : S → pyval → option pydict;
  stored_wf w id d : stored w id = Some d → d_get d "_id" = Some id ∧ is_Some (d_get d "_etag");
  get_reads w id d : stored w id = Some d →
    ∃ st, is_success st = true ∧ serve (GetTrip id) w = (Ok (Response st d), w);
  patch_moves w id t etag data d s r w' :
    stored w id = Some d → in_state d s → serve (PatchTrip id (Haul.event_name t) etag data) w = (r, w') →
    (∃ s' d' resp, fire Haul.table s t = Ok s' ∧ r = Ok resp ∧ is_success (status resp) = true ∧
       stored w' id = Some d' ∧ in_state d' s' ∧ (∀ k, k ∈ KEPT → get d' k = get_or data k (get d k)) ∧
       (∀ id', id' = id ∨ stored w' id' = stored w id')) ∨
    ((∀ resp, r = Ok resp → is_success (status resp) = false) ∧ ∀ id', stored w' id' = stored w id');
  post_stores data w resp w' :
    serve (PostTrip data) w = (Ok resp, w') → is_success (status resp) = true →
    ∃ id d, d_get (body resp) "_id" = Some id ∧ stored w id = None ∧ stored w' id = Some d ∧
      (∀ k, k ∈ "state" :: KEPT → k ≠ "_id" → get d k = get data k) ∧ (∀ id', id' = id ∨ stored w' id' = stored w id');
  post_refuses data w r w' :
    serve (PostTrip data) w = (r, w') → (∀ resp, r = Ok resp → is_success (status resp) = false) →
    ∀ id, stored w' id = stored w id;
  others_keep q w r w' : writes_trip q = false → serve q w = (r, w') → ∀ id, stored w' id = stored w id;
}.

(** ** The order a trip carries *)

(** What an order does with an event: move to the target of the event's rule. *)
Definition follow_event (o : Order.state) (event : string) : Order.state :=
  match head (filter (λ r, rule_event r = event) haultrip_order_interactions) with
  | Some r => default o (head (filter (λ s, Order.name s = target_new_state r) Order.states))
  | None => o
  end.

(** The event of a message about an order. *)
Definition order_event (msg : string * pydict) : option string :=
  if py_eq (get msg.2 "action") (PStr Events.ORDER_WORKFLOW_EVENT) then
    match get msg.2 "data" with
    | PDict data => match get data "event" with PStr e => Some e | _ => None end
    | _ => None
    end
  else None.

Definition order_events (msgs : list (string * pydict)) : list string := omap order_event msgs.

Lemma follow_event_emitted t e o : emitted_event t = Some e → is_order_event e = true → follow_event o e = follow t o.
Proof.
  intros He Hp. destruct t; vm_compute in He; (discriminate He || injection He as <-);
    vm_compute in Hp; (discriminate Hp || by destruct o).
Qed.

Lemma unfollowed t o : (∀ e, emitted_event t = Some e → is_order_event e = false) → follow t o = o.
Proof.
  intros Ht. destruct t; (by destruct o) || (specialize (Ht _ eq_refl); vm_compute in Ht; discriminate Ht).
Qed.

Section Facts.
Context `{PyText, SimTime} {S : Type} (serve : request → S → result response * S) (cfg : trip_config) `{!HaulServer serve}.

Implicit Types (m : trip_manager S).

(** The copy is what the server has, in state [s], for the order [oid]. *)
Definition in_sync (oid : pyval) (s : Haul.state) (m : trip_manager S) : Prop :=
  ∃ d, trip m = Some d ∧ stored (world m) (get d "_id") = Some d ∧ in_state d s ∧ get d "order" = oid.

(** Messages about an order go to the order's topic, or to the one topic of all. *)
Definition order_topic (oid : pyval) : string :=
  topic_of cfg (match order_events_topic cfg with Some "" | None => py_str oid | Some topic => topic end).

Definition addressed (oid : pyval) (msg : string * pydict) : Prop :=
  order_event msg = None ∨
  (msg.1 = order_topic oid ∧ ∃ data, get msg.2 "data" = PDict data ∧ get data "order_id" = oid).

Lemma d_get_get (d : pydict) k v : d_get d k = Some v → get d k = v.
Proof. unfold get. by intros ->. Qed.

Lemma trip_field_ok m d k v : trip m = Some d → d_get d k = Some v → trip_field k m = (Ok v, m).
Proof. intros Ht Hk. unfold trip_field. rewrite (bind_ok _ _ _ (Some d) m) by (unfold look; by rewrite Ht). unfold lift, item. by rewrite Hk. Qed.

Lemma refresh_ok m d id d' :
  trip m = Some d → d_get d "_id" = Some id → stored (world m) id = Some d' →
  refresh serve m = (Ok tt, with_trip (Some d') m).
Proof.
  intros Ht Hid Hst. unfold refresh. rewrite (bind_ok _ _ _ (Some d) m) by (unfold look; by rewrite Ht).
  rewrite (bind_ok _ _ _ id m) by (unfold lift, item; by rewrite Hid).
  destruct (get_reads _ _ _ Hst) as (st & Hs & Hg).
  rewrite (bind_ok _ _ _ (Response st d') m).
  - cbn. by rewrite Hs.
  - unfold ask. rewrite Hg. by destruct m.
Qed.

(** Looking for a facility changes no trip. *)
Lemma lookup_quiet name m r m' :
  facility_resource_id_by_profile_name serve name m = (r, m') →
  trip m' = trip m ∧ outbox m' = outbox m ∧ ∀ id, stored (world m') id = stored (world m) id.
Proof.
  unfold facility_resource_id_by_profile_name. destruct (negb (truth name)); [by intros [= <- <-]|].
  destruct (serve _ _) as [r1 w1] eqn:E. intros [= <- <-]. split_and!; [done|done|]. exact (others_keep (FindFacility (py_str name)) _ _ _ eq_refl E).
Qed.

Lemma queue_quiet leg meta m r m' :
  queue_topic serve cfg leg meta m = (r, m') →
  trip m' = trip m ∧ outbox m' = outbox m ∧ ∀ id, stored (world m') id = stored (world m) id.
Proof.
  unfold queue_topic, facility_topic_for_profile_name.
  destruct (truth _); [by intros [= <- <-]|]. destruct (get_or meta _ _) as [| | | | | | |]; try by intros [= <- <-].
  unfold mbind, eff_bind. destruct (facility_resource_id_by_profile_name serve _ m) as [[fid|e] m1] eqn:E;
    intros [= <- <-]; by apply lookup_quiet in E.
Qed.

Lemma topic_quiet ev m r m' :
  mqtt_topic_for_workflow_event serve cfg ev m = (r, m') →
  trip m' = trip m ∧ outbox m' = outbox m ∧ ∀ id, stored (world m') id = stored (world m) id.
Proof.
  unfold mqtt_topic_for_workflow_event.
  unfold mbind, eff_bind, look. destruct (is_order_event ev); [by intros [= <- <-]|].
  unfold lift. destruct (dict_or_empty (get (trip_or_empty (trip m)) "meta")) as [meta|e]; [|by intros [= <- <-]].
  case_decide; [by apply queue_quiet|]. case_decide; [by apply queue_quiet|]. by intros [= <- <-].
Qed.

(** What the hook publishes: nothing, or the transition's message. *)
Lemma hook_publishes t ctx m d r m' :
  trip m = Some d → post_transition_hook serve cfg t ctx m = (r, m') →
  trip m' = trip m ∧ (∀ id, stored (world m') id = stored (world m) id) ∧
  (outbox m' = outbox m ∨
   ∃ ev c, emitted_event t = Some ev ∧ outbox m' = outbox m ++ [(c, workflow_message ev d ctx)]) ∧
  (∀ ev, emitted_event t = Some ev → is_order_event ev = true → truth (get d "order") = true → connected cfg = true →
     outbox m' = outbox m ++ [(order_topic (get d "order"), workflow_message ev d ctx)]).
Proof.
  intros Ht. unfold post_transition_hook. destruct (emitted_event t) as [ev|]; [|intros [= <- <-]; by split_and!; [..|left|]].
  unfold mbind, eff_bind, look. rewrite Ht.
  destruct (mqtt_topic_for_workflow_event serve cfg ev m) as [[c|e] m1] eqn:E.
  - destruct (topic_quiet _ _ _ _ E) as (Ht1 & Ho1 & Hw1).
    assert (∀ ev', Some ev = Some ev' → is_order_event ev' = true → truth (get d "order") = true →
      c = Some (order_topic (get d "order"))) as Hc.
    { intros ev' [= <-] Hoe Hoid. revert E. unfold mqtt_topic_for_workflow_event. unfold mbind, eff_bind, look.
      rewrite Hoe, Ht. change (trip_or_empty (Some d)) with d. cbv zeta. rewrite Hoid. by intros [= <- <-]. }
    destruct c as [c|]; [destruct (connected cfg) eqn:Hcon|]; intros [= <- <-]; cbn.
    + rewrite Ho1. split_and!; [congruence|done|right; eauto|]. intros ev' Hev Hoe Hoid _. specialize (Hc _ Hev Hoe Hoid). injection Hc as ->. by injection Hev as ->.
    + rewrite Ho1. split_and!; [congruence|done|by left|done].
    + split_and!; [congruence|done|by left|]. intros ev1 Hev Hoe Hoid _. by specialize (Hc _ Hev Hoe Hoid).
  - destruct (topic_quiet _ _ _ _ E) as (Ht1 & Ho1 & Hw1). intros [= <- <-]. split_and!; [congruence|done|by left|].
    intros ev' [= <-] Hoe. revert E. unfold mqtt_topic_for_workflow_event. unfold mbind, eff_bind, look. by rewrite Hoe.
Qed.

(** A payload that says nothing else of [k] than [v], and nothing of [banned]. *)
Definition names (k : string) (v : pyval) (banned : string) (d : pydict) : Prop :=
  Forall (λ kv, kv.1 ≠ banned ∧ (kv.1 = k → kv.2 = v)) d.

Lemma names_get k v banned d : names k v banned d → get_or d k v = v ∧ d_get d banned = None.
Proof.
  unfold get_or. induction 1 as [|[k' v'] d [Hb Hk] _ [IH1 IH2]]; [done|]. cbn in *.
  split; case_decide; subst; [by apply Hk|done|done|done].
Qed.

Lemma names_update k v banned e : names k v banned e → ∀ d,
  d_get (dict_update d e) banned = d_get d banned ∧ (get d k = v → get (dict_update d e) k = v).
Proof.
  unfold get. induction 1 as [|[k' v'] e [Hb Hk] _ IH]; intros d; [done|]. cbn in *.
  destruct (IH (d_set d k' v')) as [IH1 IH2]. unfold dict_update in *. rewrite IH1, d_get_set_ne by done. split; [done|].
  intros Hd. apply IH2. rewrite d_get_set. case_decide; [subst; by apply Hk|done].
Qed.

Lemma message_facts ev d ctx c :
  names "order_id" (get d "order") "event" ctx →
  order_event (c, workflow_message ev d ctx) = (if is_order_event ev then Some ev else None) ∧
  (c = order_topic (get d "order") ∨ is_order_event ev = false → addressed (get d "order") (c, workflow_message ev d ctx)).
Proof.
  intros Hc. destruct (names_update _ _ _ _ Hc (message_data ev d)) as [He Ho].
  assert (order_event (c, workflow_message ev d ctx) = if is_order_event ev then Some ev else None) as Hev.
  { unfold order_event, workflow_message. cbn [snd].
    set (D := dict_update _ _) in *. set (a := if is_order_event ev then _ else _).
    change (get [("action", PStr a); ("truck_id", get d "truck"); ("data", PDict D)] "action") with (PStr a).
    change (get [("action", PStr a); ("truck_id", get d "truck"); ("data", PDict D)] "data") with (PDict D).
    unfold a, get, message_data in *. rewrite He. by destruct (is_order_event ev). }
  split; [done|]. intros Hor. unfold addressed. rewrite Hev. destruct (is_order_event ev) eqn:E; [|by left].
  destruct Hor as [->|]; [|done]. right. split; [done|]. eexists. split; [reflexivity|]. apply Ho. unfold message_data. by rewrite E.
Qed.

Definition emitted_order_event (t : Haul.event) : list string :=
  match emitted_event t with Some ev => if is_order_event ev then [ev] else [] | None => [] end.

(** The step every operation ends with: the trip moves and its one message goes out,
    or nothing happens. *)
Definition moves (oid : pyval) (s : Haul.state) (m m' : trip_manager S) : Prop :=
  ∃ s' msgs, in_sync oid s' m' ∧ outbox m' = outbox m ++ msgs ∧ Forall (addressed oid) msgs ∧
    ((s' = s ∧ msgs = []) ∨ ∃ t, fire Haul.table s t = Ok s' ∧ order_events msgs = emitted_order_event t).

Lemma moves_nothing oid s m m' :
  in_sync oid s m → trip m' = trip m → outbox m' = outbox m → (∀ id, stored (world m') id = stored (world m) id) →
  moves oid s m m'.
Proof.
  intros (d & Ht & Hst & Hs & Ho) Htr Hob Hw. exists s, []. rewrite app_nil_r.
  split_and!; [|done|done|by left]. exists d. by rewrite Htr, Hw.
Qed.

(** A transition is refused, or the trip moves on the server, is read back, and the
    hook runs. *)
Lemma transition_cases d s t data ctx m r m' :
  trip m = Some d → stored (world m) (get d "_id") = Some d → in_state d s → d_get data "_id" = None →
  apply_trip_transition_and_notify serve cfg t data ctx m = (r, m') →
  (trip m' = Some d ∧ outbox m' = outbox m ∧ ∀ id, stored (world m') id = stored (world m) id) ∨
  ∃ s' d' w r2, fire Haul.table s t = Ok s' ∧ stored w (get d "_id") = Some d' ∧ in_state d' s' ∧
    get d' "_id" = get d "_id" ∧ (∀ k, k ∈ KEPT → get d' k = get_or data k (get d k)) ∧
    (∀ id', id' = get d "_id" ∨ stored w id' = stored (world m) id') ∧
    post_transition_hook serve cfg t ctx (with_trip (Some d') (with_world w m)) = (r2, m').
Proof.
  intros Ht Hst Hs Hdata. destruct (stored_wf _ _ _ Hst) as [Hid [etag Het]].
  unfold apply_trip_transition_and_notify, patch_trip_transition. rewrite !bind_bind, (bind_ok _ _ _ _ _ (trip_field_ok _ _ _ _ Ht Hid)).
  rewrite !bind_bind, (bind_ok _ _ _ _ _ (trip_field_ok _ _ _ _ Ht Het)).
  unfold mbind at 1, eff_bind at 1, ask. destruct (serve _ (world m)) as [r1 w1] eqn:E.
  destruct (patch_moves _ _ _ _ _ _ _ _ _ Hst Hs E) as [(s' & d' & resp & Hf & -> & Hok & Hst' & Hs' & Hk & Hoth)|[Hno Hsame]].
  - cbv beta iota. rewrite Hok. rewrite (bind_ok _ _ _ _ _ (refresh_ok (with_world w1 m) _ _ _ Ht Hid Hst')).
    set (m1 := with_trip (Some d') (with_world w1 m)).
    assert (d_get d' "state" = Some (PStr (Haul.name s'))) as Hstate.
    { revert Hs'. unfold in_state, get. destruct (d_get d' "state"); cbn; [by intros ->|done]. }
    rewrite (bind_ok _ _ _ _ m1 (trip_field_ok m1 d' _ _ eq_refl Hstate)).
    unfold mbind, eff_bind. destruct (post_transition_hook serve cfg t ctx m1) as [r2 m2] eqn:Eh.
    intros Hr. assert (m' = m2) as -> by (destruct r2; by injection Hr). right. exists s', d', w1, r2.
    split_and!; try done. rewrite Hk by (unfold KEPT; set_solver). unfold get_or. by rewrite Hdata.
  - intros Hr. left. assert (m' = with_world w1 m) as ->; [|done].
    destruct r1 as [resp|e]; [|by injection Hr]. cbn in Hr. rewrite (Hno _ eq_refl) in Hr. by injection Hr.
Qed.

(** What a hook that finished has published, of the order. *)
Lemma hook_order_events t ctx m d oid r m' :
  connected cfg = true → truth oid = true → trip m = Some d → get d "order" = oid → names "order_id" oid "event" ctx →
  post_transition_hook serve cfg t ctx m = (r, m') →
  ∃ msgs, outbox m' = outbox m ++ msgs ∧ Forall (addressed oid) msgs ∧ order_events msgs = emitted_order_event t.
Proof.
  intros Hcon Htr Ht <- Hctx Eh. destruct (hook_publishes _ _ _ _ _ _ Ht Eh) as (_ & _ & Hsome & Hmust).
  unfold emitted_order_event. destruct (emitted_event t) as [ev|]; [destruct (is_order_event ev) eqn:Eoe|].
  - destruct (message_facts ev d ctx (order_topic (get d "order")) Hctx) as [Hev Had]. rewrite Eoe in Hev, Had.
    eexists. split; [exact (Hmust ev eq_refl Eoe Htr Hcon)|]. split; [constructor; [apply Had; by left|done]|].
    unfold order_events. cbn. by rewrite Hev.
  - destruct Hsome as [Hnone|(ev' & c & [= <-] & Hsome)]; [exists []; by rewrite app_nil_r|].
    destruct (message_facts ev d ctx c Hctx) as [Hev Had]. rewrite Eoe in Hev, Had.
    eexists. split; [exact Hsome|]. split; [constructor; [apply Had; by right|done]|].
    unfold order_events. cbn. by rewrite Hev.
  - destruct Hsome as [Hnone|(ev' & c & [=] & _)]. exists []. by rewrite app_nil_r.
Qed.

Lemma transition_moves oid s t data ctx m r m' :
  connected cfg = true → truth oid = true → in_sync oid s m →
  names "order" oid "_id" data → names "order_id" oid "event" ctx →
  apply_trip_transition_and_notify serve cfg t data ctx m = (r, m') → moves oid s m m'.
Proof.
  intros Hcon Htr Hsync Hdata Hctx Ha. pose proof Hsync as (d & Ht & Hst & Hs & Ho).
  destruct (names_get _ _ _ _ Hdata) as [Hord Hnoid].
  destruct (transition_cases _ _ _ _ _ _ _ _ Ht Hst Hs Hnoid Ha)
    as [(Ht' & Hob & Hw)|(s' & d' & w & r2 & Hf & Hst' & Hs' & Hid' & Hk & _ & Eh)].
  { apply moves_nothing; [done|congruence|done|done]. }
  assert (get d' "order" = oid) as Ho' by (rewrite Hk by (unfold KEPT; set_solver); by rewrite Ho).
  destruct (hook_publishes t ctx (with_trip (Some d') (with_world w m)) d' _ _ eq_refl Eh) as (Htr2 & Hw2 & _ & _).
  destruct (hook_order_events t ctx (with_trip (Some d') (with_world w m)) d' _ _ _ Hcon Htr eq_refl Ho' Hctx Eh) as (msgs & Hob & Had & Hev).
  exists s', msgs. split_and!; [|done|done|by right; exists t]. exists d'. by rewrite Htr2, Hw2, Hid'.
Qed.

(** ** Runs

    What the app asks of its trip manager, one call after the other; what a call
    raises, the agent's step reports, and the run goes on. *)

Inductive call : Set :=
| CAssign (sim_clock current_loc : pyval) (order truck : option pydict) (assignment_metadata : pyval)
| CCancel (sim_clock current_loc : pyval)
| CReposition (sim_clock current_loc route estimated_time_to_pickup : pyval)
| CArrivePickup (sim_clock current_loc queue_arrival_time : pyval)
| CEnterPickup (sim_clock current_loc gate_index service_time : pyval)
| CFinishPickup (sim_clock current_loc route_to_dropoff estimated_time_to_dropoff service_time : pyval)
| CArriveDropoff (sim_clock current_loc queue_arrival_time : pyval)
| CEnterDropoff (sim_clock current_loc gate_index service_time : pyval)
| CFinishDropoff (sim_clock current_loc service_time : pyval)
| CRefresh.

Definition perform (c : call) : eff (trip_manager S) unit :=
  let done (a : eff (trip_manager S) response) := (_ ← a; mret tt) in
  match c with
  | CAssign t l o tr a => done (assign serve cfg t l o tr a)
  | CCancel t l => done (cancel serve cfg t l)
  | CReposition t l r e => done (start_empty_reposition serve cfg t l r e)
  | CArrivePickup t l q => done (arrive_pickup_queue serve cfg t l q)
  | CEnterPickup t l g s => done (enter_pickup_gate serve cfg t l g s)
  | CFinishPickup t l r e s => done (finish_pickup_service serve cfg t l r e s)
  | CArriveDropoff t l q => done (arrive_dropoff_queue serve cfg t l q)
  | CEnterDropoff t l g s => done (enter_dropoff_gate serve cfg t l g s)
  | CFinishDropoff t l s => done (finish_dropoff_service serve cfg t l s)
  | CRefresh => refresh serve
  end.

Definition perform_all (cs : list call) (m : trip_manager S) : trip_manager S := foldl (λ m c, (perform c m).2) m cs.

(** An assignment is for the trip's own order. *)
Definition for_order (oid : pyval) (c : call) : Prop :=
  match c with CAssign _ _ order _ _ => order_id order = oid | _ => True end.

Lemma done_moves oid s m (a : eff (trip_manager S) response) :
  (∀ r m', a m = (r, m') → moves oid s m m') → moves oid s m ((_ ← a; mret tt) m : result () * _).2.
Proof. intros Ha. unfold mbind, eff_bind. destruct (a m) as [[x|e] m1] eqn:E; by eapply Ha. Qed.

Lemma lift_moves {A} oid s m (v : result A) (f : A → eff (trip_manager S) response) :
  in_sync oid s m → (∀ x r m', f x m = (r, m') → moves oid s m m') → ∀ r m', (x ← lift v; f x) m = (r, m') → moves oid s m m'.
Proof.
  intros Hs Hf r m'. unfold mbind, eff_bind, lift. destruct v as [x|e]; [apply Hf|].
  intros [= <- <-]. by apply moves_nothing.
Qed.

Lemma look_moves {A} oid s m (g : trip_manager S → A) (f : A → eff (trip_manager S) response) :
  (∀ x r m', f x m = (r, m') → moves oid s m m') → ∀ r m', (x ← look g; f x) m = (r, m') → moves oid s m m'.
Proof. intros Hf r m'. apply Hf. Qed.

(** Every operation is one transition, or nothing. *)
Lemma perform_moves oid s c m :
  connected cfg = true → truth oid = true → for_order oid c → in_sync oid s m → moves oid s m (perform c m).2.
Proof.
  intros Hcon Htr Hc Hs.
  assert (∀ t data ctx r m', names "order" oid "_id" data → names "order_id" oid "event" ctx →
    apply_trip_transition_and_notify serve cfg t data ctx m = (r, m') → moves oid s m m') as Ht
  by (intros; by eapply transition_moves).
  assert (∀ k v banned (kv : string * pyval) l, kv.1 ≠ banned → (kv.1 = k → kv.2 = v) → names k v banned l →
    names k v banned (kv :: l)) as Hcons by (intros; by constructor).
  assert (∀ k v banned, names k v banned []) as Hnil by constructor.
  destruct c; try apply done_moves;
    unfold assign, cancel, start_empty_reposition, arrive_pickup_queue, enter_pickup_gate, finish_pickup_service,
      arrive_dropoff_queue, enter_dropoff_gate, finish_dropoff_service;
    repeat first [apply lift_moves; [done|intros ?] | apply look_moves; intros ? | match goal with x : (_ * _)%type |- _ => destruct x end];
    try (intros r m'; apply Ht; repeat (apply Hcons; [done|done|]); done).
  destruct Hs as (d & Ht' & Hst & Hst' & Ho). destruct (stored_wf _ _ _ Hst) as [Hid _].
  cbn. rewrite (refresh_ok _ _ _ _ Ht' Hid Hst). apply moves_nothing; [by exists d|done..].
Qed.

Lemma facility_of_quiet leg order m r m' :
  facility_of serve leg order m = (r, m') →
  trip m' = trip m ∧ outbox m' = outbox m ∧ ∀ id, stored (world m') id = stored (world m) id.
Proof.
  unfold facility_of. destruct (truth _); [by intros [= <- <-]|]. unfold mbind, eff_bind, lift.
  destruct (sub _ _) as [name|e]; [|by intros [= <- <-]].
  destruct (facility_resource_id_by_profile_name serve name m) as [[fid|e] m1] eqn:E; intros [= <- <-]; by apply lookup_quiet in E.
Qed.

(** Creating a trip stores one and keeps its copy, or stores nothing. *)
Lemma create_cases sim_clock loc truck order m r m' :
  create_new_trip serve cfg sim_clock loc truck order m = (r, m') →
  outbox m' = outbox m ∧
  (((∀ d, r ≠ Ok d) ∧ trip m' = trip m ∧ ∀ id, stored (world m') id = stored (world m) id) ∨
   ∃ id d, r = Ok d ∧ stored (world m) id = None ∧ stored (world m') id = Some d ∧ trip m' = Some d ∧ get d "_id" = id ∧
     in_state d Haul.initial ∧ get d "truck" = get truck "_id" ∧ get d "order" = get order "_id" ∧
     ∀ id', id' = id ∨ stored (world m') id' = stored (world m) id').
Proof.
  intros Hc. unfold create_new_trip in Hc. unfold mbind at 1, eff_bind at 1, lift at 1 in Hc.
  destruct (dict_or_empty (get truck "profile")) as [prof|e]; [|injection Hc as <- <-; split; [done|by left]].
  unfold mbind at 1, eff_bind at 1, lift at 1 in Hc.
  destruct (apply_haul_trip_duration_floors _ _ _ _) as [etas|e]; [|injection Hc as <- <-; split; [done|by left]].
  unfold mbind at 1, eff_bind at 1 in Hc. destruct (facility_of serve "pickup" order m) as [[pickup|e] m1] eqn:E1;
    apply facility_of_quiet in E1 as (Ht1 & Ho1 & Hw1); [|injection Hc as <- <-; split; [done|by left]].
  unfold mbind at 1, eff_bind at 1 in Hc. destruct (facility_of serve "dropoff" order m1) as [[dropoff|e] m2] eqn:E2;
    apply facility_of_quiet in E2 as (Ht2 & Ho2 & Hw2); rewrite Ho1 in Ho2; rewrite Ht1 in Ht2;
    (assert (∀ id, stored (world m2) id = stored (world m) id) as Hw by (intros id; by rewrite Hw2));
    [|injection Hc as <- <-; split; [done|by left]].
  unfold mbind at 1, eff_bind at 1, ask in Hc. destruct (serve _ (world m2)) as [r1 w] eqn:E.
  assert ((∀ resp, r1 = Ok resp → is_success (status resp) = false) → (∀ d, r ≠ Ok d) ∧ m' = with_world w m2) as Hbad.
  { intros Hno. destruct r1 as [resp|e]; [cbv beta iota in Hc; rewrite (Hno _ eq_refl) in Hc|]; by injection Hc as <- <-. }
  assert ((∀ resp, r1 = Ok resp → is_success (status resp) = false) ∨ ∃ resp, r1 = Ok resp ∧ is_success (status resp) = true)
    as [Hno|(resp & -> & Eok)].
  { destruct r1 as [resp|e]; [|by left]. destruct (is_success (status resp)) eqn:Es; [right; eauto|left; by intros ? [= <-]]. }
  { destruct (Hbad Hno) as [Hr ->]. split; [done|left]. split_and!; [done|done|].
    intros id. cbn. by rewrite (post_refuses _ _ _ _ E Hno), Hw. }
  clear Hbad. cbv beta iota in Hc. rewrite Eok in Hc.
  destruct (post_stores _ _ _ _ E Eok) as (id & doc & Hid & Hfresh & Hst & Hk & Hoth).
  rewrite (bind_ok _ _ _ id (with_world w m2)) in Hc by (unfold lift, item; by rewrite Hid).
  rewrite (bind_ok _ _ _ tt (with_trip (Some [("_id", id)]) (with_world w m2))) in Hc by done.
  rewrite (bind_ok _ _ _ _ _ (refresh_ok (with_trip (Some [("_id", id)]) (with_world w m2)) [("_id", id)] id doc eq_refl eq_refl Hst)) in Hc.
  injection Hc as <- <-. split; [done|right]. destruct (stored_wf _ _ _ Hst) as [Hdid _].
  exists id, doc. rewrite (d_get_get _ _ _ Hdid). unfold in_state. rewrite !Hk by (unfold KEPT; (set_solver || done)).
  split_and!; try done; [by rewrite <-Hw|]. intros id'. cbn. rewrite <-Hw. apply Hoth.
Qed.

(** A created trip is in sync, in the initial state, for its order. *)
Lemma create_in_sync sim_clock loc truck order m d m' :
  create_new_trip serve cfg sim_clock loc truck order m = (Ok d, m') →
  in_sync (get order "_id") Haul.initial m' ∧ outbox m' = outbox m.
Proof.
  intros Hc. destruct (create_cases _ _ _ _ _ _ _ Hc) as [Ho [(Hno & _)|(id & d' & _ & _ & Hst & Ht & Hid & Hs & _ & Hor & _)]];
    [by destruct (Hno d)|].
  split; [|done]. exists d'. by rewrite Hid.
Qed.

Lemma perform_all_moves oid cs : ∀ s m,
  connected cfg = true → truth oid = true → Forall (for_order oid) cs → in_sync oid s m →
  ∃ s' msgs, in_sync oid s' (perform_all cs m) ∧ outbox (perform_all cs m) = outbox m ++ msgs ∧
    Forall (addressed oid) msgs ∧ star (steps_to Haul.table) s s' ∧
    foldl follow_event (mirrored s) (order_events msgs) = mirrored s'.
Proof.
  induction cs as [|c cs IH]; intros s m Hcon Htr Hcs Hs.
  { exists s, []. rewrite app_nil_r. split_and!; [done|done|done|apply star_refl|done]. }
  apply Forall_cons in Hcs as [Hc Hcs].
  destruct (perform_moves _ _ _ _ Hcon Htr Hc Hs) as (s1 & msgs1 & Hs1 & Ho1 & Ha1 & Hstep).
  destruct (IH s1 _ Hcon Htr Hcs Hs1) as (s2 & msgs2 & Hs2 & Ho2 & Ha2 & Hst & Hf).
  exists s2, (msgs1 ++ msgs2). cbn [perform_all foldl] in *. unfold perform_all in *.
  split_and!; [done|by rewrite Ho2, Ho1, app_assoc|by apply Forall_app|..].
  - destruct Hstep as [[-> _]|(t & Ht & _)]; [done|]. eapply star_step; [by exists t|done].
  - unfold order_events in *. rewrite omap_app, foldl_app. destruct Hstep as [[-> ->]|(t & Ht & He)]; [done|].
    rewrite He, <-Hf. f_equal. destruct (mirrored_step _ _ _ Ht) as [<- _].
    unfold emitted_order_event. destruct (emitted_event t) as [ev|] eqn:Eev.
    + destruct (is_order_event ev) eqn:Eoe; cbn.
      * by apply follow_event_emitted.
      * symmetry. apply unfollowed. intros e. rewrite Eev. by intros [= <-].
    + symmetry. apply unfollowed. intros e. by rewrite Eev.
Qed.

End Facts.

(** ** The estimate *)

Section EstimateFacts.
Context `{PyText, SimTime}.

(** A truck with a haul always has a next event, never before now: now itself, or
    the end of a timed phase (reckoned in microseconds from the last stamp of the
    trip) within [datetime]'s range.  Nothing a trip document holds makes the
    estimate raise. *)
Theorem estimate_never_past d now step_interval steps_per_action :
  ∃ t, agent_estimate (Some d) now step_interval steps_per_action = Ok t ∧ now ≤ t ∧
    (t = now ∨
     ∃ planned dur td, phase_seconds (get d "state") (py_or (get d "stats") (PDict [])) planned = Some (Ok dur) ∧
       timedelta_us dur = Ok td ∧ t = anchor_time d now + td ∧ t ≤ MAX_TIME).
Proof.
  assert (∀ P : Z → Prop, ∃ t, Ok now = Ok t ∧ now ≤ t ∧ (t = now ∨ P t)) as Hnow by (intros P; exists now; auto with lia).
  unfold agent_estimate, estimate_next_event_time, mbind, result_bind.
  destruct (sub _ _) as [planned|e]; [|apply Hnow].
  destruct (phase_seconds _ _ _) as [[dur|e]|] eqn:Ep; unfold catch; [|apply Hnow..].
  destruct (timedelta_us dur) as [td|e] eqn:Etd; [|apply Hnow].
  unfold add_us. destruct (_ && _) eqn:Er; [|apply Hnow].
  eexists. split; [reflexivity|]. split; [lia|]. apply andb_true_iff in Er as [_ Hr%Z.leb_le].
  destruct (Z.max_spec (anchor_time d now + td) now) as [[_ ->]|[_ ->]]; [by left|right]. eauto 10.
Qed.
End EstimateFacts.

(** ** A server

    A server that keeps the promises: entries carry an etag that every write renews,
    a write answers no more than the fields the server handles, and a facility is
    found by its name. *)

Module RestServer.
Record entry : Set := Entry { etag : Z; data : pydict }.

Record rest : Set := Rest {
  serial : Z;
  trips : list (string * entry);
  idles : list (string * entry);
  trucks : list (string * entry);
  facilities : list (string * string);
}.

Definition render (id : string) (e : entry) : pydict := ("_id", PStr id) :: ("_etag", PInt (etag e)) :: data e.
Definition meta_only (id : string) (e : entry) : pydict := [("_id", PStr id); ("_etag", PInt (etag e)); ("_status", PStr "OK")].

Definition find_entry (l : list (string * entry)) (id : pyval) : option (string * entry) :=
  match id with PStr i => e ← d_get l i; Some (i, e) | _ => None end.

(** A dotted key names a field of one of these. *)
Definition NESTED : list string := ["stats"; "routes"].

Fixpoint split_dot (s : string) : list string :=
  match s with
  | EmptyString => [""]
  | String c s' =>
      if decide (c = "."%char) then "" :: split_dot s'
      else match split_dot s' with x :: l => String c x :: l | [] => [String c ""] end
  end.

Fixpoint set_path (path : list string) (v : pyval) (d : pydict) : pydict :=
  match path with
  | [] => d
  | [k] => d_set d k v
  | k :: path => d_set d k (PDict (set_path path v (match get d k with PDict x => x | _ => [] end)))
  end.

Definition put (kv : string * pyval) (d : pydict) : pydict :=
  match split_dot kv.1 with
  | k :: path => if decide (k ∈ NESTED) then set_path (k :: path) kv.2 d else d_set d kv.1 kv.2
  | [] => d
  end.

Definition HANDLED : list string := ["_id"; "_etag"; "state"].
Definition handled (d : pydict) : bool := existsb (λ kv, bool_decide (kv.1 ∈ HANDLED)) d.

Definition haul_events : list Haul.event :=
  [Haul.assign; Haul.start_empty_reposition; Haul.arrive_pickup_queue; Haul.enter_pickup_gate; Haul.finish_pickup_service;
   Haul.arrive_dropoff_queue; Haul.enter_dropoff_gate; Haul.finish_dropoff_service; Haul.cancel].
Definition haul_states : list Haul.state :=
  [Haul.created; Haul.assigned; Haul.repositioning_to_pickup; Haul.queued_for_pickup; Haul.at_pickup_gate;
   Haul.loaded_in_transit; Haul.queued_for_dropoff; Haul.at_dropoff_gate; Haul.completed; Haul.cancelled].

Definition target (transition : string) (state : pyval) : option Haul.state :=
  t ← head (filter (λ t, Haul.event_name t = transition) haul_events);
  s ← head (filter (λ s, py_eq state (PStr (Haul.name s)) = true) haul_states);
  match fire Haul.table s t with Ok s' => Some s' | Raise _ => None end.

Definition answer (w : rest) (st : Z) (b : pydict) : result response * rest := (Ok (Response st b), w).

Definition serve (q : request) (w : rest) : result response * rest :=
  let fresh role := (role +:+ "-" +:+ pretty (serial w))%string in
  let next := serial w + 1 in
  match q with
  | GetTrip id => match find_entry (trips w) id with Some (i, e) => answer w 200 (render i e) | None => answer w 404 [] end
  | GetTruck id => match find_entry (trucks w) id with Some (i, e) => answer w 200 (render i e) | None => answer w 404 [] end
  | PostTrip d =>
      let i := fresh "haul" in
      match d_get (trips w) i with
      | Some _ => answer w 503 []
      | None =>
          let e := Entry (serial w) d in
          answer (Rest next (d_set (trips w) i e) (idles w) (trucks w) (facilities w)) 201 (meta_only i e)
      end
  | PatchTrip id t et d =>
      match find_entry (trips w) id with
      | None => answer w 404 []
      | Some (i, e) =>
          match target t (get (data e) "state") with
          | Some s' =>
              if py_eq et (PInt (etag e)) && negb (handled d) then
                let e' := Entry (serial w) (d_set (foldr put (data e) d) "state" (PStr (Haul.name s'))) in
                answer (Rest next (d_set (trips w) i e') (idles w) (trucks w) (facilities w)) 200 (meta_only i e')
              else answer w 412 []
          | None => answer w 409 []
          end
      end
  | PostIdle d =>
      let i := fresh "idle" in
      let e := Entry (serial w) d in
      answer (Rest next (trips w) (d_set (idles w) i e) (trucks w) (facilities w)) 201 (meta_only i e)
  | PatchIdle id et d =>
      match find_entry (idles w) id with
      | Some (i, e) =>
          if py_eq et (PInt (etag e)) then
            let e' := Entry (serial w) (foldr put (data e) d) in
            answer (Rest next (trips w) (d_set (idles w) i e') (trucks w) (facilities w)) 200 (meta_only i e')
          else answer w 412 []
      | None => answer w 404 []
      end
  | PatchTruck id et d =>
      match find_entry (trucks w) id with
      | Some (i, e) =>
          if py_eq et (PInt (etag e)) then
            let e' := Entry (serial w) (foldr put (data e) d) in
            answer (Rest next (trips w) (idles w) (d_set (trucks w) i e') (facilities w)) 200 (meta_only i e')
          else answer w 412 []
      | None => answer w 404 []
      end
  | GetIdle id => match find_entry (idles w) id with Some (i, e) => answer w 200 (render i e) | None => answer w 404 [] end
  | GetRoute _ _ =>
      answer w 200 [("routes", PList [PDict [("geometry", PStr "line"); ("distance", PInt 9000); ("duration", PInt 1200)]])]
  | FindFacility name =>
      answer w 200 [("_items", PList (match d_get (facilities w) name with Some i => [PDict [("_id", PStr i)]] | None => [] end))]
  end.

Definition read (w : rest) (id : pyval) : option pydict := '(i, e) ← find_entry (trips w) id; Some (render i e).

Lemma split_dot_cons s : ∃ k path, split_dot s = k :: path.
Proof. induction s as [|c s (k & path & IH)]; cbn; [eauto|]. rewrite IH. case_decide; eauto. Qed.

Lemma set_path_other path v d k : head path ≠ Some k → d_get (set_path path v d) k = d_get d k.
Proof. destruct path as [|x [|y path]]; cbn; [done|..]; intros Hk; apply d_get_set_ne; congruence. Qed.

Lemma put_get kv d k : split_dot k = [k] → k ∉ NESTED → d_get (put kv d) k = if decide (k = kv.1) then Some kv.2 else d_get d k.
Proof.
  intros Hs Hk. unfold put. destruct (split_dot_cons kv.1) as (x & path & E). rewrite E. case_decide as Hx.
  - rewrite set_path_other by (cbn; congruence). case_decide as Heq; [|done]. subst k. rewrite E in Hs. congruence.
  - rewrite d_get_set. by repeat case_decide.
Qed.

Lemma puts_get l d k : split_dot k = [k] → k ∉ NESTED → get (foldr put d l) k = get_or l k (get d k).
Proof.
  intros Hs Hk. unfold get, get_or. induction l as [|[k' v] l IH]; [done|]. cbn [foldr d_get]. rewrite put_get by done.
  cbn. by case_decide.
Qed.

Lemma handled_get d k : handled d = false → k ∈ HANDLED → d_get d k = None.
Proof.
  intros Hh Hk. destruct (d_get d k) as [v|] eqn:E; [|done]. apply d_get_Some_elem in E.
  assert (handled d = true) as Ht; [|congruence].
  unfold handled. rewrite existsb_exists. exists (k, v). rewrite <-list_elem_of_In. split; [done|]. by apply bool_decide_eq_true.
Qed.

Lemma kept_plain k : k ∈ KEPT → split_dot k = [k] ∧ k ∉ NESTED ∧ k ≠ "_etag" ∧ k ≠ "state".
Proof. unfold KEPT, NESTED. rewrite !elem_of_cons, !elem_of_nil. naive_solver. Qed.

Lemma target_fires t s s' : target (Haul.event_name t) (PStr (Haul.name s)) = Some s' → fire Haul.table s t = Ok s'.
Proof. destruct t, s; vm_compute; by intros [= <-]. Qed.

Lemma find_entry_read w id d : read w id = Some d → ∃ i e, id = PStr i ∧ d_get (trips w) i = Some e ∧ d = render i e.
Proof. unfold read, find_entry. destruct id; try done. cbn. destruct (d_get _ _) as [e|] eqn:E; [|done]. intros [= <-]. eauto. Qed.

Lemma read_set_same w i e w' : trips w' = d_set (trips w) i e → read w' (PStr i) = Some (render i e).
Proof. intros Hw. unfold read, find_entry. cbn. by rewrite Hw, d_get_set_eq. Qed.

Lemma read_set_other w i e w' id : trips w' = d_set (trips w) i e → id = PStr i ∨ read w' id = read w id.
Proof.
  intros Hw. unfold read, find_entry. destruct id as [| | | |j| | |]; try by right. destruct (decide (j = i)) as [->|Hj]; [by left|].
  right. cbn. by rewrite Hw, d_get_set_ne.
Qed.

#[export] Instance rest_haul_server : HaulServer serve.
Proof.
  refine {| stored := read |}.
  - intros w id d (i & e & -> & _ & ->)%find_entry_read. split; [done|by eexists].
  - intros w id d (i & e & -> & Hg & ->)%find_entry_read. exists 200. split; [done|]. cbn. by rewrite Hg.
  - intros w id t et l d s r w' (i & e & -> & Hg & ->)%find_entry_read Hs. cbn. rewrite Hg. cbn.
    change (get (data e) "state" = PStr (Haul.name s)) in Hs. rewrite Hs.
    destruct (target _ _) as [s'|] eqn:Et; [|intros [= <- <-]; right; by split; [intros ? [= <-]|]].
    destruct (_ && _) eqn:Ec; [|intros [= <- <-]; right; by split; [intros ? [= <-]|]].
    intros [= <- <-]. left. apply andb_true_iff in Ec as [_ Hh%negb_true_iff].
    eexists s', _, _. split; [by apply target_fires|]. split; [reflexivity|]. split; [done|].
    split; [by eapply (read_set_same w)|].
    split_and!.
    + unfold in_state, get, render. cbn. by rewrite d_get_set_eq.
    + intros k Hk. destruct (kept_plain k Hk) as (H1 & H2 & H3 & H4). unfold render.
      destruct (decide (k = "_id")) as [->|Hid].
      { unfold get_or. by rewrite (handled_get _ _ Hh) by (unfold HANDLED; set_solver). }
      unfold get. cbn. rewrite !decide_False by done. rewrite d_get_set_ne by done. by apply puts_get.
    + intros id'. by eapply (read_set_other w).
  - intros l w resp w'. cbn [serve]. set (i := ("haul" +:+ "-" +:+ pretty (serial w))%string). destruct (d_get (trips w) i) as [e|] eqn:Ei; [by intros [= <- _]|].
    intros [= <- <-] _. eexists (PStr i), _. split; [done|].
    split; [unfold read; cbn; by rewrite Ei|]. split; [by eapply (read_set_same w)|]. split.
    + intros k Hk Hid. unfold render, get. cbn. rewrite (decide_False (P := k = "_id")) by done.
      rewrite decide_False; [done|]. intros ->. revert Hk. unfold KEPT. rewrite !elem_of_cons, elem_of_nil. naive_solver.
    + intros id'. by eapply (read_set_other w).
  - intros l w r w'. cbn [serve]. destruct (d_get (trips w) _) as [e|]; [by intros [= <- <-]|].
    intros [= <- <-] Hno. by specialize (Hno _ eq_refl).
  - intros q w r w' Hq. destruct q; try discriminate Hq; cbn; repeat case_match; by intros [= _ <-].
Defined.
End RestServer.

Module HaulExamples.
Import RestServer.

#[local] Instance text : PyText := no_text.

#[local] Instance times : SimTime.
Proof.
  refine {| str_to_time := λ t, if decide (t = "07:00") then Some 25200 else if decide (t = "08:00") then Some 28800 else None;
            MIN_TIME := 0 |}.
  intros t z. repeat case_decide; by intros [= <-].
Defined.

Definition cfg : trip_config :=
  TripConfig "run" "container-logistics-sim" (PDict [("role", PStr "truck")]) None true.

Definition depot : pyval := PStr "depot".
Definition port : pyval := PStr "port".

Definition order : pydict :=
  [("_id", PStr "order-1"); ("pickup_loc", port); ("dropoff_loc", PStr "yard"); ("dropoff_facility_resource_id", PStr "f2");
   ("profile", PDict [("pickup_facility_name", PStr "port")])].

Definition truck : pydict :=
  [("_id", PStr "truck-1"); ("profile", PDict
    [("planned_reposition_route", PDict [("geometry", PStr "g1"); ("legs", PList [])]);
     ("planned_dropoff_route", PDict [("geometry", PStr "g2"); ("duration", PInt 1000)])])].

Definition empty_server : rest := Rest 0 [] [] [] [("port", "f1")].
Definition start : trip_manager rest := TripManager None empty_server [].

Definition haul : list call :=
  [CAssign (PStr "07:00") depot (Some order) (Some truck) PNone;
   CEnterPickup (PStr "07:00") depot (PInt 0) (PInt 60);   (* refused: not queued yet *)
   CReposition (PStr "07:00") depot PNone (PInt 900);
   CArrivePickup (PStr "08:00") port PNone;
   CEnterPickup (PStr "08:00") port (PInt 1) (PInt 60);
   CFinishPickup (PStr "08:00") port PNone (PInt 0) (PInt 60);
   CArriveDropoff (PStr "08:00") port PNone;
   CEnterDropoff (PStr "08:00") port (PInt 1) (PInt 60);
   CFinishDropoff (PStr "08:00") port (PInt 60);
   CCancel (PStr "08:00") port].                           (* refused: completed *)

Definition created := create_new_trip serve cfg (PStr "07:00") depot truck order start.

(** The whole haul: every message, in order, with its topic; the loaded route
    planned at assignment is still there when the trip ends. *)
Example whole_haul :
  let m := perform_all serve cfg haul created.2 in
  map (λ msg, (msg.1, match get msg.2 "data" with PDict d => get d "event" | _ => PNone end)) (outbox m) =
    [("run/order-1", PStr "order_assigned_to_truck"); ("run/f1", PStr "truck_arrived_pickup_queue");
     ("run/order-1", PStr "order_pickup_started"); ("run/order-1", PStr "order_pickup_completed");
     ("run/f2", PStr "truck_arrived_dropoff_queue"); ("run/order-1", PStr "order_dropoff_started");
     ("run/order-1", PStr "order_delivered")] ∧
  (d ← trip m; Some (get d "state")) = Some (PStr "completed") ∧
  (d ← trip m; Some (catch (planned ← sub (get d "routes") "planned"; leg ← sub planned "loaded_to_dropoff"; sub leg "geometry") PNone)) =
    Some (PStr "g2").
Proof. vm_compute. repeat split. Qed.


(** The clock: a truck repositioning since 07:00 for 900 seconds is next due at 07:15. *)
Example due_when_there :
  let m := perform_all serve cfg (take 3 haul) created.2 in
  agent_estimate (trip m) (25200 * US) (PInt 30) (PInt 1) = Ok ((25200 + 900) * US) ∧
  agent_estimate (trip m) (30000 * US) (PInt 30) (PInt 1) = Ok (30000 * US) ∧
  agent_estimate None (25200 * US) (PInt 30) (PInt 10) = Ok ((25200 + 300) * US) ∧
  agent_estimate (Some [("routes", PInt 7)]) (30000 * US) (PInt 30) (PInt 1) = Ok (30000 * US) ∧
  timedelta_us (f_frac 3 2) = Ok 1500000.
Proof. vm_compute. repeat split. Qed.

(** [finish_pickup_service] takes the pickup's service time for the dropoff's: with 60
    seconds at the pickup and 600 at the dropoff, the haul is long enough, and yet
    the loaded leg is padded to 1080 seconds. *)
Definition serving : pydict :=
  [("_id", PStr "h"); ("_etag", PInt 0);
   ("stats", PDict [("estimated_time_to_pickup", PInt 900); ("pickup_service_time", PInt 60); ("dropoff_service_time", PInt 600)])].

Example pickup_service_taken_for_dropoff :
  let sent := λ q (w : list request), (Ok (Response 500 []), w ++ [q]) in
  world (finish_pickup_service sent cfg PNone PNone PNone (PInt 0) (PInt 60) (TripManager (Some serving) [] [])).2 =
    [PatchTrip (PStr "h") "finish_pickup_service" (PInt 0)
       [("sim_clock", PNone); ("stats.loaded_started_at", PNone); ("current_loc", PNone);
        ("routes.planned.loaded_to_dropoff", PNone); ("stats.estimated_time_to_dropoff", PFloat (f_of_Z 1080));
        ("stats.pickup_service_time", PInt 60)]] ∧
  apply_haul_trip_duration_floors (PInt 900) (PInt 0)
    (Some [("pickup_service_time", PInt 60); ("dropoff_service_time", PInt 600)]) None = Ok (f_of_Z 900, f_of_Z 960).
Proof. vm_compute. repeat split. Qed.

(** A read that fails after the transition: the trip has moved, its message is lost. *)
Definition unreadable (q : request) (w : rest) : result response * rest :=
  match q with GetTrip _ => answer w 500 [] | _ => serve q w end.

Example failed_read_loses_event :
  let m := (perform unreadable cfg (CAssign (PStr "07:00") depot (Some order) (Some truck) PNone) created.2).2 in
  (d ← read (world m) (PStr "haul-0"); Some (get d "state")) = Some (PStr "assigned") ∧ outbox m = [] ∧
  (perform unreadable cfg (CAssign (PStr "07:00") depot (Some order) (Some truck) PNone) created.2).1 = Raise WriteFailedException.
Proof. vm_compute. repeat split. Qed.
End HaulExamples.
