(* ===== verification/Truck.v ===== *)
(** The truck ([truck/app.py], [truck/manager.py], [truck/idle_trip_manager.py], its
    interaction mixins and [truck/agent.py]; the payload parsers of
    [message_data_models.py]): the app that receives assignments and gate events,
    plans the routes of a haul, moves along them and drives its [HaulTrip]. *)

From Stdlib Require Import SpecFloat.
From S2P Require Import Prelude PyValue StateMachines HaulDuration HaulTrip.
Open Scope Z_scope.

(** ** Payloads *)

(** [AssignedHaulTripPayload] *)
Record assigned_haul : Set := AssignedHaul {
  a_order : pydict;
  a_truck_id : pyval;
  a_shared : bool;
  a_owner : pyval;
  a_carrier : pyval;
  a_benefit_km : pyval;
  a_pool_id : pyval;
  a_awarded_cost_km : pyval;
  a_owner_reserve_km : pyval;
  a_market_round : pyval;
}.

Definition is_action (payload : pydict) (action : string) : bool := py_eq (get payload "action") (PStr action).

(** [AssignedHaulTripPayload.parse] *)
Definition parse_assigned (payload : pydict) : option assigned_haul :=
  if is_action payload Events.ASSIGNED_HAUL_TRIP then
    match get payload "order" with
    | PDict order =>
        Some (AssignedHaul order (get payload "truck_id") (truth (get_or payload "shared" (PBool false)))
          (get payload "owner_haulier_id") (get payload "carrier_haulier_id") (get payload "benefit_km")
          (get payload "pool_id") (get payload "awarded_cost_km") (get payload "owner_reserve_km") (get payload "market_round"))
    | _ => None
    end
  else None.

(** [OrderWorkflowPayload.parse] and [FacilityWorkflowPayload.parse], which differ in
    the action: the data of a workflow message. *)
Definition parse_workflow (action : string) (payload : pydict) : option pydict :=
  if is_action payload action then
    match get payload "data" with
    | PDict data => if is_none (get payload "truck_id") || is_none (get data "event") then None else Some data
    | _ => None
    end
  else None.

(** [dict(v or {})]; a list of pairs, which the schema rules out, is refused too. *)
Definition dict_copy (v : pyval) : result pydict :=
  match py_or v (PDict []) with
  | PDict d => Ok d
  | PStr _ | PList _ | PTuple _ => Raise ValueError
  | _ => Raise TypeError
  end.

(** ** Routes *)

Abbreviation point := (float64 * float64)%type.
Abbreviation route_key := (point * point * point)%type.
Abbreviation route_cache := (list (route_key * (pyval * pyval))).

Definition point_eqb (p q : point) : bool := f_eqb p.1 q.1 && f_eqb p.2 q.2.
Definition key_eqb (k l : route_key) : bool :=
  point_eqb k.1.1 l.1.1 && point_eqb k.1.2 l.1.2 && point_eqb k.2 l.2.

(** [_osrm_cache_get] *)
Definition cache_get (c : route_cache) (k : route_key) : option (pyval * pyval) :=
  snd <$> head (filter (λ e, key_eqb e.1 k = true) c).

Fixpoint cache_set (c : route_cache) (k : route_key) (v : pyval * pyval) : route_cache :=
  match c with
  | [] => [(k, v)]
  | e :: c => if key_eqb e.1 k then (e.1, v) :: c else e :: cache_set c k v
  end.

(** [_osrm_cache_put]: the oldest entry makes room. *)
Definition cache_put (max_entries : Z) (c : route_cache) (k : route_key) (v : pyval * pyval) : route_cache :=
  cache_set (if (0 <? max_entries) && (max_entries <=? Z.of_nat (length c)) then tail c else c) k v.

(** [_ensure_point]; both its branches do the same. *)
Definition ensure_point (loc : pyval) : option pydict :=
  match loc with
  | PDict d =>
      match get d "coordinates" with
      | PList (x :: y :: _) | PTuple (x :: y :: _) => Some [("type", PStr "Point"); ("coordinates", PList [x; y])]
      | _ => None
      end
  | _ => None
  end.

(** [_is_real_route] *)
Definition is_real_route (route : pyval) : bool := match route with PDict d => truth (get d "geometry") | _ => false end.

(** A leg that has no geometry, said aloud. *)
Definition unavailable : pyval := PDict [("geometry_source", PStr "unavailable")].

Section Routes.
Context `{PyText}.

(** [rounded], of a normalised point. *)
Definition rounded (p : pydict) : result point :=
  match py_or (get p "coordinates") (PList [PInt 0; PInt 0]) with
  | PList (x :: y :: _) | PTuple (x :: y :: _) =>
      x ← py_float x;
      y ← py_float y;
      Ok (py_round 100000 x, py_round 100000 y)
  | PList _ | PTuple _ => Raise IndexError
  | _ => Raise TypeError
  end.

(** [_route_cache_key] *)
Definition route_cache_key (start pickup dropoff : pydict) : result route_key :=
  a ← rounded start;
  b ← rounded pickup;
  c ← rounded dropoff;
  Ok (a, b, c).

(** [OSRMClient.get_route]: the first route of the answer, whatever its status. *)
Definition first_route (answer : pydict) : result pyval :=
  routes ← item (PDict answer) "routes";
  match routes with
  | PList (r :: _) | PTuple (r :: _) => Ok r
  | PList [] | PTuple [] => Raise IndexError
  | PDict _ => Raise KeyError
  | _ => Raise TypeError
  end.

(** What [_route_or_loud_failure] makes of it. *)
Definition stamped_route (r : result pyval) : pyval :=
  match r with
  | Ok (PDict d) => if truth (get d "geometry") then PDict (d_set d "geometry_source" (PStr "osrm")) else unavailable
  | _ => unavailable
  end.

Definition route_field (route : pyval) (k : string) : pyval := match route with PDict d => get d k | _ => PNone end.

(** The maximum the profile of a truck sets, if it can be read as a number. *)
Definition configured_cache_max (profile : pydict) (max_entries : Z) : result Z :=
  if is_none (get profile "osrm_route_cache_max_entries") then Ok max_entries
  else
    match py_int (get profile "osrm_route_cache_max_entries") with
    | Ok n => Ok (Z.max 0 n)
    | Raise TypeError | Raise ValueError => Ok max_entries
    | Raise e => Raise e
    end.
End Routes.

(** ** State *)

Record truck_app (S : Type) : Type := TruckApp {
  haul : trip_manager S;                 (* [trip], and the world it talks to *)
  resource : pydict;                     (* [manager.resource] *)
  idle : option (option pydict);         (* the idle trip manager, if any, and its resource *)
  queue : list pydict;                   (* messages not yet dequeued *)
  current_loc : pyval;
  latest_loc : pyval;
  latest_sim_clock : pyval;
  current_time : option Z;
  current_time_str : pyval;
  truck_refresh_pending : bool;
  trip_refresh_pending : bool;
  osrm_route_cache : route_cache;
  locations : list pydict;               (* what [publish_truck_location] was given *)
}.
Arguments TruckApp {S}.
Arguments haul {S}.
Arguments resource {S}.
Arguments idle {S}.
Arguments queue {S}.
Arguments current_loc {S}.
Arguments latest_loc {S}.
Arguments latest_sim_clock {S}.
Arguments current_time {S}.
Arguments current_time_str {S}.
Arguments truck_refresh_pending {S}.
Arguments trip_refresh_pending {S}.
Arguments osrm_route_cache {S}.
Arguments locations {S}.

Section Setters.
Context {S : Type} (a : truck_app S).
Definition with_haul (m : trip_manager S) := TruckApp m (resource a) (idle a) (queue a) (current_loc a) (latest_loc a) (latest_sim_clock a)
  (current_time a) (current_time_str a) (truck_refresh_pending a) (trip_refresh_pending a) (osrm_route_cache a) (locations a).
Definition with_resource r := TruckApp (haul a) r (idle a) (queue a) (current_loc a) (latest_loc a) (latest_sim_clock a)
  (current_time a) (current_time_str a) (truck_refresh_pending a) (trip_refresh_pending a) (osrm_route_cache a) (locations a).
Definition with_idle i := TruckApp (haul a) (resource a) i (queue a) (current_loc a) (latest_loc a) (latest_sim_clock a)
  (current_time a) (current_time_str a) (truck_refresh_pending a) (trip_refresh_pending a) (osrm_route_cache a) (locations a).
Definition with_queue q := TruckApp (haul a) (resource a) (idle a) q (current_loc a) (latest_loc a) (latest_sim_clock a)
  (current_time a) (current_time_str a) (truck_refresh_pending a) (trip_refresh_pending a) (osrm_route_cache a) (locations a).
Definition with_loc l := TruckApp (haul a) (resource a) (idle a) (queue a) l (latest_loc a) (latest_sim_clock a)
  (current_time a) (current_time_str a) (truck_refresh_pending a) (trip_refresh_pending a) (osrm_route_cache a) (locations a).
Definition with_latest c l := TruckApp (haul a) (resource a) (idle a) (queue a) (current_loc a) l c
  (current_time a) (current_time_str a) (truck_refresh_pending a) (trip_refresh_pending a) (osrm_route_cache a) (locations a).
Definition with_time t s := TruckApp (haul a) (resource a) (idle a) (queue a) (current_loc a) (latest_loc a) (latest_sim_clock a)
  (Some t) s (truck_refresh_pending a) (trip_refresh_pending a) (osrm_route_cache a) (locations a).
Definition with_pending p q := TruckApp (haul a) (resource a) (idle a) (queue a) (current_loc a) (latest_loc a) (latest_sim_clock a)
  (current_time a) (current_time_str a) p q (osrm_route_cache a) (locations a).
Definition with_cache c := TruckApp (haul a) (resource a) (idle a) (queue a) (current_loc a) (latest_loc a) (latest_sim_clock a)
  (current_time a) (current_time_str a) (truck_refresh_pending a) (trip_refresh_pending a) c (locations a).
Definition with_locations l := TruckApp (haul a) (resource a) (idle a) (queue a) (current_loc a) (latest_loc a) (latest_sim_clock a)
  (current_time a) (current_time_str a) (truck_refresh_pending a) (trip_refresh_pending a) (osrm_route_cache a) l.
End Setters.

(** What a truck is constructed with; [profile] and [behavior_persona] are parts of its
    behavior, [agent_name] the local part of its email. *)
Record truck_config : Set := TruckConfig {
  haul_cfg : trip_config;
  behavior_profile : pyval;
  behavior_persona : pydict;
  agent_name : string;
  cache_max : Z;
}.

(** The third-party code a truck calls: geometry decoding (of the stripped text), the
    point at a fraction of a line, the text of a time, and what the application base
    class does at launch and close and when the clock is set. *)
Class TruckWorld (S : Type) := {
  polyline_decode : string → option (list (pyval * pyval));
  point_along : list pyval → float64 → option pyval;
  strftime : Z → string;
  super_launch : pyval → eff (truck_app S) unit;
  super_close : pyval → eff (truck_app S) unit;
}.

Section Truck.
Context `{PyText, SimTime} {S : Type} `{!TruckWorld S} (serve : request → S → result response * S) (cfg : truck_config).

Abbreviation act := (eff (truck_app S)).

Definition peek {A} (f : truck_app S → A) : act A := λ a, (Ok (f a), a).
Definition update (f : truck_app S → truck_app S) : act unit := λ a, (Ok tt, f a).

(** [try: m  finally: f] *)
Definition finally {A} (m : act A) (f : truck_app S → truck_app S) : act A := λ a, let '(r, a) := m a in (r, f a).

(** An operation of the trip manager. *)
Definition on_haul {A} (f : eff (trip_manager S) A) : act A :=
  λ a, let '(r, m) := f (haul a) in (r, with_haul a m).

Definition get_trip (a : truck_app S) : option pydict := trip (haul a).

(** [resource_get], [resource_post], [resource_patch]: the body, unless the status is a failure. *)
Definition resource_call (q : request) : act pydict :=
  r ← on_haul (ask serve q);
  if is_success (status r) then mret (body r) else lift (Raise bare_exception).

Definition truck_profile : result pydict := dict_or_empty (behavior_profile cfg).

(** ** [TruckManager] *)

Definition is_online (a : truck_app S) : bool := py_eq (get (resource a) "state") (PStr "online").

(** [is_assignable] *)
Definition is_assignable (a : truck_app S) : bool :=
  is_online a && match get_trip a with None => true | Some _ => false end.

(** [TruckManager.refresh] *)
Definition manager_refresh : act unit :=
  id ← peek (λ a, get (resource a) "_id");
  r ← resource_call (GetTruck id);
  update (λ a, with_resource a r).

(** Keep the document, put in what was written, and take the new meta. *)
Definition merge_patched (res profile patched : pydict) : pydict :=
  let renew k r := if is_none (get patched k) then r else d_set r k (get patched k) in
  renew "_updated" (renew "_etag" (d_set res "profile" (PDict profile))).

Definition dropoff_profile (profile : pydict) (dropoff_loc dropoff_facility_name : pyval) : pydict :=
  let profile :=
    if is_none dropoff_loc then profile
    else d_set (d_set profile "last_dropoff_loc" dropoff_loc) "current_loc" dropoff_loc in
  if is_none dropoff_facility_name then profile else d_set profile "last_dropoff_facility_name" dropoff_facility_name.

(** [set_last_dropoff] *)
Definition set_last_dropoff (dropoff_loc dropoff_facility_name : pyval) : act unit :=
  if is_none dropoff_loc && is_none dropoff_facility_name then mret tt
  else
    res ← peek resource;
    let rid := get res "_id" in
    let etag := get res "_etag" in
    if negb (truth rid) || negb (truth etag) then mret tt
    else
      try_except
        (profile ← lift (dict_copy (get res "profile"));
         let profile := dropoff_profile profile dropoff_loc dropoff_facility_name in
         patched ← resource_call (PatchTruck rid etag [("profile", PDict profile)]);
         update (λ a, with_resource a (merge_patched (resource a) profile patched)))
        (mret tt).

(** ** [TruckIdleTripManager] *)

Definition idle_persona : pyval := PDict (d_set (d_del (behavior_persona cfg) "role") "role" (PStr "truck_idle_trip")).

(** [create_new] *)
Definition idle_create (sim_clock current_loc : pyval) : act pydict :=
  resource_call (PostIdle
    [("persona", idle_persona); ("kind", PStr "idle"); ("state", PStr "idle"); ("sim_clock", sim_clock);
     ("start_sim_clock", sim_clock); ("current_loc", current_loc); ("next_dest_loc", current_loc);
     ("routes", PDict [("planned", PDict []); ("actual", PDict [])])]).

(** [ping], of the manager's resource *)
Definition idle_ping (sim_clock current_loc : pyval) (res : option pydict) : act pydict :=
  match res with
  | None => idle_create sim_clock current_loc
  | Some d =>
      if py_eq (get d "current_loc") current_loc then mret d
      else resource_call (PatchIdle (get d "_id") (get d "_etag")
             [("sim_clock", sim_clock); ("current_loc", current_loc); ("next_dest_loc", current_loc)])
  end.

(** [end] *)
Definition idle_end (sim_clock current_loc : pyval) (res : option pydict) : act unit :=
  match res with
  | None => mret tt
  | Some d =>
      _ ← resource_call (PatchIdle (get d "_id") (get d "_etag")
             [("sim_clock", sim_clock); ("state", PStr "ended"); ("end_sim_clock", sim_clock); ("end_loc", current_loc);
              ("current_loc", current_loc); ("next_dest_loc", current_loc)]);
      mret tt
  end.

(** [_ensure_idle_trip] *)
Definition ensure_idle_trip (sim_clock : pyval) : act unit :=
  i ← peek idle;
  _ ← (match i with
       | Some _ => mret tt
       | None =>
           loc ← peek current_loc;
           r ← idle_create sim_clock loc;
           update (λ a, with_idle a (Some (Some r)))
       end);
  i ← peek idle;
  match i with
  | None => mret tt
  | Some res =>
      loc ← peek current_loc;
      r ← idle_ping sim_clock loc res;
      update (λ a, with_idle a (Some (Some r)))
  end.

(** [_end_idle_trip]: whatever happens, the truck is idle no more. *)
Definition end_idle_trip (sim_clock : pyval) : act unit :=
  i ← peek idle;
  match i with
  | None => mret tt
  | Some res =>
      loc ← peek current_loc;
      finally (idle_end sim_clock loc res) (λ a, with_idle a None)
  end.

(** ** [TruckApp] *)

Definition invalidate_truck_cache (a : truck_app S) : truck_app S := with_pending a true (trip_refresh_pending a).
Definition invalidate_trip_cache (a : truck_app S) : truck_app S := with_pending a (truck_refresh_pending a) true.

Definition state_is (d : pydict) (s : Haul.state) : bool := py_eq (get d "state") (PStr (Haul.name s)).

(** [warn_if_haul_trip_under_minimum], which only logs: what it evaluates may raise. *)
Definition warn_if_haul_trip_under_minimum (trip : pydict) (profile : pydict) : result unit :=
  b ← profile_bounds (Some profile);
  _ ← py_float (PInt (min_haul b));
  _ ← modeled_haul_duration_seconds trip;
  Ok tt.

(** What a completed haul leaves behind. *)
Definition completed_haul (d : pydict) : act unit :=
  profile ← lift truck_profile;
  _ ← lift (warn_if_haul_trip_under_minimum d profile);
  name ← lift (meta ← dict_or_empty (get d "meta");
               sub (get_or meta "order_profile" (PDict [])) "dropoff_facility_name");
  set_last_dropoff (get d "dropoff_loc") name.

(** [refresh] *)
Definition refresh : act unit :=
  pending ← peek truck_refresh_pending;
  _ ← (if (pending : bool) then
         _ ← manager_refresh;
         update (λ a, with_pending a false (trip_refresh_pending a))
       else mret tt);
  t ← peek get_trip;
  clock ← peek latest_sim_clock;
  match t with
  | None => ensure_idle_trip clock
  | Some _ =>
      pending ← peek trip_refresh_pending;
      _ ← (if (pending : bool) then
             _ ← on_haul (HaulTrip.refresh serve);
             update (λ a, with_pending a (truck_refresh_pending a) false)
           else mret tt);
      t ← peek get_trip;
      let d := trip_or_empty t in
      _ ← (if state_is d Haul.completed then completed_haul d else mret tt);
      if state_is d Haul.completed || state_is d Haul.cancelled then
        _ ← on_haul (set_trip None);
        ensure_idle_trip clock
      else mret tt
  end.

(** [_route_or_loud_failure] *)
Definition route_or_loud_failure (start end_ : pydict) : act pyval :=
  λ a, let '(r, a) := on_haul (ask serve (GetRoute (PDict start) (PDict end_))) a in
       (Ok (stamped_route (r ← r; first_route (body r))), a).

(** The routes of a job: from the cache, or asked for, and cached when both are real. *)
Definition routes_between (start pickup dropoff : pydict) : act (pyval * pyval) :=
  k ← lift (route_cache_key start pickup dropoff);
  cached ← peek (λ a, cache_get (osrm_route_cache a) k);
  match cached with
  | Some routes => mret routes
  | None =>
      reposition ← route_or_loud_failure start pickup;
      loaded ← route_or_loud_failure pickup dropoff;
      _ ← (if is_real_route reposition && is_real_route loaded then
             update (λ a, with_cache a (cache_put (cache_max cfg) (osrm_route_cache a) k (reposition, loaded)))
           else mret tt);
      mret (reposition, loaded)
  end.

(** [_plan_routes_for_assignment]: both routes and both leg estimates. *)
Definition plan_routes_for_assignment (loc : pyval) (order : pydict) : act (pyval * pyval * (pyval * pyval)) :=
  profile ← lift truck_profile;
  let floors e f :=
    '(p, d) ← apply_haul_trip_duration_floors e f (Some order) (Some profile);
    Ok (p, d) in
  if negb (truth (get profile "use_osrm_at_assignment")) then
    '(p, d) ← lift (floors (get profile "estimated_time_to_pickup") (get profile "estimated_time_to_dropoff"));
    mret (PNone, PNone, (PFloat p, PFloat d))
  else
    match ensure_point loc, ensure_point (get order "pickup_loc"), ensure_point (get order "dropoff_loc") with
    | Some start, Some pickup, Some dropoff =>
        '(reposition, loaded) ← routes_between start pickup dropoff;
        '(p, d) ← lift (floors
          (or_else (route_field reposition "duration") (get profile "estimated_time_to_pickup"))
          (or_else (route_field loaded "duration") (get profile "estimated_time_to_dropoff")));
        mret (patch_route_duration reposition p, patch_route_duration loaded d, (PFloat p, PFloat d))
    | _, _, _ => mret (PNone, PNone, (PNone, PNone))
    end.

Definition set_some (d : pydict) (k : string) (v : pyval) : pydict := if is_none v then d else d_set d k v.

(** The truck document with the plan on its profile. *)
Definition enriched_truck (base : pydict) (profile : pydict) (plan : pyval * pyval * (pyval * pyval)) : pydict :=
  let '(reposition, loaded, (eta_pickup, eta_dropoff)) := plan in
  let profile := set_some (set_some profile "planned_reposition_route" reposition) "planned_dropoff_route" loaded in
  d_set base "profile"
    (PDict (d_set (d_set profile "estimated_time_to_pickup" eta_pickup) "estimated_time_to_dropoff" eta_dropoff)).

Definition PLAN_KEYS : list string :=
  ["planned_reposition_route"; "planned_dropoff_route"; "estimated_time_to_pickup"; "estimated_time_to_dropoff"].

(** The order copy: without plans of its own, with the collaboration it comes from. *)
Definition enriched_order (order : pydict) (collaboration : option pydict) : pydict :=
  let o := foldl d_del order PLAN_KEYS in
  match collaboration with
  | Some c => if truth (PDict c) && truth (get c "shared") then d_set o "_collaboration" (PDict c) else o
  | None => o
  end.

(** [handle_assignment] *)
Definition handle_assignment (sim_clock loc : pyval) (order : pydict) (collaboration : option pydict) : act (option pydict) :=
  free ← peek is_assignable;
  if negb (free : bool) then mret None
  else
    _ ← end_idle_trip sim_clock;
    plan ← plan_routes_for_assignment loc order;
    base ← peek resource;
    profile ← lift (dict_copy (get base "profile"));
    let truck := enriched_truck base profile plan in
    let order := enriched_order order collaboration in
    t ← on_haul (create_new_trip serve (haul_cfg cfg) sim_clock loc truck order);
    (* [create_new_trip] pops the collaboration off the copy *)
    let order := d_del order "_collaboration" in
    _ ← on_haul (assign serve (haul_cfg cfg) sim_clock loc (Some order) (Some truck) PNone);
    _ ← update (λ a, with_pending a (truck_refresh_pending a) false);
    mret (Some t).

(** The collaboration of a shared job. *)
Definition collaboration_of (p : assigned_haul) : option pydict :=
  if a_shared p then
    Some [("shared", PBool true); ("owner_haulier_id", a_owner p); ("carrier_haulier_id", a_carrier p);
          ("benefit_km", a_benefit_km p); ("pool_id", a_pool_id p); ("awarded_cost_km", a_awarded_cost_km p);
          ("owner_reserve_km", a_owner_reserve_km p); ("market_round", a_market_round p)]
  else None.

(** The message names another truck. *)
Definition for_another (p : assigned_haul) (a : truck_app S) : bool :=
  negb (is_none (a_truck_id p)) && negb (String.eqb (py_str (a_truck_id p)) (py_str (get (resource a) "_id"))).

(** [handle_app_topic_messages] *)
Definition handle_app_topic_messages (payload : pydict) : act unit :=
  if is_action payload Events.ASSIGNED_HAUL_TRIP then
    match parse_assigned payload with
    | None => mret tt
    | Some p =>
        other ← peek (for_another p);
        if (other : bool) then mret tt
        else
          clock ← peek latest_sim_clock;
          loc ← peek latest_loc;
          _ ← handle_assignment clock loc (a_order p) (collaboration_of p);
          mret tt
    end
  else update (λ a, with_queue a (queue a ++ [payload])).

(** ** Interaction handlers *)

Definition clocked (f : pyval → pyval → eff (trip_manager S) response) : act unit :=
  t ← peek current_time_str;
  loc ← peek current_loc;
  _ ← on_haul (f t loc);
  mret tt.

(** [_on_order_cancelled] *)
Definition on_order_cancelled : act unit :=
  t ← peek get_trip;
  match t with
  | None => mret tt
  | Some _ => clocked (cancel serve (haul_cfg cfg))
  end.

(** [_on_gate_slot_assigned_for_pickup] *)
Definition on_gate_slot_assigned_for_pickup (data : pydict) : act unit :=
  clocked (λ t l, enter_pickup_gate serve (haul_cfg cfg) t l (get data "gate_index") (get_or data "service_time" (PInt 0))).

(** [_on_pickup_service_completed] *)
Definition on_pickup_service_completed (data : pydict) : act unit :=
  clocked (λ t l, finish_pickup_service serve (haul_cfg cfg) t l (get data "planned_route")
    (get_or data "estimated_time_to_dropoff" (PInt 0)) (get data "service_time")).

(** [_on_gate_slot_assigned_for_dropoff] *)
Definition on_gate_slot_assigned_for_dropoff (data : pydict) : act unit :=
  clocked (λ t l, enter_dropoff_gate serve (haul_cfg cfg) t l (get data "gate_index") (get_or data "service_time" (PInt 0))).

(** [_on_dropoff_service_completed] *)
Definition on_dropoff_service_completed (data : pydict) : act unit :=
  clocked (λ t l, finish_dropoff_service serve (haul_cfg cfg) t l (get data "service_time")).

(** [_on_state_repositioning_to_pickup], [_on_state_loaded_in_transit] *)
Definition on_state_repositioning_to_pickup : act unit := clocked (λ t l, arrive_pickup_queue serve (haul_cfg cfg) t l t).
Definition on_state_loaded_in_transit : act unit := clocked (λ t l, arrive_dropoff_queue serve (haul_cfg cfg) t l t).

(** [_on_state_assigned] *)
Definition on_state_assigned : act unit :=
  t ← peek get_trip;
  match t with
  | None => mret tt
  | Some d =>
      loc ← peek current_loc;
      eta ← lift (match get_or d "stats" (PDict []) with
                  | PDict stats => Ok (get_or stats "estimated_time_to_pickup" (PInt 0))
                  | _ => Raise AttributeError
                  end);
      planned ← lift (match get_or d "routes" (PDict []) with
                      | PDict routes => Ok (get_or routes "planned" (PDict []))
                      | _ => Raise AttributeError
                      end);
      route ← lift (sub planned "repositioning_to_pickup");
      if truth (get d "pickup_loc") && negb (py_eq (get d "pickup_loc") loc)
      then clocked (λ t l, start_empty_reposition serve (haul_cfg cfg) t l route eta)
      else clocked (λ t l, arrive_pickup_queue serve (haul_cfg cfg) t l t)
  end.

(** What the router calls for a message of an action and an event. *)
Definition on_message (action event : pyval) (data : pydict) : act unit :=
  let on a e := py_eq action (PStr a) && py_eq event (PStr e) in
  if on Events.ORDER_WORKFLOW_EVENT Events.ORDER_CANCELLED then on_order_cancelled
  else if on Events.FACILITY_WORKFLOW_EVENT Events.GATE_SLOT_ASSIGNED_FOR_PICKUP then on_gate_slot_assigned_for_pickup data
  else if on Events.FACILITY_WORKFLOW_EVENT Events.PICKUP_GATE_SERVICE_COMPLETED then on_pickup_service_completed data
  else if on Events.FACILITY_WORKFLOW_EVENT Events.GATE_SLOT_ASSIGNED_FOR_DROPOFF then on_gate_slot_assigned_for_dropoff data
  else if on Events.FACILITY_WORKFLOW_EVENT Events.DROPOFF_GATE_SERVICE_COMPLETED then on_dropoff_service_completed data
  else mret tt.

(** One message of the queue. *)
Definition consume_message (payload : pydict) : act unit :=
  let route (data : pydict) := on_message (get payload "action") (get_or data "event" (get payload "event")) data in
  let workflow action := match parse_workflow action payload with None => mret tt | Some data => route data end in
  if is_action payload Events.ORDER_WORKFLOW_EVENT then workflow Events.ORDER_WORKFLOW_EVENT
  else if is_action payload Events.FACILITY_WORKFLOW_EVENT then workflow Events.FACILITY_WORKFLOW_EVENT
  else
    data ← lift (dict_or_empty (get payload "data"));
    route data.

Fixpoint consume (fuel : nat) : act unit :=
  match fuel with
  | O => mret tt
  | Datatypes.S fuel =>
      q ← peek queue;
      match q with
      | [] => mret tt
      | payload :: rest =>
          _ ← update (λ a, with_queue a rest);
          _ ← consume_message payload;
          consume fuel
      end
  end.

(** [consume_messages]: no handler adds to the queue. *)
Definition consume_messages : act unit :=
  n ← peek (λ a, length (queue a));
  consume n.

(** [perform_workflow_actions] *)
Definition perform_workflow_actions : act unit :=
  online ← peek is_online;
  if negb (online : bool) then lift (Raise bare_exception)
  else
    t ← peek get_trip;
    match t with
    | None => mret tt
    | Some d =>
        if state_is d Haul.assigned then on_state_assigned
        else if state_is d Haul.repositioning_to_pickup then on_state_repositioning_to_pickup
        else if state_is d Haul.loaded_in_transit then on_state_loaded_in_transit
        else mret tt
    end.

(** ** Movement *)

(** [_extract_route_coords] *)
Definition extract_route_coords (route : pyval) : option (list pyval) :=
  match route with
  | PDict d =>
      if truth (get d "geometry") then
        match get d "geometry" with
        | PStr s => (map (λ x, PTuple [x.2; x.1])) <$> polyline_decode s
        | _ => None
        end
      else
        match py_or (get d "coordinates") (get d "coords") with
        | PList (c :: cs) =>
            Some (omap (λ c, match c with PList (x :: y :: _) | PTuple (x :: y :: _) => Some (PTuple [x; y]) | _ => None end)
              (c :: cs))
        | _ => None
        end
  | _ => None
  end.

(** [float(v or 0)], zero when it is not a number *)
Definition float_or_zero (v : pyval) : result float64 :=
  sec ← soft_float (py_or v (PInt 0));
  Ok (default f_zero sec).

(** How long a leg takes: the estimate, or the route's own duration. *)
Definition leg_duration (stats : pyval) (stat_key : string) (route : pyval) : result float64 :=
  v ← sub stats stat_key;
  duration ← float_or_zero v;
  match route with
  | PDict r => if f_leb duration f_zero then float_or_zero (get r "duration") else Ok duration
  | _ => Ok duration
  end.

(** [n / d] of integers, rounded once *)
Definition int_ratio (n : Z) (d : positive) : float64 :=
  match n with Z0 => f_zero | Zpos p => f_ratio false p d | Zneg p => f_ratio true p d end.

(** Seconds between two times in microseconds. *)
Definition total_seconds (us : Z) : float64 := int_ratio us 1000000.

(** The fraction of a leg that is behind at a time. *)
Definition leg_progress (duration : float64) (anchor now : Z) : float64 :=
  let elapsed := f_max f_zero (total_seconds (now - anchor)) in
  f_min (f_of_Z 1) (f_div elapsed duration).

(** Where a leg has come to: nowhere new, when there is no line or no duration. *)
Definition along_leg (d : pydict) (route : pyval) (duration : float64) (now : option Z) : result (option pyval) :=
  match extract_route_coords route with
  | Some coords =>
      if (length coords <? 2)%nat || f_leb duration f_zero then Ok None
      else
        match now with
        | None => Raise TypeError
        | Some now =>
            let anchor := match to_time (get d "sim_clock") with Ok z => z * US | Raise _ => now end in
            Ok (point_along coords (leg_progress duration anchor now))
        end
  | None => Ok None
  end.

(** [update_location_by_planned_route], of a trip: the new location, if it moves. *)
Definition planned_location (d : pydict) (now : option Z) : result (option pyval) :=
  let snap k := Ok (if truth (get d k) then Some (get d k) else None) in
  routes ← dict_or_empty (get d "routes");
  let stats := py_or (get d "stats") (PDict []) in
  let planned := py_or (get routes "planned") (PDict []) in
  if state_is d Haul.queued_for_pickup || state_is d Haul.at_pickup_gate then snap "pickup_loc"
  else if state_is d Haul.queued_for_dropoff || state_is d Haul.at_dropoff_gate then snap "dropoff_loc"
  else if state_is d Haul.repositioning_to_pickup then
    route ← sub planned "repositioning_to_pickup";
    duration ← leg_duration stats "estimated_time_to_pickup" route;
    along_leg d route duration now
  else if state_is d Haul.loaded_in_transit then
    route ← sub planned "loaded_to_dropoff";
    duration ← leg_duration stats "estimated_time_to_dropoff" route;
    along_leg d route duration now
  else Ok None.

(** [update_location_by_planned_route] *)
Definition update_location_by_planned_route : act unit :=
  t ← peek get_trip;
  match t with
  | None => mret tt
  | Some d =>
      now ← peek current_time;
      loc ← lift (planned_location d now);
      match loc with Some l => update (λ a, with_loc a l) | None => mret tt end
  end.

(** The first two elements of what has at least two; a dictionary has no first. *)
Definition first_two (v : pyval) : result (option (pyval * pyval)) :=
  match v with
  | PList l | PTuple l => Ok (match l with x :: y :: _ => Some (x, y) | _ => None end)
  | PStr (String x (String y _)) => Ok (Some (PStr (String x ""), PStr (String y "")))
  | PStr _ | PDict _ => Ok None
  | _ => Raise TypeError
  end.

(** [_emit_truck_location]: what is published; a failure publishes nothing. *)
Definition located (profile : pydict) (clock : pyval) (loc : pyval) (t : option pydict) : result (option pydict) :=
  if negb (truth (get_or profile "stream_geo" (PBool true))) then Ok None
  else if negb (truth clock) then Ok None
  else
    match loc with
    | PDict l =>
        pair ← first_two (py_or (get l "coordinates") (PList []));
        match pair with
        | Some (x, y) =>
            if decide (agent_name cfg = "") then Ok None
            else
              Ok (catch
                (x ← py_float x;
                 y ← py_float y;
                 Ok (Some [("sim_clock", clock); ("agent_id", PStr (agent_name cfg)); ("lon", PFloat x); ("lat", PFloat y);
                           ("haul_state", get (trip_or_empty t) "state"); ("haulier_id", get profile "haulier_id");
                           ("haulier_name", get profile "haulier_name")])) None)
        | None => Ok None
        end
    | _ => Ok None
    end.

Definition emit_truck_location : act unit :=
  profile ← lift truck_profile;
  clock ← peek current_time_str;
  loc ← peek current_loc;
  t ← peek get_trip;
  msg ← lift (located profile clock loc t);
  match msg with Some l => update (λ a, with_locations a (locations a ++ [l])) | None => mret tt end.

(** [execute_step_actions] *)
Definition execute_step_actions (now : Z) : act unit :=
  _ ← update (λ a, with_time a now (PStr (strftime now)));
  _ ← refresh;
  _ ← update_location_by_planned_route;
  _ ← emit_truck_location;
  _ ← consume_messages;
  _ ← perform_workflow_actions;
  consume_messages.

(** [launch] *)
Definition launch (sim_clock : pyval) : act unit :=
  _ ← super_launch sim_clock;
  ensure_idle_trip sim_clock.

(** [close] *)
Definition close (sim_clock : pyval) : act unit :=
  t ← peek get_trip;
  loc ← peek current_loc;
  _ ← (match t with
       | Some _ => _ ← on_haul (cancel serve (haul_cfg cfg) sim_clock loc); mret tt
       | None => mret tt
       end);
  _ ← end_idle_trip sim_clock;
  super_close sim_clock.

(** ** [TruckAgent] *)

(** The parts of the behavior the agent reads. *)
Record agent_behavior : Set := AgentBehavior {
  shift_start_time : Z;
  shift_end_time : Z;
  steps_per_action : Z;
  response_rate : float64;
  step_only_on_events : bool;
  step_interval : pyval;
}.

(** [entering_market]: whether the agent is active afterwards. *)
Definition entering_market (b : agent_behavior) (active : bool) (time_step : Z) (sim_clock : pyval) : act bool :=
  if negb active && (time_step =? shift_start_time b) then
    _ ← launch sim_clock;
    mret true
  else mret active.

(** [exiting_market]: the shift is over and there is no haul; [shutdown] is the base
    class's, [exited] its flag. *)
Definition exiting_market (b : agent_behavior) (exited : bool) (time_step : Z) (shutdown : act unit) : act bool :=
  t ← peek get_trip;
  if exited then mret false
  else if (shift_end_time b <? time_step) && match t with None => true | Some _ => false end then
    _ ← shutdown;
    mret true
  else mret false.

(** [step], at a time and with a draw of [random()]; [update_current] sets the clock. *)
Definition agent_step (b : agent_behavior) (time_step now : Z) (draw : float64) (update_current : act unit) : act bool :=
  _ ← update_current;
  if steps_per_action b =? 0 then lift (Raise ZeroDivisionError)
  else if (time_step mod steps_per_action b =? 0) && f_leb draw (response_rate b) then
    t ← peek get_trip;
    let act_now := _ ← execute_step_actions now; mret true in
    if step_only_on_events b then
      due ← lift (agent_estimate t now (step_interval b) (PInt (steps_per_action b)));
      if now <? due then mret false else act_now
    else act_now
  else mret false.
End Truck.

(** ** Frames

    A computation that stays within a relation of the state, however it ends. *)

Section Stays.
Context {S : Type} (R : truck_app S → truck_app S → Prop) `{!PreOrder R}.

Abbreviation act := (eff (truck_app S)).

Definition stays {A} (m : act A) : Prop := ∀ a, R a (m a).2.

Lemma stays_bind {A B} (m : act A) (f : A → act B) : stays m → (∀ x, stays (f x)) → stays (x ← m; f x).
Proof.
  intros Hm Hf a. specialize (Hm a). unfold mbind, eff_bind. destruct (m a) as [[x|e] a1]; [|done].
  etransitivity; [exact Hm|apply Hf].
Qed.

Lemma stays_lift {A} (r : result A) : stays (lift r).
Proof. by intros a. Qed.
Lemma stays_ret {A} (x : A) : stays (mret x).
Proof. by intros a. Qed.
Lemma stays_peek {A} (g : truck_app S → A) : stays (peek g).
Proof. by intros a. Qed.
Lemma stays_update f : (∀ a, R a (f a)) → stays (update f).
Proof. intros Hf a. apply Hf. Qed.
Lemma stays_finally {A} (m : act A) f : stays m → (∀ a, R a (f a)) → stays (finally m f).
Proof. intros Hm Hf a. specialize (Hm a). unfold finally. destruct (m a) as [r a1]. etransitivity; [exact Hm|apply Hf]. Qed.
Lemma stays_try {A} (m h : act A) : stays m → stays h → stays (try_except m h).
Proof. intros Hm Hh a. specialize (Hm a). unfold try_except. destruct (m a) as [[x|e] a1]; [done|]. etransitivity; [exact Hm|apply Hh]. Qed.

Lemma stays_resource_call serve q : stays (on_haul (ask serve q)) → stays (resource_call serve q).
Proof. intros Hq. apply stays_bind; [done|]. intros r. destruct (is_success _); [apply stays_ret|apply stays_lift]. Qed.
End Stays.

Ltac stays_step :=
  match goal with
  | |- stays ?R (lift _) => refine (stays_lift R _)
  | |- stays ?R (mret _) => refine (stays_ret R _)
  | |- stays ?R (peek _) => refine (stays_peek R _)
  | |- stays _ (update _) => apply stays_update; by intros ?
  | |- stays ?R (resource_call _ _) => apply (stays_resource_call R)
  | |- stays ?R (finally _ _) => apply (stays_finally R); [|by intros ?]
  | |- stays ?R (mbind _ _) => apply (stays_bind R); [|intros ?]
  | |- stays _ (if ?b then _ else _) => destruct b
  | |- stays _ (match ?x with _ => _ end) => destruct x
  end.

(** ** One haul at a time

    What the truck relies on: a truck document keeps its id when it is read, and what
    the base class does at launch, at close and to the clock leaves the haul and the
    truck's id alone. *)

Class TruckLaws {S} `{!TruckWorld S} (serve : request → S → result response * S) `{!HaulServer serve} : Prop := {
  truck_reads id w resp w' :
    serve (GetTruck id) w = (Ok resp, w') → is_success (status resp) = true → get (body resp) "_id" = id;
  super_keeps t a a' : (super_launch t a).2 = a' ∨ (super_close t a).2 = a' →
    get_trip a' = get_trip a ∧ get (resource a') "_id" = get (resource a) "_id" ∧
    ∀ id, stored (world (haul a')) id = stored (world (haul a)) id;
}.

Definition terminal (d : pydict) : Prop := in_state d Haul.completed ∨ in_state d Haul.cancelled.

Section Facts.
Context `{PyText, SimTime} {S : Type} `{!TruckWorld S} (serve : request → S → result response * S) (cfg : truck_config).
Context `{!HaulServer serve, !TruckLaws serve} (tid : pyval).

Abbreviation act := (eff (truck_app S)).

Definition stored_in (a : truck_app S) (id : pyval) : option pydict := stored (world (haul a)) id.

(** Every haul of the truck [tid] that is not over is the one it holds, and what it
    holds is what the server has. *)
Definition one_haul (a : truck_app S) : Prop :=
  get (resource a) "_id" = tid ∧
  (∀ d, get_trip a = Some d → stored_in a (get d "_id") = Some d ∧ ∃ s, in_state d s) ∧
  ∀ id d, stored_in a id = Some d → get d "truck" = tid →
    terminal d ∨ ∃ t, get_trip a = Some t ∧ get t "_id" = id.

Definition holding (t : option pydict) (a : truck_app S) : Prop := one_haul a ∧ get_trip a = t.

(** A computation keeps a property, however it ends. *)
Definition keeps {A} (P : truck_app S → Prop) (m : act A) : Prop := ∀ a, P a → P (m a).2.

(** Nothing the property speaks of has changed. *)
Definition alike (a a' : truck_app S) : Prop :=
  get_trip a' = get_trip a ∧ get (resource a') "_id" = get (resource a) "_id" ∧ ∀ id, stored_in a' id = stored_in a id.

Lemma alike_one_haul a a' : alike a a' → one_haul a → one_haul a'.
Proof. intros (Ht & Hr & Hs) (Hid & Hsync & Hone). split_and!; [congruence|..]; intros *; rewrite ?Ht, ?Hs; auto. Qed.

Lemma alike_holding t a a' : alike a a' → holding t a → holding t a'.
Proof. intros Ha [Ho Ht]. split; [by eapply alike_one_haul|]. destruct Ha as [-> _]. done. Qed.

#[global] Instance alike_preorder : PreOrder alike.
Proof.
  split; [by intros a|]. intros a b c (H1 & H2 & H3) (H4 & H5 & H6).
  split_and!; [congruence|congruence|]. intros id. by rewrite H6.
Qed.

Lemma keeps_bind {A B} P (m : act A) (f : A → act B) : keeps P m → (∀ x, keeps P (f x)) → keeps P (x ← m; f x).
Proof.
  intros Hm Hf a Ha. specialize (Hm a Ha). unfold mbind, eff_bind. destruct (m a) as [[x|e] a1]; [by apply Hf|done].
Qed.

Lemma keeps_lift {A} P (r : result A) : keeps P (lift r).
Proof. by intros a. Qed.

Lemma keeps_ret {A} P (x : A) : keeps P (mret x).
Proof. by intros a. Qed.

Lemma keeps_peek {A B} P (g : truck_app S → A) (f : A → act B) : (∀ a, P a → P (f (g a) a).2) → keeps P (x ← peek g; f x).
Proof. intros Hf a Ha. apply Hf, Ha. Qed.

(** The quiet computations: those that leave all of it alone. *)
Abbreviation quiet := (stays alike).

Lemma quiet_keeps {A} t (m : act A) : quiet m → keeps (holding t) m.
Proof. intros Hm a. apply alike_holding, Hm. Qed.

Lemma quiet_ask q : writes_trip q = false → quiet (on_haul (ask serve q)).
Proof.
  intros Hq a. unfold on_haul, ask. destruct (serve q (world (haul a))) as [r w] eqn:E. split_and!; [done|done|].
  exact (others_keep _ _ _ _ Hq E).
Qed.

Lemma quiet_resource_call q : writes_trip q = false → quiet (resource_call serve q).
Proof.
  intros Hq. by apply (stays_resource_call alike), quiet_ask.
Qed.
Lemma idle_quiet clock : quiet (ensure_idle_trip serve cfg clock) ∧ quiet (end_idle_trip serve clock).
Proof. split; unfold ensure_idle_trip, end_idle_trip, idle_ping, idle_create, idle_end; repeat stays_step; by apply quiet_ask. Qed.

Lemma merge_patched_get res profile patched k :
  k ∉ ["profile"; "_etag"; "_updated"] → get (merge_patched res profile patched) k = get res k.
Proof.
  rewrite !not_elem_of_cons. intros (H1 & H2 & H3 & _). unfold merge_patched, get.
  destruct (is_none _), (is_none _); by rewrite !d_get_set_ne by (intros <-; done).
Qed.

Lemma dropoff_quiet loc name : quiet (set_last_dropoff serve loc name).
Proof.
  unfold set_last_dropoff. destruct (_ && _); [refine (stays_ret alike _)|]. apply (stays_bind alike); [refine (stays_peek alike _)|]. intros res.
  destruct (_ || _); [refine (stays_ret alike _)|]. apply (stays_try alike); [|refine (stays_ret alike _)]. repeat stays_step; [by apply quiet_ask|].
  apply stays_update. intros a. split_and!; [done| |done]. cbn. apply merge_patched_get. set_solver.
Qed.

Lemma manager_refresh_quiet : quiet (manager_refresh serve).
Proof.
  intros a. unfold manager_refresh, resource_call, on_haul, ask, peek, update, mbind, eff_bind, lift.
  destruct (serve (GetTruck (get (resource a) "_id")) (world (haul a))) as [[resp|e] w] eqn:E;
    pose proof (others_keep (GetTruck _) _ _ _ eq_refl E) as Hw; [|by split_and!].
  destruct (is_success (status resp)) eqn:Eok; [|by split_and!].
  split_and!; [done| |done]. cbn. by eapply truck_reads.
Qed.

Lemma route_quiet s e : quiet (route_or_loud_failure serve s e).
Proof.
  intros a. unfold route_or_loud_failure. pose proof (quiet_ask (GetRoute (PDict s) (PDict e)) eq_refl a) as Hq.
  by destruct (on_haul _ a).
Qed.

Lemma plan_quiet loc order : quiet (plan_routes_for_assignment serve cfg loc order).
Proof.
  unfold plan_routes_for_assignment, routes_between.
  repeat first [apply route_quiet | stays_step | match goal with x : (_ * _)%type |- _ => destruct x end].
Qed.

Lemma move_quiet : quiet (update_location_by_planned_route (H0 := H0)) ∧ quiet (emit_truck_location cfg).
Proof. split; unfold update_location_by_planned_route, emit_truck_location; repeat stays_step. Qed.

(** ** Steps of the haul *)

(** An operation of the trip manager that keeps the truck's one haul. *)
Definition hauls {A} (f : eff (trip_manager S) A) : Prop := keeps one_haul (on_haul f).

Lemma hauls_lift {A B} (r : result A) (f : A → eff (trip_manager S) B) : (∀ x, hauls (f x)) → hauls (x ← lift r; f x).
Proof. intros Hf a Ha. destruct r as [x|e]; [by apply (Hf x)|by destruct a]. Qed.

Lemma hauls_look {A B} (g : trip_manager S → A) (f : A → eff (trip_manager S) B) : (∀ x, hauls (f x)) → hauls (x ← look g; f x).
Proof. intros Hf a Ha. by apply (Hf (g (haul a))). Qed.

Lemma in_state_inj d s s' : in_state d s → in_state d s' → s = s'.
Proof. unfold in_state. intros -> [= Heq]. by destruct s, s'. Qed.

Lemma terminal_stuck d s s' t : terminal d → in_state d s → fire Haul.table s t = Ok s' → False.
Proof. intros [Hd|Hd] Hs; rewrite <-(in_state_inj _ _ _ Hd Hs); by destruct t. Qed.

Lemma transition_hauls t data ctx :
  d_get data "_id" = None → d_get data "truck" = None →
  hauls (apply_trip_transition_and_notify serve (haul_cfg cfg) t data ctx).
Proof.
  intros Hid Htr a (Hres & Hsync & Hone). unfold on_haul.
  destruct (apply_trip_transition_and_notify serve (haul_cfg cfg) t data ctx (haul a)) as [r m'] eqn:Ea. cbn.
  destruct (trip (haul a)) as [d|] eqn:Et.
  - destruct (Hsync d Et) as [Hst [s Hs]].
    destruct (transition_cases serve (haul_cfg cfg) _ _ _ _ _ _ _ _ Et Hst Hs Hid Ea)
      as [(Ht' & _ & Hw)|(s' & d' & w & r2 & Hf & Hst' & Hs' & Hid' & Hk & Hoth & Eh)].
    { eapply alike_one_haul; [|by split_and!]. split_and!; [unfold get_trip; cbn; congruence|done|exact Hw]. }
    destruct (hook_publishes serve (haul_cfg cfg) t ctx (with_trip (Some d') (with_world w (haul a))) d' _ _ eq_refl Eh) as (Ht' & Hw & _).
    cbn in Ht', Hw. unfold one_haul, get_trip, stored_in. cbn. rewrite Ht'. split_and!; [done|..].
    + intros ? [= <-]. rewrite Hw, Hid'. by eauto.
    + intros id x. rewrite Hw. destruct (Hoth id) as [-> | ->].
      * rewrite Hst'. intros [= <-] _. right. eauto.
      * intros Hx Hxt. destruct (Hone id x Hx Hxt) as [Hterm|(y & Hy & <-)]; [by left|right].
        exists d'. split; [done|]. rewrite Hid'. unfold get_trip in Hy. congruence.
  - assert (trip m' = None ∧ ∀ id, stored (world m') id = stored (world (haul a)) id) as [Ht' Hw].
    { unfold apply_trip_transition_and_notify, patch_trip_transition, trip_field in Ea.
      unfold mbind, eff_bind, look in Ea. rewrite Et in Ea. by injection Ea as _ <-. }
    eapply alike_one_haul; [|by split_and!]. split_and!; [unfold get_trip; cbn; congruence|done|exact Hw].
Qed.

Ltac hauls_step :=
  match goal with
  | |- hauls (apply_trip_transition_and_notify _ _ _ _ _) => by apply transition_hauls
  | |- hauls (mbind _ (lift _)) => apply hauls_lift; intros ?
  | |- hauls (mbind _ (look _)) => apply hauls_look; intros ?
  | |- hauls (match ?x with (_, _) => _ end) => destruct x
  end.

Lemma operations_haul :
  (∀ t l o tr x, hauls (assign serve (haul_cfg cfg) t l o tr x)) ∧
  (∀ t l, hauls (cancel serve (haul_cfg cfg) t l)) ∧
  (∀ t l r e, hauls (start_empty_reposition serve (haul_cfg cfg) t l r e)) ∧
  (∀ t l q, hauls (arrive_pickup_queue serve (haul_cfg cfg) t l q)) ∧
  (∀ t l g s, hauls (enter_pickup_gate serve (haul_cfg cfg) t l g s)) ∧
  (∀ t l r e s, hauls (finish_pickup_service serve (haul_cfg cfg) t l r e s)) ∧
  (∀ t l q, hauls (arrive_dropoff_queue serve (haul_cfg cfg) t l q)) ∧
  (∀ t l g s, hauls (enter_dropoff_gate serve (haul_cfg cfg) t l g s)) ∧
  (∀ t l s, hauls (finish_dropoff_service serve (haul_cfg cfg) t l s)).
Proof.
  split_and!; intros *;
    unfold assign, cancel, start_empty_reposition, arrive_pickup_queue, enter_pickup_gate, finish_pickup_service,
      arrive_dropoff_queue, enter_dropoff_gate, finish_dropoff_service; repeat hauls_step.
Qed.

Lemma refresh_haul t : keeps (holding t) (on_haul (HaulTrip.refresh serve)).
Proof.
  intros a [(Hres & Hsync & Hone) Ht]. apply (alike_holding t a); [|done]. unfold on_haul.
  destruct (trip (haul a)) as [d|] eqn:Et.
  - destruct (Hsync d Et) as [Hst _]. destruct (stored_wf _ _ _ Hst) as [Hid _].
    rewrite (refresh_ok serve _ _ _ _ Et Hid Hst). split_and!; [by unfold get_trip; cbn|done|done].
  - unfold HaulTrip.refresh, mbind, eff_bind, look. by rewrite Et.
Qed.

(** A new haul, of a truck that has none. *)
Lemma create_haul sim_clock loc truck order a :
  holding None a → get truck "_id" = tid →
  one_haul (on_haul (create_new_trip serve (haul_cfg cfg) sim_clock loc truck order) a).2.
Proof.
  intros [(Hres & Hsync & Hone) Ht] Htr. unfold on_haul.
  destruct (create_new_trip serve (haul_cfg cfg) sim_clock loc truck order (haul a)) as [r m'] eqn:Ec. cbn.
  destruct (create_cases serve (haul_cfg cfg) _ _ _ _ _ _ _ Ec)
    as [_ [(_ & Ht' & Hw)|(id & d & _ & Hfresh & Hst & Ht' & Hid & Hs & _ & _ & Hoth)]].
  - apply (alike_one_haul a); [|by split_and!]. by split_and!.
  - unfold one_haul, get_trip, stored_in. cbn. rewrite Ht'. split_and!; [done|..].
    + intros ? [= <-]. rewrite Hid. by eauto.
    + intros id' x Hx Hxt. destruct (Hoth id') as [-> | Heq].
      * rewrite Hst in Hx. injection Hx as <-. right. eauto.
      * rewrite Heq in Hx. destruct (Hone id' x Hx Hxt) as [Hterm|(y & Hy & _)]; [by left|congruence].
Qed.

(** What is dropped is over. *)
Lemma drop_haul d a : holding (Some d) a → terminal d → holding None (on_haul (set_trip None) a).2.
Proof.
  intros [(Hres & Hsync & Hone) Ht] Hd. split; [|done]. destruct (Hsync d Ht) as [Hst _]. split_and!; [done|done|].
  intros id x Hx Hxt. destruct (Hone id x Hx Hxt) as [Hterm|(y & Hy & <-)]; [by left|].
  left. unfold stored_in in *. cbn in Hx. rewrite Ht in Hy. injection Hy as <-. by rewrite Hst in Hx; injection Hx as <-.
Qed.

Lemma quiet_one_haul {A} (m : act A) : quiet m → keeps one_haul m.
Proof. intros Hm a. apply alike_one_haul, Hm. Qed.

Lemma completed_quiet d : quiet (completed_haul serve cfg d).
Proof. unfold completed_haul. repeat first [apply dropoff_quiet | stays_step]. Qed.

Lemma state_is_in_state d s : state_is d s = true → in_state d s.
Proof.
  unfold state_is, in_state. destruct (get d "state"); try done. cbn. intros Hs. f_equal. by apply bool_decide_eq_true in Hs.
Qed.

(** From one property to another, however the computation ends. *)
Definition yields {A} (P : truck_app S → Prop) (m : act A) (Q : truck_app S → Prop) : Prop := ∀ a, P a → Q (m a).2.

Lemma yields_bind {A B} P R Q (m : act A) (f : A → act B) :
  yields P m R → (∀ a, R a → Q a) → (∀ x, yields R (f x) Q) → yields P (x ← m; f x) Q.
Proof.
  intros Hm HR Hf a Ha. specialize (Hm a Ha). unfold mbind, eff_bind. destruct (m a) as [[x|e] a1]; [by apply Hf|by apply HR].
Qed.

Lemma yields_peek {A B} P Q (g : truck_app S → A) (f : A → act B) : (∀ x, yields P (f x) Q) → yields P (x ← peek g; f x) Q.
Proof. intros Hf a Ha. by apply (Hf (g a)). Qed.

Lemma yields_seen {A B} P Q (g : truck_app S → A) (f : A → act B) :
  (∀ b, P b → yields P (f (g b)) Q) → yields P (x ← peek g; f x) Q.
Proof. intros Hf a Ha. by apply (Hf a). Qed.

Lemma yields_lift {A B} P Q (r : result A) (f : A → act B) :
  (∀ a, P a → Q a) → (∀ x, yields P (f x) Q) → yields P (x ← lift r; f x) Q.
Proof. intros HPQ Hf a Ha. destruct r as [x|e]; [by apply (Hf x)|by apply HPQ]. Qed.

Lemma yields_trip {B} t Q (f : option pydict → act B) :
  yields (holding t) (f t) Q → yields (holding t) (x ← peek get_trip; f x) Q.
Proof. intros Hf a Ha. cbn. destruct Ha as [Ha <-]. by apply Hf. Qed.

(** What holds with one haul holds whatever the truck holds. *)
Lemma by_trip {A} (m : act A) Q : (∀ t, yields (holding t) m Q) → yields one_haul m Q.
Proof. intros Hm a Ha. by apply (Hm (get_trip a)). Qed.

Lemma holding_one t a : holding t a → one_haul a.
Proof. by intros []. Qed.
#[local] Hint Resolve holding_one quiet_keeps : openride.

Lemma quiet_yields {A} t (m : act A) : quiet m → yields (holding t) m one_haul.
Proof. intros Hm a Ha. by destruct (quiet_keeps t m Hm a Ha). Qed.

Lemma refresh_keeps : keeps one_haul (refresh serve cfg).
Proof.
  apply by_trip. intros t. unfold refresh. apply yields_peek. intros p1.
  apply (yields_bind _ (holding t)); [|apply holding_one|intros _].
  { destruct p1; apply quiet_keeps; [apply (stays_bind alike); [apply manager_refresh_quiet|intros _; by stays_step]|refine (stays_ret alike _)]. }
  apply yields_trip. apply yields_peek. intros clock. destruct t as [t|]; [|apply quiet_yields, idle_quiet].
  apply yields_peek. intros p2. apply (yields_bind _ (holding (Some t))); [|apply holding_one|intros _].
  { destruct p2; [|apply quiet_keeps; refine (stays_ret alike _)].
    apply keeps_bind; [apply refresh_haul|intros _; apply quiet_keeps; by stays_step]. }
  apply yields_trip. cbv zeta. change (trip_or_empty (Some t)) with t.
  apply (yields_bind _ (holding (Some t))); [|apply holding_one|intros _].
  { apply quiet_keeps. destruct (state_is t Haul.completed); [apply completed_quiet|refine (stays_ret alike _)]. }
  destruct (_ || _) eqn:Eover; [|apply quiet_yields; refine (stays_ret alike _)].
  apply (yields_bind _ (holding None)); [|apply holding_one|intros _; apply quiet_yields, idle_quiet].
  intros a Ha. apply (drop_haul t); [done|]. apply orb_true_iff in Eover as [E|E]; [left|right]; by apply state_is_in_state.
Qed.

Lemma assignment_keeps clock loc order collab : keeps one_haul (handle_assignment serve cfg clock loc order collab).
Proof.
  apply by_trip. intros t. unfold handle_assignment. apply yields_seen. intros b Hb.
  destruct (is_assignable b) eqn:Ef; [|apply quiet_yields; refine (stays_ret alike _)].
  assert (t = None) as ->.
  { unfold is_assignable in Ef. destruct Hb as [_ <-]. destruct (get_trip b); [by rewrite andb_false_r in Ef|done]. }
  apply (yields_bind _ (holding None)); [apply quiet_keeps, idle_quiet|apply holding_one|intros _].
  apply (yields_bind _ (holding None)); [apply quiet_keeps, plan_quiet|apply holding_one|intros plan].
  apply yields_seen. intros b' [[Hid _] _]. apply yields_lift; [apply holding_one|intros profile].
  apply (yields_bind _ one_haul); [|done|intros d].
  { intros a Ha. apply create_haul; [done|]. rewrite <-Hid. destruct plan as [[? ?] [? ?]]. cbn.
    unfold get. by rewrite d_get_set_ne. }
  apply keeps_bind; [apply operations_haul|intros _].
  apply keeps_bind; [by apply quiet_one_haul; stays_step|intros _; apply keeps_ret].
Qed.

Lemma keeps_peeked {A B} P (g : truck_app S → A) (f : A → act B) : (∀ x, keeps P (f x)) → keeps P (x ← peek g; f x).
Proof. apply yields_peek. Qed.

Lemma clocked_keeps f : (∀ t l, hauls (f t l)) → keeps one_haul (clocked f).
Proof.
  intros Hf. unfold clocked. apply keeps_peeked. intros t. apply keeps_peeked. intros l.
  apply keeps_bind; [apply Hf|intros _; apply keeps_ret].
Qed.

Ltac keeps_step :=
  match goal with
  | |- keeps _ (clocked _) => apply clocked_keeps; intros; by apply operations_haul
  | |- keeps _ (mret _) => apply keeps_ret
  | |- keeps _ (lift _) => apply keeps_lift
  | |- keeps _ (mbind _ (lift _)) => apply keeps_bind; [apply keeps_lift|intros ?]
  | |- keeps _ (mbind _ (peek _)) => apply keeps_peeked; intros ?
  | |- keeps _ (mbind _ (update _)) => apply keeps_bind; [by apply quiet_one_haul; stays_step|intros ?]
  | |- keeps _ (update _) => by apply quiet_one_haul; stays_step
  | |- keeps _ (if ?b then _ else _) => destruct b
  | |- keeps _ (match ?x with _ => _ end) => destruct x
  end.

Lemma on_message_keeps action event data : keeps one_haul (on_message serve cfg action event data).
Proof.
  unfold on_message, on_order_cancelled, on_gate_slot_assigned_for_pickup, on_pickup_service_completed,
    on_gate_slot_assigned_for_dropoff, on_dropoff_service_completed. repeat keeps_step.
Qed.

Lemma consume_keeps n : keeps one_haul (consume serve cfg n).
Proof.
  induction n as [|n IH]; cbn [consume]; [apply keeps_ret|].
  apply yields_peek. intros [|payload rest]; [apply keeps_ret|].
  apply keeps_bind; [by apply quiet_one_haul; stays_step|intros _]. apply keeps_bind; [|done].
  unfold consume_message. repeat first [apply on_message_keeps | keeps_step].
Qed.

Lemma consume_messages_keeps : keeps one_haul (consume_messages serve cfg).
Proof. apply yields_peek, consume_keeps. Qed.

Lemma workflow_keeps : keeps one_haul (perform_workflow_actions serve cfg).
Proof.
  unfold perform_workflow_actions, on_state_assigned, on_state_repositioning_to_pickup, on_state_loaded_in_transit.
  repeat keeps_step.
Qed.

(** ** Runs *)

(** What can happen to a truck: a message, a step, the clock set by the scheduler, and
    its launch and close. *)
Inductive input : Set :=
| Deliver (payload : pydict)
| Step (now : Z)
| Tick (sim_clock loc : pyval)
| Launch (sim_clock : pyval)
| Close (sim_clock : pyval).

Definition receive (i : input) : act unit :=
  match i with
  | Deliver payload => handle_app_topic_messages serve cfg payload
  | Step now => execute_step_actions serve cfg now
  | Tick clock loc => update (λ a, with_latest a clock loc)
  | Launch clock => launch serve cfg clock
  | Close clock => close serve cfg clock
  end.

Definition receive_all (ins : list input) (a : truck_app S) : truck_app S := foldl (λ a i, (receive i a).2) a ins.

Lemma super_quiet t : quiet (super_launch t) ∧ quiet (super_close t).
Proof.
  split; intros a; destruct (super_keeps t a _ (or_introl eq_refl)) as (H1 & H2 & H3);
    destruct (super_keeps t a _ (or_intror eq_refl)) as (H4 & H5 & H6); by split_and!.
Qed.

Lemma receive_keeps i : keeps one_haul (receive i).
Proof.
  destruct i; cbn [receive].
  - unfold handle_app_topic_messages. repeat keeps_step.
    apply keeps_bind; [apply assignment_keeps|intros _; apply keeps_ret].
  - unfold execute_step_actions. apply keeps_bind; [by apply quiet_one_haul; stays_step|intros _].
    apply keeps_bind; [apply refresh_keeps|intros _].
    apply keeps_bind; [apply quiet_one_haul, move_quiet|intros _].
    apply keeps_bind; [apply quiet_one_haul, move_quiet|intros _].
    apply keeps_bind; [apply consume_messages_keeps|intros _].
    apply keeps_bind; [apply workflow_keeps|intros _]. apply consume_messages_keeps.
  - by keeps_step.
  - apply quiet_one_haul, (stays_bind alike); [apply super_quiet|intros _; apply idle_quiet].
  - unfold close. apply yields_peek. intros t. apply yields_peek. intros l.
    apply keeps_bind.
    { destruct t; [|apply keeps_ret]. apply keeps_bind; [apply operations_haul|intros _; apply keeps_ret]. }
    intros _. apply quiet_one_haul, (stays_bind alike); [apply idle_quiet|intros _; apply super_quiet].
Qed.

End Facts.

(** ** Routes, dropoffs, and the end of a haul *)

Section Properties.
Context `{PyText, SimTime} {S : Type} `{!TruckWorld S} (serve : request → S → result response * S) (cfg : truck_config).

Definition real_routes (c : route_cache) : Prop :=
  Forall (λ e, is_real_route e.2.1 = true ∧ is_real_route e.2.2 = true) c.

Lemma cache_set_get c k v : key_eqb k k = true → cache_get (cache_set c k v) k = Some v.
Proof.
  intros Hk. unfold cache_get. induction c as [|e c IH]; cbn [cache_set].
  - rewrite filter_cons_True by done. done.
  - destruct (key_eqb e.1 k) eqn:E; [by rewrite filter_cons_True|].
    rewrite filter_cons_False; [done|]. by rewrite E.
Qed.

Lemma cache_set_real c k v : real_routes c → is_real_route v.1 = true → is_real_route v.2 = true → real_routes (cache_set c k v).
Proof.
  intros Hc H1 H2. unfold real_routes in *. induction Hc as [|e c He Hc IH]; cbn [cache_set]; [by repeat constructor|].
  destruct (key_eqb e.1 k); by constructor.
Qed.

Lemma cache_set_length c k v : (length (cache_set c k v) ≤ Datatypes.S (length c))%nat.
Proof. induction c as [|e c IH]; cbn; [done|]. destruct (key_eqb e.1 k); cbn; lia. Qed.

Lemma cache_put_length n c k v : 0 < n →
  (length (cache_put n c k v) ≤ Nat.max (length c) (Z.to_nat n))%nat.
Proof.
  intros Hn. unfold cache_put. pose proof (cache_set_length (tail c) k v). pose proof (cache_set_length c k v).
  destruct (_ && _) eqn:E.
  - apply andb_true_iff in E as [_ E%Z.leb_le]. destruct c as [|e c]; cbn in *; lia.
  - apply andb_false_iff in E as [E%Z.ltb_ge|E%Z.leb_gt]; lia.
Qed.

Lemma route_stamped s e a : ∃ r w, route_or_loud_failure serve s e a = (Ok (stamped_route r), with_haul a (with_world w (haul a))).
Proof.
  unfold route_or_loud_failure, on_haul, ask. destruct (serve _ _) as [r w]. eauto.
Qed.

(** C39: a job's routes are asked for once.  Planning fails only when a coordinate is no
    number; real routes are cached and given again, without a request, the next time;
    what is not a real route never enters the cache; and the cache does not outgrow
    its maximum. *)
Theorem routes_planned_once start pickup dropoff a r a' :
  routes_between serve cfg start pickup dropoff a = (r, a') →
  (real_routes (osrm_route_cache a) → real_routes (osrm_route_cache a')) ∧
  (0 < cache_max cfg →
    (length (osrm_route_cache a') ≤ Nat.max (length (osrm_route_cache a)) (Z.to_nat (cache_max cfg)))%nat) ∧
  match r with
  | Ok (reposition, loaded) =>
      is_real_route reposition = true → is_real_route loaded = true →
      (∀ k, route_cache_key start pickup dropoff = Ok k → key_eqb k k = true) →
      routes_between serve cfg start pickup dropoff a' = (Ok (reposition, loaded), a')
  | Raise e => route_cache_key start pickup dropoff = Raise e ∧ a' = a
  end.
Proof.
  unfold routes_between, mbind, eff_bind, mret, eff_ret, lift, peek.
  destruct (route_cache_key start pickup dropoff) as [k|e]; [|intros [= <- <-]; split_and!; auto with lia].
  destruct (cache_get (osrm_route_cache a) k) as [[r1 r2]|] eqn:Ec.
  { intros [= <- <-]. rewrite Ec. auto with lia. }
  destruct (route_stamped start pickup a) as (x & w & ->).
  destruct (route_stamped pickup dropoff (with_haul a (with_world w (haul a)))) as (y & w' & ->).
  destruct (is_real_route (stamped_route x)) eqn:Ex; [destruct (is_real_route (stamped_route y)) eqn:Ey|];
    intros [= <- <-]; cbn [osrm_route_cache with_haul with_cache update].
  - split_and!; [intros Hc; apply cache_set_real; [|done|done]; destruct (_ && _); [destruct Hc; [constructor|done]|done]
                |intros Hn; by apply cache_put_length|].
    intros _ _ Hk. specialize (Hk k eq_refl). unfold cache_put. by rewrite cache_set_get.
  - split_and!; [done|intros; lia|]. intros _ Hy. congruence.
  - split_and!; [done|intros; lia|]. intros Hx. congruence.
Qed.

(** The same truck on the same haul, but for the three fields a dropoff rewrites. *)
Definition same_truck (a a' : truck_app S) : Prop :=
  get_trip a' = get_trip a ∧
  ∀ k, k ∉ ["profile"; "_etag"; "_updated"] → get (resource a') k = get (resource a) k.

#[local] Instance same_truck_preorder : PreOrder same_truck.
Proof.
  split; [by intros a|]. intros a b c [H1 H2] [H3 H4]. split; [congruence|]. intros k Hk. by rewrite H4, H2.
Qed.

Lemma same_ask q : stays same_truck (on_haul (ask serve q)).
Proof. intros a. unfold on_haul, ask. by destruct (serve q (world (haul a))). Qed.

Lemma same_idle clock : stays same_truck (ensure_idle_trip serve cfg clock).
Proof. unfold ensure_idle_trip, idle_ping, idle_create. repeat first [apply same_ask | stays_step]. Qed.

Lemma same_dropoff loc name : stays same_truck (set_last_dropoff serve loc name).
Proof.
  unfold set_last_dropoff. destruct (_ && _); [refine (stays_ret same_truck _)|].
  apply (stays_bind same_truck); [refine (stays_peek same_truck _)|]. intros res.
  destruct (_ || _); [refine (stays_ret same_truck _)|]. apply (stays_try same_truck); [|refine (stays_ret same_truck _)].
  repeat first [apply same_ask | stays_step]. apply stays_update. intros a. split; [done|]. intros k Hk. by apply merge_patched_get.
Qed.

(** Recording where a haul ended is best effort: whatever the server answers, it
    raises nothing, the truck keeps its trip, its id and its [state] (so it stays
    assignable), and only the profile and the meta of the document change. *)
Theorem dropoff_is_best_effort loc name a :
  (set_last_dropoff serve loc name a).1 = Ok tt ∧ same_truck a (set_last_dropoff serve loc name a).2 ∧
  is_assignable (set_last_dropoff serve loc name a).2 = is_assignable a.
Proof.
  pose proof (same_dropoff loc name a) as Hs. split; [|split; [done|]].
  - unfold set_last_dropoff. destruct (_ && _); [done|]. unfold mbind at 1, eff_bind at 1, peek at 1.
    destruct (_ || _); [done|]. unfold try_except. by repeat case_match; destruct_or?; repeat match goal with x : unit |- _ => destruct x end.
  - destruct Hs as [Ht Hk]. unfold is_assignable, is_online. by rewrite Ht, Hk by set_solver.
Qed.


Lemma same_leaving clock : stays same_truck (end_idle_trip serve clock).
Proof. unfold end_idle_trip, idle_end. repeat first [apply same_ask | stays_step]. Qed.

Lemma same_plan loc order : stays same_truck (plan_routes_for_assignment serve cfg loc order).
Proof.
  assert (∀ s e, stays same_truck (route_or_loud_failure serve s e)) as Hroute.
  { intros s e a. unfold route_or_loud_failure. pose proof (same_ask (GetRoute (PDict s) (PDict e)) a) as Hq. by destruct (on_haul _ a). }
  unfold plan_routes_for_assignment, routes_between.
  repeat first [apply Hroute | stays_step | match goal with x : (_ * _)%type |- _ => destruct x end].
Qed.

Lemma enriched_order_get order collab k : k ∉ "_collaboration" :: PLAN_KEYS → get (enriched_order order collab) k = get order k.
Proof.
  rewrite not_elem_of_cons. intros [Hc Hk].
  assert (get (foldl d_del order PLAN_KEYS) k = get order k) as Hd.
  { unfold get, PLAN_KEYS in *. rewrite !not_elem_of_cons in Hk. destruct Hk as (H1 & H2 & H3 & H4 & _). cbn [foldl].
    by rewrite !d_get_del, !decide_False by (intros <-; done). }
  unfold enriched_order. destruct collab as [c|]; [|done]. destruct (_ && _); [|done].
  unfold get in *. by rewrite d_get_set_ne by (intros <-; done).
Qed.

Lemma enriched_truck_id base profile plan : get (enriched_truck base profile plan) "_id" = get base "_id".
Proof. destruct plan as [[? ?] [? ?]]. cbn. unfold get. by rewrite d_get_set_ne. Qed.

(** A job that is taken up is a haul of this truck, for that order. *)
Lemma assignment_creates `{!HaulServer serve} clock loc order collab a d a' :
  handle_assignment serve cfg clock loc order collab a = (Ok (Some d), a') →
  get d "truck" = get (resource a) "_id" ∧ get d "order" = get order "_id" ∧ in_state d Haul.initial.
Proof.
  unfold handle_assignment. intros Hr. apply bind_inv in Hr as (free & a1 & Hp & Hr). injection Hp as <- <-.
  destruct (is_assignable a); [cbn [negb] in Hr|done].
  apply bind_inv in Hr as ([] & a1 & Hp & Hr). pose proof (same_leaving clock a) as Hs1. rewrite Hp in Hs1.
  apply bind_inv in Hr as (plan & a2 & Hp' & Hr). pose proof (same_plan loc order a1) as Hs2. rewrite Hp' in Hs2.
  apply bind_inv in Hr as (base & a3 & Hb & Hr). injection Hb as <- <-.
  apply bind_inv in Hr as (profile & a3 & Hb & Hr). injection Hb as _ <-.
  apply bind_inv in Hr as (t & a3 & Hc & Hr).
  assert (t = d) as ->.
  { repeat (apply bind_inv in Hr as (? & ? & _ & Hr)). by injection Hr. }
  unfold on_haul in Hc. destruct (create_new_trip _ _ _ _ _ _ _) as [r m'] eqn:Ec. injection Hc as -> _.
  destruct (create_cases serve (haul_cfg cfg) _ _ _ _ _ _ _ Ec) as [_ [(Hno & _)|(id & x & [= <-] & _ & _ & _ & _ & Hs & Ht & Ho & _)]];
    [by destruct (Hno d)|].
  rewrite Ht, Ho, enriched_truck_id, enriched_order_get by (unfold PLAN_KEYS; set_solver).
  destruct Hs1 as [_ Hk1], Hs2 as [_ Hk2]. cbn [snd] in *. by rewrite Hk2, Hk1 by set_solver.
Qed.
End Properties.

Module TruckExamples.
Import RestServer.

#[local] Instance text : PyText := no_text.

#[local] Instance times : SimTime.
Proof.
  refine {| str_to_time := λ t, if decide (t = "07:00") then Some 25200 else if decide (t = "07:10") then Some 25800 else None;
            MIN_TIME := 0 |}.
  intros t z. repeat case_decide; by intros [= <-].
Defined.

Definition geo (x y : Z) : pyval := PDict [("type", PStr "Point"); ("coordinates", PList [PInt x; PInt y])].

(** A line from the depot to the port, halved at its middle. *)
#[local] Instance town : TruckWorld rest := {|
  polyline_decode := λ s, if decide (s = "line") then Some [(PInt 1, PInt 103); (PInt 2, PInt 104)] else None;
  point_along := λ coords f,
    PDict <$> (x ← (if f_ltb f (f_frac 1 2) then head coords else last coords);
               Some [("type", PStr "Point"); ("coordinates", x)]);
  strftime := λ t, if decide (t = 25200 * US) then "07:00" else "07:10";
  super_launch := λ _ a, (Ok tt, with_resource a (d_set (resource a) "state" (PStr "online")));
  super_close := λ _ a, (Ok tt, with_resource a (d_set (resource a) "state" (PStr "offline")));
|}.

#[local] Instance town_laws : TruckLaws serve.
Proof.
  split.
  - intros id w resp w'. cbn. destruct (find_entry (trucks w) id) as [[i e]|] eqn:E; intros [= <- _]; [intros _|done].
    destruct id; try done. cbn in E. destruct (d_get _ _); [|done]. injection E as <- <-. done.
  - intros t a a' [<-|<-]; split_and!; try done; cbn; unfold get; by rewrite d_get_set_ne.
Defined.

Definition cfg : truck_config :=
  TruckConfig (TripConfig "run" "container-logistics-sim" (PDict [("role", PStr "truck")]) None true)
    (PDict [("use_osrm_at_assignment", PBool true)]) [("role", PStr "truck")] "t1" 2.

Definition truck_doc : pydict := [("state", PStr "online"); ("profile", PDict [("haulier_id", PStr "A")])].

Definition start : truck_app rest :=
  TruckApp (TripManager None (Rest 2 [] [] [("truck-1", Entry 1 truck_doc)] [("port", "f1"); ("yard", "f2")]) [])
    (render "truck-1" (Entry 1 truck_doc)) None [] (geo 103 1) (geo 103 1) (PStr "07:00") None PNone true true [] [].

Definition job (truck : string) : pydict :=
  [("action", PStr "assigned_haul_trip"); ("truck_id", PStr truck);
   ("order", PDict [("_id", PStr "order-1"); ("pickup_loc", geo 104 2); ("dropoff_loc", geo 103 1);
                    ("profile", PDict [("pickup_facility_name", PStr "port"); ("dropoff_facility_name", PStr "yard")])])].

Definition gate (event : string) : pydict :=
  [("action", PStr "facility_workflow_event"); ("truck_id", PStr "truck-1");
   ("data", PDict [("event", PStr event); ("gate_index", PInt 0); ("service_time", PInt 60)])].

Definition day : list input :=
  [Launch (PStr "07:00"); Step (25200 * US); Deliver (job "truck-2"); Deliver (job "truck-1"); Deliver (job "truck-1");
   Step (25200 * US); Step (25800 * US);
   Deliver (gate "gate_slot_assigned_for_pickup"); Deliver (gate "pickup_gate_service_completed"); Step (25800 * US);
   Deliver (gate "gate_slot_assigned_for_dropoff"); Deliver (gate "dropoff_gate_service_completed"); Step (25800 * US);
   Step (25800 * US)].

Definition evening : truck_app rest := receive_all serve cfg day start.

(** A day: the job of another truck and the second copy of its own are ignored; the
    truck drives, is served at both gates, and is free again where it dropped off;
    its routes are in the cache. *)
Example a_day :
  map (λ msg, (msg.1, match get msg.2 "data" with PDict d => get d "event" | _ => PNone end)) (outbox (haul evening)) =
    [("run/order-1", PStr "order_assigned_to_truck"); ("run/f1", PStr "truck_arrived_pickup_queue");
     ("run/order-1", PStr "order_pickup_started"); ("run/order-1", PStr "order_pickup_completed");
     ("run/f2", PStr "truck_arrived_dropoff_queue"); ("run/order-1", PStr "order_dropoff_started");
     ("run/order-1", PStr "order_delivered")] ∧
  map (λ e, get (data e.2) "state") (trips (world (haul evening))) = [PStr "completed"] ∧
  is_assignable evening = true ∧ queue evening = [] ∧
  (match get (resource evening) "profile" with PDict p => get p "last_dropoff_facility_name" | _ => PNone end) = PStr "yard" ∧
  map (λ l, get l "lon") (locations evening) = map (λ x, PFloat (f_of_Z x)) [103; 103; 104; 104; 103; 103] ∧
  length (osrm_route_cache evening) = 1%nat.
Proof. vm_compute. repeat split. Qed.

Lemma start_one_haul : one_haul serve (PStr "truck-1") start.
Proof. split_and!; [done|done|]. intros id d Hd. by destruct id. Qed.


Definition depot : pydict := [("type", PStr "Point"); ("coordinates", PList [PInt 103; PInt 1])].
Definition port : pydict := [("type", PStr "Point"); ("coordinates", PList [PInt 104; PInt 2])].
Definition planned := routes_between serve cfg depot port depot start.

(** Planned once: the second time nothing is asked, and the state does not change. *)
Lemma routes_planned_once_witness :
  match planned.1 with
  | Ok (reposition, loaded) => routes_between serve cfg depot port depot planned.2 = (Ok (reposition, loaded), planned.2)
  | Raise _ => False
  end.
Proof.
  pose proof (routes_planned_once serve cfg depot port depot start planned.1 planned.2 (surjective_pairing planned)) as (_ & _ & Hp).
  revert Hp. assert (∃ r l, planned.1 = Ok (r, l) ∧ is_real_route r = true ∧ is_real_route l = true) as (r & l & -> & Hr & Hl).
  { eexists _, _. split; [vm_compute; reflexivity|]. by split. }
  intros Hp. apply Hp; [done|done|]. intros k Hk. vm_compute in Hk. injection Hk as <-. vm_compute. reflexivity.
Defined.

(** The day, up to the step that finds the haul completed. *)
Definition delivered : truck_app rest := receive_all serve cfg (take 13 day) start.


(** What the server answers a write with has no location: a parked truck writes its
    idle trip at every step, though it has not moved. *)
Example parked_truck_keeps_writing :
  let parked n := receive_all serve cfg (Launch (PStr "07:00") :: replicate n (Step (25200 * US))) start in
  map (λ n, serial (world (haul (parked n)))) [0; 1; 2; 3]%nat = [4; 5; 6; 7] ∧
  current_loc (parked 3%nat) = current_loc start.
Proof. vm_compute. repeat split. Qed.

(** A server that refuses one kind of transition. *)
Definition refusing (event : string) (q : request) (w : rest) : result response * rest :=
  match q with PatchTrip _ t _ _ => if decide (t = event) then answer w 503 [] else serve q w | _ => serve q w end.

(** An assignment whose transition fails leaves the haul created: no handler ever
    moves it on, and the truck takes no other job. *)
Example refused_assignment_strands_truck :
  let a := receive_all (refusing "assign") cfg [Launch (PStr "07:00"); Step (25200 * US); Deliver (job "truck-1")] start in
  let later := receive_all serve cfg (replicate 20 (Step (25800 * US)) ++ [Deliver (job "truck-1")]) a in
  (d ← get_trip later; Some (get d "state")) = Some (PStr "created") ∧
  is_assignable later = false ∧ outbox (haul later) = [] ∧ length (trips (world (haul later))) = 1%nat.
Proof. vm_compute. repeat split. Qed.
End TruckExamples.
