(* ===== verification/Analytics.v ===== *)
(** The analytics accumulators ([analytics/manager.py]): completed trips folded per
    truck, per haulier and per lane; the rebate ledger; collaboration gains; the
    planner and lane breakdowns; and the end-of-run recompute with its checkpoints.
    REST reads and the clock's parser are parameters; what is persisted is a list
    of documents. *)

From Stdlib Require Import SpecFloat.
From S2P Require Import Prelude PyValue Constraints Rebate HaulDuration.
Open Scope Z_scope.

(** ** Time *)

(** A clock as the manager holds it: a value of a document, or an instant. *)
Inductive clock : Set := Clock (v : pyval) | At (z : Z).

Definition no_clock : clock := Clock PNone.
Definition clock_truth (c : clock) : bool := match c with Clock v => truth v | At _ => true end.
Definition clock_or (a b : clock) : clock := if clock_truth a then a else b.

(** [_to_dt] *)
Definition to_dt `{SimTime} (c : clock) : result Z := match c with Clock v => to_time v | At z => Ok z end.

(** ** Data *)

(** What trucks and hauliers have in common. *)
Record work : Set := Work {
  empty_km : float64;
  loaded_km : float64;
  trip_count : Z;
  active_seconds : float64;
  dual_cycle_count : Z;
  chain_opportunities : Z;
}.

Record truck_acc : Set := TruckAcc {
  t_id : string;
  t_haulier_id : string;
  t_haulier_name : string;
  t_work : work;
  last_dropoff_facility_id : pyval;
  last_dropoff_loc : pyval;
}.

(** Collaboration gains. *)
Record sharing : Set := Sharing {
  jobs_shared_out : Z;
  jobs_carried_for_partners : Z;
  benefit_km_received : float64;
  unserveable_shares : Z;
  benefit_defined_n : Z;
  jobs_enabled : Z;
}.

(** The rebate ledger. *)
Record ledger : Set := Ledger {
  rebate_credited : float64;
  rebate_credited_pickup : float64;
  rebate_credited_dropoff : float64;
  arrivals_priced : Z;
  arrivals_unpriced : Z;
  unpriced_no_schedule : Z;
  unpriced_no_stamp : Z;
  unpriced_no_facility_id : Z;
  unpriced_unparseable : Z;
  arrivals_in_flight : Z;
  value_in_flight : float64;
  arrivals_abandoned : Z;
  value_abandoned : float64;
  rebate_currency : option string;
}.

Record haulier_acc : Set := HaulierAcc {
  h_id : string;
  h_name : string;
  h_work : work;
  h_trucks : gset string;
  h_sharing : sharing;
  h_ledger : ledger;
}.

Record lane : Set := Lane {
  from_loc : pyval;
  to_loc : pyval;
  loaded_trips : Z;
  lane_km : float64;
  by_haulier : list (string * Z);
  haulier_names : list (string * string);
}.

Record roster_entry : Set := RosterEntry { r_name : string; r_trucks : gset string }.

Record censoring : Set := Censoring {
  non_completed_trips : Z;
  terminal_instant : option Z;
  is_horizon_censoring : option bool;
}.

Definition new_work : work := Work f_zero f_zero 0 f_zero 0 0.
Definition new_sharing : sharing := Sharing 0 0 f_zero 0 0 0.
Definition new_ledger : ledger := Ledger f_zero f_zero f_zero 0 0 0 0 0 0 0 f_zero 0 f_zero None.

(** [_new_truck_acc], [_new_haulier_acc] *)
Definition new_truck_acc (truck haulier name : string) : truck_acc := TruckAcc truck haulier name new_work PNone PNone.
Definition new_haulier_acc (haulier name : string) : haulier_acc := HaulierAcc haulier name new_work ∅ new_sharing new_ledger.

(** The arrivals a trip records, and why one may not be priced. *)
Inductive leg : Set := Pickup | Dropoff.
Inductive unpriced : Set := NoSchedule | NoStamp | NoFacilityId | Unparseable.

Definition leg_name (l : leg) : string := match l with Pickup => "pickup" | Dropoff => "dropoff" end.

(** ** Rows *)

Record row : Set := Row {
  row_id : string;
  row_haulier_id : option string;
  row_haulier_name : string;
  num_orders_completed : Z;
  row_empty_km : float64;
  row_loaded_km : float64;
  row_total_km : float64;
  row_empty_ratio : float64;
  row_active_hours : float64;
  row_orders_per_day : float64;
  row_dual_cycle_count : Z;
  row_chain_opportunities : Z;
  row_dual_cycle_rate : float64;
}.

(** What a haulier's or a planner group's row has besides. *)
Record company_row : Set := CompanyRow {
  c_row : row;
  num_trucks : Z;
  c_sharing : sharing;
  mean_benefit_km : option float64;
  c_ledger : ledger;
}.

Record planner_row : Set := PlannerRow { p_row : company_row; p_members : list string; p_structure : pyval }.

Record lane_row : Set := LaneRow {
  l_id : string;
  a_loc : option (list pyval);
  b_loc : option (list pyval);
  ab_trips : Z;
  ba_trips : Z;
  ab_top_haulier : option string;
  ab_top_haulier_name : option string;
  ba_top_haulier : option string;
  ba_top_haulier_name : option string;
  backhaul_strength : Z;
  cross_haulier : bool;
  l_loaded_km : float64;
}.

Inductive rows : Set :=
| TruckRows (rs : list row)
| HaulierRows (rs : list company_row) (extra : option censoring)
| LaneRows (rs : list lane_row)
| PlannerRows (rs : list planner_row).

(** A document handed to [persist_kpi_breakdown]. *)
Record saved : Set := Saved { s_rows : rows; s_clock : clock; s_final : bool }.

(** ** State *)

Record manager : Set := Manager {
  trucks : list (string * truck_acc);
  hauliers : list (string * haulier_acc);
  lanes : list ((string * string) * lane);
  run_start : clock;
  window_start : clock;
  window_end : clock;
  shared_trip_count : Z;
  total_benefit : float64;
  structure_id : pyval;
  coop_components : list (list string);
  book_cache : option book;
  roster_cache : option (list (string * roster_entry));
  rebate_censoring : option censoring;
  idle_seconds_sum : float64;
  idle_count : Z;
  reads : nat;
  documents : list saved;
}.

Definition new_manager : manager :=
  Manager [] [] [] no_clock no_clock no_clock 0 f_zero PNone [] None None None f_zero 0 0 [].

Definition with_trucks (x : list (string * truck_acc)) (s : manager) : manager :=
  Manager x (hauliers s) (lanes s) (run_start s) (window_start s) (window_end s) (shared_trip_count s) (total_benefit s)
    (structure_id s) (coop_components s) (book_cache s) (roster_cache s) (rebate_censoring s) (idle_seconds_sum s)
    (idle_count s) (reads s) (documents s).
Definition with_hauliers (x : list (string * haulier_acc)) (s : manager) : manager :=
  Manager (trucks s) x (lanes s) (run_start s) (window_start s) (window_end s) (shared_trip_count s) (total_benefit s)
    (structure_id s) (coop_components s) (book_cache s) (roster_cache s) (rebate_censoring s) (idle_seconds_sum s)
    (idle_count s) (reads s) (documents s).
Definition with_lanes (x : list ((string * string) * lane)) (s : manager) : manager :=
  Manager (trucks s) (hauliers s) x (run_start s) (window_start s) (window_end s) (shared_trip_count s) (total_benefit s)
    (structure_id s) (coop_components s) (book_cache s) (roster_cache s) (rebate_censoring s) (idle_seconds_sum s)
    (idle_count s) (reads s) (documents s).
Definition with_run_start (x : clock) (s : manager) : manager :=
  Manager (trucks s) (hauliers s) (lanes s) x (window_start s) (window_end s) (shared_trip_count s) (total_benefit s)
    (structure_id s) (coop_components s) (book_cache s) (roster_cache s) (rebate_censoring s) (idle_seconds_sum s)
    (idle_count s) (reads s) (documents s).
Definition with_window (a b : clock) (s : manager) : manager :=
  Manager (trucks s) (hauliers s) (lanes s) (run_start s) a b (shared_trip_count s) (total_benefit s)
    (structure_id s) (coop_components s) (book_cache s) (roster_cache s) (rebate_censoring s) (idle_seconds_sum s)
    (idle_count s) (reads s) (documents s).
Definition with_shared (n : Z) (b : float64) (s : manager) : manager :=
  Manager (trucks s) (hauliers s) (lanes s) (run_start s) (window_start s) (window_end s) n b
    (structure_id s) (coop_components s) (book_cache s) (roster_cache s) (rebate_censoring s) (idle_seconds_sum s)
    (idle_count s) (reads s) (documents s).
Definition with_coop (id : pyval) (comps : list (list string)) (s : manager) : manager :=
  Manager (trucks s) (hauliers s) (lanes s) (run_start s) (window_start s) (window_end s) (shared_trip_count s) (total_benefit s)
    id comps (book_cache s) (roster_cache s) (rebate_censoring s) (idle_seconds_sum s)
    (idle_count s) (reads s) (documents s).
Definition with_book (b : option book) (s : manager) : manager :=
  Manager (trucks s) (hauliers s) (lanes s) (run_start s) (window_start s) (window_end s) (shared_trip_count s) (total_benefit s)
    (structure_id s) (coop_components s) b (roster_cache s) (rebate_censoring s) (idle_seconds_sum s)
    (idle_count s) (reads s) (documents s).
Definition with_roster (r : option (list (string * roster_entry))) (s : manager) : manager :=
  Manager (trucks s) (hauliers s) (lanes s) (run_start s) (window_start s) (window_end s) (shared_trip_count s) (total_benefit s)
    (structure_id s) (coop_components s) (book_cache s) r (rebate_censoring s) (idle_seconds_sum s)
    (idle_count s) (reads s) (documents s).
Definition with_censoring (c : option censoring) (s : manager) : manager :=
  Manager (trucks s) (hauliers s) (lanes s) (run_start s) (window_start s) (window_end s) (shared_trip_count s) (total_benefit s)
    (structure_id s) (coop_components s) (book_cache s) (roster_cache s) c (idle_seconds_sum s)
    (idle_count s) (reads s) (documents s).
Definition with_documents (d : list saved) (s : manager) : manager :=
  Manager (trucks s) (hauliers s) (lanes s) (run_start s) (window_start s) (window_end s) (shared_trip_count s) (total_benefit s)
    (structure_id s) (coop_components s) (book_cache s) (roster_cache s) (rebate_censoring s) (idle_seconds_sum s)
    (idle_count s) (reads s) d.

Definition with_idle (t : float64) (n : Z) (s : manager) : manager :=
  Manager (trucks s) (hauliers s) (lanes s) (run_start s) (window_start s) (window_end s) (shared_trip_count s) (total_benefit s)
    (structure_id s) (coop_components s) (book_cache s) (roster_cache s) (rebate_censoring s) t n (reads s) (documents s).
Definition with_reads (n : nat) (s : manager) : manager :=
  Manager (trucks s) (hauliers s) (lanes s) (run_start s) (window_start s) (window_end s) (shared_trip_count s) (total_benefit s)
    (structure_id s) (coop_components s) (book_cache s) (roster_cache s) (rebate_censoring s) (idle_seconds_sum s)
    (idle_count s) n (documents s).

(** A state change that cannot fail. *)
Definition update {S} (f : S → S) : eff S unit := λ s, (Ok tt, f s).
Definition read {S A} (f : S → A) : eff S A := λ s, (Ok (f s), s).

(** ** Changes of one accumulator *)

Definition modify_truck (id : string) (f : truck_acc → truck_acc) (s : manager) : manager :=
  match d_get (trucks s) id with Some a => with_trucks (d_set (trucks s) id (f a)) s | None => s end.
Definition modify_haulier (id : string) (f : haulier_acc → haulier_acc) (s : manager) : manager :=
  match d_get (hauliers s) id with Some a => with_hauliers (d_set (hauliers s) id (f a)) s | None => s end.

Definition ensure_truck (id haulier name : string) (s : manager) : manager :=
  match d_get (trucks s) id with Some _ => s | None => with_trucks (d_set (trucks s) id (new_truck_acc id haulier name)) s end.
Definition ensure_haulier (id name : string) (s : manager) : manager :=
  match d_get (hauliers s) id with Some _ => s | None => with_hauliers (d_set (hauliers s) id (new_haulier_acc id name)) s end.

Definition on_t_work (f : work → work) (a : truck_acc) : truck_acc :=
  TruckAcc (t_id a) (t_haulier_id a) (t_haulier_name a) (f (t_work a)) (last_dropoff_facility_id a) (last_dropoff_loc a).
Definition on_h_work (f : work → work) (a : haulier_acc) : haulier_acc :=
  HaulierAcc (h_id a) (h_name a) (f (h_work a)) (h_trucks a) (h_sharing a) (h_ledger a).
Definition on_sharing (f : sharing → sharing) (a : haulier_acc) : haulier_acc :=
  HaulierAcc (h_id a) (h_name a) (h_work a) (h_trucks a) (f (h_sharing a)) (h_ledger a).
Definition on_ledger (f : ledger → ledger) (a : haulier_acc) : haulier_acc :=
  HaulierAcc (h_id a) (h_name a) (h_work a) (h_trucks a) (h_sharing a) (f (h_ledger a)).
Definition on_trucks (f : gset string → gset string) (a : haulier_acc) : haulier_acc :=
  HaulierAcc (h_id a) (h_name a) (h_work a) (f (h_trucks a)) (h_sharing a) (h_ledger a).
Definition rename (n : string) (a : haulier_acc) : haulier_acc :=
  HaulierAcc (h_id a) n (h_work a) (h_trucks a) (h_sharing a) (h_ledger a).

(** A chained pair of trips, and a matched one. *)
Definition chained (w : work) : work :=
  Work (empty_km w) (loaded_km w) (trip_count w) (active_seconds w) (dual_cycle_count w) (chain_opportunities w + 1).
Definition matched (w : work) : work :=
  Work (empty_km w) (loaded_km w) (trip_count w) (active_seconds w) (dual_cycle_count w + 1) (chain_opportunities w).
Definition add_trip (empty loaded active : float64) (w : work) : work :=
  Work (f_add (empty_km w) empty) (f_add (loaded_km w) loaded) (trip_count w + 1) (f_add (active_seconds w) active)
    (dual_cycle_count w) (chain_opportunities w).
Definition dropped_at (fac loc : pyval) (a : truck_acc) : truck_acc :=
  TruckAcc (t_id a) (t_haulier_id a) (t_haulier_name a) (t_work a) fac loc.

(** [_count_unpriced] *)
Definition count_unpriced (r : unpriced) (l : ledger) : ledger :=
  Ledger (rebate_credited l) (rebate_credited_pickup l) (rebate_credited_dropoff l) (arrivals_priced l)
    (arrivals_unpriced l + 1)
    (match r with NoSchedule => unpriced_no_schedule l + 1 | _ => unpriced_no_schedule l end)
    (match r with NoStamp => unpriced_no_stamp l + 1 | _ => unpriced_no_stamp l end)
    (match r with NoFacilityId => unpriced_no_facility_id l + 1 | _ => unpriced_no_facility_id l end)
    (match r with Unparseable => unpriced_unparseable l + 1 | _ => unpriced_unparseable l end)
    (arrivals_in_flight l) (value_in_flight l) (arrivals_abandoned l) (value_abandoned l) (rebate_currency l).

(** A priced arrival is credited; the first one brings the label. *)
Definition credit (g : leg) (amount : float64) (label : option string) (l : ledger) : ledger :=
  Ledger (f_add (rebate_credited l) amount)
    (match g with Pickup => f_add (rebate_credited_pickup l) amount | Dropoff => rebate_credited_pickup l end)
    (match g with Dropoff => f_add (rebate_credited_dropoff l) amount | Pickup => rebate_credited_dropoff l end)
    (arrivals_priced l + 1) (arrivals_unpriced l) (unpriced_no_schedule l) (unpriced_no_stamp l)
    (unpriced_no_facility_id l) (unpriced_unparseable l) (arrivals_in_flight l) (value_in_flight l)
    (arrivals_abandoned l) (value_abandoned l)
    (match rebate_currency l with Some c => Some c | None => label end).

(** An arrival that will never be paid: cut off by the horizon, or abandoned. *)
Definition censor (horizon : bool) (amount : float64) (label : option string) (l : ledger) : ledger :=
  Ledger (rebate_credited l) (rebate_credited_pickup l) (rebate_credited_dropoff l) (arrivals_priced l)
    (arrivals_unpriced l) (unpriced_no_schedule l) (unpriced_no_stamp l) (unpriced_no_facility_id l) (unpriced_unparseable l)
    (if horizon then arrivals_in_flight l + 1 else arrivals_in_flight l)
    (if horizon then f_add (value_in_flight l) amount else value_in_flight l)
    (if horizon then arrivals_abandoned l else arrivals_abandoned l + 1)
    (if horizon then value_abandoned l else f_add (value_abandoned l) amount)
    (match rebate_currency l with Some c => Some c | None => label end).

Definition carry_for_partner (s : sharing) : sharing :=
  Sharing (jobs_shared_out s) (jobs_carried_for_partners s + 1) (benefit_km_received s) (unserveable_shares s)
    (benefit_defined_n s) (jobs_enabled s).
Definition share_out (s : sharing) : sharing :=
  Sharing (jobs_shared_out s + 1) (jobs_carried_for_partners s) (benefit_km_received s) (unserveable_shares s)
    (benefit_defined_n s) (jobs_enabled s).
Definition receive_benefit (b : float64) (s : sharing) : sharing :=
  Sharing (jobs_shared_out s) (jobs_carried_for_partners s) (f_add (benefit_km_received s) b) (unserveable_shares s)
    (benefit_defined_n s + 1) (jobs_enabled s).
Definition enable_job (s : sharing) : sharing :=
  Sharing (jobs_shared_out s) (jobs_carried_for_partners s) (benefit_km_received s) (unserveable_shares s + 1)
    (benefit_defined_n s) (jobs_enabled s + 1).

(** ** Reading a trip *)

Section Operations.
Context `{PyText, PyMath, TimeText, SimTime}.

(** [_trip_sort_key] *)
Definition trip_sort_key (trip : pydict) : Z :=
  match to_time (get trip "sim_clock") with Ok z => z | Raise _ => MIN_TIME end.

(** [_haversine_km]; nothing for a location that is no point. *)
Definition km_between (a b : pyval) : result (option float64) :=
  a ← as_point a;
  b ← as_point b;
  match a, b with
  | Some a, Some b => d ← haversine_km a b; Ok (Some d)
  | _, _ => Ok None
  end.

(** The road distance planned for a leg, or else the straight line. *)
Definition leg_km (trip : pydict) (name : string) (fallback : result (option float64)) : result (option float64) :=
  match (routes ← item (PDict trip) "routes"; planned ← item routes "planned"; l ← item planned name;
         d ← item l "distance"; py_float d) with
  | Ok m => if f_leb f_zero m then Ok (Some (f_div m (f_of_Z 1000))) else fallback
  | Raise KeyError | Raise TypeError | Raise ValueError => fallback
  | Raise e => Raise e
  end.

(** [_empty_km_of], [_loaded_km_of] *)
Definition empty_km_of (trip : pydict) : result (option float64) :=
  leg_km trip "repositioning_to_pickup"
    (meta ← dict_or_empty (get trip "meta");
     km_between (py_or (get meta "reposition_origin_loc") (get trip "current_loc")) (get trip "pickup_loc")).
Definition loaded_km_of (trip : pydict) : result (option float64) :=
  leg_km trip "loaded_to_dropoff" (km_between (get trip "pickup_loc") (get trip "dropoff_loc")).

(** [km or 0.0] *)
Definition km_or_zero (km : option float64) : float64 :=
  match km with Some k => if f_eqb k f_zero then f_zero else k | None => f_zero end.

(** [_haulier_of_trip] *)
Definition haulier_of_trip (trip : pydict) : result (string * string) :=
  meta ← dict_or_empty (get trip "meta");
  prof ← dict_or_empty (get meta "truck_profile");
  let hid := py_or (get prof "haulier_id") (PStr "unknown") in
  let hname := py_or (get prof "haulier_name") (PStr (py_str hid)) in
  Ok (py_str hid, py_str hname).

(** [_is_dual_cycle] *)
Definition DUAL_CYCLE_RADIUS_KM : float64 := f_frac 1 2.

Definition is_dual_cycle (prev_fac prev_loc pickup_fac pickup_loc : pyval) : result bool :=
  if is_none prev_fac || is_none pickup_fac then
    km ← km_between prev_loc pickup_loc;
    Ok (match km with Some km => f_leb km DUAL_CYCLE_RADIUS_KM | None => false end)
  else Ok (bool_decide (py_str prev_fac = py_str pickup_fac)).

(** ** Reads

    The collections the manager pages through; a request may be answered
    differently each time, or fail. *)

Inductive source : Set := Facilities | Fleet | CompletedTrips | OpenTrips | IdleTrips.

Variable fetch : nat → source → result (list pydict).

(** [_paged_where] *)
Definition request (q : source) : eff manager (list pydict) :=
  λ s, (fetch (reads s) q, with_reads (S (reads s)) s).

(** The same, with the exception caught. *)
Definition attempt {A} (m : eff manager A) : eff manager (result A) := λ s, let '(r, s') := m s in (Ok r, s').

(** [rebate_book]: kept once it was built from facilities that carry profiles. *)
Definition has_profile (d : pydict) : bool := match get d "profile" with PDict _ => true | _ => false end.

Definition rebate_book : eff manager book :=
  cached ← read book_cache;
  match cached with
  | Some b => mret b
  | None =>
      docs ← attempt (request Facilities);
      match docs with
      | Raise _ => mret []
      | Ok docs =>
          match from_facility_docs (PDict <$> docs) with
          | Raise _ => mret []
          | Ok b =>
              if decide (docs = []) then mret b
              else if bool_decide (b = []) && negb (existsb has_profile docs) then mret b
              else _ ← update (with_book (Some b)); mret b
          end
      end
  end.

(** ** Settlement *)

(** The book of one trip is read when its first arrival can be priced. *)
Definition trip_book (bk : option book) : eff manager book :=
  match bk with Some b => mret b | None => rebate_book end.

(** One arrival, settled to the carrier [hid]. *)
Definition settle_leg (stats meta : pydict) (hid : string) (bk : option book) (g : leg) : eff manager (option book) :=
  let when := get stats (leg_name g +:+ "_queue_arrival_time")%string in
  let facility := get meta (leg_name g +:+ "_facility_resource_id")%string in
  let unpriced_as (r : unpriced) (bk : option book) : eff manager (option book) :=
    _ ← update (modify_haulier hid (on_ledger (count_unpriced r))); mret bk in
  if is_none when then unpriced_as NoStamp bk
  else if is_none facility then unpriced_as NoFacilityId bk
  else
    b ← trip_book bk;
    match book_price_at b facility (Recorded when) with
    | Ok None => unpriced_as NoSchedule (Some b)
    | Ok (Some amount) =>
        _ ← update (modify_haulier hid (on_ledger (credit g amount (book_currency b)))); mret (Some b)
    | Raise ValueError | Raise TypeError => unpriced_as Unparseable (Some b)
    | Raise e => lift (Raise e)
    end.

(** [_settle_rebate_arrivals] *)
Definition settle_rebate_arrivals (trip meta : pydict) (hid : string) : eff manager unit :=
  stats ← lift (dict_or_empty (get trip "stats"));
  b ← settle_leg stats meta hid None Pickup;
  _ ← settle_leg stats meta hid b Dropoff;
  mret tt.

(** ** Accumulation *)

(** What both sides of a shared job are credited with. *)
Definition credit_owner (owner : string) (benefit : pyval) : eff manager unit :=
  _ ← update (ensure_haulier owner owner);
  _ ← update (modify_haulier owner (on_sharing share_out));
  if is_none benefit then update (modify_haulier owner (on_sharing enable_job))
  else
    match py_float benefit with
    | Ok b => update (modify_haulier owner (on_sharing (receive_benefit b)))
    | Raise TypeError | Raise ValueError => mret tt
    | Raise e => lift (Raise e)
    end.

Definition count_share (benefit : pyval) : eff manager unit :=
  _ ← update (λ s, with_shared (shared_trip_count s + 1) (total_benefit s) s);
  match py_float (py_or benefit (PFloat f_zero)) with
  | Ok b => update (λ s, with_shared (shared_trip_count s) (f_add (total_benefit s) b) s)
  | Raise TypeError | Raise ValueError => mret tt
  | Raise e => lift (Raise e)
  end.

Definition share_job (collab : pydict) (hid : string) : eff manager unit :=
  let owner := get collab "owner_haulier_id" in
  _ ← update (modify_haulier hid (on_sharing carry_for_partner));
  _ ← (if truth owner then credit_owner (py_str owner) (get collab "benefit_km") else mret tt);
  count_share (get collab "benefit_km").

Definition credit_sharing (meta : pydict) (hid : string) : eff manager unit :=
  collab ← lift (dict_or_empty (get meta "collaboration"));
  if truth (get collab "shared") then share_job collab hid else mret tt.

(** [_fold_loaded_lane] *)
Definition new_lane (from_loc to_loc : pyval) : lane := Lane from_loc to_loc 0 f_zero [] [].
Definition load_lane (hid name : string) (km : float64) (l : lane) : lane :=
  Lane (from_loc l) (to_loc l) (loaded_trips l + 1) (f_add (lane_km l) km)
    (d_set (by_haulier l) hid (default 0 (d_get (by_haulier l) hid) + 1)) (d_set (haulier_names l) hid name).

Definition fold_loaded_lane (from_fac to_fac from_loc to_loc : pyval) (hid name : string) (km : float64) (s : manager) :
  manager :=
  if is_none from_fac || is_none to_fac then s
  else if decide (py_str from_fac = py_str to_fac) then s
  else
    let key := (py_str from_fac, py_str to_fac) in
    with_lanes (d_set (lanes s) key (load_lane hid name km (default (new_lane from_loc to_loc) (d_get (lanes s) key)))) s.

(** The chain from the truck's previous trip. *)
Definition chain_trip (truck hid : string) (pickup_fac pickup_loc : pyval) : eff manager unit :=
  prev ← read (λ s, d_get (trucks s) truck);
  match prev with
  | Some t =>
      if is_none (last_dropoff_facility_id t) && is_none (last_dropoff_loc t) then mret tt
      else
        _ ← update (λ s, modify_haulier hid (on_h_work chained) (modify_truck truck (on_t_work chained) s));
        dual ← lift (is_dual_cycle (last_dropoff_facility_id t) (last_dropoff_loc t) pickup_fac pickup_loc);
        if dual : bool
        then update (λ s, modify_haulier hid (on_h_work matched) (modify_truck truck (on_t_work matched) s))
        else mret tt
  | None => mret tt
  end.

(** One trip of [accumulate_completed_trips]. *)
Definition accumulate_trip (trip : pydict) : eff manager unit :=
  if negb (truth (get trip "truck")) then mret tt
  else
    let truck := py_str (get trip "truck") in
    '(hid, name) ← lift (haulier_of_trip trip);
    meta ← lift (dict_or_empty (get trip "meta"));
    empty ← lift (empty_km_of trip);
    loaded ← lift (loaded_km_of trip);
    active ← lift (modeled_haul_duration_seconds trip);
    let pickup_fac := get meta "pickup_facility_resource_id" in
    let dropoff_fac := get meta "dropoff_facility_resource_id" in
    let work_done := add_trip (km_or_zero empty) (km_or_zero loaded) active in
    _ ← update (λ s, ensure_haulier hid name (ensure_truck truck hid name s));
    _ ← chain_trip truck hid pickup_fac (get trip "pickup_loc");
    _ ← update (modify_truck truck (dropped_at dropoff_fac (get trip "dropoff_loc")));
    _ ← update (λ s, modify_haulier hid (on_h_work work_done) (modify_truck truck (on_t_work work_done) s));
    _ ← update (modify_haulier hid (on_trucks (λ T, {[truck]} ∪ T)));
    _ ← settle_rebate_arrivals trip meta hid;
    _ ← credit_sharing meta hid;
    update (fold_loaded_lane pickup_fac dropoff_fac (get trip "pickup_loc") (get trip "dropoff_loc") hid name (km_or_zero loaded)).

Fixpoint accumulate_each (trips : list pydict) : eff manager unit :=
  match trips with
  | [] => mret tt
  | t :: trips => _ ← accumulate_trip t; accumulate_each trips
  end.

Definition by_clock : pydict → pydict → bool := on_key trip_sort_key Z.leb.

(** [accumulate_completed_trips] *)
Definition note_run_start (s : manager) : manager :=
  match run_start s with Clock PNone => with_run_start (window_start s) s | _ => s end.

Definition accumulate_completed_trips (trips : list pydict) : eff manager unit :=
  _ ← update note_run_start; accumulate_each (py_sorted by_clock trips).

(** [accumulate_idle_trips], [compute_avg_idle_time_seconds] *)
Definition idle_period (trip : pydict) : option Z :=
  match to_time (get trip "start_sim_clock"), to_time (get trip "sim_clock") with
  | Ok a, Ok b => if 0 <? b - a then Some (b - a) else None
  | _, _ => None
  end.

Definition add_idle_trip (s : manager) (trip : pydict) : manager :=
  match idle_period trip with
  | Some dt => with_idle (f_add (idle_seconds_sum s) (f_of_Z dt)) (idle_count s + 1) s
  | None => s
  end.

Definition accumulate_idle_trips : eff manager unit :=
  trips ← request IdleTrips; update (λ s, foldl add_idle_trip s trips).

Definition avg_idle_time_seconds (s : manager) : float64 :=
  if idle_count s <=? 0 then f_zero else f_div (idle_seconds_sum s) (f_of_Z (idle_count s)).

(** ** The fleet's roster *)

(** [fleet_haulier_roster]: read once it is not empty. *)
Definition add_to_roster (r : list (string * roster_entry)) (truck : pydict) : result (list (string * roster_entry)) :=
  prof ← dict_or_empty (get truck "profile");
  let hid := get prof "haulier_id" in
  if negb (truth hid) then Ok r
  else
    let e := default (RosterEntry (py_str (py_or (get prof "haulier_name") hid)) ∅) (d_get r (py_str hid)) in
    let T := match get truck "_id" with PNone => r_trucks e | tid => {[py_str tid]} ∪ r_trucks e end in
    Ok (d_set r (py_str hid) (RosterEntry (r_name e) T)).

Definition fleet_haulier_roster : eff manager (list (string * roster_entry)) :=
  cached ← read roster_cache;
  match cached with
  | Some r => mret r
  | None =>
      docs ← attempt (request Fleet);
      match docs with
      | Raise _ => mret []
      | Ok docs =>
          r ← lift (foldR add_to_roster [] docs);
          if decide (r = []) then mret r else _ ← update (with_roster (Some r)); mret r
      end
  end.

(** [_seed_haulier_roster] *)
Definition seed_haulier (s : manager) (e : string * roster_entry) : manager :=
  let name (a : haulier_acc) :=
    if bool_decide (h_name a = e.1) && negb (bool_decide (r_name e.2 = e.1)) then rename (r_name e.2) a else a in
  modify_haulier e.1 (λ a, on_trucks (λ T, r_trucks e.2 ∪ T) (name a)) (ensure_haulier e.1 (r_name e.2) s).

Definition seed_haulier_roster : eff manager unit :=
  r ← fleet_haulier_roster; update (λ s, foldl seed_haulier s r).

(** ** Rates and rows *)

(** [_elapsed_days]: at least an hour, and a day when a clock cannot be read. *)
Definition elapsed_days (start end_time : clock) : float64 :=
  match to_dt start, to_dt end_time with
  | Ok a, Ok b => f_max (f_div (f_of_Z (b - a)) (f_of_Z 86400)) (f_div (f_of_Z 1) (f_of_Z 24))
  | _, _ => f_of_Z 1
  end.

Definition sum_over {K A} (f : A → Z) (l : list (K * A)) : Z := foldr (λ kv n, f kv.2 + n) 0 l.

(** [orders_per_truck_day], [dual_cycle_rate], [shared_trip_rate], [total_benefit_km];
    [fleet_size] is the configured number of trucks, at least one. *)
Definition orders_per_truck_day (fleet_size : Z) (end_time : clock) (s : manager) : float64 :=
  f_div (f_div (f_of_Z (sum_over (trip_count ∘ t_work) (trucks s))) (f_of_Z (Z.max 1 fleet_size)))
    (elapsed_days (run_start s) end_time).
Definition ratio (n d : Z) : float64 := if 0 <? d then f_div (f_of_Z n) (f_of_Z d) else f_zero.
Definition dual_cycle_rate (s : manager) : float64 :=
  ratio (sum_over (dual_cycle_count ∘ t_work) (trucks s)) (sum_over (chain_opportunities ∘ t_work) (trucks s)).
Definition shared_trip_rate (s : manager) : float64 :=
  ratio (shared_trip_count s) (sum_over (trip_count ∘ t_work) (trucks s)).
Definition total_benefit_km (s : manager) : float64 := py_round3 (total_benefit s).

(** [_entity_row]: what every row has, and what a company's has besides. *)
Definition work_row (id : string) (haulier : option string) (name : string) (w : work) (elapsed : float64) : row :=
  let total := f_add (empty_km w) (loaded_km w) in
  Row id haulier name (trip_count w) (py_round3 (empty_km w)) (py_round3 (loaded_km w)) (py_round3 total)
    (if f_ltb f_zero total then py_round 10000 (f_div (empty_km w) total) else f_zero)
    (py_round3 (f_div (active_seconds w) (f_of_Z 3600)))
    (if f_ltb f_zero elapsed then py_round3 (f_div (f_of_Z (trip_count w)) elapsed) else f_zero)
    (dual_cycle_count w) (chain_opportunities w)
    (py_round 10000 (ratio (dual_cycle_count w) (chain_opportunities w))).

Definition truck_row (elapsed : float64) (a : truck_acc) : row :=
  work_row (t_id a) (Some (t_haulier_id a)) (t_haulier_name a) (t_work a) elapsed.

Definition rounded_sharing (s : sharing) : sharing :=
  Sharing (jobs_shared_out s) (jobs_carried_for_partners s) (py_round3 (benefit_km_received s)) (unserveable_shares s)
    (benefit_defined_n s) (jobs_enabled s).
Definition rounded_ledger (l : ledger) : ledger :=
  Ledger (py_round3 (rebate_credited l)) (py_round3 (rebate_credited_pickup l)) (py_round3 (rebate_credited_dropoff l))
    (arrivals_priced l) (arrivals_unpriced l) (unpriced_no_schedule l) (unpriced_no_stamp l) (unpriced_no_facility_id l)
    (unpriced_unparseable l) (arrivals_in_flight l) (py_round3 (value_in_flight l)) (arrivals_abandoned l)
    (py_round3 (value_abandoned l)) (rebate_currency l).

Definition company_row_of (elapsed : float64) (a : haulier_acc) : company_row :=
  let s := h_sharing a in
  CompanyRow (work_row (h_id a) None (h_name a) (h_work a) elapsed) (Z.of_nat (size (h_trucks a))) (rounded_sharing s)
    (if benefit_defined_n s =? 0 then None
     else Some (py_round3 (f_div (benefit_km_received s) (f_of_Z (benefit_defined_n s)))))
    (rounded_ledger (h_ledger a)).

(** [build_breakdown] *)
Definition build_truck_breakdown (end_time : clock) (s : manager) : list row :=
  truck_row (elapsed_days (run_start s) end_time) ∘ snd <$> trucks s.
Definition build_haulier_breakdown (end_time : clock) (s : manager) : list company_row :=
  company_row_of (elapsed_days (run_start s) end_time) ∘ snd <$> hauliers s.

(** [build_planner_breakdown]: every additive field of the members is summed, the
    first label that is not empty is kept. *)
Definition add_work (a b : work) : work :=
  Work (f_add (empty_km a) (empty_km b)) (f_add (loaded_km a) (loaded_km b)) (trip_count a + trip_count b)
    (f_add (active_seconds a) (active_seconds b)) (dual_cycle_count a + dual_cycle_count b)
    (chain_opportunities a + chain_opportunities b).
Definition add_sharing (a b : sharing) : sharing :=
  Sharing (jobs_shared_out a + jobs_shared_out b) (jobs_carried_for_partners a + jobs_carried_for_partners b)
    (f_add (benefit_km_received a) (benefit_km_received b)) (unserveable_shares a + unserveable_shares b)
    (benefit_defined_n a + benefit_defined_n b) (jobs_enabled a + jobs_enabled b).
Definition first_label (a b : option string) : option string :=
  match a with Some c => Some c | None => match b with Some "" => None | _ => b end end.
Definition add_ledger (a b : ledger) : ledger :=
  Ledger (f_add (rebate_credited a) (rebate_credited b)) (f_add (rebate_credited_pickup a) (rebate_credited_pickup b))
    (f_add (rebate_credited_dropoff a) (rebate_credited_dropoff b)) (arrivals_priced a + arrivals_priced b)
    (arrivals_unpriced a + arrivals_unpriced b) (unpriced_no_schedule a + unpriced_no_schedule b)
    (unpriced_no_stamp a + unpriced_no_stamp b) (unpriced_no_facility_id a + unpriced_no_facility_id b)
    (unpriced_unparseable a + unpriced_unparseable b) (arrivals_in_flight a + arrivals_in_flight b)
    (f_add (value_in_flight a) (value_in_flight b)) (arrivals_abandoned a + arrivals_abandoned b)
    (f_add (value_abandoned a) (value_abandoned b)) (first_label (rebate_currency a) (rebate_currency b)).
Definition add_member (agg a : haulier_acc) : haulier_acc :=
  HaulierAcc (h_id agg) (h_name agg) (add_work (h_work agg) (h_work a)) (h_trucks agg ∪ h_trucks a)
    (add_sharing (h_sharing agg) (h_sharing a)) (add_ledger (h_ledger agg) (h_ledger a)).

Definition sorted_members (members : list string) : list string := py_sorted String.leb members.

Definition planner_acc (members : list string) (found : list haulier_acc) : haulier_acc :=
  foldl add_member
    (new_haulier_acc ("planner:" +:+ String.concat "+" (sorted_members members))%string
       (String.concat " + " (sorted_members members))) found.

Definition planner_row_of (elapsed : float64) (s : manager) (members : list string) : option planner_row :=
  match omap (d_get (hauliers s)) members with
  | [] => None
  | found => Some (PlannerRow (company_row_of elapsed (planner_acc members found)) (sorted_members members) (structure_id s))
  end.

Definition build_planner_breakdown (end_time : clock) (s : manager) : list planner_row :=
  omap (planner_row_of (elapsed_days (run_start s) end_time) s) (coop_components s).

(** [_loc_coords] *)
Definition loc_coords (loc : pyval) : option (list pyval) :=
  match loc with
  | PDict d =>
      match get d "coordinates" with
      | PList (x :: y :: r) | PTuple (x :: y :: r) => Some (x :: y :: r)
      | _ => None
      end
  | PList (x :: y :: _) | PTuple (x :: y :: _) => Some [x; y]
  | _ => None
  end.

(** [max(by, key=by.get)]: the first of the largest. *)
Definition top_haulier (l : lane) : option string :=
  fst <$> foldl (λ best kv, match best with
                            | Some b => if b.2 <? kv.2 then Some kv else Some b
                            | None => Some kv
                            end) None (by_haulier l).

Definition lane_row_of (a b : string) (fwd rev : lane) : lane_row :=
  let name l := h ← top_haulier l; d_get (haulier_names l) h in
  LaneRow (a +:+ "|" +:+ b)%string (loc_coords (from_loc fwd)) (loc_coords (to_loc fwd)) (loaded_trips fwd) (loaded_trips rev)
    (top_haulier fwd) (name fwd) (top_haulier rev) (name rev) (Z.min (loaded_trips fwd) (loaded_trips rev))
    (match top_haulier fwd, top_haulier rev with Some h, Some h' => negb (bool_decide (h = h')) | _, _ => false end)
    (py_round 100 (f_add (lane_km fwd) (lane_km rev))).

Fixpoint pair_lanes (all : list ((string * string) * lane)) (seen : list (string * string))
    (l : list ((string * string) * lane)) : list lane_row :=
  match l with
  | [] => []
  | (a, b, fwd) :: l =>
      if decide ((a, b) ∈ seen) then pair_lanes all seen l
      else
        match d_get all (b, a) with
        | None => pair_lanes all ((a, b) :: seen) l
        | Some rev =>
            let seen := (b, a) :: (a, b) :: seen in
            if (loaded_trips fwd =? 0) || (loaded_trips rev =? 0) then pair_lanes all seen l
            else lane_row_of a b fwd rev :: pair_lanes all seen l
        end
  end.

Definition MAX_LANES : nat := 200.

(** Strongest corridors first. *)
Definition lane_strength (r : lane_row) : Z * Z := (backhaul_strength r, ab_trips r + ba_trips r).
Definition stronger (r r' : lane_row) : bool := pair_leb Z.leb Z.leb (lane_strength r') (lane_strength r).

(** [build_lane_breakdown] *)
Definition build_lane_breakdown (s : manager) : list lane_row :=
  take MAX_LANES (py_sorted stronger (pair_lanes (lanes s) [] (lanes s))).

(** ** Saving *)

(** [persist_kpi_breakdown]: without a clock nothing is sent. *)
Definition persist (r : rows) (c : clock) (final : bool) (s : manager) : manager :=
  match c with
  | Clock PNone | Clock (PStr "") => s
  | _ => with_documents (documents s ++ [Saved r c final]) s
  end.

(** [save_breakdowns] *)
Definition save_breakdowns (sim_clock : clock) (final : bool) : eff manager unit :=
  end_time ← read (λ s, clock_or (window_end s) (clock_or (run_start s) sim_clock));
  _ ← seed_haulier_roster;
  _ ← update (λ s, persist (TruckRows (build_truck_breakdown end_time s)) sim_clock final s);
  _ ← update (λ s, persist (HaulierRows (build_haulier_breakdown end_time s) (rebate_censoring s)) sim_clock final s);
  _ ← update (λ s, persist (LaneRows (build_lane_breakdown s)) sim_clock final s);
  update (λ s, match build_planner_breakdown end_time s with
               | [] => s
               | rs => persist (PlannerRows rs) sim_clock final s
               end).

(** ** What was priced and never paid *)

(** The clock of a trip that did not complete. *)
Definition cut_off (trip : pydict) : option Z := match to_time (get trip "sim_clock") with Ok z => Some z | Raise _ => None end.

Definition latest (l : list Z) : option Z :=
  foldl (λ m z, Some (match m with Some m => Z.max m z | None => z end)) None l.

Definition censoring_of (trips : list pydict) : censoring :=
  let clocks := omap cut_off trips in
  match trips with
  | [] => Censoring 0 None None
  | _ =>
      Censoring (Z.of_nat (length trips)) (latest clocks)
        (Some (match latest clocks with
               | Some t => bool_decide (length clocks = length trips) && forallb (Z.eqb t) clocks
               | None => false
               end))
  end.

Definition censor_leg (stats meta : pydict) (hid : string) (horizon : bool) (bk : option book) (g : leg) :
  eff manager (option book) :=
  let when := get stats (leg_name g +:+ "_queue_arrival_time")%string in
  let facility := get meta (leg_name g +:+ "_facility_resource_id")%string in
  if is_none when || is_none facility then mret bk
  else
    b ← trip_book bk;
    match book_price_at b facility (Recorded when) with
    | Ok (Some amount) =>
        _ ← update (modify_haulier hid (on_ledger (censor horizon amount (book_currency b)))); mret (Some b)
    | Ok None | Raise ValueError | Raise TypeError => mret (Some b)
    | Raise e => lift (Raise e)
    end.

(** A trip cut off at the terminal instant was in flight; one cut off before it was
    abandoned. *)
Definition censored (terminal : option Z) (trip : pydict) : bool :=
  match terminal, cut_off trip with Some t, Some c => c =? t | _, _ => true end.

Definition censor_trip (terminal : option Z) (bk : option book) (trip : pydict) : eff manager (option book) :=
  if negb (truth (get trip "truck")) then mret bk
  else
    '(hid, name) ← lift (haulier_of_trip trip);
    _ ← update (ensure_haulier hid name);
    _ ← update (modify_haulier hid (on_trucks (λ T, {[py_str (get trip "truck")]} ∪ T)));
    stats ← lift (dict_or_empty (get trip "stats"));
    meta ← lift (dict_or_empty (get trip "meta"));
    bk ← censor_leg stats meta hid (censored terminal trip) bk Pickup;
    censor_leg stats meta hid (censored terminal trip) bk Dropoff.

Fixpoint censor_each (terminal : option Z) (bk : option book) (trips : list pydict) : eff manager unit :=
  match trips with
  | [] => mret tt
  | t :: trips => bk ← censor_trip terminal bk t; censor_each terminal bk trips
  end.

(** [accumulate_forfeited_arrivals] *)
Definition accumulate_forfeited_arrivals : eff manager unit :=
  trips ← attempt (request OpenTrips);
  match trips with
  | Raise _ => mret tt
  | Ok trips =>
      _ ← update (with_censoring (Some (censoring_of trips)));
      censor_each (latest (omap cut_off trips)) None trips
  end.

(** ** The end-of-run recompute *)

Definition CHECKPOINT_INTERVAL : Z := 6 * 3600.

Definition reset (s : manager) : manager :=
  with_shared 0 f_zero (with_run_start no_clock (with_lanes [] (with_hauliers [] (with_trucks [] s)))).

(** [_flush] *)
Definition flush (window : clock) (final : bool) : eff manager unit :=
  _ ← update (λ s, with_window (run_start s) window s); save_breakdowns window final.

Definition fold_chunk (chunk : list pydict) : eff manager unit :=
  match chunk with [] => mret tt | _ => accumulate_completed_trips chunk end.

(** The checkpoints before a trip at [t]: the [while] loop, with the boundary and
    the trips not folded yet. *)
Fixpoint checkpoints (fuel : nat) (t last boundary : Z) (chunk : list pydict) : eff manager (Z * list pydict) :=
  match fuel with
  | O => mret (boundary, chunk)
  | S fuel =>
      if (boundary <? t) && (boundary <? last) then
        _ ← fold_chunk chunk;
        _ ← flush (At boundary) false;
        checkpoints fuel t last (boundary + CHECKPOINT_INTERVAL) []
      else mret (boundary, chunk)
  end.

Definition checkpoint_fuel (t boundary : Z) : nat := S (Z.to_nat (t - boundary)).

Fixpoint replay (last boundary : Z) (chunk trips : list pydict) : eff manager (list pydict) :=
  match trips with
  | [] => mret chunk
  | trip :: trips =>
      t ← lift (to_time (get trip "sim_clock"));
      '(boundary, chunk) ← checkpoints (checkpoint_fuel t boundary) t last boundary chunk;
      replay last boundary (chunk ++ [trip]) trips
  end.

(** [recompute_breakdowns_full] *)
Definition clock_of_trip (t : option pydict) : clock := Clock (match t with Some t => get t "sim_clock" | None => PNone end).

Definition recompute_breakdowns_full (sim_clock : clock) : eff manager unit :=
  _ ← update reset;
  trips ← request CompletedTrips;
  match py_sorted by_clock trips with
  | [] =>
      _ ← accumulate_forfeited_arrivals;
      _ ← update (with_window no_clock sim_clock);
      save_breakdowns sim_clock true
  | ordered =>
      let start := clock_of_trip (head ordered) in
      let end_time := clock_of_trip (list.last ordered) in
      _ ← update (with_run_start start);
      start_dt ← lift (to_dt start);
      end_dt ← lift (to_dt end_time);
      chunk ← replay end_dt (start_dt + CHECKPOINT_INTERVAL) [] ordered;
      _ ← fold_chunk chunk;
      _ ← accumulate_forfeited_arrivals;
      flush (clock_or end_time sim_clock) true
  end.

(** [set_cooperation]: only groups of several companies have a planner. *)
Definition group_of (v : pyval) : option (list string) :=
  match v with
  | PList (x :: y :: l) | PTuple (x :: y :: l) => Some (py_str <$> (x :: y :: l))
  | _ => None
  end.

Definition set_cooperation (coop : pyval) : eff manager unit :=
  match coop with
  | PDict d =>
      _ ← update (λ s, with_coop (get d "structure_id") (coop_components s) s);
      match py_or (get d "components") (PList []) with
      | PList l | PTuple l => update (λ s, with_coop (structure_id s) (omap group_of l) s)
      | PStr _ | PDict _ => update (λ s, with_coop (structure_id s) [] s)
      | _ => lift (Raise TypeError)
      end
  | _ => mret tt
  end.

(** [set_metric_window] *)
Definition set_metric_window (start end_time : clock) : eff manager unit := update (with_window start end_time).

(** ** What every operation keeps *)

Section Preserving.
Context {S : Type} (P : S → Prop).

Definition maintains {A} (m : eff S A) : Prop := ∀ s, P s → P (m s).2.

Lemma maintains_ret {A} (a : A) : maintains (mret a).
Proof. by intros s. Qed.

Lemma maintains_lift {A} (r : result A) : maintains (lift r).
Proof. by intros s. Qed.

Lemma maintains_read {A} (f : S → A) : maintains (read f).
Proof. by intros s. Qed.

Lemma maintains_update f : (∀ s, P s → P (f s)) → maintains (update f).
Proof. intros Hf s. apply Hf. Qed.

Lemma maintains_bind {A B} (m : eff S A) (k : A → eff S B) : maintains m → (∀ a, maintains (k a)) → maintains (m ≫= k).
Proof.
  intros Hm Hk s Hs. specialize (Hm s Hs). unfold mbind, eff_bind.
  destruct (m s) as [[a|e] s']; [by apply Hk|done].
Qed.

Lemma maintains_if {A} (b : bool) (m n : eff S A) : maintains m → maintains n → maintains (if b then m else n).
Proof. by destruct b. Qed.
End Preserving.

#[local] Hint Resolve maintains_ret maintains_lift maintains_read : openride.

(** *** Sums over accumulators *)

Lemma sum_over_set {K A} `{EqDecision K} (f : A → Z) (l : list (K * A)) k a :
  sum_over f (d_set l k a) = sum_over f l + f a - default 0 (f <$> d_get l k).
Proof.
  unfold sum_over. induction l as [|[k' b] l IH]; simpl; [lia|].
  destruct (decide (k = k')) as [->|]; simpl; lia.
Qed.

(** *** The books *)

Record company_ok (a : haulier_acc) : Prop := {
  arrivals_counted : arrivals_priced (h_ledger a) + arrivals_unpriced (h_ledger a) = 2 * trip_count (h_work a);
  reasons_counted :
    arrivals_unpriced (h_ledger a) = unpriced_no_schedule (h_ledger a) + unpriced_no_stamp (h_ledger a) +
                                     unpriced_no_facility_id (h_ledger a) + unpriced_unparseable (h_ledger a);
  chains_matched : 0 ≤ dual_cycle_count (h_work a) ≤ chain_opportunities (h_work a);
  benefits_counted : benefit_defined_n (h_sharing a) + jobs_enabled (h_sharing a) ≤ jobs_shared_out (h_sharing a);
  enabled_counted : unserveable_shares (h_sharing a) = jobs_enabled (h_sharing a);
  carried_counted : 0 ≤ jobs_carried_for_partners (h_sharing a) ≤ trip_count (h_work a);
}.

Definition lane_ok (l : lane) : Prop := loaded_trips l = sum_over id (by_haulier l) ∧ 0 < loaded_trips l.

Definition trips_of : list (string * haulier_acc) → Z := sum_over (trip_count ∘ h_work).
Definition carried_of : list (string * haulier_acc) → Z := sum_over (jobs_carried_for_partners ∘ h_sharing).
Definition lane_trips : list ((string * string) * lane) → Z := sum_over loaded_trips.

Definition book_ok (b : book) : Prop := Forall (λ kv, length (amounts kv.2) = 24%nat) b.

Record manager_ok (s : manager) : Prop := {
  same_trips : sum_over (trip_count ∘ t_work) (trucks s) = trips_of (hauliers s);
  same_chains : sum_over (chain_opportunities ∘ t_work) (trucks s) = sum_over (chain_opportunities ∘ h_work) (hauliers s);
  same_duals : sum_over (dual_cycle_count ∘ t_work) (trucks s) = sum_over (dual_cycle_count ∘ h_work) (hauliers s);
  each_company : Forall (λ kv, company_ok kv.2) (hauliers s);
  each_lane : Forall (λ kv, lane_ok kv.2 ∧ kv.1.1 ≠ kv.1.2) (lanes s);
  lanes_carried : lane_trips (lanes s) ≤ trips_of (hauliers s);
  shared_carried : shared_trip_count s ≤ carried_of (hauliers s);
  cached_ok b : book_cache s = Some b → book_ok b;
}.

(** A change of fields that the books do not look at. *)
Lemma manager_ok_ext s s' :
  trucks s' = trucks s → hauliers s' = hauliers s → lanes s' = lanes s → shared_trip_count s' = shared_trip_count s →
  (∀ b, book_cache s' = Some b → book_ok b) → manager_ok s → manager_ok s'.
Proof. intros Ht Hh Hl Hs Hb []. split; rewrite ?Ht, ?Hh, ?Hl, ?Hs; auto. Qed.

Lemma modify_haulier_get id f s a :
  d_get (hauliers s) id = Some a → hauliers (modify_haulier id f s) = d_set (hauliers s) id (f a).
Proof. intros Ha. unfold modify_haulier. by rewrite Ha. Qed.

Lemma modify_truck_get id f s a :
  d_get (trucks s) id = Some a → trucks (modify_truck id f s) = d_set (trucks s) id (f a).
Proof. intros Ha. unfold modify_truck. by rewrite Ha. Qed.

Lemma modify_truck_others id f s :
  hauliers (modify_truck id f s) = hauliers s ∧ lanes (modify_truck id f s) = lanes s ∧
  shared_trip_count (modify_truck id f s) = shared_trip_count s ∧ book_cache (modify_truck id f s) = book_cache s.
Proof. unfold modify_truck. by destruct (d_get _ _). Qed.

Lemma modify_haulier_others id f s :
  trucks (modify_haulier id f s) = trucks s ∧ lanes (modify_haulier id f s) = lanes s ∧
  shared_trip_count (modify_haulier id f s) = shared_trip_count s ∧ book_cache (modify_haulier id f s) = book_cache s.
Proof. unfold modify_haulier. by destruct (d_get _ _). Qed.

Lemma Forall_d_set {K V} `{EqDecision K} (P : K * V → Prop) d k v : Forall P d → P (k, v) → Forall P (d_set d k v).
Proof. rewrite !Forall_forall. intros Hd Hk p [Hp| ->]%elem_d_set; auto. Qed.

Lemma Forall_d_get {K V} `{EqDecision K} (P : K * V → Prop) d k v : Forall P d → d_get d k = Some v → P (k, v).
Proof. rewrite Forall_forall. intros Hd Hk. by apply Hd, d_get_Some_elem. Qed.

(** One change of a truck and its carrier that counts the same on both sides. *)
Definition gains (f : work → work) (trips chains duals : Z) : Prop :=
  ∀ w, trip_count (f w) = trip_count w + trips ∧ chain_opportunities (f w) = chain_opportunities w + chains ∧
       dual_cycle_count (f w) = dual_cycle_count w + duals.

Definition known (truck hid : string) (s : manager) : Prop :=
  is_Some (d_get (trucks s) truck) ∧ is_Some (d_get (hauliers s) hid).

Lemma known_modify truck hid f g s t h :
  known t h s → known t h (modify_haulier hid g (modify_truck truck f s)).
Proof.
  intros [Ht Hh]. unfold known, modify_haulier, modify_truck.
  destruct (d_get (trucks s) truck) eqn:E1; simpl; destruct (d_get (hauliers s) hid) eqn:E2; simpl; rewrite ?d_get_set;
    split; repeat case_decide; eauto.
Qed.

Lemma company_change f g truck hid s n c m :
  gains f n c m → 0 ≤ n → known truck hid s →
  (∀ a, company_ok a → company_ok (g a) ∧ (trip_count (h_work (g a)) = trip_count (h_work a) + n ∧
        chain_opportunities (h_work (g a)) = chain_opportunities (h_work a) + c ∧
        dual_cycle_count (h_work (g a)) = dual_cycle_count (h_work a) + m) ∧
        jobs_carried_for_partners (h_sharing a) ≤ jobs_carried_for_partners (h_sharing (g a))) →
  manager_ok s → manager_ok (modify_haulier hid g (modify_truck truck (on_t_work f) s)).
Proof.
  intros Hf Hn [[t Ht] [h Hh]] Hg Hok.
  destruct (modify_truck_others truck (on_t_work f) s) as (E1 & E2 & E3 & E4).
  pose proof (modify_truck_get truck (on_t_work f) s t Ht) as E5.
  set (s1 := modify_truck truck (on_t_work f) s) in *.
  destruct (modify_haulier_others hid g s1) as (F1 & F2 & F3 & F4).
  assert (hauliers (modify_haulier hid g s1) = d_set (hauliers s) hid (g h)) as F5
    by (rewrite (modify_haulier_get _ _ _ h) by (by rewrite E1); by rewrite E1).
  destruct Hok as [K1 K2 K3 K4 K5 K6 K7 K8].
  destruct (Hg h) as (G1 & (G2 & G3 & G4) & G5); [by apply (Forall_d_get _ _ _ _ K4 Hh)|].
  destruct (Hf (t_work t)) as (L1 & L2 & L3).
  unfold trips_of, carried_of in *.
  split; rewrite ?F1, ?F2, ?F3, ?F4, ?F5, ?E2, ?E3, ?E4, ?E5; unfold trips_of, carried_of;
    rewrite ?sum_over_set, ?Ht, ?Hh; cbn [compose fmap option_fmap option_map default from_option t_work on_t_work] in *;
    try done; try (unfold compose in *; simpl in *; lia).
  by apply Forall_d_set.
Qed.

Lemma ensure_truck_ok id hid name s : manager_ok s → manager_ok (ensure_truck id hid name s).
Proof.
  intros Hok. unfold ensure_truck. destruct (d_get (trucks s) id) eqn:E; [done|].
  destruct Hok. split; simpl; rewrite ?sum_over_set, ?E; simpl; unfold trips_of in *; try done; lia.
Qed.

Lemma new_company_ok id name : company_ok (new_haulier_acc id name).
Proof. split; simpl; lia. Qed.

Lemma ensure_haulier_ok id name s : manager_ok s → manager_ok (ensure_haulier id name s).
Proof.
  intros Hok. unfold ensure_haulier. destruct (d_get (hauliers s) id) eqn:E; [done|].
  destruct Hok. unfold trips_of, carried_of in *.
  split; simpl; unfold trips_of, carried_of; rewrite ?sum_over_set, ?E; simpl; try done; try lia.
  apply Forall_d_set; [done|apply new_company_ok].
Qed.

Lemma ensure_known truck hid name s : known truck hid (ensure_haulier hid name (ensure_truck truck hid name s)).
Proof.
  unfold known, ensure_haulier, ensure_truck.
  destruct (d_get (trucks s) truck) eqn:E1; simpl; destruct (d_get (hauliers s) hid) eqn:E2; simpl; rewrite ?d_get_set_eq; eauto.
Qed.

(** A change of one company alone, that keeps its counts of trips and pairs. *)
Lemma haulier_change g hid s :
  (∀ a, company_ok a → company_ok (g a) ∧ trip_count (h_work (g a)) = trip_count (h_work a) ∧
        chain_opportunities (h_work (g a)) = chain_opportunities (h_work a) ∧
        dual_cycle_count (h_work (g a)) = dual_cycle_count (h_work a) ∧
        jobs_carried_for_partners (h_sharing a) ≤ jobs_carried_for_partners (h_sharing (g a))) →
  manager_ok s → manager_ok (modify_haulier hid g s).
Proof.
  intros Hg Hok. unfold modify_haulier. destruct (d_get (hauliers s) hid) as [h|] eqn:Hh; [|done].
  destruct Hok as [K1 K2 K3 K4 K5 K6 K7 K8].
  destruct (Hg h) as (G1 & G2 & G3 & G4 & G5); [by apply (Forall_d_get _ _ _ _ K4 Hh)|].
  unfold trips_of, carried_of in *.
  split; simpl; unfold trips_of, carried_of; rewrite ?sum_over_set, ?Hh; simpl; unfold compose in *; try done; try lia.
  by apply Forall_d_set.
Qed.

(** *** Settlement *)

Lemma parse_length raw sc : parse_rebate_schedule raw = Ok sc → length (amounts sc) = 24%nat.
Proof. intros (c & points & acc & _ & _ & ->)%parse_inv. cbn [amounts]. by rewrite length_fmap, length_hours. Qed.

Lemma from_facility_docs_ok docs b : from_facility_docs docs = Ok b → book_ok b.
Proof.
  unfold from_facility_docs. assert (book_ok []) as Hnil by constructor. revert Hnil. generalize (@nil (string * schedule)).
  induction docs as [|d docs IH]; intros acc Hacc Hb; simpl in Hb; [by injection Hb as <-|].
  apply result_bind_inv in Hb as (b1 & Hb1 & Hb). apply (IH b1); [|done]. clear IH Hb.
  unfold add_facility in Hb1. destruct d; try (by injection Hb1 as <-).
  assert (∀ fid, match py_or (get d "profile") (PDict []) with
          | PDict prof =>
              let block := get prof "rebate" in
              if negb (truth block) then Ok acc
              else match parse_rebate_schedule block with
                   | Ok s => Ok (d_set acc (py_str fid) s)
                   | Raise e => if decide (e = RebateSpecError) then Ok acc else Raise e
                   end
          | _ => Raise AttributeError
          end = Ok b1 → book_ok b1) as Hgo.
  { intros fid Hf. destruct (py_or _ _); try done. cbv zeta in Hf. destruct (negb _); [by injection Hf as <-|].
    destruct (parse_rebate_schedule _) as [sc|e] eqn:Ep; [|case_decide; [by injection Hf as <-|done]].
    injection Hf as <-. apply Forall_d_set; [done|]. by eapply parse_length. }
  destruct (get d "_id"); try (by injection Hb1 as <-); by eapply Hgo.
Qed.

(** A change of a ledger that counts one more arrival. *)
Definition reasons (l : ledger) : Z :=
  unpriced_no_schedule l + unpriced_no_stamp l + unpriced_no_facility_id l + unpriced_unparseable l.
Definition counts_arrivals (n : Z) (f : ledger → ledger) : Prop :=
  ∀ l, arrivals_priced (f l) + arrivals_unpriced (f l) = arrivals_priced l + arrivals_unpriced l + n ∧
       arrivals_unpriced (f l) - reasons (f l) = arrivals_unpriced l - reasons l.

Lemma count_unpriced_counts r : counts_arrivals 1 (count_unpriced r).
Proof. intros l. unfold reasons. destruct r; simpl; lia. Qed.

Lemma credit_counts g a c : counts_arrivals 1 (credit g a c).
Proof. intros l. unfold reasons. destruct g; simpl; lia. Qed.

Lemma counts_arrivals_compose n m f g : counts_arrivals n f → counts_arrivals m g → counts_arrivals (n + m) (g ∘ f).
Proof. intros Hf Hg l. destruct (Hf l), (Hg (f l)). simpl. lia. Qed.

(** What is left of a state when the ledger of [hid] went through [f] and the book
    may have been read. *)
Record settled (hid : string) (f : ledger → ledger) (s s' : manager) : Prop := {
  st_trucks : trucks s' = trucks s;
  st_lanes : lanes s' = lanes s;
  st_shared : shared_trip_count s' = shared_trip_count s;
  st_cache b : book_cache s' = Some b → book_ok b;
  st_hauliers : hauliers s' = hauliers (modify_haulier hid (on_ledger f) s);
}.

Definition cache_ok (s : manager) : Prop := ∀ b, book_cache s = Some b → book_ok b.

Lemma rebate_book_ok s : cache_ok s →
  ∃ b s', rebate_book s = (Ok b, s') ∧ book_ok b ∧ cache_ok s' ∧ trucks s' = trucks s ∧ hauliers s' = hauliers s ∧
    lanes s' = lanes s ∧ shared_trip_count s' = shared_trip_count s.
Proof.
  intros Hc. unfold rebate_book, read, mbind, eff_bind, attempt, request, update, mret, eff_ret.
  assert (book_ok []) as Hnil by constructor.
  destruct (book_cache s) as [b|] eqn:E; [exists b, s; auto 10|].
  assert (cache_ok (with_reads (S (reads s)) s)) as Hc' by (intros b; simpl; rewrite E; done).
  destruct (fetch (reads s) Facilities) as [docs|e]; [|eexists _, _; eauto 10].
  destruct (from_facility_docs _) as [b|e] eqn:Eb; [|eexists _, _; eauto 10].
  apply from_facility_docs_ok in Eb.
  destruct (decide (docs = [])); [eexists _, _; eauto 10|].
  destruct (bool_decide _ && _); eexists _, _; split_and!; try done.
  intros b' [= <-]. done.
Qed.

Lemma book_price_at_total b facility w : book_ok b →
  (∃ a, book_price_at b facility w = Ok a) ∨ book_price_at b facility w = Raise ValueError.
Proof.
  intros Hb. unfold book_price_at. destruct (schedule_for b facility) as [sc|] eqn:E; [|eauto].
  assert (length (amounts sc) = 24%nat) as Hl.
  { unfold schedule_for in E. destruct facility; try done; by apply (Forall_d_get _ _ _ _ Hb E). }
  unfold price_at. assert ((∃ h, coerce_when w = Ok h) ∨ coerce_when w = Raise ValueError) as [[h ->]| ->].
  { unfold coerce_when. destruct w as [v|h]; [|eauto]. destruct v; eauto. cbv zeta.
    case_decide; [eauto|]. destruct (rfc1123_match _); [destruct (parsedate_hour _); [eauto|]; destruct (rfc1123_hour _); eauto|destruct (isoformat_hour _); eauto]. }
  - left. cbn [mbind result_bind]. unfold value_at.
    destruct (lookup_lt_is_Some_2 (amounts sc) (Z.to_nat (h mod HOURS_PER_DAY))) as [a ->]; [|eauto].
    rewrite Hl. unfold HOURS_PER_DAY. pose proof (Z.mod_pos_bound h 24). lia.
  - by right.
Qed.

Definition kept_book_ok (bk : option book) : Prop := ∀ b, bk = Some b → book_ok b.

Lemma trip_book_ok bk s : cache_ok s → kept_book_ok bk →
  ∃ b s', trip_book bk s = (Ok b, s') ∧ book_ok b ∧ cache_ok s' ∧ trucks s' = trucks s ∧ hauliers s' = hauliers s ∧
    lanes s' = lanes s ∧ shared_trip_count s' = shared_trip_count s.
Proof. intros Hc Hb. destruct bk as [b|]; [exists b, s; auto 10|]. by apply rebate_book_ok. Qed.

Lemma modify_haulier_hauliers id g s s' :
  hauliers s' = hauliers s → hauliers (modify_haulier id g s') = hauliers (modify_haulier id g s).
Proof. intros E. unfold modify_haulier. rewrite E. by destruct (d_get _ _). Qed.

Lemma settled_modify hid f s s' :
  trucks s' = trucks s → hauliers s' = hauliers s → lanes s' = lanes s → shared_trip_count s' = shared_trip_count s →
  cache_ok s' → settled hid f s (modify_haulier hid (on_ledger f) s').
Proof.
  intros Ht Hh Hl Hs Hc. destruct (modify_haulier_others hid (on_ledger f) s') as (E1 & E2 & E3 & E4).
  split; rewrite ?E1, ?E2, ?E3; auto; [intros b; rewrite E4; auto|]. by apply modify_haulier_hauliers.
Qed.

Lemma settle_leg_ok stats meta hid bk g s : cache_ok s → kept_book_ok bk →
  ∃ f bk' s', settle_leg stats meta hid bk g s = (Ok bk', s') ∧ counts_arrivals 1 f ∧ kept_book_ok bk' ∧ settled hid f s s'.
Proof.
  intros Hc Hb. unfold settle_leg.
  destruct (is_none _); [eexists _, _, _; split_and!; [done|apply count_unpriced_counts|done|by apply settled_modify]|].
  destruct (is_none _); [eexists _, _, _; split_and!; [done|apply count_unpriced_counts|done|by apply settled_modify]|].
  destruct (trip_book_ok bk s Hc Hb) as (b & s' & Hbook & Hbok & Hc' & Ht & Hh & Hl & Hs). rewrite (bind_ok _ _ _ _ _ Hbook).
  assert (kept_book_ok (Some b)) as Hk by (by intros ? [= <-]).
  destruct (book_price_at_total b (get meta (leg_name g +:+ "_facility_resource_id")%string)
    (Recorded (get stats (leg_name g +:+ "_queue_arrival_time")%string)) Hbok) as [[[a|] ->]| ->];
    eexists _, _, _; split_and!; try done; try (by apply settled_modify); auto using count_unpriced_counts, credit_counts.
Qed.

Lemma settled_trans hid f g s s1 s2 : settled hid f s s1 → settled hid g s1 s2 → settled hid (g ∘ f) s s2.
Proof.
  intros [Ht Hl Hs Hc Hh] [Ht' Hl' Hs' Hc' Hh']. split; try congruence; [done|].
  rewrite Hh'. unfold modify_haulier in *. destruct (d_get (hauliers s) hid) as [h|] eqn:E; simpl in *; rewrite Hh.
  - rewrite d_get_set_eq. simpl. rewrite ?Hh. by rewrite d_set_set.
  - rewrite E. by rewrite ?Hh.
Qed.

Lemma settle_ok trip meta hid s : cache_ok s → (∃ stats, dict_or_empty (get trip "stats") = Ok stats) →
  ∃ f s', settle_rebate_arrivals trip meta hid s = (Ok tt, s') ∧ counts_arrivals 2 f ∧ settled hid f s s'.
Proof.
  intros Hc [stats Hst]. unfold settle_rebate_arrivals.
  rewrite (bind_ok _ _ s stats s) by (unfold lift; by rewrite Hst).
  destruct (settle_leg_ok stats meta hid None Pickup s Hc) as (f & bk & s1 & E1 & Hf & Hbk & Hset1); [by intros ?|].
  rewrite (bind_ok _ _ _ _ _ E1).
  destruct (settle_leg_ok stats meta hid bk Dropoff s1 (st_cache _ _ _ _ Hset1) Hbk) as (g & bk' & s2 & E2 & Hg & _ & Hset2).
  rewrite (bind_ok _ _ _ _ _ E2). eexists _, _. split_and!; [done|exact (counts_arrivals_compose 1 1 f g Hf Hg)|]. by eapply settled_trans.
Qed.

(** *** One trip *)

Definition books_for (truck hid : string) (s : manager) : Prop := manager_ok s ∧ known truck hid s.

Ltac keep := repeat first
  [ apply maintains_ret | apply maintains_lift | apply maintains_read | apply maintains_if
  | apply maintains_bind; [|intros ?] ].

Lemma modify_both_compose truck hid f g f' g' s :
  modify_haulier hid g' (modify_truck truck f' (modify_haulier hid g (modify_truck truck f s))) =
  modify_haulier hid (g' ∘ g) (modify_truck truck (f' ∘ f) s).
Proof.
  unfold modify_haulier, modify_truck. destruct (d_get (trucks s) truck) eqn:Et; simpl;
    destruct (d_get (hauliers s) hid) eqn:Eh; simpl; rewrite ?Et, ?d_get_set_eq; simpl; rewrite ?Eh, ?d_get_set_eq; simpl;
    unfold with_hauliers, with_trucks; simpl; by rewrite ?d_set_set.
Qed.

Lemma on_both_ok f truck hid s c m :
  gains f 0 c m → 0 ≤ m ≤ c → books_for truck hid s →
  books_for truck hid (modify_haulier hid (on_h_work f) (modify_truck truck (on_t_work f) s)).
Proof.
  intros Hf Hm [Hok Hk]. split; [|by apply known_modify].
  apply (company_change f _ _ _ _ 0 c m); try done.
  intros a Ha. destruct (Hf (h_work a)) as (L1 & L2 & L3). destruct Ha.
  split; [split; cbn [on_h_work h_work h_sharing h_ledger]; lia|cbn [on_h_work h_work h_sharing]; lia].
Qed.

Lemma chain_trip_ok truck hid fac loc : maintains (books_for truck hid) (chain_trip truck hid fac loc).
Proof.
  intros s Hs. unfold chain_trip, read, update, lift, mbind, eff_bind, mret, eff_ret.
  destruct (d_get (trucks s) truck) as [t|]; [|done]. destruct (_ && _); [done|].
  assert (books_for truck hid (modify_haulier hid (on_h_work chained) (modify_truck truck (on_t_work chained) s)))
    by (apply (on_both_ok chained _ _ _ 1 0); [intros w; simpl; lia|lia|done]).
  destruct (is_dual_cycle _ _ _ _) as [[]|e]; [|done|done]. cbn [snd]. rewrite modify_both_compose.
  apply (on_both_ok (matched ∘ chained) _ _ _ 1 1); [intros w; simpl; lia|lia|done].
Qed.

(** Between the count of a trip and its last effect the sums leave room for it. *)
Definition room_for_lane (s : manager) : Prop := manager_ok s ∧ lane_trips (lanes s) < trips_of (hauliers s).
Definition room_for_share (s : manager) : Prop := room_for_lane s ∧ shared_trip_count s < carried_of (hauliers s).
Definition after_trip (hid : string) (s : manager) : Prop :=
  room_for_lane s ∧ ∃ h, d_get (hauliers s) hid = Some h ∧ jobs_carried_for_partners (h_sharing h) < trip_count (h_work h).

Lemma modify_haulier_compose id g g' s : modify_haulier id g' (modify_haulier id g s) = modify_haulier id (g' ∘ g) s.
Proof.
  unfold modify_haulier. destruct (d_get (hauliers s) id) eqn:E; simpl; [|by rewrite E].
  rewrite d_get_set_eq. unfold with_hauliers. simpl. by rewrite d_set_set.
Qed.

Lemma settled_trip truck hid e l a T f s s' :
  books_for truck hid s → counts_arrivals 2 f →
  settled hid f (modify_haulier hid (on_trucks T)
    (modify_haulier hid (on_h_work (add_trip e l a)) (modify_truck truck (on_t_work (add_trip e l a)) s))) s' →
  after_trip hid s'.
Proof.
  intros [Hok Hk] Hf [St Sl Ss Sc Sh]. pose proof Hk as [_ [h Hh]].
  rewrite modify_haulier_compose in St, Sl, Ss, Sh. rewrite modify_haulier_compose in Sh.
  set (w := add_trip e l a) in *. set (s1 := modify_truck truck (on_t_work w) s) in *.
  destruct (modify_haulier_others hid (on_trucks T ∘ on_h_work w) s1) as (E1 & E2 & E3 & E4).
  rewrite E1 in St. rewrite E2 in Sl. rewrite E3 in Ss.
  destruct (modify_truck_others truck (on_t_work w) s) as (F1 & F2 & F3 & F4). fold s1 in F1, F2, F3, F4.
  set (g := on_ledger f ∘ (on_trucks T ∘ on_h_work w)) in *.
  destruct (modify_haulier_others hid g s1) as (G1 & G2 & G3 & G4).
  assert (hauliers s' = d_set (hauliers s) hid (g h)) as Hs'
    by (rewrite Sh, (modify_haulier_get _ _ _ h) by (by rewrite F1); by rewrite F1).
  assert (company_ok h) as Hcomp by (destruct Hok; by apply (Forall_d_get _ _ _ _ each_company0 Hh)).
  assert (manager_ok (modify_haulier hid g s1)) as Hok1.
  { apply (company_change w g truck hid s 1 0 0); try done; [intros x; simpl; lia|].
    intros x Hx. destruct Hx, (Hf (h_ledger x)) as [L1 L2]. unfold reasons in L2.
    split; [split|]; cbn [g compose on_ledger on_trucks on_h_work h_work h_sharing h_ledger w add_trip trip_count
      dual_cycle_count chain_opportunities]; lia. }
  assert (lane_trips (lanes s') < trips_of (hauliers s')) as Hroom.
  { rewrite Sl, F2, Hs'. unfold trips_of. rewrite sum_over_set, Hh. destruct Hok. simpl. unfold trips_of, compose in *. lia. }
  split; [split; [|done]|].
  - apply (manager_ok_ext (modify_haulier hid g s1)); rewrite ?G1, ?G2, ?G3; try done.
  - exists (g h). rewrite Hs', d_get_set_eq. split; [done|]. destruct Hcomp.
    cbn [g compose on_ledger on_trucks on_h_work h_work h_sharing w add_trip trip_count]. lia.
Qed.

Lemma haulier_change_sums g hid s h :
  d_get (hauliers s) hid = Some h →
  trips_of (hauliers (modify_haulier hid g s)) = trips_of (hauliers s) + trip_count (h_work (g h)) - trip_count (h_work h) ∧
  carried_of (hauliers (modify_haulier hid g s)) =
    carried_of (hauliers s) + jobs_carried_for_partners (h_sharing (g h)) - jobs_carried_for_partners (h_sharing h).
Proof.
  intros Hh. rewrite (modify_haulier_get _ _ _ h Hh). unfold trips_of, carried_of. rewrite !sum_over_set, Hh. simpl.
  unfold compose. lia.
Qed.

(** A change of a company's sharing record that leaves room. *)
Lemma sharing_change f hid s :
  (∀ a, company_ok a → company_ok (on_sharing f a)) →
  (∀ x, jobs_carried_for_partners (f x) = jobs_carried_for_partners x) →
  room_for_share s → room_for_share (modify_haulier hid (on_sharing f) s).
Proof.
  intros Hf Hc [[Hok Hl] Hs]. destruct (modify_haulier_others hid (on_sharing f) s) as (E1 & E2 & E3 & E4).
  destruct (d_get (hauliers s) hid) as [h|] eqn:Hh; [|unfold modify_haulier; by rewrite Hh].
  destruct (haulier_change_sums (on_sharing f) hid s h Hh) as [S1 S2]. cbn [on_sharing h_work h_sharing] in S1, S2.
  rewrite Hc in S2. split; [split|]; rewrite ?E2, ?E3; [|lia|lia].
  apply haulier_change; [|done]. intros a Ha. split; [by apply Hf|]. cbn [on_sharing h_work h_sharing]. rewrite Hc. lia.
Qed.

Lemma ensure_haulier_room id name s : room_for_share s → room_for_share (ensure_haulier id name s).
Proof.
  intros [[Hok Hl] Hs]. split; [split; [by apply ensure_haulier_ok|]|];
    unfold ensure_haulier; destruct (d_get (hauliers s) id) eqn:E; try done; simpl; unfold trips_of, carried_of in *;
    rewrite sum_over_set, E; simpl; unfold compose in *; simpl; lia.
Qed.

Lemma shared_room x y s : room_for_lane s → x ≤ carried_of (hauliers s) → room_for_lane (with_shared x y s).
Proof. intros [[] Hl] Hx. split; [split|]; done. Qed.

Lemma credit_owner_ok owner benefit : maintains room_for_share (credit_owner owner benefit).
Proof.
  intros s Hs. unfold credit_owner, update, lift, mbind, eff_bind, mret, eff_ret.
  pose proof (ensure_haulier_room owner owner s Hs) as Hs1. set (s1 := ensure_haulier owner owner s) in *.
  assert (∀ f, (∀ x, jobs_carried_for_partners (f x) = jobs_carried_for_partners x) →
    (∀ a, company_ok a → company_ok (on_sharing f (on_sharing share_out a))) →
    room_for_share (modify_haulier owner (on_sharing f) (modify_haulier owner (on_sharing share_out) s1))) as Hgo.
  { intros f Hc Hf. rewrite modify_haulier_compose. by apply (sharing_change (f ∘ share_out)); [apply Hf|intros x; simpl; by rewrite Hc|]. }
  assert (room_for_share (modify_haulier owner (on_sharing share_out) s1)) as Hs2.
  { apply sharing_change; [|done|done]. intros a []. split; simpl; lia. }
  destruct (is_none benefit); [|destruct (py_float benefit) as [b|[]]]; cbn [snd]; try done;
    apply Hgo; try done; intros a []; split; simpl; lia.
Qed.

Lemma count_share_ok benefit s : room_for_share s → room_for_lane (count_share benefit s).2.
Proof.
  intros [Hx Hxs]. unfold count_share, update, lift, mbind, eff_bind, mret, eff_ret.
  destruct (py_float _) as [b|[]]; cbn [snd]; apply shared_room; try done; simpl; try lia; apply shared_room; try done; lia.
Qed.

Lemma carry_ok hid s : after_trip hid s → room_for_share (modify_haulier hid (on_sharing carry_for_partner) s).
Proof.
  intros [[Hok Hl] (h & Hh & Hcarry)].
  destruct (haulier_change_sums (on_sharing carry_for_partner) hid s h Hh) as [S1 S2].
  cbn [on_sharing h_work h_sharing carry_for_partner jobs_carried_for_partners] in S1, S2.
  destruct (modify_haulier_others hid (on_sharing carry_for_partner) s) as (E1 & E2 & E3 & E4).
  destruct Hok as [K1 K2 K3 K4 K5 K6 K7 K8]. pose proof (Forall_d_get _ _ _ _ K4 Hh) as Hc. simpl in Hc.
  split; [split|]; rewrite ?E2, ?E3; [|lia|lia].
  pose proof (modify_haulier_get hid (on_sharing carry_for_partner) s h Hh) as E5.
  unfold trips_of, carried_of in *.
  split; rewrite ?E1, ?E2, ?E3, ?E4, ?E5; unfold trips_of, carried_of; rewrite ?sum_over_set, ?Hh; simpl;
    unfold compose in *; simpl; try done; try lia.
  apply Forall_d_set; [done|]. destruct Hc. split; simpl; try lia; done.
Qed.

Lemma credit_sharing_ok meta hid s : after_trip hid s → room_for_lane (credit_sharing meta hid s).2.
Proof.
  intros Hs. unfold credit_sharing. unfold mbind at 1, eff_bind at 1, lift.
  destruct (dict_or_empty _) as [collab|e]; [|by destruct Hs].
  destruct (truth (get collab "shared")); [|by destruct Hs].
  unfold share_job. unfold mbind at 1, eff_bind at 1, update. apply carry_ok in Hs.
  unfold mbind, eff_bind. destruct (truth _); [|by apply count_share_ok].
  pose proof (credit_owner_ok (py_str (get collab "owner_haulier_id")) (get collab "benefit_km") _ Hs) as Hm.
  destruct (credit_owner _ _ _) as [[u|e] s2]; [by apply count_share_ok|by destruct Hm].
Qed.

Lemma sum_over_ext {K A} (f g : A → Z) (l : list (K * A)) : (∀ a, f a = g a) → sum_over f l = sum_over g l.
Proof. intros E. induction l as [|kv l IH]; simpl; [done|]. by rewrite E, IH. Qed.

Lemma load_lane_ok hid name km l : loaded_trips l = sum_over id (by_haulier l) → 0 ≤ loaded_trips l → lane_ok (load_lane hid name km l).
Proof.
  intros E Hp. split; simpl; [|lia]. rewrite sum_over_set, E. destruct (d_get (by_haulier l) hid); cbn; unfold id; lia.
Qed.

Lemma fold_loaded_lane_ok from to fl tl hid name km s :
  room_for_lane s → manager_ok (fold_loaded_lane from to fl tl hid name km s).
Proof.
  intros [Hok Hl]. unfold fold_loaded_lane. destruct (_ || _); [done|]. destruct (decide _) as [|Hne]; [done|].
  cbv zeta. set (key := (py_str from, py_str to)). destruct Hok as [K1 K2 K3 K4 K5 K6 K7 K8].
  assert (lane_ok (load_lane hid name km (default (new_lane fl tl) (d_get (lanes s) key)))) as Hlane.
  { destruct (d_get (lanes s) key) as [l|] eqn:E; [|by apply load_lane_ok].
    destruct (Forall_d_get _ _ _ _ K5 E) as [[E1 E2] _]. simpl in E1, E2. apply load_lane_ok; [done|simpl; lia]. }
  split; try done; simpl; [by apply Forall_d_set|].
  unfold lane_trips in *. rewrite sum_over_set. destruct (d_get (lanes s) key); simpl; lia.
Qed.

Lemma dropped_ok truck hid fac loc s : books_for truck hid s → books_for truck hid (modify_truck truck (dropped_at fac loc) s).
Proof.
  intros [Hok [[t Ht] Hh]]. destruct (modify_truck_others truck (dropped_at fac loc) s) as (E1 & E2 & E3 & E4).
  pose proof (modify_truck_get truck (dropped_at fac loc) s t Ht) as E5.
  split; [|split; [rewrite E5, d_get_set_eq; eauto|by rewrite E1]].
  destruct Hok. split; rewrite ?E1, ?E2, ?E3, ?E4, ?E5; try done; rewrite sum_over_set, Ht; simpl; unfold compose in *; simpl; lia.
Qed.

Lemma accumulate_trip_ok trip : maintains manager_ok (accumulate_trip trip).
Proof.
  intros s Hok. unfold accumulate_trip. destruct (negb _); [done|]. cbv zeta.
  set (truck := py_str (get trip "truck")).
  destruct (haulier_of_trip trip) as [[hid name]|e] eqn:Eh; [|done]. rewrite (bind_ok _ _ s (hid, name) s) by done.
  destruct (dict_or_empty (get trip "meta")) as [meta|e]; [|done]. rewrite (bind_ok _ _ s meta s) by done.
  destruct (empty_km_of trip) as [empty|e]; [|done]. rewrite (bind_ok _ _ s empty s) by done.
  destruct (loaded_km_of trip) as [loaded|e]; [|done]. rewrite (bind_ok _ _ s loaded s) by done.
  destruct (modeled_haul_duration_seconds trip) as [active|e] eqn:Ea; [|done]. rewrite (bind_ok _ _ s active s) by done.
  assert (∃ stats, dict_or_empty (get trip "stats") = Ok stats) as Hst
    by (unfold modeled_haul_duration_seconds in Ea; apply result_bind_inv in Ea as (st & Est & _); eauto).
  rewrite (bind_ok _ _ s tt (ensure_haulier hid name (ensure_truck truck hid name s))) by done.
  assert (books_for truck hid (ensure_haulier hid name (ensure_truck truck hid name s))) as Hb
    by (split; [by apply ensure_haulier_ok, ensure_truck_ok|apply ensure_known]).
  set (s1 := ensure_haulier _ _ _) in *.
  pose proof (chain_trip_ok truck hid (get meta "pickup_facility_resource_id") (get trip "pickup_loc") s1 Hb) as Hb2.
  unfold mbind at 1, eff_bind at 1. destruct (chain_trip _ _ _ _ s1) as [[u|e] s2]; [|by destruct Hb2].
  cbn [snd] in Hb2. set (w := add_trip (km_or_zero empty) (km_or_zero loaded) active).
  pose proof Hb2 as [Hok2 [[t Ht] _]].
  set (s3 := modify_truck truck (dropped_at (get meta "dropoff_facility_resource_id") (get trip "dropoff_loc")) s2).
  rewrite (bind_ok _ _ s2 tt s3) by done.
  assert (books_for truck hid s3) as Hb3 by (apply dropped_ok; done).
  rewrite (bind_ok _ _ s3 tt (modify_haulier hid (on_h_work w) (modify_truck truck (on_t_work w) s3))) by done.
  set (s4 := modify_haulier hid (on_trucks (λ T, {[truck]} ∪ T)) (modify_haulier hid (on_h_work w) (modify_truck truck (on_t_work w) s3))).
  rewrite (bind_ok _ _ _ tt s4) by done.
  assert (cache_ok s4) as Hc4.
  { intros b. unfold s4. rewrite !(proj2 (proj2 (proj2 (modify_haulier_others _ _ _)))), (proj2 (proj2 (proj2 (modify_truck_others _ _ _)))).
    destruct Hb3 as [Hok3 _]. by apply cached_ok. }
  destruct (settle_ok trip meta hid s4 Hc4 Hst) as (f & s5 & E5 & Hf & Hset). rewrite (bind_ok _ _ _ _ _ E5).
  pose proof (credit_sharing_ok meta hid s5 (settled_trip _ _ _ _ _ _ _ _ _ Hb3 Hf Hset)) as H6'.
  unfold mbind, eff_bind. destruct (credit_sharing meta hid s5) as [[u'|e] s6]; [|by destruct H6'].
  by apply fold_loaded_lane_ok.
Qed.

(** *** The other operations *)

Lemma same_books f : (∀ s, trucks (f s) = trucks s ∧ hauliers (f s) = hauliers s ∧ lanes (f s) = lanes s ∧
  shared_trip_count (f s) = shared_trip_count s ∧ book_cache (f s) = book_cache s) → maintains manager_ok (update f).
Proof.
  intros Hf s Hok. destruct (Hf s) as (E1 & E2 & E3 & E4 & E5). simpl. apply (manager_ok_ext s); try done.
  intros b. rewrite E5. by apply cached_ok.
Qed.

Lemma request_ok q : maintains manager_ok (request q).
Proof. intros s Hok. by apply (same_books (with_reads (S (reads s)))). Qed.

Lemma attempt_ok {A} (P : manager → Prop) (m : eff manager A) : maintains P m → maintains P (attempt m).
Proof. intros Hm s Hs. specialize (Hm s Hs). unfold attempt. by destruct (m s). Qed.

#[local] Hint Resolve request_ok attempt_ok : openride.

Lemma trip_book_keeps bk s : manager_ok s → kept_book_ok bk → 
  ∃ b s', trip_book bk s = (Ok b, s') ∧ book_ok b ∧ manager_ok s'.
Proof.
  intros Hok Hk. destruct (trip_book_ok bk s (cached_ok s Hok) Hk) as (b & s1 & E & Hb & Hc & E1 & E2 & E3 & E4).
  exists b, s1. split_and!; [done|done|]. by apply (manager_ok_ext s).
Qed.

Lemma accumulate_each_ok trips : maintains manager_ok (accumulate_each trips).
Proof.
  induction trips as [|t trips IH]; [apply maintains_ret|]. apply maintains_bind; [apply accumulate_trip_ok|done].
Qed.

Lemma accumulate_ok trips : maintains manager_ok (accumulate_completed_trips trips).
Proof.
  apply maintains_bind; [|intros _; apply accumulate_each_ok].
  apply same_books. intros s. unfold note_run_start. destruct (run_start s) as [v|z]; [destruct v|]; auto 6.
Qed.

Lemma seed_ok : maintains manager_ok seed_haulier_roster.
Proof.
  apply maintains_bind; [|intros r; apply maintains_update].
  - apply maintains_bind; [apply maintains_read|intros [r|]; [apply maintains_ret|]].
    apply maintains_bind; [auto with openride|intros [docs|e]; [|apply maintains_ret]].
    apply maintains_bind; [apply maintains_lift|intros r]. case_decide; [apply maintains_ret|].
    apply maintains_bind; [by apply same_books|intros _; apply maintains_ret].
  - intros s. revert s. induction r as [|e r IH]; intros s Hok; [done|]. simpl. apply IH. unfold seed_haulier.
    apply haulier_change; [|by apply ensure_haulier_ok]. intros a Ha. destruct (_ && _); simpl; (split; [by destruct Ha|lia]).
Qed.

Lemma persist_ok r c final s : manager_ok s → manager_ok (persist r c final s).
Proof. intros Hok. unfold persist. destruct c as [[| | | |[]| | |]|]; try done; by apply (same_books (with_documents _)). Qed.

Lemma save_ok c final : maintains manager_ok (save_breakdowns c final).
Proof.
  apply maintains_bind; [apply maintains_read|intros e]. apply maintains_bind; [apply seed_ok|intros _].
  do 3 (apply maintains_bind; [apply maintains_update; intros s Hs; by apply persist_ok|intros _]).
  apply maintains_update. intros s Hs. destruct (build_planner_breakdown e s); [done|by apply persist_ok].
Qed.

Lemma censor_leg_ok stats meta hid horizon bk g s : manager_ok s → kept_book_ok bk →
  ∃ bk' s', censor_leg stats meta hid horizon bk g s = (Ok bk', s') ∧ kept_book_ok bk' ∧ manager_ok s'.
Proof.
  intros Hok Hk. unfold censor_leg. destruct (_ || _); [by eexists _, _|].
  destruct (trip_book_keeps bk s Hok Hk) as (b & s' & E & Hb & Hok'). rewrite (bind_ok _ _ _ _ _ E).
  assert (kept_book_ok (Some b)) as Hk' by (by intros ? [= <-]).
  destruct (book_price_at_total b (get meta (leg_name g +:+ "_facility_resource_id")%string)
    (Recorded (get stats (leg_name g +:+ "_queue_arrival_time")%string)) Hb) as [[[a|] ->]| ->];
    eexists _, _; split_and!; try done.
  apply haulier_change; [|done]. intros x Hx. destruct Hx. destruct horizon; simpl; (split; [by split|lia]).
Qed.

Lemma censor_trip_ok terminal bk trip s : manager_ok s → kept_book_ok bk →
  manager_ok (censor_trip terminal bk trip s).2 ∧ (∀ bk', (censor_trip terminal bk trip s).1 = Ok bk' → kept_book_ok bk').
Proof.
  intros Hok Hk. unfold censor_trip. destruct (negb _); [split; [done|by intros ? [= <-]]|].
  destruct (haulier_of_trip trip) as [[hid name]|e]; [|done]. rewrite (bind_ok _ _ s (hid, name) s) by done.
  rewrite (bind_ok _ _ s tt (ensure_haulier hid name s)) by done.
  set (s2 := modify_haulier hid (on_trucks (λ T, {[py_str (get trip "truck")]} ∪ T)) (ensure_haulier hid name s)).
  rewrite (bind_ok _ _ _ tt s2) by done.
  assert (manager_ok s2) as Hok2.
  { apply haulier_change; [|by apply ensure_haulier_ok]. intros a Ha. destruct Ha. simpl. split; [by split|lia]. }
  destruct (dict_or_empty (get trip "stats")) as [stats|e]; [|done]. rewrite (bind_ok _ _ s2 stats s2) by done.
  destruct (dict_or_empty (get trip "meta")) as [meta|e]; [|done]. rewrite (bind_ok _ _ s2 meta s2) by done.
  destruct (censor_leg_ok stats meta hid (censored terminal trip) bk Pickup s2 Hok2 Hk) as (bk3 & s3 & E3 & Hk3 & Hok3).
  rewrite (bind_ok _ _ _ _ _ E3).
  destruct (censor_leg_ok stats meta hid (censored terminal trip) bk3 Dropoff s3 Hok3 Hk3) as (bk4 & s4 & E4 & Hk4 & Hok4).
  rewrite E4. split; [done|by intros ? [= <-]].
Qed.

Lemma forfeited_ok : maintains manager_ok accumulate_forfeited_arrivals.
Proof.
  apply maintains_bind; [auto with openride|intros [trips|e]; [|apply maintains_ret]].
  apply maintains_bind; [by apply same_books|intros _]. generalize (latest (omap cut_off trips)). intros terminal.
  assert (kept_book_ok None) as Hk by done. revert Hk. generalize (@None book).
  induction trips as [|t trips IH]; intros bk Hk s Hok; [done|]. simpl.
  destruct (censor_trip_ok terminal bk t s Hok Hk) as [Ho Hr].
  unfold mbind, eff_bind. destruct (censor_trip terminal bk t s) as [[bk'|e] s']; [|done]. apply IH; [by apply Hr|done].
Qed.

Lemma reset_ok s : manager_ok s → manager_ok (reset s).
Proof. intros []. by split. Qed.

Lemma flush_ok c final : maintains manager_ok (flush c final).
Proof. apply maintains_bind; [by apply same_books|intros _; apply save_ok]. Qed.

Lemma fold_chunk_ok chunk : maintains manager_ok (fold_chunk chunk).
Proof. destruct chunk; [apply maintains_ret|apply accumulate_ok]. Qed.

Lemma replay_ok last boundary chunk trips : maintains manager_ok (replay last boundary chunk trips).
Proof.
  revert boundary chunk. induction trips as [|trip trips IH]; intros boundary chunk; [apply maintains_ret|].
  apply maintains_bind; [apply maintains_lift|intros t]. apply maintains_bind; [|intros [b c]; apply IH].
  generalize (checkpoint_fuel t boundary). intros fuel. revert boundary chunk.
  induction fuel as [|fuel IHf]; intros boundary chunk; simpl; [apply maintains_ret|].
  apply maintains_if; [|apply maintains_ret]. apply maintains_bind; [apply fold_chunk_ok|intros _].
  apply maintains_bind; [apply flush_ok|intros _; apply IHf].
Qed.

Lemma recompute_ok c : maintains manager_ok (recompute_breakdowns_full c).
Proof.
  apply maintains_bind; [apply maintains_update, reset_ok|intros _].
  apply maintains_bind; [apply request_ok|intros trips]. destruct (py_sorted by_clock trips) as [|t ordered].
  - apply maintains_bind; [apply forfeited_ok|intros _].
    apply maintains_bind; [by apply same_books|intros _; apply save_ok].
  - apply maintains_bind; [by apply same_books|intros _]. do 2 (apply maintains_bind; [apply maintains_lift|intros ?]).
    apply maintains_bind; [apply replay_ok|intros chunk]. apply maintains_bind; [apply fold_chunk_ok|intros _].
    apply maintains_bind; [apply forfeited_ok|intros _; apply flush_ok].
Qed.

(** What is asked of a manager, in any order; a call that raises leaves what it had
    done. *)
Inductive op : Set :=
| SetCooperation (coop : pyval)
| SetMetricWindow (start end_time : clock)
| AccumulateCompleted (trips : list pydict)
| AccumulateIdle
| AccumulateForfeited
| Save (c : clock) (final : bool)
| Recompute (c : clock).

Definition call (o : op) : eff manager unit :=
  match o with
  | SetCooperation coop => set_cooperation coop
  | SetMetricWindow a b => set_metric_window a b
  | AccumulateCompleted trips => accumulate_completed_trips trips
  | AccumulateIdle => accumulate_idle_trips
  | AccumulateForfeited => accumulate_forfeited_arrivals
  | Save c final => save_breakdowns c final
  | Recompute c => recompute_breakdowns_full c
  end.

Definition after_calls (os : list op) : manager := foldl (λ s o, (call o s).2) new_manager os.

Lemma call_ok o : maintains manager_ok (call o).
Proof.
  destruct o; simpl; auto using accumulate_ok, forfeited_ok, save_ok, recompute_ok.
  - destruct coop; try apply maintains_ret. apply maintains_bind; [by apply same_books|intros _].
    destruct (py_or _ _); try apply maintains_lift; by apply same_books.
  - by apply same_books.
  - apply maintains_bind; [apply request_ok|intros trips]. apply same_books. intros s.
    assert (∀ s, let s' := foldl add_idle_trip s trips in trucks s' = trucks s ∧ hauliers s' = hauliers s ∧ lanes s' = lanes s ∧
      shared_trip_count s' = shared_trip_count s ∧ book_cache s' = book_cache s) as Hgo; [|apply Hgo].
    clear s. induction trips as [|t trips IH]; intros s; [done|]. simpl. destruct (IH (add_idle_trip s t)) as (E1 & E2 & E3 & E4 & E5).
    rewrite E1, E2, E3, E4, E5. unfold add_idle_trip. by destruct (idle_period t).
Qed.

Lemma after_calls_ok os : manager_ok (after_calls os).
Proof.
  unfold after_calls. assert (manager_ok new_manager) as Hok by (by split).
  revert Hok. generalize new_manager. induction os as [|o os IH]; intros s Hok; [done|]. simpl. by apply IH, call_ok.
Qed.

(** C37: the books balance.  After any sequence of calls, whatever the reads answer
    and also when a call raises half-way, the counts of trips, chained pairs and
    matched pairs agree over trucks and companies; each company has settled exactly
    two arrivals per trip, every unpriced one under one of the four reasons; it
    matched no more pairs than it had, carried no more shared jobs than trips, and
    received no more benefits and rescues than jobs it shared; lanes join different
    facilities and each counts its companies' trips. *)
Theorem books_balance (os : list op) : manager_ok (after_calls os).
Proof. apply after_calls_ok. Qed.

(** *** Cutting the run into windows *)

Lemma insert_sorted_app {A} (leb : A → A → bool) x l l' :
  Forall (λ y, leb x y = true) l' → insert_sorted leb x (l ++ l') = insert_sorted leb x l ++ l'.
Proof.
  intros Hx. induction l as [|y l IH]; simpl.
  - destruct l' as [|y l']; simpl; [done|]. by apply Forall_cons in Hx as [-> _].
  - destruct (leb x y); [done|]. by rewrite IH.
Qed.

Lemma py_sorted_app {A} (leb : A → A → bool) l l' :
  Forall (λ x, Forall (λ y, leb x y = true) l') l → py_sorted leb (l ++ l') = py_sorted leb l ++ py_sorted leb l'.
Proof.
  induction 1 as [|x l Hx Hl IH]; simpl; [done|]. rewrite IH. apply insert_sorted_app. by apply Forall_py_sorted.
Qed.

(** The clocks a trip's accumulation neither reads nor writes. *)
Definition reclock (r a b : clock) (s : manager) : manager := with_run_start r (with_window a b s).

Section Reclock.
Context (r a b : clock).

Definition ignores {A} (m : eff manager A) : Prop := ∀ s, m (reclock r a b s) = ((m s).1, reclock r a b (m s).2).

Lemma ignores_ret {A} (x : A) : ignores (mret x).
Proof. done. Qed.
Lemma ignores_lift {A} (x : result A) : ignores (lift x).
Proof. done. Qed.
Lemma ignores_read {A} (f : manager → A) : (∀ s, f (reclock r a b s) = f s) → ignores (read f).
Proof. intros Hf s. unfold read. by rewrite Hf. Qed.
Lemma ignores_update f : (∀ s, f (reclock r a b s) = reclock r a b (f s)) → ignores (update f).
Proof. intros Hf s. unfold update. by rewrite Hf. Qed.
Lemma ignores_bind {A B} (m : eff manager A) (k : A → eff manager B) : ignores m → (∀ x, ignores (k x)) → ignores (m ≫= k).
Proof.
  intros Hm Hk s. unfold mbind, eff_bind. rewrite Hm. destruct (m s) as [[x|e] s']; [apply Hk|done].
Qed.
Lemma ignores_if {A} (c : bool) (m n : eff manager A) : ignores m → ignores n → ignores (if c then m else n).
Proof. by destruct c. Qed.
Lemma ignores_case {A B} (x : result A) (k : A → eff manager B) (h : exn → eff manager B) :
  (∀ y, ignores (k y)) → (∀ e, ignores (h e)) → ignores (match x with Ok y => k y | Raise e => h e end).
Proof. by destruct x. Qed.

Lemma haulier_reclock id f s : modify_haulier id f (reclock r a b s) = reclock r a b (modify_haulier id f s).
Proof. unfold modify_haulier. simpl. by destruct (d_get _ _). Qed.
Lemma truck_reclock id f s : modify_truck id f (reclock r a b s) = reclock r a b (modify_truck id f s).
Proof. unfold modify_truck. simpl. by destruct (d_get _ _). Qed.
Lemma ensure_reclock id name s : ensure_haulier id name (reclock r a b s) = reclock r a b (ensure_haulier id name s).
Proof. unfold ensure_haulier. simpl. by destruct (d_get _ _). Qed.
Lemma ensure_truck_reclock id hid name s : ensure_truck id hid name (reclock r a b s) = reclock r a b (ensure_truck id hid name s).
Proof. unfold ensure_truck. simpl. by destruct (d_get _ _). Qed.
Lemma lane_reclock f t fl tl hid name km s :
  fold_loaded_lane f t fl tl hid name km (reclock r a b s) = reclock r a b (fold_loaded_lane f t fl tl hid name km s).
Proof. unfold fold_loaded_lane. destruct (_ || _); [done|]. by destruct (decide _). Qed.

Ltac ignoring := repeat first
  [ apply ignores_ret | apply ignores_lift | by apply ignores_read
  | apply ignores_update; intros ?; by rewrite ?truck_reclock, ?haulier_reclock, ?ensure_truck_reclock, ?ensure_reclock, ?lane_reclock
  | apply ignores_if | apply ignores_bind; [|intros ?]
  | match goal with |- ignores (match ?x with _ => _ end) => destruct x end ].

Lemma rebate_book_ignores : ignores rebate_book.
Proof.
  unfold rebate_book. apply ignores_bind; [by apply ignores_read|intros [c|]; [ignoring|]].
  apply ignores_bind; [intros s; unfold attempt, request; simpl; done|intros [docs|e]; [|ignoring]].
  destruct (from_facility_docs _); [|ignoring]. destruct (decide _); ignoring.
Qed.

Lemma settle_leg_ignores stats meta hid bk g : ignores (settle_leg stats meta hid bk g).
Proof.
  unfold settle_leg. cbv zeta. do 2 (apply ignores_if; [ignoring|]). apply ignores_bind; [|intros ?; ignoring].
  destruct bk; [ignoring|apply rebate_book_ignores].
Qed.

Lemma chain_trip_ignores truck hid fac loc : ignores (chain_trip truck hid fac loc).
Proof. unfold chain_trip. ignoring. Qed.

Lemma settle_ignores trip meta hid : ignores (settle_rebate_arrivals trip meta hid).
Proof.
  unfold settle_rebate_arrivals. apply ignores_bind; [ignoring|intros ?]. apply ignores_bind; [apply settle_leg_ignores|intros ?].
  apply ignores_bind; [apply settle_leg_ignores|intros ?]. ignoring.
Qed.

Lemma credit_sharing_ignores meta hid : ignores (credit_sharing meta hid).
Proof. unfold credit_sharing. ignoring. Qed.

Lemma accumulate_trip_ignores trip : ignores (accumulate_trip trip).
Proof.
  unfold accumulate_trip. cbv zeta. apply ignores_if; [ignoring|]. apply ignores_bind; [ignoring|intros [hid name]].
  do 5 (apply ignores_bind; [ignoring|intros ?]). apply ignores_bind; [apply chain_trip_ignores|intros ?].
  do 3 (apply ignores_bind; [ignoring|intros ?]). apply ignores_bind; [apply settle_ignores|intros ?].
  apply ignores_bind; [apply credit_sharing_ignores|intros ?]. ignoring.
Qed.

Lemma accumulate_each_ignores trips : ignores (accumulate_each trips).
Proof.
  induction trips as [|t trips IH]; [apply ignores_ret|]. apply ignores_bind; [apply accumulate_trip_ignores|done].
Qed.
End Reclock.

Lemma accumulate_each_app l l' s :
  accumulate_each (l ++ l') s = (_ ← accumulate_each l; accumulate_each l') s.
Proof.
  revert s. induction l as [|t l IH]; intros s; [done|]. cbn [app accumulate_each]. rewrite bind_bind.
  destruct (accumulate_trip t s) as [[u|e] s'] eqn:E; [|unfold mbind, eff_bind; by rewrite E].
  rewrite !(bind_ok _ _ _ _ _ E). apply IH.
Qed.

(** One tick of the analytics: the window, then the trips that completed in it. *)
Definition tick (w : clock * clock * list pydict) : eff manager unit :=
  _ ← set_metric_window w.1.1 w.1.2; accumulate_completed_trips w.2.

Fixpoint ticks (ws : list (clock * clock * list pydict)) : eff manager unit :=
  match ws with
  | [] => mret tt
  | w :: ws => _ ← tick w; ticks ws
  end.

(** No trip of a window completed after one of a later window. *)
Fixpoint in_order (ws : list (list pydict)) : Prop :=
  match ws with
  | [] => True
  | w :: ws => Forall (λ t, Forall (λ t', by_clock t t' = true) (concat ws)) w ∧ in_order ws
  end.

Lemma reclock_own s : reclock (run_start s) (window_start s) (window_end s) s = s.
Proof. by destruct s. Qed.

(** A tick of a run that has started. *)
Lemma tick_started w s : run_start s ≠ no_clock →
  tick w s = ((accumulate_each (py_sorted by_clock w.2) s).1,
    reclock (run_start s) w.1.1 w.1.2 (accumulate_each (py_sorted by_clock w.2) s).2).
Proof.
  intros Hr. rewrite <-(accumulate_each_ignores (run_start s) w.1.1 w.1.2).
  unfold tick, set_metric_window, accumulate_completed_trips, update. cbn [mbind eff_bind].
  unfold mbind, eff_bind. f_equal. unfold note_run_start, reclock. simpl.
  destruct (run_start s) as [v|z] eqn:E; [|by rewrite <-E; destruct s]. destruct v; by rewrite <-E; destruct s.
Qed.

Lemma ticks_started ws s : in_order (map snd ws) → run_start s ≠ no_clock →
  ∃ a b, ticks ws s = ((accumulate_each (py_sorted by_clock (concat (map snd ws))) s).1,
    reclock (run_start s) a b (accumulate_each (py_sorted by_clock (concat (map snd ws))) s).2).
Proof.
  revert s. induction ws as [|w ws IH]; intros s Ho Hr; simpl.
  { exists (window_start s), (window_end s). by rewrite reclock_own. }
  destruct Ho as [Hw Ho]. rewrite py_sorted_app by done. rewrite accumulate_each_app.
  set (m := accumulate_each (py_sorted by_clock w.2)) in *.
  unfold mbind, eff_bind. rewrite tick_started by done. fold m.
  destruct (m s) as [[u|e] s1] eqn:Em; cbn [fst snd]; [|by exists w.1.1, w.1.2].
  destruct (IH (reclock (run_start s) w.1.1 w.1.2 s1)) as (a & b & ->); [done|done|].
  exists a, b. rewrite accumulate_each_ignores. done.
Qed.

(** C38: windows are invisible.  However a run is cut into consecutive windows, as
    long as no trip completed after one of a later window, the ticks leave every
    accumulator, cache, count of reads and document, and the same exception if any,
    as one tick over all the trips does; only the bounds of the last window
    differ. *)
Theorem windows_invisible (w : clock * clock * list pydict) (ws : list (clock * clock * list pydict)) (s : manager)
    (Horder : in_order (map snd (w :: ws))) (Hstart : run_start s ≠ no_clock ∨ w.1.1 ≠ no_clock) :
  ∃ a b, ticks (w :: ws) s =
    ((tick (w.1, concat (map snd (w :: ws))) s).1, with_window a b (tick (w.1, concat (map snd (w :: ws))) s).2).
Proof.
  assert (∀ l, tick (w.1, l) s = tick (w.1, l) (with_run_start (match run_start s with Clock PNone => w.1.1 | r => r end) s)) as Hset.
  { intros l. unfold tick, set_metric_window, accumulate_completed_trips, update, mbind, eff_bind. f_equal. unfold note_run_start.
    simpl. destruct (run_start s) as [[]|z] eqn:E; simpl; try (by destruct s; simpl in *; rewrite <-E).
    by destruct w as [[[[]|] ?] ?]. }
  set (s1 := with_run_start _ s) in Hset.
  assert (run_start s1 ≠ no_clock) as Hr1.
  { unfold s1. simpl. destruct Hstart as [Hs|Hs]; destruct (run_start s) as [[]|]; try done. }
  assert (ticks (w :: ws) s = ticks (w :: ws) s1) as ->.
  { simpl. unfold mbind, eff_bind. specialize (Hset w.2). destruct w as [? ?]. cbn [fst snd] in *. by rewrite Hset. }
  rewrite Hset. destruct (ticks_started (w :: ws) s1 Horder Hr1) as (a & b & ->).
  rewrite tick_started by done. cbn [fst snd]. by exists a, b.
Qed.

(** *** Planner rows, and the recompute *)

Lemma add_member_ok a b : company_ok a → company_ok b → company_ok (add_member a b).
Proof. intros [] []. split; simpl; lia. Qed.

(** A planner group's accumulator balances as its members' do. *)
Lemma planner_acc_ok members found : Forall company_ok found → company_ok (planner_acc members found).
Proof.
  unfold planner_acc. generalize (new_company_ok ("planner:" +:+ String.concat "+" (sorted_members members))%string
    (String.concat " + " (sorted_members members))).
  generalize (new_haulier_acc ("planner:" +:+ String.concat "+" (sorted_members members))%string
    (String.concat " + " (sorted_members members))).
  intros acc Hacc Hf. revert acc Hacc. induction Hf as [|a found Ha _ IH]; intros acc Hacc; simpl; [done|].
  by apply IH, add_member_ok.
Qed.

(** The published denominators are those of the figures beside them: two arrivals
    per order, and a mean benefit exactly when a benefit was measured. *)
Lemma planner_rows_balance os end_time r : r ∈ build_planner_breakdown end_time (after_calls os) →
  arrivals_priced (c_ledger (p_row r)) + arrivals_unpriced (c_ledger (p_row r)) = 2 * num_orders_completed (c_row (p_row r)) ∧
  (mean_benefit_km (p_row r) = None ↔ benefit_defined_n (c_sharing (p_row r)) = 0).
Proof.
  unfold build_planner_breakdown. intros (members & Hm & Hr)%list_elem_of_omap. unfold planner_row_of in Hr.
  assert (Forall company_ok (omap (d_get (hauliers (after_calls os))) members)) as Hf.
  { apply Forall_forall. intros a (id & _ & Ha)%list_elem_of_omap.
    apply (Forall_d_get _ _ _ _ (each_company _ (after_calls_ok os)) Ha). }
  destruct (omap _ _) as [|a found]; [done|]. injection Hr as <-. apply planner_acc_ok with (members := members) in Hf.
  split; [apply Hf|]. cbn [p_row company_row_of mean_benefit_km c_sharing rounded_sharing benefit_defined_n].
  destruct (_ =? 0) eqn:E; [apply Z.eqb_eq in E|apply Z.eqb_neq in E]; split; congruence.
Qed.

(** The recompute starts from scratch: nothing it publishes depends on what was
    accumulated before. *)
Lemma recompute_forgets c s s' :
  window_start s = window_start s' → window_end s = window_end s' → structure_id s = structure_id s' →
  coop_components s = coop_components s' → book_cache s = book_cache s' → roster_cache s = roster_cache s' →
  rebate_censoring s = rebate_censoring s' → idle_seconds_sum s = idle_seconds_sum s' → idle_count s = idle_count s' →
  reads s = reads s' → documents s = documents s' →
  recompute_breakdowns_full c s = recompute_breakdowns_full c s'.
Proof.
  intros. unfold recompute_breakdowns_full, update, mbind, eff_bind.
  assert (reset s = reset s') as -> by (destruct s, s'; simpl in *; by subst). done.
Qed.

(** The [while] loop over the boundaries ends with the trip inside the next
    interval, or in the last one: the fuel is enough. *)
Lemma checkpoints_end fuel t last boundary chunk s b c s' :
  (Z.to_nat (t - boundary) < fuel)%nat → checkpoints fuel t last boundary chunk s = (Ok (b, c), s') → t ≤ b ∨ last ≤ b.
Proof.
  revert boundary chunk s. induction fuel as [|fuel IH]; intros boundary chunk s Hf Hrun; [lia|]. simpl in Hrun.
  destruct ((boundary <? t) && (boundary <? last)) eqn:E.
  - apply andb_true_iff in E as [E1%Z.ltb_lt E2%Z.ltb_lt].
    apply bind_inv in Hrun as (u & s1 & _ & Hrun). apply bind_inv in Hrun as (u' & s2 & _ & Hrun).
    apply IH in Hrun; [done|]. unfold CHECKPOINT_INTERVAL. lia.
  - injection Hrun as <- <- <-. apply andb_false_iff in E as [E%Z.ltb_ge|E%Z.ltb_ge]; auto.
Qed.
End Operations.

Module AnalyticsExamples.

#[local] Instance text : PyText := no_text.
#[local] Instance math : PyMath := flat_math.
#[local] Instance dates : TimeText.
Proof. by refine {| parsedate_hour := λ _, Some 18; rfc1123_hour := λ _, None; isoformat_hour := λ _, Some 18;
  epoch_hour := λ _, None |}; intros s h [= <-]. Defined.
#[local] Instance times : SimTime.
Proof.
  refine {| str_to_time := λ t, if decide (t = "dawn") then Some 20000 else if decide (t = "noon") then Some 43200
    else if decide (t = "dusk") then Some 70000 else None; MIN_TIME := 0 |}.
  intros t z. repeat case_decide; by intros [= <-].
Defined.

(** A facility that pays in the evening, and a fleet of two companies. *)
Definition yard : pydict := [("_id", PStr "yard"); ("profile", PDict [("rebate", RebateExamples.evening)])].
Definition trip (truck haulier clock pickup dropoff : string) (extra : pydict) : pydict :=
  [("truck", PStr truck); ("sim_clock", PStr clock);
   ("meta", PDict ([("truck_profile", PDict [("haulier_id", PStr haulier)]); ("pickup_facility_resource_id", PStr pickup);
                    ("dropoff_facility_resource_id", PStr dropoff)] ++ extra));
   ("stats", PDict [("pickup_queue_arrival_time", PStr "18:00")])].
Definition shared : pydict :=
  [("collaboration", PDict [("shared", PBool true); ("owner_haulier_id", PStr "b"); ("benefit_km", PFloat (f_of_Z 3))])].

Definition morning : list pydict := [trip "t2" "b" "noon" "yard" "port" []; trip "t1" "a" "dawn" "yard" "port" []].
Definition evening : list pydict := [trip "t1" "a" "dusk" "port" "yard" shared].

Definition server (broken : list pydict) (n : nat) (q : source) : result (list pydict) :=
  match q with
  | Facilities => Ok [yard]
  | CompletedTrips => Ok (morning ++ evening ++ broken)
  | OpenTrips => Ok []
  | _ => Raise (OtherError "unreachable")
  end.

Definition day : list (clock * clock * list pydict) :=
  [(At 0, At 50000, morning); (At 50000, At 90000, evening)].

(** The evening trip of [a] is a dual cycle, carried for [b], and paid nothing at
    the port, which has no schedule. *)
Definition figures (h : haulier_acc) : Z * Z * (Z * Z * Z) * (Z * Z) :=
  (trip_count (h_work h), dual_cycle_count (h_work h),
   (arrivals_priced (h_ledger h), unpriced_no_schedule (h_ledger h), unpriced_no_stamp (h_ledger h)),
   (jobs_carried_for_partners (h_sharing h), jobs_shared_out (h_sharing h))).

Example day_of_trips :
  (λ kv, (kv.1, figures kv.2)) <$> hauliers (ticks (server []) day new_manager).2 =
  [("a", (2, 1, (1, 1, 2), (1, 0))); ("b", (1, 0, (1, 0, 1), (0, 1)))].
Proof. by vm_compute. Qed.

Lemma windows_invisible_witness :
  (ticks (server []) day new_manager).1 = Ok tt ∧
  ∃ a b, ticks (server []) day new_manager =
    ((tick (server []) (At 0, At 50000, morning ++ evening) new_manager).1,
     with_window a b (tick (server []) (At 0, At 50000, morning ++ evening) new_manager).2).
Proof.
  split; [by vm_compute|].
  apply (windows_invisible (server []) (At 0, At 50000, morning) [(At 50000, At 90000, evening)] new_manager);
    [by repeat constructor|by right].
Defined.

(** The recompute publishes a checkpoint every six hours and the final document. *)
Example recompute_publishes :
  let '(r, s) := recompute_breakdowns_full (server []) (At 90000) new_manager in
  r = Ok tt ∧ (λ d, (s_clock d, s_final d)) <$> documents s =
    replicate 3 (At 41600, false) ++ replicate 3 (At 63200, false) ++ replicate 3 (Clock (PStr "dusk"), true).
Proof. by vm_compute. Qed.

(** One completed trip whose clock cannot be read, which the ordering of the trips
    tolerates, and the final document is never saved. *)
Example unreadable_clock_stops_the_recompute :
  let '(r, s) := recompute_breakdowns_full (server [trip "t9" "a" "?" "yard" "port" []]) (At 90000) new_manager in
  r = Raise ValueError ∧ documents s = [].
Proof. by vm_compute. Qed.

(** The scan for forfeited arrivals is documented never to raise. *)
Example forfeited_scan_may_raise :
  let open_trips (n : nat) (q : source) := Ok [[("truck", PStr "t1"); ("meta", PStr "?")]] in
  (accumulate_forfeited_arrivals open_trips new_manager).1 = Raise AttributeError.
Proof. by vm_compute. Qed.
End AnalyticsExamples.
