(* ===== verification/AssignmentManager.v ===== *)
(** The REST reads of the assignment service ([assignment/manager.py]): one-request
    aggregations with a paginated fallback, and the cache of facility ids.  What
    the server answers is the parameter [Rest]. *)

From S2P Require Import Prelude PyValue.
Open Scope Z_scope.

(** ** Requests and answers *)

(** What the reads ask for. *)
Inductive query := OnlineTrucks | AllTrucks | UnassignedOrders | HaulTripTrucks | HaulTripOrders.

(** An aggregation endpoint, some with a limit, or one page (counted from 1) of a [where] query; a
    facility is looked up by its name. *)
Inductive request :=
| Aggregate (q : query) (limit : option Z)
| PageOf (q : query) (page max_results : Z)
| FacilityNamed (name : string).

#[export] Instance query_eq_dec : EqDecision query.
Proof. solve_decision. Defined.

(** The status code, and [_items] of the JSON body ([[]] when missing; decoding
    the body may raise). *)
Record answer := Answer { status_code : Z; items : result (list doc) }.

(** The server; a request may raise, as on a lost connection. *)
Class Rest := rest : request → result answer.

Section Manager.
Context `{PyText, Rest}.

Definition DEFAULT_PAGE_SIZE : Z := 500.
Definition DEFAULT_MAX_ORDERS_PER_TICK : Z := 500.

Record manager := Manager {
  page_size : Z;
  max_orders_per_tick : Z;
  aggregates_enabled : option bool;
  facility_resource_id_cache : gmap string (option string);
}.

Definition new_manager (prof : pydict) : result manager :=
  p ← py_int (get_or prof "assignment_page_size" (PInt DEFAULT_PAGE_SIZE));
  o ← py_int (get_or prof "max_orders_per_tick" (PInt DEFAULT_MAX_ORDERS_PER_TICK));
  Ok (Manager (Z.max 1 p) (Z.max 1 o) None ∅).

Definition with_enabled (b : bool) (m : manager) : manager :=
  Manager (page_size m) (max_orders_per_tick m) (Some b) (facility_resource_id_cache m).

Definition with_cached (name : string) (fid : option string) (m : manager) : manager :=
  Manager (page_size m) (max_orders_per_tick m) (aggregates_enabled m)
  (<[name := fid]> (facility_resource_id_cache m)).

(** [_get] *)
Definition get_items (r : request) : result (list doc) :=
  a ← rest r;
  if is_success (status_code a) then items a else Raise (OtherError "RuntimeError").

(** [_try_aggregate_items] *)
Definition try_aggregate_items (q : query) (limit : option Z) : eff manager (option (list doc)) := λ m,
  if decide (aggregates_enabled m = Some false) then (Ok None, m)
  else
  match get_items (Aggregate q limit) with
  | Raise _ => (Ok None, with_enabled false m)
  | Ok l => (Ok (Some l), with_enabled true m)
  end.

(** The loop of [_paged_where], from [page] on with what was read so far; [None]
when it is still reading after [fuel] pages. *)
Fixpoint paged_from (fuel : nat) (q : query) (size : Z) (max_results : option Z) (page : Z)
  (acc : list doc) : option (result (list doc)) :=
  match fuel with
  | O => None
  | S fuel =>
    match get_items (PageOf q page size) with
    | Raise e => Some (Raise e)
    | Ok [] => Some (Ok acc)
    | Ok batch =>
        let acc := acc ++ batch in
        match max_results with
        | Some k => if k <=? Z.of_nat (length acc) then Some (Ok (take (Z.to_nat k) acc))
                    else paged_from fuel q size max_results (page + 1) acc
        | None => paged_from fuel q size max_results (page + 1) acc
        end
    end
  end.

(** [_paged_where]; a [max_results] of 0 counts as none for the page size. *)
Definition paged_where (fuel : nat) (q : query) (max_results : option Z) (m : manager) :
  option (result (list doc)) :=
  let size := match max_results with
            | Some k => if k =? 0 then page_size m else k
            | None => page_size m
            end in
  paged_from fuel q size max_results 1 [].

(** The fast path, then [fallback]. *)
Definition aggregate_or (q : query) (limit : option Z)
  (fallback : manager → option (result (list doc))) (m : manager) :
  option (result (list doc)) * manager :=
  match try_aggregate_items q limit m with
  | (Ok (Some l), m') => (Some (Ok l), m')
  | (_, m') => (fallback m', m')
  end.

Definition list_trucks (fuel : nat) (online_only : bool) (m : manager) :
  option (result (list doc)) * manager :=
  if online_only then aggregate_or OnlineTrucks None (paged_where fuel OnlineTrucks None) m
  else (paged_where fuel AllTrucks None m, m).

Definition list_unassigned_orders (fuel : nat) (m : manager) : option (result (list doc)) * manager :=
  aggregate_or UnassignedOrders (Some (max_orders_per_tick m))
  (λ m, paged_where fuel UnassignedOrders (Some (max_orders_per_tick m)) m) m.

(** [str(row[key])] of the rows where it is truthy. *)
Definition ids_of (key : string) (rows : list doc) : list string :=
  omap (λ row, let v := doc_get row key in if truth v then Some (py_str v) else None) rows.

(** An exception of the fallback is logged and the list is empty. *)
Definition swallow (r : option (result (list doc))) : option (list doc) :=
  (λ r, catch r []) <$> r.

Definition active_haul_truck_ids (fuel : nat) (m : manager) : option (list string) * manager :=
  let '(rows, m') := aggregate_or HaulTripTrucks None (paged_where fuel HaulTripTrucks None) m in
  (ids_of "truck" <$> swallow rows, m').

Definition order_ids_with_open_haul (fuel : nat) (m : manager) : option (gset string) * manager :=
  let '(rows, m') := aggregate_or HaulTripOrders None (paged_where fuel HaulTripOrders None) m in
  ((λ l, list_to_set (ids_of "order" l)) <$> swallow rows, m').

(** [resolve_facility_resource_id]: only an answer that names a facility is
cached. *)
Definition resolve_facility_resource_id (facility_name : pyval) : eff manager (option string) := λ m,
  if negb (truth facility_name) then (Ok None, m)
  else
  let key := py_str facility_name in
  match facility_resource_id_cache m !! key with
  | Some fid => (Ok fid, m)
  | None =>
      match rest (FacilityNamed key) with
      | Raise _ => (Ok None, m)
      | Ok a =>
          if negb (is_success (status_code a)) then (Ok None, m)
          else
            match items a with
            | Raise e => (Raise e, m)
            | Ok [] => (Ok None, m)
            | Ok (f :: _) =>
                let out := match doc_get f "_id" with PNone => None | v => Some (py_str v) end in
                (Ok out, with_cached key out m)
            end
      end
  end.
End Manager.

(** ** What the reads return *)

(** The server holds the documents [docs q] and serves them in pages of the
    requested size or of its own limit [cap], whichever is smaller; a page past
    the last is empty.  An aggregation endpoint may be missing; one that answers
    gives the same documents, up to its limit. *)
Class RestLaws `{Rest} (docs : query → list doc) (cap : query → Z) : Prop := {
  cap_pos q : 0 < cap q;
  rest_page q p n : 1 ≤ p → 0 < n →
    rest (PageOf q p n) = Ok (Answer 200 (Ok
      (take (Z.to_nat (Z.min n (cap q))) (drop (Z.to_nat ((p - 1) * Z.min n (cap q))) (docs q)))));
  rest_aggregate q limit l : get_items (Aggregate q limit) = Ok l →
    l = match limit with Some k => take (Z.to_nat k) (docs q) | None => docs q end;
}.

Section Reads.
Context `{PyText} `{RestLaws docs cap}.

(** The collection, cut to the limit. *)
Definition limited (q : query) (limit : option Z) : list doc :=
  match limit with Some k => take (Z.to_nat k) (docs q) | None => docs q end.

(** After [page - 1] full pages the loop has read a prefix of the collection; it
ends, since each further page reads at least one document. *)
Lemma paged_from_spec fuel q size limit page :
  0 < size → 1 ≤ page →
  let k := Z.min size (cap q) in
  let acc := take (Z.to_nat ((page - 1) * k)) (docs q) in
  (∀ n, limit = Some n → Z.of_nat (length acc) < n) →
  (length (docs q) < fuel + length acc)%nat →
  paged_from fuel q size limit page acc = Some (Ok (limited q limit)).
Proof.
  intros Hs. revert page. induction fuel as [|fuel IH]; intros page Hp k acc Hl Hf.
  { unfold acc in Hf. rewrite length_take in Hf. lia. }
  pose proof (cap_pos q) as Hc. assert (1 ≤ k) as Hk by (unfold k; lia).
  cbn [paged_from]. unfold get_items. rewrite (rest_page q page size Hp Hs). cbn [mbind result_bind items status_code].
  fold k. set (batch := take (Z.to_nat k) _).
  assert (is_success 200 = true) as -> by done.
  assert (acc ++ batch = take (Z.to_nat (page * k)) (docs q)) as Eapp.
  { unfold acc, batch. replace (Z.to_nat (page * k)) with (Z.to_nat ((page - 1) * k) + Z.to_nat k)%nat by nia.
  by rewrite <-take_take_drop. }
  assert (length batch = Z.to_nat k `min` (length (docs q) - Z.to_nat ((page - 1) * k)))%nat as Eb
  by (unfold batch; by rewrite length_take, length_drop).
  clearbody batch. destruct batch as [|d batch']; cbn [length] in Eb.
  - f_equal. f_equal. unfold limited.
  assert (acc = docs q) as Ea by (unfold acc; apply take_ge; lia). rewrite Ea in *.
  destruct limit as [n|]; [|done]. specialize (Hl n eq_refl). symmetry. apply take_ge. lia.
  - set (acc' := acc ++ d :: batch') in *.
  assert (acc' = take (Z.to_nat ((page + 1 - 1) * k)) (docs q)) as Ea'.
  { rewrite Eapp. f_equal. f_equal. lia. }
  assert (length acc < length acc')%nat as Hlen by (unfold acc'; rewrite length_app; simpl; lia).
  assert ((∀ n, limit = Some n → Z.of_nat (length acc') < n) →
    paged_from fuel q size limit (page + 1) acc' = Some (Ok (limited q limit))) as Hgo.
  { intros Hl'. rewrite Ea' in *. apply (IH (page + 1)); [lia|done|]. fold k. lia. }
  unfold limited in *. destruct limit as [n|]; [|by apply Hgo].
  destruct (n <=? Z.of_nat (length acc')) eqn:En; bools.
  + f_equal. f_equal. rewrite Ea', take_take. f_equal.
    rewrite Ea', length_take in En. lia.
  + apply Hgo. intros ? [= <-]. lia.
Qed.

Lemma paged_where_spec fuel q limit m :
  1 ≤ page_size m → (∀ k, limit = Some k → 1 ≤ k) → (length (docs q) < fuel)%nat →
  paged_where fuel q limit m = Some (Ok (limited q limit)).
Proof.
  intros Hp Hl Hf. unfold paged_where.
  assert ([] = take (Z.to_nat ((1 - 1) * Z.min (match limit with
            | Some k => if k =? 0 then page_size m else k
            | None => page_size m
            end) (cap q))) (docs q)) as E by done.
  rewrite E at 1. apply paged_from_spec; [|lia| |simpl; lia].
  - destruct limit as [k|]; [|lia]. specialize (Hl k eq_refl). destruct (k =? 0) eqn:Ek; lia.
  - intros n ->. specialize (Hl n eq_refl). simpl. lia.
Qed.

Lemma aggregate_or_spec q limit fallback m :
  fallback m = Some (Ok (limited q limit)) →
  fallback (with_enabled false m) = Some (Ok (limited q limit)) →
  (aggregate_or q limit fallback m).1 = Some (Ok (limited q limit)).
Proof.
  intros Hf Hf'. unfold aggregate_or, try_aggregate_items. case_decide; [done|].
  destruct (get_items (Aggregate q limit)) as [l|e] eqn:E; [|done].
  by rewrite (rest_aggregate q limit l E).
Qed.

(** C29: The reads of a tick are complete, whichever path they take.  On any server
that serves its collections in pages - of the size asked for or of a smaller
limit of its own - and whose aggregation endpoints either fail or answer with
the same documents, each read ends within as many pages as there are
documents, and returns the whole collection: the trucks, the unassigned
orders up to the configured number, the busy trucks, the claimed orders.  Once
an aggregation has failed none is tried again. *)
Theorem reads_complete fuel online_only m :
  1 ≤ page_size m → 1 ≤ max_orders_per_tick m → (∀ q, length (docs q) < fuel)%nat →
  (list_trucks fuel online_only m).1 = Some (Ok (docs (if online_only then OnlineTrucks else AllTrucks))) ∧
  (list_unassigned_orders fuel m).1 =
  Some (Ok (take (Z.to_nat (max_orders_per_tick m)) (docs UnassignedOrders))) ∧
  (active_haul_truck_ids fuel m).1 = Some (ids_of "truck" (docs HaulTripTrucks)) ∧
  (order_ids_with_open_haul fuel m).1 = Some (list_to_set (ids_of "order" (docs HaulTripOrders))) ∧
  ∀ q limit m', try_aggregate_items q limit m = (Ok None, m') →
  ∀ q' limit', try_aggregate_items q' limit' m' = (Ok None, m').
Proof.
  intros Hp Ho Hf.
  assert (∀ q m, 1 ≤ page_size m → paged_where fuel q None m = Some (Ok (docs q))) as Hall
  by (intros q m' Hm'; by apply (paged_where_spec fuel q None)).
  split_and!.
  - destruct online_only; [|by apply Hall]. apply (aggregate_or_spec OnlineTrucks None); by apply Hall.
  - apply (aggregate_or_spec UnassignedOrders (Some (max_orders_per_tick m)));
    apply paged_where_spec; simpl; naive_solver.
  - unfold active_haul_truck_ids.
  pose proof (aggregate_or_spec HaulTripTrucks None (paged_where fuel HaulTripTrucks None) m) as E.
  destruct (aggregate_or _ _ _ _). simpl in E |- *. by rewrite E by (by apply Hall).
  - unfold order_ids_with_open_haul.
  pose proof (aggregate_or_spec HaulTripOrders None (paged_where fuel HaulTripOrders None) m) as E.
  destruct (aggregate_or _ _ _ _). simpl in E |- *. by rewrite E by (by apply Hall).
  - intros q limit m' E q' limit'. unfold try_aggregate_items at 1. rewrite decide_True; [done|].
  unfold try_aggregate_items in E. case_decide; [congruence|].
  destruct (get_items _); [done|]. by injection E as <-.
Qed.
End Reads.

(** ** A server *)

Module ManagerExamples.

#[export] Instance text : PyText := no_text.

Definition a_doc (key id : string) : doc := Doc [(key, PStr id)] [].

Definition stored (q : query) : list doc :=
  match q with
  | HaulTripTrucks => [a_doc "truck" "t1"; a_doc "truck" "t2"]
  | HaulTripOrders => [a_doc "order" "o1"]
  | UnassignedOrders => [a_doc "_id" "o1"; a_doc "_id" "o2"; a_doc "_id" "o3"]
  | _ => [a_doc "_id" "t1"; a_doc "_id" "t2"; a_doc "_id" "t3"]
  end.

(** Pages of at most two documents; only the trucks have an aggregation. *)
#[export] Instance server : Rest := λ r,
  match r with
  | PageOf q p n => Ok (Answer 200 (Ok (take (Z.to_nat (Z.min n 2)) (drop (Z.to_nat ((p - 1) * Z.min n 2)) (stored q)))))
  | Aggregate OnlineTrucks None => Ok (Answer 200 (Ok (stored OnlineTrucks)))
  | Aggregate _ _ => Ok (Answer 404 (Ok []))
  | FacilityNamed name => Ok (Answer 200 (Ok [a_doc "_id" ("facility " +:+ name)]))
  end.

#[export] Instance server_laws : RestLaws stored (λ _, 2).
Proof.
  split; [done|done|]. intros [] [k|] l; unfold get_items, rest, server; cbn -[take]; try discriminate.
  by intros [= <-].
Qed.

Definition fresh : manager := Manager 500 2 None ∅.

(** A found facility is asked for once. *)
Example facility_is_cached :
  let '(r, m) := resolve_facility_resource_id (PStr "depot") fresh in
  r = Ok (Some "facility depot") ∧
  @resolve_facility_resource_id text (λ _, Raise TypeError) (PStr "depot") m = (Ok (Some "facility depot"), m).
Proof. vm_compute. done. Qed.

Lemma reads_complete_witness :
  (list_unassigned_orders 9 fresh).1 = Some (Ok [a_doc "_id" "o1"; a_doc "_id" "o2"]).
Proof.
  destruct (@reads_complete text server stored (λ _, 2) server_laws 9 true fresh) as (_ & E & _);
  [done|done|intros []; simpl; lia|]. exact E.
Defined.
End ManagerExamples.
