(* ===== verification/AssignmentApp.v ===== *)
(** The assignment service ([assignment/app.py]): one tick from the reads to the
    published messages.  The pooled topology hands over to [PooledPlanner]; the
    partitioned one solves one bucket per connected component of the cooperation
    structure.  The provenance of the pooled market is recorded and pushed. *)

From stdpp Require Import pretty.
From S2P Require Import Prelude PyValue Tiebreak Pools Arbitration Constraints Spatial Solver Policies.
From S2P Require Import PooledPlanner AssignmentManager.
Open Scope Z_scope.

(** [random.Random(seed)] *)
Class SeededRng `{Rng} := seed_rng : Z → rng.

(** ** The profile *)

Definition DEFAULT_MAX_TRUCKS_PER_HAULIER : Z := 500.
Definition ROUND_STATS_PATCH_EVERY : Z := 5.
Definition DEFAULT_CELL_DEG : float64 := f_frac 2 100.
Definition DEFAULT_PER_ORDER_CANDIDATES : Z := 40.
Definition DEFAULT_MAX_RINGS : Z := 8.

Section Profile.
Context `{PyText}.

(** [(prof or {}).get("planner") or {}], on which [.get] is called. *)
Definition planner_of (prof : pydict) : result pydict :=
  let planner := get prof "planner" in
  if truth planner then match planner with PDict d => Ok d | _ => Raise AttributeError end else Ok [].

(** [_resolved_topology] *)
Definition resolved_topology (prof : pydict) : result string :=
  planner ← planner_of prof;
  let topology := py_str (py_or (get planner "topology") (PStr "partitioned")) in
  Ok (if decide (topology = "two-stage") then "pooled"
    else if decide (topology = "partitioned" ∨ topology = "pooled") then topology else "partitioned").

(** [_rebate_aware] *)
Definition rebate_aware (prof : pydict) : result bool :=
  planner ← planner_of prof; Ok (truth (get_or planner "rebate_aware" (PBool false))).

(** What [assign] reads of the profile. *)
Record tick_config := TickConfig {
  tc_respect_online : bool;
  tc_reject_busy : bool;
  tc_max_pickup_travel : pyval;
  tc_max_trucks : Z;
  tc_use_spatial : bool;
  tc_cell_deg : float64;
  tc_per_order : Z;
  tc_max_rings : Z;
}.

Definition read_tick_config (prof : pydict) : result tick_config :=
  let flag k := truth (get_or prof k (PBool true)) in
  max_trucks ← py_int (get_or prof "max_trucks_per_haulier" (PInt DEFAULT_MAX_TRUCKS_PER_HAULIER));
  cell ← py_float (get_or prof "spatial_cell_deg" (PFloat DEFAULT_CELL_DEG));
  per ← py_int (get_or prof "spatial_candidates_per_order" (PInt DEFAULT_PER_ORDER_CANDIDATES));
  rings ← py_int (get_or prof "spatial_max_rings" (PInt DEFAULT_MAX_RINGS));
  Ok (TickConfig (flag "respect_truck_online_state") (flag "reject_if_active_haul_trip")
      (get prof "max_travel_time_pickup") (Z.max 1 max_trucks) (flag "use_spatial_matching")
      cell (Z.max 1 per) (Z.max 0 rings)).

(** [_tick_seed] *)
Definition tick_seed_of `{Blake2b} (run_id : string) (time_step : Z) : Z :=
  blake2b_64 (run_id +:+ "|" +:+ pretty time_step).

(** A haulier that counts as one ([if hid:]). *)
Definition haulier_key (d : doc) : option string :=
  match haulier_of d with
  | Some h => if decide (h = "") then None else Some h
  | None => None
  end.
End Profile.

(** ** Round provenance *)

Record round_stats := RoundStats {
  ticks : Z;
  ticks_in_horizon : Z;
  ticks_drain : Z;
  ticks_idle : Z;
  auction_ticks : Z;
  rounds_sum : Z;
  rounds_min : option Z;
  rounds_max : option Z;
  truncated : Z;
  backstop : option Z;
  warned : bool;
  cand_round1 : Z;
  cand_total : Z;
  last_pushed_max : option Z;
}.

Definition empty_stats : round_stats := RoundStats 0 0 0 0 0 0 None None 0 None false 0 0 None.

(** [round_stats()]: what is written onto the run record. *)
Record stats_view := StatsView {
  v_ticks : Z;
  v_ticks_in_horizon : Z;
  v_ticks_drain : Z;
  v_ticks_idle : Z;
  v_auction_ticks : Z;
  v_rounds_min : option Z;
  v_rounds_mean : option float64;
  v_rounds_max : option Z;
  v_ticks_truncated_by_backstop : Z;
  v_max_rounds_backstop : option Z;
  v_candidate_pairs_round1 : Z;
  v_candidate_pairs_total : Z;
}.

Definition view (s : option round_stats) : stats_view :=
  match s with
  | Some s =>
      if ticks s =? 0 then StatsView 0 0 0 0 0 None None None 0 None 0 0
      else
        StatsView (ticks s) (ticks_in_horizon s) (ticks_drain s) (ticks_idle s) (auction_ticks s)
          (rounds_min s)
          (if auction_ticks s =? 0 then None
           else Some (py_round3 (f_div (f_of_Z (rounds_sum s)) (f_of_Z (auction_ticks s)))))
          (rounds_max s) (truncated s) (backstop s) (cand_round1 s) (cand_total s)
  | None => StatsView 0 0 0 0 0 None None None 0 None 0 0
  end.

(** The counters [_record_round_stats] keeps, up to the test of [converged]. *)
Definition count_tick `{Rng} (horizon : option Z) (time_step max_rounds : Z) (r : market_state) (s : round_stats) :
  round_stats :=
  let used := rounds_used r in
  let drain := match horizon with Some h => negb (h =? 0) && (h <=? time_step) | None => false end in
  let auction := 1 <=? used in
  let count (b : bool) (n : Z) := if b then n + 1 else n in
  RoundStats (ticks s + 1) (count (negb drain) (ticks_in_horizon s)) (count drain (ticks_drain s))
    (count (negb auction) (ticks_idle s)) (count auction (auction_ticks s))
    (if auction then rounds_sum s + used else rounds_sum s)
    (if auction then Some (match rounds_min s with Some m => Z.min m used | None => used end)
     else rounds_min s)
    (Some (match rounds_max s with Some m => Z.max m used | None => used end))
    (count (negb (converged r)) (truncated s)) (Some max_rounds)
    (warned s || negb (converged r))
    (cand_round1 s + Z.of_nat (candidate_pairs_round1 r)) (cand_total s + Z.of_nat (candidate_pairs_total r))
    (last_pushed_max s).

Definition with_pushed_max (s : round_stats) : round_stats :=
  RoundStats (ticks s) (ticks_in_horizon s) (ticks_drain s) (ticks_idle s) (auction_ticks s) (rounds_sum s)
    (rounds_min s) (rounds_max s) (truncated s) (backstop s) (warned s) (cand_round1 s) (cand_total s)
    (rounds_max s).

(** [_patch_round_stats_to_run_config]: the statistics, and the view it tries to
    write, if any; the request itself is best effort. *)
Definition patch_round_stats (force : bool) (s : option round_stats) : option round_stats * list stats_view :=
  match s with
  | Some s =>
      if ticks s =? 0 then (Some s, [])
      else if negb force && bool_decide (rounds_max s = last_pushed_max s)
              && negb (ticks s mod ROUND_STATS_PATCH_EVERY =? 0) then (Some s, [])
      else (Some (with_pushed_max s), [view (Some s)])
  | None => (None, [])
  end.

(** [_record_round_stats]: a truncated tick is pushed at once. *)
Definition record_round_stats `{Rng} (horizon : option Z) (time_step max_rounds : Z) (r : market_state)
  (s : option round_stats) : option round_stats * list stats_view :=
  let s := count_tick horizon time_step max_rounds r (default empty_stats s) in
  if converged r then (Some s, []) else patch_round_stats true (Some s).

(** What a pooled tick does to them: recorded, then pushed if due. *)
Definition stats_tick `{Rng} (horizon : option Z) (time_step max_rounds : Z) (r : market_state)
  (s : option round_stats) : option round_stats * list stats_view :=
  let '(s, sent) := record_round_stats horizon time_step max_rounds r s in
  let '(s, sent') := patch_round_stats false s in (s, sent ++ sent').

(** ** The app *)

(** A collaboration tag: of the partitioned topology, or of the pooled market. *)
Inductive collab_tag :=
| PartitionTag (owner carrier : string) (benefit : option float64)
| MarketTag (tag : share_tag).

(** What a tick changes.  [pushed] lists the views handed to the run record; the
    solver's tie-break seed is [tiebreak]. *)
Record app := App {
  mgr : manager;
  share_tags : gmap (string * string) collab_tag;
  app_stats : option round_stats;
  tiebreak : option Z;
  warned_haulier_block : bool;
  pushed : list stats_view;
}.

Definition with_mgr (m : manager) (a : app) : app :=
  App m (share_tags a) (app_stats a) (tiebreak a) (warned_haulier_block a) (pushed a).
Definition with_tags (t : gmap (string * string) collab_tag) (a : app) : app :=
  App (mgr a) t (app_stats a) (tiebreak a) (warned_haulier_block a) (pushed a).
Definition with_tiebreak (z : Z) (a : app) : app :=
  App (mgr a) (share_tags a) (app_stats a) (Some z) (warned_haulier_block a) (pushed a).
Definition with_stats (p : option round_stats * list stats_view) (a : app) : app :=
  App (mgr a) (share_tags a) p.1 (tiebreak a) (warned_haulier_block a) (pushed a ++ p.2).
Definition with_block_warning (a : app) : app :=
  App (mgr a) (share_tags a) (app_stats a) (tiebreak a) true (pushed a).

Definition new_app `{PyText} (prof : pydict) : result app :=
  m ← new_manager prof; Ok (App m ∅ None None false []).

(** The solver's generator is the [random] module unless one was injected. *)
Record gens `{Rng} := Gens { module_rng : rng; injected : option rng }.

Definition on_module `{Rng} {A} (m : eff rng A) : eff gens A := λ g,
  let '(r, x) := m (module_rng g) in (r, Gens _ x (injected g)).

Definition on_solver `{Rng} {A} (m : eff rng A) : eff gens A := λ g,
  match injected g with
  | Some i => let '(r, x) := m i in (r, Gens _ (module_rng g) (Some x))
  | None => on_module m g
  end.

(** ** The partitioned topology *)

(** One planner per connected component; a haulier outside the components has its
    own. *)
Inductive partition := Component (idx : nat) | OwnHaulier (hid : string).

#[export] Instance partition_eq_dec : EqDecision partition.
Proof. solve_decision. Defined.

Section Partitioned.
Context `{PyText, PyMath, Blake2b, Rng}.
Context (facs : list pydict) (slv : solver_name) (solver_params : pydict).

Section Structure.
Context (cfg : tick_config) (structure : pyval).

Definition adjacency : gmap string (list string) := share_adjacency structure.

(** [structure.get("components") or []], enumerated; an element that is no list
is skipped. *)
Definition components_of (v : pyval) : result (list pyval) :=
  if negb (truth v) then Ok []
  else match v with
   | PList l | PTuple l => Ok l
   | PStr _ | PDict _ => Ok []
   | _ => Raise TypeError
   end.

Definition component_of : result (gmap string nat) :=
    if decide (adjacency = ∅) then Ok ∅
    else
  match structure with
  | PDict d =>
      comps ← components_of (get d "components");
      Ok (foldl (λ m p, match p.2 with
                        | PList l | PTuple l =>
                            if (1 <? length l)%nat
                            then foldl (λ m hid, <[py_str hid := p.1]> m) m l else m
                        | _ => m
                        end) ∅ (zip (seq 0 (length comps)) comps))
  | _ => Ok ∅
  end.

(** [_pair_allowed] *)
Definition coop_pair_allowed : pair_allowed_fn := λ t o,
  if haulier_matches t o then pair_allowed facs (tc_max_pickup_travel cfg) t o
  else if share_eligible t o adjacency
  then pair_allowed_ignoring_haulier facs (tc_max_pickup_travel cfg) t o
  else Ok false.

(** [_cost] *)
Definition coop_cost : cost_fn := assignment_cost facs solver_params.

(** [_partition_key] *)
Definition partition_key (comp : gmap string nat) (hid : option string) : option partition :=
  (λ h, match comp !! h with Some i => Component i | None => OwnHaulier h end) <$> hid.

(** [buckets.setdefault(key, []).append(entity)], for every entity *)
Definition bucket_by {K} `{EqDecision K} (key : doc → K) (l : list doc) : list (K * list doc) :=
  foldl (λ d x, d_set d (key x) (default [] (d_get d (key x)) ++ [x])) [] l.

(** [_serves] *)
Definition serves (truck_haulier order_haulier : string) : bool :=
  bool_decide (truck_haulier = order_haulier) ||
  bool_decide (order_haulier ∈ default [] (adjacency !! truck_haulier)).

(** The candidate pairs of a bucket: per haulier of its orders, over the trucks
that may serve it. *)
Definition bucket_pairs (bucket_trucks bucket_orders : list doc) : result assignment :=
    let groups := bucket_by haulier_key bucket_orders in
    per ← mapR (λ g, match g.1 with
  | None => Ok []
  | Some oh =>
      let eligible := filter (λ t, match haulier_key t with Some th => serves th oh | None => false end = true)
                        bucket_trucks in
      match eligible with
      | [] => Ok []
      | _ => iter_candidate_pairs facs coop_pair_allowed (tc_cell_deg cfg) (tc_per_order cfg)
               (tc_max_rings cfg) eligible g.2
      end
  end) groups;
    Ok (concat per).

(** [_solve_bucket] (run in a worker thread or not) *)
Definition solve_bucket (tb : option Z) (bucket_trucks bucket_orders : list doc) : eff gens assignment :=
    if tc_use_spatial cfg && has_solve_pairs slv then
  pairs ← lift (bucket_pairs bucket_trucks bucket_orders);
  on_solver (greedy_solve_pairs tb (map Ok pairs) coop_cost)
    else
  bt ← if tc_max_trucks cfg <? Z.of_nat (length bucket_trucks)
   then on_module (λ r, let '(l, r') := sample r (Z.to_nat (tc_max_trucks cfg)) bucket_trucks in (Ok l, r'))
   else mret bucket_trucks;
  on_solver (solve slv tb coop_pair_allowed coop_cost bt bucket_orders).

(** [min(finite)] *)
Definition py_min (l : list float64) : option float64 :=
  match l with
  | [] => None
  | x :: l => Some (foldl (λ m c, if f_ltb c m then c else m) x l)
  end.

(** The costs of the owner's own trucks that are free after the solve. *)
Definition own_costs (used : gset string) (o_haulier : string) (bucket_trucks : list doc) (order : doc) :
    result (list float64) :=
    per ← mapR (λ t,
  if bool_decide (entity_id t ∈ used) || negb (bool_decide (haulier_of t = Some o_haulier)) then Ok []
  else
    ok ← coop_pair_allowed t order;
    if ok : bool then c ← coop_cost t order; Ok [c] else Ok []) bucket_trucks;
    Ok (concat per).

Definition benefit_of (used : gset string) (o_haulier : string) (bucket_trucks : list doc) (truck order : doc) :
  result (option float64) :=
  own ← own_costs used o_haulier bucket_trucks order;
  match py_min (filter (λ c, f_eqb c f_inf = false) own) with
  | Some best => c ← coop_cost truck order; Ok (Some (py_round3 (f_sub best c)))
  | None => Ok None
  end.

(** The tags of a bucket's result. *)
Definition tag_pair (used : gset string) (bucket_trucks : list doc)
    (tags : gmap (string * string) collab_tag) (p : doc * doc) : result (gmap (string * string) collab_tag) :=
    match haulier_key p.1, haulier_key p.2 with
    | Some th, Some oh =>
        if decide (th = oh) then Ok tags
        else
      b ← benefit_of used oh bucket_trucks p.1 p.2;
      Ok (<[(entity_id p.1, entity_id p.2) := PartitionTag oh th b]> tags)
    | _, _ => Ok tags
    end.

(** The loop over the buckets of orders. *)
Definition planned := (assignment * gmap (string * string) collab_tag)%type.

Definition plan_bucket (tb : option Z) (truck_buckets : list (option partition * list doc))
  (s : planned) (b : option partition * list doc) : eff gens planned :=
  match b.1, default [] (d_get truck_buckets b.1) with
  | None, _ | _, [] => mret s
  | Some _, bucket_trucks =>
      result ← solve_bucket tb bucket_trucks b.2;
      let used := list_to_set (map (λ p, entity_id p.1) result) in
      tags ← lift (foldR (tag_pair used bucket_trucks) s.2 result);
      mret (s.1 ++ result, tags)
  end.

Fixpoint plan_buckets (tb : option Z) (truck_buckets : list (option partition * list doc))
  (bs : list (option partition * list doc)) (s : planned) : eff gens planned :=
  match bs with
  | [] => mret s
  | b :: bs => s ← plan_bucket tb truck_buckets s b; plan_buckets tb truck_buckets bs s
  end.

Definition plan_partitions (tb : option Z) (candidates orders : list doc) : eff gens planned :=
  comp ← lift component_of;
  let key d := partition_key comp (haulier_of d) in
  plan_buckets tb (bucket_by key candidates) (bucket_by key orders) ([], ∅).
End Structure.
End Partitioned.

(** ** A tick: [assign] *)

Section Tick.
Context `{PyText, PyMath, Blake2b} `{SeededRng, Rest}.
Context (facs : list pydict) (run_id : string) (strategy : option string) (solver_params prof : pydict).
(** [_sim_horizon_steps] *)
Context (horizon : option Z).

Definition slv : solver_name := get_solver strategy.

(** [setdefault(hid, []).append(entity)] for the entities with a haulier. *)
Definition by_haulier (l : list doc) : gmap string (list doc) :=
  foldl (λ m d, match haulier_key d with
              | Some h => <[h := default [] (m !! h) ++ [d]]> m
              | None => m
              end) ∅ l.

(** The context [_assign_pooled] builds. *)
Definition pooled_ctx (cfg : tick_config) (mc : market_config) (seed : Z) : planner_ctx :=
  let allowed_own := pair_allowed facs (tc_max_pickup_travel cfg) in
  let allowed_pooled := pair_allowed_ignoring_haulier facs (tc_max_pickup_travel cfg) in
  PlannerCtx _ facs
  (if has_solve_pairs slv then Some (λ pairs, greedy_solve_pairs (Some seed) (map Ok pairs)) else None)
  (solve slv (Some seed))
  (offer (get_offer_policy (Some (role_type (cfg_offer mc)))) (role_params (cfg_offer mc)))
  (bids (get_claim_policy (Some (role_type (cfg_claim mc)))) (role_params (cfg_claim mc)))
  (resolve (get_arbitration_rule (Some (role_type (cfg_arbitration mc)))))
  (cfg_max_rounds mc) allowed_own allowed_pooled (assignment_cost facs solver_params) seed
  (tc_cell_deg cfg) (tc_per_order cfg) (tc_max_rings cfg) (tc_use_spatial cfg) (Z.to_nat (tc_max_trucks cfg)).

(** [_assign_pooled]: the generator of the tick is injected into the solver. *)
Definition assign_pooled (cfg : tick_config) (candidates orders : list doc) (time_step : Z) (g : gens) :
  eff app (assignment * gens) := λ a,
  let seed := tick_seed_of run_id time_step in
  let a := with_tiebreak seed a in
  match (mc ← resolve_market_config (get prof "planner");
       r ← run_pooled_market (pooled_ctx cfg mc seed) (by_haulier candidates) (by_haulier orders)
             (from_structure (active_cooperation_structure prof)) (seed_rng seed);
       Ok (mc, r)) with
  | Raise e => (Raise e, a)
  | Ok (mc, r) =>
    let a := with_tags (MarketTag <$> res_share_tags r) a in
    (Ok (res_assignment r, Gens _ (module_rng g) (Some (ms_rng (res_state r)))),
     with_stats (stats_tick horizon time_step (cfg_max_rounds mc) (res_state r) (app_stats a)) a)
  end.

(** The rest of [assign] for the partitioned topology. *)
Definition assign_partitioned (cfg : tick_config) (candidates orders : list doc) (g : gens) :
  eff app (assignment * gens) := λ a,
  match plan_partitions facs slv solver_params cfg (active_cooperation_structure prof) (tiebreak a)
        candidates orders g with
  | (Raise e, _) => (Raise e, a)
  | (Ok (assigned, tags), g') =>
    let a := with_tags tags a in
    (Ok (assigned, g'),
     match candidates, orders, assigned with
     | _ :: _, _ :: _, [] => with_block_warning a
     | _, _, _ => a
     end)
  end.

(** What a tick reads from the server. *)
Record tick_reads := TickReads {
  read_trucks : list doc;
  read_orders : list doc;
  claimed_order_ids : gset string;
  busy_ids : gset string;
}.

(** The four reads, in order; [None] while a paginated read is still going on. *)
Definition read_tick (fuel : nat) (cfg : tick_config) (m : manager) :
  option (result tick_reads) * manager :=
  let '(trucks, m) := list_trucks fuel (tc_respect_online cfg) m in
  match trucks with
  | None => (None, m)
  | Some (Raise e) => (Some (Raise e), m)
  | Some (Ok trucks) =>
    let '(orders, m) := list_unassigned_orders fuel m in
    match orders with
    | None => (None, m)
    | Some (Raise e) => (Some (Raise e), m)
    | Some (Ok orders) =>
        let '(claimed, m) := order_ids_with_open_haul fuel m in
        match claimed with
        | None => (None, m)
        | Some claimed =>
            if tc_reject_busy cfg then
              let '(busy, m) := active_haul_truck_ids fuel m in
              ((λ busy, Ok (TickReads trucks orders claimed (list_to_set busy))) <$> busy, m)
            else (Some (Ok (TickReads trucks orders claimed ∅)), m)
        end
    end
  end.

(** [WorkflowStateMachine.online.name] *)
Definition online_state_name : string := "online".

Definition candidates_of (cfg : tick_config) (rd : tick_reads) : list doc :=
  filter_assignable_trucks (read_trucks rd) (busy_ids rd) (tc_respect_online cfg) (tc_reject_busy cfg)
  online_state_name.

Definition unclaimed_orders (rd : tick_reads) : list doc :=
  filter (λ o, entity_id o ∉ claimed_order_ids rd) (read_orders rd).

(** [assign] on what was read. *)
Definition assign_on (cfg : tick_config) (rd : tick_reads) (time_step : Z) (g : gens) :
  eff app (assignment * gens) := λ a,
  match resolved_topology prof with
  | Raise e => (Raise e, a)
  | Ok topology =>
    if decide (topology = "pooled")
    then assign_pooled cfg (candidates_of cfg rd) (unclaimed_orders rd) time_step g a
    else assign_partitioned cfg (candidates_of cfg rd) (unclaimed_orders rd) g a
  end.

(** [assign]; the tags of the previous tick are dropped before anything can
raise.  A rebate-aware profile has a price book injected into the solver,
which neither registered solver reads: the injection is left out, the
exception of the test is not. *)
Definition assign (fuel : nat) (time_step : Z) (g : gens) (a : app) :
  option (result (assignment * gens)) * app :=
  let a := with_tags ∅ a in
  match (_ ← rebate_aware prof; read_tick_config prof) with
  | Raise e => (Some (Raise e), a)
  | Ok cfg =>
    let '(rd, m) := read_tick fuel cfg (mgr a) in
    let a := with_mgr m a in
    match rd with
    | None => (None, a)
    | Some (Raise e) => (Some (Raise e), a)
    | Some (Ok rd) => let '(r, a) := assign_on cfg rd time_step g a in (Some r, a)
    end
  end.

(** ** The messages: [publish] *)

(** [_order_publish_payload] *)
Record order_payload := OrderPayload {
  order_id : pyval;
  pickup_loc : pyval;
  dropoff_loc : pyval;
  pickup_service_time : pyval;
  dropoff_service_time : pyval;
  order_profile : pydict;
  pickup_facility_resource_id : option string;
  dropoff_facility_resource_id : option string;
}.

Definition order_publish_payload (order : doc) : eff manager order_payload :=
  pickup ← resolve_facility_resource_id (prof_get order "pickup_facility_name");
  dropoff ← resolve_facility_resource_id (prof_get order "dropoff_facility_name");
  let own_or k := py_or (doc_get order k) (prof_get order k) in
  let time k := py_or (doc_get order k) (get_or (profile order) k (PInt 120)) in
  mret (OrderPayload (doc_get order "_id") (own_or "pickup_loc") (own_or "dropoff_loc")
        (time "pickup_service_time") (time "dropoff_service_time") (profile order) pickup dropoff).

(** [AssignedHaulTripPayload] *)
Record assigned_payload := AssignedPayload {
  p_order : order_payload;
  p_truck_id : pyval;
  shared : bool;
  owner_haulier_id : option string;
  carrier_haulier_id : option string;
  p_benefit_km : option float64;
  pool_id : option string;
  p_awarded_cost_km : option float64;
  p_owner_reserve_km : option float64;
  p_market_round : option Z;
}.

Definition assigned_payload_of (order : order_payload) (tid : pyval) (tag : option collab_tag) :
  assigned_payload :=
  match tag with
  | None => AssignedPayload order tid false None None None None None None None
  | Some (PartitionTag owner carrier benefit) =>
    AssignedPayload order tid true (Some owner) (Some carrier) benefit None None None None
  | Some (MarketTag t) =>
    AssignedPayload order tid true (tag_owner t) (Some (tag_carrier t)) (benefit_km t) (tag_pool t)
      (awarded_cost_km t) (tag_reserve_km t) (Some (market_round t))
  end.

(** One pair: its message and topic, unless the truck has no id. *)
Definition publish_pair (tags : gmap (string * string) collab_tag) (p : doc * doc) :
  eff manager (option (string * assigned_payload)) :=
  let tid := doc_get p.1 "_id" in
  if negb (truth tid) then mret None
  else
  order ← order_publish_payload p.2;
  mret (Some (run_id +:+ "/" +:+ py_str tid,
              assigned_payload_of order tid (tags !! (py_str tid, entity_id p.2)))).

(** [publish]: the messages, in order (a failing send is logged and the loop goes
on); an exception of a lookup ends it, what was sent stays sent. *)
Fixpoint publish_loop (tags : gmap (string * string) collab_tag) (assigned : assignment) (m : manager) :
  result unit * list (string * assigned_payload) * manager :=
  match assigned with
  | [] => (Ok tt, [], m)
  | p :: assigned =>
    match publish_pair tags p m with
    | (Raise e, m) => (Raise e, [], m)
    | (Ok msg, m) =>
        let '(r, sent, m) := publish_loop tags assigned m in
        (r, option_list msg ++ sent, m)
    end
  end.

Definition publish (assigned : assignment) (a : app) :
  result unit * list (string * assigned_payload) * app :=
  let '(r, sent, m) := publish_loop (share_tags a) assigned (mgr a) in (r, sent, with_mgr m a).

(** [close]: the last flush. *)
Definition close (a : app) : app := with_stats (patch_round_stats true (app_stats a)) a.
End Tick.

(** ** Provenance: what the counters count *)

Section Provenance.
Context `{Rng} (horizon : option Z).

(** A recorded tick: its step, the round cap, and the market as it was left. *)
Record tick_record := TickRecord { at_step : Z; cap : Z; left_market : market_state }.

Definition used (t : tick_record) : Z := rounds_used (left_market t).
Definition in_drain (t : tick_record) : Prop := ∃ h, horizon = Some h ∧ h ≠ 0 ∧ h ≤ at_step t.
#[export] Instance in_drain_dec t : Decision (in_drain t).
Proof.
  destruct horizon as [h|] eqn:E; [|right; intros (? & ? & _); congruence].
  destruct (decide (h ≠ 0 ∧ h ≤ at_step t)); [left; exists h; tauto|].
  right. intros (h' & Eh & ? & ?). rewrite E in Eh. injection Eh as <-. tauto.
Defined.

(** The statistics and the views sent after the ticks [ts]. *)
Definition after_tick (p : option round_stats * list stats_view) (t : tick_record) :
  option round_stats * list stats_view :=
  let '(s, sent) := stats_tick horizon (at_step t) (cap t) (left_market t) p.1 in (s, p.2 ++ sent).

Definition after_ticks (ts : list tick_record) : option round_stats * list stats_view :=
  foldl after_tick (None, []) ts.

Definition count_of (P : tick_record → Prop) `{∀ t, Decision (P t)} (ts : list tick_record) : Z :=
  Z.of_nat (length (filter P ts)).

Definition total (f : tick_record → Z) (ts : list tick_record) : Z := foldr (λ t n, f t + n) 0 ts.

Definition auctions (ts : list tick_record) : list tick_record := filter (λ t, 1 ≤ used t) ts.

(** [m] is the least (greatest) number of rounds over the ticks [ts]. *)
Definition is_min (m : option Z) (ts : list tick_record) : Prop :=
  match m with
  | Some m => m ∈ map used ts ∧ Forall (λ t, m ≤ used t) ts
  | None => ts = []
  end.
Definition is_max (m : option Z) (ts : list tick_record) : Prop :=
  match m with
  | Some m => m ∈ map used ts ∧ Forall (λ t, used t ≤ m) ts
  | None => ts = []
  end.

(** The counters are what the list of ticks says they are. *)
Record stats_exact (s : round_stats) (ts : list tick_record) : Prop := {
  ex_ticks : ticks s = Z.of_nat (length ts);
  ex_horizon : ticks_in_horizon s = count_of (λ t, ¬ in_drain t) ts;
  ex_drain : ticks_drain s = count_of in_drain ts;
  ex_idle : ticks_idle s = count_of (λ t, ¬ 1 ≤ used t) ts;
  ex_auction : auction_ticks s = Z.of_nat (length (auctions ts));
  ex_sum : rounds_sum s = total used (auctions ts);
  ex_min : is_min (rounds_min s) (auctions ts);
  ex_max : is_max (rounds_max s) ts;
  ex_truncated : truncated s = count_of (λ t, converged (left_market t) = false) ts;
  ex_backstop : backstop s = cap <$> last ts;
  ex_round1 : cand_round1 s = total (λ t, Z.of_nat (candidate_pairs_round1 (left_market t))) ts;
  ex_total : cand_total s = total (λ t, Z.of_nat (candidate_pairs_total (left_market t))) ts;
}.

Lemma total_app f ts ts' : total f (ts ++ ts') = total f ts + total f ts'.
Proof. induction ts as [|t ts IH]; simpl; [done|]. rewrite IH. lia. Qed.

Lemma count_app P `{∀ t, Decision (P t)} ts t :
  count_of P (ts ++ [t]) = if decide (P t) then count_of P ts + 1 else count_of P ts.
Proof.
  unfold count_of. rewrite filter_app, length_app, filter_cons, filter_nil. case_decide; simpl; lia.
Qed.

Lemma count_complement P `{∀ t, Decision (P t)} ts :
  count_of P ts + count_of (λ t, ¬ P t) ts = Z.of_nat (length ts).
Proof.
  unfold count_of. induction ts as [|t ts IH]; [done|]. rewrite !filter_cons.
  destruct (decide (P t)) as [Hp|Hp]; (destruct (decide (¬ P t)); [|]); try tauto; simpl length; lia.
Qed.

Lemma auctions_app ts t : auctions (ts ++ [t]) = auctions ts ++ (if decide (1 ≤ used t) then [t] else []).
Proof. unfold auctions. rewrite filter_app, filter_cons, filter_nil. done. Qed.

Lemma is_min_app m ts t :
  is_min m ts → is_min (Some (match m with Some m => Z.min m (used t) | None => used t end)) (ts ++ [t]).
Proof.
  destruct m as [m|]; simpl.
  - intros [Hin Hall]. rewrite map_app, Forall_app. split; [|split; [|apply Forall_singleton, Z.le_min_r]].
  + destruct (Z.min_spec m (used t)) as [[_ ->]|[_ ->]]; set_solver.
  + eapply Forall_impl; [exact Hall|]. intros x Hx. cbv beta in *. lia.
  - intros ->. simpl. split; [set_solver|]. by apply Forall_singleton.
Qed.

Lemma is_max_app m ts t :
  is_max m ts → is_max (Some (match m with Some m => Z.max m (used t) | None => used t end)) (ts ++ [t]).
Proof.
  destruct m as [m|]; simpl.
  - intros [Hin Hall]. rewrite map_app, Forall_app. split; [|split; [|apply Forall_singleton, Z.le_max_r]].
  + destruct (Z.max_spec m (used t)) as [[_ ->]|[_ ->]]; set_solver.
  + eapply Forall_impl; [exact Hall|]. intros x Hx. cbv beta in *. lia.
  - intros ->. simpl. split; [set_solver|]. by apply Forall_singleton.
Qed.

Lemma empty_stats_exact : stats_exact empty_stats [].
Proof. by split. Qed.

Lemma drain_test t :
  match horizon with Some h => negb (h =? 0) && (h <=? at_step t) | None => false end =
  bool_decide (in_drain t).
Proof.
  apply eq_true_iff_eq. rewrite bool_decide_eq_true. unfold in_drain. destruct horizon as [h|].
  - rewrite andb_true_iff, negb_true_iff, Z.eqb_neq, Z.leb_le.
  split; [intros []; by exists h|]. by intros (? & [= <-] & ? & ?).
  - split; [done|]. by intros (? & ? & _).
Qed.

(** One tick keeps them exact. *)
Lemma count_tick_exact t s ts :
  stats_exact s ts → stats_exact (count_tick horizon (at_step t) (cap t) (left_market t) s) (ts ++ [t]).
Proof.
  intros []. unfold count_tick. rewrite drain_test. fold (used t).
  split; cbn [ticks ticks_in_horizon ticks_drain ticks_idle auction_ticks rounds_sum rounds_min rounds_max
            truncated backstop cand_round1 cand_total];
  rewrite ?count_app, ?total_app, ?auctions_app, ?length_app, ?last_snoc; simpl length.
  - lia.
  - destruct (bool_decide (in_drain t)) eqn:E; bools; [rewrite decide_False by tauto|rewrite decide_True by done];
    simpl; lia.
  - destruct (bool_decide (in_drain t)) eqn:E; bools; [rewrite decide_True by done|rewrite decide_False by done];
    simpl; lia.
  - destruct (1 <=? used t) eqn:E; bools; [rewrite decide_False by lia|rewrite decide_True by lia]; simpl; lia.
  - destruct (1 <=? used t) eqn:E; bools; [rewrite decide_True by lia|rewrite decide_False by lia]; simpl; lia.
  - rewrite total_app. destruct (1 <=? used t) eqn:E; bools; [rewrite decide_True by lia|rewrite decide_False by lia]; simpl; lia.
  - destruct (1 <=? used t) eqn:E; bools; [rewrite decide_True by lia; by apply is_min_app|].
  rewrite decide_False by lia. by rewrite app_nil_r.
  - by apply is_max_app.
  - destruct (converged (left_market t)) eqn:E; [rewrite decide_False by congruence|rewrite decide_True by done]; simpl; lia.
  - done.
  - simpl. lia.
  - simpl. lia.
Qed.

(** ** Provenance: what is pushed, and when *)

Lemma stats_exact_pushed s ts : stats_exact s ts → stats_exact (with_pushed_max s) ts.
Proof. intros []. by split. Qed.

Lemma view_pushed s : view (Some (with_pushed_max s)) = view (Some s).
Proof. done. Qed.

(** A tick counts, then pushes nothing, once or (a truncated tick) twice; it pushes
when the market was truncated, the maximum grew or the cadence says so. *)
Lemma stats_tick_spec t s :
  let c := count_tick horizon (at_step t) (cap t) (left_market t) (default empty_stats s) in
  ticks c ≠ 0 →
  let '(s', sent) := stats_tick horizon (at_step t) (cap t) (left_market t) s in
  Forall (eq (view (Some c))) sent ∧
  (sent = [] ∧ s' = Some c ∧ converged (left_market t) = true ∧ rounds_max c = last_pushed_max c ∧
   ticks c mod ROUND_STATS_PATCH_EVERY ≠ 0 ∨
   sent ≠ [] ∧ s' = Some (with_pushed_max c)).
Proof.
  cbv zeta. set (c := count_tick _ _ _ _ _). intros Hc. unfold stats_tick, record_round_stats. fold c.
  assert (ticks c =? 0 = false) as Ec by lia.
  destruct (converged (left_market t)) eqn:Ecv.
  - unfold patch_round_stats. cbv beta iota. rewrite Ec. cbn [negb andb].
  destruct (bool_decide (rounds_max c = last_pushed_max c)) eqn:Eg; cbn [andb].
  + destruct (ticks c mod _ =? 0) eqn:Em; cbn [negb]; (split; [by repeat constructor|]); [by right|].
    left. bools. split_and!; [done..|lia].
  + split; [by repeat constructor|]. by right.
  - unfold patch_round_stats at 1. cbv beta iota. rewrite Ec. cbn [negb andb]. unfold patch_round_stats.
  change (ticks (with_pushed_max c)) with (ticks c). rewrite Ec. cbn [negb andb].
  change (rounds_max (with_pushed_max c)) with (rounds_max c).
  change (last_pushed_max (with_pushed_max c)) with (rounds_max c). rewrite bool_decide_eq_true_2 by done.
  cbn [andb]. destruct (negb _); (split; [by repeat constructor|]); right; done.
Qed.

(** What holds after the ticks [ts]: exact counters, honest views, and a last view
that lags by the ticks since the cadence last struck. *)
Record provenance_ok (ts : list tick_record) (p : option round_stats * list stats_view) : Prop := {
  po_exact : match p.1 with Some s => stats_exact s ts | None => ts = [] end;
  po_honest v : v ∈ p.2 → ∃ n s, stats_exact s (take n ts) ∧ v = view (Some s);
  po_fresh s : p.1 = Some s → ts ≠ [] ∧ last_pushed_max s = rounds_max s ∧
  ∃ v, last p.2 = Some v ∧ v_ticks_truncated_by_backstop v = truncated s ∧ v_rounds_max v = rounds_max s ∧
    v_ticks v ≤ ticks s ≤ v_ticks v + ticks s mod ROUND_STATS_PATCH_EVERY;
}.

Lemma exact_ticks_pos s ts t : stats_exact s (ts ++ [t]) → 0 < ticks s.
Proof. intros [-> _]. rewrite length_app. simpl. lia. Qed.

Lemma default_exact o ts :
  match o with Some s => stats_exact s ts | None => ts = [] end → stats_exact (default empty_stats o) ts.
Proof. destruct o as [s|]; [done|]. intros ->. apply empty_stats_exact. Qed.

Lemma after_tick_ok ts p t : provenance_ok ts p → provenance_ok (ts ++ [t]) (after_tick p t).
Proof.
  intros [He Hh Hf]. pose proof (count_tick_exact t _ _ (default_exact _ _ He)) as Hc.
  pose proof (exact_ticks_pos _ _ _ Hc) as Hpos.
  pose proof (stats_tick_spec t p.1) as Hs. cbv zeta in Hs. unfold after_tick.
  set (c := count_tick _ _ _ _ _) in *. specialize (Hs ltac:(lia)).
  destruct (stats_tick _ _ _ _ _) as [s' sent]. destruct Hs as [Hsent Hcase].
  assert (∀ v, v ∈ p.2 ++ sent → ∃ n s, stats_exact s (take n (ts ++ [t])) ∧ v = view (Some s)) as Hhon.
  { intros v [Hv|Hv]%elem_of_app.
  - destruct (Hh v Hv) as (n & s & Hs & ->). exists (n `min` length ts)%nat, s. split; [|done].
    rewrite take_app_le by lia. destruct (decide (n ≤ length ts)%nat).
    + by rewrite Nat.min_l.
    + rewrite Nat.min_r, firstn_all by lia. by rewrite take_ge in Hs by lia.
  - exists (S (length ts)), c. rewrite take_ge by (rewrite length_app; simpl; lia). split; [done|].
    rewrite Forall_forall in Hsent. symmetry. by apply Hsent. }
  assert (ts ++ [t] ≠ []) as Hne by (by destruct ts).
  destruct Hcase as [(-> & -> & Hcv & Hmax & Hmod)|[Hsne ->]].
  - split; cbn [fst snd]; [done|by rewrite app_nil_r in *|]. intros ? [= <-]. split_and!; [done..|].
  destruct p as [[s|] sent]; cbn [fst snd default] in *; [|done].
  destruct (Hf s eq_refl) as (_ & Hl & v & Hlast & Htr & Hm & Hlag). exists v. rewrite app_nil_r.
  assert (last_pushed_max c = last_pushed_max s ∧ ticks c = ticks s + 1) as [El Et] by done.
  assert (truncated c = truncated s) as Er by (unfold c, count_tick; cbn [truncated]; by rewrite Hcv).
  split_and!; [done|congruence|congruence|lia|]. rewrite Et in *. unfold ROUND_STATS_PATCH_EVERY in *.
  assert ((ticks s + 1) mod 5 = ticks s mod 5 + 1) as ->; [|lia].
  pose proof (Z.mod_pos_bound (ticks s) 5 ltac:(done)). pose proof (Z_div_mod_eq_full (ticks s) 5).
  destruct (decide (ticks s mod 5 = 4)) as [E4|].
  + exfalso. apply Hmod. symmetry. apply (Z.mod_unique_pos _ _ (ticks s / 5 + 1)); lia.
  + symmetry. apply (Z.mod_unique_pos _ _ (ticks s / 5)); lia.
  - split; cbn [fst snd]; [by apply stats_exact_pushed|done|]. intros ? [= <-]. split_and!; [done..|].
  destruct (last sent) as [v|] eqn:Elast; [|by apply last_None in Elast].
  exists v. rewrite last_app, Elast.
  assert (v = view (Some c)) as ->.
  { symmetry. rewrite Forall_forall in Hsent. apply Hsent. by apply last_Some_elem_of. }
  unfold view. assert (ticks c =? 0 = false) as -> by lia. split_and!; [done..|].
  cbn [v_ticks ticks with_pushed_max]. pose proof (Z.mod_pos_bound (ticks c) ROUND_STATS_PATCH_EVERY ltac:(done)).
  lia.
Qed.

Lemma after_ticks_ok ts : provenance_ok ts (after_ticks ts).
Proof.
  induction ts as [|t ts IH] using rev_ind.
  - split; [done|by intros v ?%elem_of_nil|done].
  - unfold after_ticks in *. rewrite foldl_app. by apply after_tick_ok.
Qed.

Lemma total_bounds m M ts :
  Forall (λ t, m ≤ used t ≤ M) ts → Z.of_nat (length ts) * m ≤ total used ts ≤ Z.of_nat (length ts) * M.
Proof. induction 1; simpl total; simpl length; lia. Qed.

(** The recorded provenance is what happened.  After any ticks the counters are
the counts over the list of ticks: those in the horizon and in the drain add
up to all, so do the idle ones and the auctions; the least number of rounds is
taken over the auctions, the greatest over all ticks, the sum lies between
auctions times either; every view that was sent is the exact report of some
first part of the ticks. *)
Theorem round_stats_exact ts :
  match (after_ticks ts).1 with
  | None => ts = []
  | Some s =>
    stats_exact s ts ∧ ticks_in_horizon s + ticks_drain s = ticks s ∧
    ticks_idle s + auction_ticks s = ticks s ∧ 0 ≤ truncated s ≤ ticks s ∧
    ∀ m M, rounds_min s = Some m → rounds_max s = Some M →
      auction_ticks s * m ≤ rounds_sum s ≤ auction_ticks s * M
  end ∧
  ∀ v, v ∈ (after_ticks ts).2 → ∃ n s, stats_exact s (take n ts) ∧ v = view (Some s).
Proof.
  destruct (after_ticks_ok ts) as [He Hh _]. split; [|done].
  destruct (after_ticks ts).1 as [s|]; [|done]. split; [done|].
  pose proof (count_complement in_drain ts). pose proof (count_complement (λ t, 1 ≤ used t) ts).
  pose proof (count_complement (λ t, converged (left_market t) = false) ts).
  assert (∀ P `{∀ t, Decision (P t)}, 0 ≤ count_of P ts) as Hpos by (intros; unfold count_of; lia).
  destruct He as [E1 E2 E3 E4 E5 E6 E7 E8 E9 _ _ _]. split_and!.
  - lia.
  - rewrite E4, E5, E1. unfold auctions, count_of in *. lia.
  - rewrite E9. apply Hpos.
  - rewrite E9, E1. pose proof (Hpos (λ t, ¬ converged (left_market t) = false) _). lia.
  - intros m M Em EM. rewrite Em in E7. rewrite EM in E8. destruct E7 as [_ Hmin], E8 as [_ Hmax].
  rewrite E5, E6. apply total_bounds. apply Forall_forall. intros t Ht. rewrite Forall_forall in Hmin, Hmax.
  split; [by apply Hmin|]. apply Hmax. by apply list_elem_of_filter in Ht as [_ ?].
Qed.

(** The record of a run is never far behind.  As soon as one tick was recorded
the last view sent has the exact number of truncated ticks and the exact
maximum of rounds, and lags the number of ticks by fewer than
[_ROUND_STATS_PATCH_EVERY]; the flush of [close] sends the exact one. *)
Theorem provenance_not_stale ts s :
  (after_ticks ts).1 = Some s →
  (∃ v, last (after_ticks ts).2 = Some v ∧ v_ticks_truncated_by_backstop v = truncated s ∧
  v_rounds_max v = rounds_max s ∧ v_ticks v ≤ ticks s < v_ticks v + ROUND_STATS_PATCH_EVERY) ∧
  (patch_round_stats true (Some s)).2 = [view (Some s)].
Proof.
  intros Hs. destruct (after_ticks_ok ts) as [He _ Hf]. rewrite Hs in He.
  destruct (Hf s Hs) as (Hne & _ & v & Hl & Ht & Hm & Hlag). split.
  - exists v. split_and!; [done..| |]; pose proof (Z.mod_pos_bound (ticks s) ROUND_STATS_PATCH_EVERY ltac:(done)); lia.
  - unfold patch_round_stats. rewrite (ex_ticks _ _ He). destruct ts; [done|].
  assert (Z.of_nat (length (t :: ts)) =? 0 = false) as -> by (by apply Z.eqb_neq). done.
Qed.
End Provenance.

(** ** Buckets *)

Section Buckets.
Context {K : Type} `{EqDecision K} (key : doc → K).

(** The bucket of a key is what the list holds under it, in order; keys without
entities have no bucket. *)
Lemma bucket_by_get l k :
  d_get (bucket_by key l) k =
  match filter (λ x, key x = k) l with [] => None | xs => Some xs end.
Proof.
  unfold bucket_by; induction l as [|x l IH] using rev_ind; [done|].
  rewrite foldl_app, filter_app, filter_cons, filter_nil. cbn [foldl].
  rewrite d_get_set. destruct (decide (key x = k)) as [<-|Hne].
  - rewrite IH. by destruct (filter _ l).
  - rewrite IH, app_nil_r. done.
Qed.

Lemma bucket_by_default l k : default [] (d_get (bucket_by key l) k) = filter (λ x, key x = k) l.
Proof. rewrite bucket_by_get. by destruct (filter _ l). Qed.

Lemma bucket_by_NoDup l : NoDup (d_keys (bucket_by key l)).
Proof.
  unfold bucket_by. apply (foldl_invariant _ (λ d, NoDup (d_keys d))); [|constructor].
  intros d x _ Hd. by apply NoDup_d_set.
Qed.

Lemma bucket_by_elem l k xs : (k, xs) ∈ bucket_by key l → xs = filter (λ x, key x = k) l.
Proof.
  intros Hin. apply elem_d_get in Hin; [|apply bucket_by_NoDup].
  rewrite <-(bucket_by_default l k). by rewrite Hin.
Qed.
End Buckets.

(** ** One bucket *)

Section BucketLemmas.
Context `{PyText, PyMath, Blake2b, Rng}.
Context (facs : list pydict) (slv : solver_name) (solver_params : pydict).
Context (cfg : tick_config) (structure : pyval) (Hper : 1 ≤ tc_per_order cfg).
Abbreviation allowed := (coop_pair_allowed facs cfg structure).
Abbreviation cost := (coop_cost facs solver_params).

Lemma bucket_pairs_sound bt bo pairs t o :
  bucket_pairs facs cfg structure bt bo = Ok pairs → (t, o) ∈ pairs →
  t ∈ bt ∧ o ∈ bo ∧ allowed t o = Ok true.
Proof.
  unfold bucket_pairs. destruct (mapR _ _) as [per|] eqn:Em; cbn [mbind result_bind]; [|done].
  intros [= <-] Hin. apply list_elem_of_In, in_concat in Hin as (l & Hl%list_elem_of_In & Hin%list_elem_of_In).
  destruct (mapR_elem _ _ _ _ Em Hl) as ([k group] & Hg & E). cbn [fst snd] in E.
  destruct k as [oh|]; [|injection E as <-; by apply elem_of_nil in Hin].
  pose proof (bucket_by_elem _ _ _ _ Hg) as Eg.
  destruct (filter _ bt) as [|t0 ts] eqn:Et; [injection E as <-; by apply elem_of_nil in Hin|].
  rewrite <-Et in E.
  destruct (iter_candidate_pairs_spec facs _ _ (tc_per_order cfg) _ _ _ _ ltac:(lia) E) as [_ Hs].
  destruct (Hs t o Hin) as (Ht & Ho & ?).
  split_and!; [by apply list_elem_of_filter in Ht as [_ ?]|subst group; by apply list_elem_of_filter in Ho as [_ ?]|done].
Qed.

Lemma on_module_ok {A} (m : eff rng A) g a g' :
  on_module m g = (Ok a, g') → ∃ r r', m r = (Ok a, r').
Proof. unfold on_module. destruct (m (module_rng g)) as [x r'] eqn:E. intros [= -> _]. eauto. Qed.

Lemma on_solver_ok {A} (m : eff rng A) g a g' :
  on_solver m g = (Ok a, g') → ∃ r r', m r = (Ok a, r').
Proof.
  unfold on_solver. destruct (injected g) as [i|]; [|apply on_module_ok].
  destruct (m i) as [x r'] eqn:E. intros [= -> _]. eauto.
Qed.

(** A bucket's result pairs its trucks and orders, each pair allowed, none twice. *)
Lemma solve_bucket_sound tb bt bo g out g' :
  Forall has_id_str bt → Forall has_id_str bo → NoDup (map id_of bo) →
  solve_bucket facs slv solver_params cfg structure tb bt bo g = (Ok out, g') →
  (∀ t o, (t, o) ∈ out → t ∈ bt ∧ o ∈ bo ∧ allowed t o = Ok true) ∧
  NoDup (map id_of (map fst out)) ∧ NoDup (map id_of (map snd out)).
Proof.
  intros Ht Ho Hnd. unfold solve_bucket. destruct (tc_use_spatial cfg && has_solve_pairs slv).
  - intros Hb. apply bind_inv in Hb as (pairs & g1 & Hp & Hs). unfold lift in Hp. injection Hp as Hp <-.
  apply on_solver_ok in Hs as (r & r' & Hs).
  assert (∀ p, Ok p ∈ map Ok pairs → p ∈ pairs) as Hin by (intros p (q & [= ->] & Hq)%list_elem_of_fmap; done).
  rewrite Forall_forall in Ht, Ho.
  destruct (greedy_pairs_sound tb (map Ok pairs) cost r out r') as (H1' & H2' & H3'); [|done|].
  + intros [t o] Hpr%Hin. destruct (bucket_pairs_sound _ _ _ _ _ Hp Hpr) as (? & ? & _). auto.
  + split; [|done]. intros t o Hto. by eapply bucket_pairs_sound, Hin, H1'.
  - intros Hb. apply bind_inv in Hb as (bt' & g1 & Hb & Hs). apply on_solver_ok in Hs as (r & r' & Hs).
  assert (∀ t, t ∈ bt' → t ∈ bt) as Hsub.
  { destruct (_ <? _).
    - apply on_module_ok in Hb as (r0 & r1 & Hb). destruct (sample r0 _ bt) as [l r2] eqn:E.
      injection Hb as <- _. intros t Hin. pose proof (sample_sub r0 (Z.to_nat (tc_max_trucks cfg)) bt) as Hs'.
      rewrite E in Hs'. simpl in Hs'. by eapply elem_of_submseteq.
    - by injection Hb as <- _. }
  destruct (solve_laws slv tb allowed cost bt' bo r out r') as (H1' & H2' & H3'); [|done|done|done|].
  + rewrite Forall_forall in *. auto.
  + split; [|done]. intros t o Hto. destruct (H1' t o Hto) as (? & ? & ?). auto.
Qed.
End BucketLemmas.

(** ** The least known cost *)

(** [min] of the known costs: an upper bound and one of them. *)
Lemma py_min_spec l :
  Forall not_nan l →
  match py_min l with
  | Some m => m ∈ l ∧ ∀ c, c ∈ l → f_leb m c = true
  | None => l = []
  end.
Proof.
  destruct l as [|x l]; [done|]. intros Hn. cbn [py_min].
  enough (∀ l x, not_nan x → Forall not_nan l →
    let m := foldl (λ m c, if f_ltb c m then c else m) x l in
    (m ∈ x :: l) ∧ not_nan m ∧ ∀ c, c ∈ x :: l → f_leb m c = true) as Hm.
  { apply Forall_cons in Hn as [Hx Hl]. destruct (Hm l x Hx Hl) as (? & _ & ?). done. }
  clear x l Hn. induction l as [|y l IH]; intros x Hx Hl; cbn [foldl].
  { cbv zeta. split; [set_solver|]. split; [done|]. intros c Hc%list_elem_of_singleton. subst c.
    destruct (total_on (P:=not_nan) (leb:=f_leb) x x); done. }
  apply Forall_cons in Hl as [Hy Hl].
  assert (f_leb y x = true ∨ f_leb x y = true) as Hxy by (by apply (total_on (P:=not_nan))).
  set (z := if f_ltb y x then y else x).
  assert (not_nan z ∧ f_leb z x = true ∧ f_leb z y = true ∧ (z = x ∨ z = y)) as (Hz & Hzx & Hzy & Hor).
  { unfold z. destruct (f_ltb y x) eqn:E.
    - split_and!; [done|by apply f_ltb_leb| |by right]. destruct (total_on (P:=not_nan) (leb:=f_leb) y y); done.
    - apply f_ltb_false in E; [|done..]. split_and!; [done| |done|by left].
      destruct (total_on (P:=not_nan) (leb:=f_leb) x x); done. }
  destruct (IH z Hz Hl) as (Hin & Hnm & Hle). fold z. cbv zeta in *. split_and!; [|done|].
  - apply elem_of_cons in Hin as [->|Hin]; [destruct Hor as [->| ->]; set_solver|set_solver].
  - assert (f_leb (foldl (λ m c, if f_ltb c m then c else m) z l) z = true) as Hmz by (apply Hle; set_solver).
    intros c [->|[->|Hc]%elem_of_cons]%elem_of_cons.
    + by apply (trans_on (P:=not_nan)) with z.
    + by apply (trans_on (P:=not_nan)) with z.
    + apply Hle. set_solver.
Qed.

(** ** Tags *)

Section Tags.
Context `{PyText, PyMath}.
Context (facs : list pydict) (solver_params : pydict) (cfg : tick_config) (structure : pyval).
Abbreviation allowed := (coop_pair_allowed facs cfg structure).
Abbreviation cost := (coop_cost facs solver_params).

(** A truck of the owner that could have taken the order, at a known cost. *)
Definition own_offer (used : gset string) (owner : string) (trucks : list doc) (order : doc) (t : doc) (c : float64) :
  Prop :=
  t ∈ trucks ∧ entity_id t ∉ used ∧ haulier_of t = Some owner ∧ allowed t order = Ok true ∧
  cost t order = Ok c ∧ f_eqb c f_inf = false.

(** The benefit is measured against the cheapest of them, and is undefined exactly
when there is none. *)
Definition benefit_exact (used : gset string) (owner : string) (trucks : list doc) (t o : doc) (b : option float64) :
  Prop :=
  match b with
  | Some b => ∃ own best c, own_offer used owner trucks o own best ∧
    (∀ own' c', own_offer used owner trucks o own' c' → f_leb best c' = true) ∧
    cost t o = Ok c ∧ b = py_round3 (f_sub best c)
  | None => ∀ own c, ¬ own_offer used owner trucks o own c
  end.

Lemma own_costs_spec used owner trucks order cs c :
  own_costs facs solver_params cfg structure used owner trucks order = Ok cs →
  (c ∈ cs ↔ ∃ t, t ∈ trucks ∧ entity_id t ∉ used ∧ haulier_of t = Some owner ∧ allowed t order = Ok true ∧
   cost t order = Ok c).
Proof.
  unfold own_costs. destruct (mapR _ _) as [per|] eqn:Em; cbn [mbind result_bind]; [|done]. intros [= <-].
  revert per Em. induction trucks as [|t trucks IH]; intros per Em; cbn [mapR] in Em.
  { injection Em as <-. simpl. rewrite elem_of_nil. split; [done|]. intros (t & Ht & _). by apply elem_of_nil in Ht. }
  match type of Em with ?r ≫= _ = _ => destruct r as [l|] eqn:El end; cbn [mbind result_bind] in Em; [|done].
  assert (c ∈ l ↔ entity_id t ∉ used ∧ haulier_of t = Some owner ∧ allowed t order = Ok true ∧ cost t order = Ok c)
  as Hl.
  { clear Em. destruct (bool_decide (entity_id t ∈ used)) eqn:Eu; cbn [orb] in El; bools.
  { injection El as <-. rewrite elem_of_nil. tauto. }
  destruct (bool_decide (haulier_of t = Some owner)) eqn:Eh; cbn [negb] in El; bools.
  2:{ injection El as <-. rewrite elem_of_nil. tauto. }
  destruct (allowed t order) as [[]|]; cbn [mbind result_bind] in El; [| |done].
  - destruct (cost t order) as [c'|]; cbn [mbind result_bind] in El; [|done].
    injection El as <-. rewrite list_elem_of_singleton. naive_solver.
  - injection El as <-. rewrite elem_of_nil. naive_solver. }
  destruct (mapR _ trucks) as [per'|]; cbn [mbind result_bind] in Em; [|done]. injection Em as <-.
  cbn [concat]. rewrite elem_of_app, (IH _ eq_refl), Hl. set_solver.
Qed.

Lemma benefit_of_spec used owner trucks t o b :
  benefit_of facs solver_params cfg structure used owner trucks t o = Ok b → benefit_exact used owner trucks t o b.
Proof.
  unfold benefit_of. destruct (own_costs _ _ _ _ _ _ _ _) as [own|] eqn:Eo; cbn [mbind result_bind]; [|done].
  pose proof (λ c, own_costs_spec used owner trucks o own c Eo) as Hown.
  set (known := filter _ own).
  assert (∀ c, c ∈ known ↔ ∃ t, own_offer used owner trucks o t c) as Hk.
  { intros c. unfold known, own_offer. rewrite list_elem_of_filter, Hown. naive_solver. }
  assert (Forall not_nan known) as Hn.
  { apply Forall_forall. intros c (own_t & _ & _ & _ & _ & Hc & _)%Hk. by apply assignment_cost_pos in Hc as [_ ?]. }
  pose proof (py_min_spec known Hn) as Hm. destruct (py_min known) as [best|].
  - destruct Hm as [Hin Hle]. destruct (cost t o) as [c|] eqn:Ec; cbn [mbind result_bind]; [|done].
  intros [= <-]. apply Hk in Hin as [own_t Ht]. exists own_t, best, c. split_and!; [done| |done|done].
  intros own' c' Hc'. apply Hle, Hk. eauto.
  - intros [= <-] own_t c Hc. assert (c ∈ known) as Hin by (apply Hk; eauto). rewrite Hm in Hin. by apply elem_of_nil in Hin.
Qed.

(** What the tag of a pair must be. *)
Definition tag_exact (used : gset string) (trucks : list doc) (p : doc * doc) (tag : option collab_tag) : Prop :=
  match haulier_key p.1, haulier_key p.2 with
  | Some th, Some oh =>
    if decide (th = oh) then tag = None
    else ∃ b, tag = Some (PartitionTag oh th b) ∧ benefit_exact used oh trucks p.1 p.2 b
  | _, _ => tag = None
  end.

Definition pair_key (p : doc * doc) : string * string := (entity_id p.1, entity_id p.2).

Lemma tag_pairs_spec used trucks tags ps tags' :
  NoDup (map pair_key ps) → (∀ p, p ∈ ps → tags !! pair_key p = None) →
  foldR (tag_pair facs solver_params cfg structure used trucks) tags ps = Ok tags' →
  (∀ p, p ∈ ps → tag_exact used trucks p (tags' !! pair_key p)) ∧
  (∀ k, k ∉ map pair_key ps → tags' !! k = tags !! k).
Proof.
  revert tags. induction ps as [|p ps IH]; intros tags Hnd Hfresh Hf; cbn [foldR] in Hf.
  { injection Hf as <-. split; [by intros p ?%elem_of_nil|done]. }
  destruct (tag_pair _ _ _ _ _ _ tags p) as [tags1|] eqn:E; cbn [mbind result_bind] in Hf; [|done].
  cbn [map] in Hnd. apply NoDup_cons in Hnd as [Hni Hnd].
  assert (tag_exact used trucks p (tags1 !! pair_key p) ∧ ∀ k, k ≠ pair_key p → tags1 !! k = tags !! k) as [Hp Hk].
  { unfold tag_pair in E. unfold tag_exact. pose proof (Hfresh p ltac:(set_solver)) as Hf0.
  destruct (haulier_key p.1) as [th|]; [|by injection E as <-].
  destruct (haulier_key p.2) as [oh|]; [|by injection E as <-].
  case_decide; [by injection E as <-|].
  destruct (benefit_of _ _ _ _ _ _ _ _ _) as [b|] eqn:Eb; cbn [mbind result_bind] in E; [|done].
  injection E as <-. split; [|intros k Hk; apply lookup_insert_ne; by intros Ek; apply Hk].
  exists b. rewrite lookup_insert_eq. split; [done|]. by apply benefit_of_spec. }
  assert (∀ q, q ∈ ps → pair_key q ≠ pair_key p) as Hne.
  { intros q Hq Eq. apply Hni. rewrite <-Eq. by apply list_elem_of_fmap_2. }
  destruct (IH tags1 Hnd) as [I1 I2]; [|done|].
  - intros q Hq. rewrite Hk by auto. apply Hfresh. set_solver.
  - split.
  + intros q [->|Hq]%elem_of_cons; [|auto]. by rewrite I2.
  + intros k Hk'. cbn [map] in Hk'. rewrite I2 by set_solver. apply Hk. set_solver.
Qed.
End Tags.

(** ** The loop over the buckets *)

Section Plan.
Context `{PyText, PyMath, Blake2b, Rng}.
Context (facs : list pydict) (slv : solver_name) (solver_params : pydict).
Context (cfg : tick_config) (structure : pyval) (Hper : 1 ≤ tc_per_order cfg).
Context (candidates orders : list doc).
Context (Hct : Forall has_id_str candidates) (Hco : Forall has_id_str orders).
Context (Hnt : NoDup (map id_of candidates)) (Hno : NoDup (map id_of orders)).
Context (comp : gmap string nat).
Abbreviation allowed := (coop_pair_allowed facs cfg structure).
Abbreviation key := (λ d, partition_key comp (haulier_of d)).
Abbreviation bucket_trucks k := (filter (λ t, key t = k) candidates).
Abbreviation truck_ids out := (list_to_set (C:=gset string) (map (λ p, entity_id p.1) out)).

Lemma entity_id_of d : has_id_str d → entity_id d = id_of d.
Proof. intros Hd. unfold entity_id. by rewrite (doc_id_of d Hd). Qed.

Lemma same_id (l : list doc) x y :
  NoDup (map id_of l) → x ∈ l → y ∈ l → id_of x = id_of y → x = y.
Proof.
  intros Hnd Hx Hy E. apply list_elem_of_lookup in Hx as [i Hi]. apply list_elem_of_lookup in Hy as [j Hj].
  assert (i = j) as ->; [|congruence].
  eapply NoDup_lookup; [exact Hnd|rewrite list_lookup_fmap, Hi; done|rewrite list_lookup_fmap, Hj; simpl; by rewrite E].
Qed.

(** What holds of a plan made from the buckets [ks]. *)
Record plan_ok (ks : list (option partition)) (s : planned) : Prop := {
  pl_pairs t o : (t, o) ∈ s.1 → t ∈ candidates ∧ o ∈ orders ∧ allowed t o = Ok true ∧ key t = key o ∧ key o ∈ ks;
  pl_trucks : NoDup (map id_of (map fst s.1));
  pl_orders : NoDup (map id_of (map snd s.1));
  pl_tags p : p ∈ s.1 →
  tag_exact facs solver_params cfg structure (truck_ids s.1) candidates p (s.2 !! pair_key p);
  pl_untagged k : k ∉ map pair_key s.1 → s.2 !! k = None;
}.

(** The trucks of an order's owner are all in the order's bucket, so later buckets
and other buckets' trucks do not matter to its benefit. *)
Lemma own_offer_local used used' owner o :
  haulier_of o = Some owner →
  (∀ t, t ∈ candidates → key t = key o → entity_id t ∈ used ↔ entity_id t ∈ used') →
  ∀ t c, own_offer facs solver_params cfg structure used owner (bucket_trucks (key o)) o t c ↔
       own_offer facs solver_params cfg structure used' owner candidates o t c.
Proof.
  intros Ho Hu t c. unfold own_offer. rewrite list_elem_of_filter. split.
  - intros ([Hk Ht] & Hn & Hrest). split; [done|]. split; [by rewrite <-(Hu t Ht Hk)|done].
  - intros (Ht & Hn & Hh & Hrest). assert (key t = key o) as Hk by (by rewrite Hh, Ho).
  split; [done|]. split; [by rewrite (Hu t Ht Hk)|done].
Qed.

Lemma benefit_exact_ext used used' trucks trucks' owner t o b :
  (∀ t c, own_offer facs solver_params cfg structure used owner trucks o t c ↔
        own_offer facs solver_params cfg structure used' owner trucks' o t c) →
  benefit_exact facs solver_params cfg structure used owner trucks t o b →
  benefit_exact facs solver_params cfg structure used' owner trucks' t o b.
Proof.
  intros He. destruct b as [b|]; cbn [benefit_exact].
  - intros (own & best & c & Ho & Hle & Hc & ->). exists own, best, c.
  split_and!; [by apply He| |done|done]. intros own' c' Ho'. by apply (Hle own'), He.
  - intros Hn own c Ho. by apply (Hn own c), He.
Qed.

Lemma haulier_key_of d h : haulier_key d = Some h → haulier_of d = Some h.
Proof. unfold haulier_key. destruct (haulier_of d); [|done]. case_decide; [done|]. congruence. Qed.

Lemma tag_exact_ext used used' trucks trucks' p tag :
  (∀ oh, haulier_of p.2 = Some oh → ∀ t c,
   own_offer facs solver_params cfg structure used oh trucks p.2 t c ↔
   own_offer facs solver_params cfg structure used' oh trucks' p.2 t c) →
  tag_exact facs solver_params cfg structure used trucks p tag →
  tag_exact facs solver_params cfg structure used' trucks' p tag.
Proof.
  intros He. unfold tag_exact. destruct (haulier_key p.1) as [th|]; [|done].
  destruct (haulier_key p.2) as [oh|] eqn:Eo; [|done]. case_decide; [done|].
  intros (b & -> & Hb). exists b. split; [done|]. eapply benefit_exact_ext; [|exact Hb].
  by apply He, haulier_key_of.
Qed.

Lemma truck_entity_id t : t ∈ candidates → entity_id t = id_of t.
Proof. intros Hin. apply entity_id_of. rewrite Forall_forall in Hct. auto. Qed.

Lemma order_entity_id o : o ∈ orders → entity_id o = id_of o.
Proof. intros Hin. apply entity_id_of. rewrite Forall_forall in Hco. auto. Qed.

(** Pairs of known documents. *)
Definition known_pairs (out : assignment) : Prop := ∀ t o, (t, o) ∈ out → t ∈ candidates ∧ o ∈ orders.

Lemma used_iff (out : assignment) x :
  known_pairs out → x ∈ candidates → entity_id x ∈ truck_ids out ↔ ∃ o, (x, o) ∈ out.
Proof.
  intros Hout Hx. rewrite elem_of_list_to_set. split.
  - intros ([t o] & E & Hin)%list_elem_of_fmap. cbn [fst] in E. destruct (Hout t o Hin) as [Hc _].
  rewrite !truck_entity_id in E by done. apply (same_id candidates) in E; [subst t|done..]. eauto.
  - intros [o Hin]. apply list_elem_of_fmap. by exists (x, o).
Qed.

(** Trucks that only occur in the other plan. *)
Lemma used_app (out out' : assignment) x :
  known_pairs out → known_pairs out' → x ∈ candidates → (∀ o, (x, o) ∉ out') →
  (entity_id x ∈ truck_ids (out ++ out') ↔ entity_id x ∈ truck_ids out) ∧
  (entity_id x ∈ truck_ids (out' ++ out) ↔ entity_id x ∈ truck_ids out).
Proof.
  intros K K' Hx Hni. assert (known_pairs (out ++ out') ∧ known_pairs (out' ++ out)) as [? ?].
  { split; intros t o [Hin|Hin]%elem_of_app; auto. }
  rewrite !used_iff by done. set_solver.
Qed.

Lemma pair_keys_NoDup (out : assignment) :
  known_pairs out → NoDup (map id_of (map snd out)) → NoDup (map pair_key out).
Proof.
  intros Hout Hnd. apply (NoDup_fmap_1 snd). change (NoDup (map snd (map pair_key out))).
  assert (map snd (map pair_key out) = map id_of (map snd out)) as ->; [|done].
  rewrite !map_map. apply map_ext_in. intros [t o] Hin%list_elem_of_In. cbn [snd pair_key].
  apply order_entity_id. by apply (Hout t o).
Qed.

(** Two plans over different buckets share no truck and no order. *)
Lemma plans_disjoint (out out' : assignment) (ks : list (option partition)) k :
  known_pairs out → known_pairs out' → k ∉ ks →
  (∀ t o, (t, o) ∈ out → key t = key o ∧ key o ∈ ks) → (∀ t o, (t, o) ∈ out' → key t = k ∧ key o = k) →
  ∀ t t' o o', (t, o) ∈ out → (t', o') ∈ out' → id_of t ≠ id_of t' ∧ id_of o ≠ id_of o'.
Proof.
  intros Hout Hout' Hk Hkey Hkey' t t' o o' H1' H2'. destruct (Hkey t o H1') as [E1 E2].
  destruct (Hkey' t' o' H2') as [E3 E4]. destruct (Hout t o H1'), (Hout' t' o' H2'). split; intros E.
  - apply (same_id candidates) in E; [subst t'|done..]. cbv beta in *. congruence.
  - apply (same_id orders) in E; [subst o'|done..]. cbv beta in *. congruence.
Qed.

Lemma disjoint_NoDup (f : doc * doc → string) (out out' : assignment) :
  (∀ p p', p ∈ out → p' ∈ out' → f p ≠ f p') → NoDup (map f out) → NoDup (map f out') →
  NoDup (map f (out ++ out')).
Proof.
  intros Hd H1' H2'. rewrite map_app. apply NoDup_app. split_and!; [done| |done].
  intros x (p & -> & Hp)%list_elem_of_fmap (p' & E & Hp')%list_elem_of_fmap. by apply (Hd p p').
Qed.

(** The result of a fresh bucket [k] extends the plan. *)
Lemma plan_extend ks k s (result : assignment) tags :
  plan_ok ks s → k ∉ ks →
  (∀ t o, (t, o) ∈ result → t ∈ bucket_trucks k ∧ o ∈ filter (λ o, key o = k) orders ∧ allowed t o = Ok true) →
  NoDup (map id_of (map fst result)) → NoDup (map id_of (map snd result)) →
  foldR (tag_pair facs solver_params cfg structure (truck_ids result) (bucket_trucks k)) s.2 result = Ok tags →
  plan_ok (k :: ks) (s.1 ++ result, tags).
Proof.
  intros [Hp Ht Ho Htag Hun] Hk Hr Hrt Hro Hf.
  assert (∀ t o, (t, o) ∈ result → t ∈ candidates ∧ o ∈ orders ∧ allowed t o = Ok true ∧ key t = k ∧ key o = k) as Hr'.
  { intros t o Hin. destruct (Hr t o Hin) as ([? ?]%list_elem_of_filter & [? ?]%list_elem_of_filter & ?). done. }
  assert (known_pairs s.1) as K1 by (intros t o Hin; by destruct (Hp t o Hin) as (? & ? & _)).
  assert (known_pairs result) as K2 by (intros t o Hin; by destruct (Hr' t o Hin) as (? & ? & _)).
  assert (known_pairs (s.1 ++ result)) as K3 by (intros t o [Hin|Hin]%elem_of_app; auto).
  pose proof (plans_disjoint s.1 result ks k K1 K2 Hk) as Hdis.
  assert (∀ t t' o o', (t, o) ∈ s.1 → (t', o') ∈ result → id_of t ≠ id_of t' ∧ id_of o ≠ id_of o') as Hd.
  { apply Hdis; intros t o Hin; [by destruct (Hp t o Hin) as (_ & _ & _ & ?)|by destruct (Hr' t o Hin) as (_ & _ & _ & ?)]. }
  clear Hdis.
  assert (∀ p p', p ∈ s.1 → p' ∈ result → pair_key p ≠ pair_key p') as Hkey.
  { intros [t o] [t' o'] H1' H2' [= _ E]. destruct (Hd t t' o o' H1' H2') as [_ Hne].
  rewrite !order_entity_id in E by (by apply (K1 t o) || by apply (K2 t' o')). done. }
  destruct (tag_pairs_spec facs solver_params cfg structure (truck_ids result) (bucket_trucks k) s.2 result tags
  (pair_keys_NoDup _ K2 Hro)) as [T1 T2]; [|done|].
  { intros p Hin. apply Hun. intros (p' & E & Hin')%list_elem_of_fmap. by apply (Hkey p' p). }
  split; cbn [fst snd].
  - intros t o [Hin|Hin]%elem_of_app.
  + destruct (Hp t o Hin) as (? & ? & ? & ? & ?). split_and!; [done..|]. by right.
  + destruct (Hr' t o Hin) as (? & ? & ? & Hkt & Hko). split_and!; [done..|congruence|]. rewrite Hko. by left.
  - rewrite map_map in *. apply disjoint_NoDup; [|done|done]. intros [t o] [t' o'] ? ?. by apply (Hd t t' o o').
  - rewrite map_map in *. apply disjoint_NoDup; [|done|done]. intros [t o] [t' o'] ? ?. by apply (Hd t t' o o').
  - intros [t o] [Hin|Hin]%elem_of_app.
  + rewrite T2 by (intros (p' & E & Hin')%list_elem_of_fmap; by apply (Hkey (t, o) p')).
    destruct (Hp t o Hin) as (_ & _ & _ & _ & Hk1).
    eapply tag_exact_ext; [|by apply Htag]. intros oh Hoh x c. cbn [snd] in Hoh |- *.
    rewrite <-(own_offer_local (truck_ids s.1) (truck_ids s.1) oh o Hoh) by done.
    apply own_offer_local; [done|]. intros y Hy Hky. symmetry. apply used_app; [done..|].
    intros o' Hin'. destruct (Hr' y o' Hin') as (_ & _ & _ & E1 & _). cbv beta in *. congruence.
  + destruct (Hr' t o Hin) as (_ & _ & _ & _ & Hk1).
    eapply tag_exact_ext; [|by apply T1]. intros oh Hoh x c. cbn [snd] in Hoh |- *. rewrite <-Hk1.
    apply own_offer_local; [done|]. intros y Hy Hky. symmetry. apply used_app; [done..|].
    intros o' Hin'. destruct (Hp y o' Hin') as (_ & _ & _ & E1 & E2). cbv beta in *. congruence.
  - intros k' Hk'. rewrite map_app in Hk'. rewrite T2 by set_solver. apply Hun. set_solver.
Qed.

Lemma map_filter_NoDup {A} (f : doc → A) (P : doc → Prop) `{∀ d, Decision (P d)} l :
  NoDup (map f l) → NoDup (map f (filter P l)).
Proof.
  intros Hnd. eapply sublist_NoDup; [exact Hnd|]. clear Hnd. induction l as [|d l IH]; [done|].
  rewrite filter_cons. case_decide; cbn [map]; by constructor.
Qed.

Lemma Forall_filter_sub (Q P : doc → Prop) `{∀ d, Decision (P d)} l : Forall Q l → Forall Q (filter P l).
Proof. rewrite !Forall_forall. intros Hq d [_ Hd]%list_elem_of_filter. auto. Qed.

Lemma plan_bucket_ok tb ks s k bo g s' g' :
  plan_ok ks s → k ∉ ks → bo = filter (λ o, key o = k) orders →
  plan_bucket facs slv solver_params cfg structure tb (bucket_by key candidates) s (k, bo) g = (Ok s', g') →
  plan_ok (k :: ks) s'.
Proof.
  intros Hs Hk -> Hp. unfold plan_bucket in Hp. cbn [fst snd] in Hp. rewrite bucket_by_default in Hp.
  assert (plan_ok (k :: ks) s) as Hskip.
  { destruct Hs as [Hp' ? ? ? ?]. split; [|done..]. intros t o Hin.
  destruct (Hp' t o Hin) as (? & ? & ? & ? & ?). split_and!; [done..|]. by right. }
  destruct k as [k|]; [|by injection Hp as <- _].
  destruct (filter _ candidates) as [|t0 ts] eqn:Et; [by injection Hp as <- _|]. rewrite <-Et in Hp. clear t0 ts Et.
  apply bind_inv in Hp as (result & g1 & Hsol & Hp).
  apply solve_bucket_sound in Hsol as (H1' & H2' & H3');
  [|done|by apply Forall_filter_sub..|by apply map_filter_NoDup].
  apply bind_inv in Hp as (tags & g2 & Htags & Hp). unfold lift in Htags. injection Htags as Htags <-.
  injection Hp as <- _. by apply plan_extend.
Qed.

Lemma plan_buckets_ok tb ks bs s g s' g' :
  plan_ok ks s → NoDup (d_keys bs) → (∀ k, k ∈ d_keys bs → k ∉ ks) →
  (∀ k bo, (k, bo) ∈ bs → bo = filter (λ o, key o = k) orders) →
  plan_buckets facs slv solver_params cfg structure tb (bucket_by key candidates) bs s g = (Ok s', g') →
  plan_ok (reverse (d_keys bs) ++ ks) s'.
Proof.
  revert ks s g. induction bs as [|[k bo] bs IH]; intros ks s g Hs Hnd Hfresh Hbs Hp; cbn [plan_buckets] in Hp.
  { by injection Hp as <- _. }
  apply bind_inv in Hp as (s1 & g1 & Hb & Hp). cbn [d_keys map fst] in Hnd |- *. apply NoDup_cons in Hnd as [Hni Hnd].
  rewrite reverse_cons, <-(assoc_L (++)).
  apply (IH (k :: ks) s1 g1); [|done| |by intros; apply Hbs; right|done].
  - eapply plan_bucket_ok; [done|apply Hfresh; left|by apply Hbs; left|done].
  - intros k' Hk'. apply not_elem_of_cons. split; [by intros ->|]. apply Hfresh. by right.
Qed.
End Plan.

(** ** The partitioned topology *)

Section PartitionedProperties.
Context `{PyText, PyMath, Blake2b, Rng}.
Context (facs : list pydict) (slv : solver_name) (solver_params : pydict).
Context (cfg : tick_config) (structure : pyval).

Lemma plan_partitions_ok tb candidates orders g out tags g' :
  1 ≤ tc_per_order cfg →
  Forall has_id_str candidates → Forall has_id_str orders →
  NoDup (map id_of candidates) → NoDup (map id_of orders) →
  plan_partitions facs slv solver_params cfg structure tb candidates orders g = (Ok (out, tags), g') →
  ∃ comp ks, component_of structure = Ok comp ∧
  plan_ok facs solver_params cfg structure candidates orders comp ks (out, tags).
Proof.
  intros Hper Hct Hco Hnt Hno Hp. unfold plan_partitions in Hp. apply bind_inv in Hp as (comp & g1 & Hc & Hp).
  unfold lift in Hc. injection Hc as Hc <-. exists comp. eexists. split; [done|].
  eapply plan_buckets_ok; [done..| | | | |exact Hp].
  - split; cbn [fst snd]; [by intros t o ?%elem_of_nil|constructor|constructor|by intros p ?%elem_of_nil|done].
  - apply bucket_by_NoDup.
  - intros k _. apply not_elem_of_nil.
  - intros k bo Hin. by apply bucket_by_elem in Hin.
Qed.

(** C28: The partitioned tick is a sound matching with truthful tags.  Whatever the
solver, the structure and the generator: no truck and no order is assigned
twice; each pair is of one partition and is either one company's own and
feasible, or shared along an edge of the structure and physically feasible.
Exactly the pairs of two companies are tagged, with owner, carrier and the
benefit measured against the cheapest truck of the owner that is still free
after the whole tick, or none when there is no such truck. *)
Theorem partitioned_sound tb candidates orders g out tags g' :
  1 ≤ tc_per_order cfg →
  Forall has_id_str candidates → Forall has_id_str orders →
  NoDup (map id_of candidates) → NoDup (map id_of orders) →
  plan_partitions facs slv solver_params cfg structure tb candidates orders g = (Ok (out, tags), g') →
  NoDup (map id_of (map fst out)) ∧ NoDup (map id_of (map snd out)) ∧
  (∀ t o, (t, o) ∈ out → t ∈ candidates ∧ o ∈ orders ∧
  pair_allowed_ignoring_haulier facs (tc_max_pickup_travel cfg) t o = Ok true ∧
  (haulier_matches t o = true ∨ share_eligible t o (share_adjacency structure) = true)) ∧
  (∀ p, p ∈ out → tag_exact facs solver_params cfg structure (list_to_set (map (λ p, entity_id p.1) out))
  candidates p (tags !! pair_key p)) ∧
  ∀ k, k ∉ map pair_key out → tags !! k = None.
Proof.
  intros Hper Hct Hco Hnt Hno Hp.
  destruct (plan_partitions_ok _ _ _ _ _ _ _ Hper Hct Hco Hnt Hno Hp) as (comp & ks & _ & [Hpairs Ht Ho Htag Hun]).
  cbn [fst snd] in *. split_and!; [done|done| |done|done].
  intros t o Hin. destruct (Hpairs t o Hin) as (? & ? & Hall & _). split; [done|]. split; [done|].
  unfold coop_pair_allowed in Hall. destruct (haulier_matches t o) eqn:Em.
  - split; [|by left]. unfold pair_allowed in Hall. by rewrite Em in Hall.
  - destruct (share_eligible _ _ _) eqn:Es; [|done]. split; [done|by right].
Qed.

(** Without a structure nothing is shared: when no company has a partner every
assigned pair is one company's own and feasible under the strict rule, no tag
is left, and no component is formed. *)
Theorem no_structure_no_sharing tb candidates orders g out tags g' :
  share_adjacency structure = ∅ → 1 ≤ tc_per_order cfg →
  Forall has_id_str candidates → Forall has_id_str orders →
  NoDup (map id_of candidates) → NoDup (map id_of orders) →
  plan_partitions facs slv solver_params cfg structure tb candidates orders g = (Ok (out, tags), g') →
  tags = ∅ ∧ component_of structure = Ok ∅ ∧
  ∀ t o, (t, o) ∈ out → haulier_matches t o = true ∧
  pair_allowed facs (tc_max_pickup_travel cfg) t o = Ok true.
Proof.
  intros Hadj Hper Hct Hco Hnt Hno Hp.
  destruct (plan_partitions_ok _ _ _ _ _ _ _ Hper Hct Hco Hnt Hno Hp) as (comp & ks & _ & [Hpairs Ht Ho Htag Hun]).
  cbn [fst snd] in *.
  assert (∀ t o, (t, o) ∈ out → haulier_matches t o = true ∧
  pair_allowed facs (tc_max_pickup_travel cfg) t o = Ok true) as Hown.
  { intros t o Hin. destruct (Hpairs t o Hin) as (_ & _ & Hall & _). unfold coop_pair_allowed, adjacency in Hall.
  destruct (haulier_matches t o); [done|]. rewrite Hadj in Hall. unfold share_eligible in Hall.
  destruct (haulier_of t), (haulier_of o); [|done..]. rewrite lookup_empty in Hall. cbn [default] in Hall.
  rewrite (bool_decide_eq_false_2 (_ ∈ [])) in Hall by apply not_elem_of_nil. by rewrite andb_false_r in Hall. }
  split_and!; [|unfold component_of, adjacency; by rewrite decide_True|done].
  apply map_empty. intros k. destruct (decide (k ∈ map pair_key out)) as [Hk|Hk]; [|by apply Hun].
  apply list_elem_of_fmap in Hk as ([t o] & -> & Hin). pose proof (Htag _ Hin) as Hte. unfold tag_exact in Hte.
  cbn [fst snd] in Hte. destruct (Hown t o Hin) as [Hm _].
  destruct (haulier_key t) as [th|] eqn:Eth; [|done]. destruct (haulier_key o) as [oh|] eqn:Eoh; [|done].
  apply haulier_key_of in Eth, Eoh. unfold haulier_matches in Hm. rewrite Eth, Eoh in Hm.
  apply bool_decide_eq_true in Hm. by rewrite decide_True in Hte.
Qed.
End PartitionedProperties.

(** ** The pooled topology, seen from the app *)

Section PooledAssignment.
Context `{PyText, Rng} (ctx : planner_ctx) `{!ArbitrationLaws (ctx_resolve ctx)}.
Context (trucks orders : gmap string (list doc)).

(** What the index by id holds is a document of that id. *)
Lemma by_id_elem (f : gmap string (list doc)) id d :
  by_id f !! id = Some d → entity_id d = id ∧ ∃ h, d ∈ docs_of f h.
Proof.
  unfold by_id. revert id d.
  apply (foldl_invariant (λ m (p : string * (doc * string)), <[p.1 := p.2.1]> m)
  (λ m, ∀ id d, m !! id = Some d → entity_id d = id ∧ ∃ h, d ∈ docs_of f h)); [|done].
  intros m [i [x h]] Hin IH id d. cbn [fst snd]. destruct (decide (i = id)) as [->|Hne];
  [rewrite lookup_insert_eq|rewrite lookup_insert_ne by done; apply IH]. intros [= <-].
  unfold listing in Hin. apply list_elem_of_In, in_concat in Hin as (l & Hl%list_elem_of_In & Hin%list_elem_of_In).
  apply list_elem_of_fmap in Hl as (h' & -> & _). apply list_elem_of_fmap in Hin as (y & [= -> -> ->] & Hy).
  split; [done|]. by exists h'.
Qed.

Lemma known_docs_spec (a : award) t o :
  known_docs trucks orders a = Some (t, o) →
  entity_id t = award_truck a ∧ entity_id o = award_order a ∧
  (∃ h, t ∈ docs_of trucks h) ∧ ∃ h, o ∈ docs_of orders h.
Proof.
  unfold known_docs. destruct (trucks_by_id trucks !! _) as [t'|] eqn:Et; cbn; [|done].
  destruct (orders_by_id orders !! _) as [o'|] eqn:Eo; cbn; [|done]. intros [= <- <-].
  apply by_id_elem in Et as [? ?], Eo as [? ?]. done.
Qed.

Lemma omap_NoDup {A B C} (f : A → option B) (k : A → C) (k' : B → C) l :
  (∀ a b, f a = Some b → k' b = k a) → NoDup (map k l) → NoDup (map k' (omap f l)).
Proof.
  intros Hk. induction l as [|a l IH]; cbn [map omap list_omap]; [constructor|].
  intros [Hni Hnd]%NoDup_cons. destruct (f a) as [b|] eqn:E; [|by apply IH]. cbn [map]. constructor; [|by apply IH].
  intros (b' & Eb & Hb')%list_elem_of_fmap. apply list_elem_of_omap in Hb' as (a' & Ha' & E').
  apply Hni, list_elem_of_fmap. exists a'. split; [|done]. rewrite <-(Hk a b E), Eb. by apply Hk.
Qed.

(** Only assigned pairs are tagged. *)
Lemma accounting_tagged com l s s' :
  foldR (account_award ctx trucks orders com) s l = Ok s' →
  (∀ k, is_Some (s.2 !! k) → k ∈ map pair_key s.1) → ∀ k, is_Some (s'.2 !! k) → k ∈ map pair_key s'.1.
Proof.
  revert s. induction l as [|a l IH]; intros s Hf Hs; cbn [foldR] in Hf; [by injection Hf as <-|].
  destruct (account_award _ _ _ _ s a) as [s1|] eqn:E; cbn [mbind result_bind] in Hf; [|done].
  apply (IH s1 Hf). clear IH Hf. unfold account_award in E.
  destruct (trucks_by_id trucks !! _) as [t|] eqn:Et; [|by injection E as <-].
  destruct (orders_by_id orders !! _) as [o|] eqn:Eo; [|by injection E as <-].
  apply by_id_elem in Et as [Et _], Eo as [Eo _].
  case_decide.
  - injection E as <-. cbn [fst snd]. intros k Hk. rewrite map_app. apply elem_of_app. left. auto.
  - destruct (tag_of _ _ _ _ _) as [tag|]; cbn [mbind result_bind] in E; [|done]. injection E as <-. cbn [fst snd].
  intros k Hk. rewrite map_app. apply elem_of_app. destruct (decide (k = (award_truck a, award_order a))) as [->|Hne].
  + right. cbn [map]. unfold pair_key. cbn [fst snd]. rewrite Et, Eo. by left.
  + rewrite lookup_insert_ne in Hk by done. left. auto.
Qed.

Lemma run_pooled_assignment ps g res :
  run_pooled_market ctx trucks orders (new_market ps) g = Ok res →
  (∀ t o, (t, o) ∈ res_assignment res → (∃ h, t ∈ docs_of trucks h) ∧ ∃ h, o ∈ docs_of orders h) ∧
  NoDup (map (λ p, entity_id p.1) (res_assignment res)) ∧
  NoDup (map (λ p, entity_id p.2) (res_assignment res)) ∧
  ∀ k, is_Some (res_share_tags res !! k) → k ∈ map pair_key (res_assignment res).
Proof.
  intros Hr. unfold run_pooled_market in Hr.
  destruct (run_rounds ctx trucks orders (new_market ps) g) as [s|] eqn:Es; simpl in Hr; [|done].
  destruct (accounting ctx trucks orders (ms_market s)) as [acc|] eqn:Ea; simpl in Hr; [|done].
  destruct (check_invariants orders (ms_market s)) as [u|]; simpl in Hr; [|done]. injection Hr as <-. simpl.
  destruct (run_rounds_spec ctx trucks orders ps g s Es) as ([Hwf _ _] & _).
  destruct (accounting_loop_spec ctx trucks orders _ _ _ _ (wf_orders_once _ Hwf) Ea) as (E1 & _).
  simpl in E1. rewrite E1. split_and!.
  - intros t o (a & _ & Ha)%list_elem_of_omap. by apply known_docs_spec in Ha as (_ & _ & ? & ?).
  - apply (omap_NoDup _ award_truck); [|apply Hwf]. intros a [t o] Ha. by apply known_docs_spec in Ha as (? & _).
  - apply (omap_NoDup _ award_order); [|apply Hwf]. intros a [t o] Ha. by apply known_docs_spec in Ha as (_ & ? & _).
  - intros k Hk. rewrite <-E1. cbn. change acc.1 with (acc.1). eapply accounting_tagged; [exact Ea| |done].
  cbn [snd]. intros k'. rewrite lookup_empty. by intros [? ?].
Qed.
End PooledAssignment.

(** ** The tick *)

Section TickProperties.
Context `{PyText, PyMath, Blake2b} `{SeededRng, Rest}.
Context (facs : list pydict) (run_id : string) (strategy : option string) (solver_params prof : pydict).
Context (horizon : option Z).
Abbreviation assign := (assign facs run_id strategy solver_params prof horizon).

(** Documents as the REST API keeps them: string ids, no two alike. *)
Record wf_reads (rd : tick_reads) : Prop := {
  wf_truck_ids : Forall has_id_str (read_trucks rd);
  wf_order_ids : Forall has_id_str (read_orders rd);
  wf_trucks_once : NoDup (map id_of (read_trucks rd));
  wf_orders_distinct : NoDup (map id_of (read_orders rd));
}.

(** A safe assignment for what was read: assignable trucks, open orders, none of
them twice. *)
Definition assignment_safe (cfg : tick_config) (rd : tick_reads) (out : assignment) : Prop :=
  NoDup (map (λ p, entity_id p.1) out) ∧ NoDup (map (λ p, entity_id p.2) out) ∧
  ∀ t o, (t, o) ∈ out →
  t ∈ read_trucks rd ∧ o ∈ read_orders rd ∧ entity_id o ∉ claimed_order_ids rd ∧
  (tc_respect_online cfg = true → py_eq (doc_get t "state") (PStr online_state_name) = true) ∧
  (tc_reject_busy cfg = true → entity_id t ∉ busy_ids rd).

Lemma by_haulier_elem l h d : d ∈ docs_of (by_haulier l) h → d ∈ l.
Proof.
  unfold docs_of, by_haulier. revert d. induction l as [|x l IH] using rev_ind; intros d.
  { cbn [foldl]. rewrite lookup_empty. by intros ?%elem_of_nil. }
  rewrite foldl_app. cbn [foldl]. rewrite elem_of_app. destruct (haulier_key x) as [k|]; [|intros; left; auto].
  destruct (decide (k = h)) as [->|Hne].
  - rewrite lookup_insert_eq. cbn [default]. intros [Hd|Hd%list_elem_of_singleton]%elem_of_app; [left; auto|].
  subst d. right. by left.
  - rewrite lookup_insert_ne by done. left. auto.
Qed.

Lemma candidates_of_elem cfg rd t :
  t ∈ candidates_of cfg rd → t ∈ read_trucks rd ∧
  (tc_respect_online cfg = true → py_eq (doc_get t "state") (PStr online_state_name) = true) ∧
  (tc_reject_busy cfg = true → entity_id t ∉ busy_ids rd).
Proof.
  unfold candidates_of, filter_assignable_trucks. intros [Hf Ht]%list_elem_of_filter. cbv zeta in Hf.
  apply andb_true_iff in Hf as [Hf Hbusy]. apply andb_true_iff in Hf as [_ Hon].
  split_and!; [done|intros Hc; rewrite Hc in Hon|intros Hc; rewrite Hc in Hbusy]; cbn [andb] in *.
  - by rewrite negb_involutive in Hon.
  - by apply negb_true_iff, bool_decide_eq_false in Hbusy.
Qed.

Lemma safe_of_docs cfg rd (out : assignment) :
  (∀ t o, (t, o) ∈ out → t ∈ candidates_of cfg rd ∧ o ∈ unclaimed_orders rd) →
  NoDup (map (λ p, entity_id p.1) out) → NoDup (map (λ p, entity_id p.2) out) → assignment_safe cfg rd out.
Proof.
  intros Hd H1' H2'. split_and!; [done..|]. intros t o Hin. destruct (Hd t o Hin) as [Ht Ho].
  apply candidates_of_elem in Ht as (? & ? & ?). apply list_elem_of_filter in Ho as [? ?]. done.
Qed.
Lemma assign_pooled_safe cfg rd time_step g a :
  match assign_pooled facs run_id strategy solver_params prof horizon cfg (candidates_of cfg rd)
        (unclaimed_orders rd) time_step g a with
  | (Ok (out, _), a') => assignment_safe cfg rd out ∧ ∀ k, is_Some (share_tags a' !! k) → k ∈ map pair_key out
  | (Raise _, a') => share_tags a' = share_tags a
  end.
Proof.
  unfold assign_pooled. cbv zeta. destruct (resolve_market_config _) as [mc|]; cbn [mbind result_bind]; [|done].
  destruct (run_pooled_market _ _ _ _ _) as [res|] eqn:Er; cbn [mbind result_bind]; [|done].
  eapply run_pooled_assignment in Er as (Hdocs & Ht & Ho & Htags); [|apply resolve_laws].
  cbn [share_tags with_stats with_tags]. split.
  - apply safe_of_docs; [|done|done]. intros t o Hin. destruct (Hdocs t o Hin) as [[h Hh] [h' Hh']].
  by apply by_haulier_elem in Hh, Hh'.
  - intros k Hk. apply Htags. rewrite lookup_fmap in Hk. by apply fmap_is_Some in Hk.
Qed.

Lemma assign_partitioned_safe cfg rd g a :
  1 ≤ tc_per_order cfg → wf_reads rd →
  match assign_partitioned facs strategy solver_params prof cfg (candidates_of cfg rd) (unclaimed_orders rd) g a with
  | (Ok (out, _), a') => assignment_safe cfg rd out ∧ ∀ k, is_Some (share_tags a' !! k) → k ∈ map pair_key out
  | (Raise _, a') => share_tags a' = share_tags a
  end.
Proof.
  intros Hper [Ht Ho Hnt Hno]. unfold assign_partitioned.
  destruct (plan_partitions _ _ _ _ _ _ _ _ g) as [[[out tags]|] g'] eqn:Ep; [|done].
  assert (Forall has_id_str (candidates_of cfg rd)) as Hct by (by apply Forall_filter_sub).
  assert (Forall has_id_str (unclaimed_orders rd)) as Hco by (by apply Forall_filter_sub).
  eapply plan_partitions_ok in Ep as (comp & ks & _ & [Hpairs Hpt Hpo _ Hun]);
  [|done..|by apply map_filter_NoDup|by apply map_filter_NoDup].
  cbn [fst snd] in *.
  assert (∀ (f : doc * doc → doc), (∀ p, p ∈ out → has_id_str (f p)) → NoDup (map id_of (map f out)) →
  NoDup (map (λ p, entity_id (f p)) out)) as Hids.
  { intros f Hf Hnd. rewrite map_map in Hnd. erewrite map_ext_in; [exact Hnd|].
  intros p Hp%list_elem_of_In. by apply entity_id_of, Hf. }
  rewrite Forall_forall in Hct, Hco.
  assert (assignment_safe cfg rd out ∧ ∀ k, is_Some (tags !! k) → k ∈ map pair_key out) as [? ?].
  { split.
  - apply safe_of_docs.
    + intros t o Hin. by destruct (Hpairs t o Hin) as (? & ? & _).
    + apply (Hids fst); [|done]. intros [t o] Hin. apply Hct. by destruct (Hpairs t o Hin) as (? & _).
    + apply (Hids snd); [|done]. intros [t o] Hin. apply Hco. by destruct (Hpairs t o Hin) as (_ & ? & _).
  - intros k Hk. apply dec_stable. intros Hni. rewrite Hun in Hk by done. by destruct Hk. }
  split; [done|]. by repeat case_match.
Qed.

(** C27: A tick of the assignment service is safe in either topology.  When it
returns, no truck and no order is assigned twice, every truck was read as
assignable (online, not on a haul, as the profile asks) and every order as open
and not claimed by a haul; a tag is kept only for a pair of this tick, and when
the tick raises none is kept, so that no message is ever published with a tag
of an earlier tick. *)
Theorem assign_safe fuel time_step g a cfg rd m :
  read_tick_config prof = Ok cfg → read_tick fuel cfg (mgr a) = (Some (Ok rd), m) → wf_reads rd →
  match assign fuel time_step g a with
  | (Some (Ok (out, _)), a') =>
    assignment_safe cfg rd out ∧ ∀ k, is_Some (share_tags a' !! k) → k ∈ map pair_key out
  | (_, a') => share_tags a' = ∅
  end.
Proof.
  intros Hcfg Hread Hwf. unfold assign. rewrite Hcfg.
  assert (1 ≤ tc_per_order cfg) as Hper.
  { unfold read_tick_config in Hcfg. cbv zeta in Hcfg.
  repeat match type of Hcfg with (?r ≫= _) = _ => destruct r; cbn [mbind result_bind] in Hcfg; [|done] end.
  injection Hcfg as <-. cbn [tc_per_order]. lia. }
  destruct (rebate_aware prof); cbn [mbind result_bind]; [|done]. cbn [mgr with_tags]. rewrite Hread.
  unfold assign_on. destruct (resolved_topology prof) as [topology|]; [|done]. case_decide.
  - pose proof (assign_pooled_safe cfg rd time_step g (with_mgr m (with_tags ∅ a))) as Hs.
  destruct (assign_pooled _ _ _ _ _ _ _ _ _ _ _ _) as [[[out g']|] a']; done.
  - pose proof (assign_partitioned_safe cfg rd g (with_mgr m (with_tags ∅ a)) Hper Hwf) as Hs.
  destruct (assign_partitioned _ _ _ _ _ _ _ _ _) as [[[out g']|] a']; done.
Qed.
End TickProperties.

(** ** The messages *)

Section PublishProperties.
Context `{PyText, Rest} (run_id : string).

Definition has_truck_id (p : doc * doc) : Prop := truth (doc_get p.1 "_id") = true.

(** The message of a pair, but for the order's facilities. *)
Definition message_of (tags : gmap (string * string) collab_tag) (p : doc * doc)
  (msg : string * assigned_payload) : Prop :=
  ∃ order, msg = (run_id +:+ "/" +:+ entity_id p.1,
                assigned_payload_of order (doc_get p.1 "_id") (tags !! pair_key p)) ∧
  order_id order = doc_get p.2 "_id" ∧ order_profile order = profile p.2.

(** Facility ids that are known stay known. *)
Definition cache_le (m m' : manager) : Prop :=
  facility_resource_id_cache m ⊆ facility_resource_id_cache m'.

#[local] Instance cache_le_preorder : PreOrder cache_le.
Proof. split; unfold cache_le; [intros m|intros m1 m2 m3]; [done|by intros; transitivity (facility_resource_id_cache m2)]. Qed.

Lemma resolve_facility_cache name m : cache_le m (resolve_facility_resource_id name m).2.
Proof.
  unfold resolve_facility_resource_id. destruct (negb _); [done|].
  destruct (facility_resource_id_cache m !! _) as [fid|] eqn:E; [done|]. destruct (rest _) as [ans|]; [|done].
  destruct (negb _); [done|]. destruct (items ans) as [[|f fs]|]; [done| |done].
  unfold cache_le. cbn [snd with_cached facility_resource_id_cache]. by apply insert_subseteq.
Qed.

Lemma publish_pair_spec tags p m :
  let '(r, m') := publish_pair run_id tags p m in
  cache_le m m' ∧
  match r with
  | Ok None => ¬ has_truck_id p
  | Ok (Some msg) => has_truck_id p ∧ message_of tags p msg
  | Raise _ => has_truck_id p
  end.
Proof.
  unfold publish_pair, has_truck_id. destruct (truth (doc_get p.1 "_id")) eqn:Et; cbn [negb]; [|done].
  unfold order_publish_payload.
  pose proof (resolve_facility_cache (prof_get p.2 "pickup_facility_name") m) as C1. unfold mbind, eff_bind.
  destruct (resolve_facility_resource_id (prof_get p.2 "pickup_facility_name") m) as [[pu|] m1]; [|done].
  pose proof (resolve_facility_cache (prof_get p.2 "dropoff_facility_name") m1) as C2. cbn [snd] in *.
  destruct (resolve_facility_resource_id (prof_get p.2 "dropoff_facility_name") m1) as [[dr|] m2];
  cbn [snd] in C2; (split; [by transitivity m1|]); [|done].
  split; [done|]. eexists. split; [reflexivity|]. done.
Qed.

(** The published messages are the assignment.  They go out in order, one to
each truck's own topic, for the pairs whose truck has an id, up to the pair, if
any, at which a facility lookup raises; each names its truck and its order
and is marked shared, with owner, carrier and benefit, exactly when the pair
carries a tag; facility ids once resolved are kept. *)
Theorem publish_is_the_assignment assigned a :
  let '(r, sent, a') := publish run_id assigned a in
  ∃ done_, done_ `prefix_of` assigned ∧
  Forall2 (message_of (share_tags a)) (filter has_truck_id done_) sent ∧
  (∀ p msg, message_of (share_tags a) p msg →
     shared msg.2 = bool_decide (is_Some (share_tags a !! pair_key p)) ∧
     ∀ oh th b, share_tags a !! pair_key p = Some (PartitionTag oh th b) →
       owner_haulier_id msg.2 = Some oh ∧ carrier_haulier_id msg.2 = Some th ∧ p_benefit_km msg.2 = b) ∧
  (r = Ok tt → done_ = assigned) ∧ (is_ok r = false → ∃ p, done_ ++ [p] `prefix_of` assigned ∧ has_truck_id p) ∧
  cache_le (mgr a) (mgr a') ∧ share_tags a' = share_tags a.
Proof.
  assert (∀ m, let '(r, sent, m') := publish_loop run_id (share_tags a) assigned m in
  ∃ done_, done_ `prefix_of` assigned ∧ Forall2 (message_of (share_tags a)) (filter has_truck_id done_) sent ∧
    (r = Ok tt → done_ = assigned) ∧ (is_ok r = false → ∃ p, done_ ++ [p] `prefix_of` assigned ∧ has_truck_id p) ∧
    cache_le m m') as Hloop.
  { induction assigned as [|p l IH]; intros m; cbn [publish_loop].
  { exists []. split_and!; [done|constructor|done|done|done]. }
  pose proof (publish_pair_spec (share_tags a) p m) as Hp. destruct (publish_pair _ _ p m) as [[msg|e] m1].
  - specialize (IH m1). destruct (publish_loop _ _ l m1) as [[r sent] m2].
    destruct Hp as [C1 Hmsg], IH as (d & Hpre & Hall & Hok & Hex & C2). exists (p :: d).
    split_and!; [by apply prefix_cons| |by intros ->%Hok| |by transitivity m1].
    + rewrite filter_cons. destruct msg as [msg|]; cbn [option_list Datatypes.app].
      * destruct Hmsg. rewrite decide_True by done. by constructor.
      * by rewrite decide_False.
    + intros Hr. destruct (Hex Hr) as (q & Hq & ?). exists q. split; [|done]. by apply (prefix_cons p) in Hq.
  - destruct Hp as [C1 Ht]. exists []. split_and!; [apply prefix_nil|constructor|done| |done].
    intros _. exists p. split; [|done]. simpl. apply prefix_cons, prefix_nil. }
  unfold publish. specialize (Hloop (mgr a)). destruct (publish_loop _ _ _ _) as [[r sent] m'].
  destruct Hloop as (d & ? & ? & ? & ? & ?). exists d. cbn [mgr share_tags with_mgr]. split_and!; [done..| |done|done|done|done].
  intros p msg (order & -> & _ & _). cbn [snd]. unfold assigned_payload_of.
  destruct (share_tags a !! pair_key p) as [[]|]; cbn; (split; [done|]); [naive_solver|done..].
Qed.
End PublishProperties.

(** ** Runs of the service *)

Module AppExamples.

#[export] Instance text : PyText := no_text.
#[export] Instance math : PyMath := flat_math.
#[export] Instance digest : Blake2b := zero_hash.
#[export] Instance draws : Rng := zero_rng.
#[export] Instance seeded : SeededRng := λ _, tt.

Definition at_point (lon lat : Z) : pyval :=
  PDict [("type", PStr "Point"); ("coordinates", PList [PInt lon; PInt lat])].

(** Two companies that share their orders. *)
Definition an_entity (id h : string) (loc_key : string) (lon lat : Z) : doc :=
  Doc [("_id", PStr id); ("haulier_id", PStr h); ("state", PStr "online"); (loc_key, at_point lon lat)]
  [(loc_key, at_point lon lat)].

Definition truck_a : doc := an_entity "ta" "a" "current_loc" 103 9.
Definition truck_b : doc := an_entity "tb" "b" "current_loc" 103 1.
Definition order_a : doc := an_entity "oa" "a" "pickup_loc" 103 1.

Definition pact : pyval :=
  PDict [("id", PStr "pact");
       ("adjacency", PDict [("a", PList [PStr "b"]); ("b", PList [PStr "a"])]);
       ("edges", PList [PList [PStr "a"; PStr "b"]]);
       ("components", PList [PList [PStr "a"; PStr "b"]])].

Definition config : tick_config := TickConfig true true PNone 500 true (f_of_Z 1) 40 8.

Definition start : gens := Gens _ tt None.

Definition shared_plan : planned :=
  match plan_partitions [] GreedyNearest [] config pact None [truck_a; truck_b] [order_a] start with
  | (Ok s, _) => s
  | _ => ([], ∅)
  end.

(** Without the pact, the truck of [a] serves its own order. *)
Definition own_plan : planned :=
  match plan_partitions [] GreedyNearest [] config PNone None [truck_a; truck_b] [order_a] start with
  | (Ok s, _) => s
  | _ => ([], ∅)
  end.

Lemma has_id_entity id h k lon lat : has_id_str (an_entity id h k lon lat).
Proof. by exists id. Qed.

#[export] Hint Resolve has_id_entity : openride.

Lemma partitioned_sound_witness :
  length shared_plan.1 = 1%nat ∧ NoDup (map id_of (map snd shared_plan.1)).
Proof.
  split; [vm_compute; reflexivity|].
  destruct (partitioned_sound [] GreedyNearest [] config pact None [truck_a; truck_b] [order_a] start
  shared_plan.1 shared_plan.2 start) as (_ & Ho & _).
  - done.
  - repeat constructor; apply has_id_entity.
  - repeat constructor; apply has_id_entity.
  - apply (bool_decide_unpack _). vm_compute. exact I.
  - apply (bool_decide_unpack _). vm_compute. exact I.
  - vm_compute. reflexivity.
  - exact Ho.
Defined.

Lemma no_structure_no_sharing_witness :
  length own_plan.1 = 1%nat ∧ own_plan.2 = ∅.
Proof.
  split; [vm_compute; reflexivity|].
  destruct (no_structure_no_sharing [] GreedyNearest [] config PNone None [truck_a; truck_b] [order_a] start
  own_plan.1 own_plan.2 start) as (Ht & _).
  - done.
  - done.
  - repeat constructor; apply has_id_entity.
  - repeat constructor; apply has_id_entity.
  - apply (bool_decide_unpack _). vm_compute. exact I.
  - apply (bool_decide_unpack _). vm_compute. exact I.
  - vm_compute. reflexivity.
  - exact Ht.
Defined.

(** A server with [b]'s truck and both orders; the order of [b] is claimed by a haul. *)
#[export] Instance backend : Rest := λ r,
  match r with
  | Aggregate OnlineTrucks _ => Ok (Answer 200 (Ok [truck_b]))
  | Aggregate UnassignedOrders _ => Ok (Answer 200 (Ok [order_a; an_entity "ob" "b" "pickup_loc" 103 1]))
  | Aggregate HaulTripOrders _ => Ok (Answer 200 (Ok [Doc [("order", PStr "ob")] []]))
  | Aggregate _ _ => Ok (Answer 200 (Ok []))
  | _ => Ok (Answer 404 (Ok []))
  end.

Definition profile_of (topology : string) : pydict :=
  [("planner", PDict [("topology", PStr topology)]); ("spatial_cell_deg", PInt 1);
   ("cooperation", PDict [("active", PStr "pact"); ("structures", PList [pact])])].

Definition fresh_app : app := App (Manager 500 500 None ∅) ∅ None None false [].

Definition tick_result (topology : string) := assign [] "run" (Some "GreedyNearest") [] (profile_of topology) (Some 100) 3 7 start fresh_app.

(** In both topologies the order of [a], which has no truck, goes to the truck of
[b], and [b]'s own order, under way already, is left alone. *)
Example both_topologies_share :
  ∀ topology, topology ∈ ["partitioned"; "pooled"; "two-stage"] →
  match tick_result topology with
  | (Some (Ok (out, _)), a) => map pair_key out = [("tb", "oa")] ∧ is_Some (share_tags a !! ("tb", "oa"))
  | _ => False
  end.
Proof.
  intros topology. rewrite !elem_of_cons. intros [->|[->|[->|?%elem_of_nil]]]; [..|done];
  vm_compute; (split; [reflexivity|eauto]).
Qed.

Definition the_reads : tick_reads :=
  match read_tick 3 config (mgr fresh_app) with
  | (Some (Ok rd), _) => rd
  | _ => TickReads [] [] ∅ ∅
  end.

Lemma assign_safe_witness :
  match tick_result "partitioned" with
  | (Some (Ok (out, _)), _) => assignment_safe config the_reads out
  | _ => False
  end.
Proof.
  pose proof (assign_safe [] "run" (Some "GreedyNearest") [] (profile_of "partitioned") (Some 100) 3 7 start fresh_app
  config the_reads (Manager 500 500 (Some true) ∅)) as Hs. fold (tick_result "partitioned") in Hs.
  destruct (tick_result "partitioned") as [[[[out g]|]|] a] eqn:E; [|vm_compute in E; discriminate..].
  apply Hs.
  - vm_compute. reflexivity.
  - vm_compute. reflexivity.
  - split; [repeat constructor; apply has_id_entity..| |];
    apply (bool_decide_unpack _); vm_compute; exact I.
Defined.

Definition market_left (used : Z) (ok : bool) : market_state := MarketState (new_market []) tt used ok 3 4.

Definition seven_ticks : list tick_record :=
  map (λ i, TickRecord i 20 (market_left (if i =? 2 then 0 else 2) true)) [0; 1; 2; 3; 4; 5; 6].

Definition stats_then : round_stats := default empty_stats (after_ticks (Some 5) seven_ticks).1.

Lemma provenance_not_stale_witness : truncated stats_then = 0 ∧ ∃ v, last (after_ticks (Some 5) seven_ticks).2 = Some v.
Proof.
  destruct (provenance_not_stale (Some 5) seven_ticks stats_then) as [(v & Hv & Ht & _) _].
  - vm_compute. reflexivity.
  - split; [vm_compute; reflexivity|]. exists v. exact Hv.
Defined.
End AppExamples.
