(* ===== verification/Handoff.v ===== *)
(** From the assignment service to the truck: the message [AssignmentApp.publish]
    sends ([assignment/app.py]) and what the truck it names makes of it
    ([message_data_models.py], [truck/app.py]). *)

From Stdlib Require Import SpecFloat.
From S2P Require Import Prelude PyValue StateMachines Pools PooledPlanner AssignmentManager AssignmentApp HaulTrip Truck.
Open Scope Z_scope.

(** ** The message on the wire: [json.dumps(payload.__dict__)] *)

Definition str_or_none (s : option string) : pyval := match s with Some s => PStr s | None => PNone end.
Definition km_or_none (f : option float64) : pyval := match f with Some f => PFloat f | None => PNone end.
Definition int_or_none (z : option Z) : pyval := match z with Some z => PInt z | None => PNone end.

Definition order_json (o : order_payload) : pydict :=
  [("_id", AssignmentApp.order_id o); ("pickup_loc", pickup_loc o); ("dropoff_loc", dropoff_loc o);
   ("pickup_service_time", pickup_service_time o); ("dropoff_service_time", dropoff_service_time o);
   ("profile", PDict (order_profile o));
   ("pickup_facility_resource_id", str_or_none (pickup_facility_resource_id o));
   ("dropoff_facility_resource_id", str_or_none (dropoff_facility_resource_id o))].

Definition wire (p : assigned_payload) : pydict :=
  [("action", PStr Events.ASSIGNED_HAUL_TRIP); ("order", PDict (order_json (p_order p))); ("truck_id", p_truck_id p);
   ("shared", PBool (shared p)); ("owner_haulier_id", str_or_none (owner_haulier_id p));
   ("carrier_haulier_id", str_or_none (carrier_haulier_id p)); ("benefit_km", km_or_none (p_benefit_km p));
   ("pool_id", str_or_none (AssignmentApp.pool_id p)); ("awarded_cost_km", km_or_none (p_awarded_cost_km p));
   ("owner_reserve_km", km_or_none (p_owner_reserve_km p)); ("market_round", int_or_none (p_market_round p))].

(** The collaboration a tag stands for. *)
Definition tag_collaboration (tag : option collab_tag) : option pydict :=
  match tag with
  | None => None
  | Some (PartitionTag owner carrier benefit) =>
      Some [("shared", PBool true); ("owner_haulier_id", PStr owner); ("carrier_haulier_id", PStr carrier);
            ("benefit_km", km_or_none benefit); ("pool_id", PNone); ("awarded_cost_km", PNone);
            ("owner_reserve_km", PNone); ("market_round", PNone)]
  | Some (MarketTag t) =>
      Some [("shared", PBool true); ("owner_haulier_id", str_or_none (tag_owner t)); ("carrier_haulier_id", PStr (tag_carrier t));
            ("benefit_km", km_or_none (benefit_km t)); ("pool_id", str_or_none (tag_pool t));
            ("awarded_cost_km", km_or_none (awarded_cost_km t)); ("owner_reserve_km", km_or_none (tag_reserve_km t));
            ("market_round", PInt (market_round t))]
  end.

Section Handoff.
Context `{PyText, SimTime, !Rest} {S : Type} `{!TruckWorld S} (serve : request → S → result response * S).
Context `{!HaulServer serve} (cfg : truck_config).

(** What the truck reads is what was sent. *)
Lemma parse_wire order tid tag :
  let p := assigned_payload_of order tid tag in
  ∃ h, parse_assigned (wire p) = Some h ∧ a_order h = order_json order ∧ a_truck_id h = tid ∧
    collaboration_of h = tag_collaboration tag.
Proof. destruct tag as [[owner carrier benefit|t]|]; eexists; split; [reflexivity|by split_and!|reflexivity|by split_and!|reflexivity|by split_and!]. Qed.

(** C20: an assignment reaches the truck it names, and no other.  For every pair the
    service publishes: a truck whose id reads differently ignores the message, and the
    truck whose id it is handles exactly that order, with the collaboration of the
    pair's tag; if it takes the job up, the haul it creates is its own, for that order. *)
Theorem assignment_reaches_its_truck rid tags truck order m topic p m' :
  publish_pair rid tags (truck, order) m = (Ok (Some (topic, p)), m') →
  topic = (rid +:+ "/" +:+ py_str (doc_get truck "_id"))%string ∧
  (∀ a, py_str (get (resource a) "_id") ≠ py_str (doc_get truck "_id") →
     handle_app_topic_messages serve cfg (wire p) a = (Ok tt, a)) ∧
  (∀ a, get (resource a) "_id" = doc_get truck "_id" →
     handle_app_topic_messages serve cfg (wire p) a =
       (_ ← handle_assignment serve cfg (latest_sim_clock a) (latest_loc a) (order_json (p_order p))
              (tag_collaboration (tags !! (py_str (doc_get truck "_id"), entity_id order)));
        mret tt) a) ∧
  (∀ a clock loc collab d a', get (resource a) "_id" = doc_get truck "_id" →
     handle_assignment serve cfg clock loc (order_json (p_order p)) collab a = (Ok (Some d), a') →
     get d "truck" = doc_get truck "_id" ∧ get d "order" = doc_get order "_id" ∧ in_state d Haul.initial).
Proof.
  intros Hp. unfold publish_pair in Hp. cbn [fst snd] in Hp.
  destruct (negb (truth (doc_get truck "_id"))) eqn:Htid; [done|].
  assert (is_none (doc_get truck "_id") = false) as Hsome by (revert Htid; by destruct (doc_get truck "_id")). clear Htid.
  apply bind_inv in Hp as (o & m1 & Ho & Hp). injection Hp as <- <- <-.
  assert (AssignmentApp.order_id o = doc_get order "_id") as Hoid.
  { unfold order_publish_payload in Ho. apply bind_inv in Ho as (? & ? & _ & Ho). apply bind_inv in Ho as (? & ? & _ & Ho).
    by injection Ho as <- _. }
  set (tag := tags !! _).
  assert (p_order (assigned_payload_of o (doc_get truck "_id") tag) = o) as Hpo by (by destruct tag as [[]|]).
  destruct (parse_wire o (doc_get truck "_id") tag) as (h & Hparse & Hord & Hht & Hcol).
  assert (∀ a, handle_app_topic_messages serve cfg (wire (assigned_payload_of o (doc_get truck "_id") tag)) a =
    if for_another h a then (Ok tt, a)
    else (_ ← handle_assignment serve cfg (latest_sim_clock a) (latest_loc a) (order_json o) (tag_collaboration tag); mret tt) a) as Hh.
  { intros a. unfold handle_app_topic_messages. change (is_action (wire _) _) with true. cbv iota. rewrite Hparse.
    rewrite (bind_ok (peek (for_another h)) _ a (for_another h a) a) by done. destruct (for_another h a); [done|].
    by rewrite !(bind_ok (peek _) _ a _ a eq_refl), Hord, Hcol. }
  rewrite Hpo. split; [done|]. split; [|split].
  - intros a Hne. rewrite Hh. unfold for_another. rewrite Hht.
    rewrite Hsome. destruct (String.eqb_spec (py_str (doc_get truck "_id")) (py_str (get (resource a) "_id"))); [congruence|done].
  - intros a Heq. rewrite Hh. unfold for_another. rewrite Hht, Heq, String.eqb_refl. cbn [negb]. by rewrite andb_false_r.
  - intros a clock loc collab d a' Heq Ha.
    destruct (assignment_creates serve cfg _ _ _ _ _ _ _ Ha) as (Ht & Hor & Hs). rewrite Ht, Hor, Heq.
    by split_and!.
Qed.
End Handoff.

Module HandoffExamples.
Import RestServer TruckExamples.

#[local] Existing Instances TruckExamples.text TruckExamples.times TruckExamples.town.

Definition the_truck : doc := Doc [("_id", PStr "truck-1")] [].
Definition the_order : doc :=
  Doc [("_id", PStr "order-1"); ("pickup_loc", geo 104 2); ("dropoff_loc", geo 103 1)]
    [("pickup_facility_name", PStr "depot"); ("dropoff_facility_name", PStr "port")].

(** The truck of company A carries B's order, two and a half kilometres cheaper. *)
Definition tags : gmap (string * string) collab_tag :=
  {[ ("truck-1", "order-1") := MarketTag (ShareTag (Some "B") "A" (Some (f_frac 5 2)) (Some "pool") (Some (f_of_Z 3)) (Some (f_frac 11 2)) 2) ]}.

Definition published := publish_pair (H4 := ManagerExamples.server) "run" tags (the_truck, the_order) ManagerExamples.fresh.

Definition idling : truck_app rest := receive_all serve TruckExamples.cfg [Launch (PStr "07:00")] start.

(** What the haul records of the collaboration. *)
Example collaboration_is_recorded :
  match published.1 with
  | Ok (Some (topic, p)) =>
      let a := receive_all serve TruckExamples.cfg [Deliver (wire p)] idling in
      topic = "run/truck-1" ∧
      (d ← get_trip a; Some (catch (c ← sub (get d "meta") "collaboration"; sub c "benefit_km") PNone)) = Some (PFloat (f_frac 5 2)) ∧
      (d ← get_trip a; Some (get d "order", get d "state")) = Some (PStr "order-1", PStr "assigned")
  | _ => False
  end.
Proof. vm_compute. repeat split. Qed.

Lemma assignment_reaches_its_truck_witness :
  match published.1 with
  | Ok (Some (topic, p)) =>
      topic = "run/truck-1" ∧
      handle_app_topic_messages serve TruckExamples.cfg (wire p) (with_resource idling [("_id", PStr "truck-2")]) =
        (Ok tt, with_resource idling [("_id", PStr "truck-2")])
  | _ => False
  end.
Proof.
  destruct published as [[[[topic p]|]|e] m'] eqn:E; [|vm_compute in E; discriminate E..].
  destruct (assignment_reaches_its_truck serve TruckExamples.cfg "run" tags the_truck the_order ManagerExamples.fresh topic p m' E)
    as (Ht & Hother & _).
  split; [exact Ht|]. apply Hother. vm_compute. discriminate.
Defined.
End HandoffExamples.
