(* ===== verification/EffLogic.v ===== *)
(** A small program logic for the effects of [PyValue]: triples with a condition for
    the normal end of a computation and one for the state an exception leaves. *)

From S2P Require Import Prelude PyValue.

Section Logic.
Context {S : Type}.
Implicit Types (P I E : S → Prop).

Definition hoare {A} P (m : eff S A) (Q : A → S → Prop) E : Prop :=
  ∀ s, P s → match m s with (Ok a, s') => Q a s' | (Raise _, s') => E s' end.

(** [m] keeps [I], however it ends. *)
Definition preserves {A} I (m : eff S A) : Prop := hoare I m (λ _, I) I.

Lemma hoare_ret {A} P (a : A) (Q : A → S → Prop) E : (∀ s, P s → Q a s) → hoare P (mret a) Q E.
Proof. intros HQ s HP. by apply HQ. Qed.

Lemma hoare_lift {A} P (r : result A) (Q : A → S → Prop) E :
  (∀ s, P s → match r with Ok a => Q a s | Raise _ => E s end) → hoare P (lift r) Q E.
Proof. intros HQ s HP. specialize (HQ s HP). unfold lift. by destruct r. Qed.

Lemma hoare_bind {A B} P (m : eff S A) (f : A → eff S B) (R : A → S → Prop) Q E :
  hoare P m R E → (∀ a, hoare (R a) (f a) Q E) → hoare P (m ≫= f) Q E.
Proof.
  intros Hm Hf s HP. specialize (Hm s HP). unfold mbind, eff_bind.
  destruct (m s) as [[a|e] s']; [|done]. by apply Hf.
Qed.

Lemma hoare_conseq {A} P P' (m : eff S A) (Q Q' : A → S → Prop) E E' :
  hoare P' m Q' E' → (∀ s, P s → P' s) → (∀ a s, Q' a s → Q a s) → (∀ s, E' s → E s) → hoare P m Q E.
Proof.
  intros Hm HP HQ HE s Hs. specialize (Hm s (HP s Hs)).
  destruct (m s) as [[a|e] s']; auto.
Qed.

Lemma hoare_pre {A} P P' (m : eff S A) Q E : hoare P' m Q E → (∀ s, P s → P' s) → hoare P m Q E.
Proof. intros Hm HP. by eapply hoare_conseq. Qed.

Lemma hoare_post {A} P (m : eff S A) (Q Q' : A → S → Prop) E :
  hoare P m Q' E → (∀ a s, Q' a s → Q a s) → hoare P m Q E.
Proof. intros Hm HQ. by eapply hoare_conseq. Qed.

(** What the precondition says without the state is known. *)
Lemma hoare_prop {A} (P : S → Prop) (φ : Prop) (m : eff S A) Q E :
  (∀ s, P s → φ) → (φ → hoare P m Q E) → hoare P m Q E.
Proof. intros Hφ Hm s HP. exact (Hm (Hφ s HP) s HP). Qed.

(** A fact about the result that needs nothing of the state. *)
Lemma hoare_and {A} P (m : eff S A) (Q Q' : A → S → Prop) E :
  hoare P m Q E → (∀ s a s', P s → m s = (Ok a, s') → Q' a s') → hoare P m (λ a s, Q a s ∧ Q' a s) E.
Proof.
  intros Hm HQ s HP. specialize (Hm s HP). specialize (HQ s).
  destruct (m s) as [[a|e] s']; [|done]. split; [done|]. by eapply HQ.
Qed.

(** A computation that always ends by raising. *)
Lemma hoare_raises {A B} P (m : eff S A) e (Q : B → S → Prop) : hoare P (_ ← m; lift (Raise e)) Q (λ _, True).
Proof. intros s _. unfold mbind, eff_bind. by destruct (m s) as [[a|e'] s']. Qed.

(** A triple, one initial state at a time. *)
Lemma hoare_point {A} P (m : eff S A) (Q : A → S → Prop) E : (∀ s, P s → hoare (eq s) m Q E) → hoare P m Q E.
Proof. intros Hm s Hs. exact (Hm s Hs s eq_refl). Qed.

Lemma preserves_bind {A B} I (m : eff S A) (f : A → eff S B) :
  preserves I m → (∀ a, preserves I (f a)) → preserves I (m ≫= f).
Proof. intros. by eapply hoare_bind. Qed.

Lemma preserves_ret {A} I (a : A) : preserves I (mret a).
Proof. by apply hoare_ret. Qed.

Lemma preserves_lift {A} I (r : result A) : preserves I (lift r).
Proof. apply hoare_lift. intros s HI. by destruct r. Qed.

Lemma preserves_state {A} I (m : eff S A) s : preserves I m → I s → I (m s).2.
Proof. intros Hm HI. specialize (Hm s HI). by destruct (m s) as [[a|e] s']. Qed.

Lemma hoare_preserves {A} P I (m : eff S A) (Q : A → S → Prop) :
  hoare P m Q I → (∀ s, I s → P s) → (∀ a s, Q a s → I s) → preserves I m.
Proof. intros. by eapply hoare_conseq. Qed.
End Logic.

Create HintDb eff discriminated.
#[export] Hint Resolve preserves_ret preserves_lift : eff.
#[export] Hint Extern 2 (preserves _ (_ ≫= _)) => apply preserves_bind; [|intros ?] : eff.
#[export] Hint Extern 2 (preserves _ (if ?b then _ else _)) => destruct b : eff.
#[export] Hint Extern 3 (preserves _ (match ?x with _ => _ end)) => destruct x : eff.
