(* ===== verification/ArchiveDocs.v ===== *)
(** The documents of the durable archive ([dataplane/archive/mongo.py]): timestamps
    and their text, the document of a frame, of a KPI row and of a breakdown row, and
    the deterministic identifiers under which they are stored. *)

From Stdlib Require Import SpecFloat Strings.Ascii Strings.Byte.
From stdpp Require Import pretty.
From S2P Require Import Prelude PyValue Frame.

(** ** Timestamps

    A naive [datetime], field by field. *)

Record datetime : Set := DateTime {
  year : Z; month : Z; day : Z; hour : Z; minute : Z; second : Z; microsecond : Z
}.

#[export] Instance datetime_eq_dec : EqDecision datetime.
Proof. solve_decision. Defined.

(** [w] decimal digits of [z], zero-padded. *)
Fixpoint digits (w : nat) (z : Z) : string :=
  match w with
  | 0 => ""
  | S w' =>
      String (Ascii.ascii_of_N (Z.to_N (48 + (z / 10 ^ Z.of_nat w') mod 10)))
        (digits w' (z mod 10 ^ Z.of_nat w'))
  end.

(** [isoformat(sep)]: the fraction only when there is one. *)
Definition isoformat (sep : string) (t : datetime) : string :=
  digits 4 (year t) +:+ "-" +:+ digits 2 (month t) +:+ "-" +:+ digits 2 (day t) +:+ sep +:+
  digits 2 (hour t) +:+ ":" +:+ digits 2 (minute t) +:+ ":" +:+ digits 2 (second t) +:+
  if (microsecond t =? 0)%Z then "" else "." +:+ digits 6 (microsecond t).

(** Chronological order. *)
Definition dt_fields (t : datetime) : list Z :=
  [year t; month t; day t; hour t; minute t; second t; microsecond t].

Fixpoint compare_fields (l l' : list Z) : comparison :=
  match l, l' with
  | x :: l, y :: l' => match (x ?= y)%Z with Eq => compare_fields l l' | c => c end
  | [], [] => Eq
  | [], _ => Lt
  | _, [] => Gt
  end.

Definition dt_compare (t u : datetime) : comparison := compare_fields (dt_fields t) (dt_fields u).
Definition dt_le (t u : datetime) : Prop := dt_compare t u ≠ Gt.
Definition dt_lt (t u : datetime) : Prop := dt_compare t u = Lt.

(** What the constructor guarantees, as far as the text is concerned. *)
Record dt_ok (t : datetime) : Prop := {
  year_ok : (0 <= year t < 10 ^ 4)%Z;
  month_ok : (0 <= month t < 10 ^ 2)%Z;
  day_ok : (0 <= day t < 10 ^ 2)%Z;
  hour_ok : (0 <= hour t < 10 ^ 2)%Z;
  minute_ok : (0 <= minute t < 10 ^ 2)%Z;
  second_ok : (0 <= second t < 10 ^ 2)%Z;
  microsecond_ok : (0 <= microsecond t < 10 ^ 6)%Z;
}.

(** ** Cells and rows

    A row of a database or a document: a value, or a timestamp, under each name. *)

Inductive cell : Set := CVal (v : pyval) | CTime (t : datetime).
Abbreviation crow := (list (string * cell)).

Definition cget (d : crow) (k : string) : cell := default (CVal PNone) (d_get d k).
Definition cget_or (d : crow) (k : string) (c : cell) : cell := default c (d_get d k).
Definition c_none (c : cell) : bool := match c with CVal PNone => true | _ => false end.
Definition c_truth (c : cell) : bool := match c with CVal v => truth v | CTime _ => true end.

(** [{**d, **m}] *)
Definition crow_update (d m : crow) : crow := foldl (λ x p, d_set x p.1 p.2) d m.

Section Text.
Context `{PyText}.

(** [str(c)], [int(c)] *)
Definition c_str (c : cell) : string := match c with CVal v => py_str v | CTime t => isoformat " " t end.
Definition c_int (c : cell) : result Z := match c with CVal v => py_int v | CTime _ => Raise TypeError end.

Definition _iso (c : cell) : string := match c with CTime t => isoformat "T" t | CVal v => py_str v end.
End Text.

(** ** Frames *)

Record frame_doc : Set := FrameDoc {
  fd_run_id : string;
  fd_frame_idx : Z;
  fd_sim_time_ms : Z;
  fd_n : nat;
  fd_lng : list byte;
  fd_lat : list byte;
  fd_slot : list byte;
  fd_state : list byte;
  fd_haulier : list byte;
  fd_created : datetime;
}.

Definition frame_id (run_id : string) (idx : Z) : string := run_id +:+ ":" +:+ pretty idx.

Section FrameDocs.
Context `{Numpy}.

Definition frame_to_doc (run_id : string) (now : datetime) (f : frame) : string * frame_doc :=
  (frame_id run_id (frame_idx f),
   FrameDoc run_id (frame_idx f) (sim_time_ms f) (frame_n f) (tobytes 8 (lng f)) (tobytes 8 (lat f))
     (tobytes 4 (slot f)) (tobytes 1 (state f)) (tobytes 1 (haulier f)) now).

(** [np.frombuffer(b, dtype)]: every element of the buffer. *)
Definition whole_buffer (w : nat) (b : list byte) : result (list Z) :=
  if bool_decide (length b mod w = 0) then frombuffer b w (length b / w) 0 else Raise ValueError.

Definition doc_to_frame (d : frame_doc) : result frame :=
  lng ← whole_buffer 8 (fd_lng d);
  lat ← whole_buffer 8 (fd_lat d);
  slot ← whole_buffer 4 (fd_slot d);
  state ← whole_buffer 1 (fd_state d);
  haulier ← whole_buffer 1 (fd_haulier d);
  new_frame (fd_frame_idx d) (fd_sim_time_ms d) lng lat slot state haulier KIND_KEYFRAME FRAME_VERSION.
End FrameDocs.

(** ** KPI rows *)

(** [(run_id, metric, value, sim_clock)] *)
Record kpi_row : Set := KpiRow { k_run : string; k_metric : string; k_value : float64; k_clock : datetime }.

Record kpi_doc : Set := KpiDoc {
  kd_run_id : string;
  kd_metric : string;
  kd_value : float64;
  kd_sim_clock : datetime;
  kd_created : datetime;
  kd_updated : datetime;
}.

Definition kpi_id (run_id metric : string) (clock : datetime) : string :=
  run_id +:+ "|" +:+ metric +:+ "|" +:+ isoformat "T" clock.

Definition kpi_row_to_doc (row : kpi_row) (default_run_id : string) : string * kpi_doc :=
  let run_id := if bool_decide (k_run row = "") then default_run_id else k_run row in
  (kpi_id run_id (k_metric row) (k_clock row),
   KpiDoc run_id (k_metric row) (k_value row) (k_clock row) (k_clock row) (k_clock row)).

(** ** Breakdown rows *)

Section Breakdown.
Context `{PyText}.

(** [str(row.get("scope") or "")] *)
Definition or_str (c : cell) (default : string) : string := if c_truth c then c_str c else default.

Definition breakdown_id (run_id scope : string) (clock : cell) (entity_id : string) : string :=
  run_id +:+ "|" +:+ scope +:+ "|" +:+ _iso clock +:+ "|" +:+ entity_id.

Definition breakdown_row_to_doc (run_id : string) (now : datetime) (row : crow) : option (string * crow) :=
  let entity_id := cget row "entity_id" in
  if c_none entity_id then None
  else
  let scope := or_str (cget row "scope") "" in
  let sim_clock := cget row "sim_clock" in
  let doc := filter (λ kv, kv.1 ≠ "_id") row in
  let doc_run := or_str (cget row "run_id") run_id in
  let doc := d_set doc "run_id" (CVal (PStr doc_run)) in
  let doc := d_set doc "scope" (CVal (PStr scope)) in
  let doc := d_set doc "entity_id" (CVal (PStr (c_str entity_id))) in
  let doc := d_set doc "doc_type" (CVal (PStr "row")) in
  let doc := match d_get doc "_created" with Some _ => doc | None => d_set doc "_created" (CTime now) end in
  Some (breakdown_id doc_run scope sim_clock (c_str entity_id), doc).
End Breakdown.

(** ** The text of a timestamp sorts chronologically *)

Section Order.
#[local] Open Scope Z_scope.

Lemma ascii_compare_digit a b : 0 <= a < 10 → 0 <= b < 10 →
  Ascii.compare (Ascii.ascii_of_N (Z.to_N (48 + a))) (Ascii.ascii_of_N (Z.to_N (48 + b))) = (a ?= b).
Proof.
  intros Ha Hb. unfold Ascii.compare. rewrite !Ascii.N_ascii_embedding by lia.
  rewrite <-(N2Z.inj_compare), !Z2N.id by lia.
  destruct (a ?= b) eqn:E; rewrite ?Z.compare_eq_iff, ?Z.compare_lt_iff, ?Z.compare_gt_iff in *; lia.
Qed.

Lemma compare_div_mod a b m : 0 < m →
  (a ?= b) = match (a / m ?= b / m) with Eq => (a mod m ?= b mod m) | c => c end.
Proof.
  intros Hm. pose proof (Z.div_mod a m). pose proof (Z.div_mod b m).
  pose proof (Z.mod_pos_bound a m). pose proof (Z.mod_pos_bound b m).
  destruct (Z.compare_spec (a / m) (b / m)) as [E|E|E].
  - destruct (Z.compare_spec (a mod m) (b mod m)); rewrite ?Z.compare_eq_iff, ?Z.compare_lt_iff, ?Z.compare_gt_iff; nia.
  - apply Z.compare_lt_iff. nia.
  - apply Z.compare_gt_iff. nia.
Qed.

(** Fixed-width numbers compare as numbers, then what follows them decides. *)
Lemma compare_digits w a b s t : 0 <= a < 10 ^ Z.of_nat w → 0 <= b < 10 ^ Z.of_nat w →
  String.compare (digits w a +:+ s) (digits w b +:+ t) =
  match (a ?= b) with Eq => String.compare s t | c => c end.
Proof.
  revert a b. induction w as [|w IH]; intros a b Ha Hb.
  { change (10 ^ Z.of_nat 0) with 1 in *. replace a with 0 by lia. by replace b with 0 by lia. }
  rewrite Nat2Z.inj_succ, Z.pow_succ_r in Ha, Hb by lia.
  assert (0 < 10 ^ Z.of_nat w) by (apply Z.pow_pos_nonneg; lia).
  assert (∀ c, 0 <= c < 10 * 10 ^ Z.of_nat w → 0 <= c / 10 ^ Z.of_nat w < 10) as Hd.
  { intros c Hc. split; [apply Z.div_pos; lia|apply Z.div_lt_upper_bound; lia]. }
  cbn [digits String.app String.append String.compare].
  rewrite !(Z.mod_small (_ / _) 10) by (by apply Hd).
  change (String ?x ?y +:+ ?z) with (String x (y +:+ z)). cbn [String.compare].
  rewrite ascii_compare_digit by (by apply Hd).
  rewrite (compare_div_mod a b (10 ^ Z.of_nat w)) by done.
  destruct (_ ?= _); [|done..]. apply IH; apply Z.mod_pos_bound; done.
Qed.

Lemma compare_fields_refl l : compare_fields l l = Eq.
Proof. induction l as [|x l IH]; [done|]. simpl. by rewrite Z.compare_refl. Qed.

Lemma compare_fields_swap l l' : compare_fields l l' = CompOpp (compare_fields l' l).
Proof.
  revert l'. induction l as [|x l IH]; intros [|y l']; simpl; try done.
  rewrite Z.compare_antisym. destruct (y ?= x)%Z; simpl; auto.
Qed.

Lemma compare_fields_lt l m n :
  compare_fields l m ≠ Gt → compare_fields m n = Lt → compare_fields l n = Lt.
Proof.
  revert m n. induction l as [|x l IH]; intros [|y m] [|z n]; simpl; try done.
  destruct (Z.compare_spec x y), (Z.compare_spec y z), (Z.compare_spec x z); try done; try lia.
  intros. by apply (IH m).
Qed.

Lemma compare_fields_eq l m : compare_fields l m = Eq → l = m.
Proof.
  revert m. induction l as [|x l IH]; intros [|y m]; simpl; try done.
  destruct (Z.compare_spec x y); [|done..]. intros. f_equal; auto.
Qed.

Lemma dt_le_refl t : dt_le t t.
Proof. unfold dt_le, dt_compare. by rewrite compare_fields_refl. Qed.

Lemma dt_le_lt t u v : dt_le t u → dt_lt u v → dt_lt t v.
Proof. apply compare_fields_lt. Qed.

Lemma dt_lt_le t u : dt_lt t u → dt_le t u.
Proof. unfold dt_lt, dt_le. by intros ->. Qed.

Lemma dt_le_trans t u v : dt_le t u → dt_le u v → dt_le t v.
Proof.
  intros Htu Huv. destruct (dt_compare u v) eqn:E; [|apply dt_lt_le; by apply (dt_le_lt t u v)|done].
  unfold dt_le, dt_compare in *. apply compare_fields_eq in E. by rewrite <-E.
Qed.

Lemma compare_sep c s t : String.compare (String c s) (String c t) = String.compare s t.
Proof. cbn [String.compare]. unfold Ascii.compare. by rewrite N.compare_refl. Qed.

Lemma compare_app s t u : String.compare (s +:+ t) (s +:+ u) = String.compare t u.
Proof.
  induction s as [|c s IH]; [done|]. change (String c s +:+ ?x) with (String c (s +:+ x)).
  by rewrite compare_sep.
Qed.

Lemma append_nil s : s +:+ "" = s.
Proof. induction s as [|c s IH]; [done|]. change (String c (s +:+ "") = String c s). by rewrite IH. Qed.

(** The order of the texts of two timestamps is the order of the timestamps. *)
Lemma isoformat_compare sep t u : dt_ok t → dt_ok u →
  String.compare (isoformat sep t) (isoformat sep u) = dt_compare t u.
Proof.
  intros [] []. unfold isoformat, dt_compare, dt_fields.
  repeat (cbn [compare_fields]; rewrite compare_digits by done;
    match goal with |- context [Z.compare ?a ?b] => destruct (Z.compare a b) end; [|done..];
    rewrite ?compare_app; try rewrite (compare_app "-"); try rewrite (compare_app ":")).
  cbn [compare_fields]. destruct (Z.eqb_spec (microsecond t) 0) as [E|E], (Z.eqb_spec (microsecond u) 0) as [E'|E'].
  - by rewrite E, E'.
  - rewrite E. by replace (0 ?= microsecond u) with Lt by (symmetry; apply Z.compare_lt_iff; lia).
  - rewrite E'. by replace (microsecond t ?= 0) with Gt by (symmetry; apply Z.compare_gt_iff; lia).
  - rewrite (compare_app "."), <-(append_nil (digits 6 (microsecond t))), <-(append_nil (digits 6 (microsecond u))).
    rewrite compare_digits by done. by destruct (_ ?= _).
Qed.
End Order.

(** ** Identifiers do not collide

    A run identifier without the separator is recovered from the identifiers of its
    documents. *)

Fixpoint free_of (c : Ascii.ascii) (s : string) : Prop :=
  match s with EmptyString => True | String c' s => c' ≠ c ∧ free_of c s end.

Lemma split_at_sep c r r' s s' :
  free_of c r → free_of c r' → r +:+ String c s = r' +:+ String c s' → r = r' ∧ s = s'.
Proof.
  revert r'. induction r as [|a r IH]; intros [|a' r'] Hr Hr' E; simpl in Hr, Hr'.
  - split; [done|]. by injection E.
  - change (String c s = String a' (r' +:+ String c s')) in E. injection E as -> _. tauto.
  - change (String a (r +:+ String c s) = String c s') in E. injection E as -> _. tauto.
  - change (String a (r +:+ String c s) = String a' (r' +:+ String c s')) in E. injection E as -> E.
    destruct (IH r') as [-> ->]; tauto.
Qed.

Lemma frame_id_inj r r' i i' :
  free_of ":"%char r → free_of ":"%char r' → frame_id r i = frame_id r' i' → r = r' ∧ i = i'.
Proof. intros Hr Hr' E. apply split_at_sep in E as [-> E]; [|done..]. split; [done|]. by apply pretty_Z_inj. Qed.

(** ** A frame survives its document *)

Section FrameDocLemmas.
Context `{NumpyLaws}.

Lemma whole_buffer_tobytes w l : 0 < w → Forall (fits w) l → whole_buffer w (tobytes w l) = Ok l.
Proof.
  intros Hw Hl. unfold whole_buffer. rewrite tobytes_le, length_le_bytes, (Nat.mul_comm w).
  rewrite bool_decide_true by (apply Nat.Div0.mod_mul).
  rewrite Nat.div_mul, frombuffer_le by (rewrite ?length_le_bytes; lia).
  rewrite drop_0, <-(app_nil_r (le_bytes w l)). by rewrite words_le_bytes.
Qed.

Lemma doc_to_frame_to_doc r now f : frame_wf f → kind f = KIND_KEYFRAME →
  doc_to_frame (frame_to_doc r now f).2 = Ok f.
Proof.
  intros [_ _ _ ? [? ?] [? ?] [? ?] [? ?] _ Hv] Hk. unfold doc_to_frame. simpl.
  rewrite !whole_buffer_tobytes by (done || lia). cbn [mbind result_bind]. unfold new_frame.
  rewrite bool_decide_true by done. destruct f; simpl in *. by subst.
Qed.
End FrameDocLemmas.
