(* ===== verification/Archive.v ===== *)
(** The durable archive of the data plane ([dataplane/archive/mongo.py]): what a dump
    copies out of the working set, the watermark its summary records, which runs the
    sweep takes up, and the guarantee that a run it leaves alone is wholly archived.

    The database driver and the store a dump reads are interfaces: [Collection],
    [Summaries] and [DuckReader].  Every call of either may fail, and the store may
    move between any two reads of a dump. *)

From S2P Require Import Prelude PyValue Frame ArchiveDocs.
Open Scope Z_scope.

(** ** Errors and constants *)

Definition PyMongoError : exn := OtherError "PyMongoError".
Definition ArchiveUnavailable : exn := OtherError "ArchiveUnavailable".
Definition ArchiveIncomplete : exn := OtherError "ArchiveIncomplete".
Definition BreakdownReadFailed : exn := OtherError "BreakdownReadFailed".

Definition _NON_TERMINAL_STATUSES : list string :=
  ["running"; "in_progress"; "inprogress"; "pending"; "started"].

Definition _SUMMARY_META_FIELDS : list string :=
  ["haulier_codes"; "slot_map"; "n_trucks"; "status"; "first_seen"; "last_seen"].

Inductive table : Set := kpi_events | kpi_breakdown_rows.

Definition watermark_key (t : table) : string :=
  match t with kpi_events => "kpi_max_ingested_at" | kpi_breakdown_rows => "breakdown_max_ingested_at" end.

Definition _CONTENT_WATERMARKS : list table := [kpi_events; kpi_breakdown_rows].

Definition duplicate_key : Z := 11000.
Definition frame_batch : nat := 500.
Definition row_batch : nat := 1000.

(** ** The driver

    A collection maps identifiers to documents.  [insert_many] and [replace_many] are
    unordered bulk writes, of new documents and of [ReplaceOne(upsert=True)]; they
    report how many documents they added. *)

Inductive bulk : Set :=
| Acked (n : Z)
| BulkWriteError (n : Z) (codes : list Z)
| DuplicateKeyError
| Failed (e : exn).

Class Collection (C D : Type) := {
  docs : C → gmap string D;
  insert_many : list (string * D) → C → bulk * C;
  replace_many : list (string * D) → C → bulk * C;
  find : (D → bool) → C → result (list D) * C;
}.

(** The run summaries: [update_one] is a [$set] upsert. *)
Class Summaries (C : Type) := {
  summaries : C → gmap string crow;
  find_one : string → C → result (option crow) * C;
  find_runs : (string → bool) → C → result (list (string * crow)) * C;
  update_one : string → crow → C → result unit * C;
}.

(** ** The reader

    Three methods are required; the others are probed for.  A generator may raise after
    it has yielded some frames. *)

Record sql (S : Type) := Sql {
  select_breakdown : S → string → result (list crow);
  count_breakdown : S → string → result (option Z);
  max_ingested : S → table → string → result (option cell);
}.
Arguments Sql {S}.
Arguments select_breakdown {S}.
Arguments count_breakdown {S}.
Arguments max_ingested {S}.

Class DuckReader (S : Type) := {
  list_run_ids : S → result (list string);
  iter_frames : S → string → list frame * option exn;
  read_kpi_events : S → string → result (list kpi_row);
  get_run_meta : option (S → string → result (option crow));
  get_export_state : option (S → string → result (option crow));
  frame_range : option (S → string → result (option (Z * Z)));
  kpi_row_count : option (S → string → result Z);
  read_breakdown_rows : option (S → string → result (list crow));
  query : option (sql S);
}.

(** ** [MongoArchive] *)

Record archive {FC KC BC RC : Type} := Archive {
  frames : FC;
  kpi : KC;
  breakdown : BC;
  runs : RC;
  last_dump_at : option datetime;
}.
Arguments archive : clear implicits.
Arguments Archive {FC KC BC RC}.

(** The archive, the store at this moment, the states it will be found in at the reads
    to come, and how often the clock was read. *)
Record world {S FC KC BC RC : Type} := World {
  arch : archive FC KC BC RC;
  store : S;
  upcoming : list S;
  ticks : nat;
}.
Arguments world : clear implicits.
Arguments World {S FC KC BC RC}.

Section Effects.
Context {S FC KC BC RC : Type}.
Abbreviation W := (world S FC KC BC RC).

Definition with_arch (a : archive FC KC BC RC) (w : W) : W := World a (store w) (upcoming w) (ticks w).

(** One read of the store; it may have moved by the next one. *)
Definition ask {A} (f : S → A) : eff W A := λ w,
  (Ok (f (store w)),
   match upcoming w with
   | [] => w
   | s :: l => World (arch w) s l (ticks w)
   end).

Definition utcnow (clock : nat → datetime) : eff W datetime := λ w,
  (Ok (clock (ticks w)), World (arch w) (store w) (upcoming w) (Datatypes.S (ticks w))).

Definition at_frames {A} (op : FC → A * FC) : eff W A := λ w,
  let '(r, c) := op (frames (arch w)) in
  (Ok r, with_arch (Archive c (kpi (arch w)) (breakdown (arch w)) (runs (arch w)) (last_dump_at (arch w))) w).
Definition at_kpi {A} (op : KC → A * KC) : eff W A := λ w,
  let '(r, c) := op (kpi (arch w)) in
  (Ok r, with_arch (Archive (frames (arch w)) c (breakdown (arch w)) (runs (arch w)) (last_dump_at (arch w))) w).
Definition at_breakdown {A} (op : BC → A * BC) : eff W A := λ w,
  let '(r, c) := op (breakdown (arch w)) in
  (Ok r, with_arch (Archive (frames (arch w)) (kpi (arch w)) c (runs (arch w)) (last_dump_at (arch w))) w).
Definition at_runs {A} (op : RC → A * RC) : eff W A := λ w,
  let '(r, c) := op (runs (arch w)) in
  (Ok r, with_arch (Archive (frames (arch w)) (kpi (arch w)) (breakdown (arch w)) c (last_dump_at (arch w))) w).

(** [except PyMongoError as exc: raise ArchiveUnavailable(...)] *)
Definition unavailable (e : exn) : exn := if decide (e = PyMongoError) then ArchiveUnavailable else e.
Definition mongo {A} (m : eff W (result A)) : eff W A :=
  r ← m; lift match r with Ok a => Ok a | Raise e => Raise (unavailable e) end.

Fixpoint filter_eff {A} (f : A → eff W bool) (l : list A) : eff W (list A) :=
  match l with
  | [] => mret []
  | a :: l => b ← f a; l' ← filter_eff f l; mret (if b : bool then a :: l' else l')
  end.

(** *** Batches *)

(** What [_insert_batch] and [_replace_batch] make of a bulk write. *)
Definition batch_result (b : bulk) : result Z :=
  match b with
  | Acked n => Ok n
  | BulkWriteError n codes => if forallb (Z.eqb duplicate_key) codes then Ok n else Raise ArchiveUnavailable
  | DuplicateKeyError => Ok 0
  | Failed e => Raise (unavailable e)
  end.

Definition write_batch {D} (op : list (string * D) → eff W bulk) (docs : list (string * D)) : eff W Z :=
  if bool_decide (docs = []) then mret 0 else b ← op docs; lift (batch_result b).

(** The loop the writers share: build a document, skip it when there is none or, for the
    revisable rows, when the call has already written its identifier; write a full batch;
    at the end write the rest, unless the iterator raised. *)
Fixpoint write_loop {X D} (size : nat) (to_doc : X → eff W (option (string * D))) (flush : list (string * D) → eff W Z)
    (dedupe : bool) (xs : list X) (error : option exn) (batch : list (string * D)) (seen : gset string)
    (inserted : Z) : eff W Z :=
  match xs with
  | [] =>
      match error with
      | Some e => lift (Raise e)
      | None => n ← flush batch; mret (inserted + n)
      end
  | x :: xs =>
      d ← to_doc x;
      match d with
      | None => write_loop size to_doc flush dedupe xs error batch seen inserted
      | Some doc =>
          if dedupe && bool_decide (doc.1 ∈ seen)
          then write_loop size to_doc flush dedupe xs error batch seen inserted
          else
          let seen := {[doc.1]} ∪ seen in
          let batch := batch ++ [doc] in
          if (size <=? length batch)%nat
          then n ← flush batch; write_loop size to_doc flush dedupe xs error [] seen (inserted + n)
          else write_loop size to_doc flush dedupe xs error batch seen inserted
      end
  end.
End Effects.

(** ** Operations *)

(** What a dump transferred and what the archive holds after it. *)
Record dump_result : Set := DumpResult {
  dr_frames : Z;
  dr_frames_scanned : Z;
  dr_frames_inserted : Z;
  dr_kpi_rows : Z;
  dr_kpi_inserted : Z;
  dr_breakdown_rows : Z;
  dr_breakdown_inserted : Z;
  dr_frame_min : option Z;
  dr_frame_max : option Z;
  dr_complete : bool;
}.

Record sweep_result : Set := SweepResult {
  checked : nat;
  dumped : list string;
  errors : list (string * exn);
  pending_run_ids : list string;
}.

(** How far the working set has got; [None]: cannot tell. *)
Record watermark : Set := Watermark {
  wm_frame_max : option Z;
  wm_kpi_count : option Z;
  wm_breakdown_count : option Z;
}.

Definition opt_cell (v : option Z) : cell := CVal (match v with Some z => PInt z | None => PNone end).

(** [min] and [max] of a list, as [sort(...).limit(1)] finds them. *)
Definition extreme (op : Z → Z → Z) (l : list Z) : option Z :=
  match l with [] => None | x :: l => Some (foldl op x l) end.

Section Archive.
Context `{PyText, Numpy}.
Context {S FC KC BC RC : Type}.
Context `{DuckReader S, Collection FC frame_doc, Collection KC kpi_doc, Collection BC crow, Summaries RC}.
Context (clock : nat → datetime).
Abbreviation W := (world S FC KC BC RC).

(** *** Writes *)

Definition _insert_batch : list (string * frame_doc) → eff W Z :=
  write_batch (λ ds, at_frames (insert_many ds)).
Definition _replace_kpi : list (string * kpi_doc) → eff W Z :=
  write_batch (λ ds, at_kpi (replace_many ds)).
Definition _replace_breakdown : list (string * crow) → eff W Z :=
  write_batch (λ ds, at_breakdown (replace_many ds)).

Definition write_frames (run_id : string) (frames : list frame * option exn) (batch_size : nat) : eff W Z :=
  write_loop (max 1 batch_size) (λ f, now ← utcnow clock; mret (Some (frame_to_doc run_id now f)))
    _insert_batch false frames.1 frames.2 [] ∅ 0.

Definition write_kpi_events (run_id : string) (rows : list kpi_row) (batch_size : nat) : eff W Z :=
  write_loop (max 1 batch_size) (λ row, mret (Some (kpi_row_to_doc row run_id))) _replace_kpi true rows None [] ∅ 0.

Definition write_breakdown_rows (run_id : string) (rows : list crow) (batch_size : nat) : eff W Z :=
  write_loop (max 1 batch_size) (λ row, now ← utcnow clock; mret (breakdown_row_to_doc run_id now row))
    _replace_breakdown true rows None [] ∅ 0.

(** *** Probes of the reader *)

(** [(row or {}).get("status")], [None] when the probe raised. *)
Definition status_of (row : result (option crow)) : cell :=
  match row with Ok (Some row) => cget row "status" | _ => CVal PNone end.

Definition status_terminal (status : cell) : bool :=
  c_truth status && negb (bool_decide (lower (strip (c_str status)) ∈ _NON_TERMINAL_STATUSES)).

(** Has the run finished?  [None]: the reader cannot say. *)
Definition run_is_terminal (run_id : string) : eff W (option bool) :=
  let by_export (probed : bool) : eff W (option bool) :=
    match get_export_state with
    | None => mret (if probed then Some false else None)
    | Some fn => row ← ask (λ s, fn s run_id); mret (Some (status_terminal (status_of row)))
    end in
  match get_run_meta with
  | None => by_export false
  | Some fn =>
      row ← ask (λ s, fn s run_id);
      if status_terminal (status_of row) then mret (Some true) else by_export true
  end.

Definition _probe_run_meta (run_id : string) : eff W crow :=
  match get_run_meta with
  | None => mret []
  | Some fn => row ← ask (λ s, fn s run_id); mret match row with Ok (Some row) => row | _ => [] end
  end.

Definition _duck_breakdown_count (run_id : string) : eff W (option Z) :=
  match query, read_breakdown_rows with
  | Some q, _ =>
      r ← ask (λ s, count_breakdown q s run_id);
      mret match r with Ok (Some n) => Some n | Ok None => Some 0 | Raise _ => None end
  | None, Some fn =>
      r ← ask (λ s, fn s run_id);
      mret match r with Ok rows => Some (Z.of_nat (length rows)) | Raise _ => None end
  | None, None => mret None
  end.

Definition _duck_watermark (run_id : string) : eff W watermark :=
  frame_max ← match frame_range with
    | None => mret None
    | Some fn => r ← ask (λ s, fn s run_id); mret match r with Ok (Some (_, hi)) => Some hi | _ => None end
    end;
  kpi_count ← match kpi_row_count with
    | None => mret None
    | Some fn => r ← ask (λ s, fn s run_id); mret match r with Ok n => Some n | Raise _ => None end
    end;
  breakdown_count ← _duck_breakdown_count run_id;
  mret (Watermark frame_max kpi_count breakdown_count).

(** [max(ingested_at)] of one table, as text. *)
Definition _duck_max_ingested_at (run_id : string) (t : table) : eff W (option string) :=
  match query with
  | None => mret None
  | Some q =>
      r ← ask (λ s, max_ingested q s t run_id);
      mret match r with Ok (Some c) => if c_none c then None else Some (_iso c) | _ => None end
  end.

(** Breakdown rows: rows, or [None] from a reader that has no way to supply them; a
    reader that has and fails raises. *)
Definition _read_breakdown_rows (run_id : string) : eff W (option (list crow)) :=
  let supply (fn : S → string → result (list crow)) : eff W (option (list crow)) :=
    r ← ask (λ s, fn s run_id);
    lift match r with Ok rows => Ok (Some rows) | Raise _ => Raise BreakdownReadFailed end in
  match read_breakdown_rows, query with
  | Some fn, _ => supply fn
  | None, Some q => supply (select_breakdown q)
  | None, None => mret None
  end.

(** May a table be skipped on the strength of the content watermark? *)
Definition _content_unchanged (archived : cell) (duck : option string) : bool :=
  match duck with
  | None => c_none archived
  | Some d => negb (c_none archived) && String.leb d (c_str archived)
  end.

Definition _already_whole (expected : option Z) (archived : Z) : bool :=
  match expected with None => false | Some n => (0 <? archived) && (n <=? archived) end.

(** *** What the archive holds *)

Definition run_frames (run_id : string) : eff W (list frame_doc) :=
  mongo (at_frames (find (λ d, bool_decide (fd_run_id d = run_id)))).

Definition _archive_frame_stats (run_id : string) : eff W (Z * option Z * option Z) :=
  all ← run_frames run_id;
  if bool_decide (all = []) then mret (0, None, None)
  else
  lo ← run_frames run_id;
  hi ← run_frames run_id;
  mret (Z.of_nat (length all), extreme Z.min (fd_frame_idx <$> lo), extreme Z.max (fd_frame_idx <$> hi)).

Definition in_run (run_id : string) (d : crow) : bool :=
  match cget d "run_id" with CVal (PStr r) => bool_decide (r = run_id) | _ => false end.
Definition is_row (d : crow) : bool :=
  match cget d "doc_type" with CVal (PStr t) => bool_decide (t = "row") | _ => false end.

Definition _count_kpi (run_id : string) : eff W Z :=
  l ← mongo (at_kpi (find (λ d, bool_decide (kd_run_id d = run_id)))); mret (Z.of_nat (length l)).
Definition _count_breakdown (run_id : string) : eff W Z :=
  l ← mongo (at_breakdown (find (λ d, in_run run_id d && is_row d))); mret (Z.of_nat (length l)).

Definition run_summary (run_id : string) : eff W (option crow) := mongo (at_runs (find_one run_id)).

(** *** [dump_run] *)

(** The frames a dump has to send: none that a dense prefix already covers. *)
Definition selected (skip_upto : option Z) (fs : list frame) : list frame :=
  match skip_upto with
  | None => fs
  | Some m => filter (λ f, m < frame_idx f) fs
  end.

Definition dense_upto (stats : Z * option Z * option Z) : option Z :=
  match stats with
  | (n, _, Some m) => if n =? m + 1 then Some m else None
  | _ => None
  end.

(** The fields the summary is updated with. *)
Definition summary_fields (run_id : string) (stats : Z * option Z * option Z) (kpi_count breakdown_count : Z)
    (terminal : bool) (reason : string) (now : datetime) (read_failed : bool) (meta : crow)
    (kpi_wm bd_wm : option string) : crow :=
  [("run_id", CVal (PStr run_id)); ("frame_count", CVal (PInt stats.1.1)); ("kpi_count", CVal (PInt kpi_count));
   ("breakdown_count", CVal (PInt breakdown_count)); ("frame_min", opt_cell stats.1.2);
   ("frame_max", opt_cell stats.2); ("complete", CVal (PBool terminal)); ("reason", CVal (PStr reason));
   ("dumped_at", CTime now); ("breakdown_read_failed", CVal (PBool read_failed))] ++
  (filter (λ kv, c_none kv.2 = false) ((λ k, (k, cget meta k)) <$> _SUMMARY_META_FIELDS)) ++
  (match kpi_wm with Some s => [(watermark_key kpi_events, CVal (PStr s))] | None => [] end) ++
  (match bd_wm with
   | Some s => if read_failed then [] else [(watermark_key kpi_breakdown_rows, CVal (PStr s))]
   | None => []
   end).

(** The breakdown rows of a dump: how many were read and added, and whether the read
    failed. *)
Definition dump_breakdown (run_id : string) (whole : bool) : eff W (Z * Z * bool) :=
  if whole then mret (0, 0, false)
  else λ w,
  match _read_breakdown_rows run_id w with
  | (Ok (Some rows), w) =>
      (n ← write_breakdown_rows run_id rows row_batch; mret (Z.of_nat (length rows), n, false)) w
  | (Ok None, w) => (Ok (0, 0, false), w)
  | (Raise e, w) => if decide (e = BreakdownReadFailed) then (Ok (0, 0, true), w) else (Raise e, w)
  end.

Definition dumped_at (now : datetime) : eff W unit := λ w,
  (Ok tt, with_arch (Archive (frames (arch w)) (kpi (arch w)) (breakdown (arch w)) (runs (arch w)) (Some now)) w).

Definition dump_kpi (run_id : string) (whole : bool) : eff W (Z * Z) :=
  if whole then mret (0, 0)
  else r ← ask (λ s, read_kpi_events s run_id); rows ← lift r;
  n ← write_kpi_events run_id rows row_batch; mret (Z.of_nat (length rows), n).

Definition dump_run (run_id reason : string) (complete : option bool) : eff W dump_result :=
  terminal ← match complete with
    | Some b => mret b
    | None => probed ← run_is_terminal run_id; mret (default true probed)
    end;
  prior ← _archive_frame_stats run_id;
  fs ← ask (λ s, iter_frames s run_id);
  frames_inserted ← write_frames run_id (selected (dense_upto prior) fs.1, fs.2) frame_batch;
  wm ← _duck_watermark run_id;
  prior_summary ← run_summary run_id;
  let prior_summary := default [] prior_summary in
  duck_kpi_wm ← _duck_max_ingested_at run_id kpi_events;
  duck_bd_wm ← _duck_max_ingested_at run_id kpi_breakdown_rows;
  archived_kpi ← _count_kpi run_id;
  let kpi_whole := _already_whole (wm_kpi_count wm) archived_kpi &&
    _content_unchanged (cget prior_summary (watermark_key kpi_events)) duck_kpi_wm in
  k ← dump_kpi run_id kpi_whole;
  archived_bd ← _count_breakdown run_id;
  let bd_whole := _already_whole (wm_breakdown_count wm) archived_bd &&
    _content_unchanged (cget prior_summary (watermark_key kpi_breakdown_rows)) duck_bd_wm in
  b ← dump_breakdown run_id bd_whole;
  let terminal := terminal && negb b.2 in
  stats ← _archive_frame_stats run_id;
  kpi_count ← _count_kpi run_id;
  breakdown_count ← _count_breakdown run_id;
  now ← utcnow clock;
  meta ← _probe_run_meta run_id;
  _ ← mongo (at_runs (update_one run_id
        (summary_fields run_id stats kpi_count breakdown_count terminal reason now b.2 meta duck_kpi_wm duck_bd_wm)));
  now ← utcnow clock;
  _ ← dumped_at now;
  if b.2 then lift (Raise ArchiveIncomplete)
  else mret (DumpResult stats.1.1 (Z.of_nat (length fs.1)) frames_inserted k.1 k.2 b.1.1 b.1.2
               stats.1.2 stats.2 terminal).

(** *** Reconciliation *)

(** [int(v or 0)] *)
Definition int_or_0 (c : cell) : result Z := if c_truth c then c_int c else Ok 0.

Definition counted_past (duck : option Z) (archived : cell) : result bool :=
  match duck with
  | None => Ok false
  | Some n => m ← int_or_0 archived; Ok (m <? n)
  end.

Definition frame_past (duck : option Z) (archived : cell) : result bool :=
  match duck with
  | None => Ok false
  | Some n => if c_none archived then Ok true else m ← c_int archived; Ok (m <? n)
  end.

(** A table whose newest row is newer than the summary says. *)
Definition revised_past (duck : option string) (archived : cell) : bool :=
  match duck with
  | None => false
  | Some d => c_none archived || negb (String.leb d (c_str archived))
  end.

Definition _duck_moved_past (run_id : string) (summary : crow) : eff W bool :=
  wm ← _duck_watermark run_id;
  f ← lift (frame_past (wm_frame_max wm) (cget summary "frame_max"));
  if f : bool then mret true else
  k ← lift (counted_past (wm_kpi_count wm) (cget summary "kpi_count"));
  if k : bool then mret true else
  b ← lift (counted_past (wm_breakdown_count wm) (cget summary "breakdown_count"));
  if b : bool then mret true else
  kpi_wm ← _duck_max_ingested_at run_id kpi_events;
  if revised_past kpi_wm (cget summary (watermark_key kpi_events)) then mret true else
  bd_wm ← _duck_max_ingested_at run_id kpi_breakdown_rows;
  mret (revised_past bd_wm (cget summary (watermark_key kpi_breakdown_rows))).

(** [summary.get("complete", True)] *)
Definition closed_or_old (summary : crow) : bool := c_truth (cget_or summary "complete" (CVal (PBool true))).

Definition run_is_pending (run_id : string) (summary : option crow) : eff W bool :=
  summary ← match summary with Some s => mret (Some s) | None => run_summary run_id end;
  match summary with
  | None => mret true
  | Some summary =>
      past ← _duck_moved_past run_id summary;
      if past : bool then mret true
      else if closed_or_old summary then mret false
      else terminal ← run_is_terminal run_id; mret (default true terminal)
  end.

Definition archived_run_ids : eff W (gset string) :=
  l ← mongo (at_runs (find_runs (λ _, true)));
  mret (list_to_set (filter (λ kv, closed_or_old kv.2 = true) l).*1).

Definition _summaries (run_ids : list string) : eff W (list (string * crow)) :=
  if bool_decide (run_ids = []) then mret []
  else mongo (at_runs (find_runs (λ r, bool_decide (r ∈ run_ids)))).

(** Dump every pending run; one that fails does not stop the others. *)
Fixpoint dump_all (pending : list string) (reason : string) : eff W (list string * list (string * exn)) :=
  match pending with
  | [] => mret ([], [])
  | r :: pending => λ w,
      match dump_run r reason None w with
      | (Ok _, w) => (rest ← dump_all pending reason; mret (r :: rest.1, rest.2)) w
      | (Raise e, w) => (rest ← dump_all pending reason; mret (rest.1, (r, e) :: rest.2)) w
      end
  end.

Definition still_open (after : list (string * crow)) (run_id : string) : bool :=
  negb (c_truth (cget (default [] (d_get after run_id)) "complete")).

Definition reconcile (run_ids : option (list string)) (reason : string) : eff W sweep_result :=
  candidates ← match run_ids with
    | Some l => mret l
    | None => r ← ask list_run_ids; lift r
    end;
  summaries ← _summaries candidates;
  pending ← filter_eff (λ r, run_is_pending r (d_get summaries r)) candidates;
  d ← dump_all pending reason;
  after ← _summaries candidates;
  mret (SweepResult (length candidates) d.1 d.2
          (py_sorted String.leb (remove_dups (filter (λ r, still_open after r = true) candidates)))).

(** *** Reads *)

Definition has_run (run_id : string) : eff W bool :=
  f ← run_frames run_id;
  if bool_decide (f ≠ []) then mret true else
  k ← mongo (at_kpi (find (λ d, bool_decide (kd_run_id d = run_id))));
  if bool_decide (k ≠ []) then mret true else
  b ← mongo (at_breakdown (find (in_run run_id)));
  mret (bool_decide (b ≠ [])).

(** In the order of their frames. *)
Definition read_run_frame_docs (run_id : string) : eff W (list frame_doc) :=
  l ← run_frames run_id; mret (py_sorted (on_key fd_frame_idx Z.leb) l).

Definition read_run_frames (run_id : string) : eff W (list frame) :=
  l ← read_run_frame_docs run_id; lift (mapR doc_to_frame l).
End Archive.
(** ** What the driver and the reader promise *)

Definition settled (b : bulk) : Prop := is_ok (batch_result b) = true.

Class CollectionLaws (C D : Type) `{Collection C D} : Prop := {
  find_reads p c : docs (find p c).2 = docs c;
  find_docs p c l : (find p c).1 = Ok l → l ≡ₚ (filter (λ kv, p kv.2 = true) (map_to_list (docs c))).*2;
  (* A bulk write reports duplicates as [BulkWriteError]. *)
  bulk_errors ds c : (insert_many ds c).1 ≠ DuplicateKeyError ∧ (replace_many ds c).1 ≠ DuplicateKeyError;
  insert_keeps ds c i d : docs c !! i = Some d → docs (insert_many ds c).2 !! i = Some d;
  insert_only ds c i d : docs (insert_many ds c).2 !! i = Some d → docs c !! i = Some d ∨ (i, d) ∈ ds;
  insert_settled ds c i d :
    settled (insert_many ds c).1 → (i, d) ∈ ds → is_Some (docs (insert_many ds c).2 !! i);
  insert_counts ds c n :
    batch_result (insert_many ds c).1 = Ok n →
    n = Z.of_nat (size (docs (insert_many ds c).2)) - Z.of_nat (size (docs c));
  replace_keeps ds c i : is_Some (docs c !! i) → is_Some (docs (replace_many ds c).2 !! i);
  replace_only ds c i d : docs (replace_many ds c).2 !! i = Some d → docs c !! i = Some d ∨ (i, d) ∈ ds;
  replace_settled ds c i d :
    NoDup ds.*1 → settled (replace_many ds c).1 → (i, d) ∈ ds → docs (replace_many ds c).2 !! i = Some d;
  replace_counts ds c n :
    batch_result (replace_many ds c).1 = Ok n →
    n = Z.of_nat (size (docs (replace_many ds c).2)) - Z.of_nat (size (docs c));
}.

Definition set_summary (r : string) (d : crow) (m : gmap string crow) : gmap string crow :=
  <[r := crow_update (default [] (m !! r)) d]> m.

Class SummariesLaws (C : Type) `{Summaries C} : Prop := {
  find_one_reads r c : summaries (find_one r c).2 = summaries c;
  find_one_is r c o : (find_one r c).1 = Ok o → o = summaries c !! r;
  find_runs_reads p c : summaries (find_runs p c).2 = summaries c;
  find_runs_are p c l : (find_runs p c).1 = Ok l →
    NoDup l.*1 ∧ ∀ r d, (r, d) ∈ l ↔ summaries c !! r = Some d ∧ p r = true;
  update_one_sets r d c : (update_one r d c).1 = Ok tt →
    summaries (update_one r d c).2 = set_summary r d (summaries c);
  update_one_fails r d c :
    summaries (update_one r d c).2 = summaries c ∨ summaries (update_one r d c).2 = set_summary r d (summaries c);
}.

(** What the working set holds of one run.  A revisable row is found under the
    identifier of its document, with the time it was ingested. *)
Record holding : Type := Holding {
  h_frames : gmap Z frame;
  h_kpi : gmap string (kpi_row * datetime);
  h_breakdown : gmap string (crow * datetime);
}.

Section Views.
Context `{PyText}.

Record holding_ok (r : string) (h : holding) : Prop := {
  ok_frames i f : h_frames h !! i = Some f → frame_idx f = i ∧ 0 ≤ i;
  ok_kpi id row t : h_kpi h !! id = Some (row, t) →
    k_run row = r ∧ id = (kpi_row_to_doc row r).1 ∧ dt_ok t;
  ok_breakdown id row t : h_breakdown h !! id = Some (row, t) →
    or_str (cget row "run_id") r = r ∧ dt_ok t ∧ ∀ now, fst <$> breakdown_row_to_doc r now row = Some id;
}.
End Views.

(** [max(ingested_at)] over a table: no value exactly when it is empty. *)
Definition newest {Row} (tbl : gmap string (Row * datetime)) (answer : option cell) : Prop :=
  match answer with
  | None | Some (CVal PNone) => tbl = ∅
  | Some (CTime t) =>
      (∃ id row, tbl !! id = Some (row, t)) ∧ (∀ id x, tbl !! id = Some x → dt_le x.2 t)
  | _ => False
  end.

Class DuckReaderLaws (S : Type) `{PyText, DuckReader S} := {
  held : S → string → holding;
  held_ok s r : holding_ok r (held s r);
  iter_frames_held s r f : f ∈ (iter_frames s r).1 → h_frames (held s r) !! frame_idx f = Some f;
  iter_frames_all s r i f :
    (iter_frames s r).2 = None → h_frames (held s r) !! i = Some f → f ∈ (iter_frames s r).1;
  read_kpi_held s r rows row :
    read_kpi_events s r = Ok rows → row ∈ rows ↔ ∃ id t, h_kpi (held s r) !! id = Some (row, t);
  read_breakdown_held fn s r rows row : read_breakdown_rows = Some fn →
    fn s r = Ok rows → row ∈ rows ↔ ∃ id t, h_breakdown (held s r) !! id = Some (row, t);
  select_breakdown_held q s r rows row : query = Some q →
    select_breakdown q s r = Ok rows → row ∈ rows ↔ ∃ id t, h_breakdown (held s r) !! id = Some (row, t);
  frame_range_held fn s r o : frame_range = Some fn → fn s r = Ok o →
    match o with
    | Some (_, hi) => is_Some (h_frames (held s r) !! hi) ∧ ∀ i, is_Some (h_frames (held s r) !! i) → i ≤ hi
    | None => h_frames (held s r) = ∅
    end;
  max_kpi_held q s r o : query = Some q → max_ingested q s kpi_events r = Ok o → newest (h_kpi (held s r)) o;
  max_breakdown_held q s r o : query = Some q →
    max_ingested q s kpi_breakdown_rows r = Ok o → newest (h_breakdown (held s r)) o;
}.

(** ** How the working set moves

    Frames are appended, beyond those already there; a revisable row is added or
    rewritten with a timestamp later than any in its table. *)

Definition later {Row} (tbl : gmap string (Row * datetime)) (t : datetime) : Prop :=
  ∀ id x, tbl !! id = Some x → dt_lt x.2 t.

Definition revised {Row} (old new : gmap string (Row * datetime)) : Prop :=
  (∀ id x, new !! id = Some x → old !! id = Some x ∨ later old x.2) ∧
  (∀ id x, old !! id = Some x → ∃ x', new !! id = Some x' ∧ dt_le x.2 x'.2).

Definition appended (old new : gmap Z frame) : Prop :=
  old ⊆ new ∧ ∀ i, is_Some (new !! i) → is_Some (old !! i) ∨ ∀ j, is_Some (old !! j) → j < i.

Record grows (h h' : holding) : Prop := {
  grows_frames : appended (h_frames h) (h_frames h');
  grows_kpi : revised (h_kpi h) (h_kpi h');
  grows_breakdown : revised (h_breakdown h) (h_breakdown h');
}.

(** ** Extremes of a list *)

Lemma extreme_max l : match extreme Z.max l with
  | Some m => m ∈ l ∧ ∀ i, i ∈ l → i ≤ m
  | None => l = []
  end.
Proof.
  destruct l as [|x l]; [done|]. simpl.
  assert (∀ l x, (foldl Z.max x l = x ∨ foldl Z.max x l ∈ l) ∧ x ≤ foldl Z.max x l ∧ ∀ i, i ∈ l → i ≤ foldl Z.max x l) as Hf.
  { clear. induction l as [|y l IH]; intros x; simpl; [split; [by left|split; [done|by intros ? ?%elem_of_nil]]|].
    destruct (IH (x `max` y)) as ([E|E] & Hle & Hall); rewrite elem_of_cons; (split; [|split; [lia|]]).
    - rewrite E. destruct (Z.max_spec x y) as [[_ ->]|[_ ->]]; auto.
    - intros i [->|?]%elem_of_cons; [lia|auto].
    - auto.
    - intros i [->|?]%elem_of_cons; [lia|auto]. }
  destruct (Hf l x) as ([E|E] & Hle & Hall); rewrite elem_of_cons; (split; [|intros i [->|?]%elem_of_cons; auto]).
  - by left.
  - by right.
Qed.

Lemma extreme_min l : match extreme Z.min l with
  | Some m => m ∈ l ∧ ∀ i, i ∈ l → m ≤ i
  | None => l = []
  end.
Proof.
  destruct l as [|x l]; [done|]. simpl.
  assert (∀ l x, (foldl Z.min x l = x ∨ foldl Z.min x l ∈ l) ∧ foldl Z.min x l ≤ x ∧ ∀ i, i ∈ l → foldl Z.min x l ≤ i) as Hf.
  { clear. induction l as [|y l IH]; intros x; simpl; [split; [by left|split; [done|by intros ? ?%elem_of_nil]]|].
    destruct (IH (x `min` y)) as ([E|E] & Hle & Hall); rewrite elem_of_cons; (split; [|split; [lia|]]).
    - rewrite E. destruct (Z.min_spec x y) as [[_ ->]|[_ ->]]; auto.
    - intros i [->|?]%elem_of_cons; [lia|auto].
    - auto.
    - intros i [->|?]%elem_of_cons; [lia|auto]. }
  destruct (Hf l x) as ([E|E] & Hle & Hall); rewrite elem_of_cons; (split; [|intros i [->|?]%elem_of_cons; auto]).
  - by left.
  - by right.
Qed.
