(* ===== verification/ArchiveSafety.v ===== *)
(** Why the sweep may leave a run alone: the invariant of the durable archive, that
    every operation of [Archive] keeps it whatever fails and however the working set
    moves meanwhile, and what it gives. *)

From Stdlib Require Import Strings.Ascii.
From S2P Require Import Prelude PyValue Frame EffLogic ArchiveDocs Archive.
Open Scope Z_scope.

(** ** Timestamps compared as text *)

Abbreviation iso := (isoformat "T").
Abbreviation sle s t := (String.leb s t = true).

Lemma sle_trans s t u : sle s t → sle t u → sle s u.
Proof. intros. by apply (trans_on (P := always) s t u). Qed.

Lemma iso_le t u : dt_ok t → dt_ok u → sle (iso t) (iso u) ↔ dt_le t u.
Proof.
  intros Ht Hu. unfold String.leb, dt_le. rewrite isoformat_compare by done.
  by destruct (dt_compare t u).
Qed.

Lemma iso_lt t u : dt_ok t → dt_ok u → dt_lt t u → ¬ sle (iso u) (iso t).
Proof.
  intros Ht Hu Hlt. rewrite iso_le by done. unfold dt_lt in Hlt. unfold dt_le, dt_compare in *.
  rewrite compare_fields_swap, Hlt. by intros [].
Qed.

(** ** Revisable tables *)

Section Revisable.
Context {Row D : Type} (doc_is : string → Row → D → Prop).
Implicit Types (tbl : gmap string (Row * datetime)) (ds : gmap string D).

Definition stamped tbl : Prop := ∀ id x, tbl !! id = Some x → dt_ok x.2.

(** [s] is not beyond the newest row. *)
Definition reached tbl (s : string) : Prop := ∃ id x, tbl !! id = Some x ∧ sle s (iso x.2).

(** Every row ingested up to [s] is archived as it is. *)
Definition covered tbl ds (s : string) : Prop :=
  reached tbl s ∧
  ∀ id row t, tbl !! id = Some (row, t) → sle (iso t) s → ∃ d, ds !! id = Some d ∧ doc_is id row d.

(** What a summary's watermark claims. *)
Definition mark_ok tbl ds (c : cell) : Prop :=
  c = CVal PNone ∨ ∃ s, c = CVal (PStr s) ∧ covered tbl ds s.

Lemma reached_revised tbl tbl' s :
  stamped tbl → stamped tbl' → revised tbl tbl' → reached tbl s → reached tbl' s.
Proof.
  intros Hs Hs' [_ Hold] (id & x & Hx & Hle). destruct (Hold id x Hx) as (x' & Hx' & Hle').
  exists id, x'. split; [done|]. eapply sle_trans; [done|].
  apply iso_le; [by apply (Hs id)|by apply (Hs' id)|done].
Qed.

(** A row that came after [s] was reached is newer than [s]. *)
Lemma reached_new tbl tbl' s id x :
  stamped tbl → stamped tbl' → revised tbl tbl' → reached tbl s →
  tbl' !! id = Some x → sle (iso x.2) s → tbl !! id = Some x.
Proof.
  intros Hs Hs' [Hnew _] (id0 & x0 & Hx0 & Hle0) Hx Hle.
  destruct (Hnew id x Hx) as [?|Hl]; [done|].
  exfalso. apply (iso_lt x0.2 x.2); [by apply (Hs id0)|by apply (Hs' id)|by apply (Hl id0)|]. by eapply sle_trans.
Qed.

Lemma covered_revised tbl tbl' ds s :
  stamped tbl → stamped tbl' → revised tbl tbl' → covered tbl ds s → covered tbl' ds s.
Proof.
  intros Hs Hs' Hr [Hb Hc]. split; [by apply (reached_revised tbl tbl')|]. intros id row t Hx Hle.
  eapply Hc; [|done]. by apply (reached_new tbl tbl' s).
Qed.

Lemma mark_ok_revised tbl tbl' ds c :
  stamped tbl → stamped tbl' → revised tbl tbl' → mark_ok tbl ds c → mark_ok tbl' ds c.
Proof. intros ???[->|(s & -> & Hc)]; [by left|]. right. exists s. split; [done|]. by apply (covered_revised tbl tbl'). Qed.

Lemma covered_lower tbl ds s s' : covered tbl ds s → sle s' s → reached tbl s' → covered tbl ds s'.
Proof. intros [_ Hc] Hle Hr. split; [done|]. intros id row t Hx Ht. eapply Hc; [done|]. by eapply sle_trans. Qed.

(** Writing documents of rows read earlier, or of other runs, breaks no claim that was
    already true when they were read. *)
Lemma covered_write tbl0 tbl ds ds' (l : list (string * D)) s :
  stamped tbl0 → stamped tbl → revised tbl0 tbl → reached tbl0 s →
  (∀ id, is_Some (ds !! id) → is_Some (ds' !! id)) →
  (∀ id d, ds' !! id = Some d → ds !! id = Some d ∨ (id, d) ∈ l) →
  (∀ id d, (id, d) ∈ l → tbl !! id = None ∨ ∃ row t, tbl0 !! id = Some (row, t) ∧ doc_is id row d) →
  covered tbl ds s → covered tbl ds' s.
Proof.
  intros Hs0 Hs Hrev Hb Hkeep Honly Hl [Hb' Hc]. split; [done|]. intros id row t Hx Hle.
  destruct (Hc id row t Hx Hle) as (d & Hd & Hrow).
  destruct (Hkeep id (ex_intro _ d Hd)) as [d' Hd']. exists d'. split; [done|].
  destruct (Honly id d' Hd') as [?|Hin]; [naive_solver|].
  destruct (Hl id d' Hin) as [?|(row0 & t0 & Hx0 & Hrow0)]; [congruence|].
  pose proof (reached_new tbl0 tbl s id (row, t) Hs0 Hs Hrev Hb Hx Hle). naive_solver.
Qed.

(** Once every row read at [tbl0] is written, a mark that [tbl0] had reached is true. *)
Lemma covered_read tbl0 tbl ds s :
  stamped tbl0 → stamped tbl → revised tbl0 tbl → reached tbl0 s →
  (∀ id row t, tbl0 !! id = Some (row, t) → ∃ d, ds !! id = Some d ∧ doc_is id row d) →
  covered tbl ds s.
Proof.
  intros Hs0 Hs Hrev Hb Hall. split; [by apply (reached_revised tbl0 tbl)|]. intros id row t Hx Hle.
  eapply Hall. by apply (reached_new tbl0 tbl s).
Qed.

Lemma newest_reached tbl c : newest tbl (Some c) → c_none c = false → stamped tbl →
  reached tbl (match c with CTime t => iso t | CVal _ => "" end).
Proof.
  intros Hn Hc Hs. destruct c as [[]|t]; try done. destruct Hn as [(id & row & Hx) _].
  exists id, (row, t). split; [done|]. apply iso_le; [by apply (Hs id (row, t))..|].
  unfold dt_le, dt_compare. by rewrite compare_fields_refl.
Qed.
End Revisable.

(** ** The invariant *)

(** The archive, collection by collection. *)
Record snap : Type := Snap {
  sn_frames : gmap string frame_doc;
  sn_kpi : gmap string kpi_doc;
  sn_breakdown : gmap string crow;
  sn_runs : gmap string crow;
}.

(** A run identifier that cannot be confused with another inside a document's. *)
Definition plain (r : string) : Prop := free_of ":"%char r ∧ free_of "|"%char r.

Definition summary_of (sn : snap) (r : string) : crow := default [] (sn_runs sn !! r).

Section Safety.
Context `{PyText, Numpy}.
Context {S FC KC BC RC : Type}.
Context `{!DuckReader S, !DuckReaderLaws S}.
Context `{Collection FC frame_doc, !CollectionLaws FC frame_doc}.
Context `{Collection KC kpi_doc, !CollectionLaws KC kpi_doc}.
Context `{Collection BC crow, !CollectionLaws BC crow}.
Context `{Summaries RC, !SummariesLaws RC}.
Context (clock : nat → datetime).
Abbreviation W := (world S FC KC BC RC).

Definition snap_of (a : archive FC KC BC RC) : snap :=
  Snap (docs (frames a)) (docs (kpi a)) (docs (breakdown a)) (summaries (runs a)).

Definition kpi_is (r id : string) (row : kpi_row) (d : kpi_doc) : Prop := (id, d) = kpi_row_to_doc row r.
Definition breakdown_is (r id : string) (row d : crow) : Prop :=
  ∃ now, breakdown_row_to_doc r now row = Some (id, d).

Definition present (sn : snap) (r : string) (i : Z) : Prop :=
  ∃ d, sn_frames sn !! frame_id r i = Some d ∧ fd_run_id d = r.
Definition framed (sn : snap) (h : holding) (r : string) (m : Z) : Prop :=
  (m < 0 ∨ is_Some (h_frames h !! m)) ∧ ∀ i, is_Some (h_frames h !! i) → i ≤ m → present sn r i.

Record run_inv (r : string) (sn : snap) (h : holding) : Prop := {
  ri_frames id d : sn_frames sn !! id = Some d → fd_run_id d = r →
    ∃ f now, h_frames h !! fd_frame_idx d = Some f ∧ d = (frame_to_doc r now f).2;
  ri_frame_max : cget (summary_of sn r) "frame_max" = CVal PNone ∨
    ∃ m, cget (summary_of sn r) "frame_max" = CVal (PInt m) ∧ framed sn h r m;
  ri_kpi : mark_ok (kpi_is r) (h_kpi h) (sn_kpi sn) (cget (summary_of sn r) (watermark_key kpi_events));
  ri_breakdown : mark_ok (breakdown_is r) (h_breakdown h) (sn_breakdown sn)
    (cget (summary_of sn r) (watermark_key kpi_breakdown_rows));
}.

Record inv (sn : snap) (s : S) : Prop := {
  inv_ids id d : sn_frames sn !! id = Some d →
    id = frame_id (fd_run_id d) (fd_frame_idx d) ∧ plain (fd_run_id d);
  inv_runs r : plain r → run_inv r sn (held s r);
}.

(** *** The working set moves *)

Definition moves (s s' : S) : Prop := ∀ r, grows (held s r) (held s' r).

Fixpoint flows (s : S) (l : list S) : Prop :=
  match l with [] => True | s' :: l => moves s s' ∧ flows s' l end.

Lemma revised_refl {Row} (tbl : gmap string (Row * datetime)) : revised tbl tbl.
Proof. split; [by left|]. intros id x Hx. exists x. split; [done|apply dt_le_refl]. Qed.

Lemma revised_trans {Row} (t1 t2 t3 : gmap string (Row * datetime)) :
  revised t1 t2 → revised t2 t3 → revised t1 t3.
Proof.
  intros [Hn1 Ho1] [Hn2 Ho2]. split.
  - intros id x Hx. destruct (Hn2 id x Hx) as [?|Hl]; [by apply Hn1|]. right.
    intros id0 x0 Hx0. destruct (Ho1 id0 x0 Hx0) as (x1 & Hx1 & Hle).
    eapply dt_le_lt; [done|]. by eapply Hl.
  - intros id x Hx. destruct (Ho1 id x Hx) as (x1 & Hx1 & Hle1).
    destruct (Ho2 id x1 Hx1) as (x2 & Hx2 & Hle2). exists x2. split; [done|]. by eapply dt_le_trans.
Qed.

Lemma appended_trans f1 f2 f3 : appended f1 f2 → appended f2 f3 → appended f1 f3.
Proof.
  intros [Hs1 Hn1] [Hs2 Hn2]. split; [by etrans|]. intros i Hi.
  destruct (Hn2 i Hi) as [?|Hgt]; [by apply Hn1|]. right. intros j [f Hj].
  apply Hgt. exists f. by apply (lookup_weaken f1).
Qed.

#[local] Instance grows_preorder : PreOrder grows.
Proof.
  split.
  - intros h. split; [split; [done|by left]|apply revised_refl..].
  - intros h1 h2 h3 [] []. split; [by eapply appended_trans|by eapply revised_trans..].
Qed.

Lemma held_kpi_stamped s r : stamped (h_kpi (held s r)).
Proof. intros id [row t] Hx. by apply (ok_kpi _ _ (held_ok s r)) in Hx as (_ & _ & ?). Qed.
Lemma held_breakdown_stamped s r : stamped (h_breakdown (held s r)).
Proof. intros id [row t] Hx. by apply (ok_breakdown _ _ (held_ok s r)) in Hx as (_ & ? & _). Qed.
#[local] Hint Resolve held_kpi_stamped held_breakdown_stamped : core.

Lemma framed_grows s s' sn r m :
  grows (held s r) (held s' r) → framed sn (held s r) r m → framed sn (held s' r) r m.
Proof.
  intros [[Hsub Hnew] _ _] [Hm Hf]. split.
  { destruct Hm as [?|[f Hm]]; [by left|]. right. exists f. by apply (lookup_weaken _ _ _ _ Hm). }
  intros i Hi Hle. destruct (Hnew i Hi) as [?|Hgt]; [by apply Hf|].
  destruct Hm as [Hm|Hm]; [|specialize (Hgt m Hm); lia].
  destruct Hi as [f Hi]. apply (ok_frames _ _ (held_ok s' r)) in Hi. lia.
Qed.

Lemma run_inv_grows s s' sn r :
  grows (held s r) (held s' r) → run_inv r sn (held s r) → run_inv r sn (held s' r).
Proof.
  intros Hg [Hf Hm Hk Hb]. split.
  - intros id d Hd Hr. destruct (Hf id d Hd Hr) as (f & now & Hh & ->). exists f, now. split; [|done].
    destruct Hg as [[Hsub _] _ _]. by apply (lookup_weaken _ _ _ _ Hh).
  - destruct Hm as [?|(m & ? & ?)]; [by left|]. right. exists m. split; [done|]. by apply (framed_grows s s').
  - destruct Hg. by apply (mark_ok_revised _ (h_kpi (held s r))).
  - destruct Hg. by apply (mark_ok_revised _ (h_breakdown (held s r))).
Qed.

Lemma inv_moves sn s s' : moves s s' → inv sn s → inv sn s'.
Proof. intros Hm [Hi Hr]. split; [done|]. intros r Hp. apply (run_inv_grows s s'); auto. Qed.

(** *** What identifiers say *)

Lemma kpi_id_of s r id row t : h_kpi (held s r) !! id = Some (row, t) → ∃ u, id = (r +:+ String "|" u).
Proof.
  intros Hx. apply (ok_kpi _ _ (held_ok s r)) in Hx as (Hr & -> & _). unfold kpi_row_to_doc.
  destruct (bool_decide _); rewrite ?Hr; by eexists.
Qed.

Lemma breakdown_id_of s r id row t : h_breakdown (held s r) !! id = Some (row, t) → ∃ u, id = (r +:+ String "|" u).
Proof.
  intros Hx. apply (ok_breakdown _ _ (held_ok s r)) in Hx as (Hr & _ & Hid).
  specialize (Hid (DateTime 0 0 0 0 0 0 0)). unfold breakdown_row_to_doc in Hid. rewrite Hr in Hid.
  destruct (c_none _); [done|]. injection Hid as <-. by eexists.
Qed.

Lemma other_run r r' id :
  plain r → plain r' → r ≠ r' → (∃ u, id = (r +:+ String "|" u)) → (∃ u, id = (r' +:+ String "|" u)) → False.
Proof. intros [_ Hr] [_ Hr'] Hne [u ->] [u' E]. by apply split_at_sep in E as [? _]. Qed.

(** *** Writes keep the invariant *)

Definition with_frames (F : gmap string frame_doc) (sn : snap) : snap :=
  Snap F (sn_kpi sn) (sn_breakdown sn) (sn_runs sn).
Definition with_kpi (K : gmap string kpi_doc) (sn : snap) : snap :=
  Snap (sn_frames sn) K (sn_breakdown sn) (sn_runs sn).
Definition with_breakdown (B : gmap string crow) (sn : snap) : snap :=
  Snap (sn_frames sn) (sn_kpi sn) B (sn_runs sn).
Definition with_runs (R : gmap string crow) (sn : snap) : snap :=
  Snap (sn_frames sn) (sn_kpi sn) (sn_breakdown sn) R.

(** The document of one of the frames in [h]. *)
Definition frame_made (r : string) (h : gmap Z frame) (p : string * frame_doc) : Prop :=
  ∃ f now, h !! frame_idx f = Some f ∧ p = frame_to_doc r now f.

Lemma present_keeps sn F r i :
  (∀ i d, sn_frames sn !! i = Some d → F !! i = Some d) → present sn r i → present (with_frames F sn) r i.
Proof. intros Hk (d & Hd & Hr). exists d. split; [by apply Hk|done]. Qed.

Lemma framed_keeps sn F h r m :
  (∀ i d, sn_frames sn !! i = Some d → F !! i = Some d) → framed sn h r m → framed (with_frames F sn) h r m.
Proof. intros Hk [Hm Hf]. split; [done|]. intros i Hi Hle. apply present_keeps; auto. Qed.

Lemma inv_write_frames sn s r F (l : list (string * frame_doc)) :
  plain r → inv sn s →
  (∀ i d, sn_frames sn !! i = Some d → F !! i = Some d) →
  (∀ i d, F !! i = Some d → sn_frames sn !! i = Some d ∨ (i, d) ∈ l) →
  (∀ p, p ∈ l → frame_made r (h_frames (held s r)) p) → inv (with_frames F sn) s.
Proof.
  intros Hp [Hids Hruns] Hk Ho Hl. split.
  - intros id d Hd. destruct (Ho id d Hd) as [?|Hin]; [by apply Hids|].
    destruct (Hl _ Hin) as (f & now & _ & [= -> ->]). done.
  - intros r' Hp'. destruct (Hruns r' Hp') as [Hf Hm Hk' Hb]. split; simpl; [|..|done|done].
    + intros id d Hd Hr'. destruct (Ho id d Hd) as [?|Hin]; [by apply (Hf id)|].
      destruct (Hl _ Hin) as (f & now & Hh & [= -> ->]). simpl in *. subst r'. by exists f, now.
    + destruct Hm as [?|(m & ? & ?)]; [by left|]. right. exists m. split; [done|by apply framed_keeps].
Qed.

(** Marks that the rows read at [h0] had already reached. *)
Definition mark_reached {Row} (tbl : gmap string (Row * datetime)) (c : cell) : Prop :=
  ∀ s, c = CVal (PStr s) → reached tbl s.

Lemma mark_ok_reached {Row D} (doc_is : string → Row → D → Prop) tbl ds c : mark_ok doc_is tbl ds c → mark_reached tbl c.
Proof. intros [->|(s & -> & Hr & _)] s' E; [done|]. by injection E as ->. Qed.

Lemma mark_ok_write {Row D} (doc_is : string → Row → D → Prop) tbl0 tbl ds ds' (l : list (string * D)) c :
  stamped tbl0 → stamped tbl → revised tbl0 tbl → mark_reached tbl0 c →
  (∀ id, is_Some (ds !! id) → is_Some (ds' !! id)) →
  (∀ id d, ds' !! id = Some d → ds !! id = Some d ∨ (id, d) ∈ l) →
  (∀ id d, (id, d) ∈ l → tbl !! id = None ∨ ∃ row t, tbl0 !! id = Some (row, t) ∧ doc_is id row d) →
  mark_ok doc_is tbl ds c → mark_ok doc_is tbl ds' c.
Proof.
  intros Hs0 Hs Hrev Hb Hk Ho Hl [?|(s & -> & Hc)]; [by left|]. right. exists s. split; [done|].
  by apply (covered_write doc_is tbl0 tbl ds ds' l s); auto.
Qed.

(** The document of one of the rows in [tbl]. *)
Definition row_made {Row D} (doc_is : string → Row → D → Prop) (tbl : gmap string (Row * datetime)) (p : string * D) : Prop :=
  ∃ row t, tbl !! p.1 = Some (row, t) ∧ doc_is p.1 row p.2.

Lemma inv_write_kpi sn s0 s r K (l : list (string * kpi_doc)) :
  plain r → inv sn s → grows (held s0 r) (held s r) →
  mark_reached (h_kpi (held s0 r)) (cget (summary_of sn r) (watermark_key kpi_events)) →
  (∀ id, is_Some (sn_kpi sn !! id) → is_Some (K !! id)) →
  (∀ id d, K !! id = Some d → sn_kpi sn !! id = Some d ∨ (id, d) ∈ l) →
  (∀ p, p ∈ l → row_made (kpi_is r) (h_kpi (held s0 r)) p) → inv (with_kpi K sn) s.
Proof.
  intros Hp [Hids Hruns] Hg Hb Hk Ho Hl. split; [done|]. intros r' Hp'.
  destruct (Hruns r' Hp') as [Hf Hm Hk' Hb']. split; simpl; [done..| |done].
  destruct (decide (r' = r)) as [->|Hne].
  - apply (mark_ok_write _ (h_kpi (held s0 r)) _ (sn_kpi sn) _ l); auto; [by destruct Hg|].
    intros id d Hin. right. destruct (Hl _ Hin) as (row & t & ? & ?). by exists row, t.
  - apply (mark_ok_write _ (h_kpi (held s r')) _ (sn_kpi sn) _ l); auto using revised_refl.
    { by eapply mark_ok_reached. }
    intros id d Hin. left. destruct (Hl _ Hin) as (row & t & Hx & _).
    destruct (h_kpi (held s r') !! id) as [[row' t']|] eqn:E; [|done].
    destruct (other_run r r' id); eauto using kpi_id_of.
Qed.

Lemma inv_write_breakdown sn s0 s r B (l : list (string * crow)) :
  plain r → inv sn s → grows (held s0 r) (held s r) →
  mark_reached (h_breakdown (held s0 r)) (cget (summary_of sn r) (watermark_key kpi_breakdown_rows)) →
  (∀ id, is_Some (sn_breakdown sn !! id) → is_Some (B !! id)) →
  (∀ id d, B !! id = Some d → sn_breakdown sn !! id = Some d ∨ (id, d) ∈ l) →
  (∀ p, p ∈ l → row_made (breakdown_is r) (h_breakdown (held s0 r)) p) → inv (with_breakdown B sn) s.
Proof.
  intros Hp [Hids Hruns] Hg Hb Hk Ho Hl. split; [done|]. intros r' Hp'.
  destruct (Hruns r' Hp') as [Hf Hm Hk' Hb']. split; simpl; [done..|].
  destruct (decide (r' = r)) as [->|Hne].
  - apply (mark_ok_write _ (h_breakdown (held s0 r)) _ (sn_breakdown sn) _ l); auto; [by destruct Hg|].
    intros id d Hin. right. destruct (Hl _ Hin) as (row & t & ? & ?). by exists row, t.
  - apply (mark_ok_write _ (h_breakdown (held s r')) _ (sn_breakdown sn) _ l); auto using revised_refl.
    { by eapply mark_ok_reached. }
    intros id d Hin. left. destruct (Hl _ Hin) as (row & t & Hx & _).
    destruct (h_breakdown (held s r') !! id) as [[row' t']|] eqn:E; [|done].
    destruct (other_run r r' id); eauto using breakdown_id_of.
Qed.

Lemma summary_of_set sn r r' d :
  summary_of (with_runs (set_summary r d (sn_runs sn)) sn) r' =
  if decide (r = r') then crow_update (summary_of sn r) d else summary_of sn r'.
Proof. unfold summary_of, set_summary. simpl. rewrite lookup_insert. by case_decide. Qed.

Lemma cget_update d m k :
  NoDup (d_keys m) → cget (crow_update d m) k = match d_get m k with Some c => c | None => cget d k end.
Proof.
  unfold cget, crow_update, d_keys. revert d. induction m as [|[k' c] m IH]; intros d Hnd; [done|].
  apply NoDup_cons in Hnd as [Hk' Hnd]. simpl. rewrite IH by done. rewrite d_get_set. simpl.
  repeat case_decide; try congruence. subst k'.
  destruct (d_get m k) eqn:E; [|done]. destruct Hk'. apply d_get_is_Some. eauto.
Qed.

(** A summary whose claims are true. *)
Lemma inv_write_summary sn s r d :
  inv sn s → NoDup (d_keys d) →
  (∃ o, d_get d "frame_max" = Some (opt_cell o) ∧ ∀ m, o = Some m → framed sn (held s r) r m) →
  (∀ c, d_get d (watermark_key kpi_events) = Some c → mark_ok (kpi_is r) (h_kpi (held s r)) (sn_kpi sn) c) →
  (∀ c, d_get d (watermark_key kpi_breakdown_rows) = Some c →
    mark_ok (breakdown_is r) (h_breakdown (held s r)) (sn_breakdown sn) c) →
  inv (with_runs (set_summary r d (sn_runs sn)) sn) s.
Proof.
  intros [Hids Hruns] Hnd (o & Ho & Hframed) Hk Hb. split; [done|]. intros r' Hp'.
  destruct (Hruns r' Hp') as [Hf Hm Hk' Hb']. split; [done|..]; rewrite summary_of_set; case_decide as E; try done; subst r';
    rewrite cget_update by done; simpl in *.
  - rewrite Ho. destruct o as [m|]; [right; exists m; eauto|by left].
  - destruct (d_get d "kpi_max_ingested_at"); [by apply Hk|done].
  - destruct (d_get d "breakdown_max_ingested_at"); [by apply Hb|done].
Qed.

(** *** Assertions about the world

    [st r K]: the invariant holds, whatever the store still does respects it, and [K]
    is true of the archive and of what the store holds of run [r]. *)

Abbreviation fact := (snap → holding → Prop).
Implicit Types (K : fact) (w : W).

Definition good w : Prop := flows (store w) (upcoming w) ∧ inv (snap_of (arch w)) (store w).
Definition st (r : string) K w : Prop := good w ∧ K (snap_of (arch w)) (held (store w) r).

(** Facts that survive the movement of the store. *)
Definition stable (r : string) K : Prop :=
  ∀ sn s s', grows (held s r) (held s' r) → K sn (held s r) → K sn (held s' r).

(** Facts a write elsewhere does not touch. *)
Definition blind {X} (put : X → snap → snap) K : Prop := ∀ x sn h, K sn h → K (put x sn) h.

Definition since (r : string) (s0 : S) : fact := λ _ h, grows (held s0 r) h.

Lemma stable_and r K1 K2 : stable r K1 → stable r K2 → stable r (λ sn h, K1 sn h ∧ K2 sn h).
Proof. intros H1' H2' sn s s' Hg [? ?]. split; [by apply (H1' sn s)|by apply (H2' sn s)]. Qed.

Lemma stable_pure r (P : snap → Prop) : stable r (λ sn _, P sn).
Proof. by intros sn s s' _. Qed.

Lemma stable_since r s0 : stable r (since r s0).
Proof. intros sn s s' Hg Hs. unfold since in *. by etrans. Qed.

Lemma st_weaken r K K' w : (∀ sn h, K sn h → K' sn h) → st r K w → st r K' w.
Proof. intros HK [? ?]. split; auto. Qed.

Lemma st_good r K w : st r K w → good w.
Proof. by intros []. Qed.
#[local] Hint Resolve st_good : core.

(** What the invariant says of a run may be used as a fact. *)
Lemma st_inv r K w : plain r → st r K w → st r (λ sn h, K sn h ∧ run_inv r sn h) w.
Proof. intros Hp [[? Hi] ?]. split; [done|]. split; [done|]. by apply (inv_runs _ _ Hi). Qed.

Lemma hoare_exists {A X} (P : X → W → Prop) (m : eff W A) Q E :
  (∀ x, hoare (P x) m Q E) → hoare (λ w, ∃ x, P x w) m Q E.
Proof. intros Hm w [x Hx]. by apply (Hm x). Qed.

(** *** The primitive effects *)

Lemma hoare_ask {A} r K (f : S → A) : stable r K →
  hoare (st r K) (ask f) (λ a w, ∃ s0, a = f s0 ∧ K (snap_of (arch w)) (held s0 r) ∧
                            st r (λ sn h, K sn h ∧ since r s0 sn h) w) good.
Proof.
  intros HK w [[Hfl Hi] Hk]. unfold ask. exists (store w).
  destruct (upcoming w) as [|s' l] eqn:Eu; simpl.
  - split; [done|]. split; [done|]. split; [split; [by rewrite Eu|done]|]. split; [done|]. by unfold since.
  - destruct Hfl as [Hm Hfl]. split; [done|]. split; [done|]. split.
    + split; [done|]. by apply (inv_moves _ (store w)).
    + split; [by apply (HK _ (store w))|]. by apply Hm.
Qed.

(** A probe whose answer matters only for what it says of the moment it was made. *)
Lemma hoare_probe {A} r K (f : S → A) : stable r K → hoare (st r K) (ask f) (λ _, st r K) good.
Proof.
  intros HK. eapply hoare_post; [by apply hoare_ask|]. intros a w (s0 & _ & _ & Hs).
  eapply st_weaken; [|done]. by intros ? ? [? _].
Qed.

Lemma hoare_utcnow r K : hoare (st r K) (utcnow clock) (λ _, st r K) good.
Proof. by intros w Hw. Qed.

Lemma hoare_mongo {A} P (m : eff W (result A)) (Q : A → W → Prop) :
  hoare P m (λ a w, match a with Ok a => Q a w | Raise _ => good w end) good → hoare P (mongo m) Q good.
Proof.
  intros Hm. eapply hoare_bind; [done|]. intros a. apply hoare_lift. intros w. by destruct a.
Qed.

Lemma hoare_find_frames r K p :
  hoare (st r K) (mongo (at_frames (find p)))
    (λ l, st r (λ sn h, K sn h ∧ l ≡ₚ (filter (λ kv, p kv.2 = true) (map_to_list (sn_frames sn))).*2)) good.
Proof.
  apply hoare_mongo. intros w [[Hf Hi] Hk]. unfold at_frames.
  destruct (find p (frames (arch w))) as [res c] eqn:E.
  pose proof (find_reads p (frames (arch w))) as Hr. rewrite E in Hr. simpl in Hr.
  assert (good (with_arch (Archive c (kpi (arch w)) (breakdown (arch w)) (runs (arch w)) (last_dump_at (arch w))) w)) as Hg.
  { split; [done|]. unfold snap_of. simpl. by rewrite Hr. }
  destruct res as [l|e]; [|done]. split; [done|]. unfold snap_of. simpl. rewrite Hr. split; [done|].
  apply (find_docs p (frames (arch w))). by rewrite E.
Qed.

Lemma hoare_find_kpi r K p : hoare (st r K) (mongo (at_kpi (find p))) (λ _, st r K) good.
Proof.
  apply hoare_mongo. intros w [[Hf Hi] Hk]. unfold at_kpi.
  destruct (find p (kpi (arch w))) as [res c] eqn:E.
  pose proof (find_reads p (kpi (arch w))) as Hr. rewrite E in Hr. simpl in Hr.
  assert (st r K (with_arch (Archive (frames (arch w)) c (breakdown (arch w)) (runs (arch w)) (last_dump_at (arch w))) w)).
  { split; [split; [done|]|]; unfold snap_of; simpl; by rewrite Hr. }
  destruct res; eauto.
Qed.

Lemma hoare_find_breakdown r K p : hoare (st r K) (mongo (at_breakdown (find p))) (λ _, st r K) good.
Proof.
  apply hoare_mongo. intros w [[Hf Hi] Hk]. unfold at_breakdown.
  destruct (find p (breakdown (arch w))) as [res c] eqn:E.
  pose proof (find_reads p (breakdown (arch w))) as Hr. rewrite E in Hr. simpl in Hr.
  assert (st r K (with_arch (Archive (frames (arch w)) (kpi (arch w)) c (runs (arch w)) (last_dump_at (arch w))) w)).
  { split; [split; [done|]|]; unfold snap_of; simpl; by rewrite Hr. }
  destruct res; eauto.
Qed.

Lemma hoare_run_summary r K r' :
  hoare (st r K) (run_summary r') (λ o, st r (λ sn h, K sn h ∧ o = sn_runs sn !! r')) good.
Proof.
  apply hoare_mongo. intros w [[Hf Hi] Hk]. unfold at_runs.
  destruct (find_one r' (runs (arch w))) as [res c] eqn:E.
  pose proof (find_one_reads r' (runs (arch w))) as Hr. rewrite E in Hr. simpl in Hr.
  assert (st r K (with_arch (Archive (frames (arch w)) (kpi (arch w)) (breakdown (arch w)) c (last_dump_at (arch w))) w)) as Hs.
  { split; [split; [done|]|]; unfold snap_of; simpl; by rewrite Hr. }
  destruct res as [o|e]; [|eauto]. destruct Hs as [? ?]. split; [done|]. split; [done|].
  unfold snap_of. simpl. rewrite Hr. apply (find_one_is r' (runs (arch w))). by rewrite E.
Qed.

(** *** The bulk writes *)

Definition frames_written (r : string) (l : list (string * frame_doc)) (sn : snap) : Prop :=
  ∀ f now, frame_to_doc r now f ∈ l → present sn r (frame_idx f).

Lemma hoare_insert_batch r s0 K l0 l : plain r →
  (∀ F sn h, (∀ i d, sn_frames sn !! i = Some d → F !! i = Some d) →
     (∀ i d, F !! i = Some d → sn_frames sn !! i = Some d ∨ (i, d) ∈ l) → K sn h → K (with_frames F sn) h) →
  (∀ p, p ∈ l → frame_made r (h_frames (held s0 r)) p) →
  hoare (st r (λ sn h, (K sn h ∧ since r s0 sn h) ∧ frames_written r l0 sn)) (_insert_batch l)
    (λ _, st r (λ sn h, (K sn h ∧ since r s0 sn h) ∧ frames_written r (l0 ++ l) sn)) good.
Proof.
  intros Hp HK Hl. unfold _insert_batch, write_batch. case_bool_decide as El.
  { subst. apply hoare_ret. by rewrite app_nil_r. }
  intros w [[Hf Hi] [[Hk Hs] Hw]]. unfold mbind, eff_bind, at_frames.
  destruct (insert_many l (frames (arch w))) as [b c] eqn:E.
  pose proof (insert_keeps l (frames (arch w))) as Hkeep. pose proof (insert_only l (frames (arch w))) as Honly.
  pose proof (insert_settled l (frames (arch w))) as Hset. rewrite E in Hkeep, Honly, Hset. simpl in *.
  assert (good (with_arch (Archive c (kpi (arch w)) (breakdown (arch w)) (runs (arch w)) (last_dump_at (arch w))) w)) as Hg.
  { split; [done|]. apply (inv_write_frames _ _ r (docs c) l Hp Hi Hkeep Honly).
    intros p Hin. destruct (Hl p Hin) as (f & now & Hh & ->). exists f, now. split; [|done].
    destruct Hs as [[Hsub _] _ _]. by apply (lookup_weaken _ _ _ _ Hh). }
  unfold lift. destruct (batch_result b) as [n|e] eqn:Eb; [|done]. split; [done|]. simpl.
  split; [split; [by apply (HK (docs c) (snap_of (arch w)))|done]|].
  intros f now [Hin|Hin]%elem_of_app.
  - apply (present_keeps (snap_of (arch w)) (docs c)); [done|by apply (Hw f now)].
  - destruct (Hset (frame_id r (frame_idx f)) (frame_to_doc r now f).2) as [d Hd]; [by unfold settled; rewrite Eb|done|].
    exists d. split; [done|]. destruct Hg as [_ [Hids _]]. destruct (Hids _ d Hd) as [Eid [Hpd _]].
    destruct Hp as [Hp _]. by apply frame_id_inj in Eid as [-> _].
Qed.

Definition rows_written {D} (l : list (string * D)) (ds : gmap string D) : Prop :=
  ∀ id d, (id, d) ∈ l → ds !! id = Some d.

Lemma replace_writes {C D} `{CollectionLaws C D} (l0 l : list (string * D)) c :
  NoDup (l0 ++ l).*1 → settled (replace_many l c).1 →
  rows_written l0 (docs c) → rows_written (l0 ++ l) (docs (replace_many l c).2).
Proof.
  rewrite fmap_app. intros (_ & Hdis & Hnd)%NoDup_app Hset H0w id d [Hin|Hin]%elem_of_app; [|by apply replace_settled].
  pose proof (H0w id d Hin) as Hd. destruct (replace_keeps l c id) as [d' Hd']; [eauto|].
  destruct (replace_only l c id d' Hd') as [?|Hin']; [by simplify_eq|].
  destruct (Hdis id); apply list_elem_of_fmap; [by exists (id, d)|by exists (id, d')].
Qed.

Abbreviation kpi_fact r s0 K := (λ sn h, K sn h ∧ since r s0 sn h ∧
  mark_reached (h_kpi (held s0 r)) (cget (summary_of sn r) (watermark_key kpi_events))).
Abbreviation breakdown_fact r s0 K := (λ sn h, K sn h ∧ since r s0 sn h ∧
  mark_reached (h_breakdown (held s0 r)) (cget (summary_of sn r) (watermark_key kpi_breakdown_rows))).

Lemma hoare_replace_kpi r s0 K l0 l : plain r → blind with_kpi K → NoDup (l0 ++ l).*1 →
  (∀ p, p ∈ l → row_made (kpi_is r) (h_kpi (held s0 r)) p) →
  hoare (st r (λ sn h, kpi_fact r s0 K sn h ∧ rows_written l0 (sn_kpi sn))) (_replace_kpi l)
    (λ _, st r (λ sn h, kpi_fact r s0 K sn h ∧ rows_written (l0 ++ l) (sn_kpi sn))) good.
Proof.
  intros Hp HK Hnd Hl. unfold _replace_kpi, write_batch. case_bool_decide as El.
  { subst. apply hoare_ret. by rewrite app_nil_r. }
  intros w [[Hf Hi] [(Hk & Hs & Hm) Hw]]. unfold mbind, eff_bind, at_kpi.
  pose proof (replace_keeps l (kpi (arch w))) as Hkeep. pose proof (replace_only l (kpi (arch w))) as Honly.
  pose proof (replace_writes l0 l (kpi (arch w)) Hnd) as Hset.
  destruct (replace_many l (kpi (arch w))) as [b c] eqn:E. simpl in *.
  assert (good (with_arch (Archive (frames (arch w)) c (breakdown (arch w)) (runs (arch w)) (last_dump_at (arch w))) w)) as Hg.
  { split; [done|]. by apply (inv_write_kpi _ s0 _ r (docs c) l Hp Hi). }
  unfold lift. destruct (batch_result b) as [n|e] eqn:Eb; [|done]. split; [done|]. simpl.
  split; [split; [by apply (HK (docs c) (snap_of (arch w)))|done]|].
  apply Hset; [by unfold settled; rewrite Eb|done].
Qed.

Lemma hoare_replace_breakdown r s0 K l0 l : plain r → blind with_breakdown K → NoDup (l0 ++ l).*1 →
  (∀ p, p ∈ l → row_made (breakdown_is r) (h_breakdown (held s0 r)) p) →
  hoare (st r (λ sn h, breakdown_fact r s0 K sn h ∧ rows_written l0 (sn_breakdown sn))) (_replace_breakdown l)
    (λ _, st r (λ sn h, breakdown_fact r s0 K sn h ∧ rows_written (l0 ++ l) (sn_breakdown sn))) good.
Proof.
  intros Hp HK Hnd Hl. unfold _replace_breakdown, write_batch. case_bool_decide as El.
  { subst. apply hoare_ret. by rewrite app_nil_r. }
  intros w [[Hf Hi] [(Hk & Hs & Hm) Hw]]. unfold mbind, eff_bind, at_breakdown.
  pose proof (replace_keeps l (breakdown (arch w))) as Hkeep. pose proof (replace_only l (breakdown (arch w))) as Honly.
  pose proof (replace_writes l0 l (breakdown (arch w)) Hnd) as Hset.
  destruct (replace_many l (breakdown (arch w))) as [b c] eqn:E. simpl in *.
  assert (good (with_arch (Archive (frames (arch w)) (kpi (arch w)) c (runs (arch w)) (last_dump_at (arch w))) w)) as Hg.
  { split; [done|]. by apply (inv_write_breakdown _ s0 _ r (docs c) l Hp Hi). }
  unfold lift. destruct (batch_result b) as [n|e] eqn:Eb; [|done]. split; [done|]. simpl.
  split; [split; [by apply (HK (docs c) (snap_of (arch w)))|done]|].
  apply Hset; [by unfold settled; rewrite Eb|done].
Qed.

(** *** The write loop

    Whatever it has sent is written, and when it ends every item has been sent, or one
    whose document has the same identifier. *)
Lemma hoare_write_loop {X D} size (to_doc : X → eff W (option (string * D))) flush dedupe
    (I : list (string * D) → W → Prop) (made : X → string * D → Prop) (valid : X → Prop)
    (counted : Z → Prop) (E : W → Prop) :
  (∀ x l, valid x → hoare (I l) (to_doc x) (λ o w, I l w ∧ ∃ p, o = Some p ∧ made x p) E) →
  (∀ l0 l, (dedupe = true → NoDup (l0 ++ l).*1) → (∀ p, p ∈ l → ∃ x, valid x ∧ made x p) →
     hoare (I l0) (flush l) (λ k w, I (l0 ++ l) w ∧ counted k) E) →
  (∀ l w, I l w → E w) → (∀ a b, counted a → counted b → counted (a + b)) →
  (∀ x x' p p', valid x → valid x' → made x p → made x' p' → p.1 = p'.1 → x = x') →
  ∀ xs error batch seen n done_ earlier,
  counted n → (∀ x, x ∈ xs → valid x) →
  (∀ p, p ∈ batch → ∃ x, valid x ∧ made x p) →
  (∀ p, p ∈ done_ ++ batch → ∃ x, valid x ∧ made x p) →
  (dedupe = true → NoDup (done_ ++ batch).*1 ∧ ∀ id, id ∈ seen ↔ id ∈ (done_ ++ batch).*1) →
  (∀ x, x ∈ earlier → ∃ p, p ∈ done_ ++ batch ∧ made x p) →
  hoare (I done_) (write_loop size to_doc flush dedupe xs error batch seen n)
    (λ k w, (error = None ∧ counted k) ∧ ∃ l, I l w ∧ ∀ x, x ∈ earlier ++ xs → ∃ p, p ∈ l ∧ made x p) E.
Proof.
  intros Hdoc Hflush Hgood Hadd Hinj xs error. induction xs as [|x xs IH]; intros batch seen n done_ earlier Hcnt Hv Hb Hd Hnd He; cbn [write_loop].
  { destruct error as [e|]; [apply hoare_lift; eauto|].
    eapply hoare_bind; [apply Hflush; [intros Ede; by destruct (Hnd Ede)|done]|].
    intros k. apply hoare_ret. intros w [Hw Hk]. split; [auto|]. exists (done_ ++ batch). split; [done|].
    by rewrite app_nil_r. }
  assert (∀ l, earlier ++ x :: l = (earlier ++ [x]) ++ l) as Eapp by (intros; by rewrite <-app_assoc).
  rewrite Eapp. assert (∀ x', x' ∈ xs → valid x') as Hv' by (intros; apply Hv; by right).
  assert (valid x) as Hvx by (apply Hv; by left).
  eapply hoare_bind; [by apply Hdoc|]. intros [p|]; [|by intros w (_ & ? & ? & _)].
  intros w [Hw (p' & [= <-] & Hp)]. revert w Hw.
  match goal with |- ∀ w, I done_ w → match ?m w with _ => _ end => change (hoare (I done_) m
    (λ k w, (error = None ∧ counted k) ∧ ∃ l, I l w ∧ ∀ x', x' ∈ (earlier ++ [x]) ++ xs → ∃ p, p ∈ l ∧ made x' p) E) end.
  destruct (dedupe && bool_decide (p.1 ∈ seen)) eqn:Eseen.
  { apply andb_true_iff in Eseen as [Ede Hin%bool_decide_eq_true]. apply IH; try done.
    intros x' [Hx'|Hx'%list_elem_of_singleton]%elem_of_app; [by apply He|]. subst x'.
    destruct (Hnd Ede) as [_ Hsn]. apply Hsn in Hin. apply list_elem_of_fmap in Hin as (q & Eq & Hq).
    destruct (Hd q Hq) as (x' & Hvx' & Hq'). exists q. split; [done|].
    by rewrite (Hinj x x' p q). }
  assert (∀ q, q ∈ done_ ++ batch ++ [p] → ∃ x', valid x' ∧ made x' q) as Hd'.
  { intros q. rewrite app_assoc, elem_of_app, list_elem_of_singleton. intros [?| ->]; eauto. }
  assert (∀ q, q ∈ batch ++ [p] → ∃ x', valid x' ∧ made x' q) as Hb'.
  { intros q Hq. apply Hd'. rewrite elem_of_app. by right. }
  assert (dedupe = true → NoDup (done_ ++ batch ++ [p]).*1 ∧
          ∀ id, id ∈ ({[p.1]} ∪ seen : gset string) ↔ id ∈ (done_ ++ batch ++ [p]).*1) as Hnd'.
  { intros Ede. destruct (Hnd Ede) as [Hn Hsn]. rewrite Ede in Eseen. apply bool_decide_eq_false in Eseen.
    rewrite app_assoc, fmap_app. simpl. split.
    - apply NoDup_app. split; [done|]. split; [|apply NoDup_singleton].
      intros id Hid ->%list_elem_of_singleton. by apply Eseen, Hsn.
    - intros id. rewrite elem_of_union, elem_of_singleton, elem_of_app, list_elem_of_singleton, Hsn. tauto. }
  assert (∀ x', x' ∈ earlier ++ [x] → ∃ q, q ∈ done_ ++ batch ++ [p] ∧ made x' q) as He'.
  { intros x'. rewrite app_assoc, elem_of_app, list_elem_of_singleton. intros [Hx'| ->].
    - destruct (He x' Hx') as (q & ? & ?). exists q. rewrite elem_of_app. auto.
    - exists p. rewrite elem_of_app, list_elem_of_singleton. auto. }
  destruct (_ <=? _)%nat.
  - eapply hoare_bind; [apply Hflush; [intros Ede; by destruct (Hnd' Ede)|done]|]. intros k.
    apply (hoare_prop _ (counted k)); [by intros w []|]. intros Hk. eapply hoare_pre; [|intros w [Hw _]; exact Hw].
    apply IH; rewrite ?app_nil_r; auto. by intros q ?%elem_of_nil.
  - by apply IH.
Qed.

(** *** What the archive holds of the frames *)

Definition idxs (r : string) (sn : snap) : list Z :=
  fd_frame_idx <$> (filter (λ kv, bool_decide (fd_run_id kv.2 = r) = true) (map_to_list (sn_frames sn))).*2.

Lemma elem_of_idxs r sn i : i ∈ idxs r sn ↔ ∃ id d, sn_frames sn !! id = Some d ∧ fd_run_id d = r ∧ fd_frame_idx d = i.
Proof.
  unfold idxs. rewrite list_elem_of_fmap. split.
  - intros (d & -> & ([id d'] & -> & Hin)%list_elem_of_fmap). apply list_elem_of_filter in Hin as [Hr Hin].
    apply elem_of_map_to_list in Hin. apply bool_decide_eq_true in Hr. eauto.
  - intros (id & d & Hd & Hr & <-). exists d. split; [done|]. apply list_elem_of_fmap. exists (id, d).
    split; [done|]. apply list_elem_of_filter. split; [by apply bool_decide_eq_true|by apply elem_of_map_to_list].
Qed.

Lemma NoDup_idxs r sn s : inv sn s → NoDup (idxs r sn).
Proof.
  intros [Hids _]. unfold idxs. rewrite <-list_fmap_compose. apply NoDup_fmap_2_strong.
  - intros [id d] [id' d'] Hin Hin'. apply list_elem_of_filter in Hin as [Hr Hin], Hin' as [Hr' Hin'].
    apply elem_of_map_to_list in Hin, Hin'. apply bool_decide_eq_true in Hr, Hr'. simpl in *. intros E.
    destruct (Hids _ _ Hin) as [Eid _], (Hids _ _ Hin') as [Eid' _]. rewrite Hr in Eid. rewrite Hr', <-E in Eid'.
    subst id id'. by simplify_eq.
  - apply NoDup_filter, NoDup_map_to_list.
Qed.

Lemma idxs_present r sn s i : inv sn s → i ∈ idxs r sn → present sn r i.
Proof.
  intros [Hids _] (id & d & Hd & Hr & <-)%elem_of_idxs. destruct (Hids id d Hd) as [-> _].
  exists d. split; [|done]. by rewrite <-Hr.
Qed.

Definition stats_ok (r : string) (stats : Z * option Z * option Z) (sn : snap) : Prop :=
  stats.1.1 = Z.of_nat (length (idxs r sn)) ∧
  match stats.2 with
  | Some m => m ∈ idxs r sn ∧ ∀ i, i ∈ idxs r sn → i ≤ m
  | None => idxs r sn = []
  end.

Lemma hoare_frame_stats r K :
  hoare (st r K) (_archive_frame_stats r) (λ stats, st r (λ sn h, K sn h ∧ stats_ok r stats sn)) good.
Proof.
  unfold _archive_frame_stats, run_frames. eapply hoare_bind; [apply hoare_find_frames|]. intros all.
  case_bool_decide as Eall.
  { subst. apply hoare_ret. intros w Hw. eapply st_weaken; [|done]. intros sn h [? Hl]. split; [done|].
    apply Permutation_nil_l in Hl. unfold stats_ok, idxs. by rewrite <-Hl. }
  eapply hoare_bind; [apply hoare_find_frames|]. intros lo.
  eapply hoare_bind; [apply hoare_find_frames|]. intros hi. apply hoare_ret. intros w Hw.
  eapply st_weaken; [|done]. intros sn h [[[? Hall] _] Hhi]. split; [done|].
  unfold stats_ok. simpl. split; [unfold idxs; by rewrite length_fmap, <-Hall|].
  assert (fd_frame_idx <$> hi ≡ₚ idxs r sn) as Hp by (unfold idxs; by rewrite Hhi).
  pose proof (extreme_max (fd_frame_idx <$> hi)) as Hm. destruct (extreme _ _) as [m|].
  - rewrite <-Hp. split; [by destruct Hm|]. intros i. rewrite <-Hp. by apply Hm.
  - rewrite Hm in Hp. by apply Permutation_nil_l in Hp.
Qed.

(** A count equal to the largest index plus one leaves no gap. *)
Lemma dense_prefix r sn s stats m i : plain r → inv sn s → stats_ok r stats sn → dense_upto stats = Some m →
  0 ≤ i ≤ m → present sn r i.
Proof.
  intros Hp Hi [Hn Hm] Hd Hle. destruct stats as [[n lo] [hi|]]; simpl in *; [|done].
  destruct (Z.eqb_spec n (hi + 1)); [|done]. injection Hd as ->. destruct Hm as [Hin Hmax].
  assert (∀ j, j ∈ idxs r sn → 0 ≤ j) as Hpos.
  { intros j (id & d & Hd & Hr & <-)%elem_of_idxs. destruct (inv_runs _ _ Hi r Hp) as [Hf _ _ _].
    destruct (Hf id d Hd Hr) as (f & now & Hh & _). by destruct (ok_frames _ _ (held_ok s r) _ _ Hh). }
  assert (idxs r sn ≡ₚ seqZ 0 (m + 1)) as Hperm.
  { apply submseteq_length_Permutation; [|rewrite length_seqZ; lia].
    apply NoDup_submseteq; [by apply (NoDup_idxs r sn s)|]. intros j Hj. apply elem_of_seqZ.
    specialize (Hpos j Hj). specialize (Hmax j Hj). lia. }
  apply (idxs_present r sn s); [done|]. rewrite Hperm. apply elem_of_seqZ. lia.
Qed.

(** *** Sending the frames *)

Lemma hoare_write_frames r s0 K fs error n : plain r →
  (∀ F (l : list (string * frame_doc)) sn h, (∀ i d, sn_frames sn !! i = Some d → F !! i = Some d) →
     (∀ i d, F !! i = Some d → sn_frames sn !! i = Some d ∨ (i, d) ∈ l) →
     (∀ p, p ∈ l → frame_made r (h_frames (held s0 r)) p) → K sn h → K (with_frames F sn) h) →
  (∀ f, f ∈ fs → h_frames (held s0 r) !! frame_idx f = Some f) →
  hoare (st r (λ sn h, K sn h ∧ since r s0 sn h)) (write_frames clock r (fs, error) n)
    (λ _ w, error = None ∧ st r (λ sn h, (K sn h ∧ since r s0 sn h) ∧ ∀ f, f ∈ fs → present sn r (frame_idx f)) w) good.
Proof.
  intros Hp HK Hfs. unfold write_frames. simpl. eapply hoare_conseq;
    [apply (hoare_write_loop _ _ _ false (λ l, st r (λ sn h, (K sn h ∧ since r s0 sn h) ∧ frames_written r l sn))
       (λ f p, ∃ now, p = frame_to_doc r now f) (λ f, h_frames (held s0 r) !! frame_idx f = Some f) (λ _, True) good)
     with (done_ := []) (earlier := [])|..]; simpl.
  - intros f l Hf. eapply hoare_bind; [apply hoare_utcnow|]. intros now. apply hoare_ret. intros w Hw.
    split; [done|]. eexists. split; [done|]. by exists now.
  - intros l0 l _ Hl. eapply hoare_post; [apply hoare_insert_batch|by intros]; [done| |].
    + intros F sn h Hk Ho. apply (HK F l); [done..|]. intros p Hin. destruct (Hl p Hin) as (f & ? & now & ->). by exists f, now.
    + intros p Hin. destruct (Hl p Hin) as (f & ? & now & ->). by exists f, now.
  - eauto.
  - done.
  - intros f f' p p' Hf Hf' [now ->] [now' ->] E. simpl in E. apply frame_id_inj in E as [_ E]; [|by destruct Hp..].
    rewrite E in Hf. by simplify_eq.
  - done.
  - done.
  - by intros p ?%elem_of_nil.
  - by intros p ?%elem_of_nil.
  - done.
  - by intros f ?%elem_of_nil.
  - intros w Hw. eapply st_weaken; [|done]. intros sn h ?. split; [done|]. by intros f now ?%elem_of_nil.
  - intros a w ([He _] & l & Hw & Hall). split; [done|]. eapply st_weaken; [|done]. intros sn h [? Hwr]. split; [done|].
    intros f Hf. destruct (Hall f Hf) as (p & Hin & now & ->). by apply (Hwr f now).
  - done.
Qed.

(** Every frame held up to [m] is archived, and no other. *)
Definition complete_upto (r : string) (m : Z) : fact := λ sn h,
  framed sn h r m ∧ ∀ i, i ∈ idxs r sn → i ≤ m.

Lemma stable_complete r m : stable r (complete_upto r m).
Proof. intros sn s s' Hg [Hf Hi]. split; [by apply (framed_grows s)|done]. Qed.

Lemma blind_complete_kpi r m : blind with_kpi (complete_upto r m).
Proof. by intros x sn h. Qed.
Lemma blind_complete_breakdown r m : blind with_breakdown (complete_upto r m).
Proof. by intros x sn h. Qed.

Lemma top_frame (m : gmap Z frame) : (∀ i f, m !! i = Some f → 0 ≤ i) →
  ∃ M, (M < 0 ∨ is_Some (m !! M)) ∧ ∀ i, is_Some (m !! i) → i ≤ M.
Proof.
  intros Hpos. pose proof (extreme_max (map_to_list m).*1) as Hm.
  assert (∀ i, i ∈ (map_to_list m).*1 ↔ is_Some (m !! i)) as Hdom.
  { intros i. rewrite list_elem_of_fmap. split.
    - intros ([j f] & -> & Hin%elem_of_map_to_list). by exists f.
    - intros [f Hf]. exists (i, f). split; [done|]. by apply elem_of_map_to_list. }
  destruct (extreme Z.max _) as [M|].
  - exists M. rewrite <-Hdom. split; [right; by destruct Hm|]. intros i Hi. apply Hm. by apply Hdom.
  - exists (-1). split; [left; lia|]. intros i Hi. apply Hdom in Hi. rewrite Hm in Hi. by apply elem_of_nil in Hi.
Qed.

(** The frames of the archive are held. *)
Definition archived_held (r : string) (h0 : holding) : snap → Prop := λ sn,
  ∀ i, i ∈ idxs r sn → is_Some (h_frames h0 !! i).

Lemma archived_held_inv r sn h : run_inv r sn h → archived_held r h sn.
Proof.
  intros [Hf _ _ _] i (id & d & Hd & Hr & <-)%elem_of_idxs. destruct (Hf id d Hd Hr) as (f & now & ? & _). by exists f.
Qed.

Lemma hoare_dump_frames {A} r stats (k : list frame * option exn → Z → eff W A) Q : plain r →
  (∀ fs n M, hoare (st r (complete_upto r M)) (k fs n) Q good) →
  hoare (st r (λ sn h, True ∧ stats_ok r stats sn))
    (fs ← ask (λ s, iter_frames s r);
     n ← write_frames clock r (selected (dense_upto stats) fs.1, fs.2) frame_batch; k fs n) Q good.
Proof.
  intros Hp Hk.
  eapply hoare_pre with (P' := st r (λ sn h, (archived_held r h sn) ∧
    ∀ m i, dense_upto stats = Some m → 0 ≤ i ≤ m → present sn r i)).
  2:{ intros w Hw. pose proof (st_inv _ _ _ Hp Hw) as [[Hfl Hi] [[_ Hs] Hr]]. split; [done|]. split.
      - by apply archived_held_inv.
      - intros m i Hd Hle. by apply (dense_prefix r _ (store w) stats m). }
  eapply hoare_bind; [apply hoare_ask|].
  { intros sn s s' [[Hsub _] _ _] [Ha ?]. split; [|done]. intros i Hi. destruct (Ha i Hi) as [f Hf].
    exists f. by apply (lookup_weaken _ _ _ _ Hf). }
  intros fs. apply hoare_exists. intros s0 w (-> & [Ha Hd] & Hw). revert w Ha Hd Hw.
  pose proof (iter_frames_held s0 r) as Hin. pose proof (iter_frames_all s0 r) as Hall.
  destruct (iter_frames s0 r) as [fs error] eqn:Efs. simpl in *. intros w Ha Hd Hw.
  match goal with |- match ?c w with _ => _ end => cut (hoare (st r (λ sn h,
      (archived_held r (held s0 r) sn ∧ ∀ m i, dense_upto stats = Some m → 0 ≤ i ≤ m → present sn r i) ∧ since r s0 sn h)) c Q good) end.
  { intros Hh. apply Hh. destruct Hw as [Hg [_ Hs]]. split; [done|]. by split; [split|]. }
  eapply hoare_bind.
  { apply hoare_write_frames; [done| |].
    - intros F l sn h Hkeep Honly Hl [Ha' Hd']. split.
      + intros i (id & d & Hd0 & Hr & <-)%elem_of_idxs. destruct (Honly id d Hd0) as [?|Hin'].
        * apply Ha'. apply elem_of_idxs. eauto.
        * destruct (Hl _ Hin') as (f & now & Hf & [= -> ->]). simpl. by exists f.
      + intros m i Em Hle. apply present_keeps; eauto.
    - intros f Hf. apply Hin. unfold selected in Hf. destruct (dense_upto stats); [|done].
      by apply list_elem_of_filter in Hf as [_ ?]. }
  intros n. destruct (top_frame (h_frames (held s0 r))) as (M & HM & Htop).
  { intros i f Hf. by destruct (ok_frames _ _ (held_ok s0 r) _ _ Hf). }
  eapply hoare_pre; [by apply (Hk (fs, error) n M)|].
  intros w' (-> & Hg & [[Ha' Hd'] Hs] & Hpres). split; [done|]. split.
  - apply (framed_grows s0); [done|]. split; [done|]. intros i [f Hf] Hle.
    destruct (ok_frames _ _ (held_ok s0 r) _ _ Hf) as [<- Hpos].
    pose proof (Hall _ f eq_refl Hf) as Hfin.
    destruct (dense_upto stats) as [m|] eqn:Em; [|by apply Hpres].
    destruct (decide (m < frame_idx f)); [|apply (Hd' m); [done|lia]].
    apply Hpres. simpl. by apply list_elem_of_filter.
  - intros i Hi. apply Htop. by apply Ha'.
Qed.

(** *** Probes *)

#[local] Ltac probe :=
  repeat first
  [ apply hoare_ret; intros ? ?; assumption
  | by apply hoare_probe
  | eapply hoare_bind; [by apply hoare_probe|intros ?]
  | progress case_match
  | by intros ? ? ].

Lemma hoare_run_is_terminal r K r' : stable r K → hoare (st r K) (run_is_terminal r') (λ _, st r K) good.
Proof. intros HK. unfold run_is_terminal. probe. Qed.

Lemma hoare_probe_run_meta r K r' : stable r K → hoare (st r K) (_probe_run_meta r') (λ _, st r K) good.
Proof. intros HK. unfold _probe_run_meta. probe. Qed.

Lemma hoare_duck_watermark r K r' : stable r K → hoare (st r K) (_duck_watermark r') (λ _, st r K) good.
Proof.
  intros HK. unfold _duck_watermark, _duck_breakdown_count. eapply hoare_bind with (R := λ _, st r K); [probe|]. intros ?.
  eapply hoare_bind with (R := λ _, st r K); [probe|]. intros ?.
  eapply hoare_bind with (R := λ _, st r K); [probe|]. intros ?. probe.
Qed.

Lemma newest_mark {Row} (tbl : gmap string (Row * datetime)) o d :
  stamped tbl → newest tbl o →
  match o with Some c => if c_none c then None else Some (_iso c) | None => None end = Some d → reached tbl d.
Proof.
  intros Hs Hn E. destruct o as [c|]; [|done]. destruct (c_none c) eqn:Ec; [done|]. injection E as <-.
  destruct c as [[]|t]; try done. by apply (newest_reached tbl (CTime t)).
Qed.

(** The probe of a watermark: an answer has been reached, and came from [query]. *)
Definition mark_fact (r : string) (t : table) (o : option string) : fact := λ _ h,
  ∀ d, o = Some d → query ≠ None ∧
    match t with kpi_events => reached (h_kpi h) d | kpi_breakdown_rows => reached (h_breakdown h) d end.

Lemma stable_mark r t o : stable r (mark_fact r t o).
Proof.
  intros sn s s' [_ Hk Hb] Hm d E. destruct (Hm d E) as [? Hr]. split; [done|]. destruct t.
  - by apply (reached_revised (h_kpi (held s r))).
  - by apply (reached_revised (h_breakdown (held s r))).
Qed.

Lemma hoare_max_ingested r K t : stable r K →
  hoare (st r K) (_duck_max_ingested_at r t) (λ o, st r (λ sn h, K sn h ∧ mark_fact r t o sn h)) good.
Proof.
  intros HK. unfold _duck_max_ingested_at. destruct query as [q|] eqn:Eq.
  2:{ apply hoare_ret. intros w Hw. eapply st_weaken; [|done]. by intros sn h. }
  eapply hoare_bind; [by apply hoare_ask|]. intros a. apply hoare_ret. intros w (s0 & -> & _ & Hw).
  destruct Hw as [Hg [Hk Hs]]. split; [done|]. split; [done|].
  apply (stable_mark r t _ (snap_of (arch w)) s0 (store w)); [done|]. intros d E. split; [congruence|].
  destruct (max_ingested q s0 t r) as [o|e] eqn:Em; [|done]. destruct t.
  - eapply newest_mark; [done|by apply (max_kpi_held q)|done].
  - eapply newest_mark; [done|by apply (max_breakdown_held q)|done].
Qed.

(** *** The revisable tables *)

Definition kpi_marked (r : string) (c : cell) : fact := λ sn h, mark_ok (kpi_is r) (h_kpi h) (sn_kpi sn) c.
Definition breakdown_marked (r : string) (c : cell) : fact := λ sn h,
  mark_ok (breakdown_is r) (h_breakdown h) (sn_breakdown sn) c.
Definition mark (o : option string) : cell := match o with Some s => CVal (PStr s) | None => CVal PNone end.

Lemma stable_kpi_marked r c : stable r (kpi_marked r c).
Proof. intros sn s s' [_ Hk _]. by apply (mark_ok_revised _ (h_kpi (held s r))). Qed.
Lemma stable_breakdown_marked r c : stable r (breakdown_marked r c).
Proof. intros sn s s' [_ _ Hk]. by apply (mark_ok_revised _ (h_breakdown (held s r))). Qed.

Lemma unchanged_covered {Row D} (doc_is : string → Row → D → Prop) tbl ds c o :
  mark_ok doc_is tbl ds c → (∀ d, o = Some d → reached tbl d) → _content_unchanged c o = true →
  mark_ok doc_is tbl ds (mark o).
Proof.
  intros Hc Hr Hu. destruct o as [d|]; [|by left]. right. exists d. split; [done|].
  unfold _content_unchanged in Hu. apply andb_true_iff in Hu as [Hn Hle].
  destruct Hc as [->|(s & -> & Hc)]; [done|]. apply (covered_lower _ _ _ s); auto.
Qed.

(** A watermark the store had reached before the rows were read is true once they are
    written. *)
Lemma read_covered {Row D} (doc_is : string → Row → D → Prop) tbl0 tbl ds o :
  stamped tbl0 → stamped tbl → revised tbl0 tbl → (∀ d, o = Some d → reached tbl0 d) →
  (∀ id row t, tbl0 !! id = Some (row, t) → ∃ d, ds !! id = Some d ∧ doc_is id row d) →
  mark_ok doc_is tbl ds (mark o).
Proof.
  intros Hs0 Hs Hr Hd Hall. destruct o as [d|]; [|by left]. right. exists d. split; [done|].
  apply (covered_read _ tbl0); auto.
Qed.

Lemma hoare_write_kpi r s0 K rows : plain r → blind with_kpi K →
  (∀ row, row ∈ rows → ∃ id t, h_kpi (held s0 r) !! id = Some (row, t)) →
  hoare (st r (kpi_fact r s0 K)) (write_kpi_events r rows row_batch)
    (λ _, st r (λ sn h, kpi_fact r s0 K sn h ∧
       ∀ row, row ∈ rows → ∃ id d, kpi_is r id row d ∧ sn_kpi sn !! id = Some d)) good.
Proof.
  intros Hp HK Hrows. unfold write_kpi_events. eapply hoare_conseq;
    [apply (hoare_write_loop _ _ _ true (λ l, st r (λ sn h, kpi_fact r s0 K sn h ∧ rows_written l (sn_kpi sn)))
       (λ row p, p = kpi_row_to_doc row r) (λ row, ∃ id t, h_kpi (held s0 r) !! id = Some (row, t)) (λ _, True) good)
     with (done_ := []) (earlier := [])|..]; simpl.
  - intros row l Hv. apply hoare_ret. intros w Hw. split; [done|]. eauto.
  - intros l0 l Hnd Hl. eapply hoare_post; [apply hoare_replace_kpi|by intros]; [done|done|by apply Hnd|].
    intros p Hin. destruct (Hl p Hin) as (row & (id & t & Hx) & ->).
    destruct (ok_kpi _ _ (held_ok s0 r) _ _ _ Hx) as (_ & -> & _). exists row, t. split; [done|].
    unfold kpi_is. by destruct (kpi_row_to_doc row r).
  - eauto.
  - done.
  - intros row row' p p' (id & t & Hx) (id' & t' & Hx') -> -> E.
    destruct (ok_kpi _ _ (held_ok s0 r) _ _ _ Hx) as (_ & -> & _).
    destruct (ok_kpi _ _ (held_ok s0 r) _ _ _ Hx') as (_ & -> & _). rewrite E in Hx. by simplify_eq.
  - done.
  - done.
  - by intros p ?%elem_of_nil.
  - by intros p ?%elem_of_nil.
  - intros _. split; [apply NoDup_nil_2|]. intros id. split; [by intros ?%elem_of_empty|by intros ?%elem_of_nil].
  - by intros f ?%elem_of_nil.
  - intros w Hw. eapply st_weaken; [|done]. intros sn h ?. split; [done|]. by intros f now ?%elem_of_nil.
  - intros a w (_ & l & Hw & Hall). eapply st_weaken; [|done]. intros sn h [? Hwr]. split; [done|].
    intros row Hrow. destruct (Hall row Hrow) as (p & Hin & ->). unfold kpi_is.
    destruct (kpi_row_to_doc row r) as [id d] eqn:E. exists id, d. split; [done|]. by apply Hwr.
  - done.
Qed.

Lemma hoare_write_breakdown r s0 K rows : plain r → blind with_breakdown K →
  (∀ row, row ∈ rows → ∃ id t, h_breakdown (held s0 r) !! id = Some (row, t)) →
  hoare (st r (breakdown_fact r s0 K)) (write_breakdown_rows clock r rows row_batch)
    (λ _, st r (λ sn h, breakdown_fact r s0 K sn h ∧
       ∀ row, row ∈ rows → ∃ id d, breakdown_is r id row d ∧ sn_breakdown sn !! id = Some d)) good.
Proof.
  intros Hp HK Hrows. unfold write_breakdown_rows. eapply hoare_conseq;
    [apply (hoare_write_loop _ _ _ true (λ l, st r (λ sn h, breakdown_fact r s0 K sn h ∧ rows_written l (sn_breakdown sn)))
       (λ row p, ∃ now, breakdown_row_to_doc r now row = Some p) (λ row, ∃ id t, h_breakdown (held s0 r) !! id = Some (row, t)) (λ _, True) good)
     with (done_ := []) (earlier := [])|..]; simpl.
  - intros row l (id & t & Hx). eapply hoare_bind; [apply hoare_utcnow|]. intros now. apply hoare_ret. intros w Hw.
    split; [done|]. destruct (ok_breakdown _ _ (held_ok s0 r) _ _ _ Hx) as (_ & _ & Hid). specialize (Hid now).
    destruct (breakdown_row_to_doc r now row) as [p|] eqn:E; [|done]. eauto.
  - intros l0 l Hnd Hl. eapply hoare_post; [apply hoare_replace_breakdown|by intros]; [done|done|by apply Hnd|].
    intros [i d] Hin. destruct (Hl _ Hin) as (row & (id & t & Hx) & now & E).
    destruct (ok_breakdown _ _ (held_ok s0 r) _ _ _ Hx) as (_ & _ & Hid). specialize (Hid now). rewrite E in Hid.
    injection Hid as <-. exists row, t. split; [done|]. by exists now.
  - eauto.
  - done.
  - intros row row' p p' (id & t & Hx) (id' & t' & Hx') [now Ep] [now' Ep'] E.
    destruct (ok_breakdown _ _ (held_ok s0 r) _ _ _ Hx) as (_ & _ & Hid). specialize (Hid now). rewrite Ep in Hid.
    destruct (ok_breakdown _ _ (held_ok s0 r) _ _ _ Hx') as (_ & _ & Hid'). specialize (Hid' now'). rewrite Ep' in Hid'.
    simpl in *. simplify_eq. rewrite E in Hx. by simplify_eq.
  - done.
  - done.
  - by intros p ?%elem_of_nil.
  - by intros p ?%elem_of_nil.
  - intros _. split; [apply NoDup_nil_2|]. intros id. split; [by intros ?%elem_of_empty|by intros ?%elem_of_nil].
  - by intros f ?%elem_of_nil.
  - intros w Hw. eapply st_weaken; [|done]. intros sn h ?. split; [done|]. by intros f now ?%elem_of_nil.
  - intros a w (_ & l & Hw & Hall). eapply st_weaken; [|done]. intros sn h [? Hwr]. split; [done|].
    intros row Hrow. destruct (Hall row Hrow) as ([id d] & Hin & now & E). exists id, d. split; [by exists now|by apply Hwr].
  - done.
Qed.

Lemma hoare_dump_kpi r K c o whole : plain r → stable r K → blind with_kpi K →
  (whole = true → _content_unchanged c o = true) →
  hoare (st r (λ sn h, (K sn h ∧ kpi_marked r c sn h) ∧ mark_fact r kpi_events o sn h)) (dump_kpi r whole)
    (λ _, st r (λ sn h, K sn h ∧ kpi_marked r (mark o) sn h)) good.
Proof.
  intros Hp HK Hb Hu. unfold dump_kpi. destruct whole.
  { apply hoare_ret. intros w Hw. eapply st_weaken; [|done]. intros sn h [[? Hm] Hr]. split; [done|].
    apply (unchanged_covered _ _ _ c); auto. intros d E. by destruct (Hr d E). }
  eapply hoare_pre with (P' := st r (λ sn h, (K sn h ∧ mark_fact r kpi_events o sn h) ∧
    mark_reached (h_kpi h) (cget (summary_of sn r) (watermark_key kpi_events)))).
  2:{ intros w Hw. eapply st_weaken; [|by apply st_inv]. intros sn h [[[? ?] ?] Hr]. split; [done|].
      by eapply mark_ok_reached, ri_kpi. }
  eapply hoare_bind; [apply hoare_ask|].
  { apply stable_and; [by apply stable_and, stable_mark|]. intros sn s s' [_ Hk _] Hm t E.
    by apply (reached_revised (h_kpi (held s r))), Hm. }
  intros res. apply hoare_exists. intros s0 w (-> & [[_ Ho] Hm] & Hw).
  destruct (read_kpi_events s0 r) as [rows|e] eqn:Erows; [|by destruct Hw].
  match goal with |- match ?m w with _ => _ end => cut (hoare (st r (kpi_fact r s0 K)) m
     (λ _, st r (λ sn h, K sn h ∧ kpi_marked r (mark o) sn h)) good) end.
  { intros Hh. apply Hh. destruct Hw as [? [[[? _] _] ?]]. done. }
  eapply hoare_bind; [apply (hoare_lift _ _ (λ a, st r (λ sn h, kpi_fact r s0 K sn h ∧ a = rows)))|].
  { intros w' Hw'. eapply st_weaken; [|done]. done. }
  intros rows'. apply (hoare_prop _ (rows' = rows)); [by intros w' [_ [_ ?]]|]. intros ->.
  eapply hoare_pre with (P' := st r (kpi_fact r s0 K)).
  2:{ intros w' Hw'. eapply st_weaken; [|done]. by intros ? ? [? _]. }
  eapply hoare_bind; [apply hoare_write_kpi; [done..|]|].
  { intros row. by apply (read_kpi_held s0 r rows row). }
  intros n. apply hoare_ret. intros w' [Hg [(Hk & Hs & _) Hall]]. split; [done|]. split; [done|].
  apply (read_covered _ (h_kpi (held s0 r))); auto; [by destruct Hs|intros d E; by destruct (Ho d E)|].
  intros id row t Hx. destruct (Hall row) as (id' & d & Hd & Hin); [apply (read_kpi_held s0 r rows row Erows); eauto|].
  destruct (ok_kpi _ _ (held_ok s0 r) _ _ _ Hx) as (_ & -> & _). unfold kpi_is in *. rewrite <-Hd. by exists d.
Qed.

(** The rows the reader supplied, if it could; a failed read leaves everything as it was. *)
Definition supplied (r : string) K (rows : option (list crow)) w : Prop :=
  match rows with
  | None => query = None ∧ st r K w
  | Some rows => ∃ s0, (∀ row, row ∈ rows ↔ ∃ id t, h_breakdown (held s0 r) !! id = Some (row, t)) ∧
      K (snap_of (arch w)) (held s0 r) ∧ st r (λ sn h, K sn h ∧ since r s0 sn h) w
  end.

Lemma hoare_supply r K fn : stable r K →
  (∀ s rows row, fn s r = Ok rows → row ∈ rows ↔ ∃ id t, h_breakdown (held s r) !! id = Some (row, t)) →
  hoare (st r K)
    (res ← ask (λ s, fn s r); lift match res with Ok rows => Ok (Some rows) | Raise _ => Raise BreakdownReadFailed end)
    (supplied r K) (st r K).
Proof.
  intros HK Hfn w Hw. pose proof (hoare_ask r K (λ s, fn s r) HK w Hw) as Ha. unfold mbind, eff_bind, ask, lift in *.
  destruct Ha as (s0 & E & Hk & Hst). rewrite E. destruct (fn s0 r) as [rows|e] eqn:Ef.
  - exists s0. auto.
  - eapply st_weaken; [|done]. by intros ? ? [? _].
Qed.

Lemma hoare_read_breakdown_rows r K : stable r K →
  hoare (st r K) (_read_breakdown_rows r) (supplied r K) (st r K).
Proof.
  intros HK. unfold _read_breakdown_rows. destruct read_breakdown_rows as [fn|] eqn:Ef; [|destruct query as [q|] eqn:Eq].
  - apply hoare_supply; [done|]. intros s rows row. by apply (read_breakdown_held fn).
  - apply hoare_supply; [done|]. intros s rows row. by apply (select_breakdown_held q).
  - apply hoare_ret. by intros w Hw.
Qed.

Lemma hoare_dump_breakdown r K c o whole : plain r → stable r K → blind with_breakdown K →
  (whole = true → _content_unchanged c o = true) →
  hoare (st r (λ sn h, (K sn h ∧ breakdown_marked r c sn h) ∧ mark_fact r kpi_breakdown_rows o sn h))
    (dump_breakdown clock r whole)
    (λ b, st r (λ sn h, K sn h ∧ (b.2 = false → breakdown_marked r (mark o) sn h))) good.
Proof.
  intros Hp HK Hb Hu. unfold dump_breakdown. destruct whole.
  { apply hoare_ret. intros w Hw. eapply st_weaken; [|done]. intros sn h [[? Hm] Hr]. split; [done|]. intros _.
    apply (unchanged_covered _ _ _ c); auto. intros d E. by destruct (Hr d E). }
  eapply hoare_pre with (P' := st r (λ sn h, (K sn h ∧ mark_fact r kpi_breakdown_rows o sn h) ∧
    mark_reached (h_breakdown h) (cget (summary_of sn r) (watermark_key kpi_breakdown_rows)))).
  2:{ intros w Hw. eapply st_weaken; [|by apply st_inv]. intros sn h [[[? ?] ?] Hr]. split; [done|].
      by eapply mark_ok_reached, ri_breakdown. }
  intros w Hw. epose proof (hoare_read_breakdown_rows r _ _ w Hw) as Hr. Unshelve.
  2:{ apply stable_and; [by apply stable_and, stable_mark|]. intros sn s s' [_ _ Hk] Hm t E.
      by apply (reached_revised (h_breakdown (held s r))), Hm. }
  destruct (_read_breakdown_rows r w) as [[[rows|]|e] w1].
  - destruct Hr as (s0 & Hrows & [[_ Ho] Hm] & Hw1). revert w1 Ho Hm Hw1. clear w Hw. intros w Ho Hm Hw.
    match goal with |- match ?m w with _ => _ end => cut (hoare (st r (breakdown_fact r s0 K)) m
       (λ b, st r (λ sn h, K sn h ∧ (b.2 = false → breakdown_marked r (mark o) sn h))) good) end.
    { intros Hh. apply Hh. destruct Hw as [? [[[? _] _] ?]]. done. }
    eapply hoare_bind; [apply hoare_write_breakdown; [done..|]|].
    { intros row. apply Hrows. }
    intros n. apply hoare_ret. intros w' [Hg [(Hk & Hs & _) Hall]]. split; [done|]. split; [done|]. intros _.
    apply (read_covered _ (h_breakdown (held s0 r))); auto; [by destruct Hs|intros d E; by destruct (Ho d E)|].
    intros id row t Hx. destruct (Hall row) as (id' & d & [now Hd] & Hin); [apply Hrows; eauto|].
    destruct (ok_breakdown _ _ (held_ok s0 r) _ _ _ Hx) as (_ & _ & Hid). specialize (Hid now). rewrite Hd in Hid.
    injection Hid as <-. exists d. split; [done|]. by exists now.
  - destruct Hr as [Hq Hr]. eapply st_weaken; [|done]. intros sn h [[? Ho] _]. split; [done|]. intros _.
    destruct o as [d|]; [|by left]. by destruct (Ho d eq_refl).
  - case_decide; [|by destruct Hr]. eapply st_weaken; [|done]. by intros sn h [[? Ho] _].
Qed.

(** *** The summary *)

Lemma summary_keys r stats kc bc t reason now failed meta kw bw :
  d_keys (summary_fields r stats kc bc t reason now failed meta kw bw) `sublist_of`
  ["run_id"; "frame_count"; "kpi_count"; "breakdown_count"; "frame_min"; "frame_max"; "complete"; "reason";
   "dumped_at"; "breakdown_read_failed"] ++ _SUMMARY_META_FIELDS ++
  [watermark_key kpi_events] ++ [watermark_key kpi_breakdown_rows].
Proof.
  unfold summary_fields, d_keys. rewrite !map_app. apply sublist_app; [done|]. apply sublist_app; [|apply sublist_app].
  - etrans; [apply fmap_sublist, sublist_filter|]. done.
  - destruct kw; [done|apply sublist_nil_l].
  - destruct bw; [|apply sublist_nil_l]. destruct failed; [apply sublist_nil_l|done].
Qed.

Lemma summary_get r stats kc bc t reason now failed meta kw bw :
  let d := summary_fields r stats kc bc t reason now failed meta kw bw in
  NoDup (d_keys d) ∧ d_get d "frame_max" = Some (opt_cell stats.2) ∧
  d_get d "complete" = Some (CVal (PBool t)) ∧
  d_get d (watermark_key kpi_events) = (λ s, CVal (PStr s)) <$> kw ∧
  d_get d (watermark_key kpi_breakdown_rows) = if failed then None else (λ s, CVal (PStr s)) <$> bw.
Proof.
  assert (NoDup (d_keys (summary_fields r stats kc bc t reason now failed meta kw bw))) as Hnd.
  { eapply sublist_NoDup; [|apply summary_keys]. by apply (bool_decide_unpack _). }
  split_and!; [done|done|done|..].
  - destruct kw as [s|]; cbn [fmap option_fmap option_map].
    + apply elem_d_get; [done|]. unfold summary_fields. rewrite !elem_of_app. right. right. left. by left.
    + apply eq_None_not_Some. intros [x Hx%d_get_Some_elem]. revert Hx. unfold summary_fields.
      rewrite !elem_of_app. intros [Hx|[Hx|[Hx|Hx]]].
      * rewrite !elem_of_cons, elem_of_nil in Hx. naive_solver.
      * apply list_elem_of_filter in Hx as [_ (k & [= <- ->] & Hk)%list_elem_of_fmap].
        revert Hk. by apply (bool_decide_unpack (_ ∉ _)).
      * by apply elem_of_nil in Hx.
      * destruct bw; [destruct failed|]; rewrite ?elem_of_cons, ?elem_of_nil in Hx; naive_solver.
  - destruct (decide (failed = false ∧ is_Some bw)) as [[-> [s ->]]|Hno].
    + apply elem_d_get; [done|]. unfold summary_fields. rewrite !elem_of_app. right. right. right. by left.
    + transitivity (@None cell); [|destruct failed; [done|destruct bw; [|done]]; by destruct Hno; eauto].
      apply eq_None_not_Some. intros [x Hx%d_get_Some_elem]. revert Hx. unfold summary_fields.
      rewrite !elem_of_app. intros [Hx|[Hx|[Hx|Hx]]].
      * rewrite !elem_of_cons, elem_of_nil in Hx. naive_solver.
      * apply list_elem_of_filter in Hx as [_ (k & [= <- ->] & Hk)%list_elem_of_fmap].
        revert Hk. by apply (bool_decide_unpack (_ ∉ _)).
      * destruct kw; rewrite ?elem_of_cons, ?elem_of_nil in Hx; naive_solver.
      * destruct bw; [destruct failed|]; rewrite ?elem_of_cons, ?elem_of_nil in Hx; naive_solver.
Qed.

Lemma hoare_update_one r K d :
  (∀ sn s, inv sn s → K sn (held s r) → inv (with_runs (set_summary r d (sn_runs sn)) sn) s) →
  hoare (st r K) (mongo (at_runs (update_one r d))) (λ _, good) good.
Proof.
  intros Hd. apply hoare_mongo. intros w [[Hf Hi] Hk]. unfold at_runs.
  pose proof (update_one_fails r d (runs (arch w))) as Hr. destruct (update_one r d (runs (arch w))) as [res c]. simpl in Hr.
  assert (good (with_arch (Archive (frames (arch w)) (kpi (arch w)) (breakdown (arch w)) c (last_dump_at (arch w))) w)) as Hg.
  { split; [done|]. unfold snap_of. simpl. destruct Hr as [-> | ->]; [done|]. by apply (Hd (snap_of (arch w))). }
  by destruct res.
Qed.

(** *** A dump keeps the invariant, whatever happens during it *)

Lemma hoare_count_kpi r K r' : hoare (st r K) (_count_kpi r') (λ _, st r K) good.
Proof. eapply hoare_bind; [apply hoare_find_kpi|]. intros ?. by apply hoare_ret. Qed.
Lemma hoare_count_breakdown r K r' : hoare (st r K) (_count_breakdown r') (λ _, st r K) good.
Proof. eapply hoare_bind; [apply hoare_find_breakdown|]. intros ?. by apply hoare_ret. Qed.

Lemma st_true r w : good w ↔ st r (λ _ _, True) w.
Proof. split; [by intros|by intros []]. Qed.

(** The last part of a dump: what it recorded is true. *)
Lemma hoare_close r M reason terminal failed ok ob (res : Z * option Z * option Z → dump_result) : plain r →
  hoare (st r (λ sn h, (complete_upto r M sn h ∧ kpi_marked r (mark ok) sn h) ∧
                  (failed = false → breakdown_marked r (mark ob) sn h)))
    (stats ← _archive_frame_stats r;
     kpi_count ← _count_kpi r;
     breakdown_count ← _count_breakdown r;
     now ← utcnow clock;
     meta ← _probe_run_meta r;
     _ ← mongo (at_runs (update_one r
           (summary_fields r stats kpi_count breakdown_count terminal reason now failed meta ok ob)));
     now ← utcnow clock;
     _ ← dumped_at now;
     if failed : bool then lift (Raise ArchiveIncomplete) else mret (res stats)) (λ _, good) good.
Proof.
  intros Hp. eapply hoare_bind; [apply hoare_frame_stats|]. intros stats.
  eapply hoare_bind; [apply hoare_count_kpi|]. intros kc.
  eapply hoare_bind; [apply hoare_count_breakdown|]. intros bc.
  eapply hoare_bind; [apply hoare_utcnow|]. intros now.
  eapply hoare_bind; [apply hoare_probe_run_meta|].
  { apply stable_and; [|apply stable_pure]. apply stable_and; [apply stable_and; [apply stable_complete|apply stable_kpi_marked]|].
    destruct failed; [by intros ????|]. intros sn s s' Hg Hm _. by apply (stable_breakdown_marked r (mark ob) sn s s' Hg), Hm. }
  intros meta. eapply hoare_bind with (R := λ _, good).
  - apply hoare_update_one. intros sn s Hi [[[[Hf Hle] Hk] Hb] [_ Hst]].
    destruct (summary_get r stats kc bc terminal reason now failed meta ok ob) as (Hnd & Hm & _ & Ekw & Ebw).
    apply inv_write_summary; [done|done|..].
    + exists stats.2. split; [done|]. intros m Em. rewrite Em in Hst. destruct Hst as [Hin Hmax]. split.
      * right. by apply (archived_held_inv r sn _ (inv_runs _ _ Hi r Hp)).
      * intros i Hi' Hle'. apply Hf; [done|]. specialize (Hle m Hin). lia.
    + rewrite Ekw. intros c Ec. destruct ok; [|done]. by injection Ec as <-.
    + rewrite Ebw. intros c Ec. destruct failed; [done|]. destruct ob; [|done]. injection Ec as <-. by apply Hb.
  - intros _. eapply hoare_bind with (R := λ _, good); [|intros ?; eapply hoare_bind with (R := λ _, good)].
    + by intros w.
    + by intros w.
    + intros _. by destruct failed; [apply hoare_lift|apply hoare_ret].
Qed.

Theorem preserves_dump_run r reason complete : plain r → preserves good (dump_run clock r reason complete).
Proof.
  intros Hp. unfold dump_run.
  eapply hoare_bind with (R := λ _, st r (λ _ _, True)).
  { eapply hoare_pre; [|intros w; apply (st_true r w)]. destruct complete as [b|]; [by apply hoare_ret|].
    eapply hoare_bind; [apply hoare_run_is_terminal, stable_pure|]. intros ?. by apply hoare_ret. }
  intros terminal. eapply hoare_bind; [apply hoare_frame_stats|]. intros prior.
  apply hoare_dump_frames; [done|]. intros fs n M.
  eapply hoare_bind; [apply hoare_duck_watermark, stable_complete|]. intros wm.
  eapply hoare_bind; [apply hoare_run_summary|]. intros o.
  set (ck := cget (default [] o) (watermark_key kpi_events)).
  set (cb := cget (default [] o) (watermark_key kpi_breakdown_rows)).
  eapply hoare_pre with (P' := st r (λ sn h, (complete_upto r M sn h ∧ kpi_marked r ck sn h) ∧ breakdown_marked r cb sn h)).
  2:{ intros w Hw. pose proof (st_inv _ _ _ Hp Hw) as Hw'. eapply st_weaken; [|exact Hw']. intros sn h [[? ->] []]. done. }
  eapply hoare_bind; [apply hoare_max_ingested|].
  { apply stable_and; [apply stable_and; [apply stable_complete|apply stable_kpi_marked]|apply stable_breakdown_marked]. }
  intros ok. eapply hoare_bind; [apply hoare_max_ingested|].
  { apply stable_and; [|apply stable_mark].
    apply stable_and; [apply stable_and; [apply stable_complete|apply stable_kpi_marked]|apply stable_breakdown_marked]. }
  intros ob. eapply hoare_bind; [apply hoare_count_kpi|]. intros akpi.
  eapply hoare_bind.
  { eapply hoare_pre.
    - apply (hoare_dump_kpi r (λ sn h, (complete_upto r M sn h ∧ breakdown_marked r cb sn h) ∧ mark_fact r kpi_breakdown_rows ob sn h) ck ok);
        [done|..].
      + apply stable_and; [|apply stable_mark]. apply stable_and; [apply stable_complete|apply stable_breakdown_marked].
      + by intros x sn h.
      + intros [_ ?]%andb_true_iff. done.
    - intros w Hw. eapply st_weaken; [|done]. tauto. }
  intros k. eapply hoare_bind; [apply hoare_count_breakdown|]. intros abd.
  eapply hoare_bind.
  { eapply hoare_pre.
    - apply (hoare_dump_breakdown r (λ sn h, complete_upto r M sn h ∧ kpi_marked r (mark ok) sn h) cb ob); [done|..].
      + apply stable_and; [apply stable_complete|apply stable_kpi_marked].
      + by intros x sn h.
      + intros [_ ?]%andb_true_iff. done.
    - intros w Hw. eapply st_weaken; [|done]. tauto. }
  intros b. by apply (hoare_close r M reason _ b.2 ok ob (λ stats, DumpResult _ _ n k.1 k.2 b.1.1 b.1.2 stats.1.2 stats.2 _)).
Qed.

(** *** The sweep *)

Lemma preserves_find_runs p : preserves good (mongo (at_runs (find_runs p))).
Proof.
  apply hoare_mongo. intros w [Hf Hi]. unfold at_runs.
  pose proof (find_runs_reads p (runs (arch w))) as Hr. destruct (find_runs p (runs (arch w))) as [res c]. simpl in Hr.
  assert (good (with_arch (Archive (frames (arch w)) (kpi (arch w)) (breakdown (arch w)) c (last_dump_at (arch w))) w)).
  { split; [done|]. unfold snap_of. simpl. by rewrite Hr. }
  by destruct res.
Qed.

Lemma preserves_summaries ids : preserves good (_summaries ids).
Proof. unfold _summaries. case_bool_decide; [apply preserves_ret|apply preserves_find_runs]. Qed.

(** A triple about one run, read as preservation. *)
Lemma preserves_st {A} r (m : eff W A) :
  hoare (st r (λ _ _, True)) m (λ _, st r (λ _ _, True)) good → preserves good m.
Proof. intros Hm. eapply hoare_conseq; [done|intros w; apply (st_true r w)|by intros a w []|done]. Qed.

Lemma preserves_run_is_pending r o : preserves good (run_is_pending r o).
Proof.
  assert (∀ t, preserves good (_duck_max_ingested_at r t)) as Hwm.
  { intros t. apply (preserves_st r). eapply hoare_post; [apply hoare_max_ingested, stable_pure|].
    intros a w Hw. eapply st_weaken; [|exact Hw]. done. }
  unfold run_is_pending. apply preserves_bind.
  - destruct o; [apply preserves_ret|]. apply (preserves_st r). eapply hoare_post; [apply hoare_run_summary|].
    intros a w Hw. eapply st_weaken; [|exact Hw]. done.
  - intros [summary|]; [|apply preserves_ret]. apply preserves_bind.
    + unfold _duck_moved_past. apply preserves_bind; [apply (preserves_st r), hoare_duck_watermark, stable_pure|].
      intros wm. auto 20 with eff.
    + intros [|]; [apply preserves_ret|]. destruct (closed_or_old summary); [apply preserves_ret|].
      apply preserves_bind; [apply (preserves_st r), hoare_run_is_terminal, stable_pure|]. intros ?. apply preserves_ret.
Qed.

Lemma preserves_filter {A} (I : W → Prop) (f : A → eff W bool) l :
  (∀ a, a ∈ l → preserves I (f a)) → preserves I (filter_eff f l).
Proof.
  induction l as [|a l IH]; intros Hf; [apply preserves_ret|].
  apply preserves_bind; [apply Hf; by left|]. intros b. apply preserves_bind; [apply IH; intros; apply Hf; by right|].
  intros l'. apply preserves_ret.
Qed.

Lemma preserves_dump_all reason l : Forall plain l → preserves good (dump_all clock l reason).
Proof.
  induction l as [|r l IH]; intros Hl; [apply preserves_ret|]. inversion_clear Hl as [|? ? Hr Hl'].
  intros w Hw. cbn [dump_all]. pose proof (preserves_dump_run r reason None Hr w Hw) as Hd.
  destruct (dump_run clock r reason None w) as [[d|e] w'];
    (refine (preserves_bind _ _ _ (IH Hl') _ w' Hd); intros ?; apply preserves_ret).
Qed.

(** The runs a sweep may be given. *)
Definition sweepable (ids : option (list string)) : Prop :=
  match ids with
  | Some l => Forall plain l
  | None => ∀ s l, list_run_ids s = Ok l → Forall plain l
  end.

Lemma filter_eff_sublist {A} (f : A → eff W bool) l w l' w' :
  filter_eff f l w = (Ok l', w') → l' `sublist_of` l.
Proof.
  revert w l' w'. induction l as [|a l IH]; intros w l' w'; cbn [filter_eff].
  { intros [= <- _]. constructor. }
  intros (b & w1 & _ & (l1 & w2 & E & [= <- _])%bind_inv)%bind_inv. apply IH in E.
  by destruct b; constructor.
Qed.

Lemma preserves_reconcile ids reason : sweepable ids → preserves good (reconcile clock ids reason).
Proof.
  intros Hids. unfold reconcile.
  eapply hoare_bind with (R := λ l w, good w ∧ Forall plain l).
  { destruct ids as [l|]; [by apply hoare_ret|]. intros w Hw.
    pose proof (preserves_st "" _ (hoare_probe "" _ list_run_ids (stable_pure _ _)) w Hw) as Ha.
    unfold mbind, eff_bind, lift. simpl in *. destruct (list_run_ids (store w)) as [l|e] eqn:E; [|done].
    split; [done|]. by apply (Hids (store w)). }
  intros l. apply (hoare_prop _ (Forall plain l)); [by intros w []|]. intros Hl.
  eapply hoare_pre with (P' := good); [|by intros w []].
  apply preserves_bind; [apply preserves_summaries|]. intros ss.
  eapply hoare_bind with (R := λ p w, good w ∧ p `sublist_of` l).
  { apply hoare_and; [|by intros w p w' _ ?%filter_eff_sublist].
    apply (preserves_filter good). intros r _. apply preserves_run_is_pending. }
  intros p. apply (hoare_prop _ (p `sublist_of` l)); [by intros w []|]. intros Hp.
  eapply hoare_pre with (P' := good); [|by intros w []].
  apply preserves_bind; [apply preserves_dump_all|intros d; apply preserves_bind; [apply preserves_summaries|intros ?; apply preserves_ret]].
  eapply Forall_forall. intros r Hr. eapply Forall_forall; [done|]. by eapply sublist_subseteq.
Qed.

(** ** Histories

    The working set moves; runs are dumped, by the service or by a tool; the sweep
    reconciles.  Between two reads of any of them the store may move again. *)
Inductive step : W → W → Prop :=
| store_moves w s l : moves (store w) s → flows s l → step w (World (arch w) s l (ticks w))
| dumps w r reason complete : plain r → step w (dump_run clock r reason complete w).2
| sweeps w ids reason : sweepable ids → step w (reconcile clock ids reason w).2.

Definition empty_archive (a : archive FC KC BC RC) : Prop :=
  docs (frames a) = ∅ ∧ docs (kpi a) = ∅ ∧ docs (breakdown a) = ∅ ∧ summaries (runs a) = ∅.

Lemma step_good w w' : step w w' → good w → good w'.
Proof.
  intros Hs Hg. destruct Hs as [w s l Hm Hf|w r reason complete Hp|w ids reason Hids].
  - destruct Hg as [_ Hi]. split; [done|]. by apply (inv_moves _ (store w)).
  - apply (preserves_state good); [by apply preserves_dump_run|done].
  - apply (preserves_state good); [by apply preserves_reconcile|done].
Qed.

Lemma empty_good w : empty_archive (arch w) → flows (store w) (upcoming w) → good w.
Proof.
  intros (Ef & Ek & Eb & Er) Hf. split; [done|]. unfold snap_of. rewrite Ef, Ek, Eb, Er. split; simpl.
  - by intros id d ?%lookup_empty_Some.
  - intros r _. split; simpl; [by intros id d ?%lookup_empty_Some|by left..].
Qed.

(** Everything [h] holds of run [r] is in the archive, as it is. *)
Record archived_all (r : string) (a : archive FC KC BC RC) (h : holding) : Prop := {
  all_frames i f : h_frames h !! i = Some f →
    ∃ now, docs (frames a) !! frame_id r i = Some (frame_to_doc r now f).2;
  all_kpi id row t : h_kpi h !! id = Some (row, t) → docs (kpi a) !! id = Some (kpi_row_to_doc row r).2;
  all_breakdown id row t : h_breakdown h !! id = Some (row, t) →
    ∃ now d, docs (breakdown a) !! id = Some d ∧ breakdown_row_to_doc r now row = Some (id, d);
}.

(** The probes [run_is_pending] relies on answer. *)
Definition answers (s : S) (r : string) : Prop :=
  (∃ fn o, frame_range = Some fn ∧ fn s r = Ok o) ∧
  ∃ q, query = Some q ∧ ∀ t, ∃ o, max_ingested q s t r = Ok o.

Lemma covered_all {Row D} (doc_is : string → Row → D → Prop) tbl ds c o :
  stamped tbl → newest tbl o → mark_ok doc_is tbl ds c →
  revised_past match o with Some c => if c_none c then None else Some (_iso c) | None => None end c = false →
  ∀ id row t, tbl !! id = Some (row, t) → ∃ d, ds !! id = Some d ∧ doc_is id row d.
Proof.
  intros Hs Hn Hm Hp id row t Hx. destruct o as [[[]|u]|]; simpl in Hn; try done.
  - rewrite Hn in Hx. by apply lookup_empty_Some in Hx.
  - destruct Hn as [(idu & rowu & Hu) Hmax]. simpl in Hp. apply orb_false_iff in Hp as [Hc Hle].
    apply negb_false_iff in Hle. destruct Hm as [->|(s & -> & _ & Hcov)]; [done|].
    apply (Hcov id row t Hx). eapply sle_trans; [|exact Hle].
    apply iso_le; [by apply (Hs id (row, t))|by apply (Hs idu (rowu, u))|by apply (Hmax id (row, t))].
  - rewrite Hn in Hx. by apply lookup_empty_Some in Hx.
Qed.

Lemma ask_at_rest {A} (f : S → A) w : upcoming w = [] → ask f w = (Ok (f (store w)), w).
Proof. intros E. unfold ask. by rewrite E. Qed.

Lemma watermark_at_rest w r : upcoming w = [] →
  ∃ wm, _duck_watermark r w = (Ok wm, w) ∧
    ∀ fn o, frame_range = Some fn → fn (store w) r = Ok o → wm_frame_max wm = snd <$> o.
Proof.
  intros Hw. unfold _duck_watermark, _duck_breakdown_count.
  assert (∀ A (f : S → A), ask f w = (Ok (f (store w)), w)) as Ha by (intros; by apply ask_at_rest).
  unfold mbind, eff_bind, mret, eff_ret.
  destruct frame_range as [fn|], kpi_row_count as [kn|], query as [q|], read_breakdown_rows as [bn|];
    rewrite ?Ha; (eexists; split; [reflexivity|]); intros fn' o E Eo; try done; simplify_eq; rewrite Eo; by destruct o as [[]|].
Qed.

Abbreviation mark_of o := (match o with Some c => if c_none c then None else Some (_iso c) | None => None end).

Lemma max_at_rest w r t q o : upcoming w = [] → query = Some q → max_ingested q (store w) t r = Ok o →
  _duck_max_ingested_at r t w = (Ok (mark_of o), w).
Proof.
  intros Hw Eq Eo. unfold _duck_max_ingested_at. rewrite Eq. unfold mbind, eff_bind. rewrite ask_at_rest by done. by rewrite Eo.
Qed.

Lemma run_summary_same w r o w' : run_summary r w = (Ok o, w') →
  o = summaries (runs (arch w)) !! r ∧ snap_of (arch w') = snap_of (arch w) ∧ store w' = store w ∧ upcoming w' = upcoming w.
Proof.
  unfold run_summary, mongo, at_runs, mbind, eff_bind.
  pose proof (find_one_reads r (runs (arch w))) as Hr. pose proof (find_one_is r (runs (arch w))) as Hi.
  destruct (find_one r (runs (arch w))) as [[o'|e] c]; [|done]. simpl in *. intros [= <- <-].
  split; [by apply Hi|]. split; [|done]. unfold snap_of. simpl. by rewrite Hr.
Qed.

(** What a quiet verdict of the sweep rests on. *)
Lemma quiet_marks w r d fn fo q (om : table → option cell) : upcoming w = [] →
  frame_range = Some fn → fn (store w) r = Ok fo →
  query = Some q → (∀ t, max_ingested q (store w) t r = Ok (om t)) →
  (_duck_moved_past r d w).1 = Ok false →
  frame_past (snd <$> fo) (cget d "frame_max") = Ok false ∧
  ∀ t, revised_past (mark_of (om t)) (cget d (watermark_key t)) = false.
Proof.
  intros Hw Efn Efo Eq Eom. unfold _duck_moved_past.
  destruct (watermark_at_rest w r Hw) as (wm & Ewm & Hwm). rewrite (bind_ok _ _ _ _ _ Ewm), (Hwm fn fo Efn Efo).
  unfold mbind at 1, eff_bind at 1, lift at 1. destruct (frame_past _ _) as [[]|]; [done| |done].
  unfold mbind at 1, eff_bind at 1, lift at 1. destruct (counted_past _ _) as [[]|]; [done| |done].
  unfold mbind at 1, eff_bind at 1, lift at 1. destruct (counted_past _ _) as [[]|]; [done| |done].
  rewrite (bind_ok _ _ _ _ _ (max_at_rest w r kpi_events q _ Hw Eq (Eom _))).
  destruct (revised_past _ _) eqn:Ek; [done|].
  rewrite (bind_ok _ _ _ _ _ (max_at_rest w r kpi_breakdown_rows q _ Hw Eq (Eom _))).
  simpl. intros [= Eb]. split; [done|]. by intros [].
Qed.

Lemma not_pending_summary w r : upcoming w = [] → (run_is_pending r None w).1 = Ok false →
  ∃ d w', summaries (runs (arch w)) !! r = Some d ∧ (_duck_moved_past r d w').1 = Ok false ∧
    snap_of (arch w') = snap_of (arch w) ∧ store w' = store w ∧ upcoming w' = [].
Proof.
  intros Hw. unfold run_is_pending. unfold mbind at 1, eff_bind at 1.
  destruct (run_summary r w) as [[o|e] w1] eqn:E1; [|done].
  destruct (run_summary_same _ _ _ _ E1) as (-> & Hs & Hst & Hup).
  destruct (summaries _ !! r) as [d|]; [|done]. intros Hp. exists d, w1. split; [done|].
  split; [|by rewrite Hup]. revert Hp. unfold mbind at 1, eff_bind at 1.
  by destruct (_duck_moved_past r d w1) as [[[]|e] w2].
Qed.

Lemma held_frame_archived w r i f : good w → plain r → h_frames (held (store w) r) !! i = Some f →
  present (snap_of (arch w)) r i → ∃ now, docs (frames (arch w)) !! frame_id r i = Some (frame_to_doc r now f).2.
Proof.
  intros [_ Hi] Hp Hf (d & Hd & Hr). destruct (inv_runs _ _ Hi r Hp) as [Hfr _ _ _].
  destruct (inv_ids _ _ Hi _ _ Hd) as [Eid [Hpd _]]. destruct (Hfr _ _ Hd Hr) as (f' & now & Hf' & ->).
  destruct Hp as [Hp _]. apply frame_id_inj in Eid as [_ E]; [|done|done]. exists now. simpl in *. subst i.
  by simplify_eq.
Qed.

Lemma quiet_archived w r : upcoming w = [] → good w → plain r → answers (store w) r →
  (run_is_pending r None w).1 = Ok false → archived_all r (arch w) (held (store w) r).
Proof.
  intros Hw Hg Hp ((fn & fo & Efn & Efo) & q & Eq & Hmax) Hq.
  destruct (not_pending_summary w r Hw Hq) as (d & w' & Hd & Hm & Hs & Hst & Hw').
  destruct (Hmax kpi_events) as [ok Eok], (Hmax kpi_breakdown_rows) as [ob Eob].
  destruct (quiet_marks w' r d fn fo q (λ t, match t with kpi_events => ok | kpi_breakdown_rows => ob end)) as [Hfp Hrp];
    rewrite ?Hst; [done..|by intros []|done|].
  pose proof Hg as [_ Hi]. destruct (inv_runs _ _ Hi r Hp) as [_ Hfm Hk Hb].
  unfold summary_of, snap_of in Hfm, Hk, Hb. simpl in Hfm, Hk, Hb. rewrite Hd in Hfm, Hk, Hb. simpl in Hfm, Hk, Hb.
  split.
  - intros i f Hf. apply held_frame_archived; [done..|].
    pose proof (frame_range_held fn (store w) r fo Efn Efo) as Hr. destruct fo as [[lo hi]|]; [|by rewrite Hr in Hf].
    simpl in Hfp. destruct Hr as [_ Hhi]. destruct Hfm as [E|(m & E & _ & Hfr)]; rewrite E in Hfp; simpl in Hfp; [done|].
    injection Hfp as Hlt%Z.ltb_ge. apply Hfr; [by exists f|]. specialize (Hhi i (ex_intro _ f Hf)). lia.
  - intros id row t Hx. destruct (covered_all _ _ _ _ ok (held_kpi_stamped (store w) r) (max_kpi_held q _ _ _ Eq Eok) Hk (Hrp kpi_events) id row t Hx)
      as (d' & Hd' & E). unfold kpi_is in E. by rewrite <-E.
  - intros id row t Hx.
    destruct (covered_all _ _ _ _ ob (held_breakdown_stamped (store w) r) (max_breakdown_held q _ _ _ Eq Eob) Hb
      (Hrp kpi_breakdown_rows) id row t Hx) as (d' & Hd' & now & E). by exists now, d'.
Qed.


(** *** Nothing is ever taken out of the archive *)

Section Snapshots.
Context (I : snap → Prop).
Context (I_insert : ∀ a ds, I (snap_of a) → I (with_frames (docs (insert_many ds (frames a)).2) (snap_of a))).
Context (I_kpi : ∀ a ds, I (snap_of a) → I (with_kpi (docs (replace_many ds (kpi a)).2) (snap_of a))).
Context (I_breakdown : ∀ a ds, I (snap_of a) → I (with_breakdown (docs (replace_many ds (breakdown a)).2) (snap_of a))).
Context (I_summary : ∀ sn r d, I sn → I (with_runs (set_summary r d (sn_runs sn)) sn)).
Abbreviation held_by w := (I (snap_of (arch w))).

Lemma keeps_ask {A} (f : S → A) : preserves (λ w, held_by w) (ask f).
Proof. intros w Hw. unfold ask. by destruct (upcoming w). Qed.

Lemma keeps_mongo {A} (m : eff W (result A)) : preserves (λ w, held_by w) m → preserves (λ w, held_by w) (mongo m).
Proof. intros Hm. apply preserves_bind; [done|]. intros a. apply preserves_lift. Qed.

Lemma keeps_find_frames p : preserves (λ w, held_by w) (at_frames (find p)).
Proof.
  intros w Hw. unfold at_frames. pose proof (find_reads p (frames (arch w))) as Hr.
  destruct (find p _) as [res c]. unfold snap_of. simpl in *. by rewrite Hr.
Qed.
Lemma keeps_find_kpi p : preserves (λ w, held_by w) (at_kpi (find p)).
Proof.
  intros w Hw. unfold at_kpi. pose proof (find_reads p (kpi (arch w))) as Hr.
  destruct (find p _) as [res c]. unfold snap_of. simpl in *. by rewrite Hr.
Qed.
Lemma keeps_find_breakdown p : preserves (λ w, held_by w) (at_breakdown (find p)).
Proof.
  intros w Hw. unfold at_breakdown. pose proof (find_reads p (breakdown (arch w))) as Hr.
  destruct (find p _) as [res c]. unfold snap_of. simpl in *. by rewrite Hr.
Qed.
Lemma keeps_find_one r : preserves (λ w, held_by w) (at_runs (find_one r)).
Proof.
  intros w Hw. unfold at_runs. pose proof (find_one_reads r (runs (arch w))) as Hr.
  destruct (find_one r _) as [res c]. unfold snap_of. simpl in *. by rewrite Hr.
Qed.
Lemma keeps_find_runs p : preserves (λ w, held_by w) (at_runs (find_runs p)).
Proof.
  intros w Hw. unfold at_runs. pose proof (find_runs_reads p (runs (arch w))) as Hr.
  destruct (find_runs p _) as [res c]. unfold snap_of. simpl in *. by rewrite Hr.
Qed.
Lemma keeps_update r d : preserves (λ w, held_by w) (at_runs (update_one r d)).
Proof.
  intros w Hw. unfold at_runs. pose proof (update_one_fails r d (runs (arch w))) as Hr.
  destruct (update_one r d _) as [res c]. unfold snap_of. simpl in *.
  destruct Hr as [-> | ->]; [done|]. apply (I_summary _ r d Hw).
Qed.
Lemma keeps_insert l : preserves (λ w, held_by w) (_insert_batch l).
Proof.
  unfold _insert_batch, write_batch. case_bool_decide; [apply preserves_ret|].
  apply preserves_bind; [|intros; apply preserves_lift]. intros w Hw. unfold at_frames.
  pose proof (I_insert (arch w) l Hw). by destruct (insert_many _ _).
Qed.
Lemma keeps_replace_kpi l : preserves (λ w, held_by w) (_replace_kpi l).
Proof.
  unfold _replace_kpi, write_batch. case_bool_decide; [apply preserves_ret|].
  apply preserves_bind; [|intros; apply preserves_lift]. intros w Hw. unfold at_kpi.
  pose proof (I_kpi (arch w) l Hw). by destruct (replace_many _ _).
Qed.
Lemma keeps_replace_breakdown l : preserves (λ w, held_by w) (_replace_breakdown l).
Proof.
  unfold _replace_breakdown, write_batch. case_bool_decide; [apply preserves_ret|].
  apply preserves_bind; [|intros; apply preserves_lift]. intros w Hw. unfold at_breakdown.
  pose proof (I_breakdown (arch w) l Hw). by destruct (replace_many _ _).
Qed.

Lemma keeps_write_loop {X D} size (to_doc : X → eff W (option (string * D))) flush dedupe xs error batch seen n :
  (∀ x, preserves (λ w, held_by w) (to_doc x)) → (∀ l, preserves (λ w, held_by w) (flush l)) →
  preserves (λ w, held_by w) (write_loop size to_doc flush dedupe xs error batch seen n).
Proof.
  intros Hd Hf. revert batch seen n. induction xs as [|x xs IH]; intros batch seen n; cbn [write_loop].
  - destruct error; [apply preserves_lift|]. apply preserves_bind; [done|]. intros ?. apply preserves_ret.
  - apply preserves_bind; [done|]. intros [p|]; [|done]. destruct (_ && _); [done|].
    destruct (_ <=? _)%nat; [|done]. by apply preserves_bind.
Qed.

#[local] Hint Resolve keeps_ask keeps_mongo keeps_find_frames keeps_find_kpi keeps_find_breakdown keeps_find_one
  keeps_find_runs keeps_update keeps_insert keeps_replace_kpi keeps_replace_breakdown keeps_write_loop : eff.
#[local] Hint Extern 1 (preserves _ (utcnow _)) => by intros ? ? : eff.
#[local] Hint Extern 1 (preserves _ (dumped_at _)) => by intros ? ? : eff.
#[local] Ltac keeps := repeat first
  [ solve [eauto 3 with eff nocore] | apply preserves_bind; [|intros ?] | progress case_match | apply keeps_write_loop; intros ? ].

Lemma keeps_is_terminal r : preserves (λ w, held_by w) (run_is_terminal r).
Proof. unfold run_is_terminal. keeps. Qed.
Lemma keeps_stats r : preserves (λ w, held_by w) (_archive_frame_stats r).
Proof. unfold _archive_frame_stats, run_frames. keeps. Qed.
Lemma keeps_watermark r : preserves (λ w, held_by w) (_duck_watermark r).
Proof. unfold _duck_watermark, _duck_breakdown_count. keeps. Qed.
Lemma keeps_max r t : preserves (λ w, held_by w) (_duck_max_ingested_at r t).
Proof. unfold _duck_max_ingested_at. keeps. Qed.
Lemma keeps_dump_kpi r b : preserves (λ w, held_by w) (dump_kpi r b).
Proof. unfold dump_kpi, write_kpi_events. keeps. Qed.
Lemma keeps_dump_breakdown r b : preserves (λ w, held_by w) (dump_breakdown clock r b).
Proof.
  unfold dump_breakdown. destruct b; [apply preserves_ret|]. intros w Hw.
  assert (preserves (λ w, held_by w) (_read_breakdown_rows r)) as Hr by (unfold _read_breakdown_rows; keeps).
  specialize (Hr w Hw). destruct (_read_breakdown_rows r w) as [[[rows|]|e] w1]; [|done|by case_decide].
  refine (preserves_bind _ _ _ _ _ w1 Hr); [unfold write_breakdown_rows; keeps|intros; apply preserves_ret].
Qed.

#[local] Hint Resolve keeps_is_terminal keeps_stats keeps_watermark keeps_max keeps_dump_kpi keeps_dump_breakdown : eff.

Lemma keeps_dump_run r reason complete : preserves (λ w, held_by w) (dump_run clock r reason complete).
Proof.
  unfold dump_run, write_frames, run_summary, _count_kpi, _count_breakdown, _probe_run_meta.
  keeps.
Qed.

Lemma keeps_run_is_pending r o : preserves (λ w, held_by w) (run_is_pending r o).
Proof.
  unfold run_is_pending, run_summary, _duck_moved_past.
  keeps.
Qed.

Lemma keeps_dump_all reason l : preserves (λ w, held_by w) (dump_all clock l reason).
Proof.
  induction l as [|r l IH]; [apply preserves_ret|]. intros w Hw. cbn [dump_all].
  pose proof (keeps_dump_run r reason None w Hw) as Hd.
  destruct (dump_run clock r reason None w) as [[d|e] w'];
    (refine (preserves_bind _ _ _ IH _ w' Hd); intros ?; apply preserves_ret).
Qed.

Lemma keeps_reconcile ids reason : preserves (λ w, held_by w) (reconcile clock ids reason).
Proof.
  unfold reconcile, _summaries. keeps; eauto using keeps_dump_all.
  apply (preserves_filter (λ w, held_by w)). intros. apply keeps_run_is_pending.
Qed.
End Snapshots.

(** The documents of [sn] are in [sn'] too: the frames as they were, the rows possibly
    revised. *)
Record outlived (sn sn' : snap) : Prop := {
  out_frames : sn_frames sn ⊆ sn_frames sn';
  out_kpi : dom (sn_kpi sn) ⊆ dom (sn_kpi sn');
  out_breakdown : dom (sn_breakdown sn) ⊆ dom (sn_breakdown sn');
  out_runs : dom (sn_runs sn) ⊆ dom (sn_runs sn');
}.

Lemma outlived_step w w' sn : outlived sn (snap_of (arch w)) → step w w' → outlived sn (snap_of (arch w')).
Proof.
  assert (∀ {A} (m : eff W A), (∀ I, (∀ a ds, I (snap_of a) → I (with_frames (docs (insert_many ds (frames a)).2) (snap_of a))) →
     (∀ a ds, I (snap_of a) → I (with_kpi (docs (replace_many ds (kpi a)).2) (snap_of a))) →
     (∀ a ds, I (snap_of a) → I (with_breakdown (docs (replace_many ds (breakdown a)).2) (snap_of a))) →
     (∀ sn r d, I sn → I (with_runs (set_summary r d (sn_runs sn)) sn)) → preserves (λ w, I (snap_of (arch w))) m) →
     ∀ w, outlived sn (snap_of (arch w)) → outlived sn (snap_of (arch (m w).2))) as Hm.
  { intros A m Hm w0 Hw0. refine (preserves_state _ m w0 (Hm (outlived sn) _ _ _ _) Hw0).
    - intros a ds [Hf ? ? ?]. split; try done. simpl. etrans; [exact Hf|]. apply map_subseteq_spec.
      intros i d. apply insert_keeps.
    - intros a ds [? Hk ? ?]. split; try done. simpl. etrans; [exact Hk|]. intros i. rewrite !elem_of_dom. apply replace_keeps.
    - intros a ds [? ? Hb ?]. split; try done. simpl. etrans; [exact Hb|]. intros i. rewrite !elem_of_dom. apply replace_keeps.
    - intros sn' r d [? ? ? Hr]. split; try done. simpl. unfold set_summary. rewrite dom_insert. set_solver. }
  intros Ho Hs. destruct Hs as [w1 s l ? ?|w1 r reason complete _|w1 ids reason _]; [done|..].
  - apply Hm; [|done]. intros I H1' H2' H3' H4'. by apply keeps_dump_run.
  - apply Hm; [|done]. intros I H1' H2' H3' H4'. by apply keeps_reconcile.
Qed.

(** C7: No history takes anything out of the archive: whatever fails, a frame once
    archived keeps its document unchanged, and no KPI row, breakdown row or run summary
    ever disappears. *)
Theorem archive_only_grows w w' : star step w w' → outlived (snap_of (arch w)) (snap_of (arch w')).
Proof.
  intros Hs. refine (star_invariant step (λ w', outlived (snap_of (arch w)) (snap_of (arch w'))) _ w w' _ Hs); [|by split].
  intros w1 w2 Hw1 Hstep. exact (outlived_step w1 w2 _ Hw1 Hstep).
Qed.

(** *** Dumping again changes nothing *)

Section Replay.
Context (s : S) (r : string) (sn : snap).
Context (Hframes : ∀ i f, h_frames (held s r) !! i = Some f → is_Some (sn_frames sn !! frame_id r i)).
Context (Hkpi : ∀ id row t, h_kpi (held s r) !! id = Some (row, t) → sn_kpi sn !! id = Some (kpi_row_to_doc row r).2).
Context (Hbreakdown : ∀ id row t, h_breakdown (held s r) !! id = Some (row, t) → is_Some (sn_breakdown sn !! id)).

(** The store at rest, the documents those of [sn] (a breakdown row's may be stamped anew). *)
Definition rest w : Prop :=
  upcoming w = [] ∧ store w = s ∧ docs (frames (arch w)) = sn_frames sn ∧ docs (kpi (arch w)) = sn_kpi sn ∧
  dom (docs (breakdown (arch w))) = dom (sn_breakdown sn).

Lemma rest_ask {A} (f : S → A) : hoare rest (ask f) (λ a w, rest w ∧ a = f s) rest.
Proof. intros w Hw. pose proof Hw as (Hu & Hs & _). unfold ask. rewrite Hu, Hs. by split. Qed.

Lemma rest_find {C D} `{CollectionLaws C D} (at_ : ∀ A, (C → A * C) → eff W A) (get : archive FC KC BC RC → C) p :
  (∀ A (op : C → A * C) w, docs (op (get (arch w))).2 = docs (get (arch w)) → rest w →
     ∃ w', at_ A op w = (Ok (op (get (arch w))).1, w') ∧ rest w') →
  preserves rest (mongo (at_ _ (find p))).
Proof.
  intros Hat. apply preserves_bind; [|intros; apply preserves_lift]. intros w Hw.
  destruct (Hat _ (find p) w (find_reads p _) Hw) as (w' & -> & Hw'). done.
Qed.

Lemma rest_find_frames p : preserves rest (mongo (at_frames (find p))).
Proof.
  apply (rest_find (λ A, at_frames) frames). intros A op w Ho (? & ? & ? & ?). unfold at_frames.
  destruct (op _) as [a c]. eexists. split; [done|]. unfold rest. simpl in *. by rewrite Ho.
Qed.
Lemma rest_find_kpi p : preserves rest (mongo (at_kpi (find p))).
Proof.
  apply (rest_find (λ A, at_kpi) kpi). intros A op w Ho (? & ? & ? & ? & ?). unfold at_kpi.
  destruct (op _) as [a c]. eexists. split; [done|]. unfold rest. simpl in *. by rewrite Ho.
Qed.
Lemma rest_find_breakdown p : preserves rest (mongo (at_breakdown (find p))).
Proof.
  apply (rest_find (λ A, at_breakdown) breakdown). intros A op w Ho (? & ? & ? & ? & ?). unfold at_breakdown.
  destruct (op _) as [a c]. eexists. split; [done|]. unfold rest. simpl in *. by rewrite Ho.
Qed.
Lemma rest_runs {A} (op : RC → A * RC) : preserves rest (at_runs op).
Proof. intros w Hw. unfold at_runs. by destruct (op _). Qed.

Lemma rest_insert l : (∀ p, p ∈ l → is_Some (sn_frames sn !! p.1)) →
  hoare rest (_insert_batch l) (λ n w, rest w ∧ n = 0) rest.
Proof.
  intros Hl. unfold _insert_batch, write_batch. case_bool_decide; [by apply hoare_ret|].
  intros w (Hu & Hs & Hf & Hk & Hb). unfold mbind, eff_bind, at_frames.
  pose proof (insert_keeps l (frames (arch w))) as Hkeep. pose proof (insert_only l (frames (arch w))) as Honly.
  pose proof (insert_counts l (frames (arch w))) as Hc. destruct (insert_many l _) as [b c]. simpl in *.
  assert (docs c = sn_frames sn) as E.
  { rewrite Hf in *. apply map_eq. intros i. destruct (sn_frames sn !! i) as [d|] eqn:Ed; [by apply Hkeep|].
    destruct (docs c !! i) as [d|] eqn:Ec; [|done]. destruct (Honly i d Ec) as [?|Hin]; [by simplify_eq|].
    destruct (Hl _ Hin) as [d' Hd']. simpl in Hd'. by simplify_eq. }
  assert (rest (with_arch (Archive c (kpi (arch w)) (breakdown (arch w)) (runs (arch w)) (last_dump_at (arch w))) w)) as Hr
    by (unfold rest; simpl; auto).
  unfold lift. destruct (batch_result b) as [n|e]; [|done]. split; [done|]. rewrite (Hc n eq_refl), E, Hf. lia.
Qed.

Lemma rest_replace_kpi l : (∀ id d, (id, d) ∈ l → sn_kpi sn !! id = Some d) →
  hoare rest (_replace_kpi l) (λ n w, rest w ∧ n = 0) rest.
Proof.
  intros Hl. unfold _replace_kpi, write_batch. case_bool_decide; [by apply hoare_ret|].
  intros w (Hu & Hs & Hf & Hk & Hb). unfold mbind, eff_bind, at_kpi.
  pose proof (replace_keeps l (kpi (arch w))) as Hkeep. pose proof (replace_only l (kpi (arch w))) as Honly.
  pose proof (replace_counts l (kpi (arch w))) as Hc. destruct (replace_many l _) as [b c]. simpl in *.
  assert (docs c = sn_kpi sn) as E.
  { rewrite Hk in *. apply map_eq. intros i. destruct (docs c !! i) as [d|] eqn:Ec.
    - by destruct (Honly i d Ec) as [?|Hin%Hl].
    - destruct (sn_kpi sn !! i) as [d|] eqn:Ed; [|done]. destruct (Hkeep i) as [? ?]; [by eauto|]. congruence. }
  assert (rest (with_arch (Archive (frames (arch w)) c (breakdown (arch w)) (runs (arch w)) (last_dump_at (arch w))) w)) as Hr
    by (unfold rest; simpl; auto).
  unfold lift. destruct (batch_result b) as [n|e]; [|done]. split; [done|]. rewrite (Hc n eq_refl), E, Hk. lia.
Qed.

Lemma rest_replace_breakdown l : (∀ p, p ∈ l → is_Some (sn_breakdown sn !! p.1)) →
  hoare rest (_replace_breakdown l) (λ n w, rest w ∧ n = 0) rest.
Proof.
  intros Hl. unfold _replace_breakdown, write_batch. case_bool_decide; [by apply hoare_ret|].
  intros w (Hu & Hs & Hf & Hk & Hb). unfold mbind, eff_bind, at_breakdown.
  pose proof (replace_keeps l (breakdown (arch w))) as Hkeep. pose proof (replace_only l (breakdown (arch w))) as Honly.
  pose proof (replace_counts l (breakdown (arch w))) as Hc. destruct (replace_many l _) as [b c]. simpl in *.
  assert (dom (docs c) = dom (sn_breakdown sn)) as E.
  { rewrite <-Hb. apply set_eq. intros i. rewrite !elem_of_dom. split; [|apply Hkeep].
    intros [d Hd]. destruct (Honly i d Hd) as [?|Hin]; [eauto|]. apply elem_of_dom. rewrite Hb. apply elem_of_dom.
    by apply (Hl (i, d)). }
  assert (rest (with_arch (Archive (frames (arch w)) (kpi (arch w)) c (runs (arch w)) (last_dump_at (arch w))) w)) as Hr
    by (unfold rest; simpl; auto).
  unfold lift. destruct (batch_result b) as [n|e]; [|done]. split; [done|].
  rewrite (Hc n eq_refl), <-!size_dom, E, Hb. lia.
Qed.

(** A loop that only sends documents already there adds nothing. *)
Lemma rest_write_loop {X D} size (to_doc : X → eff W (option (string * D))) flush dedupe (there : string * D → Prop)
    (valid : X → Prop) xs error batch seen :
  (∀ x, valid x → hoare rest (to_doc x) (λ o w, rest w ∧ ∀ p, o = Some p → there p) rest) →
  (∀ l, (∀ p, p ∈ l → there p) → hoare rest (flush l) (λ n w, rest w ∧ n = 0) rest) →
  (∀ x, x ∈ xs → valid x) → (∀ p, p ∈ batch → there p) →
  hoare rest (write_loop size to_doc flush dedupe xs error batch seen 0) (λ n w, rest w ∧ n = 0) rest.
Proof.
  intros Hd Hf. revert batch seen. induction xs as [|x xs IH]; intros batch seen Hv Hb; cbn [write_loop].
  { destruct error; [by apply hoare_lift|]. eapply hoare_bind; [by apply Hf|]. intros n.
    apply hoare_ret. by intros w [? ->]. }
  assert (∀ x', x' ∈ xs → valid x') as Hv' by (intros; apply Hv; by right).
  eapply hoare_bind; [apply Hd, Hv; by left|]. intros [p|]; [|eapply hoare_pre; [by apply IH|by intros w []]].
  apply (hoare_prop _ (there p)); [intros w [_ Hp]; by apply Hp|]. intros Hp.
  eapply hoare_pre with (P' := rest); [|by intros w []].
  destruct (_ && _); [by apply IH|].
  assert (∀ q, q ∈ batch ++ [p] → there q) as Hb'.
  { intros q. rewrite elem_of_app, list_elem_of_singleton. intros [?| ->]; auto. }
  destruct (_ <=? _)%nat; [|by apply IH].
  eapply hoare_bind; [by apply Hf|]. intros n. apply (hoare_prop _ (n = 0)); [by intros w []|]. intros ->.
  eapply hoare_pre; [apply IH; [done|by intros q ?%elem_of_nil]|by intros w []].
Qed.

Lemma rest_utcnow : preserves rest (utcnow clock).
Proof. by intros w Hw. Qed.

Lemma rest_write_frames fs error n : (∀ f, f ∈ fs → h_frames (held s r) !! frame_idx f = Some f) →
  hoare rest (write_frames clock r (fs, error) n) (λ n w, rest w ∧ n = 0) rest.
Proof.
  intros Hfs. unfold write_frames. apply (rest_write_loop _ _ _ _ (λ p, is_Some (sn_frames sn !! p.1))
    (λ f, h_frames (held s r) !! frame_idx f = Some f)); [|apply rest_insert|done|by intros p ?%elem_of_nil].
  intros f Hf. eapply hoare_bind; [apply rest_utcnow|]. intros now. apply hoare_ret. intros w Hw. split; [done|].
  intros p [= <-]. by apply (Hframes _ f).
Qed.

Lemma rest_dump_kpi b : hoare rest (dump_kpi r b) (λ k w, rest w ∧ k.2 = 0) rest.
Proof.
  unfold dump_kpi. destruct b; [by apply hoare_ret|].
  eapply hoare_bind; [apply rest_ask|]. intros res. apply (hoare_prop _ (res = read_kpi_events s r)); [by intros w []|].
  intros ->. eapply hoare_pre with (P' := rest); [|by intros w []].
  destruct (read_kpi_events s r) as [rows|e] eqn:E; [|by intros w].
  eapply hoare_bind; [apply (hoare_lift _ _ (λ a w, rest w ∧ a = rows)); by intros|]. intros rows'.
  apply (hoare_prop _ (rows' = rows)); [by intros w []|]. intros ->.
  eapply hoare_pre with (P' := rest); [|by intros w []].
  eapply hoare_bind; [|intros n; apply hoare_ret; intros w Hw; exact Hw].
  unfold write_kpi_events. apply (rest_write_loop _ _ _ _ (λ p, sn_kpi sn !! p.1 = Some p.2)
    (λ row, ∃ id t, h_kpi (held s r) !! id = Some (row, t))).
  - intros row (id & t & Hx). apply hoare_ret. intros w Hw. split; [done|]. intros p [= <-].
    destruct (ok_kpi _ _ (held_ok s r) _ _ _ Hx) as (_ & -> & _). by apply (Hkpi _ row t).
  - intros l Hl. apply rest_replace_kpi. intros id d Hin. by apply (Hl (id, d)).
  - intros row. by apply (read_kpi_held s r rows row).
  - by intros p ?%elem_of_nil.
Qed.

Lemma rest_dump_breakdown b : hoare rest (dump_breakdown clock r b) (λ k w, rest w ∧ k.1.2 = 0) rest.
Proof.
  unfold dump_breakdown. destruct b; [by apply hoare_ret|].
  assert (hoare rest (_read_breakdown_rows r) (λ o w, rest w ∧ ∀ rows, o = Some rows →
    ∀ row, row ∈ rows → ∃ id t, h_breakdown (held s r) !! id = Some (row, t)) rest) as Hr.
  { unfold _read_breakdown_rows. destruct read_breakdown_rows as [fn|] eqn:Ef; [|destruct query as [q|] eqn:Eq].
    - eapply hoare_bind; [apply rest_ask|]. intros res. apply hoare_lift. intros w [Hw ->].
      destruct (fn s r) as [rows|e] eqn:E; [|done]. split; [done|]. intros rows' [= <-] row. by apply (read_breakdown_held fn _ _ rows).
    - eapply hoare_bind; [apply rest_ask|]. intros res. apply hoare_lift. intros w [Hw ->].
      destruct (select_breakdown q s r) as [rows|e] eqn:E; [|done]. split; [done|]. intros rows' [= <-] row.
      by apply (select_breakdown_held q _ _ rows).
    - by apply hoare_ret. }
  intros w Hw. specialize (Hr w Hw). destruct (_read_breakdown_rows r w) as [[[rows|]|e] w1].
  - destruct Hr as [Hw1 Hrows]. revert w1 Hw1.
    match goal with |- ∀ w1, _ → match ?m w1 with _ => _ end => change (hoare rest m (λ k w, rest w ∧ k.1.2 = 0) rest) end.
    eapply hoare_bind; [|intros n; apply hoare_ret; intros w' Hw'; exact Hw'].
    unfold write_breakdown_rows. apply (rest_write_loop _ _ _ _ (λ p, is_Some (sn_breakdown sn !! p.1))
      (λ row, ∃ id t, h_breakdown (held s r) !! id = Some (row, t))).
    + intros row (id & t & Hx). eapply hoare_bind; [apply rest_utcnow|]. intros now. apply hoare_ret. intros w' Hw'.
      split; [done|]. intros p Ep. destruct (ok_breakdown _ _ (held_ok s r) _ _ _ Hx) as (_ & _ & Hid). specialize (Hid now).
      rewrite Ep in Hid. injection Hid as E. rewrite E. by apply (Hbreakdown _ row t).
    + apply rest_replace_breakdown.
    + by apply Hrows.
    + by intros p ?%elem_of_nil.
  - by destruct Hr.
  - by case_decide.
Qed.

Lemma rest_read {A} (f : S → A) : preserves rest (ask f).
Proof. eapply hoare_post; [apply rest_ask|by intros a w []]. Qed.
Lemma rest_mongo_runs {A} (op : RC → result A * RC) : preserves rest (mongo (at_runs op)).
Proof. apply preserves_bind; [apply rest_runs|intros; apply preserves_lift]. Qed.
#[local] Hint Resolve rest_utcnow rest_find_frames rest_find_kpi rest_find_breakdown rest_read rest_mongo_runs : eff.
#[local] Hint Extern 1 (preserves _ (dumped_at _)) => by intros ? ? : eff.
#[local] Ltac resting := repeat first
  [ solve [eauto 3 with eff nocore] | apply preserves_bind; [|intros ?] | progress case_match ].

Lemma rest_stats : preserves rest (_archive_frame_stats r).
Proof. unfold _archive_frame_stats, run_frames. resting. Qed.
Lemma rest_terminal : preserves rest (run_is_terminal r).
Proof. unfold run_is_terminal. resting. Qed.
Lemma rest_watermark : preserves rest (_duck_watermark r).
Proof. unfold _duck_watermark, _duck_breakdown_count. resting. Qed.
Lemma rest_max t : preserves rest (_duck_max_ingested_at r t).
Proof. unfold _duck_max_ingested_at. resting. Qed.
#[local] Hint Resolve rest_stats rest_terminal rest_watermark rest_max : eff.

Lemma rest_bind {A B} (m : eff W A) (f : A → eff W B) Q :
  preserves rest m → (∀ a, hoare rest (f a) Q rest) → hoare rest (m ≫= f) Q rest.
Proof. intros. by eapply hoare_bind. Qed.

Lemma rest_dump_run reason complete :
  hoare rest (dump_run clock r reason complete)
    (λ d w, rest w ∧ dr_frames_inserted d = 0 ∧ dr_kpi_inserted d = 0 ∧ dr_breakdown_inserted d = 0) rest.
Proof.
  unfold dump_run, run_summary, _count_kpi, _count_breakdown, _probe_run_meta.
  apply rest_bind; [resting|]. intros terminal.
  apply rest_bind; [resting|]. intros prior.
  eapply hoare_bind; [apply rest_ask|]. intros fs. apply (hoare_prop _ (fs = iter_frames s r)); [by intros w []|]. intros ->.
  eapply hoare_pre with (P' := rest); [|by intros w []].
  eapply hoare_bind; [apply rest_write_frames|].
  { intros f Hf. apply iter_frames_held. unfold selected in Hf. destruct (dense_upto prior); [|done].
    by apply list_elem_of_filter in Hf as [_ ?]. }
  intros n. apply (hoare_prop _ (n = 0)); [by intros w []|]. intros ->. eapply hoare_pre with (P' := rest); [|by intros w []].
  do 5 (apply rest_bind; [resting|intros ?]).
  eapply hoare_bind; [apply rest_dump_kpi|]. intros k. apply (hoare_prop _ (k.2 = 0)); [by intros w []|]. intros Ek.
  eapply hoare_pre with (P' := rest); [|by intros w []].
  apply rest_bind; [resting|intros ?].
  eapply hoare_bind; [apply rest_dump_breakdown|]. intros b. apply (hoare_prop _ (b.1.2 = 0)); [by intros w []|]. intros Eb.
  eapply hoare_pre with (P' := rest); [|by intros w []].
  do 8 (apply rest_bind; [resting|intros ?]).
  destruct b.2; [by apply hoare_lift|]. by apply hoare_ret.
Qed.
End Replay.

(** C8: Once a run is wholly archived and its working set is at rest, dumping it again is
    harmless: whether the dump ends or fails on the way, the frame documents and the KPI
    documents are what they were, no breakdown row is added or lost, and a dump that ends
    reports that it added nothing. *)
Theorem replay_changes_nothing w r reason complete :
  upcoming w = [] → archived_all r (arch w) (held (store w) r) →
  let w' := (dump_run clock r reason complete w).2 in
  docs (frames (arch w')) = docs (frames (arch w)) ∧ docs (kpi (arch w')) = docs (kpi (arch w)) ∧
  dom (docs (breakdown (arch w'))) = dom (docs (breakdown (arch w))) ∧
  match (dump_run clock r reason complete w).1 with
  | Ok d => dr_frames_inserted d = 0 ∧ dr_kpi_inserted d = 0 ∧ dr_breakdown_inserted d = 0
  | Raise _ => True
  end.
Proof.
  intros Hu [Hf Hk Hb].
  assert (hoare (rest (store w) (snap_of (arch w))) (dump_run clock r reason complete)
    (λ d w', rest (store w) (snap_of (arch w)) w' ∧
       dr_frames_inserted d = 0 ∧ dr_kpi_inserted d = 0 ∧ dr_breakdown_inserted d = 0)
    (rest (store w) (snap_of (arch w)))) as Hr.
  { apply rest_dump_run.
    - intros i f Hi. destruct (Hf i f Hi) as [now Hd]. simpl. eauto.
    - exact Hk.
    - intros id row t Hx. destruct (Hb id row t Hx) as (now & d & Hd & _). simpl. eauto. }
  specialize (Hr w). destruct (dump_run clock r reason complete w) as [[d|e] w']; simpl.
  - destruct Hr as ((_ & _ & ? & ? & ?) & ?); [by unfold rest|]. done.
  - destruct Hr as (_ & _ & ? & ? & ?); [by unfold rest|]. done.
Qed.
End Safety.
