(* ===== verification/DuckStore.v ===== *)
(** The working set of the data plane ([dataplane/store/duck.py]): its tables, the
    upserts and reads of [DuckStore], eviction, and the rehydration of a run from the
    archive.  The statements are modelled by what their SQL says; whether the engine
    executes one is a parameter of the state. *)

From Stdlib Require Import SpecFloat Strings.Ascii.
From S2P Require Import Prelude PyValue Frame EffLogic ArchiveDocs Archive.
Open Scope Z_scope.

(** ** Constants *)

Definition DuckStoreError : exn := OtherError "DuckStoreError".
Definition RunNotInStore : exn := OtherError "RunNotInStore".

Definition _STORED_SCOPES : list string := ["truck"; "haulier"; "planner"; "lane"].
Definition _BD_COLUMNS : list string :=
  ["scope"; "sim_clock"; "final"; "entity_id"; "haulier_id"; "haulier_name"; "num_orders_completed"; "empty_km";
   "loaded_km"; "total_km"; "empty_ratio"; "active_hours"; "orders_per_day"; "dual_cycle_count";
   "chain_opportunities"; "dual_cycle_rate"; "num_trucks"; "payload"; "ingested_at"].
Definition _BD_INT : list string :=
  ["num_orders_completed"; "dual_cycle_count"; "chain_opportunities"; "num_trucks"].
Definition _BD_NUM : list string :=
  ["num_orders_completed"; "empty_km"; "loaded_km"; "total_km"; "empty_ratio"; "active_hours"; "orders_per_day";
   "dual_cycle_count"; "chain_opportunities"; "dual_cycle_rate"; "num_trucks"].
Definition _RUN_META_COLUMNS : list string :=
  ["first_seen"; "last_seen"; "status"; "n_trucks"; "max_frame_idx"; "haulier_codes"; "slot_map"; "source";
   "run_name"; "scenario_slug"; "scenario_name"].
Definition _SUMMARY_META_KEYS : list string := ["haulier_codes"; "slot_map"; "n_trucks"; "status"; "first_seen"].
Definition _ITER_WINDOW : Z := 200.
Definition _WRITE_BATCH_ROWS : Z := 250000.
Definition REHYDRATE_MAX_POSITION_ROWS : Z := 20000000.

#[export] Instance datetime_countable : Countable datetime.
Proof.
  refine (inj_countable' (λ t, (year t, month t, day t, (hour t, minute t, second t), microsecond t))
    (λ '(y, m, d, (h, mi, s), u), DateTime y m d h mi s u) _). by intros [].
Defined.

(** ** Tables *)

(** One position of one frame: [frames] has no key. *)
Record frow : Set := FRow {
  fr_run : string; fr_idx : Z; fr_time : Z; fr_slot : Z; fr_lng : Z; fr_lat : Z; fr_state : Z; fr_haulier : Z
}.

(** The primary keys, after the run. *)
Abbreviation kpi_key := (string * datetime)%type.
Abbreviation bd_key := (string * (datetime * string))%type.

Record tables : Type := Tables {
  t_frames : list frow;
  t_kpi : gmap (string * kpi_key) (float64 * datetime);
  t_breakdown : gmap (string * bd_key) crow;
  t_meta : gmap string crow;
  t_export : gmap string crow;
}.

(** [readable]: whether queries are answered; [faults]: which of the writing statements
    to come raise. *)
Record duck : Type := Duck { rows : tables; readable : bool; faults : list bool; duck_ticks : nat }.

Definition with_rows (t : tables) (d : duck) : duck := Duck t (readable d) (faults d) (duck_ticks d).
Definition set_frames (f : list frow) (t : tables) : tables := Tables f (t_kpi t) (t_breakdown t) (t_meta t) (t_export t).
Definition set_kpi k (t : tables) : tables := Tables (t_frames t) k (t_breakdown t) (t_meta t) (t_export t).
Definition set_breakdown b (t : tables) : tables := Tables (t_frames t) (t_kpi t) b (t_meta t) (t_export t).
Definition set_meta m (t : tables) : tables := Tables (t_frames t) (t_kpi t) (t_breakdown t) m (t_export t).
Definition set_export e (t : tables) : tables := Tables (t_frames t) (t_kpi t) (t_breakdown t) (t_meta t) e.

(** One writing statement, a clock reading, one query. *)
Definition faulty (d : duck) : bool * duck :=
  match faults d with
  | [] => (false, d)
  | b :: l => (b, Duck (rows d) (readable d) l (duck_ticks d))
  end.

Definition execute (f : tables → tables) : eff duck unit := λ d,
  let '(bad, d) := faulty d in
  if bad then (Raise DuckStoreError, d) else (Ok tt, with_rows (f (rows d)) d).

Definition duck_now (clock : nat → datetime) : eff duck datetime := λ d,
  (Ok (clock (duck_ticks d)), Duck (rows d) (readable d) (faults d) (S (duck_ticks d))).

Definition select {A} (f : tables → A) (d : duck) : result A :=
  if readable d then Ok (f (rows d)) else Raise DuckStoreError.

Definition reading {A} (f : tables → A) : eff duck A := λ d, (select f d, d).

(** [BEGIN]; the statements; [COMMIT]; whatever raises, [ROLLBACK]. *)
Fixpoint statements (fs : list (tables → tables)) (t : tables) : eff duck tables :=
  match fs with
  | [] => mret t
  | f :: fs => λ d, let '(bad, d) := faulty d in
      if bad then (Raise DuckStoreError, d) else statements fs (f t) d
  end.

Definition transaction (fs : list (tables → tables)) : eff duck unit := λ d,
  let '(no_begin, d) := faulty d in
  if no_begin then (Raise DuckStoreError, d)
  else match statements fs (rows d) d with
  | (Raise e, d) => (Raise e, d)
  | (Ok t, d) =>
      let '(no_commit, d) := faulty d in
      if no_commit then (Raise DuckStoreError, d) else (Ok tt, with_rows t d)
  end.

(** What lies outside the source: [json.dumps], numpy's reading of a timestamp, and the
    engine's cast of a double to a 64-bit integer, [None] where it has none. *)
Class DuckEnv := {
  duck_clock : nat → datetime;
  json_dumps : pyval → result string;
  np_datetime : pyval → result datetime;
  try_cast_bigint : float64 → option Z;
}.

Section Store.
Context `{PyText, Numpy, DuckEnv}.

(** ** Writes *)

(** [QUALIFY row_number() OVER (PARTITION BY key ORDER BY _seq DESC) = 1]: of the rows of
    a batch with one key, the last. *)
Fixpoint last_wins {K V} `{EqDecision K} (l : list (K * V)) : list (K * V) :=
  match l with
  | [] => []
  | (k, v) :: l => if bool_decide (k ∈ l.*1) then last_wins l else (k, v) :: last_wins l
  end.

(** [ON CONFLICT (key) DO UPDATE] *)
Definition upsert {K V} `{Countable K} (l : list (K * V)) (t : gmap K V) : gmap K V :=
  foldl (λ t p, <[p.1 := p.2]> t) t (last_wins l).

Definition kpi_columns (run_id : string) (rows : list (kpi_key * (float64 * datetime))) :
    list ((string * kpi_key) * (float64 * datetime)) :=
  (λ p, ((run_id, p.1), p.2)) <$> rows.

(** [_KPI_INSERT] *)
Definition kpi_insert (run_id : string) (rows : list (kpi_key * (float64 * datetime))) (t : tables) : tables :=
  set_kpi (upsert (kpi_columns run_id rows) (t_kpi t)) t.

Definition _insert_kpi_columnar (run_id : string) (rows : list (kpi_key * (float64 * datetime))) : eff duck Z :=
  if bool_decide (rows = []) then mret 0 else _ ← execute (kpi_insert run_id rows); mret (Z.of_nat (length rows)).

(** Rows by run, in the order the runs first appear. *)
Definition grouped (rows : list kpi_row) : list (string * list kpi_row) :=
  foldl (λ g row, d_set g (k_run row) (default [] (d_get g (k_run row)) ++ [row])) [] rows.

Fixpoint write_groups (now : datetime) (g : list (string * list kpi_row)) (written : Z) : eff duck Z :=
  match g with
  | [] => mret written
  | (r, items) :: g =>
      _ ← _insert_kpi_columnar r ((λ row, ((k_metric row, k_clock row), (k_value row, now))) <$> items);
      write_groups now g (written + Z.of_nat (length items))
  end.

Definition write_kpi_events (rows : list kpi_row) : eff duck Z :=
  if bool_decide (rows = []) then mret 0 else now ← duck_now duck_clock; write_groups now (grouped rows) 0.

(** [_num]: a float, or nothing. *)
Definition _num (v : pyval) : result (option float64) :=
  if is_none v then Ok None
  else match py_float v with
  | Ok f => Ok (Some f)
  | Raise TypeError | Raise ValueError => Ok None
  | Raise e => Raise e
  end.

(** What a numeric column stores: NULL for nothing and for a NaN. *)
Definition num_cell (column : string) (v : pyval) : result cell :=
  n ← _num v;
  Ok (CVal match n with
      | None => PNone
      | Some f =>
          if isnan f then PNone
          else if bool_decide (column ∈ _BD_INT)
          then match try_cast_bigint f with Some z => PInt z | None => PNone end
          else PFloat f
      end).

Definition breakdown_column (column : string) (c : cell) : result cell :=
  if bool_decide (column ∈ _BD_NUM) then num_cell column (match c with CVal v => v | CTime _ => PNone end) else Ok c.

(** Records in the types of the columns. *)
Definition _breakdown_columns (records : list (bd_key * crow)) : result (list (bd_key * crow)) :=
  mapR (λ p, row ← mapR (λ q, c ← breakdown_column q.1 q.2; Ok (q.1, c)) p.2; Ok (p.1, row)) records.

Definition opt_str (v : pyval) : cell := CVal (if is_none v then PNone else PStr (py_str v)).

(** [(scope, sim_clock, final, entities)] *)
Record snapshot : Type := Snapshot { s_scope : string; s_clock : datetime; s_final : bool; s_entities : list pydict }.

Definition entity_record (now : datetime) (s : snapshot) (entity : pydict) : result (option (bd_key * crow)) :=
  let eid := get entity "id" in
  if is_none eid then Ok None
  else
  payload ← json_dumps (PDict entity);
  Ok (Some ((s_scope s, (s_clock s, py_str eid)),
    [("final", CVal (PBool (s_final s))); ("haulier_id", opt_str (get entity "haulier_id"));
     ("haulier_name", opt_str (get entity "haulier_name"))] ++
    ((λ c, (c, CVal (get entity c))) <$> _BD_NUM) ++
    [("payload", CVal (PStr payload)); ("ingested_at", CTime now)])).

Fixpoint omap_result {A B} (f : A → result (option B)) (l : list A) : result (list B) :=
  match l with
  | [] => Ok []
  | a :: l => b ← f a; bs ← omap_result f l; Ok (match b with Some b => b :: bs | None => bs end)
  end.

Definition snapshot_records (now : datetime) (s : snapshot) : result (list (bd_key * crow)) :=
  if bool_decide (s_scope s ∉ _STORED_SCOPES) || bool_decide (s_entities s = []) then Ok []
  else omap_result (entity_record now s) (s_entities s).

(** [_BREAKDOWN_INSERT] *)
Definition breakdown_insert (run_id : string) (records : list (bd_key * crow)) (t : tables) : tables :=
  set_breakdown (upsert ((λ p, ((run_id, p.1), p.2)) <$> records) (t_breakdown t)) t.

Definition _insert_breakdown_columnar (run_id : string) (records : list (bd_key * crow)) : eff duck Z :=
  if bool_decide (records = []) then mret 0
  else _ ← execute (breakdown_insert run_id records); mret (Z.of_nat (length records)).

Definition write_breakdown_batch (run_id : string) (snapshots : list snapshot) : eff duck Z :=
  now ← duck_now duck_clock;
  records ← lift (mapR (snapshot_records now) snapshots);
  if bool_decide (concat records = []) then mret 0
  else columns ← lift (_breakdown_columns (concat records)); _insert_breakdown_columnar run_id columns.

Definition write_breakdown (run_id : string) (s : snapshot) : eff duck Z := write_breakdown_batch run_id [s].

(** The columns of some frames, as [np.concatenate] leaves them. *)
Record fcols : Set := FCols {
  c_idx : list Z; c_time : list Z; c_slot : list Z; c_lng : list Z; c_lat : list Z; c_state : list Z; c_haulier : list Z
}.

Fixpoint zip_frows (run_id : string) (idxs times slots lngs lats states hauliers : list Z) : list frow :=
  match idxs, times, slots, lngs, lats, states, hauliers with
  | i :: idxs, t :: times, s :: slots, x :: lngs, y :: lats, st :: states, h :: hauliers =>
      FRow run_id i t s x y st h :: zip_frows run_id idxs times slots lngs lats states hauliers
  | _, _, _, _, _, _, _ => []
  end.

Definition column_rows (run_id : string) (c : fcols) : list frow :=
  zip_frows run_id (c_idx c) (c_time c) (c_slot c) (c_lng c) (c_lat c) (c_state c) (c_haulier c).

Definition frame_columns (f : frame) : fcols :=
  FCols (replicate (frame_n f) (frame_idx f)) (replicate (frame_n f) (sim_time_ms f))
    (slot f) (lng f) (lat f) (state f) (haulier f).

Definition app_columns (c d : fcols) : fcols :=
  FCols (c_idx c ++ c_idx d) (c_time c ++ c_time d) (c_slot c ++ c_slot d) (c_lng c ++ c_lng d) (c_lat c ++ c_lat d)
    (c_state c ++ c_state d) (c_haulier c ++ c_haulier d).

Definition no_columns : fcols := FCols [] [] [] [] [] [] [].

(** [_frame_columns_from_frames]: the columns, how many frames have positions, and how
    many positions there are; refused beyond [max_rows]. *)
Fixpoint _frame_columns_from_frames (frames : list frame) (max_rows : option Z) (acc : fcols) (count total : nat) :
    result (fcols * nat * nat) :=
  match frames with
  | [] => Ok (acc, count, total)
  | f :: frames =>
      if (frame_n f =? 0)%nat then _frame_columns_from_frames frames max_rows acc count total
      else
      let total := (total + frame_n f)%nat in
      if match max_rows with Some m => m <? Z.of_nat total | None => false end then Raise DuckStoreError
      else _frame_columns_from_frames frames max_rows (app_columns acc (frame_columns f)) (count + 1)%nat total
  end.

(** [_FRAME_INSERT] *)
Definition frame_insert (new : list frow) (t : tables) : tables := set_frames (t_frames t ++ new) t.

(** Whether every column has as many elements: a table cannot be built of others. *)
Definition even_columns (c : fcols) : bool :=
  forallb (λ l, bool_decide (length l = length (c_lng c)))
    [c_idx c; c_time c; c_slot c; c_lat c; c_state c; c_haulier c].

Definition _insert_frames_columnar (run_id : string) (c : fcols) : eff duck Z :=
  if bool_decide (c_lng c = []) then mret 0
  else if even_columns c
  then _ ← execute (frame_insert (column_rows run_id c)); mret (Z.of_nat (length (c_lng c)))
  else lift (Raise ValueError).

Definition _insert_frame_batch (run_id : string) (frames : list frame) : eff duck Z :=
  c ← lift (_frame_columns_from_frames frames None no_columns 0 0);
  if (c.2 =? 0)%nat then mret 0
  else _ ← _insert_frames_columnar run_id c.1.1; mret (Z.of_nat c.2).

Fixpoint frames_loop (run_id : string) (frames buf : list frame) (buffered : nat) (written : Z) : eff duck Z :=
  match frames with
  | [] => if bool_decide (buf = []) then mret written else n ← _insert_frame_batch run_id buf; mret (written + n)
  | f :: frames =>
      if (frame_n f =? 0)%nat then frames_loop run_id frames buf buffered written
      else
      let buf := buf ++ [f] in
      let buffered := (buffered + frame_n f)%nat in
      if _WRITE_BATCH_ROWS <=? Z.of_nat buffered
      then n ← _insert_frame_batch run_id buf; frames_loop run_id frames [] 0 (written + n)
      else frames_loop run_id frames buf buffered written
  end.

Definition write_frames (run_id : string) (frames : list frame) : eff duck Z := frames_loop run_id frames [] 0 0.
Definition write_frame (run_id : string) (f : frame) : eff duck Z := write_frames run_id [f].

(** *** Run metadata *)

Definition meta_upsert (run_id : string) (fields : crow) (t : tables) : tables :=
  set_meta (<[run_id := crow_update (default [] (t_meta t !! run_id)) (filter (λ p, p.1 ∈ _RUN_META_COLUMNS) fields)]>
    (t_meta t)) t.

Definition upsert_run_meta (run_id : string) (fields : crow) : eff duck unit :=
  if forallb (λ k, bool_decide (k ∈ _RUN_META_COLUMNS)) (d_keys fields)
  then execute (meta_upsert run_id fields) else lift (Raise DuckStoreError).

Definition export_upsert (run_id status : string) (row_count frame_count : option Z) (error : option string)
    (now : datetime) (t : tables) : tables :=
  set_export (<[run_id := [("run_id", CVal (PStr run_id)); ("status", CVal (PStr status)); ("row_count", opt_cell row_count);
      ("frame_count", opt_cell frame_count); ("exported_at", CTime now);
      ("error", CVal (match error with Some e => PStr e | None => PNone end))]]> (t_export t)) t.

Definition set_export_state (run_id status : string) (row_count frame_count : option Z) (error : option string) :
    eff duck unit :=
  now ← duck_now duck_clock; execute (export_upsert run_id status row_count frame_count error now).

(** ** Reads *)

Definition run_rows (run_id : string) (t : tables) : list frow := filter (λ x, fr_run x = run_id) (t_frames t).

Definition frame_range (d : duck) (run_id : string) : result (option (Z * Z)) :=
  select (λ t, match extreme Z.min (fr_idx <$> run_rows run_id t), extreme Z.max (fr_idx <$> run_rows run_id t) with
               | Some lo, Some hi => Some (lo, hi) | _, _ => None end) d.

Definition run_frame_count (d : duck) (run_id : string) : result Z :=
  select (λ t, Z.of_nat (length (remove_dups (fr_idx <$> run_rows run_id t)))) d.

Definition run_kpi (run_id : string) (t : tables) : list (kpi_key * (float64 * datetime)) :=
  omap (λ p, if bool_decide (p.1.1 = run_id) then Some (p.1.2, p.2) else None) (map_to_list (t_kpi t)).

Definition run_breakdown (run_id : string) (t : tables) : list (bd_key * crow) :=
  omap (λ p, if bool_decide (p.1.1 = run_id) then Some (p.1.2, p.2) else None) (map_to_list (t_breakdown t)).

Definition kpi_row_count (d : duck) (run_id : string) : result Z := select (λ t, Z.of_nat (length (run_kpi run_id t))) d.
Definition breakdown_row_count (d : duck) (run_id : string) : result Z :=
  select (λ t, Z.of_nat (length (run_breakdown run_id t))) d.

(** [ORDER BY sim_clock, metric] *)
Definition kpi_leb (p q : kpi_key * (float64 * datetime)) : bool :=
  match dt_compare p.1.2 q.1.2 with Lt => true | Gt => false | Eq => String.leb p.1.1 q.1.1 end.

Definition read_kpi_events (d : duck) (run_id : string) : result (list kpi_row) :=
  select (λ t, (λ p, KpiRow run_id p.1.1 p.2.1 p.1.2) <$> py_sorted kpi_leb (run_kpi run_id t)) d.

(** [SELECT *] over one row of [kpi_breakdown_rows]. *)
Definition bd_cell (key : bd_key) (row : crow) (column : string) : cell :=
  if bool_decide (column = "scope") then CVal (PStr key.1)
  else if bool_decide (column = "sim_clock") then CTime key.2.1
  else if bool_decide (column = "entity_id") then CVal (PStr key.2.2)
  else cget row column.

Definition bd_row (run_id : string) (p : bd_key * crow) : crow :=
  ("run_id", CVal (PStr run_id)) :: ((λ c, (c, bd_cell p.1 p.2 c)) <$> _BD_COLUMNS).

(** [ORDER BY sim_clock, scope, entity_id] *)
Definition bd_leb (p q : bd_key * crow) : bool :=
  match dt_compare p.1.2.1 q.1.2.1 with
  | Lt => true
  | Gt => false
  | Eq => pair_leb String.leb String.leb (p.1.1, p.1.2.2) (q.1.1, q.1.2.2)
  end.

Definition select_rows (d : duck) (run_id : string) : result (list crow) :=
  select (λ t, bd_row run_id <$> py_sorted bd_leb (run_breakdown run_id t)) d.

(** The latest of some timestamps. *)
Definition dt_max (t u : datetime) : datetime := match dt_compare t u with Lt => u | _ => t end.
Definition latest (l : list datetime) : option datetime :=
  match l with [] => None | t :: l => Some (foldl dt_max t l) end.

Definition row_time (row : crow) : option datetime :=
  match cget row "ingested_at" with CTime t => Some t | CVal _ => None end.

(** [SELECT max(ingested_at)]: one row, NULL when there is nothing to compare. *)
Definition max_ingested_at (d : duck) (t : table) (run_id : string) : result (option cell) :=
  select (λ ts, Some match latest (match t with
      | kpi_events => (λ p, p.2.2) <$> run_kpi run_id ts
      | kpi_breakdown_rows => omap (λ p, row_time p.2) (run_breakdown run_id ts)
      end) with Some u => CTime u | None => CVal PNone end) d.

Definition get_run_meta (d : duck) (run_id : string) : result (option crow) := select (λ t, t_meta t !! run_id) d.
Definition get_export_state (d : duck) (run_id : string) : result (option crow) := select (λ t, t_export t !! run_id) d.

(** Every run some table mentions. *)
Definition known_runs (t : tables) : gset string :=
  list_to_set (fr_run <$> t_frames t) ∪ list_to_set (map fst (map_to_list (t_kpi t)).*1) ∪
  list_to_set (map fst (map_to_list (t_breakdown t)).*1) ∪ dom (t_meta t).

Definition list_run_ids (d : duck) : result (list string) := select (λ t, sorted_strings (known_runs t)) d.

(** Those no terminal status was written for. *)
Definition open_run_ids (d : duck) : result (list string) :=
  select (λ t, sorted_strings (filter (λ r, c_none (cget (default [] (t_meta t !! r)) "status") = true) (known_runs t))) d.

(** *** Frames of a run *)

(** [ORDER BY frame_idx, slot] *)
Definition row_leb (x y : frow) : bool := pair_leb Z.leb Z.leb (fr_idx x, fr_slot x) (fr_idx y, fr_slot y).

Definition read_frames (d : duck) (run_id : string) (frame_from frame_to : Z) : result (list frow) :=
  select (λ t, py_sorted row_leb (filter (λ x, frame_from ≤ fr_idx x ∧ fr_idx x ≤ frame_to) (run_rows run_id t))) d.

(** The frame some rows make: none of no rows; the time is the first row's. *)
Definition frame_of_rows (idx : Z) (l : list frow) : option frame :=
  match l with
  | [] => None
  | x :: _ => Some (Frame idx (fr_time x) (fr_lng <$> l) (fr_lat <$> l) (fr_slot <$> l) (fr_state <$> l)
                      (fr_haulier <$> l) KIND_KEYFRAME FRAME_VERSION)
  end.

Definition read_frame (d : duck) (run_id : string) (idx : Z) : result (option frame) :=
  l ← read_frames d run_id idx idx; Ok (frame_of_rows idx l).

(** One window: its distinct indices in order, each with its rows. *)
Definition window_frames (l : list frow) : list frame :=
  omap (λ i, frame_of_rows i (filter (λ x, fr_idx x = i) l)) (py_sorted Z.leb (remove_dups (fr_idx <$> l))).

Fixpoint iter_windows (fuel : nat) (d : duck) (run_id : string) (cursor hi : Z) : list frame * option exn :=
  match fuel with
  | O => ([], None)
  | S fuel =>
      if hi <? cursor then ([], None)
      else
      let window_hi := Z.min (cursor + _ITER_WINDOW - 1) hi in
      match read_frames d run_id cursor window_hi with
      | Raise e => ([], Some e)
      | Ok l => let rest := iter_windows fuel d run_id (window_hi + 1) hi in (window_frames l ++ rest.1, rest.2)
      end
  end.

Definition iter_frames (d : duck) (run_id : string) : list frame * option exn :=
  match frame_range d run_id with
  | Raise e => ([], Some e)
  | Ok None => ([], None)
  | Ok (Some (lo, hi)) => iter_windows (Z.to_nat (hi - lo + 1)) d run_id lo hi
  end.
End Store.

(** ** Runs come and go *)

Section Lifecycle.
Context `{PyText, Numpy, DuckEnv}.

Definition delete_frames (r : string) (t : tables) : tables := set_frames (filter (λ x, fr_run x ≠ r) (t_frames t)) t.
Definition delete_kpi (r : string) (t : tables) : tables := set_kpi (filter (λ p, p.1.1 ≠ r) (t_kpi t)) t.
Definition delete_breakdown (r : string) (t : tables) : tables :=
  set_breakdown (filter (λ p, p.1.1 ≠ r) (t_breakdown t)) t.
Definition delete_meta (r : string) (t : tables) : tables := set_meta (delete r (t_meta t)) t.
Definition delete_export (r : string) (t : tables) : tables := set_export (delete r (t_export t)) t.

Definition some_row {A} (o : option A) : nat := match o with Some _ => 1 | None => 0 end.

(** How many rows of the run the tables hold. *)
Definition run_row_count (r : string) (t : tables) : Z :=
  Z.of_nat (length (run_rows r t) + length (run_kpi r t) + length (run_breakdown r t) +
            some_row (t_meta t !! r) + some_row (t_export t !! r)).

(** [evict_run] *)
Definition evict_run (r : string) : eff duck Z :=
  n ← reading (run_row_count r);
  _ ← transaction [delete_frames r; delete_kpi r; delete_breakdown r; delete_meta r; delete_export r];
  mret n.

(** *** What a rehydration reads

    A source has the three methods of [FrameSource]; the others are probed for.  Columns
    of KPI rows may lack [ingested_at], and [None] is an answer that cannot be
    interpreted; for breakdown rows, [None] says the source could not read them. *)
Inductive bd_answer : Type := Unknown | Uninterpretable | Columns (rows : list crow).

Record source : Type := Source {
  src_has_run : string → result bool;
  src_frames : string → result (list frame);
  src_kpi_events : string → result (list kpi_row);
  src_frame_docs : option (string → result (list frame_doc));
  src_kpi_columns : option (string → result (option (list (kpi_key * (float64 * option datetime)))));
  src_breakdown_columns : option (string → result bd_answer);
  src_breakdown_rows : option (string → result (list crow));
  src_run_summary : option (string → result (option crow));
}.

Fixpoint _frame_columns_from_docs (docs : list frame_doc) (max_rows : Z) (acc : fcols) (count total : nat) :
    result (fcols * nat * nat) :=
  match docs with
  | [] => Ok (acc, count, total)
  | d :: docs =>
      if (fd_n d =? 0)%nat then _frame_columns_from_docs docs max_rows acc count total
      else
      let total := (total + fd_n d)%nat in
      if max_rows <? Z.of_nat total then Raise DuckStoreError
      else
      lng ← whole_buffer 8 (fd_lng d);
      lat ← whole_buffer 8 (fd_lat d);
      slot ← whole_buffer 4 (fd_slot d);
      state ← whole_buffer 1 (fd_state d);
      haulier ← whole_buffer 1 (fd_haulier d);
      _frame_columns_from_docs docs max_rows
        (app_columns acc (FCols (replicate (fd_n d) (fd_frame_idx d)) (replicate (fd_n d) (fd_sim_time_ms d))
           slot lng lat state haulier)) (count + 1)%nat total
  end.

Definition _read_frame_columns (src : source) (r : string) : result (fcols * nat) :=
  match src_frame_docs src with
  | Some fn =>
      docs ← fn r;
      c ← _frame_columns_from_docs docs REHYDRATE_MAX_POSITION_ROWS no_columns 0 0; Ok c.1
  | None =>
      frames ← src_frames src r;
      c ← _frame_columns_from_frames frames (Some REHYDRATE_MAX_POSITION_ROWS) no_columns 0 0; Ok c.1
  end.

Abbreviation kpi_cols := (list (kpi_key * (float64 * datetime))).

Definition _read_kpi_columns (src : source) (now : datetime) (r : string) : result kpi_cols :=
  let by_rows : result kpi_cols :=
    rows ← src_kpi_events src r;
    Ok (map (λ row, ((k_metric row, k_clock row), (k_value row, now))) rows) in
  match src_kpi_columns src with
  | None => by_rows
  | Some fn =>
      answer ← fn r;
      match answer with
      | Some rows => Ok (map (λ p, (p.1, (p.2.1, default now p.2.2))) rows)
      | None => by_rows
      end
  end.

(** A timestamp, as a column stores it. *)
Definition ts_cell (c : cell) : result datetime := match c with CTime t => Ok t | CVal v => np_datetime v end.

Definition coerce_text (c : cell) : cell :=
  match c with CVal PNone => CVal PNone | _ => CVal (PStr (c_str c)) end.

Definition record_fields (row : crow) (ingested : cell) : crow :=
  [("final", CVal (PBool (c_truth (cget row "final")))); ("haulier_id", coerce_text (cget row "haulier_id"));
   ("haulier_name", coerce_text (cget row "haulier_name"))] ++
  ((λ c, (c, cget row c)) <$> _BD_NUM) ++
  [("payload", coerce_text (cget row "payload")); ("ingested_at", ingested)].

Definition no_key (row : crow) : bool :=
  c_none (cget row "entity_id") || c_none (cget row "scope") || c_none (cget row "sim_clock").

(** A row of the row reader; one without a key is skipped. *)
Definition row_record (now : datetime) (row : crow) : result (option (bd_key * crow)) :=
  if no_key row then Ok None
  else
  clock ← ts_cell (cget row "sim_clock");
  ingested ← (if c_truth (cget row "ingested_at") then ts_cell (cget row "ingested_at") else Ok now);
  Ok (Some ((c_str (cget row "scope"), (clock, c_str (cget row "entity_id"))), record_fields row (CTime ingested))).

Definition _records_from_breakdown_rows (now : datetime) (rows : list crow) : result (list (bd_key * crow)) :=
  omap_result (row_record now) rows.

(** A row of adopted columns ([_adopt_columns]).  One without a key makes the statement
    that inserts it raise, which the failure here stands for. *)
Definition column_record (now : datetime) (row : crow) : result (bd_key * crow) :=
  if no_key row then Raise DuckStoreError
  else
  clock ← ts_cell (cget row "sim_clock");
  ingested ← match d_get row "ingested_at" with
    | None => Ok (CTime now)
    | Some c => if c_none c then Ok c else t ← ts_cell c; Ok (CTime t)
    end;
  Ok ((c_str (cget row "scope"), (clock, c_str (cget row "entity_id"))), record_fields row ingested).

Definition _adopt_columns (now : datetime) (rows : list crow) : result (list (bd_key * crow)) :=
  records ← mapR (column_record now) rows; _breakdown_columns records.

(** The columns of what the row reader yields. *)
Definition adopt_rows (now : datetime) (rows : list crow) : result (list (bd_key * crow)) :=
  records ← _records_from_breakdown_rows now rows; _breakdown_columns records.

(** The row reader, for a source without the columnar one or whose answer is no mapping. *)
Definition breakdown_by_rows (src : source) (r : string) : eff duck (option (list (bd_key * crow))) :=
  match src_breakdown_rows src with
  | None => mret None
  | Some fn => rows ← lift (fn r); now ← duck_now duck_clock; l ← lift (adopt_rows now rows); mret (Some l)
  end.

Definition _read_breakdown_columns (src : source) (r : string) : eff duck (option (list (bd_key * crow))) :=
  match src_breakdown_columns src with
  | None => breakdown_by_rows src r
  | Some fn =>
      answer ← lift (fn r);
      match answer with
      | Unknown =>
          n ← reading (λ t, length (run_breakdown r t));
          if (n =? 0)%nat then lift (Raise DuckStoreError) else mret None
      | Uninterpretable => breakdown_by_rows src r
      | Columns rows =>
          now ← duck_now duck_clock; l ← lift (_adopt_columns now rows); mret (Some l)
      end
  end.

Definition _run_summary (src : source) (r : string) : crow :=
  match src_run_summary src with
  | None => []
  | Some fn => match fn r with Ok (Some s) => s | _ => [] end
  end.

(** [_summary_meta]: coerced per column type. *)
Definition summary_field (key : string) (c : cell) : result (option cell) :=
  if c_none c then Ok None
  else if bool_decide (key = "n_trucks") then
    match c_int c with
    | Ok z => Ok (Some (CVal (PInt z)))
    | Raise TypeError | Raise ValueError => Ok None
    | Raise e => Raise e
    end
  else if bool_decide (key = "first_seen") then Ok match c with CTime t => Some (CTime t) | _ => None end
  else if bool_decide (key = "status") then Ok (Some (CVal (PStr (c_str c))))
  else match c with
  | CVal (PDict d) => s ← json_dumps (PDict d); Ok (Some (CVal (PStr s)))
  | CVal (PList l) => s ← json_dumps (PList l); Ok (Some (CVal (PStr s)))
  | _ => Ok (Some (CVal (PStr (c_str c))))
  end.

Definition _summary_meta (summary : crow) : result crow :=
  omap_result (λ k, v ← summary_field k (cget summary k); Ok (option_map (pair k) v)) _SUMMARY_META_KEYS.

(** [_as_int] *)
Definition _as_int (c : cell) : result (option Z) :=
  match c_int c with
  | Ok z => Ok (Some z)
  | Raise TypeError | Raise ValueError => Ok None
  | Raise e => Raise e
  end.

(** *** [rehydrate_run] *)

(** The statements between [BEGIN] and [COMMIT]. *)
Definition restore_statements (r : string) (frows : list frow) (kpi : kpi_cols) (bd : option (list (bd_key * crow)))
    (meta : crow) (export : option (tables → tables)) : list (tables → tables) :=
  [delete_frames r; delete_kpi r] ++
  (match bd with Some _ => [delete_breakdown r] | None => [] end) ++
  (if bool_decide (frows = []) then [] else [frame_insert frows]) ++
  (if bool_decide (kpi = []) then [] else [kpi_insert r kpi]) ++
  (match bd with Some l => if bool_decide (l = []) then [] else [breakdown_insert r l] | None => [] end) ++
  [meta_upsert r meta] ++
  (match export with Some f => [f] | None => [] end).

Definition busy (r : string) : eff duck bool :=
  reading (λ t, negb (bool_decide (run_rows r t = []) && bool_decide (run_kpi r t = []) &&
                      bool_decide (run_breakdown r t = []))).

(** Everything phase 1 brings into memory. *)
Definition gather (r : string) (src : source) : eff duck (fcols * nat * kpi_cols * option (list (bd_key * crow)) * crow * crow) :=
  frames ← lift (_read_frame_columns src r);
  now ← duck_now duck_clock;
  kpi ← lift (_read_kpi_columns src now r);
  bd ← _read_breakdown_columns src r;
  let summary := _run_summary src r in
  meta ← lift (_summary_meta summary);
  mret (frames, kpi, bd, summary, meta).

Definition rehydrate_run (r : string) (src : source) (force : bool) : eff duck Z :=
  held ← (if force then mret false else busy r);
  if held : bool then mret 0
  else
  has ← lift (src_has_run src r);
  if negb has then lift (Raise RunNotInStore)
  else
  g ← gather r src;
  let '(cols, n_frames, kpi, bd, summary, meta) := g in
  now ← duck_now duck_clock;
  exported ← duck_now duck_clock;
  let top := extreme Z.max (c_idx cols) in
  let meta := crow_update meta [("last_seen", CTime now); ("max_frame_idx", opt_cell top); ("source", CVal (PStr "rehydrated"))] in
  export ← (if c_truth (cget summary "complete")
    then rows ← lift (_as_int (cget summary "kpi_count")); frames ← lift (_as_int (cget summary "frame_count"));
         mret (Some (export_upsert r "exported" rows frames None exported))
    else mret None);
  if negb (bool_decide (c_lng cols = []) || even_columns cols) then lift (Raise ValueError)
  else
  _ ← transaction (restore_statements r (column_rows r cols) kpi bd meta export);
  mret (Z.of_nat n_frames).
End Lifecycle.

(** ** Sorting and selecting commute *)

Lemma filter_insert_sorted {A} (leb : A → A → bool) `{!TotalOn always leb} (P : A → Prop) `{∀ x, Decision (P x)} x l :
  sorted_by leb l →
  filter P (insert_sorted leb x l) = if decide (P x) then insert_sorted leb x (filter P l) else filter P l.
Proof.
  unfold sorted_by. intros Hs. induction Hs as [|y l Hs IH Hy]; simpl.
  { rewrite filter_cons, filter_nil. by case_decide. }
  destruct (leb x y) eqn:E.
  - rewrite filter_cons. case_decide; [|done].
    destruct (filter P (y :: l)) as [|z k] eqn:Ef; [done|]. simpl.
    assert (z ∈ y :: l) as Hz by (apply (list_elem_of_filter P); rewrite Ef; by left).
    replace (leb x z) with true; [done|]. apply elem_of_cons in Hz as [-> |Hz]; [done|].
    symmetry. apply (trans_on (P := always) x y z); try done. rewrite Forall_forall in Hy. auto.
  - rewrite !filter_cons, IH. destruct (decide (P y)), (decide (P x)); simpl; rewrite ?E; done.
Qed.

Lemma filter_py_sorted {A} (leb : A → A → bool) `{!TotalOn always leb} (P : A → Prop) `{∀ x, Decision (P x)} l :
  filter P (py_sorted leb l) = py_sorted leb (filter P l).
Proof.
  induction l as [|x l IH]; [done|]. cbn [py_sorted].
  rewrite filter_insert_sorted; [|done|apply (py_sorted_sorted leb always); by apply Forall_true].
  rewrite IH, filter_cons. by case_decide.
Qed.

#[export] Instance row_leb_total : TotalOn always row_leb.
Proof.
  unfold row_leb. split.
  - intros x y _ _. by apply (total_on (P := both always always) (leb := pair_leb Z.leb Z.leb)).
  - intros x y z _ _ _. by apply (trans_on (P := both always always) (leb := pair_leb Z.leb Z.leb)).
Qed.

(** ** Reading the frames of a run *)

Section Frames.
Context `{PyText, Numpy}.

(** All the frames of some rows, in order. *)
Definition all_frames (l : list frow) : list frame := window_frames (py_sorted row_leb l).

Lemma elem_of_window_frames l f :
  f ∈ window_frames l ↔ frame_of_rows (frame_idx f) (filter (λ x, fr_idx x = frame_idx f) l) = Some f.
Proof.
  unfold window_frames. rewrite list_elem_of_omap. split.
  - intros (i & _ & E). unfold frame_of_rows in *. destruct (filter (λ x, fr_idx x = i) l) as [|x k] eqn:Ef; [done|].
    injection E as <-. simpl. by rewrite Ef.
  - intros E. exists (frame_idx f). split; [|done]. rewrite elem_of_py_sorted, elem_of_remove_dups.
    destruct (filter (λ x, fr_idx x = frame_idx f) l) as [|x k] eqn:Ef; [done|].
    assert (x ∈ filter (λ x, fr_idx x = frame_idx f) l) as Hx by (rewrite Ef; by left).
    apply list_elem_of_filter in Hx as [<- Hx]. by apply list_elem_of_fmap_2.
Qed.

Lemma omap_ext_in {A B} (f g : A → option B) (l : list A) : (∀ a, a ∈ l → f a = g a) → omap f l = omap g l.
Proof.
  intros Hf. apply list_omap_ext. apply Forall2_same_length_lookup. split; [done|].
  intros i x y Hx Hy. simplify_eq. apply Hf. by eapply list_elem_of_lookup_2.
Qed.

(** Selecting none, selecting all. *)
Lemma filter_unmatched {A} (P : A → Prop) `{∀ x, Decision (P x)} (l : list A) : (∀ x, x ∈ l → ¬ P x) → filter P l = [].
Proof.
  induction l as [|x l IH]; intros Hn; [done|]. rewrite filter_cons_False by (apply Hn; by left).
  apply IH. intros; apply Hn; by right.
Qed.

Lemma filter_every {A} (P : A → Prop) `{∀ x, Decision (P x)} (l : list A) : (∀ x, x ∈ l → P x) → filter P l = l.
Proof.
  induction l as [|x l IH]; intros Hn; [done|]. rewrite filter_cons_True by (apply Hn; by left).
  f_equal. apply IH. intros; apply Hn; by right.
Qed.

Lemma sorted_app_below (l l' : list Z) :
  (∀ x y, x ∈ l → y ∈ l' → x < y) → base.NoDup l → base.NoDup l' →
  ∀ k, k ≡ₚ l ++ l' → py_sorted Z.leb k = py_sorted Z.leb l ++ py_sorted Z.leb l'.
Proof.
  intros Hlt Hl Hl' k Hk.
  assert (py_sorted Z.leb k = py_sorted Z.leb (l ++ l')) as ->.
  { apply (py_sorted_unique _ always); [by apply Forall_true| |done].
    intros x y _ _. rewrite !Z.leb_le. lia. }
  clear k Hk. induction l as [|x l IH]; [done|]. apply NoDup_cons in Hl as [Hx Hl]. cbn [app py_sorted].
  rewrite IH; [|intros; apply Hlt; [by right|done]|done].
  assert (∀ y, y ∈ py_sorted Z.leb l' → x < y) as Hb.
  { intros y. rewrite elem_of_py_sorted. apply Hlt. by left. }
  revert Hb. generalize (py_sorted Z.leb l) (py_sorted Z.leb l'). clear. intros k k'. induction k as [|z k IH]; intros Hb; simpl.
  - destruct k' as [|y k']; [done|]. simpl. specialize (Hb y). rewrite (proj2 (Z.leb_le x y)); [done|].
    assert (x < y); [|lia]. apply Hb. by left.
  - destruct (x <=? z); [done|]. simpl. by rewrite IH.
Qed.

(** The rows of the window [lo..hi]. *)
Definition within (lo hi : Z) (l : list frow) : list frow := filter (λ x, lo ≤ fr_idx x ∧ fr_idx x ≤ hi) l.

Lemma window_split l lo mid hi : lo ≤ mid + 1 → mid ≤ hi →
  window_frames (py_sorted row_leb (within lo hi l)) =
  window_frames (py_sorted row_leb (within lo mid l)) ++ window_frames (py_sorted row_leb (within (mid + 1) hi l)).
Proof.
  intros Hlo Hhi. unfold window_frames.
  assert (∀ a b x, x ∈ remove_dups (fr_idx <$> py_sorted row_leb (within a b l)) ↔ a ≤ x ≤ b ∧ x ∈ fr_idx <$> l) as Hin.
  { intros a b x. rewrite elem_of_remove_dups. rewrite !list_elem_of_fmap. split.
    - intros (y & -> & Hy). rewrite elem_of_py_sorted in Hy. apply list_elem_of_filter in Hy as [? ?]. eauto.
    - intros (Hx & y & -> & Hy). exists y. split; [done|]. rewrite elem_of_py_sorted. by apply list_elem_of_filter. }
  rewrite (sorted_app_below (remove_dups (fr_idx <$> py_sorted row_leb (within lo mid l)))
                            (remove_dups (fr_idx <$> py_sorted row_leb (within (mid + 1) hi l)))).
  - rewrite omap_app. f_equal; apply omap_ext_in; intros i; rewrite elem_of_py_sorted, Hin; intros [Hi _];
      rewrite !filter_py_sorted by apply row_leb_total; unfold within; rewrite !list_filter_filter; do 2 f_equal; apply list_filter_iff; intros x; lia.
  - intros x y. rewrite !Hin. lia.
  - apply NoDup_remove_dups.
  - apply NoDup_remove_dups.
  - apply list.NoDup_Permutation.
    + apply NoDup_remove_dups.
    + apply NoDup_app. split; [apply NoDup_remove_dups|]. split; [|apply NoDup_remove_dups].
      intros x. rewrite !Hin. intros [? _] [? _]. lia.
    + intros x. rewrite elem_of_app, !Hin. destruct (Z.le_gt_cases x mid); intuition lia.
Qed.

Lemma iter_windows_all fuel d r cursor hi : readable d = true → hi - cursor < Z.of_nat fuel →
  iter_windows fuel d r cursor hi = (window_frames (py_sorted row_leb (within cursor hi (run_rows r (rows d)))), None).
Proof.
  intros Hr. revert cursor. induction fuel as [|fuel IH]; intros cursor Hf; cbn [iter_windows].
  { unfold within. rewrite filter_unmatched; [done|]. intros x _. lia. }
  destruct (Z.ltb_spec hi cursor).
  { unfold within. rewrite filter_unmatched; [done|]. intros x _. lia. }
  unfold read_frames, select. rewrite Hr. rewrite IH by (unfold _ITER_WINDOW in *; lia). simpl. f_equal.
  rewrite (window_split _ cursor (Z.min (cursor + _ITER_WINDOW - 1) hi) hi) by (unfold _ITER_WINDOW; lia). done.
Qed.

Lemma iter_frames_all d r : readable d = true →
  iter_frames d r = (all_frames (run_rows r (rows d)), None).
Proof.
  intros Hr. unfold iter_frames, frame_range, select. rewrite Hr.
  set (l := run_rows r (rows d)). pose proof (extreme_min (fr_idx <$> l)) as Hlo. pose proof (extreme_max (fr_idx <$> l)) as Hhi.
  destruct (extreme Z.min _) as [lo|], (extreme Z.max _) as [hi|].
  - rewrite iter_windows_all by (done || lia). unfold all_frames, within. do 3 f_equal.
    apply filter_every. intros x Hx. apply (list_elem_of_fmap_2 fr_idx) in Hx. split; [by apply Hlo|by apply Hhi].
  - destruct Hlo as [Hlo _]. rewrite Hhi in Hlo. by apply elem_of_nil in Hlo.
  - destruct Hhi as [Hhi _]. rewrite Hlo in Hhi. by apply elem_of_nil in Hhi.
  - destruct l; [done|]. by rewrite fmap_cons in Hlo.
Qed.

(** C9: Reading a run in windows of 200 frame indices is invisible: [iter_frames] yields,
    in ascending order, exactly the frames its rows make, each with all of its rows. *)
Theorem windows_are_invisible d r : readable d = true →
  iter_frames d r = (all_frames (run_rows r (rows d)), None).
Proof. apply iter_frames_all. Qed.
End Frames.

(** ** What the statements do to the tables *)

Section Statements.
Context {K V : Type} `{Countable K}.

(** The last row of each key. *)
Definition last_rows (l : list (K * V)) : gmap K V := list_to_map (reverse l).

Lemma foldl_insert (l : list (K * V)) t : foldl (λ (t : gmap K V) p, <[p.1 := p.2]> t) t l = last_rows l ∪ t.
Proof.
  unfold last_rows. induction l as [|[k v] l IH] using rev_ind; [symmetry; apply map_empty_union|].
  rewrite foldl_snoc, IH, reverse_snoc. simpl. by rewrite insert_union_l.
Qed.

Lemma last_rows_in (l : list (K * V)) k : k ∈ l.*1 → is_Some (last_rows l !! k).
Proof.
  intros Hk. destruct (last_rows l !! k) eqn:E; [done|]. exfalso. unfold last_rows in E.
  apply not_elem_of_list_to_map in E. apply E. by rewrite fmap_reverse, elem_of_reverse.
Qed.

Lemma upsert_union (l : list (K * V)) (t : gmap K V) : upsert l t = last_rows l ∪ t.
Proof.
  unfold upsert. rewrite <- foldl_insert. revert t. induction l as [|[k v] l IH]; intros t; [done|]. simpl.
  case_bool_decide as Hk; simpl; rewrite IH; [|done]. rewrite !foldl_insert. apply map_eq. intros i.
  rewrite !lookup_union. destruct (decide (i = k)) as [-> |Hi]; [|by rewrite lookup_insert_ne].
  destruct (last_rows_in l k Hk) as [x ->]. by rewrite !union_Some_l.
Qed.
End Statements.

Lemma last_rows_for_run {K V} `{Countable K} (r r' : string) (l : list (K * V)) k :
  last_rows ((λ p, ((r, p.1), p.2)) <$> l) !! (r', k) = if decide (r' = r) then last_rows l !! k else None.
Proof.
  unfold last_rows. rewrite <- fmap_reverse. induction (reverse l) as [|[k' v] l' IH]; [by case_decide|].
  simpl. case_decide as E; subst.
  - destruct (decide (k' = k)) as [-> |Hk]; [by rewrite !lookup_insert_eq|].
    rewrite !lookup_insert_ne by congruence. done.
  - rewrite lookup_insert_ne by congruence. done.
Qed.

(** The rows of a run are those of another state. *)
Record same_run (r : string) (t t' : tables) : Prop := {
  same_frames : run_rows r t' = run_rows r t;
  same_kpi k : t_kpi t' !! (r, k) = t_kpi t !! (r, k);
  same_breakdown k : t_breakdown t' !! (r, k) = t_breakdown t !! (r, k);
  same_meta : t_meta t' !! r = t_meta t !! r;
  same_export : t_export t' !! r = t_export t !! r;
}.

Lemma same_run_refl r t : same_run r t t.
Proof. by split. Qed.

Lemma same_run_trans r t u v : same_run r t u → same_run r u v → same_run r t v.
Proof. intros [? ? ? ? ?] [? ? ? ? ?]. split; intros; congruence. Qed.

(** A statement about [r] touches no other run. *)
Definition local_to (r : string) (f : tables → tables) : Prop := ∀ r' t, r' ≠ r → same_run r' t (f t).

Lemma local_statements r fs t r' : Forall (local_to r) fs → r' ≠ r → same_run r' t (foldl (λ t f, f t) t fs).
Proof.
  intros Hf Hr. revert t. induction Hf as [|f fs Hf _ IH]; intros t; [apply same_run_refl|]. simpl.
  eapply same_run_trans; [by apply Hf|apply IH].
Qed.

Lemma run_rows_app r l l' t : run_rows r (set_frames (l ++ l') t) = run_rows r (set_frames l t) ++ run_rows r (set_frames l' t).
Proof. unfold run_rows. simpl. apply filter_app. Qed.

Lemma filter_key {K A} `{Countable K} (m : gmap (string * K) A) r r' k :
  filter (λ p : (string * K) * A, p.1.1 ≠ r) m !! (r', k) = if decide (r' = r) then None else m !! (r', k).
Proof.
  case_decide as Hr.
  - apply map_lookup_filter_None. right. intros a _. simpl. tauto.
  - destruct (m !! (r', k)) eqn:E; [by apply map_lookup_filter_Some|]. apply map_lookup_filter_None. by left.
Qed.

Section Local.
Context `{PyText, Numpy, DuckEnv}.

Ltac other_run := intros r' t Hr; split; intros; simpl; try done.

Lemma delete_frames_local r : local_to r (delete_frames r).
Proof.
  other_run. unfold run_rows. simpl. rewrite list_filter_filter. apply list_filter_iff. intros x. split; [tauto|].
  intros ->. done.
Qed.

Lemma delete_kpi_local r : local_to r (delete_kpi r).
Proof. other_run. rewrite filter_key. by rewrite decide_False. Qed.

Lemma delete_breakdown_local r : local_to r (delete_breakdown r).
Proof. other_run. rewrite filter_key. by rewrite decide_False. Qed.

Lemma delete_meta_local r : local_to r (delete_meta r).
Proof. other_run. by rewrite lookup_delete_ne. Qed.

Lemma delete_export_local r : local_to r (delete_export r).
Proof. other_run. by rewrite lookup_delete_ne. Qed.

Lemma frame_insert_local r new : Forall (λ x, fr_run x = r) new → local_to r (frame_insert new).
Proof.
  intros Hn. other_run. unfold frame_insert. rewrite run_rows_app. unfold run_rows at 2. simpl.
  rewrite (filter_unmatched _ new), app_nil_r; [by destruct t|]. intros x Hx E. rewrite Forall_forall in Hn.
  specialize (Hn x Hx). congruence.
Qed.

Lemma kpi_insert_local r l : local_to r (kpi_insert r l).
Proof.
  other_run. unfold kpi_insert, kpi_columns. simpl. rewrite upsert_union, lookup_union, last_rows_for_run, decide_False by done.
  by rewrite (left_id_L None (∪)).
Qed.

Lemma breakdown_insert_local r l : local_to r (breakdown_insert r l).
Proof.
  other_run. unfold breakdown_insert. simpl. rewrite upsert_union, lookup_union, last_rows_for_run, decide_False by done.
  by rewrite (left_id_L None (∪)).
Qed.

Lemma meta_upsert_local r fields : local_to r (meta_upsert r fields).
Proof. other_run. by rewrite lookup_insert_ne. Qed.

Lemma export_upsert_local r a b c e now : local_to r (export_upsert r a b c e now).
Proof. other_run. by rewrite lookup_insert_ne. Qed.

Lemma zip_frows_run r l1 l2 l3 l4 l5 l6 l7 : Forall (λ x, fr_run x = r) (zip_frows r l1 l2 l3 l4 l5 l6 l7).
Proof.
  revert l2 l3 l4 l5 l6 l7.
  induction l1; intros [|? ?] [|? ?] [|? ?] [|? ?] [|? ?] [|? ?]; simpl; constructor; auto.
Qed.
End Local.

#[local] Hint Resolve delete_frames_local delete_kpi_local delete_breakdown_local delete_meta_local delete_export_local
  frame_insert_local kpi_insert_local breakdown_insert_local meta_upsert_local export_upsert_local zip_frows_run
  same_run_refl : duck.

(** ** A rehydration is all or nothing *)

Section Rehydration.
Context `{PyText, Numpy, DuckEnv}.

Definition at_tables (t : tables) (d : duck) : Prop := rows d = t.

Lemma faulty_rows d : rows (faulty d).2 = rows d.
Proof. unfold faulty. by destruct (faults d). Qed.

Lemma statements_run fs t d : rows (statements fs t d).2 = rows d ∧
  ∀ t', (statements fs t d).1 = Ok t' → t' = foldl (λ t f, f t) t fs.
Proof.
  revert t d. induction fs as [|f fs IH]; intros t d; cbn [statements].
  { split; [done|]. intros t' [= <-]. done. }
  pose proof (faulty_rows d) as Hd. destruct (faulty d) as [b d']. simpl in Hd. destruct b; [done|].
  rewrite <- Hd. apply IH.
Qed.

Lemma transaction_all_or_nothing fs t :
  hoare (at_tables t) (transaction fs) (λ _, at_tables (foldl (λ t f, f t) t fs)) (at_tables t).
Proof.
  intros d <-. unfold transaction. pose proof (faulty_rows d) as Hd. destruct (faulty d) as [b d']. simpl in Hd.
  destruct b; [done|]. pose proof (statements_run fs (rows d') d') as [Hr Hok].
  destruct (statements fs (rows d') d') as [[t'|e] d'']; simpl in *; [|by unfold at_tables; rewrite Hr].
  specialize (Hok t' eq_refl). pose proof (faulty_rows d'') as Hd''. destruct (faulty d'') as [b d3]. simpl in Hd''.
  unfold at_tables. destruct b; [by rewrite Hd'', Hr|]. simpl. by rewrite Hok, Hd.
Qed.

Lemma reading_hoare {A} (f : tables → A) t : hoare (at_tables t) (reading f) (λ a d, at_tables t d ∧ a = f t) (at_tables t).
Proof. intros d <-. unfold reading, select. by destruct (readable d). Qed.

Lemma duck_now_keeps t : preserves (at_tables t) (duck_now duck_clock).
Proof. intros d <-. done. Qed.

Lemma lift_known {A} t (x : result A) : hoare (at_tables t) (lift x) (λ a d, at_tables t d ∧ x = Ok a) (at_tables t).
Proof. apply hoare_lift. intros d <-. by destruct x. Qed.

(** Where restored breakdown rows come from; none are restored when the source has no
    answer to interpret. *)
Definition supplied (src : source) (r : string) (bd : option (list (bd_key * crow))) : Prop :=
  ∀ l, bd = Some l →
    (∃ fn rows now, src_breakdown_columns src = Some fn ∧ fn r = Ok (Columns rows) ∧ _adopt_columns now rows = Ok l) ∨
    (∃ fn rows now, src_breakdown_rows src = Some fn ∧ fn r = Ok rows ∧ adopt_rows now rows = Ok l).

Lemma breakdown_by_rows_supplied src r t :
  hoare (at_tables t) (breakdown_by_rows src r) (λ bd d, at_tables t d ∧ supplied src r bd) (at_tables t).
Proof.
  unfold breakdown_by_rows. destruct (src_breakdown_rows src) as [fn|] eqn:Ef; [|by apply hoare_ret].
  eapply hoare_bind; [apply lift_known|]. intros rows. apply (hoare_prop _ (fn r = Ok rows)); [by intros d [_ ?]|]. intros Hr.
  eapply hoare_bind; [eapply hoare_pre; [apply duck_now_keeps|by intros d [? _]]|]. intros now.
  eapply hoare_bind; [apply lift_known|]. intros l. apply hoare_ret. intros d [Hd Hl].
  split; [done|]. intros l' [= <-]. right. by eexists _, _, _.
Qed.

Lemma _read_breakdown_columns_supplied src r t :
  hoare (at_tables t) (_read_breakdown_columns src r) (λ bd d, at_tables t d ∧ supplied src r bd) (at_tables t).
Proof.
  unfold _read_breakdown_columns.
  destruct (src_breakdown_columns src) as [fn|] eqn:Ef; [|apply breakdown_by_rows_supplied].
  eapply hoare_bind; [apply lift_known|]. intros a. apply (hoare_prop _ (fn r = Ok a)); [by intros d [_ ?]|]. intros Ha.
  apply hoare_pre with (at_tables t); [|by intros d [? _]]. destruct a as [| |rows]; [|apply breakdown_by_rows_supplied|].
  - eapply hoare_bind; [apply reading_hoare|]. intros n. destruct (n =? 0)%nat.
    + apply hoare_lift. intros d [Hd _]. done.
    + apply hoare_ret. intros d [Hd _]. done.
  - eapply hoare_bind; [apply duck_now_keeps|]. intros now. eapply hoare_bind; [apply lift_known|]. intros l.
    apply hoare_ret. intros d [Hd Hl]. split; [done|]. intros l' [= <-]. left. by eexists _, _, _.
Qed.

(** What a restored run is made of. *)
Definition restored (src : source) (r : string) (t : tables) (n : Z) (t' : tables) : Prop :=
  ∃ cols k now kpi bd,
    _read_frame_columns src r = Ok (cols, k) ∧ n = Z.of_nat k ∧
    _read_kpi_columns src now r = Ok kpi ∧ supplied src r bd ∧
    run_rows r t' = column_rows r cols ∧
    (∀ key, t_kpi t' !! (r, key) = last_rows kpi !! key) ∧
    (∀ key, t_breakdown t' !! (r, key) =
      match bd with Some l => last_rows l !! key | None => t_breakdown t !! (r, key) end) ∧
    is_Some (t_meta t' !! r).

Definition any_export (r : string) (f : option (tables → tables)) : Prop :=
  ∀ g, f = Some g → ∃ a b c e now, g = export_upsert r a b c e now.

Lemma restore_local r frows kpi bd meta export :
  Forall (λ x, fr_run x = r) frows → any_export r export →
  Forall (local_to r) (restore_statements r frows kpi bd meta export).
Proof.
  intros Hf He. unfold restore_statements. repeat (apply Forall_app; split).
  - rewrite ?Forall_cons, ?Forall_nil; auto with duck.
  - destruct bd; rewrite ?Forall_cons, ?Forall_nil; auto with duck.
  - case_bool_decide; rewrite ?Forall_cons, ?Forall_nil; auto with duck.
  - case_bool_decide; rewrite ?Forall_cons, ?Forall_nil; auto with duck.
  - destruct bd; [case_bool_decide|]; rewrite ?Forall_cons, ?Forall_nil; auto with duck.
  - rewrite ?Forall_cons, ?Forall_nil; auto with duck.
  - destruct export as [g|]; [|constructor]. destruct (He g eq_refl) as (? & ? & ? & ? & ? & ->). rewrite ?Forall_cons, ?Forall_nil; auto with duck.
Qed.

Ltac settle_tables :=
  repeat match goal with
  | |- context [bool_decide ?P] => destruct (bool_decide_reflect P); subst
  end.

Lemma restore_exactly r frows kpi bd meta export t :
  Forall (λ x, fr_run x = r) frows → any_export r export →
  let t' := foldl (λ t f, f t) t (restore_statements r frows kpi bd meta export) in
  run_rows r t' = frows ∧
  (∀ key, t_kpi t' !! (r, key) = last_rows kpi !! key) ∧
  (∀ key, t_breakdown t' !! (r, key) =
    match bd with Some l => last_rows l !! key | None => t_breakdown t !! (r, key) end) ∧
  t_meta t' !! r = Some (crow_update (default [] (t_meta t !! r)) (filter (λ p, p.1 ∈ _RUN_META_COLUMNS) meta)).
Proof.
  intros Hf He t'.
  set (t1 := foldl (λ t f, f t) t (restore_statements r frows kpi bd meta None)).
  assert (t_frames t' = t_frames t1 ∧ t_kpi t' = t_kpi t1 ∧ t_breakdown t' = t_breakdown t1 ∧ t_meta t' = t_meta t1) as (E1 & E2 & E3 & E4).
  { subst t' t1. unfold restore_statements. rewrite !foldl_app. destruct export as [g|]; [|done].
    destruct (He g eq_refl) as (? & ? & ? & ? & ? & ->). done. }
  unfold run_rows. rewrite E1, E2, E3, E4. clear E1 E2 E3 E4 t' He. subst t1.
  assert (filter (λ x, fr_run x = r) (filter (λ x, fr_run x ≠ r) (t_frames t)) = []) as Hgone.
  { apply filter_unmatched. intros x Hx. by apply list_elem_of_filter in Hx as [? _]. }
  assert (filter (λ x, fr_run x = r) frows = frows) as Hall.
  { apply filter_every. by rewrite Forall_forall in Hf. }
  assert (∀ key, filter (λ p, p.1.1 ≠ r) (t_kpi t) !! (r, key) = None) as Hk.
  { intros key. rewrite filter_key. by rewrite decide_True. }
  assert (∀ key, filter (λ p, p.1.1 ≠ r) (t_breakdown t) !! (r, key) = None) as Hb.
  { intros key. rewrite filter_key. by rewrite decide_True. }
  unfold restore_statements. settle_tables; destruct bd as [l|]; settle_tables; simpl;
    rewrite ?filter_app, ?Hgone, ?Hall; (split; [done|]); (split; [|split; [|by rewrite lookup_insert_eq]]); intros key;
    unfold kpi_columns; rewrite ?upsert_union, ?lookup_union, ?last_rows_for_run, ?decide_True by done;
    rewrite ?Hk, ?Hb, ?(right_id_L None (∪)); done.
Qed.

Lemma gather_hoare r src t :
  hoare (at_tables t) (gather r src)
    (λ '(frames, kpi, bd, summary, meta) d, at_tables t d ∧ _read_frame_columns src r = Ok frames ∧
       (∃ now, _read_kpi_columns src now r = Ok kpi) ∧ supplied src r bd) (at_tables t).
Proof.
  unfold gather. eapply hoare_bind; [apply lift_known|]. intros frames.
  apply (hoare_prop _ (_read_frame_columns src r = Ok frames)); [by intros d [_ ?]|]. intros Hf.
  eapply hoare_bind; [eapply hoare_pre; [apply duck_now_keeps|by intros d [? _]]|]. intros now.
  eapply hoare_bind; [apply lift_known|]. intros kpi.
  apply (hoare_prop _ (_read_kpi_columns src now r = Ok kpi)); [by intros d [_ ?]|]. intros Hk.
  eapply hoare_bind; [eapply hoare_pre; [apply _read_breakdown_columns_supplied|by intros d [? _]]|]. intros bd.
  apply (hoare_prop _ (supplied src r bd)); [by intros d [_ ?]|]. intros Hb.
  eapply hoare_bind; [eapply hoare_pre; [apply lift_known|by intros d [? _]]|]. intros meta.
  apply hoare_ret. intros d [Hd _]. eauto.
Qed.

Definition rehydrate_post (r : string) (src : source) (t : tables) (n : Z) (d : duck) : Prop :=
  (∀ r', r' ≠ r → same_run r' t (rows d)) ∧
  (rows d = t ∧ n = 0 ∨ src_has_run src r = Ok true ∧ restored src r t n (rows d)).

Lemma rehydrate_run_post r src force t :
  hoare (at_tables t) (rehydrate_run r src force)
    (λ n d, rehydrate_post r src t n d ∧ (force = true → src_has_run src r = Ok true ∧ restored src r t n (rows d))) (at_tables t).
Proof.
  unfold rehydrate_run.
  eapply hoare_bind with (R := λ held d, at_tables t d ∧ (force = true → held = false)).
  { destruct force; [by apply hoare_ret|]. eapply hoare_post; [apply reading_hoare|]. by intros a d' [? _]. }
  intros held. apply (hoare_prop _ (force = true → held = false)); [by intros d [_ ?]|]. intros Hheld.
  apply hoare_pre with (at_tables t); [|by intros d [? _]]. destruct held.
  { apply hoare_ret. intros d' Hd. split; [|by intros ?%Hheld]. split; [|by left]. intros r' _. rewrite Hd. apply same_run_refl. }
  eapply hoare_bind; [apply lift_known|]. intros has. destruct has; [|by apply hoare_lift; intros d' [? _]].
  apply (hoare_prop _ (src_has_run src r = Ok true)); [by intros d' [_ ?]|]. intros Hhas. cbn [negb].
  eapply hoare_bind; [eapply hoare_pre; [apply gather_hoare|by intros d' [? _]]|].
  intros [[[[[cols k] kpi] bd] summary] meta].
  apply (hoare_prop _ (_read_frame_columns src r = Ok (cols, k) ∧ (∃ now, _read_kpi_columns src now r = Ok kpi) ∧ supplied src r bd));
    [by intros d' [_ ?]|]. intros (Hf & [now0 Hk] & Hb).
  eapply hoare_bind; [eapply hoare_pre; [apply duck_now_keeps|by intros d' [? _]]|]. intros now.
  eapply hoare_bind; [apply duck_now_keeps|]. intros exported. cbv zeta.
  eapply hoare_bind with (R := λ e d, at_tables t d ∧ any_export r e).
  { destruct (c_truth _); [|apply hoare_ret; intros d' Hd; by split].
    eapply hoare_bind; [apply preserves_lift|]. intros a. eapply hoare_bind; [apply preserves_lift|]. intros b.
    apply hoare_ret. intros d' Hd. split; [done|]. intros g [= <-]. eauto 6. }
  intros export. apply (hoare_prop _ (any_export r export)); [by intros d' [_ ?]|]. intros He.
  apply hoare_pre with (at_tables t); [|by intros d' [? _]].
  destruct (negb _); [by apply hoare_lift|].
  eapply hoare_bind; [apply transaction_all_or_nothing|]. intros []. apply hoare_ret. intros d' Hd.
  assert (Forall (λ x, fr_run x = r) (column_rows r cols)) as Hrun by apply zip_frows_run.
  unfold rehydrate_post. unfold at_tables in Hd. rewrite Hd.
  match goal with |- context [restore_statements r (column_rows r cols) kpi bd ?m export] => set (fields := m) end.
  set (t' := foldl _ t _).
  enough ((∀ r', r' ≠ r → same_run r' t t') ∧ src_has_run src r = Ok true ∧ restored src r t (Z.of_nat k) t') as [? ?] by tauto.
  split.
  - intros r' Hr. apply (local_statements r); [|done]. by apply restore_local.
  - split; [done|]. exists cols, k, now0, kpi, bd.
    pose proof (restore_exactly r (column_rows r cols) kpi bd fields export t Hrun He) as (E1 & E2 & E3 & E4).
    repeat (split; [done|]). by eexists.
Qed.

End Rehydration.

(** ** The working set as the reader of a dump *)

(** Identifiers of one run tell its rows apart. *)
Lemma free_of_app c s t : free_of c s → free_of c t → free_of c (s +:+ t).
Proof.
  intros Hs Ht. induction s as [|a s IH]; [done|]. change (free_of c (String a (s +:+ t))). destruct Hs as [? ?].
  split; auto.
Qed.

Lemma free_of_digits w z : free_of "|"%char (digits w z).
Proof.
  revert z. induction w as [|w IH]; intros z; [done|]. cbn [digits free_of]. split; [|apply IH].
  assert (0 ≤ (z / 10 ^ Z.of_nat w) mod 10 < 10) as Hb by (apply Z.mod_pos_bound; lia).
  intros E%(f_equal Ascii.N_of_ascii). rewrite Ascii.N_ascii_embedding in E by lia.
  change (Ascii.N_of_ascii "|"%char) with 124%N in E. lia.
Qed.

Lemma free_of_isoformat t : free_of "|"%char (isoformat "T" t).
Proof.
  unfold isoformat. repeat (apply free_of_app; [try apply free_of_digits; try by repeat split|]).
  case_match; [done|]. apply free_of_app; [by repeat split|apply free_of_digits].
Qed.

Lemma isoformat_inj t u : dt_ok t → dt_ok u → isoformat "T" t = isoformat "T" u → t = u.
Proof.
  intros Ht Hu E. assert (dt_compare t u = Eq) as Hc.
  { rewrite <- (isoformat_compare "T") by done. rewrite E, (isoformat_compare "T") by done. apply compare_fields_refl. }
  apply compare_fields_eq in Hc. destruct t, u. unfold dt_fields in Hc. simpl in Hc. congruence.
Qed.

Lemma split_at_last c m m' s s' :
  free_of c s → free_of c s' → m +:+ String c s = m' +:+ String c s' → m = m' ∧ s = s'.
Proof.
  assert (∀ s x y, free_of c s → s ≠ x +:+ String c y) as Hno.
  { clear. induction s as [|a s IH]; intros [|b x] y Hs; simpl in Hs.
    - done.
    - done.
    - intros E. change (String a s = String c y) in E. injection E as -> _. tauto.
    - intros E. change (String a s = String b (x +:+ String c y)) in E. injection E as -> E. destruct Hs. by eapply IH. }
  intros Hs Hs'. revert m'. induction m as [|a m IH]; intros [|b m'] E.
  - by injection E.
  - change (String c s = String b (m' +:+ String c s')) in E. injection E as -> E. by apply Hno in E.
  - change (String a (m +:+ String c s) = String c s') in E. injection E as -> E. symmetry in E. by apply Hno in E.
  - change (String a (m +:+ String c s) = String b (m' +:+ String c s')) in E. injection E as -> E.
    by destruct (IH m' E) as [-> ->].
Qed.

Lemma string_app_inj r s s' : r +:+ s = r +:+ s' → s = s'.
Proof.
  induction r as [|a r IH]; [done|]. intros E. change (String a (r +:+ s) = String a (r +:+ s')) in E.
  injection E as E. auto.
Qed.

Lemma kpi_id_inj r m m' c c' : dt_ok c → dt_ok c' → kpi_id r m c = kpi_id r m' c' → m = m' ∧ c = c'.
Proof.
  unfold kpi_id. intros Hc Hc' E%string_app_inj. change (String "|" (m +:+ String "|" (isoformat "T" c)) = String "|" (m' +:+ String "|" (isoformat "T" c'))) in E.
  injection E as E. apply split_at_last in E as [-> E]; [|apply free_of_isoformat..]. split; [done|]. by apply isoformat_inj.
Qed.

Section BreakdownIds.
Context `{PyText}.

Lemma breakdown_id_inj r s s' c c' e e' :
  free_of "|"%char s → free_of "|"%char s' → dt_ok c → dt_ok c' →
  breakdown_id r s (CTime c) e = breakdown_id r s' (CTime c') e' → s = s' ∧ c = c' ∧ e = e'.
Proof.
  unfold breakdown_id. intros Hs Hs' Hc Hc' E%string_app_inj.
  change (String "|" (s +:+ String "|" (isoformat "T" c +:+ String "|" e)) = String "|" (s' +:+ String "|" (isoformat "T" c' +:+ String "|" e'))) in E.
  injection E as E. apply split_at_sep in E as [-> E]; [|done..]. split; [done|].
  apply split_at_sep in E as [E ->]; [|apply free_of_isoformat..]. split; [|done]. by apply isoformat_inj.
Qed.
End BreakdownIds.

(** A table under identifiers of its own. *)
Lemma keyed_lookup {A V} (id : A → string) (g : A → V) (l : list A) i v :
  (∀ a b, a ∈ l → b ∈ l → id a = id b → a = b) →
  (list_to_map (map (λ a, (id a, g a)) l) : gmap string V) !! i = Some v ↔ ∃ a, a ∈ l ∧ i = id a ∧ v = g a.
Proof.
  intros Hid. split.
  - intros E%elem_of_list_to_map_2. apply list_elem_of_fmap in E as (a & E & Ha). injection E as -> ->. eauto.
  - intros (a & Ha & -> & ->). apply elem_of_list_to_map_1'.
    + intros y E. apply list_elem_of_fmap in E as (b & E & Hb). injection E as E ->. by rewrite (Hid a b).
    + apply list_elem_of_fmap. eauto.
Qed.

(** What the writes keep true of the tables: indices and timestamps are in range, a
    scope holds no separator, a breakdown row has its ingestion time. *)
Record tables_ok (t : tables) : Prop := {
  frames_ok : Forall (λ x, 0 ≤ fr_idx x) (t_frames t);
  kpi_ok r m c v ing : t_kpi t !! (r, (m, c)) = Some (v, ing) → dt_ok c ∧ dt_ok ing;
  breakdown_ok r s c e row : t_breakdown t !! (r, (s, (c, e))) = Some row →
    free_of "|"%char s ∧ dt_ok c ∧ ∃ ing, cget row "ingested_at" = CTime ing ∧ dt_ok ing;
}.

Section Reader.
Context `{PyText, Numpy}.

Definition duck_store : Type := { d : duck | tables_ok (rows d) }.
Definition duck_of (s : duck_store) : duck := proj1_sig s.

#[export] Instance duck_store_reader : DuckReader duck_store := {
  Archive.list_run_ids s := list_run_ids (duck_of s);
  Archive.iter_frames s := iter_frames (duck_of s);
  Archive.read_kpi_events s := read_kpi_events (duck_of s);
  Archive.get_run_meta := Some (λ s, get_run_meta (duck_of s));
  Archive.get_export_state := Some (λ s, get_export_state (duck_of s));
  Archive.frame_range := Some (λ s, frame_range (duck_of s));
  Archive.kpi_row_count := Some (λ s, kpi_row_count (duck_of s));
  Archive.read_breakdown_rows := None;
  Archive.query := Some (Sql (λ s, select_rows (duck_of s))
    (λ s r, n ← breakdown_row_count (duck_of s) r; Ok (Some n)) (λ s, max_ingested_at (duck_of s)));
}.

Definition frames_held (r : string) (t : tables) : gmap Z frame :=
  list_to_map ((λ f, (frame_idx f, f)) <$> all_frames (run_rows r t)).

Definition kpi_held (r : string) (t : tables) : gmap string (kpi_row * datetime) :=
  list_to_map (map (λ p, (kpi_id r p.1.1 p.1.2, (KpiRow r p.1.1 p.2.1 p.1.2, p.2.2))) (run_kpi r t)).

Definition breakdown_held (r : string) (t : tables) : gmap string (crow * datetime) :=
  list_to_map (map (λ p, (breakdown_id r p.1.1 (CTime p.1.2.1) p.1.2.2,
                          (bd_row r p, default (DateTime 0 0 0 0 0 0 0) (row_time p.2)))) (run_breakdown r t)).

Lemma frames_held_lookup r t i f :
  frames_held r t !! i = Some f ↔ f ∈ all_frames (run_rows r t) ∧ frame_idx f = i.
Proof.
  unfold frames_held. split.
  - intros E%elem_of_list_to_map_2. apply list_elem_of_fmap in E as (f' & [= -> ->] & Hf). done.
  - intros [Hf <-]. apply elem_of_list_to_map_1'.
    + intros f' E. apply list_elem_of_fmap in E as (f'' & E & Hf'). injection E as E ->.
      apply elem_of_window_frames in Hf, Hf'. rewrite E in Hf. congruence.
    + apply list_elem_of_fmap. eauto.
Qed.

Lemma elem_of_run_kpi r t k x : (k, x) ∈ run_kpi r t ↔ t_kpi t !! (r, k) = Some x.
Proof.
  unfold run_kpi. rewrite list_elem_of_omap. split.
  - intros ([[r' k'] x'] & Hin & E). simpl in E. case_bool_decide; [|done]. simplify_eq. by apply elem_of_map_to_list.
  - intros E. exists ((r, k), x). rewrite elem_of_map_to_list. simpl. by rewrite bool_decide_true.
Qed.

Lemma elem_of_run_breakdown r t k x : (k, x) ∈ run_breakdown r t ↔ t_breakdown t !! (r, k) = Some x.
Proof.
  unfold run_breakdown. rewrite list_elem_of_omap. split.
  - intros ([[r' k'] x'] & Hin & E). simpl in E. case_bool_decide; [|done]. simplify_eq. by apply elem_of_map_to_list.
  - intros E. exists ((r, k), x). rewrite elem_of_map_to_list. simpl. by rewrite bool_decide_true.
Qed.

Lemma kpi_held_lookup r t id y : tables_ok t →
  kpi_held r t !! id = Some y ↔
  ∃ m c v ing, t_kpi t !! (r, (m, c)) = Some (v, ing) ∧ id = kpi_id r m c ∧ y = (KpiRow r m v c, ing).
Proof.
  intros Ht. unfold kpi_held. rewrite keyed_lookup.
  - split.
    + intros ([[m c] [v ing]] & Hin%elem_of_run_kpi & -> & ->). eauto 7.
    + intros (m & c & v & ing & E%elem_of_run_kpi & -> & ->). by exists ((m, c), (v, ing)).
  - intros [[m c] [v ing]] [[m' c'] [v' ing']] Ha%elem_of_run_kpi Hb%elem_of_run_kpi E. simpl in E.
    destruct (kpi_ok _ Ht _ _ _ _ _ Ha) as [? _], (kpi_ok _ Ht _ _ _ _ _ Hb) as [? _].
    apply kpi_id_inj in E as [-> ->]; [|done..]. congruence.
Qed.

Lemma breakdown_held_lookup r t id y : tables_ok t →
  breakdown_held r t !! id = Some y ↔
  ∃ s c e row ing, t_breakdown t !! (r, (s, (c, e))) = Some row ∧ cget row "ingested_at" = CTime ing ∧
    id = breakdown_id r s (CTime c) e ∧ y = (bd_row r ((s, (c, e)), row), ing).
Proof.
  intros Ht. unfold breakdown_held. rewrite keyed_lookup.
  - split.
    + intros ([[s [c e]] row] & Hin%elem_of_run_breakdown & -> & ->).
      destruct (breakdown_ok _ Ht _ _ _ _ _ Hin) as (_ & _ & ing & Hi & _). exists s, c, e, row, ing.
      repeat (split; [done|]). unfold row_time. simpl. by rewrite Hi.
    + intros (s & c & e & row & ing & E%elem_of_run_breakdown & Hi & -> & ->). exists ((s, (c, e)), row).
      repeat (split; [done|]). unfold row_time. simpl. by rewrite Hi.
  - intros [[s [c e]] row] [[s' [c' e']] row'] Ha%elem_of_run_breakdown Hb%elem_of_run_breakdown E. simpl in E.
    destruct (breakdown_ok _ Ht _ _ _ _ _ Ha) as (? & ? & _), (breakdown_ok _ Ht _ _ _ _ _ Hb) as (? & ? & _).
    apply breakdown_id_inj in E as (-> & -> & ->); [|done..]. congruence.
Qed.

Lemma dt_max_spec t u : (dt_max t u = t ∨ dt_max t u = u) ∧ dt_le t (dt_max t u) ∧ dt_le u (dt_max t u).
Proof.
  unfold dt_max. destruct (dt_compare t u) eqn:E.
  - apply compare_fields_eq in E. split; [by left|]. split; [apply dt_le_refl|]. unfold dt_le, dt_compare. rewrite E.
    by rewrite compare_fields_refl.
  - split; [by right|]. split; [by apply dt_lt_le|apply dt_le_refl].
  - split; [by left|]. split; [apply dt_le_refl|]. apply dt_lt_le. unfold dt_lt, dt_compare in *.
    rewrite compare_fields_swap. by rewrite E.
Qed.

Lemma latest_spec l : match latest l with
  | Some u => u ∈ l ∧ ∀ t, t ∈ l → dt_le t u
  | None => l = []
  end.
Proof.
  destruct l as [|t l]; [done|]. simpl.
  assert ((foldl dt_max t l = t ∨ foldl dt_max t l ∈ l) ∧ dt_le t (foldl dt_max t l) ∧ ∀ x, x ∈ l → dt_le x (foldl dt_max t l)) as ([E|E] & Ht & Hl).
  { revert t. induction l as [|u l IH]; intros t; simpl.
    { split; [by left|]. split; [apply dt_le_refl|]. by intros x ?%elem_of_nil. }
    destruct (dt_max_spec t u) as (E & H1 & H2), (IH (dt_max t u)) as (E' & H1' & H2'). rewrite !elem_of_cons.
    split; [|split].
    - destruct E' as [-> | ?]; [|by auto]. destruct E; auto.
    - by eapply dt_le_trans.
    - intros x [-> | ?]%elem_of_cons; [by eapply dt_le_trans|auto]. }
  - split; [rewrite E; by left|]. intros x [-> | ?]%elem_of_cons; auto.
  - split; [by right|]. intros x [-> | ?]%elem_of_cons; auto.
Qed.

(** The answer to [max(ingested_at)] over rows kept under identifiers. *)
Lemma newest_latest {Row} (tbl : gmap string (Row * datetime)) (l : list datetime) :
  (∀ t, t ∈ l ↔ ∃ id row, tbl !! id = Some (row, t)) →
  newest tbl (Some match latest l with Some u => CTime u | None => CVal PNone end).
Proof.
  intros Hl. pose proof (latest_spec l) as Hs. destruct (latest l) as [u|]; simpl.
  - destruct Hs as [Hu Hle]. split; [by apply Hl|]. intros id [row t] E. apply Hle, Hl. eauto.
  - apply map_eq. intros id. rewrite lookup_empty. destruct (tbl !! id) as [[row t]|] eqn:E; [|done].
    assert (t ∈ l) as Ht by (apply Hl; eauto). rewrite Hs in Ht. by apply elem_of_nil in Ht.
Qed.

Lemma iter_frames_readable d r fs e : iter_frames d r = (fs, e) →
  fs = [] ∧ is_Some e ∨ fs = all_frames (run_rows r (rows d)) ∧ e = None.
Proof.
  destruct (readable d) eqn:Hr.
  - rewrite iter_frames_all by done. intros [= <- <-]. by right.
  - unfold iter_frames, frame_range, select. rewrite Hr. intros [= <- <-]. left. eauto.
Qed.

Lemma elem_of_all_frames_idx r t i :
  (∃ f, f ∈ all_frames (run_rows r t) ∧ frame_idx f = i) ↔ i ∈ fr_idx <$> run_rows r t.
Proof.
  split.
  - intros (f & Hf%elem_of_window_frames & <-). destruct (filter _ _) as [|x k] eqn:E in Hf; [done|].
    assert (x ∈ x :: k) as Hx by by left. rewrite <- E in Hx. apply list_elem_of_filter in Hx as [<- Hx].
    rewrite elem_of_py_sorted in Hx. by apply list_elem_of_fmap_2.
  - intros Hi. apply list_elem_of_fmap in Hi as (x & -> & Hx).
    assert (x ∈ filter (λ y, fr_idx y = fr_idx x) (py_sorted row_leb (run_rows r t))) as Hx'.
    { apply list_elem_of_filter. by rewrite elem_of_py_sorted. }
    destruct (filter _ _) as [|y k] eqn:E in Hx'; [by apply elem_of_nil in Hx'|].
    exists (Frame (fr_idx x) (fr_time y) (fr_lng <$> y :: k) (fr_lat <$> y :: k) (fr_slot <$> y :: k) (fr_state <$> y :: k)
              (fr_haulier <$> y :: k) KIND_KEYFRAME FRAME_VERSION).
    split; [|done]. apply elem_of_window_frames. simpl frame_idx. by rewrite E.
Qed.

Lemma bd_row_run r p : cget (bd_row r p) "run_id" = CVal (PStr r).
Proof. reflexivity. Qed.
Lemma bd_row_scope r p : cget (bd_row r p) "scope" = CVal (PStr p.1.1).
Proof. reflexivity. Qed.
Lemma bd_row_clock r p : cget (bd_row r p) "sim_clock" = CTime p.1.2.1.
Proof. reflexivity. Qed.
Lemma bd_row_entity r p : cget (bd_row r p) "entity_id" = CVal (PStr p.1.2.2).
Proof. reflexivity. Qed.

Lemma or_str_str s d : (s = "" → d = "") → or_str (CVal (PStr s)) d = s.
Proof. intros Hs. unfold or_str. cbn. case_bool_decide; [|done]. subst. cbn. auto. Qed.

(** The archive's identifier of a row is the one the row is held under. *)
Lemma bd_row_doc_id r now p :
  fst <$> breakdown_row_to_doc r now (bd_row r p) = Some (breakdown_id r p.1.1 (CTime p.1.2.1) p.1.2.2).
Proof.
  unfold breakdown_row_to_doc. rewrite bd_row_entity, bd_row_run, bd_row_scope, bd_row_clock.
  rewrite !or_str_str by done. done.
Qed.

Definition store_held (s : duck_store) (r : string) : holding :=
  Holding (frames_held r (rows (duck_of s))) (kpi_held r (rows (duck_of s))) (breakdown_held r (rows (duck_of s))).

#[export] Instance duck_store_laws : DuckReaderLaws duck_store.
Proof.
  refine {| held := store_held |}.
  - intros [d Hd] r. split; simpl.
    + intros i f [Hf <-]%frames_held_lookup. split; [done|].
      assert (frame_idx f ∈ fr_idx <$> run_rows r (rows d)) as Hi by (apply elem_of_all_frames_idx; eauto).
      apply list_elem_of_fmap in Hi as (x & -> & Hx). apply list_elem_of_filter in Hx as [_ Hx].
      pose proof (frames_ok _ Hd) as Hall. rewrite Forall_forall in Hall. auto.
    + intros id row t (m & c & v & ing & E & -> & [= -> ->])%(kpi_held_lookup _ _ _ _ Hd). split; [done|].
      split; [|by apply (kpi_ok _ Hd) in E as [_ ?]]. unfold kpi_row_to_doc. simpl. by case_bool_decide; subst.
    + intros id row t (s & c & e & row' & ing & E & Hi & -> & [= -> ->])%(breakdown_held_lookup _ _ _ _ Hd).
      destruct (breakdown_ok _ Hd _ _ _ _ _ E) as (_ & _ & ing' & Hi' & Hok). split.
      * rewrite bd_row_run. by apply or_str_str.
      * split; [congruence|]. intros now. by rewrite bd_row_doc_id.
  - intros [d Hd] r f Hf. simpl in *. destruct (iter_frames d r) as [fs e] eqn:E. apply frames_held_lookup. split; [|done].
    destruct (iter_frames_readable _ _ _ _ E) as [[-> _] | [-> _]]; [by apply elem_of_nil in Hf|done].
  - intros [d Hd] r i f He Hf. simpl in *. destruct (iter_frames d r) as [fs e] eqn:E. apply frames_held_lookup in Hf as [Hf <-].
    destruct (iter_frames_readable _ _ _ _ E) as [[-> [? ?]] | [-> _]]; simpl in *; [by subst|done].
  - intros [d Hd] r rows row. simpl. unfold read_kpi_events, select. destruct (readable d); [|done]. intros [= <-].
    rewrite list_elem_of_fmap. setoid_rewrite elem_of_py_sorted. setoid_rewrite (kpi_held_lookup _ _ _ _ Hd). split.
    + intros ([[m c] [v ing]] & -> & Hp%elem_of_run_kpi). eauto 10.
    + intros (id & t & m & c & v & ing & E%elem_of_run_kpi & -> & [= -> ->]). by exists ((m, c), (v, ing)).
  - done.
  - intros q [d Hd] r rows row [= <-]. simpl. unfold select_rows, select. destruct (readable d); [|done]. intros [= <-].
    rewrite list_elem_of_fmap. setoid_rewrite elem_of_py_sorted. setoid_rewrite (breakdown_held_lookup _ _ _ _ Hd). split.
    + intros ([[s [c e]] row'] & -> & Hp%elem_of_run_breakdown).
      destruct (breakdown_ok _ Hd _ _ _ _ _ Hp) as (_ & _ & ing & Hi & _). eauto 12.
    + intros (id & t & s & c & e & row' & ing & E%elem_of_run_breakdown & _ & -> & [= -> ->]). by exists ((s, (c, e)), row').
  - intros fn [d Hd] r o [= <-]. simpl. unfold frame_range, select. destruct (readable d); [|done]. intros [= <-].
    pose proof (extreme_min (fr_idx <$> run_rows r (rows d))) as Hlo. pose proof (extreme_max (fr_idx <$> run_rows r (rows d))) as Hhi.
    assert (∀ i, is_Some (frames_held r (rows d) !! i) ↔ i ∈ fr_idx <$> run_rows r (rows d)) as Hheld.
    { intros i. rewrite <- elem_of_all_frames_idx. unfold is_Some. by setoid_rewrite frames_held_lookup. }
    destruct (extreme Z.min _) as [lo|], (extreme Z.max _) as [hi|].
    + setoid_rewrite Hheld. tauto.
    + rewrite Hhi in Hlo. destruct Hlo as [Hlo _]. by apply elem_of_nil in Hlo.
    + rewrite Hlo in Hhi. destruct Hhi as [Hhi _]. by apply elem_of_nil in Hhi.
    + apply map_eq. intros i. rewrite lookup_empty. apply eq_None_not_Some. rewrite Hheld, Hlo. apply not_elem_of_nil.
  - intros q [d Hd] r o [= <-]. simpl. unfold max_ingested_at, select. destruct (readable d); [|done]. intros [= <-].
    apply newest_latest. intros t. rewrite list_elem_of_fmap. setoid_rewrite (kpi_held_lookup _ _ _ _ Hd). split.
    + intros ([[m c] [v ing]] & -> & Hp%elem_of_run_kpi). simpl. eauto 10.
    + intros (id & row & m & c & v & ing & E%elem_of_run_kpi & -> & [= -> ->]). by exists ((m, c), (v, ing)).
  - intros q [d Hd] r o [= <-]. simpl. unfold max_ingested_at, select. destruct (readable d); [|done]. intros [= <-].
    apply newest_latest. intros t. rewrite list_elem_of_omap. setoid_rewrite (breakdown_held_lookup _ _ _ _ Hd). split.
    + intros ([[s [c e]] row'] & Hp%elem_of_run_breakdown & Et). unfold row_time in Et. simpl in Et.
      destruct (cget row' "ingested_at") eqn:Hi; [done|]. injection Et as ->. eauto 12.
    + intros (id & row & s & c & e & row' & ing & E%elem_of_run_breakdown & Hi & -> & [= -> ->]).
      exists ((s, (c, e)), row'). split; [done|]. unfold row_time. simpl. by rewrite Hi.
Defined.
End Reader.

(** ** The writers keep the tables in order *)

Class DuckEnvLaws `{DuckEnv} : Prop := { duck_clock_ok n : dt_ok (duck_clock n) }.

Section Writers.
Context `{PyText, Numpy, DuckEnvLaws}.

Abbreviation ok := (λ d, tables_ok (rows d)).

Lemma execute_ok f : (∀ t, tables_ok t → tables_ok (f t)) → preserves ok (execute f).
Proof.
  intros Hf d Hd. unfold execute. pose proof (faulty_rows d) as Hr. destruct (faulty d) as [b d']. simpl in Hr.
  destruct b; simpl; [by rewrite Hr|]. apply Hf. by rewrite Hr.
Qed.

Lemma duck_now_ok : hoare ok (duck_now duck_clock) (λ now d, tables_ok (rows d) ∧ dt_ok now) ok.
Proof. intros d Hd. split; [done|]. apply duck_clock_ok. Qed.

Lemma last_rows_elem {K V} `{Countable K} (l : list (K * V)) k v : last_rows l !! k = Some v → (k, v) ∈ l.
Proof. intros E%elem_of_list_to_map_2. by rewrite elem_of_reverse in E. Qed.

Lemma upsert_for_run {K V} `{Countable K} (r : string) (l : list (K * V)) (t : gmap (string * K) V) r' k v :
  upsert (map (λ p, ((r, p.1), p.2)) l) t !! (r', k) = Some v → (k, v) ∈ l ∨ t !! (r', k) = Some v.
Proof.
  rewrite upsert_union, lookup_union, last_rows_for_run. case_decide; [|by rewrite (left_id_L None (∪)); right].
  destruct (last_rows l !! k) eqn:E; [|by rewrite (left_id_L None (∪)); right].
  rewrite union_Some_l. intros [= ->]. left. by apply last_rows_elem.
Qed.

Lemma kpi_insert_ok r l t : Forall (λ p, dt_ok p.1.2 ∧ dt_ok p.2.2) l → tables_ok t → tables_ok (kpi_insert r l t).
Proof.
  intros Hl [Hfr Hkp Hbr]. split; [done| |done]. intros r' m c v ing E. apply upsert_for_run in E as [E|E]; [|by eapply Hkp].
  rewrite Forall_forall in Hl. exact (Hl _ E).
Qed.

Definition record_ok (p : bd_key * crow) : Prop :=
  free_of "|"%char p.1.1 ∧ dt_ok p.1.2.1 ∧ ∃ ing, cget p.2 "ingested_at" = CTime ing ∧ dt_ok ing.

Lemma breakdown_insert_ok r l t : Forall record_ok l → tables_ok t → tables_ok (breakdown_insert r l t).
Proof.
  intros Hl [Hfr Hkp Hbr]. split; [done|done|]. intros r' s c e row E. apply upsert_for_run in E as [E|E]; [|by eapply Hbr].
  rewrite Forall_forall in Hl. exact (Hl _ E).
Qed.

Lemma frame_insert_ok new t : Forall (λ x, 0 ≤ fr_idx x) new → tables_ok t → tables_ok (frame_insert new t).
Proof. intros Hn [Hfr Hkp Hbr]. split; [|done|done]. simpl. by apply Forall_app. Qed.

Lemma grouped_rows (P : kpi_row → Prop) rows : Forall P rows → Forall (λ g, Forall P g.2) (grouped rows).
Proof.
  unfold grouped. intros Hr. assert (Forall (λ g : string * list kpi_row, Forall P g.2) []) as Hg by done. revert Hg.
  generalize (@nil (string * list kpi_row)). induction Hr as [|x rows Hx _ IH]; intros g Hg; [done|]. simpl. apply IH.
  apply Forall_forall. intros y Hy. rewrite Forall_forall in Hg. apply elem_d_set in Hy as [Hy | ->]; [auto|]. simpl.
  apply Forall_app. split; [|by repeat constructor]. destruct (d_get g (k_run x)) as [l|] eqn:E; [|done].
  apply d_get_Some_elem in E. exact (Hg _ E).
Qed.

Lemma write_kpi_events_ok l : Forall (λ x, dt_ok (k_clock x)) l → preserves ok (write_kpi_events l).
Proof.
  intros Hr. unfold write_kpi_events. case_bool_decide; [auto with eff|].
  eapply hoare_bind; [apply duck_now_ok|]. intros now. apply (hoare_prop _ (dt_ok now)); [by intros d [_ ?]|]. intros Hn.
  apply hoare_pre with (λ d, tables_ok (rows d)); [|by intros d [? _]]. apply grouped_rows in Hr. generalize 0.
  induction Hr as [|[r items] g Hi _ IH]; intros w; cbn [write_groups]; [apply (preserves_ret ok)|].
  apply (preserves_bind ok); [|intros _; apply IH]. unfold _insert_kpi_columnar. case_bool_decide; [apply preserves_ret|].
  apply preserves_bind; [|intros _; apply preserves_ret]. apply execute_ok. intros t. apply kpi_insert_ok.
  rewrite Forall_fmap. simpl in *. eapply Forall_impl; [exact Hi|]. done.
Qed.

Lemma omap_result_Forall {A B} (P : B → Prop) (f : A → result (option B)) l l' :
  (∀ a b, f a = Ok (Some b) → P b) → omap_result f l = Ok l' → Forall P l'.
Proof.
  intros Hf. revert l'. induction l as [|a l IH]; intros l'; cbn [omap_result]; [by intros [= <-]|].
  destruct (f a) as [[b|]|] eqn:E; [| |done]; cbn; destruct (omap_result f l) as [bs|] eqn:El; try done; intros [= <-];
    [constructor; [by eapply Hf|]|]; by apply IH.
Qed.

Lemma snapshot_records_ok now s l : dt_ok now → dt_ok (s_clock s) → snapshot_records now s = Ok l → Forall record_ok l.
Proof.
  intros Hn Hs. unfold snapshot_records. case_bool_decide as Hscope; [by intros [= <-]|]. simpl.
  case_bool_decide; [by intros [= <-]|]. apply omap_result_Forall. intros entity p. unfold entity_record.
  destruct (is_none _); [done|]. destruct (json_dumps _) as [payload|]; [|done]. cbn [mbind result_bind]. intros [= <-].
  split; [|split; [done|by exists now]]. simpl.
  assert (s_scope s ∈ _STORED_SCOPES) as Hin by (by destruct (decide (s_scope s ∈ _STORED_SCOPES))).
  unfold _STORED_SCOPES in Hin. rewrite !elem_of_cons, elem_of_nil in Hin.
  destruct Hin as [-> | [-> | [-> | [-> | []]]]]; by repeat split.
Qed.

Lemma mapR_Forall {A B} (P : B → Prop) (f : A → result B) l l' :
  Forall (λ a, ∀ b, f a = Ok b → P b) l → mapR f l = Ok l' → Forall P l'.
Proof.
  intros Hf E. apply Forall_forall. intros b Hb. destruct (mapR_elem _ _ _ _ E Hb) as (a & Ha & Eb).
  rewrite Forall_forall in Hf. by eapply Hf.
Qed.

Lemma mapR_get {A} (h : string → A → result A) (l l' : list (string * A)) k :
  mapR (λ q, c ← h q.1 q.2; Ok (q.1, c)) l = Ok l' → (∀ c, h k c = Ok c) → d_get l' k = d_get l k.
Proof.
  intros E Hk. revert l' E. induction l as [|[j c] l IH]; intros l' E; cbn [mapR] in E; [by injection E as <-|]. simpl in E.
  destruct (h j c) as [c'|] eqn:Ec; [|done]. cbn [mbind result_bind] in E. destruct (mapR _ l) as [bs|] eqn:Eb; [|done].
  injection E as <-. cbn [d_get]. simpl. destruct (decide (k = j)) as [-> |]; [|by apply IH]. rewrite Hk in Ec. congruence.
Qed.

Lemma breakdown_columns_ok l l' : _breakdown_columns l = Ok l' → Forall record_ok l → Forall record_ok l'.
Proof.
  intros E Hl. apply Forall_forall. intros p' Hp'. destruct (mapR_elem _ _ _ _ E Hp') as (p & Hp & Ep).
  rewrite Forall_forall in Hl. destruct (Hl p Hp) as (Hs & Hc & ing & Ei & Hi).
  destruct (mapR _ p.2) as [row|] eqn:Er; [|done]. injection Ep as <-. split; [done|]. split; [done|]. exists ing. split; [|done].
  simpl. rewrite <- Ei. unfold cget. by rewrite (mapR_get breakdown_column p.2 row "ingested_at" Er).
Qed.

Lemma write_breakdown_batch_ok r ss : Forall (λ s, dt_ok (s_clock s)) ss → preserves ok (write_breakdown_batch r ss).
Proof.
  intros Hs. unfold write_breakdown_batch.
  eapply hoare_bind; [apply duck_now_ok|]. intros now. apply (hoare_prop _ (dt_ok now)); [by intros d [_ ?]|]. intros Hn.
  apply hoare_pre with (λ d, tables_ok (rows d)); [|by intros d [? _]].
  eapply hoare_bind with (R := λ l d, tables_ok (rows d) ∧ Forall record_ok (concat l)).
  - apply hoare_lift. intros d Hd. destruct (mapR _ ss) as [l|] eqn:E; [|done]. split; [done|]. apply Forall_concat.
    eapply mapR_Forall; [|exact E]. eapply Forall_impl; [exact Hs|]. intros s Hc l'. by apply snapshot_records_ok.
  - intros l. apply (hoare_prop _ (Forall record_ok (concat l))); [by intros d [_ ?]|]. intros Hl.
    apply hoare_pre with (λ d, tables_ok (rows d)); [|by intros d [? _]]. case_bool_decide; [apply (preserves_ret ok)|].
    eapply hoare_bind with (R := λ l d, tables_ok (rows d) ∧ Forall record_ok l).
    { apply hoare_lift. intros d Hd. destruct (_breakdown_columns _) eqn:E; [|done]. split; [done|]. by eapply breakdown_columns_ok. }
    intros l'. apply (hoare_prop _ (Forall record_ok l')); [by intros d [_ ?]|]. intros Hl'.
    apply hoare_pre with (λ d, tables_ok (rows d)); [|by intros d [? _]]. unfold _insert_breakdown_columnar.
    case_bool_decide; [apply (preserves_ret ok)|].
    apply preserves_bind; [|intros _; apply preserves_ret]. apply execute_ok. intros t. by apply breakdown_insert_ok.
Qed.

Lemma zip_frows_idx (P : Z → Prop) r l1 l2 l3 l4 l5 l6 l7 :
  Forall P l1 → Forall (λ x, P (fr_idx x)) (zip_frows r l1 l2 l3 l4 l5 l6 l7).
Proof.
  intros Hl. revert l2 l3 l4 l5 l6 l7.
  induction Hl; intros [|? ?] [|? ?] [|? ?] [|? ?] [|? ?] [|? ?]; simpl; constructor; auto.
Qed.

Lemma frame_columns_idx (P : Z → Prop) fs max acc c n c' n' t :
  Forall (λ f, P (frame_idx f)) fs → Forall P (c_idx acc) →
  _frame_columns_from_frames fs max acc n c' = Ok (c, n', t) → Forall P (c_idx c).
Proof.
  intros Hf. revert acc n c'. induction Hf as [|f fs Hx _ IH]; intros acc n c' Ha; cbn [_frame_columns_from_frames].
  { by intros [= <- _ _]. }
  destruct (frame_n f =? 0)%nat; [by apply IH|]. destruct (match max with Some _ => _ | None => _ end); [done|].
  apply IH. simpl. apply Forall_app. split; [done|]. by apply Forall_replicate.
Qed.

Lemma write_frames_ok r fs : Forall (λ f, 0 ≤ frame_idx f) fs → preserves ok (write_frames r fs).
Proof.
  intros Hf. unfold write_frames.
  assert (∀ buf, Forall (λ f, 0 ≤ frame_idx f) buf → preserves ok (_insert_frame_batch r buf)) as Hbatch.
  { intros buf Hb. unfold _insert_frame_batch.
    eapply hoare_bind with (R := λ c d, tables_ok (rows d) ∧ Forall (λ x, 0 ≤ x) (c_idx c.1.1)).
    - apply hoare_lift. intros d Hd. destruct (_frame_columns_from_frames _ _ _ _ _) as [[[c n] t]|] eqn:E; [|done]. split; [done|].
      eapply (frame_columns_idx (λ x, 0 ≤ x)); [exact Hb| |exact E]. constructor.
    - intros [[c n] total]. simpl. apply (hoare_prop _ (Forall (λ x, 0 ≤ x) (c_idx c))); [by intros d [_ ?]|]. intros Hc.
      apply hoare_pre with (λ d, tables_ok (rows d)); [|by intros d [? _]]. destruct (total =? 0)%nat; [apply (preserves_ret ok)|].
      apply preserves_bind; [|intros _; apply preserves_ret]. unfold _insert_frames_columnar.
      case_bool_decide; [apply preserves_ret|]. destruct (even_columns c); [|apply preserves_lift].
      apply preserves_bind; [|intros _; apply preserves_ret]. apply execute_ok. intros t. apply frame_insert_ok.
      by apply (zip_frows_idx (λ x, 0 ≤ x)). }
  enough (∀ buf n w, Forall (λ f, 0 ≤ frame_idx f) buf → preserves ok (frames_loop r fs buf n w)) as Hl by by apply Hl.
  induction Hf as [|f fs Hx _ IH]; intros buf n w Hb; cbn [frames_loop].
  - case_bool_decide; [apply preserves_ret|]. apply preserves_bind; [by apply Hbatch|]. intros. apply preserves_ret.
  - assert (Forall (λ f, 0 ≤ frame_idx f) (buf ++ [f])) as Hb' by (apply Forall_app; split; [done|by repeat constructor]).
    destruct (frame_n f =? 0)%nat; [by apply IH|]. destruct (_ <=? _); [|by apply IH].
    apply preserves_bind; [by apply Hbatch|]. intros. by apply IH.
Qed.

Lemma transaction_ok fs : Forall (λ f, ∀ t, tables_ok t → tables_ok (f t)) fs → preserves ok (transaction fs).
Proof.
  intros Hf d Hd. pose proof (transaction_all_or_nothing fs (rows d) d eq_refl) as Ht.
  assert (tables_ok (foldl (λ t f, f t) (rows d) fs)) as Hok.
  { clear Ht. revert Hd. generalize (rows d). induction Hf as [|f fs Hf _ IH]; intros t Ht; [done|]. simpl. auto. }
  unfold at_tables in Ht. destruct (transaction fs d) as [[[]|e] d']; by rewrite Ht.
Qed.

Lemma evict_run_ok r : preserves ok (evict_run r).
Proof.
  unfold evict_run. apply preserves_bind.
  { intros d Hd. unfold reading, select. by destruct (readable d). }
  intros n. apply preserves_bind; [|intros _; apply preserves_ret]. apply transaction_ok. rewrite !Forall_cons.
  split; [|split; [|split; [|split; [|split; [|done]]]]]; intros t [Hfr Hkp Hbr]; split; simpl; try done.
  - apply Forall_forall. intros x [_ Hx]%list_elem_of_filter. rewrite Forall_forall in Hfr. auto.
  - intros r' m c v ing E. rewrite filter_key in E. case_decide; [done|]. by eapply Hkp.
  - intros r' s c e row E. rewrite filter_key in E. case_decide; [done|]. by eapply Hbr.
Qed.

(** What the writers keep: frame indices are not negative, every timestamp is a real
    one, a stored scope holds no separator and every breakdown row knows when it was
    ingested, whatever statement fails on the way.  It is what the laws of the reader a dump
    works against rest on. *)
Theorem writers_keep_tables_ok d r kpi snapshots fs fields status n m error :
  tables_ok (rows d) →
  Forall (λ x, dt_ok (k_clock x)) kpi → Forall (λ s, dt_ok (s_clock s)) snapshots →
  Forall (λ f, 0 ≤ frame_idx f) fs →
  tables_ok (rows (write_kpi_events kpi d).2) ∧
  tables_ok (rows (write_breakdown_batch r snapshots d).2) ∧
  tables_ok (rows (write_frames r fs d).2) ∧
  tables_ok (rows (upsert_run_meta r fields d).2) ∧
  tables_ok (rows (set_export_state r status n m error d).2) ∧
  tables_ok (rows (evict_run r d).2).
Proof.
  intros Hd Hk Hs Hf.
  split; [|split; [|split; [|split; [|split]]]].
  - by apply (preserves_state ok); [apply write_kpi_events_ok|].
  - by apply (preserves_state ok); [apply write_breakdown_batch_ok|].
  - by apply (preserves_state ok); [apply write_frames_ok|].
  - apply (preserves_state ok); [|done]. unfold upsert_run_meta. destruct (forallb _ _); [|apply preserves_lift].
    apply execute_ok. by intros t [].
  - apply (preserves_state ok); [|done]. unfold set_export_state.
    apply hoare_bind with (R := λ _ d, tables_ok (rows d)); [by intros d' Hd'|]. intros now. apply execute_ok. by intros t [].
  - by apply (preserves_state ok); [apply evict_run_ok|].
Qed.
End Writers.
