(* ===== verification/ArchiveExample.v ===== *)
(** A database in memory that meets the laws of the archive's driver, and one run dumped
    into it from a working set of [DuckStore]: the hypotheses of [ArchiveSafety] hold of
    something that runs. *)

From Stdlib Require Import SpecFloat Strings.Ascii Strings.Byte.
From S2P Require Import Prelude PyValue Frame ArchiveDocs Archive ArchiveSafety DuckStore.
Open Scope Z_scope.

(** ** A collection in memory

    [outages]: which of the calls to come find the server away. *)

Record memory (D : Type) : Type := Memory { mem : gmap string D; outages : list bool }.
Arguments Memory {D}.
Arguments mem {D}.
Arguments outages {D}.

Section Memory.
Context {D : Type}.
Implicit Types (m : gmap string D) (c : memory D).

Definition call {A} (c : memory D) (down : A) (f : gmap string D → A * gmap string D) : A * memory D :=
  match outages c with
  | true :: l => (down, Memory (mem c) l)
  | l => let '(a, m) := f (mem c) in (a, Memory m (tail l))
  end.

Definition add_new m (p : string * D) : gmap string D := match m !! p.1 with Some _ => m | None => <[p.1 := p.2]> m end.
Definition put m (p : string * D) : gmap string D := <[p.1 := p.2]> m.

Definition gained m m' : Z := Z.of_nat (size m') - Z.of_nat (size m).

(** One duplicate-key error for each document that was not added. *)
Definition insert_report (ds : list (string * D)) m m' : bulk :=
  let n := gained m m' in
  if n =? Z.of_nat (length ds) then Acked n
  else BulkWriteError n (repeat duplicate_key (Z.to_nat (Z.of_nat (length ds) - n))).

Definition inserting (ds : list (string * D)) m : bulk * gmap string D :=
  let m' := foldl add_new m ds in (insert_report ds m m', m').
Definition replacing (ds : list (string * D)) m : bulk * gmap string D :=
  let m' := foldl put m ds in (Acked (gained m m'), m').
Definition finding (p : D → bool) m : result (list D) * gmap string D :=
  (Ok (filter (λ kv, p kv.2 = true) (map_to_list m)).*2, m).

#[export] Instance memory_collection : Collection (memory D) D := {
  docs := mem;
  insert_many ds c := call c (Failed PyMongoError) (inserting ds);
  replace_many ds c := call c (Failed PyMongoError) (replacing ds);
  find p c := call c (Raise PyMongoError) (finding p);
}.

Lemma call_cases {A} c (down : A) f :
  ((call c down f).1 = down ∧ mem (call c down f).2 = mem c) ∨
  ((call c down f).1 = (f (mem c)).1 ∧ mem (call c down f).2 = (f (mem c)).2).
Proof.
  unfold call. destruct (outages c) as [|[] l]; [right|by left|right]; by destruct (f (mem c)).
Qed.

Lemma add_new_keeps ds m i d : m !! i = Some d → foldl add_new m ds !! i = Some d.
Proof.
  revert m. induction ds as [|[j e] ds IH]; intros m E; [done|]. simpl. apply IH. unfold add_new. simpl.
  destruct (m !! j) eqn:Ej; [done|]. rewrite lookup_insert_ne; [done|]. congruence.
Qed.

Lemma add_new_only ds m i d : foldl add_new m ds !! i = Some d → m !! i = Some d ∨ (i, d) ∈ ds.
Proof.
  revert m. induction ds as [|[j e] ds IH]; intros m E; [by left|]. simpl in E. rewrite elem_of_cons.
  destruct (IH _ E) as [Hm|?]; [|by auto]. unfold add_new in Hm. simpl in Hm. destruct (m !! j); [by left|].
  destruct (decide (i = j)) as [-> |Hij]; [|rewrite lookup_insert_ne in Hm by done; by left].
  rewrite lookup_insert_eq in Hm. injection Hm as ->. auto.
Qed.

Lemma add_new_all ds m i d : (i, d) ∈ ds → is_Some (foldl add_new m ds !! i).
Proof.
  revert m. induction ds as [|[j e] ds IH]; intros m; [by intros ?%elem_of_nil|].
  intros [E|Hin]%elem_of_cons; [|by apply IH]. injection E as <- <-. simpl.
  unfold add_new at 2. simpl. destruct (m !! i) as [x|] eqn:Ei.
  - exists x. by apply add_new_keeps.
  - exists d. apply add_new_keeps. by rewrite lookup_insert_eq.
Qed.

Lemma put_keeps ds m i : is_Some (m !! i) → is_Some (foldl put m ds !! i).
Proof.
  revert m. induction ds as [|[j e] ds IH]; intros m E; [done|]. simpl. apply IH. unfold put. simpl.
  destruct (decide (i = j)) as [-> |?]; [rewrite lookup_insert_eq; eauto|by rewrite lookup_insert_ne].
Qed.

Lemma put_union ds m : foldl put m ds = last_rows ds ∪ m.
Proof. apply (foldl_insert ds m). Qed.

Lemma replicate_duplicates n : forallb (Z.eqb duplicate_key) (repeat duplicate_key n) = true.
Proof. by induction n. Qed.

Lemma insert_report_ok ds m m' : batch_result (insert_report ds m m') = Ok (gained m m').
Proof.
  unfold insert_report. destruct (_ =? _); [done|]. cbn [batch_result]. by rewrite replicate_duplicates.
Qed.

#[export] Instance memory_laws : CollectionLaws (memory D) D.
Proof.
  split; cbn [docs insert_many replace_many find memory_collection].
  - intros p c. by destruct (call_cases c (Raise PyMongoError) (finding p)) as [[_ ->]|[_ ->]].
  - intros p c l. destruct (call_cases c (Raise PyMongoError) (finding p)) as [[-> _]|[-> _]]; [done|]. simpl. by intros [= <-].
  - intros ds c. split.
    + destruct (call_cases c (Failed PyMongoError) (inserting ds)) as [[-> _]|[-> _]]; [done|].
      simpl. unfold insert_report. by destruct (_ =? _).
    + by destruct (call_cases c (Failed PyMongoError) (replacing ds)) as [[-> _]|[-> _]].
  - intros ds c i d E. destruct (call_cases c (Failed PyMongoError) (inserting ds)) as [[_ ->]|[_ ->]]; [done|]. by apply add_new_keeps.
  - intros ds c i d. destruct (call_cases c (Failed PyMongoError) (inserting ds)) as [[_ ->]|[_ ->]]; [by left|]. apply add_new_only.
  - intros ds c i d. destruct (call_cases c (Failed PyMongoError) (inserting ds)) as [[-> _]|[_ ->]]; [done|]. intros _. apply add_new_all.
  - intros ds c n. destruct (call_cases c (Failed PyMongoError) (inserting ds)) as [[-> _]|[-> ->]]; [done|].
    simpl. rewrite insert_report_ok. by intros [= <-].
  - intros ds c i E. destruct (call_cases c (Failed PyMongoError) (replacing ds)) as [[_ ->]|[_ ->]]; [done|]. by apply put_keeps.
  - intros ds c i d. destruct (call_cases c (Failed PyMongoError) (replacing ds)) as [[_ ->]|[_ ->]]; [by left|]. simpl.
    rewrite put_union, lookup_union. destruct (last_rows ds !! i) eqn:E.
    + rewrite union_Some_l. intros [= ->]. right. by apply last_rows_elem.
    + rewrite (left_id_L None (∪)). by left.
  - intros ds c i d Hnd. destruct (call_cases c (Failed PyMongoError) (replacing ds)) as [[-> _]|[_ ->]]; [done|]. intros _ Hin. simpl.
    rewrite put_union, lookup_union. unfold last_rows.
    erewrite (elem_of_list_to_map_1 (reverse ds)); [by rewrite union_Some_l| |by rewrite elem_of_reverse].
    by rewrite reverse_Permutation.
  - intros ds c n. destruct (call_cases c (Failed PyMongoError) (replacing ds)) as [[-> _]|[-> ->]]; [done|]. simpl. by intros [= <-].
Qed.
End Memory.

(** ** Run summaries in memory *)

#[export] Instance memory_summaries : Summaries (memory crow) := {
  summaries := mem;
  find_one r c := call c (Raise PyMongoError) (λ m, (Ok (m !! r), m));
  find_runs p c := call c (Raise PyMongoError) (λ m, (Ok (map_to_list (filter (λ kv, p kv.1 = true) m)), m));
  update_one r d c := call c (Raise PyMongoError) (λ m, (Ok tt, set_summary r d m));
}.

#[export] Instance memory_summaries_laws : SummariesLaws (memory crow).
Proof.
  split; cbn [summaries find_one find_runs update_one memory_summaries].
  - intros r c. by destruct (call_cases c (Raise PyMongoError) (λ m, (Ok (m !! r), m))) as [[_ ->]|[_ ->]].
  - intros r c o. destruct (call_cases c (Raise PyMongoError) (λ m, (Ok (m !! r), m))) as [[-> _]|[-> _]]; [done|]. by intros [= <-].
  - intros p c. by destruct (call_cases c (Raise PyMongoError) (λ m, (Ok (map_to_list (filter (λ kv, p kv.1 = true) m)), m))) as [[_ ->]|[_ ->]].
  - intros p c l. destruct (call_cases c (Raise PyMongoError) (λ m, (Ok (map_to_list (filter (λ kv, p kv.1 = true) m)), m))) as [[-> _]|[-> _]]; [done|].
    simpl. intros [= <-]. split; [apply NoDup_fst_map_to_list|]. intros r d. by rewrite elem_of_map_to_list, map_lookup_filter_Some.
  - intros r d c. destruct (call_cases c (Raise PyMongoError) (λ m, (Ok tt, set_summary r d m))) as [[-> _]|[_ ->]]; [done|]. done.
  - intros r d c. destruct (call_cases c (Raise PyMongoError) (λ m, (Ok tt, set_summary r d m))) as [[_ ->]|[_ ->]]; auto.
Qed.

(** ** One run, dumped *)

Module ArchiveExamples.
#[local] Instance text : PyText := no_text.
#[local] Instance numpy : Numpy := {|
  tobytes := le_bytes;
  frombuffer := λ buf w n off,
  if decide ((off + w * n ≤ length buf)%nat) then Ok (words w n (drop off buf)) else Raise ValueError;
|}.

Definition t0 : datetime := DateTime 2024 5 6 7 8 9 0.
Definition t1 : datetime := DateTime 2024 5 6 7 8 9 250000.

Definition lane_row : crow :=
  [("final", CVal (PBool false)); ("num_trucks", CVal (PInt 3)); ("payload", CVal (PStr "{}")); ("ingested_at", CTime t1)].

(** Two positions of frame 0, one KPI row, one breakdown row, of a finished run. *)
Definition some_tables : tables :=
  Tables [FRow "run" 0 1000 1 10 20 2 0; FRow "run" 0 1000 0 30 40 3 1]
    {[ ("run", ("served", t0)) := (f_of_Z 5, t1) ]}
    {[ ("run", ("lane", (t0, "A-B"))) := lane_row ]}
    {[ "run" := [("status", CVal (PStr "completed"))] ]} ∅.

Lemma t0_ok : dt_ok t0.
Proof. by split. Qed.
Lemma t1_ok : dt_ok t1.
Proof. by split. Qed.

Lemma some_tables_ok : tables_ok some_tables.
Proof.
  split.
  - by repeat constructor.
  - intros r m c v ing E. simpl in E. apply lookup_singleton_Some in E as [E1 E2]. simplify_eq. split; [apply t0_ok|apply t1_ok].
  - intros r s c e row E. simpl in E. apply lookup_singleton_Some in E as [E1 E2]. simplify_eq. split; [by repeat split|]. split; [apply t0_ok|].
    exists t1. split; [done|apply t1_ok].
Qed.

Definition some_store : duck_store := exist _ (Duck some_tables true [] 0) some_tables_ok.

Abbreviation W := (world duck_store (memory frame_doc) (memory kpi_doc) (memory crow) (memory crow)).

(** The database is empty, and its first call fails. *)
Definition w0 : W := World (Archive (Memory ∅ [true]) (Memory ∅ []) (Memory ∅ []) (Memory ∅ []) None) some_store [] 0.
Definition clock (n : nat) : datetime := DateTime 2024 5 7 0 0 (Z.of_nat n) 0.

Definition w1 : W := (dump_run clock "run" "failed" None w0).2.
Definition w2 : W := (dump_run clock "run" "retried" None w1).2.

Lemma run_plain : plain "run".
Proof. by repeat split. Qed.

Lemma dumped_twice : star (step clock) w0 w2.
Proof.
  apply star_step with w1; [apply dumps, run_plain|]. apply star_step with w2; [apply dumps, run_plain|]. apply star_refl.
Qed.
Lemma empty_start : empty_archive (arch w0).
Proof. done. Qed.

Lemma store_answers : answers (store w2) "run".
Proof.
  split.
  - exists (λ s, frame_range (duck_of s)). exists (Some (0, 0)). split; [done|]. vm_compute. done.
  - eexists. split; [done|]. intros []; eexists; vm_compute; done.
Qed.


Lemma archive_only_grows_witness : outlived (snap_of (arch w0)) (snap_of (arch w2)).
Proof. exact (archive_only_grows clock w0 w2 dumped_twice). Defined.

Lemma w2_archived : archived_all "run" (arch w2) (held (store w2) "run").
Proof.
  apply (quiet_archived w2 "run").
  - by vm_compute.
  - apply (star_invariant (step clock) good) with (s := w0); [intros; by eapply step_good|by apply empty_good|apply dumped_twice].
  - apply run_plain.
  - apply store_answers.
  - by vm_compute.
Qed.

Lemma replay_changes_nothing_witness :
  docs (frames (arch (dump_run clock "run" "again" None w2).2)) = docs (frames (arch w2)).
Proof. apply (replay_changes_nothing clock w2 "run" "again" None); [by vm_compute|apply w2_archived]. Defined.

(** The windows of a reader that answers. *)
Lemma windows_are_invisible_witness :
  iter_frames (duck_of some_store) "run" = (all_frames (run_rows "run" some_tables), None).
Proof. exact (windows_are_invisible (duck_of some_store) "run" eq_refl). Defined.

#[local] Instance env : DuckEnv := {| duck_clock := λ _, t1; json_dumps := λ _, Ok "{}"; np_datetime := λ _, Raise ValueError; try_cast_bigint := λ _, None |}.
#[local] Instance env_laws : DuckEnvLaws.
Proof. split. intros n. apply t1_ok. Qed.

Lemma writers_keep_tables_ok_witness :
  tables_ok (rows (write_breakdown_batch "run"
    [Snapshot "lane" t0 false [[("id", PStr "B-A"); ("num_trucks", PInt 2)]]] (duck_of some_store)).2).
Proof.
  apply (writers_keep_tables_ok (duck_of some_store) "run" [KpiRow "run" "served" (f_of_Z 6) t1]
    [Snapshot "lane" t0 false [[("id", PStr "B-A"); ("num_trucks", PInt 2)]]] [] [] "exported" None None None).
  - apply some_tables_ok.
  - repeat constructor; apply t1_ok.
  - repeat constructor; apply t0_ok.
  - constructor.
Defined.
End ArchiveExamples.
