(* ===== verification/Rehydration.v ===== *)
(** A run that left the working set comes back: what the archive keeps of its frames
    restores exactly the rows it was made of. *)

From Stdlib Require Import SpecFloat Strings.Ascii Strings.Byte.
From S2P Require Import Prelude PyValue Frame EffLogic ArchiveDocs Archive ArchiveSafety DuckStore ArchiveExample.
Open Scope Z_scope.

(** ** The rows of a frame *)

Definition rows_of (r : string) (f : frame) : list frow := column_rows r (frame_columns f).

(** Rows of one frame have one time. *)
Definition one_time (l : list frow) : Prop := ∀ x y, x ∈ l → y ∈ l → fr_idx x = fr_idx y → fr_time x = fr_time y.

Lemma zip_frows_map r l :
  Forall (λ x, fr_run x = r) l →
  zip_frows r (fr_idx <$> l) (fr_time <$> l) (fr_slot <$> l) (fr_lng <$> l) (fr_lat <$> l) (fr_state <$> l) (fr_haulier <$> l) = l.
Proof. induction 1 as [|x l Hx _ IH]; [done|]. cbn. rewrite IH, <-Hx. by destruct x. Qed.

Lemma fmap_const {A B} (g : A → B) b (l : list A) : (∀ x, x ∈ l → g x = b) → g <$> l = replicate (length l) b.
Proof.
  induction l as [|x l IH]; intros Hg; [done|]. simpl. rewrite (Hg x) by by left. f_equal. apply IH. intros; apply Hg; by right.
Qed.

Lemma frame_of_rows_some i l f : frame_of_rows i l = Some f →
  ∃ x, x ∈ l ∧ f = Frame i (fr_time x) (fr_lng <$> l) (fr_lat <$> l) (fr_slot <$> l) (fr_state <$> l)
                     (fr_haulier <$> l) KIND_KEYFRAME FRAME_VERSION.
Proof. destruct l as [|x l]; [done|]. intros [= <-]. exists x. split; [by left|done]. Qed.

Lemma rows_of_frame r i (l : list frow) f :
  Forall (λ x, fr_run x = r) l → (∀ x, x ∈ l → fr_idx x = i) → one_time l → frame_of_rows i l = Some f → rows_of r f = l.
Proof.
  intros Hr Hi Ht (x & Hx & ->)%frame_of_rows_some. unfold rows_of, column_rows, frame_columns, frame_n. simpl.
  rewrite length_fmap. rewrite <- (fmap_const fr_idx i) by done. rewrite <- (fmap_const fr_time (fr_time x)); [by apply zip_frows_map|].
  intros y Hy. apply Ht; [done..|]. by rewrite !Hi.
Qed.

(** ** A sorted list by its indices *)

Lemma sorted_head_split (s : list frow) k :
  sorted_by (λ x y, fr_idx x <=? fr_idx y) s → (∀ x, x ∈ s → k ≤ fr_idx x) →
  s = filter (λ x, fr_idx x = k) s ++ filter (λ x, fr_idx x ≠ k) s.
Proof.
  unfold sorted_by. induction 1 as [|x s Hs IH Hx]; intros Hk; [done|]. destruct (decide (fr_idx x = k)) as [E|E].
  - rewrite filter_cons_True, filter_cons_False by (done || tauto). simpl. f_equal. apply IH. intros; apply Hk; by right.
  - rewrite filter_cons_False, filter_cons_True by done. rewrite Forall_forall in Hx.
    rewrite (filter_unmatched _ s); [|intros y Hy E'; specialize (Hx y Hy); specialize (Hk x ltac:(by left)); simpl in Hx; lia].
    simpl. f_equal. symmetry. apply filter_every. intros y Hy E'. specialize (Hx y Hy). specialize (Hk x ltac:(by left)). simpl in Hx. lia.
Qed.

Lemma concat_by_index (s : list frow) ks :
  sorted_by (λ x y, fr_idx x <=? fr_idx y) s → StronglySorted Z.lt ks → (∀ x, x ∈ s → fr_idx x ∈ ks) →
  concat (map (λ i, filter (λ x, fr_idx x = i) s) ks) = s.
Proof.
  intros Hs Hk. revert s Hs. induction Hk as [|k ks Hk IH Hlt]; intros s Hs Hin.
  - destruct s as [|x s]; [done|]. specialize (Hin x ltac:(by left)). by apply elem_of_nil in Hin.
  - simpl. assert (∀ x, x ∈ s → k ≤ fr_idx x) as Hmin.
    { intros x Hx. specialize (Hin x Hx). rewrite Forall_forall in Hlt.
      apply elem_of_cons in Hin as [-> | Hin]; [done|]. specialize (Hlt _ Hin). lia. }
    etransitivity; [|symmetry; by apply (sorted_head_split s k)]. f_equal.
    rewrite <- (IH (filter (λ x, fr_idx x ≠ k) s)).
    + f_equal. apply map_ext_in. intros i Hi%list_elem_of_In. rewrite list_filter_filter. apply list_filter_iff.
        rewrite Forall_forall in Hlt. specialize (Hlt i Hi). intros x. lia.
    + unfold sorted_by in *. clear -Hs. induction Hs as [|x s Hs IH Hx]; [constructor|]. rewrite filter_cons.
        case_decide; [|done]. constructor; [done|]. apply Forall_forall. intros y [_ Hy]%list_elem_of_filter.
        rewrite Forall_forall in Hx. auto.
    + intros x [Hne Hx]%list_elem_of_filter. specialize (Hin x Hx). apply elem_of_cons in Hin as [?|?]; done.
Qed.

Lemma strongly_mono {A} (R R' : A → A → Prop) l : (∀ x y, R x y → R' x y) → StronglySorted R l → StronglySorted R' l.
Proof. intros HR. induction 1 as [|x l _ IH Hx]; constructor; [done|]. eapply Forall_impl; [exact Hx|]. auto. Qed.

Lemma strictly_sorted l : base.NoDup l → StronglySorted Z.lt (py_sorted Z.leb l).
Proof.
  intros Hnd. assert (sorted_by Z.leb (py_sorted Z.leb l)) as Hs by (apply (py_sorted_sorted Z.leb always); by apply Forall_true).
  assert (base.NoDup (py_sorted Z.leb l)) as Hnd' by by rewrite py_sorted_perm.
  unfold sorted_by in Hs. revert Hnd'. induction Hs as [|x k _ IH Hx]; [constructor|].
  intros [Hn Hk]%NoDup_cons. constructor; [auto|]. apply Forall_forall. intros y Hy. rewrite Forall_forall in Hx.
  specialize (Hx y Hy). simpl in Hx. assert (x ≠ y) by congruence. lia.
Qed.

(** The frames of some rows are those rows, sorted. *)
Lemma rows_of_all_frames r l :
  Forall (λ x, fr_run x = r) l → one_time l → concat (map (rows_of r) (all_frames l)) = py_sorted row_leb l.
Proof.
  intros Hr Ht. unfold all_frames, window_frames. set (s := py_sorted row_leb l).
  assert (∀ x, x ∈ s ↔ x ∈ l) as Hs by (intros x; apply elem_of_py_sorted).
  set (ks := py_sorted Z.leb (remove_dups (fr_idx <$> s))).
  assert (∀ i, i ∈ ks → ∃ f, frame_of_rows i (filter (λ x, fr_idx x = i) s) = Some f ∧ rows_of r f = filter (λ x, fr_idx x = i) s) as Hf.
  { intros i Hi. subst ks. rewrite elem_of_py_sorted, elem_of_remove_dups in Hi. apply list_elem_of_fmap in Hi as (x & -> & Hx).
    assert (x ∈ filter (λ y, fr_idx y = fr_idx x) s) as Hx' by by apply list_elem_of_filter.
    destruct (frame_of_rows (fr_idx x) (filter (λ y, fr_idx y = fr_idx x) s)) as [f|] eqn:E.
    - exists f. split; [done|]. apply (rows_of_frame r (fr_idx x)); [| | |done].
      + apply Forall_forall. intros y [_ Hy]%list_elem_of_filter. apply Hs in Hy. rewrite Forall_forall in Hr. auto.
      + by intros y [? _]%list_elem_of_filter.
      + intros y z [_ Hy]%list_elem_of_filter [_ Hz]%list_elem_of_filter. apply Hs in Hy, Hz. by apply Ht.
    - destruct (filter _ s); [by apply elem_of_nil in Hx'|done]. }
  assert (map (rows_of r) (omap (λ i, frame_of_rows i (filter (λ x, fr_idx x = i) s)) ks) =
          map (λ i, filter (λ x, fr_idx x = i) s) ks) as ->.
  { clearbody ks. clear Hs. induction ks as [|k ks IH]; [done|]. destruct (Hf k ltac:(by left)) as (f & E & Er). cbn [omap list_omap].
    rewrite E. simpl. rewrite Er. f_equal. apply IH. intros; apply Hf; by right. }
  apply concat_by_index.
  - unfold sorted_by. subst s. assert (sorted_by row_leb (py_sorted row_leb l)) as Hso by (apply (py_sorted_sorted row_leb always); by apply Forall_true).
    unfold sorted_by in Hso. eapply strongly_mono; [|exact Hso]. intros x y. unfold row_leb, pair_leb. simpl.
    intros E. by apply andb_true_iff in E as [? _].
  - apply strictly_sorted, NoDup_remove_dups.
  - intros x Hx. subst ks. rewrite elem_of_py_sorted, elem_of_remove_dups. by apply list_elem_of_fmap_2.
Qed.

(** ** Reading the documents back *)

Section Back.
Context `{PyText, NumpyLaws, DuckEnv}.

Definition even (c : fcols) : Prop :=
  length (c_idx c) = length (c_lng c) ∧ length (c_time c) = length (c_lng c) ∧ length (c_slot c) = length (c_lng c) ∧
  length (c_lat c) = length (c_lng c) ∧ length (c_state c) = length (c_lng c) ∧ length (c_haulier c) = length (c_lng c).

Lemma zip_frows_app r i t s x y st h i' t' s' x' y' st' h' :
  length i = length x → length t = length x → length s = length x → length y = length x → length st = length x → length h = length x →
  zip_frows r (i ++ i') (t ++ t') (s ++ s') (x ++ x') (y ++ y') (st ++ st') (h ++ h') =
  zip_frows r i t s x y st h ++ zip_frows r i' t' s' x' y' st' h'.
Proof.
  revert t s x y st h. induction i as [|a i IH]; intros [|? t] [|? s] [|? x] [|? y] [|? st] [|? h];
    simpl; intros; try lia; [done|]. f_equal. apply IH; lia.
Qed.

Lemma column_rows_app r c d : even c → column_rows r (app_columns c d) = column_rows r c ++ column_rows r d.
Proof. intros (? & ? & ? & ? & ? & ?). by apply zip_frows_app. Qed.

Lemma even_app c d : even c → even d → even (app_columns c d).
Proof. unfold even. simpl. rewrite !length_app. lia. Qed.

Lemma even_frame f : frame_wf f → even (frame_columns f).
Proof. intros [? ? ? ? [? ?] [? ?] [? ?] [? ?] ? ?]. unfold even, frame_columns, frame_n. simpl. by rewrite !length_replicate. Qed.

(** The document of a frame, whenever it was archived. *)
Definition doc_of (r : string) (d : frame_doc) (f : frame) : Prop := ∃ now, d = (frame_to_doc r now f).2.

Lemma docs_read_back r docs fs max acc count total :
  Forall2 (doc_of r) docs fs → Forall frame_wf fs → Forall (λ f, frame_n f ≠ 0%nat) fs → even acc →
  Z.of_nat (total + sum_list_with frame_n fs) ≤ max →
  ∃ c, _frame_columns_from_docs docs max acc count total = Ok (c, (count + length fs)%nat, (total + sum_list_with frame_n fs)%nat) ∧
    column_rows r c = column_rows r acc ++ concat (map (rows_of r) fs) ∧ even c.
Proof.
  intros Hd. revert acc count total. induction Hd as [|d f docs fs [now ->] _ IH]; intros acc count total Hw Hn He Hm.
  { exists acc. cbn [_frame_columns_from_docs]. simpl. by rewrite !Nat.add_0_r, app_nil_r. }
  apply Forall_cons in Hw as [Hf Hw]. apply Forall_cons in Hn as [Hnf Hn]. simpl in Hm.
  cbn [_frame_columns_from_docs]. simpl fd_n. rewrite (proj2 (Nat.eqb_neq _ _) Hnf). cbv zeta.
  rewrite (proj2 (Z.ltb_ge _ _)) by lia. pose proof (even_frame f Hf) as Hef.
  pose proof Hf as [_ _ _ ? [? ?] [? ?] [? ?] [? ?] _ _]. simpl.
  rewrite !whole_buffer_tobytes by (done || lia). cbn [mbind result_bind].
  destruct (IH (app_columns acc (frame_columns f)) (count + 1)%nat (total + frame_n f)%nat Hw Hn) as (c & E & Ec & Hc).
  { by apply even_app. } { lia. }
  exists c. unfold frame_columns in E. rewrite E. split; [do 2 f_equal; [f_equal|]; lia|]. split; [|done].
  rewrite Ec, column_rows_app, <-app_assoc by done. done.
Qed.
End Back.

(** ** The archive as the source of a rehydration *)

Section ArchiveSource.
Context `{PyText, Numpy}.
Context {S FC KC BC RC : Type}.
Context `{DuckReader S, Collection FC frame_doc, Collection KC kpi_doc, Collection BC crow, Summaries RC}.
Abbreviation W := (world S FC KC BC RC).

(** [.sort([("sim_clock", 1), ("metric", 1)])] *)
Definition kpi_doc_leb (d e : kpi_doc) : bool :=
  match dt_compare (kd_sim_clock d) (kd_sim_clock e) with Lt => true | Gt => false | Eq => String.leb (kd_metric d) (kd_metric e) end.

Definition kpi_docs (run_id : string) : eff W (list kpi_doc) :=
  l ← mongo (at_kpi (find (λ d, bool_decide (kd_run_id d = run_id)))); mret (py_sorted kpi_doc_leb l).

Definition read_run_kpi_events (run_id : string) : eff W (list kpi_row) :=
  l ← kpi_docs run_id; mret (map (λ d, KpiRow (kd_run_id d) (kd_metric d) (kd_value d) (kd_sim_clock d)) l).

(** A document has no [ingested_at]; [_updated] stands in for it. *)
Definition read_run_kpi_columns (run_id : string) : eff W (option (list (kpi_key * (float64 * option datetime)))) :=
  l ← kpi_docs run_id;
  mret (Some (map (λ d, ((kd_metric d, kd_sim_clock d), (kd_value d, Some (kd_updated d)))) l)).

Definition read_run_breakdown_rows (sort : list crow → list crow) (run_id : string) : eff W (list crow) :=
  l ← mongo (at_breakdown (find (λ d, in_run run_id d && is_row d)));
  mret (map (filter (λ kv, kv.1 ∉ ["_id"; "doc_type"; "_created"])) (sort l)).

(** What the archive answers while it is left alone. *)
Definition mongo_source (sort : list crow → list crow) (w : W) : source := {|
  src_has_run r := (has_run r w).1;
  src_frames r := (read_run_frames r w).1;
  src_kpi_events r := (read_run_kpi_events r w).1;
  src_frame_docs := Some (λ r, (read_run_frame_docs r w).1);
  src_kpi_columns := Some (λ r, (read_run_kpi_columns r w).1);
  src_breakdown_columns := None;
  src_breakdown_rows := Some (λ r, (read_run_breakdown_rows sort r w).1);
  src_run_summary := Some (λ r, (run_summary r w).1);
|}.
End ArchiveSource.

(** ** An evicted run comes back *)

Section Return.
Context `{PyText, NumpyLaws, DuckEnv}.

Lemma all_frames_nonempty l f : f ∈ all_frames l → frame_n f ≠ 0%nat.
Proof.
  intros Hf%elem_of_window_frames. apply frame_of_rows_some in Hf as (x & Hx & E). rewrite E. unfold frame_n. simpl.
  rewrite length_fmap. intros E0%length_zero_iff_nil. rewrite E0 in Hx. by apply elem_of_nil in Hx.
Qed.

Lemma length_rows_of r f : frame_wf f → length (rows_of r f) = frame_n f.
Proof.
  intros Hf. destruct (even_frame f Hf) as (E1 & E2 & E3 & E4 & E5 & E6). unfold rows_of, column_rows. change (frame_n f) with (length (c_lng (frame_columns f))).
  revert E1 E2 E3 E4 E5 E6. generalize (c_idx (frame_columns f)), (c_time (frame_columns f)), (c_slot (frame_columns f)), (c_lng (frame_columns f)),
    (c_lat (frame_columns f)), (c_state (frame_columns f)), (c_haulier (frame_columns f)).
  induction l as [|? ? IH]; intros [|? ?] [|? ?] [|? ?] [|? ?] [|? ?] [|? ?]; simpl; intros; try lia. f_equal. apply IH; lia.
Qed.

Lemma py_sorted_twice {A} (leb : A → A → bool) `{!TotalOn always leb} l : py_sorted leb (py_sorted leb l) = py_sorted leb l.
Proof.
  assert (sorted_by leb (py_sorted leb l)) as Hs by (apply (py_sorted_sorted leb always); by apply Forall_true).
  unfold sorted_by in Hs. induction Hs as [|x k Hk IH Hx]; [done|]. cbn [py_sorted]. rewrite IH.
  destruct k as [|y k]; [done|]. simpl. rewrite Forall_forall in Hx. by rewrite (Hx y ltac:(by left)).
Qed.

Lemma last_rows_NoDup {K V} `{Countable K} (l : list (K * V)) k v :
  base.NoDup l.*1 → last_rows l !! k = Some v ↔ (k, v) ∈ l.
Proof.
  intros Hnd. unfold last_rows. rewrite <- elem_of_list_to_map, elem_of_reverse; [done|]. by rewrite reverse_Permutation.
Qed.

Lemma run_kpi_NoDup r t : base.NoDup (run_kpi r t).*1.
Proof.
  unfold run_kpi. assert (base.NoDup (map_to_list (t_kpi t)).*1) as Hnd by apply NoDup_fst_map_to_list.
  revert Hnd. induction (map_to_list (t_kpi t)) as [|[[r' k] x] l IH]; [constructor|]. intros [Hn Hl]%NoDup_cons. cbn [omap list_omap].
  simpl. case_bool_decide as E; [|by apply IH]. simpl. constructor; [|by apply IH]. intros Hk. apply Hn. subst r'.
  apply list_elem_of_fmap in Hk as ([k' x'] & -> & Hk). apply list_elem_of_omap in Hk as ([[r' k2] x2] & Hin & E).
  simpl in E. case_bool_decide; [|done]. injection E as -> ->. subst r'. by apply (list_elem_of_fmap_2 fst) in Hin.
Qed.

End Return.

Module RehydrationExamples.
Import ArchiveExamples.
#[local] Existing Instances text numpy.
#[local] Instance numpy_ok : NumpyLaws.
Proof. split; [done|]. intros buf w n off Hle. simpl. by rewrite decide_True. Qed.
#[local] Instance duck_env : DuckEnv := {| duck_clock := λ _, t1; json_dumps := λ _, Ok "{}"; np_datetime := λ _, Raise ValueError; try_cast_bigint := λ _, None |}.

(** The run of the example, archived, evicted from the working set, and asked for again. *)
Definition emptied : duck := (evict_run "run" (duck_of some_store)).2.
Definition archived : source := mongo_source (λ l, l) w2.

Definition frame0 : frame := Frame 0 1000 [30; 10] [40; 20] [0; 1] [3; 2] [1; 0] KIND_KEYFRAME FRAME_VERSION.

Lemma one_frame : all_frames (run_rows "run" some_tables) = [frame0].
Proof. by vm_compute. Qed.

Lemma one_document : (read_run_frame_docs "run" w2).1 = Ok [(frame_to_doc "run" (clock 0) frame0).2].
Proof. by vm_compute. Qed.

End RehydrationExamples.
