(* ===== verification/Messages.v ===== *)
(** The messages of the data plane: run statuses, metric values and times as the
    handlers parse them ([dataplane/ingest/parse.py]), and the bus that forwards live
    events to subscribers ([_LiveBus] of [dataplane/service.py]). *)

From Stdlib Require Import SpecFloat.
From stdpp Require Import sorting.
From S2P Require Import Prelude PyValue ArchiveDocs.
Open Scope Z_scope.

(** ** Run statuses *)

Definition _EXPORT_STATUSES : list string :=
  ["COMPLETED"; "FAILED"; "ERROR"; "CANCELLED"; "CANCELED"; "STOP"; "STOPPED"; "ABORT"; "ABORTED"; "KILLED";
   "TERMINATED"; "INTERRUPTED"; "CRASHED"; "TIMEOUT"; "TIMED_OUT"].

Definition RunTerminalOutcome : list string :=
  ["completed"; "failed"; "cancelled"; "stopped"; "aborted"; "terminated"; "interrupted"; "crashed"; "timeout";
   "inactive"].

(** The first of some keys that holds text. *)
Fixpoint first_text (d : pydict) (keys : list string) : option string :=
  match keys with
  | [] => None
  | k :: keys =>
      match get d k with
      | PStr raw => if bool_decide (strip raw = "") then first_text d keys else Some (strip raw)
      | _ => first_text d keys
      end
  end.

Definition _extract_status (payload : pyval) : option string :=
  match payload with
  | PStr s => Some (strip s)
  | PDict d => first_text d ["status"; "run_status"; "state"]
  | _ => None
  end.

Definition is_simulation_lifecycle_message (payload : pyval) : bool :=
  match payload with
  | PDict d =>
      match get d "lifecycle_scope" with
      | PNone => true
      | PStr s => bool_decide (s = "simulation")
      | _ => false
      end
  | _ => true
  end.

Definition _outcome_label (status_upper : string) : string :=
  if bool_decide (status_upper = "COMPLETED") then "completed"
  else if bool_decide (status_upper ∈ ["FAILED"; "ERROR"; "CRASHED"]) then "failed"
  else if bool_decide (status_upper ∈ ["CANCELLED"; "CANCELED"]) then "cancelled"
  else if bool_decide (status_upper ∈ ["STOP"; "STOPPED"; "STOPPING"]) then "stopped"
  else if bool_decide (status_upper ∈ ["ABORT"; "ABORTED"]) then "aborted"
  else if bool_decide (status_upper ∈ ["KILLED"; "TERMINATED"]) then "terminated"
  else if bool_decide (status_upper = "INTERRUPTED") then "interrupted"
  else if bool_decide (status_upper ∈ ["TIMEOUT"; "TIMED_OUT"]) then "timeout"
  else lower status_upper.

(** [payload.get("simulation_active") is False], of a dictionary. *)
Definition inactive (payload : pyval) : bool :=
  match payload with
  | PDict d => match get d "simulation_active" with PBool false => true | _ => false end
  | _ => false
  end.

Definition ends_run (u : string) : bool := has_substring "STOP" u || has_substring "CANCEL" u || has_substring "ABORT" u.

Definition should_export_run_status (payload : pyval) : option string :=
  if negb (is_simulation_lifecycle_message payload) then None
  else
  let by_status :=
    match _extract_status payload with
    | Some status =>
        if bool_decide (status = "") then None
        else
        let normalized := upper status in
        if bool_decide (normalized ∈ _EXPORT_STATUSES) then Some (_outcome_label normalized)
        else if bool_decide (normalized = "RUNNING") then None
        else if inactive payload then Some (_outcome_label normalized)
        else if ends_run normalized then Some (_outcome_label normalized)
        else None
    | None => None
    end in
  match by_status with
  | Some reason => Some reason
  | None => if inactive payload then Some "inactive" else None
  end.

Definition parse_run_terminal_outcome (value : pyval) : option string :=
  match should_export_run_status value with
  | None => None
  | Some reason => if bool_decide (reason ∈ RunTerminalOutcome) then Some reason else Some "inactive"
  end.

(** ** Metric values and times *)

(** What lies outside the source: the parsers of a clock and of a timestamp, and
    [datetime.timestamp]. *)
Class TimeText := {
  parse_sim_clock : pyval → result datetime;
  epoch_ms : datetime → float64;
}.

Section Values.
Context `{PyText, TimeText}.

Definition coerce_metric_value (raw : pyval) : result float64 :=
  if is_none raw then Ok f_zero else py_float raw.

Definition sim_time_ms (raw : pyval) : result float64 :=
  match raw with
  | PInt _ | PFloat _ => py_float raw
  | _ => t ← parse_sim_clock raw; Ok (epoch_ms t)
  end.
End Values.

(** ** The live bus

    Events of one run are numbered from a counter all runs share; the oldest go when a
    run's window is full. *)

Abbreviation event := (Z * (string * pyval))%type.

Record live_bus : Type := LiveBus { bus_runs : list (string * list event); max_per_run : nat; seq_no : Z }.

Definition new_bus (max_per_run : nat) : live_bus := LiveBus [] max_per_run 0.

(** [deque(maxlen=n)] *)
Definition appended {A} (n : nat) (buf : list A) (a : A) : list A := drop (length (buf ++ [a]) - n) (buf ++ [a]).

Definition publish (run_id event : string) (payload : pyval) (b : live_bus) : live_bus :=
  if bool_decide (run_id = "") then b
  else
  let n := seq_no b + 1 in
  let buf := default [] (d_get (bus_runs b) run_id) in
  LiveBus (d_set (bus_runs b) run_id (appended (max_per_run b) buf (n, (event, payload)))) (max_per_run b) n.

Definition since (run_id : string) (cursor : Z) (limit : nat) (b : live_bus) : list event * Z :=
  match d_get (bus_runs b) run_id with
  | None | Some [] => ([], cursor)
  | Some buf =>
      let out := take limit (filter (λ e, cursor < e.1) buf) in
      (out, match last out with Some e => e.1 | None => cursor end)
  end.

Definition head (run_id : string) (b : live_bus) : Z :=
  match d_get (bus_runs b) run_id with Some buf => match last buf with Some e => e.1 | None => 0 end | None => 0 end.

Definition drop_run (run_id : string) (b : live_bus) : live_bus :=
  LiveBus (d_del (bus_runs b) run_id) (max_per_run b) (seq_no b).

Definition bus_stats (b : live_bus) : nat * nat := (length (bus_runs b), length (concat (map snd (bus_runs b)))).

(** ** What ends a run *)

(** A status that ends the run by itself. *)
Definition terminal_status (status : string) : Prop :=
  upper status ∈ _EXPORT_STATUSES ∨
  ∃ word, word ∈ ["STOP"; "CANCEL"; "ABORT"] ∧ has_substring word (upper status) = true.

Lemma ends_run_words u : ends_run u = true ↔ ∃ word, word ∈ ["STOP"; "CANCEL"; "ABORT"] ∧ has_substring word u = true.
Proof.
  unfold ends_run. rewrite !orb_true_iff. split.
  - intros [[E|E]|E]; eexists; (split; [|exact E]); set_solver.
  - intros (w & Hw & E). rewrite !elem_of_cons, elem_of_nil in Hw. destruct Hw as [-> |[-> |[-> |[]]]]; auto.
Qed.

Lemma RUNNING_goes_on : ends_run "RUNNING" = false.
Proof. by vm_compute. Qed.

(** What the status alone says, of a payload that does not say the simulation is over. *)
Definition should_status (status : string) : option string :=
  match (if bool_decide (status = "") then None
         else if bool_decide (upper status ∈ _EXPORT_STATUSES) then Some (_outcome_label (upper status))
         else if bool_decide (upper status = "RUNNING") then None
         else if ends_run (upper status) then Some (_outcome_label (upper status)) else None) with
  | Some reason => Some reason
  | None => None
  end.

Lemma should_status_spec status : is_Some (should_status status) ↔ terminal_status status.
Proof.
  unfold should_status, terminal_status. rewrite <- ends_run_words. case_bool_decide as E0.
  { subst. split; [by intros [? ?]|]. intros [Hin|Hend]; [|done].
    assert (bool_decide (upper "" ∈ _EXPORT_STATUSES) = false) as Hno by by vm_compute.
    by apply bool_decide_eq_false_1 in Hno. }
  case_bool_decide as E1; [split; [by left|by eexists]|]. case_bool_decide as E2.
  { split; [by intros [? ?]|]. intros [?|Hend]; [done|]. by rewrite E2, RUNNING_goes_on in Hend. }
  destruct (ends_run (upper status)); split.
  - by right.
  - by eexists.
  - intros [x Hx]. discriminate Hx.
  - by intros [?|?].
Qed.

Lemma export_cases payload :
  is_Some (should_export_run_status payload) ↔
  is_simulation_lifecycle_message payload = true ∧
  (inactive payload = true ∨ ∃ status, _extract_status payload = Some status ∧ terminal_status status).
Proof.
  unfold should_export_run_status. destruct (is_simulation_lifecycle_message payload); simpl; [|split; [by intros [? ?]|by intros [? _]]].
  destruct (inactive payload) eqn:Ei.
  { split; [by auto|]. intros _. repeat case_match; by eexists. }
  destruct (_extract_status payload) as [status|] eqn:Es; [|split; [by intros [? ?]|by intros [_ [?|(s & ? & _)]]]].
  assert (is_Some (should_status status) ↔ terminal_status status) as Hs by apply should_status_spec.
  split.
  - intros Hx. split; [done|]. right. exists status. split; [done|]. apply Hs. exact Hx.
  - intros [_ [?|(s & [= <-] & Ht)]]; [done|]. by apply Hs.
Qed.


(** ** What a subscriber sees *)

(** Calls on the bus around one subscriber, who asks with the cursor it was given last. *)
Inductive bus_op : Type :=
| Publish (run_id event : string) (payload : pyval)
| Poll (limit : nat).

(** The subscriber of [r]: where it is and what it has received; [log]: every event
    published for the run. *)
Record following : Type := Following { f_bus : live_bus; cursor : Z; received : list event; log : list event }.

Definition follow (r : string) (st : following) (o : bus_op) : following :=
  match o with
  | Publish r' e p =>
      Following (publish r' e p (f_bus st)) (cursor st) (received st)
        (if bool_decide (r' = r ∧ r' ≠ "") then log st ++ [(seq_no (f_bus st) + 1, (e, p))] else log st)
  | Poll limit =>
      let '(out, c) := since r (cursor st) limit (f_bus st) in Following (f_bus st) c (received st ++ out) (log st)
  end.

Definition missed (st : following) : nat := length (log st) - length (received st).

(** The subscriber keeps up: at no poll has it more to catch up with than the window holds. *)
Fixpoint keeps_up (r : string) (st : following) (ops : list bus_op) : Prop :=
  match ops with
  | [] => True
  | o :: ops =>
      (match o with Poll _ => (missed st ≤ max_per_run (f_bus st))%nat | Publish _ _ _ => True end) ∧
      keeps_up r (follow r st o) ops
  end.

Definition window {A} (n : nat) (l : list A) : list A := drop (length l - n) l.

Lemma appended_window {A} n (l : list A) a : appended n (window n l) a = window n (l ++ [a]).
Proof.
  unfold appended, window. rewrite !length_app, length_drop. simpl.
  destruct (decide (length l ≤ n)%nat) as [Hn|Hn].
  - replace (length l - n)%nat with 0%nat by lia. rewrite drop_0. do 2 f_equal. lia.
  - rewrite <- (drop_app_le l [a] (length l - n)) by lia. rewrite drop_drop. f_equal. lia.
Qed.

Record follows (r : string) (st : following) (pending : list event) : Prop := {
  log_split : log st = received st ++ pending;
  in_window : default [] (d_get (bus_runs (f_bus st)) r) = window (max_per_run (f_bus st)) (log st);
  received_past : Forall (λ e, e.1 ≤ cursor st) (received st);
  pending_ahead : Forall (λ e, cursor st < e.1) pending;
  pending_sorted : StronglySorted (λ e e', e.1 < e'.1) pending;
  below_seq : Forall (λ e, e.1 ≤ seq_no (f_bus st)) (log st);
  cursor_seq : cursor st ≤ seq_no (f_bus st);
}.

Lemma follows_publish r st pending r' e p : follows r st pending → r ≠ "" →
  follows r (follow r st (Publish r' e p)) (if bool_decide (r' = r ∧ r' ≠ "") then pending ++ [(seq_no (f_bus st) + 1, (e, p))] else pending).
Proof.
  intros [Hs Hw Hr Hp Hso Hb Hc] Hne. destruct (decide (r' = r ∧ r' ≠ "")) as [E|E];
    [rewrite (bool_decide_true _ E)|rewrite (bool_decide_false _ E)]; unfold follow, publish;
    [rewrite (bool_decide_true _ E)|rewrite (bool_decide_false (r' = r ∧ r' ≠ "") E)].
  - destruct E as [-> _]. rewrite bool_decide_false by done. split; simpl; try done.
    + by rewrite Hs, app_assoc.
    + rewrite d_get_set_eq. simpl. rewrite Hw. apply appended_window.
    + apply Forall_app. split; [done|]. repeat constructor. simpl. lia.
    + rewrite Hs in Hb. apply Forall_app in Hb as [_ Hb]. clear -Hso Hb.
      induction Hso as [|x l Hl IH Hx]; simpl; [repeat constructor|]. apply Forall_cons in Hb as [Hx' Hb]. constructor; [auto|].
      apply Forall_app. split; [done|]. repeat constructor. simpl. lia.
    + apply Forall_app. split; [|repeat constructor; simpl; lia]. eapply Forall_impl; [exact Hb|]. simpl. lia.
    + lia.
  - case_bool_decide as E'; [by split|]. split; simpl; try done.
    + rewrite d_get_set_ne; [done|]. intros ->. by destruct E.
    + eapply Forall_impl; [exact Hb|]. simpl. lia.
    + lia.
Qed.

Lemma follows_poll r st pending limit : follows r st pending → (missed st ≤ max_per_run (f_bus st))%nat →
  follows r (follow r st (Poll limit)) (drop limit pending).
Proof.
  intros [Hs Hw Hr Hp Hso Hb Hc] Hm. unfold missed in Hm. rewrite Hs, length_app in Hm.
  assert (since r (cursor st) limit (f_bus st) =
          (take limit pending, match last (take limit pending) with Some e => e.1 | None => cursor st end)) as E.
  { unfold since. assert (filter (λ e : event, cursor st < e.1) (default [] (d_get (bus_runs (f_bus st)) r)) = pending) as Ef.
    { rewrite Hw. unfold window. rewrite Hs, length_app, drop_app_le by lia. rewrite filter_app.
      assert (filter (λ e : event, cursor st < e.1) (drop (length (received st) + length pending - max_per_run (f_bus st)) (received st)) = []) as ->.
      { clear -Hr. set (k := (_ - _)%nat). clearbody k. revert k. induction Hr as [|x l Hx _ IH]; intros k; [by rewrite drop_nil|].
        destruct k as [|k]; [|apply IH]. simpl. rewrite filter_cons_False by lia. exact (IH 0%nat). }
      simpl. clear -Hp. induction Hp as [|x l Hx _ IH]; [done|]. rewrite filter_cons_True by done. by rewrite IH. }
    destruct (d_get (bus_runs (f_bus st)) r) as [[|x buf]|]; simpl default in Ef; [| by rewrite Ef|];
      by rewrite <- Ef, filter_nil, take_nil. }
  unfold follow. rewrite E. set (c := match last (take limit pending) with Some e => e.1 | None => cursor st end).
  assert (cursor st ≤ c ∧ Forall (λ e, e.1 ≤ c) (take limit pending) ∧ Forall (λ e, c < e.1) (drop limit pending) ∧
          StronglySorted (λ e e', e.1 < e'.1) (drop limit pending)) as (Hcc & Htake & Hdrop & Hsd).
  { subst c. clear -Hp Hso. rewrite <- (take_drop limit pending) in Hso, Hp.
    apply Forall_app in Hp as [Hpt Hpd]. revert Hso Hpt Hpd. generalize (take limit pending) (drop limit pending). intros l k Hso Hpt Hpd.
    apply StronglySorted_app in Hso as (Hlk & Hl & Hk).
    destruct (last l) as [e|] eqn:El; [|apply last_None in El as ->; split; [lia|done]].
    apply last_Some in El as [l' ->]. apply StronglySorted_app in Hl as (Hl & _ & _).
    apply Forall_app in Hpt as [_ Hpt]. apply Forall_cons in Hpt as [Hpe _]. split; [lia|]. split; [|split; [|done]].
    - apply Forall_app. split; [|repeat constructor; lia]. apply Forall_forall. intros x Hx.
      assert (x.1 < e.1); [|lia]. apply Hl; [done|by left].
    - apply Forall_forall. intros x Hx. apply Hlk; [|done]. apply elem_of_app. right. by left. }
  split; simpl; try done.
  - by rewrite <- app_assoc, take_drop.
  - apply Forall_app. split; [|done]. eapply Forall_impl; [exact Hr|]. simpl. lia.
  - subst c. destruct (last (take limit pending)) as [e|] eqn:El; [|done]. apply last_Some in El as [l' El].
    rewrite Hs in Hb. apply Forall_app in Hb as [_ Hb]. rewrite Forall_forall in Hb. apply Hb.
    rewrite <- (take_drop limit pending). apply elem_of_app. left. rewrite El. apply elem_of_app. right. by left.
Qed.

(** C11: The live bus delivers exactly once and in order.  Whatever is published for this and
    other runs, a subscriber that asks with the cursor it was given, and never lets more
    events wait than the window holds, has received a prefix of what was published for its
    run, and what it has not received is what the bus gives it next. *)
Theorem live_events_exactly_once r limit n ops : r ≠ "" →
  keeps_up r (Following (new_bus n) 0 [] []) ops →
  let st := foldl (follow r) (Following (new_bus n) 0 [] []) ops in
  ∃ pending, log st = received st ++ pending ∧
    ((length pending ≤ max_per_run (f_bus st))%nat → (since r (cursor st) limit (f_bus st)).1 = take limit pending).
Proof.
  intros Hr Hk. assert (∃ pending, follows r (Following (new_bus n) 0 [] []) pending) as [pending Hf].
  { exists []. split; try done; constructor. }
  revert pending Hf Hk. generalize (Following (new_bus n) 0 [] []).
  induction ops as [|o ops IH]; intros st pending Hf Hk; simpl.
  - exists pending. split; [apply Hf|]. intros Hn.
    pose proof (follows_poll r st pending limit Hf) as Hp. unfold missed in Hp. rewrite (log_split _ _ _ Hf), length_app in Hp.
    specialize (Hp ltac:(lia)). apply log_split in Hp. unfold follow in Hp. destruct (since r (cursor st) limit (f_bus st)) as [out c].
    simpl in *. rewrite (log_split _ _ _ Hf), <-app_assoc in Hp. apply app_inv_head in Hp.
    rewrite <- (take_drop limit pending) in Hp at 1. by apply app_inv_tail in Hp.
  - destruct Hk as [Ho Hk]. destruct o as [r' e p|k].
    + eapply IH; [|exact Hk]. by apply follows_publish.
    + eapply IH; [|exact Hk]. by apply follows_poll.
Qed.

Module BusExamples.
Definition calls : list bus_op :=
  [Publish "a" "trip" (PInt 1); Publish "b" "trip" (PInt 2); Poll 5; Publish "a" "kpi" (PInt 3); Publish "a" "status" (PInt 4); Poll 1].

Lemma live_events_exactly_once_witness :
  received (foldl (follow "a") (Following (new_bus 2) 0 [] []) calls) = [(1, ("trip", PInt 1)); (3, ("kpi", PInt 3))] ∧
  (since "a" 3 9 (f_bus (foldl (follow "a") (Following (new_bus 2) 0 [] []) calls))).1 = [(4, ("status", PInt 4))].
Proof.
  split; [by vm_compute|].
  destruct (live_events_exactly_once "a" 9 2 calls) as (pending & Hlog & Hnext); [done|by vm_compute; repeat split; lia|].
  assert (pending = [(4, ("status", PInt 4))]) as -> by (vm_compute in Hlog; congruence).
  apply Hnext. vm_compute. lia.
Defined.
End BusExamples.
