(* ===== verification/Service.v ===== *)
(** The process of the data plane ([dataplane/service.py]): its handlers over the hot
    tier ([HotStore]) and the working set ([DuckStore]), the sequence that closes a run,
    the code books, and the queue of dumps.

    A step is one handler call, one sweep, one drain of the queue or one reconciliation;
    between steps the store, the consumer and the archive may change.  The consumer and
    the archive are interfaces: [ConsumerTier], [ArchiveTier]. *)

From Stdlib Require Import SpecFloat.
From S2P Require Import Prelude PyValue Frame EffLogic ArchiveDocs Archive HotStore DuckStore Messages.
Open Scope Z_scope.

(** ** Collaborators *)

Class ConsumerTier (C : Type) := {
  blocked_topics : C → list string;
  (* The bookkeeping after a flush that succeeded, or not. *)
  flushed : bool → C → C;
  (* A record the process threw away. *)
  note_discard : string → C → C;
}.

Class ArchiveTier (A : Type) := {
  tier_dump : duck → string → string → option bool → A → result dump_result * A;
  tier_reconcile : duck → A → result sweep_result * A;
  tier_is_pending : duck → string → A → result bool * A;
}.

(** What lies outside the source: [json.loads], numpy's representation of a float, the
    text of an exception. *)
Class ServiceEnv := {
  json_loads : string → result pyval;
  float_bits : float64 → Z;
  exn_text : exn → string;
}.

(** ** State *)

(** What the process remembers of each run. *)
Record books : Type := Books {
  updates : list (string * Z);
  captured : list (string * Z);
  first_seen : list (string * datetime);
  max_frame_idx : list (string * Z);
  meta_sig : list (string * (nat * nat));
  run_identity : list (string * (list (string * string) * option Z));
  restored_runs : list string;
  finalized : list string;
}.

Record service {C A : Type} : Type := Service {
  hot : option HotStore.store;
  db : duck;
  consumer : option C;
  archive_tier : option A;
  runs_book : books;
  kpi_buffer : list kpi_row;
  dump_queue : list (string * string);
  dump_queued : list (string * string);
  counters : list (string * Z);
  bus : live_bus;
}.
Arguments service : clear implicits.
Arguments Service {C A}.

Definition BREAKDOWN_SCOPES : list string := ["truck"; "haulier"; "planner"; "lane"].
Definition HOT_MAX_RUNS : Z := 64.
Definition initial_capacity : Z := 1024.
Definition carryover_runs : Z := 64.
Definition RuntimeError : exn := OtherError "RuntimeError".

Definition with_updates u (b : books) : books :=
  Books u (captured b) (first_seen b) (max_frame_idx b) (meta_sig b) (run_identity b) (restored_runs b) (finalized b).
Definition with_captured c (b : books) : books :=
  Books (updates b) c (first_seen b) (max_frame_idx b) (meta_sig b) (run_identity b) (restored_runs b) (finalized b).
Definition with_first_seen f (b : books) : books :=
  Books (updates b) (captured b) f (max_frame_idx b) (meta_sig b) (run_identity b) (restored_runs b) (finalized b).
Definition with_max_idx m (b : books) : books :=
  Books (updates b) (captured b) (first_seen b) m (meta_sig b) (run_identity b) (restored_runs b) (finalized b).
Definition with_meta_sig m (b : books) : books :=
  Books (updates b) (captured b) (first_seen b) (max_frame_idx b) m (run_identity b) (restored_runs b) (finalized b).
Definition with_identity i (b : books) : books :=
  Books (updates b) (captured b) (first_seen b) (max_frame_idx b) (meta_sig b) i (restored_runs b) (finalized b).
Definition with_restored r (b : books) : books :=
  Books (updates b) (captured b) (first_seen b) (max_frame_idx b) (meta_sig b) (run_identity b) r (finalized b).
Definition with_finalized f (b : books) : books :=
  Books (updates b) (captured b) (first_seen b) (max_frame_idx b) (meta_sig b) (run_identity b) (restored_runs b) f.

Section Effects.
Context {C A : Type}.
Abbreviation S := (service C A).

Definition with_hot h (s : S) : S :=
  Service h (db s) (consumer s) (archive_tier s) (runs_book s) (kpi_buffer s) (dump_queue s) (dump_queued s) (counters s) (bus s).
Definition with_db d (s : S) : S :=
  Service (hot s) d (consumer s) (archive_tier s) (runs_book s) (kpi_buffer s) (dump_queue s) (dump_queued s) (counters s) (bus s).
Definition with_consumer c (s : S) : S :=
  Service (hot s) (db s) c (archive_tier s) (runs_book s) (kpi_buffer s) (dump_queue s) (dump_queued s) (counters s) (bus s).
Definition with_archive a (s : S) : S :=
  Service (hot s) (db s) (consumer s) a (runs_book s) (kpi_buffer s) (dump_queue s) (dump_queued s) (counters s) (bus s).
Definition with_books (f : books → books) (s : S) : S :=
  Service (hot s) (db s) (consumer s) (archive_tier s) (f (runs_book s)) (kpi_buffer s) (dump_queue s) (dump_queued s) (counters s) (bus s).
Definition with_buffer k (s : S) : S :=
  Service (hot s) (db s) (consumer s) (archive_tier s) (runs_book s) k (dump_queue s) (dump_queued s) (counters s) (bus s).
Definition with_queue q k (s : S) : S :=
  Service (hot s) (db s) (consumer s) (archive_tier s) (runs_book s) (kpi_buffer s) q k (counters s) (bus s).
Definition with_counters c (s : S) : S :=
  Service (hot s) (db s) (consumer s) (archive_tier s) (runs_book s) (kpi_buffer s) (dump_queue s) (dump_queued s) c (bus s).
Definition with_bus b (s : S) : S :=
  Service (hot s) (db s) (consumer s) (archive_tier s) (runs_book s) (kpi_buffer s) (dump_queue s) (dump_queued s) (counters s) b.

Definition put (f : S → S) : eff S unit := λ s, (Ok tt, f s).
Definition peek {X} (f : S → X) : eff S X := λ s, (Ok (f s), s).
Definition keep (f : books → books) : eff S unit := put (with_books f).
Definition book {X} (f : books → X) : eff S X := peek (λ s, f (runs_book s)).

Definition in_duck {X} (m : eff duck X) : eff S X := λ s, let '(r, d) := m (db s) in (r, with_db d s).
Definition forward (run_id event : string) (payload : pyval) : eff S unit :=
  put (λ s, with_bus (publish run_id event payload (bus s)) s).

(** [_count] *)
Definition _count (key : string) : eff S unit :=
  put (λ s, with_counters (d_set (counters s) key (default 0 (d_get (counters s) key) + 1)) s).
End Effects.

Section Service.
Context `{PyText, Numpy, HotEnv, DuckEnv, TimeText, ServiceEnv, ConsumerTier C, ArchiveTier A}.
Abbreviation S := (service C A).

Definition _discard (reason : string) : eff S unit :=
  _ ← _count reason; put (λ s, with_consumer (option_map (note_discard reason) (consumer s)) s).

(** [_seed_frame_idx] *)
Definition _seed_frame_idx (d : duck) (run_id : string) : result pyval :=
  match frame_range d run_id with
  | Ok (Some (_, hi)) => Ok (PInt (hi + 1))
  | _ => Ok PNone
  end.

Definition seeded (d : duck) (h : HotStore.store) : HotStore.store := set_frame_idx_seed (Some (_seed_frame_idx d)) h.

(** The [hot] property, and a call of the hot tier once it exists. *)
Definition build_hot : eff S unit := put (λ s, match hot s with
  | Some _ => s
  | None => with_hot (Some (new_store HOT_MAX_RUNS initial_capacity carryover_runs (Some (_seed_frame_idx (db s))))) s
  end).

Definition in_hot {X} (m : eff HotStore.store X) : eff S X := λ s,
  match hot s with
  | None => (Raise AttributeError, s)
  | Some h => let '(r, h) := m (seeded (db s) h) in (r, with_hot (Some h) s)
  end.

(** ** Handlers *)

Definition discardable (e : exn) : bool :=
  match e with TypeError | ValueError | OverflowError => true | _ => false end.

Definition on_kpi (run_id : string) (payload : pydict) : eff S unit :=
  let metric := get payload "metric" in
  if negb (truth metric) then _discard "kpi_malformed"
  else
  _ ← forward run_id "kpi" (PDict payload);
  match (v ← coerce_metric_value (get payload "value"); t ← parse_sim_clock (get payload "sim_clock");
         Ok (KpiRow run_id (py_str metric) v t)) with
  | Ok row => _ ← put (λ s, with_buffer (kpi_buffer s ++ [row]) s); _count "kpi"
  | Raise e => if discardable e then _discard "kpi_malformed" else lift (Raise e)
  end.

Definition flush_writes : eff S unit :=
  rows ← peek kpi_buffer;
  _ ← put (with_buffer []);
  if bool_decide (rows = []) then mret tt else _ ← in_duck (DuckStore.write_kpi_events rows); mret tt.

Definition is_dict (v : pyval) : bool := match v with PDict _ => true | _ => false end.

(** [((breakdown or {}).get("entities")) or []], of an envelope that is a dictionary or
    nothing. *)
Definition entities_of (breakdown : pyval) : pyval :=
  let found := match breakdown with PDict d => get d "entities" | _ => PNone end in
  if truth found then found else PList [].

Definition dicts (l : list pyval) : list pydict := omap (λ v, match v with PDict d => Some d | _ => None end) l.

Definition on_kpi_breakdown (run_id : string) (payload : pydict) : eff S unit :=
  match get payload "scope" with
  | PStr scope =>
      if bool_decide (scope ∉ BREAKDOWN_SCOPES) then _discard "kpi_breakdown_unknown_scope"
      else if negb (truth (get payload "sim_clock")) then _discard "kpi_breakdown_malformed"
      else
      match parse_sim_clock (get payload "sim_clock") with
      | Raise e => if discardable e then _discard "kpi_breakdown_malformed" else lift (Raise e)
      | Ok clock =>
          let breakdown := get payload "breakdown" in
          if negb (is_none breakdown) && negb (is_dict breakdown) then _discard "kpi_breakdown_malformed"
          else
          match entities_of breakdown with
          | PList entities =>
              let clean := dicts entities in
              _ ← (if (length clean =? length entities)%nat then mret tt else _discard "kpi_breakdown_entities_dropped");
              _ ← in_duck (write_breakdown_batch run_id [Snapshot scope clock (truth (get payload "final")) clean]);
              _count "kpi_breakdown"
          | _ => _discard "kpi_breakdown_malformed"
          end
      end
  | _ => _discard "kpi_breakdown_unknown_scope"
  end.

(** *** The code books of a run *)

(** [_load_code_map] *)
Definition code_entry (p : string * pyval) : result (option (string * Z)) :=
  match py_int p.2 with
  | Ok z => Ok (Some (p.1, z))
  | Raise TypeError | Raise ValueError => Ok None
  | Raise e => Raise e
  end.

Definition as_dict (l : list (string * Z)) : list (string * Z) := foldl (λ d p, d_set d p.1 p.2) [] l.

Definition _load_code_map (raw : cell) : result (list (string * Z)) :=
  let from (d : pydict) := l ← omap_result code_entry d; Ok (as_dict l) in
  match raw with
  | CVal (PDict d) => from d
  | CVal (PStr s) =>
      if bool_decide (s = "") then Ok []
      else match json_loads s with
      | Ok (PDict d) => from d
      | Ok _ | Raise TypeError | Raise ValueError => Ok []
      | Raise e => Raise e
      end
  | _ => Ok []
  end.

(** [_merge_code_map]: what is on disk wins. *)
Definition merged (persisted live : list (string * Z)) : list (string * Z) := foldl (λ d p, d_set d p.1 p.2) live persisted.

Definition conflicts (persisted live : list (string * Z)) : list string :=
  map fst (filter (λ p, match d_get live p.1 with Some v => negb (v =? p.2) | None => false end = true) persisted).

Definition _merge_code_map (persisted live : list (string * Z)) : eff S (list (string * Z)) :=
  _ ← (if bool_decide (conflicts persisted live = []) then mret tt
       else put (λ s, with_counters (d_set (counters s) "code_book_conflicts"
              (default 0 (d_get (counters s) "code_book_conflicts") + Z.of_nat (length (conflicts persisted live)))) s));
  mret (merged persisted live).

(** [json.dumps(codes, sort_keys=True)] *)
Definition dumps_codes (codes : list (string * Z)) : result string :=
  json_dumps (PDict (map (λ p, (p.1, PInt p.2)) (py_sorted (on_key fst String.leb) codes))).

(** The live books; nothing of a run the hot tier does not hold. *)
Definition live_books (run_id : string) : eff S (option (list (string * Z) * list (string * Z))) :=
  h ← peek hot;
  match h with
  | None => mret (Some ([], []))
  | Some _ => try_except
      (codes ← in_hot (HotStore.haulier_codes run_id); slots ← in_hot (HotStore.slot_map run_id);
       mret (Some (codes, map (λ p, (p.1, Z.of_nat p.2)) slots)))
      (mret None)
  end.

Definition _utcnow_naive : eff S datetime := in_duck (duck_now duck_clock).

(** [dict.setdefault] *)
Definition setdefault {V} (d : list (string * V)) (k : string) (v : V) : list (string * V) :=
  match d_get d k with Some _ => d | None => d_set d k v end.

Definition persist_run_meta (run_id : string) (status : option string) (force : bool) : eff S bool :=
  h ← peek hot;
  let forced := force || bool_decide (status ≠ None) in
  if bool_decide (h = None) && negb forced then mret false
  else
  live ← live_books run_id;
  if bool_decide (live = None) && negb forced then mret false
  else
  let '(codes, slots) := default ([], []) live in
  existing ← peek (λ s, match get_run_meta (db s) run_id with Ok (Some m) => m | _ => [] end);
  old_codes ← lift (_load_code_map (cget existing "haulier_codes"));
  codes ← _merge_code_map old_codes codes;
  old_slots ← lift (_load_code_map (cget existing "slot_map"));
  slots ← _merge_code_map old_slots slots;
  let sig := (length codes, length slots) in
  known ← book (λ b, d_get (meta_sig b) run_id);
  if negb forced && bool_decide (known = Some sig) then mret false
  else
  now ← _utcnow_naive;
  _ ← keep (λ b, with_first_seen (setdefault (first_seen b) run_id now) b);
  seen ← book (λ b, default now (d_get (first_seen b) run_id));
  max_idx ← book (λ b, d_get (max_frame_idx b) run_id);
  last ← _utcnow_naive;
  code_text ← (if bool_decide (codes = []) then mret [] else s ← lift (dumps_codes codes); mret [("haulier_codes", CVal (PStr s))]);
  slot_text ← (if bool_decide (slots = []) then mret []
               else s ← lift (dumps_codes slots);
                    mret [("slot_map", CVal (PStr s)); ("n_trucks", CVal (PInt (Z.of_nat (length slots))))]);
  _ ← in_duck (upsert_run_meta run_id ([("first_seen", CTime seen); ("last_seen", CTime last); ("source", CVal (PStr "live"))] ++
        code_text ++ slot_text ++
        (match max_idx with Some i => [("max_frame_idx", CVal (PInt i))] | None => [] end) ++
        (match status with Some st => [("status", CVal (PStr st))] | None => [] end)));
  _ ← keep (λ b, with_meta_sig (d_set (meta_sig b) run_id sig) b);
  _ ← _count "meta_writes";
  mret true.

(** The identity a run had before this process saw it. *)
Definition restore_run_codes (run_id : string) : eff S bool :=
  latched ← book (λ b, bool_decide (run_id ∈ map fst (meta_sig b)) || bool_decide (run_id ∈ restored_runs b));
  if latched : bool then mret false
  else
  answer ← peek (λ s, get_run_meta (db s) run_id);
  match answer with
  | Raise _ => mret false
  | Ok found =>
      _ ← keep (λ b, with_restored (run_id :: restored_runs b) b);
      match found with
      | None | Some [] => mret false
      | Some meta =>
          _ ← match cget meta "first_seen" with
              | CTime t => keep (λ b, with_first_seen (d_set (first_seen b) run_id t) b)
              | _ => mret tt
              end;
          start ← lift (_as_int (cget meta "max_frame_idx"));
          _ ← match start with Some i => keep (λ b, with_max_idx (d_set (max_frame_idx b) run_id i) b) | None => mret tt end;
          codes ← lift (_load_code_map (cget meta "haulier_codes"));
          slots ← lift (_load_code_map (cget meta "slot_map"));
          if bool_decide (codes = []) && bool_decide (slots = []) && bool_decide (start = None) then mret false
          else
          _ ← build_hot;
          try_except
            (_ ← in_hot (seed_run_identity run_id codes (map (λ p, (p.1, Z.to_nat p.2)) slots)
                   (match start with Some i => PInt (i + 1) | None => PNone end));
             _ ← _count "runs_restored"; mret true)
            (mret false)
      end
  end.

(** *** Positions *)

Definition unhashable (v : pyval) : bool := match v with PDict _ | PList _ => true | _ => false end.

Definition is_str (v : pyval) (s : string) : bool := match v with PStr x => bool_decide (x = s) | _ => false end.

Definition on_trip_geo (run_id : string) (payload : pydict) : eff S unit :=
  _ ← forward run_id "trip" (PDict payload);
  let kind := get payload "type" in
  if is_str kind "trip_route" then _count "trip_route"
  else if is_str kind "trip_end" then _count "trip_end"
  else if negb (is_str kind "truck_loc") then _count "trip_geo_other"
  else
    let agent_id := get payload "truck_agent_id" in
    let haulier := get payload "haulier_id" in
    if negb (truth agent_id) || is_none (get payload "lon") || is_none (get payload "lat") || unhashable haulier
    then _discard "truck_loc_malformed"
    else
    match (lon ← py_float (get payload "lon"); lat ← py_float (get payload "lat");
           ms ← sim_time_ms (get payload "sim_clock"); Ok (lon, lat, ms)) with
    | Raise e => if discardable e then _discard "truck_loc_malformed" else lift (Raise e)
    | Ok (lon, lat, ms) =>
        over ← book (λ b, bool_decide (run_id ∈ finalized b));
        if over : bool then _count "trip_geo_other"
        else
        _ ← restore_run_codes run_id;
        _ ← build_hot;
        _ ← in_hot (update_position run_id (py_str agent_id) (float_bits lon) (float_bits lat) (get payload "haul_state")
               (if is_none haulier then None else Some (py_str haulier)) (float_bits ms));
        now ← _utcnow_naive;
        _ ← keep (λ b, with_first_seen (setdefault (first_seen b) run_id now)
              (with_updates (d_set (updates b) run_id (default 0 (d_get (updates b) run_id) + 1)) b));
        _count "truck_loc"
    end.

Definition on_facility (run_id : string) (payload : pydict) : eff S unit :=
  _ ← forward run_id "facility" (PDict payload); _count "facility_stream".

Definition on_perf : eff S unit := _count "perf".

(** *** Frames *)

(** One run's new frame, if it has one: how many were written. *)
Definition capture_run (run_id : string) : eff S Z :=
  h ← peek hot;
  if bool_decide (h = None) then mret 0
  else
  seq ← book (λ b, default 0 (d_get (updates b) run_id));
  seen ← book (λ b, d_get (captured b) run_id);
  if bool_decide (seen = Some seq) then _ ← _count "frames_skipped_idle"; mret 0
  else λ s,
  match in_hot (HotStore.snapshot run_id KIND_KEYFRAME) s with
  | (Raise e, s) => if decide (e = RunNotResident) then (_ ← _count "frames_not_resident"; mret 0) s else (Raise e, s)
  | (Ok f, s) =>
      let done := keep (λ b, with_captured (d_set (captured b) run_id seq) b) in
      if (frame_n f =? 0)%nat then (_ ← done; mret 0) s
      else match in_duck (DuckStore.write_frame run_id f) s with
      | (Raise e, s) =>
          (_ ← _count "frame_write_failures";
           _ ← try_except (_ ← in_hot (rollback_frame_idx run_id (PInt (frame_idx f))); mret tt) (mret tt);
           lift (Raise e)) s
      | (Ok _, s) =>
          (_ ← done;
           _ ← keep (λ b, if default (-1) (d_get (max_frame_idx b) run_id) <=? frame_idx f
                          then with_max_idx (d_set (max_frame_idx b) run_id (frame_idx f)) b else b);
           _ ← _count "frames_written"; mret 1) s
      end
  end.

(** Positions no frame on disk holds. *)
Definition _positions_uncaptured (run_id : string) (b : books) : bool :=
  bool_decide (d_get (updates b) run_id ≠ d_get (captured b) run_id).

Definition evict_run (run_id : string) : eff S bool :=
  h ← peek hot;
  if bool_decide (h = None) then mret false
  else try_except
    (evicted ← in_hot (HotStore.evict run_id);
     if evicted : bool
     then _ ← _count "runs_evicted";
          _ ← keep (λ b, with_captured (d_del (captured b) run_id) (with_updates (d_del (updates b) run_id) b)); mret true
     else mret false)
    (mret false).

(** Runs that left the hot tier on their own. *)
Definition gone (resident : list string) (b : books) : list string :=
  filter (λ r, r ∉ resident ∧ r ∉ finalized b) (d_keys (updates b)).

Definition add_to (key : string) (n : Z) : eff S unit :=
  put (λ s, with_counters (d_set (counters s) key (default 0 (d_get (counters s) key) + n)) s).

Fixpoint capture_each (rs : list string) (written : Z) : eff S Z :=
  match rs with
  | [] => mret written
  | r :: rs => λ s,
      match (n ← capture_run r; mret n) s with
      | (Ok n, s) => (_ ← try_except (_ ← persist_run_meta r None false; mret tt) (mret tt); capture_each rs (written + n)) s
      | (Raise _, s) => capture_each rs written s
      end
  end.

Definition capture_frames : eff S Z :=
  h ← peek hot;
  match h with
  | None => mret 0
  | Some h =>
      let resident := resident_runs h in
      left ← book (gone resident);
      dropped ← book (λ b, filter (λ r, _positions_uncaptured r b = true) left);
      _ ← keep (λ b, foldl (λ b r, with_captured (d_del (captured b) r) (with_updates (d_del (updates b) r) b)) b left);
      _ ← (if bool_decide (dropped = []) then mret tt else add_to "positions_dropped" (Z.of_nat (length dropped)));
      capture_each resident 0
  end.

(** *** The end of a run *)

Definition queue_dump (run_id reason : string) : eff S unit :=
  queued ← peek (λ s, d_get (dump_queued s) run_id);
  match queued with
  | Some old => put (λ s, with_queue (dump_queue s) (d_set (dump_queued s) run_id (if bool_decide (reason = "") then old else reason)) s)
  | None =>
      _ ← put (λ s, with_queue (dump_queue s ++ [(run_id, reason)]) (d_set (dump_queued s) run_id reason) s);
      _count "dumps_queued"
  end.

(** [DataplaneConsumer.flush_writes], which wraps the service's. *)
Definition consumer_flush : eff S bool := λ s,
  match flush_writes s with
  | (Ok _, s) => (Ok true, with_consumer (option_map (flushed true) (consumer s)) s)
  | (Raise _, s) => (Ok false, with_consumer (option_map (flushed false) (consumer s)) s)
  end.

Definition blocked (s : S) : list string :=
  match consumer s with Some c => filter (λ t, t ≠ "run_status") (blocked_topics c) | None => [] end.

(** Everything that must be durable before the run may be evicted. *)
Definition settle (run_id reason : string) : eff S unit :=
  c ← peek consumer;
  _ ← (if bool_decide (is_Some c)
       then ok ← consumer_flush; if ok : bool then mret tt else lift (Raise RuntimeError)
       else flush_writes);
  b ← peek blocked;
  if bool_decide (b ≠ []) then lift (Raise RuntimeError)
  else
  _ ← capture_run run_id;
  lost ← book (_positions_uncaptured run_id);
  _ ← (if lost : bool then _count "positions_dropped" else mret tt);
  _ ← persist_run_meta run_id (Some reason) true;
  mret tt.

Definition mark_finalized (run_id : string) (b : books) : books :=
  with_finalized (if bool_decide (run_id ∈ finalized b) then finalized b else run_id :: finalized b) b.

Definition finalize_run (run_id reason : string) : eff S unit :=
  _ ← settle run_id reason;
  _ ← keep (mark_finalized run_id);
  _ ← evict_run run_id;
  _ ← queue_dump run_id reason;
  _count "runs_finalized".

Definition named (payload : pydict) (field key : string) : list (string * string) :=
  match get payload key with PStr s => if bool_decide (s = "") then [] else [(field, s)] | _ => [] end.

(** [isinstance(n, int)], of which a Boolean is one. *)
Definition int_field (v : pyval) : option Z :=
  match v with PInt n => Some n | PBool b => Some (if b then 1 else 0) | _ => None end.

Definition identity_fields (i : list (string * string) * option Z) : crow :=
  map (λ p, (p.1, CVal (PStr p.2))) i.1 ++ match i.2 with Some n => [("n_trucks", CVal (PInt n))] | None => [] end.

(** The dictionary is stored before the number of trucks is added to it: what is
    remembered has both. *)
Definition _note_run_identity (run_id : string) (payload : pydict) : eff S unit :=
  let known := named payload "run_name" "run_name" ++ named payload "scenario_slug" "scenario_slug" ++
               named payload "scenario_name" "scenario_display_name" in
  if bool_decide (known = []) then mret tt
  else
  same ← book (λ b, d_get (run_identity b) run_id);
  if bool_decide (same = Some (known, None)) then mret tt
  else
  let full := (known, int_field (get payload "num_trucks")) in
  _ ← keep (λ b, with_identity (d_set (run_identity b) run_id full) b);
  try_except (in_duck (upsert_run_meta run_id (identity_fields full)))
    (keep (λ b, with_identity (d_del (run_identity b) run_id) b)).

Definition run_meta_event (payload : pydict) : pyval :=
  PDict [("status", get payload "status"); ("scenarioSlug", get payload "scenario_slug");
         ("scenarioName", get payload "scenario_display_name"); ("numTrucks", get payload "num_trucks");
         ("numOrders", get payload "num_orders"); ("runName", get payload "run_name")].

Definition on_run_status (run_id : string) (payload : pydict) : eff S unit :=
  _ ← _count "run_status";
  _ ← _note_run_identity run_id payload;
  _ ← forward run_id "status" (PDict payload);
  _ ← (if existsb (λ k, truth (get payload k)) ["run_name"; "scenario_slug"; "scenario_display_name"]
       then forward run_id "run_meta" (run_meta_event payload) else mret tt);
  match should_export_run_status (PDict payload) with
  | None => mret tt
  | Some reason =>
      _ ← _count "run_terminal";
      _ ← forward run_id "simulation_terminal" (PDict [("outcome", PStr reason); ("run_id", PStr run_id)]);
      _ ← (if bool_decide (reason = "completed")
           then forward run_id "simulation_complete" (PDict [("run_id", PStr run_id)]) else mret tt);
      finalize_run run_id reason
  end.

(** *** The archive *)

Definition _record_export_state (run_id : string) (result : result dump_result) : eff S unit :=
  try_except
    (_ ← in_duck (match result with
        | Ok d => set_export_state run_id "exported" (Some (dr_kpi_rows d)) (Some (dr_frames d)) None
        | Raise e => set_export_state run_id "error" None None (Some (String.substring 0 500 (exn_text e)))
        end);
     _count "export_state_writes")
    (mret tt).

Definition in_archive {X} (a : A) (op : A → X * A) : eff S X := λ s,
  let '(x, a) := op a in (Ok x, with_archive (Some a) s).

(** [dump_run]: whether the run was archived. *)
Definition dump_run (run_id reason : string) : eff S bool :=
  a ← peek archive_tier;
  match a with
  | None => mret false
  | Some a =>
      b ← peek blocked;
      d ← peek db;
      result ← in_archive a (tier_dump d run_id reason (if bool_decide (b = []) then None else Some false));
      match result with
      | Ok _ =>
          _ ← (if bool_decide (b = []) then mret tt else _count "dumps_left_open_blocked_ingest");
          _ ← _count "dumps_ok"; _ ← _record_export_state run_id result; mret true
      | Raise _ => _ ← _count "dumps_failed"; _ ← _record_export_state run_id result; mret false
      end
  end.

(** [drain_dumps], one dump a turn: it ends with the queue, at the limit, or at the first
    failure. *)
Fixpoint drain_dumps (fuel : nat) (limit : option nat) (completed : nat) : eff S nat :=
  match fuel with
  | O => mret completed
  | Datatypes.S fuel =>
      if match limit with Some n => (n <=? completed)%nat | None => false end then mret completed
      else
      q ← peek dump_queue;
      match q with
      | [] => mret completed
      | (run_id, reason) :: _ =>
          ok ← dump_run run_id reason;
          if negb ok then mret completed
          else
          _ ← put (λ s, with_queue (tail (dump_queue s)) (d_del (dump_queued s) run_id) s);
          drain_dumps fuel limit (completed + 1)
      end
  end.

Definition drain : eff S nat := λ s, drain_dumps (Datatypes.S (length (dump_queue s))) None 0 s.

Definition reconcile_once : eff S (option sweep_result) :=
  a ← peek archive_tier;
  match a with
  | None => mret None
  | Some a =>
      d ← peek db;
      result ← in_archive a (tier_reconcile d);
      match result with Ok r => mret (Some r) | Raise _ => mret None end
  end.

(** ** Histories

    Calls in any order; between them the store may start or stop failing, and the consumer
    and the archive may change. *)

Inductive call : Type :=
| OnKpi (run_id : string) (payload : pydict)
| OnBreakdown (run_id : string) (payload : pydict)
| OnTripGeo (run_id : string) (payload : pydict)
| OnFacility (run_id : string) (payload : pydict)
| OnPerf
| OnRunStatus (run_id : string) (payload : pydict)
| Commit
| Sweep
| Drain
| Reconcile.

Definition quiet {X} (m : eff S X) : eff S unit := _ ← m; mret tt.

Definition exec (c : call) : eff S unit :=
  match c with
  | OnKpi r p => on_kpi r p
  | OnBreakdown r p => on_kpi_breakdown r p
  | OnTripGeo r p => on_trip_geo r p
  | OnFacility r p => on_facility r p
  | OnPerf => on_perf
  | OnRunStatus r p => on_run_status r p
  | Commit => quiet consumer_flush
  | Sweep => quiet capture_frames
  | Drain => quiet drain
  | Reconcile => quiet reconcile_once
  end.

Inductive step : S → S → Prop :=
| calls s c : step s (exec c s).2
| environment s rd fs n c a :
    step s (with_archive a (with_consumer c (with_db (Duck (rows (db s)) rd fs n) s))).
End Service.

(** ** Which runs are resident *)

Section Residency.
Context `{PyText, HotEnv}.

Definition absent (r : string) (h : HotStore.store) : Prop := d_get (runs h) r = None.

Lemma absent_modify r f : (∀ h, absent r h → absent r (f h)) → preserves (absent r) (modify f).
Proof. intros Hf h Hh. by apply Hf. Qed.

Lemma absent_gets {X} r (f : HotStore.store → X) : preserves (absent r) (gets f).
Proof. by intros h Hh. Qed.

Lemma absent_monotonic r : preserves (absent r) monotonic.
Proof. by intros h Hh. Qed.

Lemma absent_set_slab r r' sl : r' ≠ r → preserves (absent r) (set_slab r' sl).
Proof. intros Hr h Hh. unfold set_slab, modify, absent. simpl. rewrite d_get_set_ne; [done|congruence]. Qed.

(** A slab that was found belongs to another run. *)
Lemma absent_get_slab r r' : hoare (absent r) (get_slab r') (λ _ h, absent r h ∧ r' ≠ r) (absent r).
Proof. intros h Hh. unfold get_slab. destruct (d_get (runs h) r') eqn:E; [|done]. split; [done|]. intros ->. unfold absent in Hh. congruence. Qed.

Lemma absent_found {X} r r' (f : slab → eff HotStore.store X) :
  (∀ sl, r' ≠ r → preserves (absent r) (f sl)) → preserves (absent r) (get_slab r' ≫= f).
Proof.
  intros Hf. eapply hoare_bind; [apply absent_get_slab|]. intros sl. apply (hoare_prop _ (r' ≠ r)); [by intros h [_ ?]|].
  intros Hr. eapply hoare_pre; [by apply Hf|by intros h [? _]].
Qed.

Hint Resolve absent_gets absent_monotonic absent_set_slab : eff.

Lemma absent_touch_read r r' : hoare (absent r) (touch_read r') (λ _ h, absent r h ∧ r' ≠ r) (absent r).
Proof.
  unfold touch_read. eapply hoare_bind; [apply absent_get_slab|]. intros sl.
  apply (hoare_prop _ (r' ≠ r)); [by intros h [_ ?]|]. intros Hr. apply hoare_pre with (P' := absent r); [|by intros h [? _]].
  apply hoare_post with (Q' := λ _, absent r); [|by intros]. eapply preserves_bind; auto 7 with eff.
Qed.

Lemma absent_touched {X} r r' (f : slab → eff HotStore.store X) :
  (∀ sl, r' ≠ r → preserves (absent r) (f sl)) → preserves (absent r) (touch_read r' ≫= f).
Proof.
  intros Hf. eapply hoare_bind; [apply absent_touch_read|]. intros sl. apply (hoare_prop _ (r' ≠ r)); [by intros h [_ ?]|].
  intros Hr. eapply hoare_pre; [by apply Hf|by intros h [? _]].
Qed.

Lemma absent_snapshot r r' kind : preserves (absent r) (HotStore.snapshot r' kind).
Proof. apply absent_touched. intros sl Hr. auto 7 with eff. Qed.

Lemma absent_haulier_codes r r' : preserves (absent r) (HotStore.haulier_codes r').
Proof. apply absent_touched. auto with eff. Qed.

Lemma absent_slot_map r r' : preserves (absent r) (HotStore.slot_map r').
Proof. apply absent_touched. auto with eff. Qed.

Lemma absent_evict r r' : preserves (absent r) (HotStore.evict r').
Proof.
  intros h Hh. unfold evict. destruct (d_get (runs h) r'); [|done]. unfold absent, evicted, park. simpl.
  case_bool_decide; simpl; rewrite d_get_del; by case_decide.
Qed.

Lemma absent_rollback r r' v : preserves (absent r) (rollback_frame_idx r' v).
Proof.
  unfold rollback_frame_idx. apply hoare_bind with (R := λ st h, absent r h ∧ absent r st); [by intros h Hh|].
  intros st. apply (hoare_prop _ (absent r st)); [by intros h [_ ?]|]. intros Hst.
  apply hoare_pre with (P' := absent r); [|by intros h [? _]].
  destruct (d_get (runs st) r') eqn:E; [|apply preserves_ret].
  assert (r' ≠ r) by (intros ->; unfold absent in Hst; congruence).
  destruct (py_int v) as [i|e]; [|destruct e; first [apply preserves_ret|apply preserves_lift]].
  destruct (bool_decide _); [apply preserves_ret|]. apply preserves_bind; auto with eff.
Qed.

Lemma absent_evict_lru r h : absent r h → absent r (evict_lru h).
Proof.
  unfold evict_lru. generalize (length (runs h)). intros n. revert h. induction n as [|n IH]; intros h Hh; [done|]. cbn [evict_loop].
  case_bool_decide; [|done]. apply IH. unfold evict_one. destruct (least_recent (runs h)) as [[v sl]|]; [|done].
  unfold absent, evicted, park. simpl. case_bool_decide; simpl; rewrite d_get_del; by case_decide.
Qed.

Lemma absent_create_slab r r' cap v slots codes : r' ≠ r → preserves (absent r) (create_slab r' cap v slots codes).
Proof.
  intros Hr. unfold create_slab.
  assert (preserves (absent r) (seeded_frame_idx r')) as Hseed.
  { intros h Hh. destruct (seeded_frame_idx r' h) as [res h'] eqn:E.
    assert (runs h' = runs h) as Er by (unfold seeded_frame_idx in E; repeat case_match; by simplify_eq).
    unfold absent. destruct res; by rewrite Er. }
  assert (preserves (absent r) (modify evict_lru)) by (apply absent_modify, absent_evict_lru).
  assert (∀ f, preserves (absent r) (modify (λ st, with_carryover (f st) st))) by (intros f; by apply absent_modify).
  auto 20 with eff.
Qed.

Lemma absent_update r r' a x y st hid ms : r' ≠ r → preserves (absent r) (update_position r' a x y st hid ms).
Proof.
  intros Hr. unfold update_position, ensure, ensure_run. apply preserves_bind; [|intros _; apply preserves_bind].
  - apply preserves_bind; [auto with eff|]. intros h. destruct (d_get (runs h) r'); [auto 7 with eff|by apply absent_create_slab].
  - unfold touch_write. eapply absent_found. auto 7 with eff.
  - intros _. unfold on_slab. apply absent_found. intros sl _ h Hh. cbn.
    destruct (write_position _ _ _ _ _ _ sl) as [[?|?] ?]; unfold absent; simpl; rewrite d_get_set_ne by congruence; done.
Qed.

Lemma absent_seed r r' codes slots v : r' ≠ r → preserves (absent r) (seed_run_identity r' codes slots v).
Proof.
  intros Hr. unfold seed_run_identity. apply preserves_bind; [auto with eff|]. intros h. destruct (d_get (runs h) r').
  - apply preserves_bind; [auto with eff|]. intros _. destruct v; auto with eff; destruct (py_int _) as [?|[]]; auto 7 with eff.
  - apply preserves_bind; [by apply absent_create_slab|]. auto with eff.
Qed.
End Residency.

(** ** What a handler can touch *)

Section Walk.
Context `{PyText, Numpy, HotEnv, DuckEnv, TimeText, ServiceEnv, ConsumerTier C, ArchiveTier A}.
Abbreviation S := (service C A).

(** An invariant that looks at the finalized runs, the hot tier and the frames on disk
    only.  [mine]: the runs whose frames and slabs may change under it.  A lemma of the
    section asks of [I] only what its handler touches. *)
Context (I : S → Prop) (mine : string → Prop).
Context (I_counters : ∀ c s, I s → I (with_counters c s)).
Context (I_bus : ∀ b s, I s → I (with_bus b s)).
Context (I_buffer : ∀ k s, I s → I (with_buffer k s)).
Context (I_queue : ∀ q k s, I s → I (with_queue q k s)).
Context (I_consumer : ∀ c s, I s → I (with_consumer c s)).
Context (I_archive : ∀ a s, I s → I (with_archive a s)).
Context (I_books : ∀ f s, finalized (f (runs_book s)) = finalized (runs_book s) → I s → I (with_books f s)).
Context (I_duck : ∀ d s, t_frames (rows d) = t_frames (rows (db s)) → t_kpi (rows d) = t_kpi (rows (db s)) → I s → I (with_db d s)).
Context (I_kpi : ∀ l, preserves I (in_duck (DuckStore.write_kpi_events l))).
Context (I_write : ∀ r f, mine r → preserves I (in_duck (DuckStore.write_frame r f))).
Context (I_rollback : ∀ r v, preserves I (in_hot (rollback_frame_idx r v))).
Context (I_codes : ∀ r, preserves I (in_hot (HotStore.haulier_codes r))).
Context (I_slots : ∀ r, preserves I (in_hot (HotStore.slot_map r))).
Context (I_evict : ∀ r, preserves I (in_hot (HotStore.evict r))).
Context (I_grow : ∀ {X} r (m : eff HotStore.store X), mine r → (∀ r', r ≠ r' → preserves (absent r') m) → preserves I (in_hot m)).
Context (I_build : preserves I build_hot).
Context (I_snapshot : ∀ r k, hoare I (in_hot (HotStore.snapshot r k)) (λ _ s, I s ∧ mine r) I).
Context (I_open : ∀ s r, I s → r ∉ finalized (runs_book s) → mine r).

(** A handler is taken apart bind by bind and branch by branch; the leaves are hints. *)
Ltac walk := repeat lazymatch goal with
  | |- preserves _ (_ ≫= _) => apply preserves_bind; [|intros ?]
  | |- preserves _ (match ?x with _ => _ end) => destruct x
  | |- preserves _ (mret _) => apply preserves_ret
  | |- preserves _ (lift _) => apply preserves_lift
  | |- preserves _ _ => progress (solve [eauto 3 with eff])
  end.

Lemma I_put f : (∀ s, I s → I (f s)) → preserves I (put f).
Proof. intros Hf s Hs. by apply Hf. Qed.

Lemma I_peek {X} (f : S → X) : preserves I (peek f).
Proof. by intros s Hs. Qed.

Lemma I_book {X} (f : books → X) : preserves I (book f).
Proof. by intros s Hs. Qed.

Lemma I_keep f : (∀ b, finalized (f b) = finalized b) → preserves I (keep f).
Proof. intros Hf. apply I_put. intros s Hs. by apply I_books. Qed.

Lemma I_count k : preserves I (_count k).
Proof. apply I_put. intros s Hs. by apply I_counters. Qed.

Lemma I_forward r e p : preserves I (forward r e p).
Proof. apply I_put. intros s Hs. by apply I_bus. Qed.

Lemma I_try {X} (m h : eff S X) : preserves I m → preserves I h → preserves I (try_except m h).
Proof.
  intros Hm Hh s Hs. unfold try_except. specialize (Hm s Hs). destruct (m s) as [[x|e] s']; [done|]. by apply Hh.
Qed.

(** A call of the store that leaves the frames and the KPI values alone. *)
Definition rows_kept {X} (m : eff duck X) : Prop :=
  ∀ f k, preserves (λ d, t_frames (rows d) = f ∧ t_kpi (rows d) = k) m.

Lemma I_in_duck {X} (m : eff duck X) : rows_kept m → preserves I (in_duck m).
Proof.
  intros Hm s Hs. specialize (Hm _ _ (db s) (conj eq_refl eq_refl)). unfold in_duck.
  destruct (m (db s)) as [[x|e] d]; destruct Hm; by apply I_duck.
Qed.

Lemma kept_execute f : (∀ t, t_frames (f t) = t_frames t ∧ t_kpi (f t) = t_kpi t) → rows_kept (execute f).
Proof.
  intros Hf t k d Hd. unfold execute. pose proof (faulty_rows d) as Hr. destruct (faulty d) as [b d']. simpl in Hr.
  destruct (Hf (rows d')) as [E1 E2]. destruct b; simpl; rewrite ?E1, ?E2, Hr; done.
Qed.

Lemma kept_bind {X Y} (m : eff duck X) (f : X → eff duck Y) : rows_kept m → (∀ x, rows_kept (f x)) → rows_kept (m ≫= f).
Proof. intros Hm Hf t k. apply preserves_bind; [apply Hm|intros x; apply Hf]. Qed.

Lemma kept_ret {X} (x : X) : rows_kept (mret x).
Proof. intros t k. apply preserves_ret. Qed.

Lemma kept_lift {X} (x : result X) : rows_kept (lift x).
Proof. intros t k. apply preserves_lift. Qed.

Lemma kept_now : rows_kept (duck_now duck_clock).
Proof. by intros t k d Hd. Qed.

Lemma kept_breakdown r ss : rows_kept (write_breakdown_batch r ss).
Proof.
  unfold write_breakdown_batch. apply kept_bind; [apply kept_now|]. intros now. apply kept_bind; [apply kept_lift|]. intros l.
  case_bool_decide; [apply kept_ret|]. apply kept_bind; [apply kept_lift|]. intros l'. unfold _insert_breakdown_columnar.
  case_bool_decide; [apply kept_ret|]. apply kept_bind; [|intros _; apply kept_ret]. by apply kept_execute.
Qed.

Lemma kept_meta r fields : rows_kept (upsert_run_meta r fields).
Proof. unfold upsert_run_meta. destruct (forallb _ _); [by apply kept_execute|apply kept_lift]. Qed.

Lemma kept_export r st n m e : rows_kept (set_export_state r st n m e).
Proof. unfold set_export_state. apply kept_bind; [apply kept_now|]. intros now. by apply kept_execute. Qed.

Hint Resolve I_peek I_book I_count I_forward I_try I_build : eff.
Hint Resolve I_in_duck I_kpi kept_breakdown kept_meta kept_export kept_now : eff.
Hint Resolve I_rollback I_codes I_slots I_evict : eff.
Hint Extern 2 (preserves I (keep _)) => apply I_keep; intros; (done || by repeat case_match) : eff.

Lemma walk_discard k : preserves I (_discard k).
Proof. apply preserves_bind; [apply I_count|intros _]. apply I_put. auto. Qed.
Hint Resolve walk_discard : eff.

Lemma walk_buffer f : preserves I (put (λ s, with_buffer (f s) s)).
Proof. apply I_put. auto. Qed.

Lemma walk_counters f : preserves I (put (λ s, with_counters (f s) s)).
Proof. apply I_put. auto. Qed.

Lemma walk_queue f g : preserves I (put (λ s, with_queue (f s) (g s) s)).
Proof. apply I_put. auto. Qed.
Hint Resolve walk_buffer walk_counters walk_queue : eff.

Lemma walk_kpi r p : preserves I (on_kpi r p).
Proof. unfold on_kpi. walk. Qed.

Lemma walk_flush : preserves I flush_writes.
Proof. unfold flush_writes. walk. Qed.
Hint Resolve walk_flush : eff.

Lemma walk_breakdown r p : preserves I (on_kpi_breakdown r p).
Proof. unfold on_kpi_breakdown. cbv zeta. walk. Qed.

Lemma walk_merge l l' : preserves I (_merge_code_map l l').
Proof. unfold _merge_code_map. walk. Qed.

Lemma walk_now : preserves I _utcnow_naive.
Proof. unfold _utcnow_naive. walk. Qed.

Lemma walk_live r : preserves I (live_books r).
Proof. unfold live_books. walk. apply I_try; walk. Qed.
Hint Resolve walk_merge walk_now walk_live : eff.

Lemma walk_persist r st f : preserves I (persist_run_meta r st f).
Proof. unfold persist_run_meta. cbv zeta. walk. Qed.
Hint Resolve walk_persist : eff.

Lemma walk_restore r : mine r → preserves I (restore_run_codes r).
Proof.
  intros Hr. unfold restore_run_codes.
  assert (∀ c sl v, preserves I (in_hot (seed_run_identity r c sl v))).
  { intros. eapply I_grow; [done|]. intros. by apply absent_seed. }
  walk. apply I_try; walk.
Qed.

Lemma walk_open {X} r (f : bool → eff S X) :
  preserves I (f true) → (mine r → preserves I (f false)) → preserves I (book (λ b, bool_decide (r ∈ finalized b)) ≫= f).
Proof.
  intros Ht Hf s Hs. unfold mbind, eff_bind, book, peek. case_bool_decide as Hr; [by apply Ht|].
  by apply Hf; [eapply I_open|].
Qed.

Lemma walk_trip_geo r p : preserves I (on_trip_geo r p).
Proof.
  unfold on_trip_geo. cbv zeta. apply preserves_bind; [apply I_forward|intros _].
  repeat (lazymatch goal with |- preserves _ (match ?x with _ => _ end) => destruct x end; [solve [auto with eff]|]).
  destruct (x ← _; _) as [[[x y] ms]|e]; [|walk]. apply walk_open; [auto with eff|]. intros Hr.
  pose proof (walk_restore r Hr) as Hrestore.
  assert (∀ a x y st hid ms, preserves I (in_hot (update_position r a x y st hid ms))) as Hupdate.
  { intros. eapply I_grow; [done|]. intros. by apply absent_update. }
  walk.
Qed.

Lemma walk_capture r : preserves I (capture_run r).
Proof.
  unfold capture_run. apply preserves_bind; [auto with eff|]. intros h. destruct (bool_decide (h = None)); [auto with eff|].
  apply preserves_bind; [auto with eff|]. intros seq. apply preserves_bind; [auto with eff|]. intros seen.
  destruct (bool_decide (seen = Some seq)); [walk|]. intros s Hs.
  pose proof (I_snapshot r KIND_KEYFRAME s Hs) as Hsnap.
  assert (∀ f, preserves I (keep (λ b, with_captured (f b) b))) as Hdone by auto with eff.
  destruct (in_hot (HotStore.snapshot r KIND_KEYFRAME) s) as [[f|e] s'].
  - destruct Hsnap as [Hs' Hr]. destruct (frame_n f =? 0)%nat; [revert s' Hs'; apply preserves_bind; auto with eff|].
    pose proof (I_write r f Hr s' Hs') as Hw. destruct (in_duck (DuckStore.write_frame r f) s') as [[x|e] t].
    + revert t Hw. apply preserves_bind; [auto with eff|]. intros _. apply preserves_bind; [auto with eff|]. intros _. walk.
    + revert t Hw. apply preserves_bind; [auto with eff|]. intros _. apply preserves_bind; [|auto with eff].
      apply I_try; walk.
  - case_decide; [|done]. refine ((_ : preserves I (_ ← _count "frames_not_resident"; mret 0)) s' Hsnap). walk.
Qed.
Hint Resolve walk_capture : eff.

Lemma walk_evict r : preserves I (evict_run r).
Proof. unfold evict_run. walk. apply I_try; walk. Qed.
Hint Resolve walk_evict : eff.

Lemma walk_capture_each rs n : preserves I (capture_each rs n).
Proof.
  revert n. induction rs as [|r rs IH]; intros n; cbn [capture_each]; [auto with eff|]. intros s Hs.
  assert (preserves I (n ← capture_run r; mret n)) as Hc by walk. specialize (Hc s Hs).
  destruct ((n ← capture_run r; mret n) s) as [[k|e] t]; [|by apply IH].
  revert t Hc. apply preserves_bind; [|auto with eff]. apply I_try; walk.
Qed.
Hint Resolve walk_capture_each : eff.

Lemma finalized_left rs b :
  finalized (foldl (λ b r, with_captured (d_del (captured b) r) (with_updates (d_del (updates b) r) b)) b rs) = finalized b.
Proof. revert b. induction rs as [|r rs IH]; intros b; [done|]. cbn. by rewrite IH. Qed.

Lemma walk_capture_frames : preserves I capture_frames.
Proof.
  unfold capture_frames, add_to. apply preserves_bind; [auto with eff|]. intros [h|]; [|auto with eff].
  apply preserves_bind; [auto with eff|]. intros left. apply preserves_bind; [auto with eff|]. intros dropped.
  apply preserves_bind; [apply I_keep; intros b; apply finalized_left|]. intros _. walk.
Qed.

Lemma walk_consumer_flush : preserves I consumer_flush.
Proof.
  intros s Hs. pose proof (walk_flush s Hs) as Hf. unfold consumer_flush.
  destruct (flush_writes s) as [[x|e] t]; by apply I_consumer.
Qed.
Hint Resolve walk_consumer_flush : eff.

Lemma walk_settle r reason : preserves I (settle r reason).
Proof. unfold settle. walk. Qed.

Lemma walk_queue_dump r reason : preserves I (queue_dump r reason).
Proof. unfold queue_dump. walk. Qed.
Hint Resolve walk_settle walk_queue_dump : eff.

Lemma walk_finalize r reason : (∀ s, I s → I (with_books (mark_finalized r) s)) → preserves I (finalize_run r reason).
Proof. intros Hm. unfold finalize_run. assert (preserves I (keep (mark_finalized r))) by (by apply I_put). walk. Qed.

Lemma walk_identity r p : preserves I (_note_run_identity r p).
Proof. unfold _note_run_identity. cbv zeta. walk. Qed.
Hint Resolve walk_identity : eff.

(** A status message, when the closing of a run starts from [I] and ends in [J]. *)
Lemma walk_status (J : S → Prop) r p : (∀ s, I s → J s) → (∀ reason, hoare I (finalize_run r reason) (λ _, J) J) →
  hoare I (on_run_status r p) (λ _, J) J.
Proof.
  intros HJ Hf. assert (∀ X (m : eff S X), preserves I m → hoare I m (λ _, I) J) as Hw by (intros; by eapply hoare_conseq).
  unfold on_run_status. do 4 (eapply hoare_bind; [apply Hw; walk|intros ?]). destruct (should_export_run_status _) as [reason|].
  - do 3 (eapply hoare_bind; [apply Hw; walk|intros ?]). apply Hf.
  - by apply hoare_ret.
Qed.

Lemma walk_in_archive {X} a (op : A → X * A) : preserves I (in_archive a op).
Proof. intros s Hs. unfold in_archive. destruct (op a) as [x a']. by apply I_archive. Qed.
Hint Resolve walk_in_archive : eff.

Lemma walk_record r d : preserves I (_record_export_state r d).
Proof. unfold _record_export_state. apply I_try; [destruct d|]; walk. Qed.
Hint Resolve walk_record : eff.

Lemma walk_dump r reason : preserves I (dump_run r reason).
Proof. unfold dump_run. walk. Qed.
Hint Resolve walk_dump : eff.

Lemma walk_drain_dumps fuel n : preserves I (drain_dumps fuel None n).
Proof.
  revert n. induction fuel as [|fuel IH]; intros n; cbn [drain_dumps]; [auto with eff|].
  apply preserves_bind; [auto with eff|]. intros [|[r reason] q]; [auto with eff|].
  apply preserves_bind; [auto with eff|]. intros [|]; walk.
Qed.

Lemma walk_drain : preserves I drain.
Proof. intros s. by apply walk_drain_dumps. Qed.

Lemma walk_reconcile : preserves I reconcile_once.
Proof. unfold reconcile_once. walk. Qed.

(** Every call but a status message. *)
Lemma walk_exec c : (∀ r p, c ≠ OnRunStatus r p) → preserves I (exec c).
Proof.
  pose proof walk_kpi. pose proof walk_breakdown. pose proof walk_trip_geo. pose proof walk_capture_frames.
  pose proof walk_drain. pose proof walk_reconcile.
  intros Hc. destruct c; cbn [exec]; unfold quiet, on_facility, on_perf; try solve [walk]. by destruct (Hc run_id payload).
Qed.
End Walk.

(** ** A run that is closed stays closed *)

Section Closed.
Context `{PyText, Numpy, HotEnv, DuckEnv, TimeText, ServiceEnv, ConsumerTier C, ArchiveTier A}.
Abbreviation S := (service C A).

(** The hot tier holds nothing of [r]. *)
Definition nonresident (r : string) (s : S) : Prop := match hot s with Some h => absent r h | None => True end.

(** [r] is finalized, out of the hot tier, and these are its frames on disk. *)
Definition closed (r : string) (l : list frow) (s : S) : Prop :=
  r ∈ finalized (runs_book s) ∧ nonresident r s ∧ run_rows r (rows (db s)) = l.

(** A call of the hot tier changes nothing but the hot tier. *)
Lemma in_hot_frame {X} (m : eff HotStore.store X) (s : S) :
  db (in_hot m s).2 = db s ∧ runs_book (in_hot m s).2 = runs_book s ∧ dump_queue (in_hot m s).2 = dump_queue s ∧
  dump_queued (in_hot m s).2 = dump_queued s ∧ kpi_buffer (in_hot m s).2 = kpi_buffer s ∧ consumer (in_hot m s).2 = consumer s.
Proof. unfold in_hot. destruct (hot s) as [h|]; [|done]. by destruct (m _) as [x h']. Qed.

Lemma in_hot_nonresident {X} r (m : eff HotStore.store X) (s : S) :
  preserves (absent r) m → nonresident r s → nonresident r (in_hot m s).2.
Proof.
  intros Hm Hs. unfold nonresident, in_hot in *. destruct (hot s) as [h|] eqn:E; simpl; [|by rewrite E].
  specialize (Hm (seeded (db s) h) Hs). by destruct (m _) as [[x|e] h'].
Qed.

Lemma closed_in_hot {X} r l (m : eff HotStore.store X) : preserves (absent r) m → preserves (closed r l) (in_hot m).
Proof.
  intros Hm s (Hf & Hn & Hl). destruct (in_hot_frame m s) as (E1 & E2 & _).
  pose proof (in_hot_nonresident r m s Hm Hn) as Hn'.
  destruct (in_hot m s) as [[x|e] s']; simpl in *; unfold closed; by rewrite E1, E2.
Qed.

Lemma closed_snapshot r l r' k :
  hoare (closed r l) (in_hot (HotStore.snapshot r' k)) (λ _ s, closed r l s ∧ r' ≠ r) (closed r l).
Proof.
  intros s Hs. pose proof (closed_in_hot r l _ (absent_snapshot r r' k) s Hs) as Hc. destruct Hs as (_ & Hn & _).
  unfold in_hot in *. unfold nonresident in Hn. destruct (hot s) as [h|]; [|done].
  destruct (HotStore.snapshot r' k (seeded (db s) h)) as [[f|e] h'] eqn:E; [|done]. split; [done|]. intros ->.
  unfold HotStore.snapshot, touch_read, get_slab, mbind, eff_bind in E. unfold absent in Hn. simpl in E. by rewrite Hn in E.
Qed.

(** A frame of another run. *)
Definition frames_but (r : string) (l : list frow) (d : duck) : Prop := run_rows r (rows d) = l.

Lemma write_frame_any (Q : tables → Prop) r f :
  (∀ new t, Forall (λ x, fr_run x = r) new → Q t → Q (frame_insert new t)) → preserves (λ d, Q (rows d)) (DuckStore.write_frame r f).
Proof.
  intros HQ. assert (∀ fs, preserves (λ d, Q (rows d)) (_insert_frame_batch r fs)) as Hb.
  { intros fs. unfold _insert_frame_batch, _insert_frames_columnar. apply preserves_bind; [auto with eff|]. intros c.
    destruct (_ =? _)%nat; [auto with eff|]. apply preserves_bind; [|auto with eff].
    destruct (bool_decide _); [auto with eff|]. destruct (even_columns _); [|auto with eff].
    apply preserves_bind; [|auto with eff]. intros d Hd. unfold execute. pose proof (faulty_rows d) as E.
    destruct (faulty d) as [[|] d']; simpl in *; rewrite E; [done|]. apply HQ; [apply zip_frows_run|done]. }
  unfold DuckStore.write_frame, write_frames. cbn [frames_loop]. cbv zeta.
  destruct (_ =? _)%nat; [|destruct (_ <=? _)]; simpl; auto 7 with eff.
Qed.

Lemma write_frame_other r l r' f : r' ≠ r → preserves (frames_but r l) (DuckStore.write_frame r' f).
Proof.
  intros Hr. apply (write_frame_any (λ t, run_rows r t = l)). intros new t Hn <-.
  eapply same_frames, frame_insert_local; [done|congruence].
Qed.

Lemma closed_write r l r' f : r' ≠ r → preserves (closed r l) (in_duck (DuckStore.write_frame r' f)).
Proof.
  intros Hr s (Hf & Hn & Hl). pose proof (write_frame_other r l r' f Hr (db s) Hl) as Hw. unfold in_duck.
  by destruct (DuckStore.write_frame r' f (db s)) as [[x|e] d].
Qed.

Lemma frames_execute r l f : (∀ t, t_frames (f t) = t_frames t) → preserves (frames_but r l) (execute f).
Proof.
  intros Hf d Hd. unfold execute. pose proof (faulty_rows d) as E. unfold frames_but, run_rows in *.
  destruct (faulty d) as [[|] d']; simpl in *; rewrite ?Hf, E; done.
Qed.

Lemma write_kpi_frames r l rows : preserves (frames_but r l) (DuckStore.write_kpi_events rows).
Proof.
  unfold write_kpi_events. case_bool_decide; [auto with eff|]. apply preserves_bind; [by intros d Hd|]. intros now.
  generalize (grouped rows), 0. intros g. induction g as [|[r' items] g IH]; intros w; cbn [write_groups]; [auto with eff|].
  apply preserves_bind; [|intros _; apply IH]. unfold _insert_kpi_columnar. case_bool_decide; [auto with eff|].
  apply preserves_bind; [by apply frames_execute|auto with eff].
Qed.

Lemma closed_kpi r l rows : preserves (closed r l) (in_duck (DuckStore.write_kpi_events rows)).
Proof.
  intros s (Hf & Hn & Hl). pose proof (write_kpi_frames r l rows (db s) Hl) as Hw. unfold in_duck.
  by destruct (DuckStore.write_kpi_events rows (db s)) as [[x|e] d].
Qed.

Lemma closed_build r l : preserves (closed r l) build_hot.
Proof. intros s (Hf & Hn & Hl). unfold build_hot, put, closed, nonresident in *. by destruct (hot s) eqn:E; rewrite ?E. Qed.

Lemma closed_mark r l r' s : closed r l s → closed r l (with_books (mark_finalized r') s).
Proof. intros (Hf & Hn & Hl). split; [|done]. simpl. case_bool_decide; [done|]. simpl. by right. Qed.

Lemma closed_books r l f (s : S) : finalized (f (runs_book s)) = finalized (runs_book s) → closed r l s → closed r l (with_books f s).
Proof. intros E (Hf & ?). split; [simpl; by rewrite E|done]. Qed.

Lemma closed_duck r l d (s : S) : t_frames (rows d) = t_frames (rows (db s)) → t_kpi (rows d) = t_kpi (rows (db s)) → closed r l s → closed r l (with_db d s).
Proof. intros E _ (? & ? & Hl). split; [done|]. split; [done|]. simpl. unfold run_rows in *. by rewrite E. Qed.

Lemma closed_grow r l {X} r' (m : eff HotStore.store X) :
  r' ≠ r → (∀ r'', r' ≠ r'' → preserves (absent r'') m) → preserves (closed r l) (in_hot m).
Proof. intros Hr Hm. by apply closed_in_hot, Hm. Qed.

Lemma closed_open r l (s : S) r' : closed r l s → r' ∉ finalized (runs_book s) → r' ≠ r.
Proof. by intros (? & _) ? ->. Qed.

Hint Resolve closed_kpi closed_books closed_duck closed_write closed_snapshot closed_grow closed_build closed_open closed_mark : closed.
Hint Extern 2 (preserves (closed _ _) (in_hot _)) => apply closed_in_hot : closed.
Hint Resolve absent_haulier_codes absent_slot_map absent_evict absent_rollback : closed.

(** The handlers keep a closed run closed. *)
Lemma closed_exec r l c : preserves (closed r l) (exec c).
Proof.
  destruct c; try (apply (walk_exec (closed r l) (λ r', r' ≠ r)); eauto with closed; done).
  apply (walk_status (closed r l)); eauto with closed. intros reason.
  apply (walk_finalize (closed r l) (λ r', r' ≠ r)); eauto with closed.
Qed.

(** A run is not finalized, or it is gone from the hot tier. *)
Definition unclosed (r : string) (s : S) : Prop := r ∉ finalized (runs_book s).

Definition sound (r : string) (s : S) : Prop := r ∈ finalized (runs_book s) → nonresident r s.

Lemma unclosed_in_hot r {X} (m : eff HotStore.store X) : preserves (unclosed r) (in_hot m).
Proof.
  intros s Hs. destruct (in_hot_frame m s) as (_ & E & _). unfold unclosed in *.
  destruct (in_hot m s) as [[x|e] s']; simpl in *; by rewrite E.
Qed.

Lemma unclosed_in_duck r {X} (m : eff duck X) : preserves (unclosed r) (in_duck m).
Proof. intros s Hs. unfold in_duck. by destruct (m (db s)) as [[x|e] d]. Qed.

Lemma unclosed_snapshot r r' k : hoare (unclosed r) (in_hot (HotStore.snapshot r' k)) (λ _ s, unclosed r s ∧ True) (unclosed r).
Proof. eapply hoare_post; [apply unclosed_in_hot|by intros]. Qed.

Lemma unclosed_books r f (s : S) : finalized (f (runs_book s)) = finalized (runs_book s) → unclosed r s → unclosed r (with_books f s).
Proof. unfold unclosed. simpl. by intros ->. Qed.

Lemma unclosed_build r : preserves (unclosed r) build_hot.
Proof. intros s Hs. unfold build_hot, put. by destruct (hot s). Qed.

Hint Resolve unclosed_in_hot unclosed_in_duck unclosed_snapshot unclosed_books unclosed_build : closed.

Lemma evicted_absent r (s : S) : nonresident r (evict_run r s).2.
Proof.
  unfold evict_run, peek, try_except, in_hot, mbind, eff_bind, mret, eff_ret. destruct (hot s) as [h|] eqn:E.
  - rewrite bool_decide_eq_false_2 by done. rewrite E. unfold evict. change (runs (seeded (db s) h)) with (runs h).
    destruct (d_get (runs h) r) eqn:Er; unfold nonresident, absent; simpl; [|done].
    unfold park, evicted. case_bool_decide; simpl; rewrite d_get_del; by rewrite decide_True.
  - rewrite bool_decide_eq_true_2 by done. unfold nonresident. simpl. by rewrite E.
Qed.

(** The end of a run leaves it out of the hot tier. *)
Lemma finalize_closes r reason : hoare (unclosed r) (finalize_run r reason) (λ _, sound r) (sound r).
Proof.
  assert (∀ s, unclosed r s → sound r s) as Hu by (by intros s ? ?). unfold finalize_run.
  eapply hoare_bind with (R := λ _, unclosed r).
  { eapply hoare_conseq; [apply (walk_settle (unclosed r) (λ _, True)); eauto with closed|done|done|done]. }
  intros _. eapply hoare_bind with (R := λ _ _, True); [by intros s _|]. intros _.
  eapply hoare_bind with (R := λ _, nonresident r).
  { intros s _. pose proof (evicted_absent r s) as Hn. destruct (evict_run r s) as [[b|e] s'] eqn:E; simpl in Hn; [done|by intros _]. }
  intros _. eapply hoare_bind with (R := λ _, nonresident r).
  - intros s Hs. unfold queue_dump, peek, put, _count, mbind, eff_bind. by destruct (d_get (dump_queued s) r).
  - intros _ s Hs. by intros _.
Qed.

Lemma sound_exec r c (s : S) : sound r s → sound r (exec c s).2.
Proof.
  intros Hs. destruct (decide (r ∈ finalized (runs_book s))) as [Hr|Hr].
  { destruct (preserves_state _ (exec c) s (closed_exec r (run_rows r (rows (db s))) c)) as (? & ? & _); [by split; [|split; [by apply Hs|]]|]. by intros _. }
  assert (∀ s, unclosed r s → sound r s) as Hu by (by intros t ? ?).
  assert (∀ r' reason, r' ≠ r → preserves (unclosed r) (finalize_run r' reason)) as Hf.
  { intros r' reason Hne. apply (walk_finalize (unclosed r) (λ _, True)); eauto with closed.
    intros t Ht. unfold unclosed in *. simpl. case_bool_decide; [done|]. set_solver. }
  destruct c; try (apply Hu, (preserves_state _ (exec _)); [apply (walk_exec (unclosed r) (λ _, True)); eauto with closed; done|done]).
  assert (hoare (unclosed r) (on_run_status run_id payload) (λ _, sound r) (sound r)) as H'.
  { apply (walk_status (unclosed r)); eauto with closed. intros reason. destruct (decide (run_id = r)) as [-> |Hne].
    - apply finalize_closes.
    - eapply hoare_conseq; [by apply Hf|done|auto|auto]. }
  specialize (H' s Hr). cbn [exec]. by destruct (on_run_status run_id payload s) as [[x|e] s'].
Qed.

(** A process that has just started. *)
Definition fresh (s : S) : Prop := hot s = None ∧ finalized (runs_book s) = [].

Lemma reachable_sound r s s' : fresh s → rtc step s s' → sound r s'.
Proof.
  intros [_ Hf] Hs. assert (sound r s) as H0' by (unfold sound; rewrite Hf; set_solver). clear Hf.
  induction Hs as [|s t u Hst _ IH]; [done|]. apply IH. destruct Hst; [by apply sound_exec|done].
Qed.

(** C2: A run that was closed stays closed, whatever the process does afterwards: in every
    state reached from a fresh start, through any calls in any order and any failures of
    the store between them, a finalized run is out of the hot tier; no later call, a
    straggling position or a replayed status message included, brings it back, makes it
    unfinalized, or adds, removes or changes a frame of it on disk. *)
Theorem finalized_runs_are_closed s0 s s' r :
  fresh s0 → rtc step s0 s → r ∈ finalized (runs_book s) → rtc step s s' →
  r ∈ finalized (runs_book s') ∧ nonresident r s' ∧ run_rows r (rows (db s')) = run_rows r (rows (db s)).
Proof.
  intros Hf Hs Hr Hs'. assert (closed r (run_rows r (rows (db s))) s) as Hc.
  { split; [done|]. split; [|done]. by apply (reachable_sound r s0). }
  revert Hc. generalize (run_rows r (rows (db s))) as l. clear Hf Hs Hr.
  induction Hs' as [|s t u Hst _ IH]; intros l Hc; [exact Hc|]. apply IH. destruct Hst; [|exact Hc].
  apply preserves_state; [apply closed_exec|done].
Qed.
End Closed.

(** ** The end of a run: everything durable, or nothing given up *)

Section Finalize.
Context `{PyText, Numpy, HotEnv, DuckEnv, TimeText, ServiceEnv, ConsumerTier C, ArchiveTier A}.
Abbreviation S := (service C A).

Definition kpi_id (row : kpi_row) : string * kpi_key := (k_run row, (k_metric row, k_clock row)).

(** Each of [l] has a value on disk, its own or that of another of [all] for the same
    moment. *)
Definition kpi_stored (all l : list kpi_row) (t : tables) : Prop :=
  Forall (λ row, ∃ row' now, row' ∈ all ∧ kpi_id row' = kpi_id row ∧ t_kpi t !! kpi_id row = Some (k_value row', now)) l.

Lemma kpi_insert_stored all l r now items t :
  Forall (λ row, row ∈ all ∧ k_run row = r) items → kpi_stored all l t →
  kpi_stored all (l ++ items) (kpi_insert r ((λ row, ((k_metric row, k_clock row), (k_value row, now))) <$> items) t).
Proof.
  intros Hi Hl. set (cols := (λ row, ((k_metric row, k_clock row), (k_value row, now))) <$> items).
  rewrite Forall_forall in Hi.
  assert (∀ k v, last_rows cols !! k = Some v →
    ∃ row', row' ∈ all ∧ kpi_id row' = (r, k) ∧ v = (k_value row', now)) as Hlast.
  { intros k v (row & [= -> ->] & Hrow)%last_rows_elem%list_elem_of_fmap. destruct (Hi row Hrow) as [? Hr].
    exists row. unfold kpi_id. by rewrite Hr. }
  assert (∀ row, t_kpi (kpi_insert r cols t) !! kpi_id row =
    (if decide (k_run row = r) then last_rows cols !! (kpi_id row).2 else None) ∪ t_kpi t !! kpi_id row) as Hget.
  { intros row. unfold kpi_insert, kpi_columns, kpi_id. simpl. by rewrite upsert_union, lookup_union, last_rows_for_run. }
  apply Forall_app. split.
  - eapply Forall_impl; [exact Hl|]. intros row (row' & now' & Ha & Ek & Eold). rewrite Hget, Eold.
    case_decide as Hr; [|by exists row', now'; rewrite (left_id_L None (∪))].
    destruct (last_rows cols !! _) as [v|] eqn:Ev; [|by exists row', now'; rewrite (left_id_L None (∪))].
    apply Hlast in Ev as (x & ? & ? & ->). exists x, now. rewrite union_Some_l. unfold kpi_id in *. by rewrite Hr.
  - apply Forall_forall. intros row Hrow. destruct (Hi row Hrow) as [_ Hr]. rewrite Hget. rewrite decide_True by done.
    destruct (last_rows_in cols (kpi_id row).2) as [v Ev].
    { unfold cols. rewrite <- list_fmap_compose. by apply (list_elem_of_fmap_2 (λ row, (kpi_id row).2)). }
    rewrite Ev. apply Hlast in Ev as (x & ? & ? & ->). exists x, now. rewrite union_Some_l. unfold kpi_id in *. by rewrite Hr.
Qed.

(** [execute], when it ends normally. *)
Lemma execute_ok_rows f d d' : execute f d = (Ok tt, d') → rows d' = f (rows d).
Proof.
  unfold execute. pose proof (faulty_rows d) as E. destruct (faulty d) as [[|] x]; [done|]. intros [= <-]. simpl in *. by rewrite E.
Qed.

Lemma write_groups_stored all now g l w :
  Forall (λ g, Forall (λ row, row ∈ all ∧ k_run row = g.1) g.2) g →
  hoare (λ d, kpi_stored all l (rows d)) (write_groups now g w) (λ _ d, kpi_stored all (l ++ concat (map snd g)) (rows d)) (λ _, True).
Proof.
  intros Hg. revert l w. induction Hg as [|[r items] g Hi Hg IH]; intros l w; cbn [write_groups map concat].
  { apply hoare_ret. intros d Hd. by rewrite app_nil_r. }
  eapply hoare_bind with (R := λ _ d, kpi_stored all (l ++ items) (rows d)).
  - unfold _insert_kpi_columnar. case_bool_decide as Ec.
    { apply fmap_nil_inv in Ec as ->. apply hoare_ret. intros d Hd. by rewrite app_nil_r. }
    eapply hoare_bind with (R := λ _ d, kpi_stored all (l ++ items) (rows d)); [|intros ?; by apply hoare_ret].
    intros d Hd. destruct (execute _ d) as [[[]|e] d'] eqn:E; [|done]. apply execute_ok_rows in E as ->.
    by apply kpi_insert_stored.
  - intros _. eapply hoare_post; [apply IH|]. intros ? d. by rewrite <- app_assoc.
Qed.

Lemma grouped_complete (l : list kpi_row) row : row ∈ l → row ∈ concat (map snd (grouped l)).
Proof.
  intros Hr. assert (∀ l g, (row ∈ l ∨ ∃ items, d_get g (k_run row) = Some items ∧ row ∈ items) →
    ∃ items, d_get (foldl (λ g row, d_set g (k_run row) (default [] (d_get g (k_run row)) ++ [row])) g l) (k_run row) = Some items ∧ row ∈ items) as Hgen.
  { clear l Hr. intros l. induction l as [|x l IH]; intros g Hg; simpl; [by destruct Hg as [Hx%elem_of_nil|]|].
    apply IH. rewrite elem_of_cons in Hg. rewrite d_get_set. destruct Hg as [[-> |Hl]|(items & E & Hin)]; [|by left|].
    - right. rewrite decide_True by done. eexists. split; [done|]. set_solver.
    - right. case_decide as Ex; [|by exists items]. rewrite Ex, E. eexists. split; [done|]. set_solver. }
  destruct (Hgen l [] (or_introl Hr)) as (items & E & Hin). apply d_get_Some_elem in E. fold (grouped l) in E.
  apply list_elem_of_In, in_concat. exists items. split; [|by apply list_elem_of_In]. apply list_elem_of_In.
  exact (list_elem_of_fmap_2 snd _ _ E).
Qed.

Lemma grouped_sound (l : list kpi_row) : Forall (λ g, Forall (λ row, row ∈ l ∧ k_run row = g.1) g.2) (grouped l).
Proof.
  set (fits := λ g : string * list kpi_row, Forall (λ row, row ∈ l ∧ k_run row = g.1) g.2).
  assert (∀ m g, (∀ x, x ∈ m → x ∈ l) → Forall fits g →
    Forall fits (foldl (λ g row, d_set g (k_run row) (default [] (d_get g (k_run row)) ++ [row])) g m)) as Hgen; [|by apply Hgen].
  intros m. induction m as [|x m IH]; intros g Hm Hg; [done|]. simpl.
  apply IH; [intros y Hy; apply Hm; by right|]. apply Forall_forall. intros y Hy. rewrite Forall_forall in Hg.
  apply elem_d_set in Hy as [Hy | ->]; [auto|]. unfold fits. simpl. apply Forall_app. split.
  - destruct (d_get g (k_run x)) as [items|] eqn:E; [|done]. apply d_get_Some_elem in E. exact (Hg _ E).
  - repeat constructor. apply Hm. by left.
Qed.

(** What a flush that succeeds has done with the rows it took. *)
Lemma write_kpi_stored l :
  hoare (λ _, True) (DuckStore.write_kpi_events l) (λ _ d, kpi_stored l l (rows d)) (λ _, True).
Proof.
  unfold write_kpi_events. case_bool_decide as El; [subst; apply hoare_ret; intros; apply Forall_nil_2|].
  eapply hoare_bind with (R := λ _ _, True); [done|]. intros now.
  eapply hoare_conseq; [apply (write_groups_stored l now (grouped l) [] 0), grouped_sound|intros; apply Forall_nil_2| |done].
  intros ? d Hd. unfold kpi_stored in *. rewrite Forall_forall in *. intros row Hr. by apply Hd, grouped_complete.
Qed.

Lemma frows_of_run r (l : list frow) : Forall (λ x, fr_run x = r) l → filter (λ x, fr_run x = r) l = l.
Proof. induction 1; [done|]. rewrite filter_cons_True by done. by f_equal. Qed.

(** A frame with positions, when the store takes it. *)
Lemma write_frame_rows r f n d d' : frame_n f ≠ 0%nat → DuckStore.write_frame r f d = (Ok n, d') →
  run_rows r (rows d') = run_rows r (rows d) ++ column_rows r (frame_columns f).
Proof.
  intros Hn. assert (∀ n d', _insert_frame_batch r [f] d = (Ok n, d') →
    run_rows r (rows d') = run_rows r (rows d) ++ column_rows r (frame_columns f)) as Hb.
  { clear n d'. intros n d'. unfold _insert_frame_batch. cbn [_frame_columns_from_frames].
    rewrite (proj2 (Nat.eqb_neq _ _) Hn). intros ([[c k] t] & d1 & Ec & Hi)%bind_inv. cbn in Ec.
    injection Ec as <- <- <- <-. cbn [fst snd] in Hi. rewrite (proj2 (Nat.eqb_neq _ _) Hn) in Hi.
    apply bind_inv in Hi as (z & d2 & Hi & [= <- <-]). unfold _insert_frames_columnar in Hi.
    change (app_columns no_columns (frame_columns f)) with (frame_columns f) in Hi. cbn [c_lng frame_columns] in Hi.
    rewrite bool_decide_eq_false_2 in Hi by (intros E; unfold frame_n in Hn; by rewrite E in Hn).
    destruct (even_columns _); [|done]. apply bind_inv in Hi as ([] & d3 & Hi & [= <- <-]). apply execute_ok_rows in Hi as ->.
    unfold frame_insert. rewrite run_rows_app. f_equal. unfold run_rows. simpl.
    by apply frows_of_run, zip_frows_run. }
  unfold DuckStore.write_frame, write_frames. cbn [frames_loop]. cbv zeta. rewrite (proj2 (Nat.eqb_neq _ _) Hn). simpl.
  destruct (_ <=? _).
  - intros (k & d1 & Hi & [= _ <-])%bind_inv. by eapply Hb.
  - intros (k & d1 & Hi & [= _ <-])%bind_inv. by eapply Hb.
Qed.

(** *** The steps before the eviction *)

Definition resident (r : string) (s : S) : Prop := ∃ h, hot s = Some h ∧ is_Some (d_get (runs h) r).

(** The last positions of a run are on disk: if the slab had any a frame did not hold,
    they are the last frame of the run. *)
Definition last_frame (r : string) (s s' : S) : Prop := ∀ h sl,
  hot s = Some h → d_get (runs h) r = Some sl →
  d_get (captured (runs_book s)) r ≠ Some (default 0 (d_get (updates (runs_book s)) r)) →
  ∃ f, frame_of KIND_KEYFRAME sl = Ok f ∧
    run_rows r (rows (db s')) = run_rows r (rows (db s)) ++ column_rows r (frame_columns f).

Definition status_is (r reason : string) (s : S) : Prop :=
  ∃ m, t_meta (rows (db s)) !! r = Some m ∧ cget m "status" = CVal (PStr reason).

(** [r]'s rows are those of [s0], and what [s0] had buffered is on disk. *)
Record flushed_from (r : string) (s0 s : S) : Prop := {
  ff_hot : hot s = hot s0;
  ff_books : runs_book s = runs_book s0;
  ff_rows : run_rows r (rows (db s)) = run_rows r (rows (db s0));
  ff_buffer : kpi_buffer s = [];
  ff_kpi : kpi_stored (kpi_buffer s0) (kpi_buffer s0) (rows (db s));
}.

Lemma flush_stage r s0 : hoare (eq s0) flush_writes (λ _, flushed_from r s0) (λ _, True).
Proof.
  intros s <-. unfold flush_writes, peek, put, mbind, eff_bind. case_bool_decide as El; [split; try done; rewrite El; apply Forall_nil_2|].
  unfold in_duck. cbn [db with_buffer]. pose proof (write_kpi_stored (kpi_buffer s0) (db s0) I) as Hk.
  pose proof (write_kpi_frames r _ (kpi_buffer s0) (db s0) eq_refl) as Hf.
  destruct (DuckStore.write_kpi_events _ _) as [[x|e] d]; [|done]. by split.
Qed.

Lemma settle_flush r s0 :
  hoare (eq s0) (if bool_decide (is_Some (consumer s0)) then ok ← consumer_flush; if ok : bool then mret tt else lift (Raise RuntimeError)
    else flush_writes) (λ _, flushed_from r s0) (λ _, True).
Proof.
  intros s <-. case_bool_decide; [|apply (flush_stage r s0 s0 eq_refl)].
  pose proof (flush_stage r s0 s0 eq_refl) as Hf. unfold mbind, eff_bind, consumer_flush. destruct (flush_writes s0) as [[x|e] s]; [|done].
  destruct Hf. by split.
Qed.

Lemma frame_of_raises k sl e : frame_of k sl = Raise e → e ≠ RunNotResident.
Proof. unfold frame_of, new_frame. case_bool_decide; [done|]. by intros [= <-]. Qed.

(** A snapshot of a slab that is there. *)
Lemma snapshot_of r k (s s' : S) h sl x : hot s = Some h → d_get (runs h) r = Some sl →
  in_hot (HotStore.snapshot r k) s = (x, s') → x = frame_of k sl ∧ db s' = db s.
Proof.
  intros Eh Er E. split.
  - unfold in_hot in E. rewrite Eh in E. unfold HotStore.snapshot, touch_read, get_slab, mbind, eff_bind in E.
    cbn [runs seeded set_frame_idx_seed] in E. rewrite Er in E. cbn in E.
    match type of E with context [frame_of k ?t] => change (frame_of k t) with (frame_of k sl) in E end.
    by destruct (frame_of k sl); injection E as <- <-.
  - change s' with (x, s').2. rewrite <- E. apply in_hot_frame.
Qed.

Lemma capture_stage r s1 : hoare (eq s1) (capture_run r) (λ _, last_frame r s1) (λ _, True).
Proof.
  unfold capture_run. eapply hoare_bind with (R := λ h s, s1 = s ∧ h = hot s1); [by intros s <-|]. intros h.
  case_bool_decide as Eh; [intros s [<- E]; intros h' sl Eh'; congruence|].
  eapply hoare_bind with (R := λ n s, s1 = s ∧ n = default 0 (d_get (updates (runs_book s1)) r)); [by intros s [<- _]|]. intros seq.
  eapply hoare_bind with (R := λ n s, s1 = s ∧ seq = default 0 (d_get (updates (runs_book s1)) r) ∧
    n = d_get (captured (runs_book s1)) r); [by intros s [<- ->]|]. intros seen.
  case_bool_decide as Ec.
  { intros s (<- & -> & ->). intros h' sl _ _ Hn. by destruct Hn. }
  intros s (<- & -> & ->).
  destruct (in_hot (HotStore.snapshot r KIND_KEYFRAME) s1) as [x s] eqn:E.
  assert (∀ h sl, hot s1 = Some h → d_get (runs h) r = Some sl → x = frame_of KIND_KEYFRAME sl ∧ db s = db s1) as Hs.
  { intros h' sl E1 E2. by eapply snapshot_of. }
  assert (∀ (s' : S) l, db s = db s1 → run_rows r (rows (db s')) = run_rows r (rows (db s)) ++ l →
    run_rows r (rows (db s')) = run_rows r (rows (db s1)) ++ l) as Hrows by (by intros s' l -> ->).
  destruct x as [f|e].
  - destruct (frame_n f =? 0)%nat eqn:En.
    + intros h' sl E1 E2 _. destruct (Hs h' sl E1 E2) as [Ef Ed]. exists f. split; [done|]. apply Hrows; [done|].
      apply Nat.eqb_eq in En. unfold column_rows, frame_columns. cbn [c_idx c_time c_slot c_lng c_lat c_state c_haulier]. rewrite En. by rewrite app_nil_r.
    + apply Nat.eqb_neq in En. unfold in_duck. destruct (DuckStore.write_frame r f (db s)) as [[n|e] d] eqn:Ew.
      * intros h' sl E1 E2 _. destruct (Hs h' sl E1 E2) as [Ef Ed]. exists f. split; [done|].
        apply Hrows; [done|]. by apply (write_frame_rows r f n (db s) d).
      * apply (hoare_bind (λ _, True) _ _ (λ _ _, True)); [done| |done]. intros _. apply hoare_raises.
  - case_decide as Ee; [|done]. intros h' sl E1 E2 _. destruct (Hs h' sl E1 E2) as [Ef _]. by destruct (frame_of_raises _ _ _ (eq_sym Ef)).
Qed.

Lemma crow_update_last old l k c : cget (crow_update old (l ++ [(k, c)])) k = c.
Proof. unfold cget, crow_update. rewrite foldl_snoc. simpl. by rewrite d_get_set_eq. Qed.

Lemma upsert_status r st l :
  hoare (λ _, True) (in_duck (upsert_run_meta r (l ++ [("status", CVal (PStr st))]))) (λ _, status_is r st) (λ _, True).
Proof.
  intros s _. unfold in_duck, upsert_run_meta. destruct (forallb _ _); [|done].
  destruct (execute _ (db s)) as [[[]|e] d] eqn:E; [|done]. apply execute_ok_rows in E. unfold status_is. cbn [db with_db]. rewrite E.
  unfold meta_upsert. cbn [t_meta set_meta]. rewrite lookup_insert_eq. eexists. split; [done|].
  rewrite filter_app. apply crow_update_last.
Qed.

Lemma persist_status r st :
  hoare (λ _, True) (persist_run_meta r (Some st) true) (λ _, status_is r st) (λ _, True).
Proof.
  unfold persist_run_meta. cbv zeta. cbn [orb negb]. eapply hoare_bind with (R := λ _ _, True); [done|]. intros h.
  rewrite !andb_false_r. eapply hoare_bind with (R := λ _ _, True); [intros s _; by destruct (live_books r s) as [[?|?] ?]|]. intros live.
  rewrite andb_false_r. destruct (default ([], []) live) as [codes slots].
  assert (∀ X (m : eff S X), hoare (λ _, True) m (λ _ _, True) (λ _, True)) as Hany by (intros X m s _; by destruct (m s) as [[?|?] ?]).
  do 6 (eapply hoare_bind; [apply Hany|intros ?]). cbn [andb].
  do 7 (eapply hoare_bind; [apply Hany|intros ?]).
  eapply hoare_bind with (R := λ _, status_is r st).
  { rewrite !app_assoc. apply upsert_status. }
  intros _. eapply hoare_bind with (R := λ _, status_is r st); [by intros s Hs|]. intros _.
  eapply hoare_bind with (R := λ _, status_is r st); [by intros s Hs|]. intros _. by apply hoare_ret.
Qed.

(** What the steps after the flush leave alone. *)
Definition carried (all : list kpi_row) (c : option C) (s : S) : Prop :=
  kpi_stored all all (rows (db s)) ∧ kpi_buffer s = [] ∧ consumer s = c.

Lemma carried_in_hot all c {X} (m : eff HotStore.store X) : preserves (carried all c) (in_hot m).
Proof.
  intros s (Hk & Hb & Hc). destruct (in_hot_frame m s) as (E1 & _ & _ & _ & E2 & E3).
  destruct (in_hot m s) as [[x|e] s']; simpl in *; unfold carried; by rewrite E1, E2, E3.
Qed.

Lemma carried_books all c f (s : S) : finalized (f (runs_book s)) = finalized (runs_book s) → carried all c s → carried all c (with_books f s).
Proof. done. Qed.

Lemma carried_duck all c d (s : S) : t_frames (rows d) = t_frames (rows (db s)) → t_kpi (rows d) = t_kpi (rows (db s)) →
  carried all c s → carried all c (with_db d s).
Proof. intros _ E (Hk & ?). split; [|done]. unfold kpi_stored in *. simpl. by rewrite E. Qed.

Lemma carried_write all c r f : preserves (carried all c) (in_duck (DuckStore.write_frame r f)).
Proof.
  intros s (Hk & ?). unfold in_duck.
  pose proof (write_frame_any (λ t, kpi_stored all all t) r f (λ new t _ Ht, Ht) (db s) Hk) as Hw.
  by destruct (DuckStore.write_frame r f (db s)) as [[x|e] d].
Qed.

Lemma carried_snapshot all c r k : hoare (carried all c) (in_hot (HotStore.snapshot r k)) (λ _ s, carried all c s ∧ True) (carried all c).
Proof. eapply hoare_post; [apply carried_in_hot|by intros]. Qed.

Lemma rows_books r l f (s : S) : finalized (f (runs_book s)) = finalized (runs_book s) →
  run_rows r (rows (db s)) = l → run_rows r (rows (db (with_books f s))) = l.
Proof. done. Qed.

Lemma rows_duck r l d (s : S) : t_frames (rows d) = t_frames (rows (db s)) → t_kpi (rows d) = t_kpi (rows (db s)) →
  run_rows r (rows (db s)) = l → run_rows r (rows (db (with_db d s))) = l.
Proof. intros E _. simpl. unfold run_rows. by rewrite E. Qed.

Lemma rows_in_hot r l {X} (m : eff HotStore.store X) : preserves (λ s : S, run_rows r (rows (db s)) = l) (in_hot m).
Proof. intros s Hs. destruct (in_hot_frame m s) as (E & _). destruct (in_hot m s) as [[x|e] s']; simpl in *; by rewrite E. Qed.

Hint Resolve carried_in_hot carried_books carried_duck carried_write carried_snapshot rows_books rows_duck rows_in_hot : closed.

(** What is durable before the run leaves the hot tier. *)
Record durable (r reason : string) (s s' : S) : Prop := {
  du_kpi : kpi_stored (kpi_buffer s) (kpi_buffer s) (rows (db s'));
  du_buffer : kpi_buffer s' = [];
  du_whole : blocked s' = [];
  du_frame : last_frame r s s';
  du_status : status_is r reason s';
}.

Lemma last_frame_from r s0 s1 s : flushed_from r s0 s1 → last_frame r s1 s → last_frame r s0 s.
Proof. intros [Eh Eb Er _ _] Hl h sl. specialize (Hl h sl). by rewrite Eh, Eb, Er in Hl. Qed.

Lemma carried_persist all c r st f : preserves (carried all c) (persist_run_meta r st f).
Proof. apply walk_persist; eauto with closed. Qed.

Lemma rows_persist r l r' st f : preserves (λ s : S, run_rows r (rows (db s)) = l) (persist_run_meta r' st f).
Proof. apply walk_persist; eauto with closed. Qed.

Lemma carried_capture all c r : preserves (carried all c) (capture_run r).
Proof. apply (walk_capture _ (λ _, True)); eauto with closed. Qed.

Lemma last_frame_rows r s0 s1 s : run_rows r (rows (db s)) = run_rows r (rows (db s1)) → last_frame r s0 s1 → last_frame r s0 s.
Proof. intros E Hl h sl. rewrite E. apply Hl. Qed.

(** After the flush, with nothing blocked. *)
Lemma settle_tail r reason s0 :
  hoare (λ s, flushed_from r s0 s ∧ blocked s = [])
    (_ ← capture_run r; lost ← book (_positions_uncaptured r); _ ← (if lost : bool then _count "positions_dropped" else mret tt);
     _ ← persist_run_meta r (Some reason) true; mret tt)
    (λ _, durable r reason s0) (λ _, True).
Proof.
  apply hoare_point. intros s1 [Hf Hb]. pose proof (last_frame_from r s0 s1) as Hfrom. destruct Hf as [Eh Eb Er Ebuf Hk].
  set (all := kpi_buffer s0). set (c := consumer s1). set (mid := λ s, last_frame r s0 s ∧ carried all c s).
  eapply hoare_bind with (R := λ _, mid).
  { intros s <-. pose proof (capture_stage r s1 s1 eq_refl) as Hl. pose proof (carried_capture all c r s1) as Hc.
    destruct (capture_run r s1) as [[x|e] s]; [|done]. split; [|by apply Hc]. apply Hfrom; [by split|exact Hl]. }
  intros _. eapply hoare_bind with (R := λ _, mid); [by intros s Hs|]. intros lost.
  eapply hoare_bind with (R := λ _, mid); [by destruct lost; intros s Hs|]. intros _.
  eapply hoare_bind with (R := λ _, durable r reason s0); [|intros ?; by apply hoare_ret].
  apply hoare_point. intros s2 [Hl Hc] s <-. pose proof (persist_status r reason s2 Logic.I) as Hst.
  pose proof (carried_persist all c r (Some reason) true s2 Hc) as Hc'.
  pose proof (rows_persist r _ r (Some reason) true s2 eq_refl) as Hr'.
  destruct (persist_run_meta r (Some reason) true s2) as [[x|e] s]; [|done]. destruct Hc' as (Hk' & Hb' & Ec).
  split; [done|done| |by eapply last_frame_rows|done]. unfold blocked in *. by rewrite Ec.
Qed.

Lemma settle_durable r reason s0 : hoare (eq s0) (settle r reason) (λ _, durable r reason s0) (λ _, True).
Proof.
  unfold settle. eapply hoare_bind with (R := λ c s, s0 = s ∧ c = consumer s0); [by intros s <-|]. intros c.
  eapply hoare_bind with (R := λ _, flushed_from r s0).
  { intros s [<- ->]. exact (settle_flush r s0 s0 eq_refl). }
  intros _. eapply hoare_bind with (R := λ b s, flushed_from r s0 s ∧ blocked s = b); [by intros s Hs|]. intros b.
  case_bool_decide as Eb; [by intros s _|]. subst b. apply settle_tail.
Qed.

(** *** What a step that fails gives up: nothing *)

Definition nothing_given_up (s s' : S) : Prop :=
  finalized (runs_book s') = finalized (runs_book s) ∧ dump_queue s' = dump_queue s ∧ dump_queued s' = dump_queued s ∧
  ∀ r, resident r s → resident r s'.

Definition present (r : string) (h : HotStore.store) : Prop := is_Some (d_get (runs h) r).

Lemma present_set r r' sl : preserves (present r) (set_slab r' sl).
Proof. intros h Hh. unfold set_slab, modify, present. simpl. rewrite d_get_set. by case_decide. Qed.

Lemma present_get r r' : preserves (present r) (get_slab r').
Proof. intros h Hh. unfold get_slab. by destruct (d_get (runs h) r'). Qed.

Lemma present_monotonic r : preserves (present r) monotonic.
Proof. by intros h Hh. Qed.

Lemma present_gets r {X} (f : HotStore.store → X) : preserves (present r) (gets f).
Proof. by intros h Hh. Qed.
Hint Resolve present_set present_get present_monotonic present_gets : eff.

Lemma present_touch r r' : preserves (present r) (touch_read r').
Proof. unfold touch_read. auto 9 with eff. Qed.
Hint Resolve present_touch : eff.

Lemma present_snapshot r r' k : preserves (present r) (HotStore.snapshot r' k).
Proof. unfold HotStore.snapshot. auto 9 with eff. Qed.

Lemma present_codes r r' : preserves (present r) (HotStore.haulier_codes r').
Proof. unfold HotStore.haulier_codes. auto with eff. Qed.

Lemma present_slots r r' : preserves (present r) (HotStore.slot_map r').
Proof. unfold HotStore.slot_map. auto with eff. Qed.

Lemma present_rollback r r' v : preserves (present r) (rollback_frame_idx r' v).
Proof.
  unfold rollback_frame_idx. apply preserves_bind; [auto with eff|]. intros st. destruct (d_get (runs st) r'); [|auto with eff].
  destruct (py_int v) as [i|[]]; auto with eff.
Qed.

Lemma kept_in_hot s0 {X} (m : eff HotStore.store X) : (∀ r, preserves (present r) m) → preserves (nothing_given_up s0) (in_hot m).
Proof.
  intros Hm s (E1 & E2 & E3 & Hr). destruct (in_hot_frame m s) as (_ & F1 & F2 & F3 & _).
  assert (∀ r, resident r s0 → resident r (in_hot m s).2) as Hr'.
  { intros r (h & Eh & Hp)%Hr. unfold in_hot, resident. rewrite Eh. specialize (Hm r (seeded (db s) h) Hp).
    destruct (m _) as [[x|e] h']; by exists h'. }
  destruct (in_hot m s) as [[x|e] s']; simpl in *; unfold nothing_given_up; by rewrite F1, F2, F3.
Qed.

Lemma kept_in_duck s0 {X} (m : eff duck X) : preserves (nothing_given_up s0) (in_duck m).
Proof. intros s Hs. unfold in_duck. by destruct (m (db s)) as [[x|e] d]. Qed.

Lemma kept_snapshot s0 r k : hoare (nothing_given_up s0) (in_hot (HotStore.snapshot r k)) (λ _ s, nothing_given_up s0 s ∧ True) (nothing_given_up s0).
Proof. eapply hoare_post; [apply kept_in_hot; intros; apply present_snapshot|by intros]. Qed.

Lemma kept_books s0 f (s : S) : finalized (f (runs_book s)) = finalized (runs_book s) → nothing_given_up s0 s → nothing_given_up s0 (with_books f s).
Proof. intros E (E1 & ?). split; [simpl; by rewrite E|done]. Qed.
Hint Resolve kept_in_duck kept_snapshot kept_books : closed.

Lemma kept_settle s0 r reason : preserves (nothing_given_up s0) (settle r reason).
Proof.
  apply (walk_settle _ (λ _, True)); eauto with closed; intros; apply kept_in_hot; intros.
  - apply present_rollback.
  - apply present_codes.
  - apply present_slots.
Qed.

(** *** The steps after it: none fails *)

(** [s'] differs from [s] in the hot tier, the books and the counters. *)
Definition same_but_hot (s s' : S) : Prop :=
  db s' = db s ∧ consumer s' = consumer s ∧ kpi_buffer s' = kpi_buffer s ∧ finalized (runs_book s') = finalized (runs_book s).

Lemma evict_run_ends r (s : S) : ∃ b s', evict_run r s = (Ok b, s') ∧ same_but_hot s s'.
Proof.
  unfold evict_run, peek, mbind at 1, eff_bind at 1. case_bool_decide; [by exists false, s|].
  unfold try_except, mbind, eff_bind. destruct (in_hot_frame (HotStore.evict r) s) as (E1 & E2 & _ & _ & E3 & E4).
  destruct (in_hot (HotStore.evict r) s) as [[[|]|e] s'] eqn:E; simpl in *; try by eexists _, _.
  - eexists _, _. split; [done|]. split; [done|]. split; [done|]. split; [done|]. simpl. by rewrite E2.
  - eexists _, _. split; [done|]. split; [done|]. split; [done|]. split; [done|]. by rewrite E2.
  - unfold in_hot, HotStore.evict in E. destruct (hot s) as [h|]; [|done]. by destruct (d_get _ _).
Qed.

(** What is finalized and queued, out of the hot tier. *)
Definition closed_and_queued (r : string) (s : S) : Prop :=
  r ∈ finalized (runs_book s) ∧ nonresident r s ∧ is_Some (d_get (dump_queued s) r).

Lemma finish r reason s1 :
  hoare (eq s1) (_ ← keep (mark_finalized r); _ ← evict_run r; _ ← queue_dump r reason; _count "runs_finalized")
    (λ _ s, (db s = db s1 ∧ consumer s = consumer s1 ∧ kpi_buffer s = kpi_buffer s1) ∧ closed_and_queued r s) (λ _, False).
Proof.
  intros s <-. unfold keep, put. unfold mbind at 1, eff_bind at 1. unfold mbind at 1, eff_bind at 1.
  set (s2 := with_books (mark_finalized r) s1). pose proof (evicted_absent r s2) as Hn.
  destruct (evict_run_ends r s2) as (b & s3 & E & E1 & E2 & E3 & E4). rewrite E in *. simpl in Hn.
  assert (r ∈ finalized (runs_book s3)) as Hf.
  { rewrite E4. unfold s2. simpl. case_bool_decide; [done|]. by left. }
  unfold queue_dump, peek, put, _count, mbind, eff_bind. unfold put. destruct (d_get (dump_queued s3) r) eqn:Ed.
  - split; [exact (conj E1 (conj E2 E3))|]. split; [done|]. split; [done|]. cbn. rewrite d_get_set_eq. eauto.
  - split; [exact (conj E1 (conj E2 E3))|]. split; [done|]. split; [done|]. cbn. rewrite d_get_set_eq. eauto.
Qed.

(** C1: A run ends all or nothing.  When closing a run succeeds, everything of it is durable:
    every KPI row that was buffered is on disk, nothing is buffered, no topic is blocked, the
    positions its slab held and no frame did are on disk as its last frame, and its status is
    recorded; only then it is finalized, out of the hot tier and queued for the archive.
    When any step fails, nothing was given up: no run became finalized or was queued, and
    every run the hot tier held, this one included, is still there for the replay of the
    message. *)
Theorem finalize_all_or_nothing r reason (s : S) :
  match finalize_run r reason s with
  | (Ok _, s') => durable r reason s s' ∧ closed_and_queued r s'
  | (Raise _, s') => nothing_given_up s s'
  end.
Proof.
  pose proof (settle_durable r reason s s eq_refl) as Hd. pose proof (kept_settle s r reason s) as Hk.
  unfold finalize_run. unfold mbind at 1, eff_bind at 1. specialize (Hk (conj eq_refl (conj eq_refl (conj eq_refl (λ _ x, x))))).
  destruct (settle r reason s) as [[x|e] s1]; [|done]. pose proof (finish r reason s1 s1 eq_refl) as Hfin.
  destruct ((_ ← keep (mark_finalized r); _ ← evict_run r; _ ← queue_dump r reason; _count "runs_finalized") s1) as [[[]|e] s']; [|done]. destruct Hfin as [(E1 & E2 & E3) Hq]. split; [|done].
  destruct Hd as [Hd1 Hd2 Hd3 Hd4 (m & Hm & Hst)]. split.
  - by rewrite E1.
  - by rewrite E3.
  - unfold blocked in *. by rewrite E2.
  - by eapply last_frame_rows; [rewrite E1|].
  - exists m. by rewrite E1.
Qed.
End Finalize.

(** ** The code books on disk only grow *)

(** Text that was written as JSON reads back: a dictionary of integers is the one it was. *)
Class JsonLaws `{DuckEnv, ServiceEnv} : Prop := {
  json_ints (l : list (string * Z)) s : NoDup (d_keys l) → json_dumps (PDict (map (λ p, (p.1, PInt p.2)) l)) = Ok s →
    s ≠ "" ∧ json_loads s = Ok (PDict (map (λ p, (p.1, PInt p.2)) l));
}.

Section Books.
Context `{PyText, Numpy, HotEnv, DuckEnv, TimeText, ServiceEnv, ConsumerTier C, ArchiveTier A}.
Abbreviation S := (service C A).

(** The book a column of [run_meta] holds. *)
Definition book_at (r key : string) (t : tables) : result (list (string * Z)) :=
  _load_code_map (cget (default [] (t_meta t !! r)) key).

(** The book of the hot tier. *)
Definition live_book (r : string) (key : string) (s : S) : list (string * Z) :=
  match hot s with
  | Some h =>
      match d_get (runs h) r with
      | Some sl => if bool_decide (key = "slot_map") then map (λ p, (p.1, Z.of_nat p.2)) (agent_to_slot (ident sl)) else haulier_to_code (ident sl)
      | None => []
      end
  | None => []
  end.

Lemma NoDup_foldl_set {V} (p l : list (string * V)) : NoDup (d_keys l) → NoDup (d_keys (foldl (λ d q, d_set d q.1 q.2) l p)).
Proof. revert l. induction p as [|x p IH]; intros l Hl; [done|]. apply IH. by apply NoDup_d_set. Qed.

Lemma foldl_set_get {V} (p l : list (string * V)) k : NoDup (d_keys p) →
  d_get (foldl (λ d q, d_set d q.1 q.2) l p) k = match d_get p k with Some c => Some c | None => d_get l k end.
Proof.
  revert l. induction p as [|[k' c] p IH]; intros l Hnd; [done|]. apply NoDup_cons in Hnd as [Hk' Hnd].
  cbn [foldl fst snd]. rewrite IH by done. simpl. rewrite d_get_set. repeat case_decide; try congruence. subst k'.
  destruct (d_get p k) eqn:E; [|done]. destruct Hk'. apply d_get_is_Some. eauto.
Qed.

Lemma merged_get p l k : NoDup (d_keys p) → d_get (merged p l) k = match d_get p k with Some c => Some c | None => d_get l k end.
Proof. apply foldl_set_get. Qed.

Lemma load_NoDup c l : _load_code_map c = Ok l → NoDup (d_keys l).
Proof.
  assert (∀ d l, (x ← omap_result code_entry d; Ok (as_dict x)) = Ok l → NoDup (d_keys l)) as Hd.
  { intros d m (x & _ & [= <-])%result_bind_inv. apply NoDup_foldl_set. constructor. }
  unfold _load_code_map. destruct c as [v|t]; [|intros [= <-]; constructor].
  destruct v; try (intros [= <-]; constructor); [|by apply Hd]. case_bool_decide; [intros [= <-]; constructor|].
  destruct (json_loads _) as [v|e]; [|destruct e; try done; intros [= <-]; constructor].
  destruct v; try (intros [= <-]; constructor). by apply Hd.
Qed.

Lemma omap_ints l : omap_result code_entry (map (λ p, (p.1, PInt p.2)) l) = Ok l.
Proof. induction l as [|[k z] l IH]; [done|]. cbn. cbn in IH. by rewrite IH. Qed.

Lemma as_dict_get l k : NoDup (d_keys l) → d_get (as_dict l) k = d_get l k.
Proof. intros Hl. change (as_dict l) with (merged l []). rewrite merged_get by done. by destruct (d_get l k). Qed.

(** A book that was written reads back as it was. *)
Lemma load_dumped `{!JsonLaws} l s : NoDup (d_keys l) → dumps_codes l = Ok s →
  ∃ l', _load_code_map (CVal (PStr s)) = Ok l' ∧ ∀ k, d_get l' k = d_get l k.
Proof.
  unfold dumps_codes. intros Hnd E. set (m := py_sorted (on_key fst String.leb) l) in E.
  assert (m ≡ₚ l) as Hp by apply py_sorted_perm. assert (NoDup (d_keys m)) as Hm by (unfold d_keys; by rewrite Hp).
  destruct (json_ints m s Hm E) as [Hs Hl]. exists (as_dict m). split.
  - cbn [_load_code_map]. rewrite bool_decide_eq_false_2 by done. rewrite Hl. cbv zeta. by rewrite omap_ints.
  - intros k. rewrite as_dict_get by done. by apply d_get_perm.
Qed.

(** A call that reads the identity of a resident run. *)
Lemma in_hot_read {X} r (f : identity → X) (s : S) h : hot s = Some h →
  let '(x, s') := in_hot (sl ← touch_read r; mret (f (ident sl))) s in
  match d_get (runs h) r with
  | Some sl => x = Ok (f (ident sl)) ∧ db s' = db s ∧ ∃ h', hot s' = Some h' ∧ ∃ sl', d_get (runs h') r = Some sl' ∧ ident sl' = ident sl
  | None => x = Raise RunNotResident ∧ db s' = db s
  end.
Proof.
  intros Eh. unfold in_hot. rewrite Eh. unfold touch_read, get_slab, mbind, eff_bind. cbn [runs seeded set_frame_idx_seed].
  destruct (d_get (runs h) r) as [sl|] eqn:Er; cbn; [|done]. split; [done|]. split; [done|]. eexists. split; [done|].
  eexists. split; [apply d_get_set_eq|done].
Qed.

Lemma live_books_of r (s s' : S) x : live_books r s = (Ok x, s') →
  default ([], []) x = (live_book r "haulier_codes" s, live_book r "slot_map" s) ∧ db s' = db s.
Proof.
  unfold live_books, peek, mbind at 1, eff_bind at 1, live_book. destruct (hot s) as [h|] eqn:Eh; [|by intros [= <- <-]].
  pose proof (in_hot_read r haulier_to_code s h Eh) as Hc. pose proof (in_hot_read r agent_to_slot) as Ha.
  unfold try_except, mbind, eff_bind. change (HotStore.haulier_codes r) with (sl ← touch_read r; mret (haulier_to_code (ident sl))).
  change (HotStore.slot_map r) with (sl ← touch_read r; mret (agent_to_slot (ident sl))).
  destruct (in_hot (sl ← touch_read r; mret (haulier_to_code (ident sl))) s) as [c s1]. destruct (d_get (runs h) r) as [sl|].
  - destruct Hc as (-> & E1 & h1 & Eh1 & sl1 & Er1 & Ei). specialize (Ha s1 h1 Eh1). rewrite Er1 in Ha.
    destruct (in_hot (sl ← touch_read r; mret (agent_to_slot (ident sl))) s1) as [c s2]. destruct Ha as (-> & E2 & _).
    intros [= <- <-]. rewrite Ei, E2. done.
  - destruct Hc as (-> & E1). by intros [= <- <-].
Qed.

Lemma live_book_NoDup r key (s : S) : (∀ h, hot s = Some h → store_pre h) → NoDup (d_keys (live_book r key s)).
Proof.
  intros Hs. unfold live_book. destruct (hot s) as [h|]; [|constructor]. destruct (d_get (runs h) r) as [sl|] eqn:E; [|constructor].
  apply d_get_Some_elem in E. destruct (sp_slabs h (Hs h eq_refl) r sl E) as [[Hi _ _ _ _ _] _].
  case_bool_decide; [|by apply iw_book]. pose proof (iw_keys _ Hi) as Hk. unfold d_keys in *. by rewrite map_map.
Qed.

(** What [persist_run_meta] writes of a book: nothing when it is empty. *)
Definition written (l : list (string * Z)) (text : option cell) : Prop :=
  (l = [] ∧ text = None) ∨ (∃ s, dumps_codes l = Ok s ∧ text = Some (CVal (PStr s))).

Lemma read_back `{!JsonLaws} (l old : list (string * Z)) before after text :
  NoDup (d_keys l) → written l text → after = default before text → _load_code_map before = Ok old →
  (∀ k, d_get l k = None → d_get old k = None) →
  ∃ new, _load_code_map after = Ok new ∧ ∀ k, d_get new k = d_get l k.
Proof.
  intros Hnd [[-> ->]|(s & Ed & ->)] -> Ho Hsub; simpl.
  - exists old. split; [done|]. intros k. simpl. by apply Hsub.
  - by apply load_dumped.
Qed.

Lemma upsert_cells r fields (s s' : S) : NoDup (d_keys fields) → in_duck (upsert_run_meta r fields) s = (Ok tt, s') →
  ∀ k, cget (default [] (t_meta (rows (db s')) !! r)) k = default (cget (default [] (t_meta (rows (db s)) !! r)) k) (d_get fields k).
Proof.
  intros Hnd. unfold in_duck, upsert_run_meta. destruct (forallb _ _) eqn:Ef; [|done].
  destruct (execute _ (db s)) as [[[]|e] d] eqn:E; [|done]. intros [= <-] k. apply execute_ok_rows in E. cbn [db with_db]. rewrite E.
  unfold meta_upsert. cbn [t_meta set_meta]. rewrite lookup_insert_eq. cbn [default from_option id].
  assert (filter (λ p : string * cell, p.1 ∈ _RUN_META_COLUMNS) fields = fields) as ->.
  { clear -Ef. induction fields as [|p l IH]; [done|]. cbn in Ef. apply andb_true_iff in Ef as [Hp Hl].
    rewrite bool_decide_eq_true in Hp. rewrite filter_cons_True by done. by rewrite IH. }
  unfold cget, crow_update. rewrite foldl_set_get by done. by destruct (d_get fields k).
Qed.

(** The columns of [persist_run_meta]. *)
Definition meta_fields (seen last : datetime) (code_text slot_text : crow) (max_idx : option Z) (status : option string) : crow :=
  [("first_seen", CTime seen); ("last_seen", CTime last); ("source", CVal (PStr "live"))] ++ code_text ++ slot_text ++
  (match max_idx with Some i => [("max_frame_idx", CVal (PInt i))] | None => [] end) ++
  (match status with Some st => [("status", CVal (PStr st))] | None => [] end).

Lemma meta_fields_books seen last (codes slots : list (string * Z)) code_text slot_text max_idx status (s0 s1 s2 : S) :
  (if bool_decide (codes = []) then mret [] else s ← lift (dumps_codes codes); mret [("haulier_codes", CVal (PStr s))]) s0 = (Ok code_text, s1) →
  (if bool_decide (slots = []) then mret [] else s ← lift (dumps_codes slots);
     mret [("slot_map", CVal (PStr s)); ("n_trucks", CVal (PInt (Z.of_nat (length slots))))]) s1 = (Ok slot_text, s2) →
  s2 = s0 ∧ NoDup (d_keys (meta_fields seen last code_text slot_text max_idx status)) ∧
  written codes (d_get (meta_fields seen last code_text slot_text max_idx status) "haulier_codes") ∧
  written slots (d_get (meta_fields seen last code_text slot_text max_idx status) "slot_map").
Proof.
  assert (∀ l : list string, bool_decide (NoDup l) = true → NoDup l) as Hdec by (intros l; apply bool_decide_eq_true).
  assert (∀ (t : string) (l : list (string * Z)) (s s' : S), lift (dumps_codes l) s = (Ok t, s') → dumps_codes l = Ok t ∧ s' = s) as Hl.
  { intros t l s s'. unfold lift. by destruct (dumps_codes l); intros [= -> ->]. }
  case_bool_decide as Ec; [intros [= <- <-]|intros (t & ? & (Et & ->)%Hl & [= <- <-])%bind_inv];
    (case_bool_decide as Es; [intros [= <- <-]|intros (u & ? & (Eu & ->)%Hl & [= <- <-])%bind_inv]);
    (split; [done|]); (split; [apply Hdec; by destruct max_idx, status|]);
    unfold written; split; destruct max_idx, status; cbn; eauto.
Qed.

Lemma merge_result (p l m : list (string * Z)) (s s' : S) :
  _merge_code_map p l s = (Ok m, s') → m = merged p l ∧ db s' = db s.
Proof. unfold _merge_code_map. intros (x & s1 & E1 & [= <- <-])%bind_inv. split; [done|]. by case_bool_decide; injection E1 as <- <-. Qed.

Lemma merge_book `{!JsonLaws} (old live : list (string * Z)) before after text :
  NoDup (d_keys live) → _load_code_map before = Ok old → written (merged old live) text → after = default before text →
  ∃ new, _load_code_map after = Ok new ∧ ∀ k, d_get new k = match d_get old k with Some c => Some c | None => d_get live k end.
Proof.
  intros Hl Ho Hw Ha. pose proof (load_NoDup _ _ Ho) as Hold.
  destruct (read_back (merged old live) old before after text) as (new & En & Hn); try done.
  - by apply NoDup_foldl_set.
  - intros k. rewrite merged_get by done. by destruct (d_get old k).
  - exists new. split; [done|]. intros k. by rewrite Hn, merged_get.
Qed.

(** C4: The code books on disk only grow: when the metadata of a run is written and the row
    it replaces could be read, the book that is read back has every entry of the book that
    was there, unchanged (so that every frame already written still decodes), and of the
    hot tier's book every name the old one did not know; of haulier codes and of slots. *)
Theorem code_books_grow `{!JsonLaws} r status force key old (s s' : S) :
  readable (db s) = true → (∀ h, hot s = Some h → store_pre h) → key ∈ ["haulier_codes"; "slot_map"] →
  book_at r key (rows (db s)) = Ok old → persist_run_meta r status force s = (Ok true, s') →
  ∃ new, book_at r key (rows (db s')) = Ok new ∧
    ∀ name, d_get new name = match d_get old name with Some c => Some c | None => d_get (live_book r key s) name end.
Proof.
  intros Hr Hw Hkey Hold Hp. pose proof (live_book_NoDup r "haulier_codes" s Hw) as Hn1. pose proof (live_book_NoDup r "slot_map" s Hw) as Hn2.
  unfold persist_run_meta in Hp. cbv zeta in Hp. apply bind_inv in Hp as (h & s1 & [= <- <-] & Hp). destruct (bool_decide _ && _); [done|].
  apply bind_inv in Hp as (live & s1 & Hlive & Hp). destruct (bool_decide _ && _); [done|].
  apply live_books_of in Hlive as [Hlive Edb1]. rewrite Hlive in Hp.
  apply bind_inv in Hp as (existing & s2 & [= Ee <-] & Hp). rewrite Edb1 in Ee.
  assert (existing = default [] (t_meta (rows (db s)) !! r)) as -> by (rewrite <- Ee; unfold get_run_meta, select; by rewrite Hr).
  clear Ee. apply bind_inv in Hp as (oc & s2 & Eoc & Hp). apply bind_inv in Hp as (codes & s3 & Hc & Hp).
  apply bind_inv in Hp as (os & s4 & Eos & Hp). apply bind_inv in Hp as (slots & s5 & Hs & Hp).
  apply bind_inv in Hp as (known & s6 & [= <- <-] & Hp). destruct (negb _ && _); [done|].
  apply bind_inv in Hp as (now & s6 & Enow & Hp). apply bind_inv in Hp as (? & s7 & [= _ <-] & Hp).
  apply bind_inv in Hp as (seen & s8 & [= _ <-] & Hp). apply bind_inv in Hp as (max_idx & s8 & [= _ <-] & Hp).
  apply bind_inv in Hp as (last & s8 & Elast & Hp). apply bind_inv in Hp as (code_text & s9 & Hct & Hp).
  apply bind_inv in Hp as (slot_text & s10 & Hst & Hp). apply bind_inv in Hp as ([] & s11 & Hup & Hp).
  assert (rows (db s') = rows (db s11)) as -> by (by injection Hp as <-). clear Hp.
  assert (_load_code_map (cget (default [] (t_meta (rows (db s)) !! r)) "haulier_codes") = Ok oc ∧ s2 = s1) as [Eoc' ->]
    by (unfold lift in Eoc; by destruct (_load_code_map _); injection Eoc as -> ->).
  apply merge_result in Hc as [-> E3].
  assert (_load_code_map (cget (default [] (t_meta (rows (db s)) !! r)) "slot_map") = Ok os ∧ s4 = s3) as [Eos' ->]
    by (unfold lift in Eos; by destruct (_load_code_map _); injection Eos as -> ->).
  apply merge_result in Hs as [-> E5].
  destruct (meta_fields_books seen last _ _ code_text slot_text max_idx status _ _ _ Hct Hst) as (-> & Hnd & Hwc & Hws).
  pose proof (upsert_cells r _ _ _ Hnd Hup) as Hcells.
  assert (rows (db s8) = rows (db s)) as Erows.
  { assert (∀ (t t' : S) (x : datetime), _utcnow_naive t = (Ok x, t') → rows (db t') = rows (db t)) as Hu by (intros t t' y E; unfold _utcnow_naive, in_duck, duck_now in E; by injection E as _ <-).
    rewrite (Hu _ _ _ Elast). cbn [db with_books]. rewrite (Hu _ _ _ Enow), E5, E3, Edb1. done. }
  rewrite Erows in Hcells. unfold book_at in *.
  apply elem_of_cons in Hkey as [-> | ->%list_elem_of_singleton].
  - rewrite Hold in Eoc'. injection Eoc' as <-. by eapply merge_book.
  - rewrite Hold in Eos'. injection Eos' as <-. by eapply merge_book.
Qed.
End Books.

(** ** The queue of dumps *)

Section Queue.
Context `{PyText, Numpy, HotEnv, DuckEnv, TimeText, ServiceEnv, ConsumerTier C, ArchiveTier A}.
Abbreviation S := (service C A).

(** The archive would not take the dump at the head of the queue, or there is no archive. *)
Definition refused (s : S) : Prop :=
  archive_tier s = None ∨
  ∃ r reason q d complete a e a', dump_queue s = (r, reason) :: q ∧
    tier_dump d r reason complete a = (Raise e, a') ∧ archive_tier s = Some a'.

Lemma record_ends r d (s : S) : ∃ s', _record_export_state r d s = (Ok tt, s') ∧ dump_queue s' = dump_queue s ∧ archive_tier s' = archive_tier s.
Proof.
  unfold _record_export_state, try_except, mbind, eff_bind.
  match goal with |- context [in_duck ?m s] => assert (dump_queue (in_duck m s).2 = dump_queue s ∧ archive_tier (in_duck m s).2 = archive_tier s) as [E1 E2]
    by (unfold in_duck; by destruct (m (db s)));
    destruct (in_duck m s) as [[x|e] s'] end; eexists; (split; [done|]); by split.
Qed.

Lemma recorded r d (b : bool) key (s : S) :
  ∃ s', (_ ← _count key; _ ← _record_export_state r d; mret b) s = (Ok b, s') ∧
    dump_queue s' = dump_queue s ∧ archive_tier s' = archive_tier s.
Proof.
  unfold _count, put. edestruct (record_ends r d) as (u & E & E1 & E2). exists u. unfold mbind, eff_bind. rewrite E.
  split; [done|]. by rewrite E1, E2.
Qed.

Lemma dump_run_ends r reason (s : S) :
  ∃ b s', dump_run r reason s = (Ok b, s') ∧ dump_queue s' = dump_queue s ∧
    (b = false → ∀ q, dump_queue s = (r, reason) :: q → refused s').
Proof.
  unfold dump_run. rewrite (bind_ok _ _ _ (archive_tier s) s) by done. destruct (archive_tier s) as [a|] eqn:Ea.
  2:{ exists false, s. split; [done|]. split; [done|]. intros _ q _. by left. }
  rewrite (bind_ok _ _ _ (blocked s) s), (bind_ok _ _ _ (db s) s) by done.
  set (complete := if bool_decide (blocked s = []) then None else Some false).
  destruct (tier_dump (db s) r reason complete a) as [x a'] eqn:Ed.
  rewrite (bind_ok _ _ _ x (with_archive (Some a') s)) by (unfold in_archive; by rewrite Ed). destruct x as [x|e].
  - destruct (bool_decide (blocked s = [])).
    + rewrite (bind_ok _ _ _ tt (with_archive (Some a') s)) by done.
      destruct (recorded r (Ok x) true "dumps_ok" (with_archive (Some a') s)) as (s' & E & E1 & _). by exists true, s'.
    + edestruct (recorded r (Ok x) true "dumps_ok") as (s' & E & E1 & _). exists true, s'. erewrite bind_ok by done. by rewrite E, E1.
  - destruct (recorded r (Raise e) false "dumps_failed" (with_archive (Some a') s)) as (s' & E & E1 & E2). exists false, s'.
    split; [done|]. split; [done|]. intros _ q Eq. right. exists r, reason, q, (db s), complete, a, e, a'. by rewrite E1, E2.
Qed.

Lemma drain_dumps_ends fuel k (s : S) : (length (dump_queue s) < fuel)%nat →
  ∃ n s', drain_dumps fuel None k s = (Ok (k + n)%nat, s') ∧ (n ≤ length (dump_queue s))%nat ∧
    dump_queue s' = drop n (dump_queue s) ∧ (dump_queue s' = [] ∨ refused s').
Proof.
  revert k s. induction fuel as [|fuel IH]; intros k s Hf; [lia|]. cbn [drain_dumps]. unfold peek, mbind at 1, eff_bind at 1.
  destruct (dump_queue s) as [|[r reason] q] eqn:Eq.
  { exists 0%nat, s. split; [by rewrite Nat.add_0_r|]. split; [done|]. split; [done|by left]. }
  destruct (dump_run_ends r reason s) as (b & s1 & E & Eq1 & Hb). unfold mbind at 1, eff_bind at 1. rewrite E.
  destruct b; cbn [negb].
  - unfold put, mbind, eff_bind. set (s2 := with_queue _ _ s1).
    assert (dump_queue s2 = q) as Eq2 by (unfold s2; simpl; by rewrite Eq1, Eq).
    destruct (IH (k + 1)%nat s2) as (n & s' & E' & Hn & Eq' & Hend).
    { rewrite Eq2. simpl in Hf. lia. }
    exists (n + 1)%nat, s'. rewrite E'. split; [f_equal; f_equal; lia|]. rewrite Eq2 in *. split; [simpl; lia|].
    split; [|done]. rewrite Nat.add_1_r. done.
  - exists 0%nat, s1. split; [by rewrite Nat.add_0_r|]. split; [lia|]. split; [by rewrite Eq1, Eq|]. right. by eapply Hb.
Qed.

End Queue.

(** ** A run that ends, and one that is written again *)

Module ServiceExamples.
#[local] Instance text : PyText := no_text.
#[local] Instance numpy : Numpy := {| tobytes := le_bytes; frombuffer := λ buf w n off, Ok (words w n (drop off buf)) |}.
#[local] Instance hot_env : HotEnv := {| as_uint8 := λ z, z mod 256; clock := Z.of_nat |}.

(** The dictionaries of the example and the text of each. *)
Definition ints (l : list (string * Z)) : pyval := PDict (map (λ p, (p.1, PInt p.2)) l).
Definition as_ints (v : pyval) : option (list (string * Z)) :=
  match v with PDict d => mapM (λ p, match p.2 with PInt z => Some (p.1, z) | _ => None end) d | _ => None end.

Lemma as_ints_ints l : as_ints (ints l) = Some l.
Proof. unfold as_ints, ints. induction l as [|[k z] l IH]; [done|]. cbn. cbn in IH. by rewrite IH. Qed.

Definition texts : list (list (string * Z) * string) :=
  [([("h1", 1); ("h9", 7)], "{h1: 1, h9: 7}"); ([("h9", 7)], "{h9: 7}"); ([("h1", 1)], "{h1: 1}"); ([("t1", 0)], "{t1: 0}")].

#[local] Instance duck_env : DuckEnv := {|
  duck_clock := λ n, DateTime 2024 5 7 0 0 (Z.of_nat n) 0;
  json_dumps := λ v, match List.find (λ p, bool_decide (as_ints v = Some p.1)) texts with Some p => Ok p.2 | None => Raise ValueError end;
  np_datetime := λ _, Raise ValueError;
  try_cast_bigint := λ _, None
|}.
#[local] Instance times : TimeText := {| parse_sim_clock := λ _, Ok (DateTime 2024 5 6 7 8 9 0); epoch_ms := λ _, f_of_Z 1000 |}.
#[local] Instance service_env : ServiceEnv := {|
  json_loads := λ s, match List.find (λ p, bool_decide (s = p.2)) texts with Some p => Ok (ints p.1) | None => Raise ValueError end;
  float_bits := λ f, match f with S754_finite _ m _ => Zpos m | _ => 0 end;
  exn_text := λ _, "error"
|}.
#[local] Instance json_laws : JsonLaws.
Proof.
  split. intros l s _. fold (ints l).
  change (json_dumps (ints l)) with (match List.find (λ p, bool_decide (as_ints (ints l) = Some p.1)) texts with Some p => Ok p.2 | None => Raise ValueError end).
  rewrite as_ints_ints. cbn [List.find texts fst snd].
  repeat (case_bool_decide as E; [injection E as ->; intros [= <-]; split; [done|by vm_compute]|clear E]). done.
Qed.
#[local] Instance no_consumer : ConsumerTier unit := {| blocked_topics := λ _, []; flushed := λ _ c, c; note_discard := λ _ c, c |}.
#[local] Instance no_archive : ArchiveTier unit := {|
  tier_dump := λ _ _ _ _ a, (Raise DuckStoreError, a); tier_reconcile := λ _ a, (Raise DuckStoreError, a);
  tier_is_pending := λ _ _ a, (Ok true, a)
|}.

Abbreviation S := (service unit unit).

Definition start : S :=
  Service None (Duck (Tables [] ∅ ∅ ∅ ∅) true [] 0) (Some tt) None (Books [] [] [] [] [] [] [] []) [] [] [] [] (new_bus 10).

Definition position : pydict :=
  [("type", PStr "truck_loc"); ("truck_agent_id", PStr "t1"); ("haulier_id", PStr "h1"); ("lon", PInt 3); ("lat", PInt 4);
   ("sim_clock", PStr "t"); ("haul_state", PStr "idle")].
Definition ended : pydict := [("status", PStr "completed")].


Definition run_calls (cs : list call) (s : S) : S := foldl (λ s c, (exec c s).2) s cs.

Lemma run_calls_steps cs s : rtc step s (run_calls cs s).
Proof. revert s. induction cs as [|c cs IH]; intros s; [apply rtc_refl|]. eapply rtc_l; [apply calls|apply IH]. Qed.

Abbreviation closed_run := (run_calls [OnTripGeo "run" position; OnRunStatus "run" ended] start).
(** A straggling position, a replay of the end, and a sweep. *)
Abbreviation later := (run_calls [OnTripGeo "run" position; OnRunStatus "run" ended; Sweep] closed_run).

Lemma finalized_runs_are_closed_witness :
  length (run_rows "run" (rows (db closed_run))) = 1%nat ∧ dump_queue closed_run = [("run", "completed")] ∧
  "run" ∈ finalized (runs_book later) ∧ nonresident "run" later ∧
  run_rows "run" (rows (db later)) = run_rows "run" (rows (db closed_run)).
Proof.
  split; [by vm_compute|]. split; [by vm_compute|].
  apply (finalized_runs_are_closed start closed_run later "run").
  - done.
  - apply run_calls_steps.
  - by apply (bool_decide_unpack _); vm_compute.
  - apply run_calls_steps.
Defined.

(** A resident run, and an older book of it on disk. *)
Definition tier : HotStore.store :=
  (history [UpdatePosition "run" "t1" 1 2 (PStr "idle") (Some "h1") 5] (new_store 4 4 8 None)).2.

#[local] Instance hot_laws : HotEnvLaws.
Proof. split; [intros z Hz; simpl; rewrite Z.mod_small; lia|intros n m Hle; simpl; lia]. Qed.

Lemma tier_wf : store_wf tier.
Proof.
  apply (history_wf [UpdatePosition "run" "t1" 1 2 (PStr "idle") (Some "h1") 5] (new_store 4 4 8 None) (new_store_wf 4 4 8 None)).
  - by intros fn r v [=].
  - by vm_compute.
Qed.

Definition writing : S :=
  Service (Some tier) (Duck (Tables [] ∅ ∅ {[ "run" := [("haulier_codes", CVal (PStr "{h9: 7}"))] ]} ∅) true [] 0) None None
    (Books [] [] [] [] [] [] [] []) [] [] [] [] (new_bus 10).
Abbreviation wrote := (persist_run_meta "run" None false writing).2.

Lemma ended_in {X} (m : eff S X) s x : (m s).1 = Ok x → m s = (Ok x, (m s).2).
Proof. intros <-. apply surjective_pairing. Qed.

Lemma resident_tier (P : HotStore.store → Prop) st h : Some st = Some h → P st → P h.
Proof. by intros [= <-]. Qed.

Lemma code_books_grow_witness :
  book_at "run" "haulier_codes" (rows (db wrote)) = Ok [("h1", 1); ("h9", 7)] ∧
  ∃ new, book_at "run" "haulier_codes" (rows (db wrote)) = Ok new ∧
    ∀ name, d_get new name = match d_get [("h9", 7)] name with Some c => Some c | None => d_get (live_book "run" "haulier_codes" writing) name end.
Proof.
  split; [by vm_compute|].
  apply (code_books_grow "run" None false "haulier_codes" [("h9", 7)] writing wrote).
  - done.
  - intros h E. exact (resident_tier store_pre tier h E (wf_pre _ tier_wf)).
  - by left.
  - by vm_compute.
  - apply ended_in. by vm_compute.
Defined.
End ServiceExamples.
